(* ===== verification/_CoqProject ===== *)
-Q . S2P
Prelude.v
GoStrings.v
GoText.v
GoRegexp.v
Wire.v
Keypath.v
Authz.v
Errors.v
Gate.v
Meta.v
Fsm.v
Router.v
Watch.v
FsmWire.v
FsmInv.v
FsmSpec.v
FsmTrace.v
FsmStore.v
Consensus.v
Cluster.v
Session.v
FsmContract.v
Server.v
FsmTheorems.v
Raftpb.v
RaftLog.v
LogReader.v
Raft.v
RaftPeer.v
RaftNode.v
RaftQuiet.v
RaftElection.v
RaftCluster.v
RaftTheorems.v
RsmMembers.v
GoJson.v
RsmSession.v
RsmMachine.v
SnapshotIo.v
SnapshotFile.v
Snapshotter.v
Rsm.v
RsmApply.v
RsmOnce.v
RsmRecover.v
RsmShard.v
Request.v
RequestHeap.v
RequestRuns.v
RequestSteps.v
RequestTheorems.v
Retry.v
HostConfig.v
Host.v
Forward.v
Dispatch.v
Admin.v
Client.v
