(* ===== verification/Prelude.v ===== *)
(** * Zuul: a verification library

    Zuul is a distributed lock and leader-election service written in Go.  Clients
    call a gRPC service; a call is authenticated, authorised, routed by the hash of
    its key to a shard, and proposed as a command to the Raft group of that shard; the
    replicas of the group apply the committed commands to identical state machines,
    whose answers go back to the caller and whose ownership changes wake the blocked
    calls.  The Raft library is a copy of dragonboat kept in the repository.  This
    library translates that code to executable definitions and proves what makes it
    correct.  Paths below are relative to src/.

    ** The parts and their files

    - Prelude (this file), GoStrings, GoText, GoRegexp: results and machine integers,
      record updates, tactics and hint databases, and the parts of the Go standard
      library the sources use (UTF-8, strings, bufio lines, regexp).
    - Keypath: internal/auth/keypath.  Authz: internal/auth/authz with its files.
      Errors: errors/.  Gate: internal/node/auth.go and context/identity.go, the
      authentication of every call and the rate limits.
    - Fsm: internal/raft/fsm, the state machine of a shard: [Apply], the operations on
      locks and leases, queries, snapshots.  FsmInv has its invariant, FsmSpec the
      abstract lock service it refines, FsmTrace what holds along runs, FsmStore
      snapshots and replicas, FsmContract what callers rely on, FsmTheorems the results.
    - Wire, FsmWire: the protobuf encoding of commands, results and snapshots.
      Meta: internal/raft/meta, the topology shard, and the resolvers.
      Consensus: internal/raft/consensus/sm.go and sm_meta.go, the adapters that the
      Raft library drives, over bytes.
    - Router: internal/cluster/router, with xxHash, and internal/raft/cmd.
      Watch: internal/lock/watch, the hub that wakes blocked calls.
    - Cluster: the interface through which the service sees the shards, as a class with
      laws.  Session: internal/lock/session.  Server: internal/server/server.go and
      election.go, the handlers, proved against the interfaces of Cluster and Watch.
    - Request: internal/dragonboat/request.go, queue.go and client/session.go, with the
      calls of node.go and nodehost.go that lead there: the tables of the pending
      requests, over a heap of request objects with their pool.  RequestHeap: what the
      tables do to the objects.  RequestRuns: the tables under the threads that share
      them, step by step, and the life of a request as an automaton ([life]).
      RequestSteps: every step keeps the invariant and the automaton.  RequestTheorems:
      what callers can rely on.
    - Retry: the vendored retry loop and context/deadline.go.  HostConfig, Host:
      internal/raft/consensus/host.go with the checks of internal/dragonboat/config, over
      the class [NodeHost] of what dragonboat does on the shards of a cluster.  Forward:
      internal/raft/forward, the dispatcher, its peers and the pool of connections.
      Dispatch: the dispatcher and the host as an instance of the class [Cluster], so that
      the theorems on the handlers hold over forwarding, and a cluster in memory for the
      witnesses.  Admin: internal/server/cluster.go, browse.go and observers.go.
    - Client: client/client.go, the options and credentials of a client and its session
      with the heartbeat, over the class [SessionService] of the service behind the
      connection.
    - Raftpb, RaftLog, LogReader, Raft, RaftPeer, RaftNode: internal/dragonboat: raftpb,
      the in-memory and stored log, the protocol core with every handler, the peer, and
      the cycle of a node (node.go, engine.go, quiesce.go).  RaftQuiet and RaftElection
      prove what a handler does to elections, RaftCluster composes nodes, their storage
      and a network into a step relation, RaftTheorems has the results.
    - RsmMembers, RsmSession (with GoJson for its encoding), RsmMachine: the parts of
      internal/dragonboat/internal/rsm: membership, client sessions and their cache, the
      adapters over a user's machine, payloads and the task queue.  SnapshotIo and
      SnapshotFile: snapshot files, blocks and validators (rwv.go, snapshotio.go).
      Snapshotter: snapshotter.go with its directories and records.  Rsm: statemachine.go,
      the apply loop, saving and recovering.  RsmApply, RsmOnce and RsmRecover have the
      theorems on it, against classes that say what a user's machine has to do, and
      RsmShard puts the machines of Consensus on it, as instances of those classes.

    State is kept as records with the fields of the Go structs; a function that
    mutates returns the new state; an error is a [result], a panic is [None]; numbers
    are [Z] with their wrap-around written out.  What the Go runtime chooses (the order
    of ranging over a map, random timeouts, the interleaving of goroutines) is an
    argument or a step relation.

    ** What is proved

    - A shard: every log of commands is carried out as the abstract lock service
      prescribes ([FsmTheorems.run_refines]); tokens fence ([fencing],
      [stale_token_refused]); queues are fair and waiters are served; the end of a lease
      frees exactly what its client had; snapshots restore and replicas agree, also
      through the encodings ([Consensus.recovered_replica_agrees]).
    - Raft: in every run of a cluster whose messages may be lost, duplicated and
      reordered and whose nodes may crash between any two of their actions and restart
      from what they stored, at most one node leads a term and a node votes once per
      term ([RaftTheorems.one_leader_per_term], [votes_once]).  The voters stay within a
      fixed set of members, while a committed configuration change is not applied the
      applied index is below the committed one, and terms stay below 2^64 - 1.
    - The replicated state machine: however committed entries are cut into tasks and
      batches, the outcome is the same ([RsmApply.cuts_agree]), a replica of a lock shard
      carries out exactly the log ([RsmShard.shard_applies_log]), a command of a client
      session runs at most once ([RsmOnce.runs_once]), and well-formed replicas never get
      stuck ([RsmOnce.replica_well_formed]).  A snapshot brings a replica back to the
      state it was prepared in ([RsmRecover.restart_restores]), a crash while it is
      committed is harmless ([Snapshotter.commit_atomic]), and its file round-trips and is
      validated exactly ([SnapshotFile]).  Configuration changes are decided by the roles
      of the nodes ([RsmMembers.changes_decided]) and keep the members consistent, and the
      Raft core agrees with the replica on them ([RsmMembers]).
    - The service: a lock reported as acquired was held under the answered token
      ([Server.acquired_means_held]); a refused call changes nothing; a keepalive that
      succeeds has renewed the leases; a waiter misses no promotion
      ([Watch.waiter_never_misses]); the gate decides which identity a handler sees.
    - Pending requests: a node answers every request once and never panics on the way
      ([RequestTheorems.requests_answered_once]), each request follows the automaton
      ([requests_follow_life]), so that results belong to their proposals
      ([proposal_results]) and completed reads are fresh ([completed_reads_fresh]); late
      proposals time out ([late_proposals_time_out]), and the queue in between keeps the
      order and leaves the slices it has handed out alone ([queue_in_order]).
    - Host and forwarding: a forwarded command was applied during the call and its
      answer is that of the application ([Forward.dispatch_commits]), a dispatch ends
      ([dispatch_ends]) and what its failures report is known ([dispatch_failures]); the
      expiry sweep misses no lease ([Host.expire_due_sweeps]); membership changes reach
      every shard and the topology ([Admin.membership_changes]), and a listing has exactly
      the locks under its prefix ([Admin.browse_exact]).
    - The client sends no token without protection, and one the server knows passes the
      gate ([Client.token_needs_credentials], [credentials_pass_gate]); its heartbeat keeps
      the lease while pulses are answered ([heartbeat_keeps_lease]) and leaves no stream
      behind ([streams_accounted]); examples show what it does not notice.
    - Paths, policies, encodings and errors: equivalence with declarative definitions
      and round trips.

    ** Bounds and fuel

    Recursion is structural where the code's is; loops that are not carry fuel that is
    at least the number of rounds the code can make, and the theorems say that it is
    enough: the blocking calls of Server take the number of events they wait for, and
    answer [None] when more are needed.  Counters are proved not to wrap within 2^63
    commands.

    ** Not modelled

    Of the client library mutexes, elections, the discovery of masters and the cache of
    Azure tokens; the assembly of the process, TLS and OIDC, the web pages,
    telemetry and generated stubs; of dragonboat the start and stop of nodes in the node
    host (its promise is the class [NodeHost]), the transport with the streaming of
    snapshots, external snapshot files and the key-value engine.  They are input and output,
    wrappers around libraries, or left for later. *)
From Corelib Require Export ssreflect.
From stdpp Require Export base tactics list gmap strings sorting.
From Stdlib Require Export ZArith Lia.

#[global] Open Scope general_if_scope.

Declare Scope zuul_scope.
Delimit Scope zuul_scope with zuul.

(** ** Results of fallible Go functions

    A Go function returning [(T, error)] is translated to [result T E], with
    [E] the inductive type of the errors that function can build. *)
Inductive result (A E : Type) : Type :=
| Ok (a : A)
| Err (e : E).
Arguments Ok {A E} a.
Arguments Err {A E} e.

#[export] Instance result_eq_dec `{EqDecision A, EqDecision E} : EqDecision (result A E).
Proof. solve_decision. Defined.

Definition result_bind {A B E} (r : result A E) (k : A → result B E) : result B E :=
  match r with
  | Ok a => k a
  | Err e => Err e
  end.

Definition is_ok {A E} (r : result A E) : bool :=
  match r with
  | Ok _ => true
  | Err _ => false
  end.

Notation "x ':=?' r ';;' k" := (result_bind r (λ x, k))
  (at level 100, r at level 99, k at level 200, right associativity) : zuul_scope.

Lemma result_bind_Ok {A B E} (r : result A E) (k : A → result B E) b :
  result_bind r k = Ok b ↔ ∃ a, r = Ok a ∧ k a = Ok b.
Proof. destruct r as [a|e]; simpl; naive_solver. Qed.

Lemma is_ok_true {A E} (r : result A E) : is_ok r = true ↔ ∃ a, r = Ok a.
Proof. destruct r; naive_solver. Qed.

(** ** Machine integers

    Go's fixed-width integers are kept as [Z]; every operation that can wrap is
    followed by the truncation of its type. *)
Definition u64 (z : Z) : Z := (z mod 2 ^ 64)%Z.
Definition u32 (z : Z) : Z := (z mod 2 ^ 32)%Z.
Definition i64 (z : Z) : Z := ((z + 2 ^ 63) mod 2 ^ 64 - 2 ^ 63)%Z.

Definition in_u64 (z : Z) : Prop := (0 ≤ z < 2 ^ 64)%Z.
Definition in_i64 (z : Z) : Prop := (- 2 ^ 63 ≤ z < 2 ^ 63)%Z.

(** Tactic for the bounds of truncated integers: replaces the powers of two by
    numerals before calling [lia]. *)
Ltac zlia :=
  unfold u64, u32, i64, in_u64, in_i64 in *;
  change (2 ^ 64)%Z with 18446744073709551616%Z in *;
  change (2 ^ 63)%Z with 9223372036854775808%Z in *;
  change (2 ^ 32)%Z with 4294967296%Z in *;
  Z.to_euclidean_division_equations; lia.

Section integers.
Local Open Scope Z_scope.

Lemma u64_small z : in_u64 z → u64 z = z.
Proof. intros Hz. by apply Z.mod_small. Qed.

Lemma u32_small z : 0 ≤ z < 2 ^ 32 → u32 z = z.
Proof. intros Hz. by apply Z.mod_small. Qed.

Lemma i64_small z : in_i64 z → i64 z = z.
Proof. intros Hz. zlia. Qed.

Lemma u64_range z : in_u64 (u64 z).
Proof. zlia. Qed.

Lemma i64_range z : in_i64 (i64 z).
Proof. zlia. Qed.
End integers.

Create HintDb zuul discriminated.
#[export] Hint Resolve u64_range i64_range : zuul.

(** ** Record updates

    [x <| proj := v |>] is the record [x] with its field [proj] set to [v], and
    [x <| proj ::= f |>] with [f] applied to that field.  A record type takes part
    once it has an [Eta] instance that rebuilds a value from its projections. *)
Class Eta (R : Type) := eta : R → R.
Class Setter {R T : Type} (proj : R → T) := upd : (T → T) → R → R.
Arguments upd {R T} proj {Setter} f x : simpl never.

Ltac build_setter :=
  lazymatch goal with
  | |- @Setter ?R ?T ?proj =>
      let e := constr:(_ : Eta R) in
      let e := eval hnf in e in
      exact (λ (f : T → T) (x : R), ltac:(
        let b := eval cbv beta in (e x) in
        match b with context C [proj x] => let b' := context C [f (proj x)] in exact b' end))
  end.
#[export] Hint Extern 1 (Setter _) => build_setter : typeclass_instances.

Notation "x <| proj := v |>" := (upd proj (λ _, v) x)
  (at level 1, left associativity, v at level 99, format "x  <| proj  :=  v |>").
Notation "x <| proj ::= f |>" := (upd proj f x)
  (at level 1, left associativity, f at level 99, format "x  <| proj  ::=  f |>").

(** Reads a field through the updates around it. *)
Ltac is_field R p :=
  let e := eval hnf in (@eta R _) in
  lazymatch e with context [p] => idtac end.
Ltac proj_simpl :=
  repeat match goal with
  | |- context [?p (@upd ?R ?T ?p ?S ?f ?x)] => change (p (@upd R T p S f x)) with (f (p x)); cbv beta
  | |- context [?p (@upd ?R ?T ?q ?S ?f ?x)] => is_field R p; change (p (@upd R T q S f x)) with (p x)
  end.
Ltac proj_simpl_in H :=
  repeat match type of H with
  | context [?p (@upd ?R ?T ?p ?S ?f ?x)] => change (p (@upd R T p S f x)) with (f (p x)) in H; cbv beta in H
  | context [?p (@upd ?R ?T ?q ?S ?f ?x)] => is_field R p; change (p (@upd R T q S f x)) with (p x) in H
  end.

(** ** Sorted enumeration of string sets

    [slices.Sort] over the keys of a Go map: an ascending list without
    duplicates.  Go compares strings bytewise, as [String.le] does. *)
Definition sortedSet (X : gset string) : list string :=
  merge_sort String.le (elements X).

Definition sortedKeys {V} (m : gmap string V) : list string := sortedSet (dom m).

Section sorted_sets.
Implicit Types X Y : gset string.

Lemma sortedSet_perm X : sortedSet X ≡ₚ elements X.
Proof. apply merge_sort_Permutation. Qed.

Lemma elem_of_sortedSet X x : x ∈ sortedSet X ↔ x ∈ X.
Proof. by rewrite sortedSet_perm elem_of_elements. Qed.

Lemma NoDup_sortedSet X : NoDup (sortedSet X).
Proof. rewrite sortedSet_perm. apply NoDup_elements. Qed.

Lemma sortedSet_sorted X : StronglySorted String.le (sortedSet X).
Proof. apply StronglySorted_merge_sort; apply _. Qed.

(** The enumeration is the only ascending duplicate-free list of its members,
    so it does not depend on the order a Go map happens to iterate in. *)
Lemma sortedSet_unique X l :
  NoDup l → StronglySorted String.le l → (∀ x, x ∈ l ↔ x ∈ X) → l = sortedSet X.
Proof.
  intros Hnd Hs Hl. eapply (StronglySorted_unique String.le); [done|apply sortedSet_sorted|].
  apply NoDup_Permutation; [done|apply NoDup_sortedSet|].
  intros x. by rewrite Hl elem_of_sortedSet.
Qed.

Lemma sortedSet_empty : sortedSet ∅ = [].
Proof. done. Qed.

Lemma length_sortedSet X : length (sortedSet X) = size X.
Proof. by rewrite sortedSet_perm. Qed.

Lemma elem_of_sortedKeys {V} (m : gmap string V) k :
  k ∈ sortedKeys m ↔ is_Some (m !! k).
Proof. by rewrite /sortedKeys elem_of_sortedSet elem_of_dom. Qed.

Lemma NoDup_sortedKeys {V} (m : gmap string V) : NoDup (sortedKeys m).
Proof. apply NoDup_sortedSet. Qed.
End sorted_sets.

#[export] Hint Resolve NoDup_sortedSet sortedSet_sorted NoDup_sortedKeys : zuul.

(** ** Generic list lemmas *)
Section lists.
Context {A : Type}.

(** Folding a state transformer over a list preserves an invariant the
    transformer preserves on members of the list. *)
Lemma foldl_invariant {S} (P : S → Prop) (f : S → A → S) l s :
  P s → (∀ s x, x ∈ l → P s → P (f s x)) → P (foldl f s l).
Proof.
  revert s. induction l as [|x l IH]; intros s Hs Hf; simpl; [done|].
  apply IH; [apply Hf; [by left|done]|]. intros s' y Hy. apply Hf. by right.
Qed.

(** A loop that strikes each visited element off a set of pending elements
    leaves only pending elements it did not visit. *)
Lemma foldl_shrink {S} (P : S → Prop) (R : S → A → Prop) (f : S → A → S) l s :
  P s → (∀ s x, P s → P (f s x)) →
  (∀ s x y, P s → R (f s x) y → R s y ∧ y ≠ x) →
  P (foldl f s l) ∧ ∀ y, R (foldl f s l) y → R s y ∧ y ∉ l.
Proof.
  intros Hs HP HR. revert s Hs. induction l as [|x l IH]; intros s Hs; simpl.
  { split; [done|]. intros y Hy. split; [done|apply not_elem_of_nil]. }
  destruct (IH (f s x) (HP _ _ Hs)) as [HPl HRl]. split; [done|]. intros y Hy.
  destruct (HRl y Hy) as [[Hsy Hne]%HR Hnot]; [|done].
  split; [done|]. by apply not_elem_of_cons.
Qed.

Lemma StronglySorted_filter (R : relation A) (P : A → Prop) `{∀ x, Decision (P x)} l :
  StronglySorted R l → StronglySorted R (filter P l).
Proof.
  induction 1 as [|x l Hl IH Hx]; [constructor|]. rewrite filter_cons.
  case_decide; [|done]. constructor; [done|]. rewrite Forall_forall in Hx. apply Forall_forall.
  intros y [_ Hy]%list_elem_of_filter. auto.
Qed.

Lemma StronglySorted_snoc (R : relation A) l x :
  StronglySorted R l → Forall (λ y, R y x) l → StronglySorted R (l ++ [x]).
Proof.
  intros Hs Hx. apply StronglySorted_app_2; [|done|repeat constructor].
  intros y z Hy ->%list_elem_of_singleton. by eapply Forall_forall in Hx.
Qed.
End lists.

Lemma Forall_sublist {A} (P : A → Prop) (l l' : list A) :
  l `sublist_of` l' → Forall P l' → Forall P l.
Proof. induction 1; [done|..]; intros [? ?]%Forall_cons; [constructor|]; auto. Qed.

Lemma StronglySorted_sublist {A} (R : A → A → Prop) (l l' : list A) :
  l `sublist_of` l' → StronglySorted R l' → StronglySorted R l.
Proof.
  induction 1; [done|..]; intros [? ?]%StronglySorted_cons; [|auto].
  apply StronglySorted_cons. split; [|auto]. by eapply Forall_sublist.
Qed.

Lemma prefix_singleton {A} (l : list A) (x : A) : l `prefix_of` [x] → l = [] ∨ l = [x].
Proof. intros [k E]. destruct l as [|y [|z l]]; simplify_eq/=; auto. Qed.
