(* ===== verification/GoStrings.v ===== *)
(** * The parts of Go's [strings] and [unicode/utf8] packages the sources use

    Go strings are byte sequences, as [string] is.  [range s] over a Go string
    decodes UTF-8: [runes] follows [utf8.DecodeRuneInString], which yields
    U+FFFD and consumes one byte on every malformed sequence. *)
From S2P Require Import Prelude.
From Stdlib Require Import Ascii.

Local Open Scope Z_scope.

Abbreviation byte_val c := (Z.of_N (N_of_ascii c)).

(** ** Lengths, prefixes, suffixes, separators *)
Definition len (s : string) : Z := Z.of_nat (String.length s).

Definition HasPrefix (s pre : string) : bool := String.prefix pre s.

Fixpoint HasSuffix (s suf : string) : bool :=
  bool_decide (s = suf) ||
  match s with
  | EmptyString => false
  | String _ s' => HasSuffix s' suf
  end.

(** [strings.TrimSuffix s suf], dropping one trailing [suf] if there is one. *)
Fixpoint TrimSuffix (s suf : string) : string :=
  if bool_decide (s = suf) then "" else
  match s with
  | EmptyString => ""
  | String c s' => String c (TrimSuffix s' suf)
  end.

(** [strings.Split s sep] for a one-byte separator. *)
Fixpoint Split (sep : ascii) (s : string) : list string :=
  match s with
  | EmptyString => [""]
  | String c s' =>
      if Ascii.eqb c sep then "" :: Split sep s'
      else match Split sep s' with
           | seg :: segs => String c seg :: segs
           | [] => [String c ""]
           end
  end.

(** [strings.Join segs sep], for a one-byte separator. *)
Fixpoint Join (sep : ascii) (segs : list string) : string :=
  match segs with
  | [] => ""
  | [s] => s
  | s :: segs' => s +:+ String sep (Join sep segs')
  end.

(** [rest[:i]] for [i = strings.IndexByte rest sep], when there is one. *)
Fixpoint cut_before (sep : ascii) (s : string) : option string :=
  match s with
  | EmptyString => None
  | String c s' =>
      if Ascii.eqb c sep then Some ""
      else String c <$> cut_before sep s'
  end.

(** The bytes of a string in order. *)
Fixpoint bytes_of (s : string) : list ascii :=
  match s with
  | EmptyString => []
  | String c s' => c :: bytes_of s'
  end.

(** The string with these bytes. *)
Fixpoint string_of (l : list ascii) : string :=
  match l with
  | [] => ""
  | c :: l' => String c (string_of l')
  end.

(** ** UTF-8 decoding *)
Definition RuneError : Z := 65533.

Definition in_range (lo hi b : Z) : bool := (lo <=? b) && (b <=? hi).

(** One decoding step: the rune at the head of the byte list and the number of
    bytes it takes, following the accept ranges of [unicode/utf8]. *)
Definition decode_rune (l : list ascii) : Z * nat :=
  match l with
  | [] => (RuneError, 0%nat)
  | c0 :: l1 =>
      let b0 := byte_val c0 in
      if b0 <? 128 then (b0, 1%nat)
      else if in_range 194 223 b0 then
        match l1 with
        | c1 :: _ =>
            let b1 := byte_val c1 in
            if in_range 128 191 b1
            then (Z.lor (Z.shiftl (Z.land b0 31) 6) (Z.land b1 63), 2%nat)
            else (RuneError, 1%nat)
        | _ => (RuneError, 1%nat)
        end
      else if in_range 224 239 b0 then
        let lo := if b0 =? 224 then 160 else 128 in
        let hi := if b0 =? 237 then 159 else 191 in
        match l1 with
        | c1 :: c2 :: _ =>
            let b1 := byte_val c1 in
            let b2 := byte_val c2 in
            if in_range lo hi b1 && in_range 128 191 b2
            then (Z.lor (Z.shiftl (Z.land b0 15) 12)
                    (Z.lor (Z.shiftl (Z.land b1 63) 6) (Z.land b2 63)), 3%nat)
            else (RuneError, 1%nat)
        | _ => (RuneError, 1%nat)
        end
      else if in_range 240 244 b0 then
        let lo := if b0 =? 240 then 144 else 128 in
        let hi := if b0 =? 244 then 143 else 191 in
        match l1 with
        | c1 :: c2 :: c3 :: _ =>
            let b1 := byte_val c1 in
            let b2 := byte_val c2 in
            let b3 := byte_val c3 in
            if in_range lo hi b1 && in_range 128 191 b2 && in_range 128 191 b3
            then (Z.lor (Z.shiftl (Z.land b0 7) 18)
                    (Z.lor (Z.shiftl (Z.land b1 63) 12)
                       (Z.lor (Z.shiftl (Z.land b2 63) 6) (Z.land b3 63))), 4%nat)
            else (RuneError, 1%nat)
        | _ => (RuneError, 1%nat)
        end
      else (RuneError, 1%nat)
  end.

(** [range s]: every step consumes at least one byte, so the length of the list
    is enough fuel ([runes_fuel_irrelevant]). *)
Fixpoint runes_fuel (n : nat) (l : list ascii) : list (Z * list ascii) :=
  match n, l with
  | O, _ => []
  | _, [] => []
  | S n', _ =>
      let '(r, w) := decode_rune l in
      (r, take w l) :: runes_fuel n' (drop w l)
  end.

Definition runes (s : string) : list Z :=
  (runes_fuel (String.length s) (bytes_of s)).*1.

(** ** Lemmas *)
Section append.
Implicit Types s t u : string.

Lemma append_cons c s t : String c s +:+ t = String c (s +:+ t).
Proof. done. Qed.

Lemma append_nil_r s : s +:+ "" = s.
Proof. induction s as [|c s IH]; [done|]. by rewrite append_cons IH. Qed.

Lemma append_assoc s t u : s +:+ (t +:+ u) = (s +:+ t) +:+ u.
Proof. induction s as [|c s IH]; [done|]. by rewrite !append_cons IH. Qed.

Lemma length_append s t : String.length (s +:+ t) = (String.length s + String.length t)%nat.
Proof. induction s as [|c s IH]; [done|]. by rewrite append_cons /= IH. Qed.

Lemma append_inj_r s1 s2 t : s1 +:+ t = s2 +:+ t → s1 = s2.
Proof.
  revert s2. induction s1 as [|c s1 IH]; intros [|c2 s2]; [done| | |].
  - intros H. exfalso. apply (f_equal String.length) in H.
    rewrite length_append /= in H. rewrite length_append /= in H. lia.
  - intros H. exfalso. apply (f_equal String.length) in H.
    rewrite length_append /= in H. rewrite length_append /= in H. lia.
  - rewrite !append_cons. intros [= -> H]. f_equal. by apply IH.
Qed.

Lemma bytes_of_append s t : bytes_of (s +:+ t) = bytes_of s ++ bytes_of t.
Proof. induction s as [|c s IH]; [done|]. by rewrite append_cons /= IH. Qed.

Lemma string_of_bytes s : string_of (bytes_of s) = s.
Proof. induction s as [|c s IH]; simpl; congruence. Qed.

Lemma bytes_of_string_of l : bytes_of (string_of l) = l.
Proof. induction l as [|c l IH]; simpl; congruence. Qed.

Lemma length_bytes_of s : length (bytes_of s) = String.length s.
Proof. induction s as [|c s IH]; simpl; congruence. Qed.
End append.

Section affixes.
Implicit Types s t : string.

Lemma HasPrefix_spec s pre : HasPrefix s pre = true ↔ ∃ t, s = pre +:+ t.
Proof.
  rewrite /HasPrefix. revert s. induction pre as [|c pre IH]; intros s; simpl.
  { split; [by exists s|]. by destruct s. }
  destruct s as [|d s]; [by split; [|intros [t Ht]]|].
  cbn [String.prefix]. destruct (ascii_dec c d) as [->|Hne].
  - rewrite IH. split; intros [t Ht]; exists t.
    + by rewrite append_cons -Ht.
    + rewrite append_cons in Ht. by injection Ht.
  - split; [done|]. intros [t Ht]. rewrite append_cons in Ht. by injection Ht.
Qed.

Lemma HasSuffix_spec s suf : HasSuffix s suf = true ↔ ∃ p, s = p +:+ suf.
Proof.
  induction s as [|c s IH]; cbn [HasSuffix]; rewrite orb_true_iff bool_decide_eq_true.
  - split; [intros [<-|]; [by exists ""|done]|].
    intros [[|c p] Hp]; [by left|by rewrite append_cons in Hp].
  - rewrite IH. split.
    + intros [<-|[p ->]]; [by exists ""|by exists (String c p)].
    + intros [[|d p] Hp]; [by left|]. rewrite append_cons in Hp.
      injection Hp as -> ->. right. by exists p.
Qed.

Lemma TrimSuffix_append p suf : TrimSuffix (p +:+ suf) suf = p.
Proof.
  induction p as [|c p IH].
  - change ("" +:+ suf) with suf. by destruct suf; cbn [TrimSuffix]; rewrite bool_decide_eq_true_2.
  - rewrite append_cons. cbn [TrimSuffix]. rewrite bool_decide_eq_false_2; [|by rewrite IH].
    intros H. apply (f_equal String.length) in H. simpl in H.
    rewrite length_append in H. lia.
Qed.

Lemma TrimSuffix_no_suffix s suf : HasSuffix s suf = false → TrimSuffix s suf = s.
Proof.
  induction s as [|c s IH]; cbn [HasSuffix TrimSuffix]; rewrite orb_false_iff.
  - intros [Hb _]. by rewrite Hb.
  - intros [Hb Hs]. by rewrite Hb IH.
Qed.
End affixes.

Section split_join.
Context (sep : ascii).
Implicit Types s : string.

Lemma Split_not_nil s : Split sep s ≠ [].
Proof. destruct s as [|c s]; simpl; [done|]. case_match; [done|]. by case_match. Qed.

Lemma Split_cons_other c s :
  c ≠ sep → ∃ seg segs, Split sep s = seg :: segs ∧ Split sep (String c s) = String c seg :: segs.
Proof.
  intros Hc. simpl. destruct (Ascii.eqb_spec c sep); [done|].
  destruct (Split sep s) as [|seg segs] eqn:E; [by apply Split_not_nil in E|eauto].
Qed.

Lemma Join_cons s segs : segs ≠ [] → Join sep (s :: segs) = s +:+ String sep (Join sep segs).
Proof. by destruct segs. Qed.

Lemma Join_cons_char c s segs : Join sep (String c s :: segs) = String c (Join sep (s :: segs)).
Proof. by destruct segs. Qed.

Lemma Join_Split s : Join sep (Split sep s) = s.
Proof.
  induction s as [|c s IH]; [done|].
  destruct (ascii_dec c sep) as [->|Hc].
  - cbn [Split]. rewrite Ascii.eqb_refl Join_cons; [apply Split_not_nil|by rewrite IH].
  - destruct (Split_cons_other c s Hc) as (seg & segs & E & ->).
    by rewrite Join_cons_char -E IH.
Qed.

Lemma Split_no_sep s seg : seg ∈ Split sep s → sep ∉ bytes_of seg.
Proof.
  revert seg. induction s as [|c s IH]; intros seg.
  { intros ->%list_elem_of_singleton. apply not_elem_of_nil. }
  destruct (ascii_dec c sep) as [->|Hc].
  - simpl. rewrite Ascii.eqb_refl. intros [->|?]%elem_of_cons; [apply not_elem_of_nil|auto].
  - destruct (Split_cons_other c s Hc) as (seg0 & segs & E & ->). rewrite E in IH.
    intros [->|?]%elem_of_cons; [|by apply IH; right].
    simpl. apply not_elem_of_cons; split; [done|]. apply IH. by left.
Qed.

Lemma Split_segment s : sep ∉ bytes_of s → Split sep s = [s].
Proof.
  induction s as [|c s IH]; [done|]. simpl. intros [Hc Hs]%not_elem_of_cons.
  destruct (Ascii.eqb_spec c sep); [done|]. by rewrite IH.
Qed.

Lemma Split_append s t : Split sep (s +:+ String sep t) = Split sep s ++ Split sep t.
Proof.
  induction s as [|c s IH].
  { change ("" +:+ String sep t) with (String sep t). simpl. by rewrite Ascii.eqb_refl. }
  rewrite append_cons. destruct (ascii_dec c sep) as [->|Hc].
  - cbn [Split]. by rewrite Ascii.eqb_refl IH.
  - destruct (Split_cons_other c s Hc) as (seg & segs & E & ->).
    destruct (Split_cons_other c (s +:+ String sep t) Hc) as (seg' & segs' & E' & ->).
    rewrite IH E in E'. by injection E' as <- <-.
Qed.

Lemma Split_app seg s : sep ∉ bytes_of seg → Split sep (seg +:+ String sep s) = seg :: Split sep s.
Proof. intros Hs. by rewrite Split_append Split_segment. Qed.

Lemma Split_Join segs :
  segs ≠ [] → Forall (λ seg, sep ∉ bytes_of seg) segs → Split sep (Join sep segs) = segs.
Proof.
  induction segs as [|s segs IH]; [done|]. intros _ [Hs Hsegs]%Forall_cons.
  destruct segs as [|s2 segs]; [by apply Split_segment|].
  rewrite Join_cons // Split_app // IH //.
Qed.

Lemma Join_app l1 l2 :
  l1 ≠ [] → l2 ≠ [] → Join sep (l1 ++ l2) = Join sep l1 +:+ String sep (Join sep l2).
Proof.
  intros H1 H2. induction l1 as [|s l1 IH]; [done|].
  destruct l1 as [|s1 l1]; [by apply Join_cons|].
  change ((s :: s1 :: l1) ++ l2) with (s :: ((s1 :: l1) ++ l2)).
  rewrite !(Join_cons s) // IH // -append_assoc. done.
Qed.

Lemma Split_inj s t : Split sep s = Split sep t → s = t.
Proof. intros H. by rewrite -(Join_Split s) H Join_Split. Qed.

(** The segments of [p] open those of [s] exactly when [s] is [p] or
    continues it after a separator. *)
Lemma Split_prefix p s :
  Split sep p `prefix_of` Split sep s ↔ s = p ∨ ∃ t, s = p +:+ String sep t.
Proof.
  split.
  - intros [rest Hrest]. destruct rest as [|seg rest].
    + left. apply Split_inj. by rewrite Hrest app_nil_r.
    + right. exists (Join sep (seg :: rest)).
      by rewrite -(Join_Split s) Hrest Join_app ?Join_Split //; apply Split_not_nil.
  - intros [->|[t ->]]; [done|]. rewrite Split_append. by apply prefix_app_r.
Qed.

Lemma cut_before_Split s :
  cut_before sep s = match Split sep s with
                     | seg :: _ :: _ => Some seg
                     | _ => None
                     end.
Proof.
  induction s as [|c s IH]; [done|].
  destruct (ascii_dec c sep) as [->|Hc].
  - simpl. rewrite Ascii.eqb_refl. destruct (Split sep s) eqn:E; [by apply Split_not_nil in E|done].
  - destruct (Split_cons_other c s Hc) as (seg & segs & E & ->).
    simpl. destruct (Ascii.eqb_spec c sep); [done|]. rewrite IH E. by destruct segs.
Qed.
End split_join.

(** ** Runes of ASCII strings

    A byte of 128 or more never decodes to an ASCII rune, so a predicate that
    only accepts ASCII runes holds of every rune of a string exactly when it
    holds of every byte. *)
Section ascii_runes.
Lemma Z_lor_ge_l a b : 0 ≤ a → 0 ≤ b → a ≤ Z.lor a b.
Proof.
  intros Ha Hb.
  assert (Z.lor a b = a + Z.ldiff b a) as ->.
  { rewrite Z.add_nocarry_lor; apply Z.bits_inj'; intros n _;
      rewrite ?Z.land_spec ?Z.lor_spec Z.ldiff_spec ?Z.bits_0;
      destruct (Z.testbit a n), (Z.testbit b n); done. }
  pose proof (proj2 (Z.ldiff_nonneg b a) (or_introl Hb)). lia.
Qed.

Lemma Z_lor_ge_r a b : 0 ≤ a → 0 ≤ b → b ≤ Z.lor a b.
Proof. intros. rewrite Z.lor_comm. by apply Z_lor_ge_l. Qed.

(** Shifting a nonzero value left by at least seven bits leaves ASCII. *)
Lemma shift_large a k : 1 ≤ a → 7 ≤ k → 128 ≤ Z.shiftl a k.
Proof.
  intros Ha Hk. rewrite Z.shiftl_mul_pow2; [lia|].
  assert (2 ^ 7 ≤ 2 ^ k) by (apply Z.pow_le_mono_r; lia).
  change (2 ^ 7) with 128 in *. nia.
Qed.

Lemma rune2_high x y : 2 ≤ x → 0 ≤ y → 128 ≤ Z.lor (Z.shiftl x 6) y.
Proof.
  intros Hx Hy. etrans; [|apply Z_lor_ge_l; [|done]];
    rewrite Z.shiftl_mul_pow2 //; change (2 ^ 6) with 64; lia.
Qed.

Lemma rune3_high x y z :
  0 ≤ x → 0 ≤ y → 0 ≤ z → 1 ≤ x ∨ 2 ≤ y →
  128 ≤ Z.lor (Z.shiftl x 12) (Z.lor (Z.shiftl y 6) z).
Proof.
  intros Hx Hy Hz Hxy.
  assert (0 ≤ Z.lor (Z.shiftl y 6) z) by (apply Z.lor_nonneg; by rewrite Z.shiftl_nonneg).
  destruct Hxy as [Hx'|Hy'].
  - etrans; [|apply Z_lor_ge_l; [|done]]; [by apply shift_large|by apply Z.shiftl_nonneg].
  - etrans; [|apply Z_lor_ge_r; [|done]]; [by apply rune2_high|by apply Z.shiftl_nonneg].
Qed.

Lemma rune4_high x y z w :
  0 ≤ x → 0 ≤ y → 0 ≤ z → 0 ≤ w → 1 ≤ x ∨ 1 ≤ y →
  128 ≤ Z.lor (Z.shiftl x 18) (Z.lor (Z.shiftl y 12) (Z.lor (Z.shiftl z 6) w)).
Proof.
  intros Hx Hy Hz Hw Hxy.
  assert (0 ≤ Z.lor (Z.shiftl y 12) (Z.lor (Z.shiftl z 6) w))
    by (rewrite !Z.lor_nonneg !Z.shiftl_nonneg; lia).
  destruct Hxy as [Hx'|Hy'].
  - etrans; [|apply Z_lor_ge_l; [|done]]; [by apply shift_large|by apply Z.shiftl_nonneg].
  - etrans; [|apply Z_lor_ge_r; [|done]]; [by apply rune3_high; auto|by apply Z.shiftl_nonneg].
Qed.

(** The leading payload of each multi-byte form, checked byte by byte. *)
Definition lead_ok (c : ascii) : bool :=
  let b := byte_val c in
  implb (in_range 194 223 b) (2 <=? Z.land b 31) &&
  implb (in_range 225 239 b) (1 <=? Z.land b 15) &&
  implb (in_range 241 244 b) (1 <=? Z.land b 7) &&
  implb (in_range 144 191 b) (16 <=? Z.land b 63).

Lemma lead_ok_all c : lead_ok c = true.
Proof. by destruct c as [[] [] [] [] [] [] [] []]. Qed.

Lemma lead_ok_spec c :
  let b := byte_val c in
  (194 ≤ b ≤ 223 → 2 ≤ Z.land b 31) ∧ (225 ≤ b ≤ 239 → 1 ≤ Z.land b 15) ∧
  (241 ≤ b ≤ 244 → 1 ≤ Z.land b 7) ∧ (144 ≤ b ≤ 191 → 16 ≤ Z.land b 63).
Proof.
  pose proof (lead_ok_all c) as Hl. unfold lead_ok, in_range in Hl. cbv zeta.
  apply andb_prop in Hl as [Hl H4]. apply andb_prop in Hl as [Hl H3].
  apply andb_prop in Hl as [H1 H2].
  split_and!; intros Hb; lia.
Qed.

Lemma decode_rune_ascii c l : byte_val c < 128 → decode_rune (c :: l) = (byte_val c, 1%nat).
Proof. intros Hc. cbn [decode_rune]. by destruct (Z.ltb_spec (byte_val c) 128); [|lia]. Qed.

Lemma in_range_true lo hi b : in_range lo hi b = true ↔ lo ≤ b ≤ hi.
Proof. by rewrite /in_range andb_true_iff !Z.leb_le. Qed.

Lemma decode_rune_high c l : 128 ≤ byte_val c → 128 ≤ (decode_rune (c :: l)).1.
Proof.
  intros Hc. cbn [decode_rune].
  destruct (Z.ltb_spec (byte_val c) 128); [lia|].
  pose proof (lead_ok_spec c) as (H2 & H3 & H4 & _).
  assert (∀ a m, 0 ≤ m → 0 ≤ Z.land a m) as Hnn by (intros; apply Z.land_nonneg; by right).
  repeat case_match; cbn [fst]; unfold RuneError; try lia;
    repeat match goal with
      | H : _ && _ = true |- _ => apply andb_prop in H as [? ?]
      | H : in_range _ _ _ = true |- _ => apply in_range_true in H
      | a : ascii |- _ => lazymatch goal with
                          | _ : 144 ≤ byte_val a ≤ 191 → _ |- _ => fail
                          | _ => pose proof (proj2 (proj2 (proj2 (lead_ok_spec a))))
                          end
      end.
  1: apply rune2_high; auto with lia.
  1-3: apply rune3_high; auto with lia.
  all: apply rune4_high; auto with lia.
Qed.

Lemma decode_rune_size l : l ≠ [] → (1 ≤ (decode_rune l).2)%nat.
Proof. destruct l as [|c l]; [done|]. intros _. cbn [decode_rune]. repeat case_match; simpl; lia. Qed.

Lemma runes_fuel_ascii (P : Z → Prop) n l :
  (length l ≤ n)%nat → (∀ r, P r → r < 128) →
  Forall P (runes_fuel n l).*1 ↔ Forall (λ c, P (byte_val c)) l.
Proof.
  intros Hn HP. revert l Hn. induction n as [|n IH]; intros [|c l] Hn; cbn [runes_fuel].
  1, 3: by split; constructor.
  { simpl in Hn. lia. }
  destruct (decide (byte_val c < 128)) as [Hc|Hc].
  - rewrite decode_rune_ascii //= !Forall_cons. change (drop 0 l) with l.
    rewrite IH //. simpl in Hn. lia.
  - destruct (decode_rune (c :: l)) as [r w] eqn:E. simpl.
    rewrite !Forall_cons. pose proof (decode_rune_high c l) as Hr. rewrite E /= in Hr.
    split; intros [Hp _]; apply HP in Hp; lia.
Qed.
End ascii_runes.

Lemma Forall_runes_ascii (P : Z → Prop) s :
  (∀ r, P r → r < 128) → Forall P (runes s) ↔ Forall (λ c, P (byte_val c)) (bytes_of s).
Proof. intros HP. apply runes_fuel_ascii; [by rewrite length_bytes_of|done]. Qed.

(** More fuel than bytes changes nothing: [runes] runs to the end of the string. *)
Lemma runes_fuel_irrelevant n l : (length l ≤ n)%nat → runes_fuel n l = runes_fuel (length l) l.
Proof.
  revert l. induction n as [n IH] using lt_wf_ind. intros l Hn.
  destruct n as [|n], l as [|c l]; try (simpl in *; lia || done).
  cbn [runes_fuel length]. pose proof (decode_rune_size (c :: l)) as Hw.
  destruct (decode_rune (c :: l)) as [r w]. simpl in Hw. f_equal.
  specialize (Hw ltac:(done)). destruct w as [|w]; [lia|]. simpl in *.
  rewrite (IH n) ?(IH (length l)) ?length_drop //; lia.
Qed.
