(* ===== verification/GoText.v ===== *)
(** * White space and lines: [strings.TrimSpace], [strings.Fields],
    [strings.EqualFold] on ASCII, and [bufio.Scanner] over lines

    White space is decided on decoded runes ([unicode.IsSpace]), so the
    functions work on the UTF-8 chunks of a string. *)
From S2P Require Import Prelude GoStrings.
From Stdlib Require Import Ascii.

Local Open Scope Z_scope.

(** ** Runes with their bytes *)
Definition chunk : Type := Z * list ascii.

Definition chunks_of (l : list ascii) : list chunk := runes_fuel (length l) l.
Definition chunks (s : string) : list chunk := chunks_of (bytes_of s).

(** [unicode.IsSpace]: the ASCII blanks, NEL, NBSP and the Unicode space
    separators. *)
Definition IsSpace (r : Z) : bool :=
  in_range 9 13 r || (r =? 32) || (r =? 133) || (r =? 160) || (r =? 5760) || in_range 8192 8202 r
  || (r =? 8232) || (r =? 8233) || (r =? 8239) || (r =? 8287) || (r =? 12288).

Definition is_blank (c : chunk) : bool := IsSpace c.1.

(** ** strings.TrimSpace and strings.Fields *)
Fixpoint trim_left (cs : list chunk) : list chunk :=
  match cs with
  | c :: cs' => if is_blank c then trim_left cs' else cs
  | [] => []
  end.

Definition trim_right (cs : list chunk) : list chunk := rev (trim_left (rev cs)).

Definition TrimSpace (s : string) : string :=
  string_of (concat (trim_right (trim_left (chunks s))).*2).

(** The fields of the chunks that are left, [cur] being the bytes of the field
    that is open. *)
Fixpoint fieldsFrom (cur : list ascii) (cs : list chunk) : list string :=
  match cs with
  | [] => match cur with [] => [] | _ => [string_of cur] end
  | c :: cs' =>
      if is_blank c
      then match cur with [] => fieldsFrom [] cs' | _ => string_of cur :: fieldsFrom [] cs' end
      else fieldsFrom (cur ++ c.2) cs'
  end.

Definition Fields (s : string) : list string := fieldsFrom [] (chunks s).

(** ** bufio.Scanner with ScanLines *)
Definition newline : ascii := ascii_of_N 10.
Definition carriage_return : ascii := ascii_of_N 13.

(** [bufio.MaxScanTokenSize] is 64 KiB, and the buffer must have room for one
    more byte than the line. *)
Definition maxLine : Z := 65535.

(** [dropCR] *)
Definition dropCR (l : string) : string := TrimSuffix l (String carriage_return "").

(** The raw lines of a file: what follows the last newline is a line only when
    it is not empty. *)
Fixpoint drop_last_empty (ls : list string) : list string :=
  match ls with
  | [] => []
  | [l] => if bool_decide (l = "") then [] else [l]
  | l :: ls' => l :: drop_last_empty ls'
  end.

Definition raw_lines (data : string) : list string := drop_last_empty (Split newline data).

(** ** Lemmas *)
Section chunks.
Implicit Types l : list ascii.

(** An ASCII byte is never a continuation byte: it always starts a chunk. *)
Lemma decode_rune_app_ascii l c r :
  l ≠ [] → byte_val c < 128 → decode_rune (l ++ c :: r) = decode_rune l.
Proof.
  intros Hl Hc. assert (∀ lo hi, 128 ≤ lo → in_range lo hi (byte_val c) = false) as Hr.
  { intros lo hi Hlo. rewrite /in_range. destruct (Z.leb_spec lo (byte_val c)); [lia|done]. }
  assert (∀ b x hi, in_range (if b =? x then 160 else 128) hi (byte_val c) = false) as Hr1
    by (intros; case_match; by apply Hr).
  assert (∀ b x hi, in_range (if b =? x then 144 else 128) hi (byte_val c) = false) as Hr2
    by (intros; case_match; by apply Hr).
  destruct l as [|b0 [|b1 [|b2 [|b3 l]]]]; [done|..|done]; cbn [decode_rune app];
    rewrite ?Hr1 ?Hr2 ?(Hr 128 191) // ?andb_false_r ?andb_false_l //; repeat (case_match; try done).
Qed.

Lemma decode_rune_width l : ((decode_rune l).2 ≤ length l)%nat.
Proof.
  destruct l as [|b0 [|b1 [|b2 [|b3 l]]]]; cbn [decode_rune length]; repeat case_match; simpl; lia.
Qed.

Lemma chunks_of_cons l :
  l ≠ [] → chunks_of l = ((decode_rune l).1, take (decode_rune l).2 l) :: chunks_of (drop (decode_rune l).2 l).
Proof.
  intros Hl. pose proof (decode_rune_size l Hl) as Hw. rewrite {1}/chunks_of.
  destruct (length l) as [|n] eqn:Hn; [by destruct l|]. cbn [runes_fuel]. destruct l as [|c l]; [done|].
  destruct (decode_rune (c :: l)) as [r w] eqn:E. f_equal. rewrite /chunks_of /=.
  apply runes_fuel_irrelevant. rewrite length_drop Hn. simpl in Hw. lia.
Qed.

Lemma chunks_of_app_ascii l c r :
  byte_val c < 128 → chunks_of (l ++ c :: r) = chunks_of l ++ (byte_val c, [c]) :: chunks_of r.
Proof.
  intros Hc. induction l as [l IH] using (induction_ltof1 _ length). rewrite /ltof in IH.
  destruct (decide (l = [])) as [->|Hl].
  - rewrite chunks_of_cons // decode_rune_ascii //.
  - pose proof (decode_rune_size l Hl) as Hw. pose proof (decode_rune_width l) as Hw'.
    rewrite chunks_of_cons; [by destruct l|]. rewrite decode_rune_app_ascii // (chunks_of_cons l) //.
    rewrite take_app_le // drop_app_le //= IH //. rewrite length_drop. destruct l; [done|]. simpl in *. lia.
Qed.

Lemma concat_chunks_of l : concat (chunks_of l).*2 = l.
Proof.
  induction l as [l IH] using (induction_ltof1 _ length). rewrite /ltof in IH.
  destruct (decide (l = [])) as [->|Hl]; [done|]. pose proof (decode_rune_size l Hl) as Hw.
  rewrite chunks_of_cons //= IH; [|by rewrite take_drop].
  rewrite length_drop. destruct l; [done|]. simpl in *. lia.
Qed.
End chunks.

(** ** Words: non-empty strings without white space *)
Definition word (s : string) : Prop := s ≠ "" ∧ Forall (λ c, is_blank c = false) (chunks s).

#[export] Instance word_dec s : Decision (word s).
Proof. apply _. Defined.

Section words.
Lemma chunks_append_ascii s c t :
  byte_val c < 128 → chunks (s +:+ String c t) = chunks s ++ (byte_val c, [c]) :: chunks t.
Proof. intros Hc. by rewrite /chunks bytes_of_append /= chunks_of_app_ascii. Qed.

Lemma fieldsFrom_word cur cs rest :
  Forall (λ c, is_blank c = false) cs → fieldsFrom cur (cs ++ rest) = fieldsFrom (cur ++ concat cs.*2) rest.
Proof.
  revert cur. induction cs as [|c cs IH]; intros cur; simpl; [by rewrite app_nil_r|].
  intros [-> Hcs]%Forall_cons. by rewrite IH // app_assoc.
Qed.

Lemma concat_chunks s : concat (chunks s).*2 = bytes_of s.
Proof. apply concat_chunks_of. Qed.

Lemma bytes_of_nil s : bytes_of s = [] → s = "".
Proof. by destruct s. Qed.

Lemma Fields_word s : word s → Fields s = [s].
Proof.
  intros [Hne Hs]. rewrite /Fields -(app_nil_r (chunks s)) fieldsFrom_word //= concat_chunks string_of_bytes.
  destruct (bytes_of s) eqn:E; [by apply bytes_of_nil in E|done].
Qed.

Lemma Fields_cons s c t :
  word s → byte_val c < 128 → IsSpace (byte_val c) = true → Fields (s +:+ String c t) = s :: Fields t.
Proof.
  intros [Hne Hs] Hc Hsp. rewrite /Fields chunks_append_ascii // fieldsFrom_word //= concat_chunks.
  rewrite /is_blank /= Hsp string_of_bytes. destruct (bytes_of s) eqn:E; [by apply bytes_of_nil in E|done].
Qed.

(** Nothing is trimmed between two words. *)
Lemma trim_left_id c cs : is_blank c = false → trim_left (c :: cs) = c :: cs.
Proof. simpl. by intros ->. Qed.

Lemma TrimSpace_id c cs d ds s :
  chunks s = c :: cs → chunks s = ds ++ [d] → is_blank c = false → is_blank d = false → TrimSpace s = s.
Proof.
  intros E1 E2 Hc Hd. rewrite /TrimSpace E1 trim_left_id // -E1 E2 /trim_right rev_app_distr /= Hd /=.
  by rewrite rev_involutive -E2 concat_chunks string_of_bytes.
Qed.
End words.

(** ** Lines *)
Fixpoint unlines (ls : list string) : string :=
  match ls with
  | [] => ""
  | l :: ls' => l +:+ String newline (unlines ls')
  end.

Section lines.
Lemma word_no_ascii_space s c :
  Forall (λ c, is_blank c = false) (chunks s) → byte_val c < 128 → IsSpace (byte_val c) = true → c ∉ bytes_of s.
Proof.
  rewrite /chunks. intros Hs Hc Hsp (l1 & l2 & E)%list_elem_of_split. rewrite E chunks_of_app_ascii // in Hs.
  apply Forall_app in Hs as [_ [Hb _]%Forall_cons]. rewrite /is_blank /= Hsp in Hb. done.
Qed.

Lemma Split_unlines ls :
  Forall (λ l, newline ∉ bytes_of l) ls → Split newline (unlines ls) = ls ++ [""].
Proof.
  induction ls as [|l ls IH]; [done|]. intros [Hl Hls]%Forall_cons. cbn [unlines app].
  by rewrite Split_app // IH.
Qed.

Lemma drop_last_empty_snoc ls : drop_last_empty (ls ++ [""]) = ls.
Proof.
  induction ls as [|l ls IH]; [done|]. cbn [app]. destruct ls as [|l' ls]; [done|].
  cbn [app] in *. cbn [drop_last_empty]. f_equal. apply IH.
Qed.

Lemma raw_lines_unlines ls : Forall (λ l, newline ∉ bytes_of l) ls → raw_lines (unlines ls) = ls.
Proof. intros Hls. by rewrite /raw_lines Split_unlines // drop_last_empty_snoc. Qed.
End lines.
