(* ===== verification/GoRegexp.v ===== *)
(** * Regular expressions over runes

    The part of Go's [regexp] the sources use: boolean, unanchored matching of
    expressions built from rune classes, by Brzozowski derivatives, with the
    language of an expression as the reference definition. *)
From S2P Require Import Prelude GoStrings.

Local Open Scope Z_scope.

Inductive re :=
| Nothing
| Eps
| Class (p : Z → bool)
| Alt (r s : re)
| Seq (r s : re)
| Star (r : re).

Fixpoint nullable (r : re) : bool :=
  match r with
  | Nothing | Class _ => false
  | Eps | Star _ => true
  | Alt r s => nullable r || nullable s
  | Seq r s => nullable r && nullable s
  end.

Fixpoint deriv (c : Z) (r : re) : re :=
  match r with
  | Nothing | Eps => Nothing
  | Class p => if p c then Eps else Nothing
  | Alt r s => Alt (deriv c r) (deriv c s)
  | Seq r s => if nullable r then Alt (Seq (deriv c r) s) (deriv c s) else Seq (deriv c r) s
  | Star r => Seq (deriv c r) (Star r)
  end.

Fixpoint matches (r : re) (l : list Z) : bool :=
  match l with
  | [] => nullable r
  | c :: l' => matches (deriv c r) l'
  end.

Definition any : re := Star (Class (λ _, true)).

(** [re.MatchString s]: some part of [s] matches. *)
Definition MatchString (r : re) (s : string) : bool := matches (Seq any (Seq r any)) (runes s).

(** ** The language of an expression *)
Inductive lang : re → list Z → Prop :=
| L_Eps : lang Eps []
| L_Class p c : p c = true → lang (Class p) [c]
| L_AltL r s l : lang r l → lang (Alt r s) l
| L_AltR r s l : lang s l → lang (Alt r s) l
| L_Seq r s l1 l2 : lang r l1 → lang s l2 → lang (Seq r s) (l1 ++ l2)
| L_StarNil r : lang (Star r) []
| L_StarCons r c l1 l2 : lang r (c :: l1) → lang (Star r) l2 → lang (Star r) (c :: l1 ++ l2).

#[export] Hint Constructors lang : zuul.

Section matching.
Lemma nullable_lang r : nullable r = true ↔ lang r [].
Proof.
  split.
  - induction r; simpl; try done; auto with zuul.
    + rewrite orb_true_iff. intros [?|?]; auto with zuul.
    + rewrite andb_true_iff. intros [? ?]. apply (L_Seq _ _ [] []); auto.
  - remember [] as l eqn:El. induction 1; simplify_eq/=; auto.
    + by rewrite (IHlang eq_refl).
    + by rewrite (IHlang eq_refl) orb_true_r.
    + apply app_eq_nil in El as [-> ->]. by rewrite (IHlang1 eq_refl) (IHlang2 eq_refl).
Qed.

Lemma deriv_lang r c l : lang (deriv c r) l ↔ lang r (c :: l).
Proof.
  split.
  - revert l. induction r as [| |p|r IHr s IHs|r IHr s IHs|r IHr]; intros l; simpl.
    + by inversion 1.
    + by inversion 1.
    + destruct (p c) eqn:E; inversion 1; subst; auto with zuul.
    + inversion 1; subst; auto with zuul.
    + destruct (nullable r) eqn:En.
      * inversion_clear 1 as [| |? ? ? H'|? ? ? H'| | |]; [|by apply (L_Seq _ _ []); [apply nullable_lang|auto]].
        inversion H' as [| | | |? ? l1 l2 H1 H2| |]; subst. rewrite app_comm_cons. auto with zuul.
      * inversion 1 as [| | | |? ? l1 l2 H1 H2| |]; subst. rewrite app_comm_cons. auto with zuul.
    + inversion 1 as [| | | |? ? l1 l2 H1 H2| |]; subst. auto with zuul.
  - revert l. induction r as [| |p|r IHr s IHs|r IHr s IHs|r IHr]; intros l; simpl; inversion 1 as
      [|? ? E|? ? ? H1|? ? ? H1|? ? l1 l2 H1 H2 E|?|? ? l1 l2 H1 H2 E]; subst; auto with zuul.
    + rewrite E. constructor.
    + destruct l1 as [|c' l1]; simplify_eq/=.
      * rewrite (proj2 (nullable_lang r) H1). auto with zuul.
      * destruct (nullable r); auto with zuul.
Qed.

Lemma matches_lang r l : matches r l = true ↔ lang r l.
Proof.
  revert r. induction l as [|c l IH]; intros r; simpl; [apply nullable_lang|].
  by rewrite IH deriv_lang.
Qed.

Lemma lang_any l : lang any l.
Proof.
  induction l as [|c l IH]; [constructor|]. by apply (L_StarCons _ c []); [constructor|].
Qed.

(** Unanchored matching finds a part of the string in the language. *)
Lemma MatchString_spec r s :
  MatchString r s = true ↔ ∃ l1 l2 l3, runes s = l1 ++ l2 ++ l3 ∧ lang r l2.
Proof.
  rewrite /MatchString matches_lang. split.
  - inversion 1 as [| | | |? ? l1 l' _ H'| |]; subst. inversion H' as [| | | |? ? l2 l3 Hl2 _| |]; subst.
    by exists l1, l2, l3.
  - intros (l1 & l2 & l3 & -> & H). repeat constructor; auto using lang_any.
Qed.
End matching.
