(* ===== verification/Wire.v ===== *)
(** * The protobuf wire format as the generated code reads and writes it

    [MarshalToSizedBufferVT] writes the fields of a message in order, each as a
    tag and a payload; [UnmarshalVT] loops over tags, dispatches on the field
    number and skips what it does not know.  Both have the same shape for every
    message, so they are defined once over the table of a message's fields. *)
From S2P Require Import Prelude GoStrings.
From Stdlib Require Import Ascii.

Local Open Scope Z_scope.

Inductive WireError :=
| ErrIntOverflow
| ErrUnexpectedEOF
| ErrInvalidLength
| ErrUnexpectedEndOfGroup
| ErrIllegalWireType
| ErrEndGroup
| ErrIllegalTag
| ErrWrongWireType.

Definition byte (n : Z) : ascii := ascii_of_N (Z.to_N n).

(** ** Varints (protohelpers) *)

(** [EncodeVarint]: a 64-bit value takes at most ten bytes, so nine steps that
    leave seven bits each are enough. *)
Fixpoint encodeVarintFrom (fuel : nat) (v : Z) : list ascii :=
  match fuel with
  | O => [byte v]
  | S n => if 128 <=? v then byte (Z.lor (Z.land v 127) 128) :: encodeVarintFrom n (Z.shiftr v 7) else [byte v]
  end.
Definition EncodeVarint (v : Z) : list ascii := encodeVarintFrom 9 v.

(** The loop [for shift := uint(0); ; shift += 7], on a 64-bit accumulator. *)
Fixpoint decodeVarint (shift acc : Z) (l : list ascii) : result (Z * list ascii) WireError :=
  if 64 <=? shift then Err ErrIntOverflow
  else match l with
       | [] => Err ErrUnexpectedEOF
       | c :: l' =>
           let b := byte_val c in
           let acc' := Z.lor acc (u64 (Z.shiftl (Z.land b 127) shift)) in
           if b <? 128 then Ok (acc', l') else decodeVarint (shift + 7) acc' l'
       end.

(** A length and as many bytes, in a buffer of [total] bytes: negative lengths
    are rejected, so are lengths that make the index wrap, and lengths past the
    end. *)
Definition decodeBytes (total : Z) (l : list ascii) : result (list ascii * list ascii) WireError :=
  match decodeVarint 0 0 l with
  | Err e => Err e
  | Ok (v, rest) =>
      let n := i64 v in
      let postIndex := i64 (total - Z.of_nat (length rest) + n) in
      if n <? 0 then Err ErrInvalidLength
      else if postIndex <? 0 then Err ErrInvalidLength
      else if Z.of_nat (length rest) <? n then Err ErrUnexpectedEOF
      else Ok (take (Z.to_nat n) rest, drop (Z.to_nat n) rest)
  end.

(** ** Skipping an unknown field ([protohelpers.Skip]) *)
Definition dropBytes (n : nat) (l : list ascii) : result (list ascii) WireError :=
  if (length l <? n)%nat then Err ErrUnexpectedEOF else Ok (drop n l).

(** Every round consumes a tag, so the number of bytes is enough fuel.  [inner]
    is the length of the slice [Skip] gets, [total] that of the buffer it was
    cut from: outside a group the caller adds the skipped length to its own
    index and makes the same checks. *)
Fixpoint skipFrom (total inner : Z) (fuel depth : nat) (l : list ascii) : result (list ascii) WireError :=
  match fuel, l with
  | O, _ | _, [] => Err ErrUnexpectedEOF
  | S n, _ =>
      match decodeVarint 0 0 l with
      | Err e => Err e
      | Ok (wire, rest) =>
          let wireType := Z.land wire 7 in
          let next (d : nat) (r : result (list ascii) WireError) :=
            match r with
            | Err e => Err e
            | Ok l' => if Nat.eqb d 0 then Ok l' else skipFrom total inner n d l'
            end in
          if wireType =? 0 then
            next depth (match decodeVarint 0 0 rest with Ok (_, l') => Ok l' | Err e => Err e end)
          else if wireType =? 1 then next depth (dropBytes 8 rest)
          else if wireType =? 2 then
            next depth (match decodeBytes (if Nat.eqb depth 0 then total else inner) rest with Ok (_, l') => Ok l' | Err e => Err e end)
          else if wireType =? 3 then next (S depth) (Ok rest)
          else if wireType =? 4 then
            match depth with
            | O => Err ErrUnexpectedEndOfGroup
            | S d => next d (Ok rest)
            end
          else if wireType =? 5 then next depth (dropBytes 4 rest)
          else Err ErrIllegalWireType
      end
  end.
Definition Skip (total : Z) (l : list ascii) : result (list ascii) WireError :=
  skipFrom total (Z.of_nat (length l)) (length l) 0 l.

(** ** Messages

    A field is written as a varint or as a run of bytes.  [wfield] says how
    [UnmarshalVT] stores a payload into the message read so far. *)
Inductive wval := WVarint (v : Z) | WBytes (b : list ascii).

Inductive wfield (M : Type) :=
| FVarint (set : M → Z → M)
| FBytes (set : M → list ascii → result M WireError).
Arguments FVarint {M} _.
Arguments FBytes {M} _.

Definition schema (M : Type) : Type := Z → option (wfield M).

Definition encodeField (f : Z * wval) : list ascii :=
  match f with
  | (num, WVarint v) => EncodeVarint (num * 8) ++ EncodeVarint v
  | (num, WBytes b) => EncodeVarint (num * 8 + 2) ++ EncodeVarint (Z.of_nat (length b)) ++ b
  end.

Definition marshal (fs : list (Z * wval)) : list ascii := concat (encodeField <$> fs).

Definition i32 (z : Z) : Z := (z + 2 ^ 31) mod 2 ^ 32 - 2 ^ 31.

(** The loop of [UnmarshalVT]; a round consumes at least the tag. *)
Fixpoint unmarshalFrom {M} (s : schema M) (total : Z) (fuel : nat) (m : M) (l : list ascii) : result M WireError :=
  match l with
  | [] => Ok m
  | _ =>
      match fuel with
      | O => Err ErrUnexpectedEOF
      | S n =>
          match decodeVarint 0 0 l with
          | Err e => Err e
          | Ok (wire, rest) =>
              let fieldNum := i32 (Z.shiftr wire 3) in
              let wireType := Z.land wire 7 in
              if wireType =? 4 then Err ErrEndGroup
              else if fieldNum <=? 0 then Err ErrIllegalTag
              else match s fieldNum with
                   | Some (FVarint set) =>
                       if negb (wireType =? 0) then Err ErrWrongWireType
                       else match decodeVarint 0 0 rest with
                            | Ok (v, rest') => unmarshalFrom s total n (set m v) rest'
                            | Err e => Err e
                            end
                   | Some (FBytes set) =>
                       if negb (wireType =? 2) then Err ErrWrongWireType
                       else match decodeBytes total rest with
                            | Ok (b, rest') =>
                                match set m b with
                                | Ok m' => unmarshalFrom s total n m' rest'
                                | Err e => Err e
                                end
                            | Err e => Err e
                            end
                   | None =>
                       match Skip total l with
                       | Ok rest' => unmarshalFrom s total n m rest'
                       | Err e => Err e
                       end
                   end
          end
      end
  end.
Definition unmarshal {M} (s : schema M) (m : M) (l : list ascii) : result M WireError :=
  unmarshalFrom s (Z.of_nat (length l)) (length l) m l.

(** What reading the fields one by one amounts to. *)
Fixpoint readFields {M} (s : schema M) (m : M) (fs : list (Z * wval)) : result M WireError :=
  match fs with
  | [] => Ok m
  | (num, v) :: fs' =>
      match s num, v with
      | Some (FVarint set), WVarint n => readFields s (set m n) fs'
      | Some (FBytes set), WBytes b =>
          match set m b with
          | Ok m' => readFields s m' fs'
          | Err e => Err e
          end
      | _, _ => Err ErrWrongWireType
      end
  end.

(** Fields the encoder can write: small numbers of known fields, 64-bit values. *)
Definition field_ok {M} (s : schema M) (f : Z * wval) : Prop :=
  0 < f.1 < 2 ^ 28 ∧
  match f.2, s f.1 with
  | WVarint v, Some (FVarint _) => in_u64 v
  | WBytes b, Some (FBytes _) => Z.of_nat (length b) < 2 ^ 63
  | _, _ => False
  end.

(** ** Round trips *)
Section varint.
Lemma byte_val_byte n : 0 ≤ n < 256 → byte_val (byte n) = n.
Proof. intros Hn. rewrite /byte N_ascii_embedding; lia. Qed.

Lemma land_127 v : Z.land v 127 = v mod 2 ^ 7.
Proof. by rewrite -Z.land_ones. Qed.

Lemma split_7 v : 0 ≤ v → Z.lor (Z.land v 127) (Z.shiftl (Z.shiftr v 7) 7) = v.
Proof.
  intros Hv. apply Z.bits_inj'. intros n Hn. rewrite Z.lor_spec Z.shiftl_spec // (Z.land_spec v 127).
  destruct (Z.lt_ge_cases n 7) as [Hlt|Hge].
  - rewrite (Z.testbit_neg_r (Z.shiftr v 7)); [lia|]. rewrite orb_false_r.
    change 127 with (Z.ones 7). by rewrite Z.ones_spec_low // andb_true_r.
  - rewrite Z.shiftr_spec; [lia|]. change 127 with (Z.ones 7). rewrite Z.ones_spec_high; [lia|].
    rewrite andb_false_r orb_false_l. f_equal. lia.
Qed.

Lemma lor_128 x : 0 ≤ x < 128 → Z.lor x 128 = x + 128.
Proof.
  intros Hx. assert (Z.land x 128 = 0) as E; [|pose proof (Z.add_lor_land x 128); lia].
  change 128 with (2 ^ 7). apply Z.bits_inj'. intros n Hn. rewrite Z.land_spec Z.bits_0.
  destruct (decide (n = 7)) as [->|Hne].
  - rewrite Z.bits_above_log2; [lia| |done]. destruct (decide (x = 0)) as [->|]; [done|]. apply Z.log2_lt_pow2; lia.
  - rewrite Z.pow2_bits_false; [lia|]. apply andb_false_r.
Qed.

Lemma decodeVarint_cons shift acc c l :
  shift < 64 → decodeVarint shift acc (c :: l) =
    (let acc' := Z.lor acc (u64 (Z.shiftl (Z.land (byte_val c) 127) shift)) in
     if byte_val c <? 128 then Ok (acc', l) else decodeVarint (shift + 7) acc' l).
Proof. intros Hs. cbn [decodeVarint]. destruct (Z.leb_spec 64 shift); [lia|done]. Qed.

Lemma u64_shiftl_low v shift :
  0 ≤ shift → 0 ≤ v → Z.shiftl v shift < 2 ^ 64 → u64 (Z.shiftl (Z.land v 127) shift) = Z.shiftl (Z.land v 127) shift.
Proof.
  intros Hs Hv Hlt. apply u64_small. rewrite /in_u64. rewrite !Z.shiftl_mul_pow2 // in Hlt |- *.
  pose proof (Z.mod_pos_bound v (2 ^ 7) ltac:(lia)) as Hm. rewrite land_127.
  pose proof (Z.mod_le v (2 ^ 7) Hv ltac:(lia)). pose proof (Z.pow_pos_nonneg 2 shift ltac:(lia) Hs). nia.
Qed.

Lemma decode_encode_from n v shift acc l :
  0 ≤ shift → shift + 7 * Z.of_nat n < 64 → 0 ≤ v → Z.shiftl v shift < 2 ^ 64 → v < 2 ^ (7 * Z.of_nat n + 7) →
  decodeVarint shift acc (encodeVarintFrom n v ++ l) = Ok (Z.lor acc (Z.shiftl v shift), l).
Proof.
  revert v shift acc. induction n as [|n IH]; intros v shift acc Hs Hs' Hv Hlt Hbound;
    pose proof (Z.mod_pos_bound v (2 ^ 7) ltac:(lia)) as Hm.
  - cbn [encodeVarintFrom app]. rewrite decodeVarint_cons; [lia|]. simpl in Hbound.
    rewrite byte_val_byte; [lia|]. destruct (Z.ltb_spec v 128); [|lia]. cbn zeta.
    by rewrite u64_shiftl_low // land_127 Z.mod_small.
  - cbn [encodeVarintFrom]. destruct (Z.leb_spec 128 v) as [Hge|Hsmall].
    + cbn [app]. rewrite decodeVarint_cons; [lia|]. rewrite (land_127 v) lor_128; [lia|].
      rewrite byte_val_byte; [lia|]. destruct (Z.ltb_spec (v mod 2 ^ 7 + 128) 128); [lia|]. cbn zeta.
      assert (Z.land (v mod 2 ^ 7 + 128) 127 = Z.land v 127) as ->.
      { rewrite !land_127. replace 128 with (1 * 2 ^ 7) by lia. rewrite Z.mod_add // Z.mod_mod //. }
      rewrite u64_shiftl_low // IH; [lia|lia|by apply Z.shiftr_nonneg| | |].
      * rewrite !Z.shiftl_mul_pow2 ?Z.shiftr_div_pow2 // in Hlt |- *; [lia|]. rewrite Z.pow_add_r //.
        pose proof (Z.mul_div_le v (2 ^ 7) ltac:(lia)). pose proof (Z.pow_pos_nonneg 2 shift ltac:(lia) Hs). nia.
      * rewrite Z.shiftr_div_pow2 //. apply Z.div_lt_upper_bound; [lia|]. rewrite -Z.pow_add_r; [lia|lia|].
        replace (7 + (7 * Z.of_nat n + 7)) with (7 * Z.of_nat (S n) + 7) by lia. done.
      * rewrite -Z.lor_assoc. do 3 f_equal. rewrite (Z.add_comm shift 7) -Z.shiftl_shiftl; [lia|].
        by rewrite -Z.shiftl_lor split_7.
    + cbn [app]. rewrite decodeVarint_cons; [lia|]. rewrite byte_val_byte; [lia|].
      destruct (Z.ltb_spec v 128); [|lia]. cbn zeta. by rewrite u64_shiftl_low // land_127 Z.mod_small.
Qed.

Lemma decode_encode v l : in_u64 v → decodeVarint 0 0 (EncodeVarint v ++ l) = Ok (v, l).
Proof.
  rewrite /in_u64. intros Hv. pose proof (decode_encode_from 9 v 0 0 l) as H.
  rewrite Z.shiftl_0_r Z.lor_0_l in H. apply H; lia.
Qed.

Lemma EncodeVarint_not_nil v : EncodeVarint v ≠ [].
Proof.
  assert (∀ n, encodeVarintFrom n v ≠ []) as H by (intros [|n]; cbn [encodeVarintFrom]; by try case_match).
  apply H.
Qed.

Lemma decodeBytes_encode total b l :
  Z.of_nat (length (b ++ l)) ≤ total < 2 ^ 63 →
  decodeBytes total (EncodeVarint (Z.of_nat (length b)) ++ b ++ l) = Ok (b, l).
Proof.
  rewrite length_app. intros Hb. rewrite /decodeBytes decode_encode; [rewrite /in_u64; lia|].
  rewrite length_app (i64_small (Z.of_nat (length b))); [rewrite /in_i64; lia|].
  rewrite i64_small; [rewrite /in_i64; lia|].
  destruct (Z.ltb_spec (Z.of_nat (length b)) 0); [lia|].
  destruct (Z.ltb_spec (total - Z.of_nat (length b + length l) + Z.of_nat (length b)) 0); [lia|].
  destruct (Z.ltb_spec (Z.of_nat (length b + length l)) (Z.of_nat (length b))); [lia|].
  by rewrite Nat2Z.id take_app_length drop_app_length.
Qed.
End varint.

#[global] Opaque EncodeVarint.

Section messages.
Context {M : Type} (s : schema M).

Lemma tag_number num k : 0 ≤ k < 8 → 0 < num < 2 ^ 28 →
  in_u64 (num * 8 + k) ∧ i32 (Z.shiftr (num * 8 + k) 3) = num ∧ Z.land (num * 8 + k) 7 = k.
Proof.
  intros Hk Hn. rewrite /in_u64 /i32. split; [lia|]. split.
  - rewrite Z.shiftr_div_pow2 //. change (2 ^ 3) with 8.
    rewrite (Z.div_add_l num 8 k) // (Z.div_small k 8) // Z.add_0_r. rewrite Z.mod_small; lia.
  - change 7 with (Z.ones 3). rewrite Z.land_ones //. change (2 ^ 3) with 8.
    rewrite Z.add_comm Z.mod_add // Z.mod_small //.
Qed.

Lemma readFields_unmarshal total fs m fuel :
  Forall (field_ok s) fs → (length fs ≤ fuel)%nat → Z.of_nat (length (marshal fs)) ≤ total < 2 ^ 63 →
  unmarshalFrom s total fuel m (marshal fs) = readFields s m fs.
Proof.
  revert m fuel. induction fs as [|[num v] fs IH]; intros m fuel; [by destruct fuel|].
  intros [[Hnum Hv] Hfs]%Forall_cons Hfuel Htot. destruct fuel as [|fuel]; [simpl in Hfuel; lia|].
  assert (∀ r, encodeField (num, v) ++ r ≠ []) as Hnil.
  { intros r. pose proof (EncodeVarint_not_nil (num * 8)). pose proof (EncodeVarint_not_nil (num * 8 + 2)).
    destruct v; simpl; rewrite -app_assoc; intros [? _]%app_eq_nil; done. }
  assert (marshal ((num, v) :: fs) = encodeField (num, v) ++ marshal fs) as Em by done.
  rewrite Em length_app in Htot. rewrite Em. clear Em.
  specialize (Hnil (marshal fs)). simpl in Hnum, Hv, Hfuel.
  destruct (encodeField (num, v) ++ marshal fs) as [|c l] eqn:El; [done|].
  cbn [unmarshalFrom]. rewrite -El. clear El Hnil. cbn [readFields].
  destruct v as [v|b]; cbn [encodeField]; rewrite -!app_assoc.
  - destruct (tag_number num 0) as (Ht & En & Et); [lia|done|]. rewrite Z.add_0_r in Ht, En, Et.
    rewrite decode_encode // Et En. destruct (s num) as [[set|set]|]; [|done..].
    destruct (Z.leb_spec num 0); [lia|]. cbn [Z.eqb negb]. rewrite decode_encode //. apply IH; [done|lia|lia].
  - destruct (tag_number num 2) as (Ht & En & Et); [lia|done|].
    rewrite decode_encode // Et En. destruct (s num) as [[set|set]|]; [done| |done].
    destruct (Z.leb_spec num 0); [lia|]. cbn [Z.eqb negb Pos.eqb].
    cbn [encodeField] in Htot. rewrite !length_app in Htot. rewrite decodeBytes_encode; [rewrite length_app; lia|].
    destruct (set m b) as [m'|e]; [|done]. apply IH; [done|lia|lia].
Qed.

Lemma length_marshal fs : (length fs ≤ length (marshal fs))%nat.
Proof.
  induction fs as [|f fs IH]; [done|]. rewrite /marshal fmap_cons /= length_app.
  assert (1 ≤ length (encodeField f))%nat; [|rewrite /marshal in IH; lia].
  destruct f as [num [v|b]]; simpl; rewrite length_app;
    [pose proof (EncodeVarint_not_nil (num * 8)); destruct (EncodeVarint (num * 8))
    |pose proof (EncodeVarint_not_nil (num * 8 + 2)); destruct (EncodeVarint (num * 8 + 2))]; simpl; try done; lia.
Qed.

(** Reading what was written stores the fields one by one. *)
Lemma unmarshal_marshal fs m :
  Forall (field_ok s) fs → Z.of_nat (length (marshal fs)) < 2 ^ 63 → unmarshal s m (marshal fs) = readFields s m fs.
Proof. intros Hfs Hl. apply readFields_unmarshal; [done|apply length_marshal|lia]. Qed.

Lemma readFields_app m fs1 fs2 :
  readFields s m (fs1 ++ fs2) =
    match readFields s m fs1 with Ok m' => readFields s m' fs2 | Err e => Err e end.
Proof.
  revert m. induction fs1 as [|[num v] fs1 IH]; intros m; [done|]. cbn [app readFields].
  destruct (s num) as [[set|set]|], v as [v|b]; auto. by destruct (set m b).
Qed.
End messages.

(** ** Field shapes of the generated encoders

    Scalars are written only when they differ from their zero value. *)
Definition emitString (num : Z) (s : string) : list (Z * wval) :=
  if bool_decide (s = "") then [] else [(num, WBytes (bytes_of s))].
Definition emitBytes (num : Z) (v : option string) : list (Z * wval) :=
  match v with
  | Some s => emitString num s
  | None => []
  end.
Definition emitU64 (num v : Z) : list (Z * wval) := if v =? 0 then [] else [(num, WVarint v)].
Definition emitI64 (num v : Z) : list (Z * wval) := if v =? 0 then [] else [(num, WVarint (u64 v))].
Definition emitBool (num : Z) (b : bool) : list (Z * wval) := if b then [(num, WVarint 1)] else [].
Definition emitMessage (num : Z) (b : list ascii) : list (Z * wval) := [(num, WBytes b)].

(** A schema as the list of its fields, numbered from 1. *)
Definition fields {M} (l : list (wfield M)) : schema M :=
  λ num, if num <=? 0 then None else l !! Z.to_nat (num - 1).

Definition str {M} (set : M → string → M) : wfield M := FBytes (λ m b, Ok (set m (string_of b))).
Definition byt {M} (set : M → option string → M) : wfield M := FBytes (λ m b, Ok (set m (Some (string_of b)))).
Definition u64f {M} (set : M → Z → M) : wfield M := FVarint (λ m n, set m n).
Definition u32f {M} (set : M → Z → M) : wfield M := FVarint (λ m n, set m (u32 n)).
Definition i32f {M} (set : M → Z → M) : wfield M := FVarint (λ m n, set m (i32 n)).
Definition i64f {M} (set : M → Z → M) : wfield M := FVarint (λ m n, set m (i64 n)).
Definition boolf {M} (set : M → bool → M) : wfield M := FVarint (λ m n, set m (negb (n =? 0))).

(** A sub-message: read into the given zero value, then stored. *)
Definition msg {M V} (s : schema V) (zero : M → V) (set : M → V → M) : wfield M :=
  FBytes (λ m b, match unmarshal s (zero m) b with
                 | Ok v => Ok (set m v)
                 | Err e => Err e
                 end).

(** A repeated field: one entry per element. *)
Definition emitRepeated {A} (num : Z) (enc : A → list ascii) (l : list A) : list (Z * wval) :=
  (λ x, (num, WBytes (enc x))) <$> l.

(** The kind of a field and the range of its value, apart from its length. *)
Definition field_fits {M} (s : schema M) (f : Z * wval) : Prop :=
  0 < f.1 < 2 ^ 28 ∧
  match f.2, s f.1 with
  | WVarint v, Some (FVarint _) => in_u64 v
  | WBytes b, Some (FBytes _) => True
  | _, _ => False
  end.

(** Proto3 does not distinguish an empty bytes field from an absent one. *)
Definition normBytes (v : option string) : option string :=
  match v with
  | Some s => if bool_decide (s = "") then None else Some s
  | None => None
  end.

Lemma u64_i64 v : in_i64 v → i64 (u64 v) = v.
Proof. rewrite /in_i64 /u64 /i64. zlia. Qed.

Section emit.
Context {M : Type} (s : schema M).

Lemma length_encodeField_bytes num b : (length b ≤ length (encodeField (num, WBytes b)))%nat.
Proof. simpl. rewrite !length_app. lia. Qed.

Lemma length_field_marshal f fs : f ∈ fs → (length (encodeField f) ≤ length (marshal fs))%nat.
Proof.
  induction fs as [|g fs IH]; [by intros ?%elem_of_nil|]. rewrite /marshal fmap_cons /= length_app.
  intros [->|Hf]%elem_of_cons; [lia|]. specialize (IH Hf). rewrite /marshal in IH. lia.
Qed.

(** Enough for a round trip: the encoding fits in memory. *)
Lemma unmarshal_marshal_fits fs m :
  Forall (field_fits s) fs → Z.of_nat (length (marshal fs)) < 2 ^ 63 →
  unmarshal s m (marshal fs) = readFields s m fs.
Proof.
  intros Hfs Hlen. apply unmarshal_marshal; [|done]. apply Forall_forall. intros f Hf.
  rewrite Forall_forall in Hfs. destruct (Hfs f Hf) as [Hn Hk]. split; [done|].
  destruct f as [num [v|b]]; simpl in *; repeat case_match; try done.
  pose proof (length_field_marshal _ _ Hf). pose proof (length_encodeField_bytes num b). lia.
Qed.

Lemma marshal_app fs1 fs2 : marshal (fs1 ++ fs2) = marshal fs1 ++ marshal fs2.
Proof. by rewrite /marshal fmap_app concat_app. Qed.

(** Reading back one scalar field that still has its zero value. *)
Lemma read_string num f v rest m :
  s num = Some (str f) → f m "" = m →
  readFields s m (emitString num v ++ rest) = readFields s (f m v) rest.
Proof.
  intros Hs Hf. rewrite /emitString. case_bool_decide as Hv; [by rewrite Hv Hf|].
  cbn [app readFields]. by rewrite Hs /= string_of_bytes.
Qed.

Lemma read_bytes num f v rest m :
  s num = Some (byt f) → f m None = m →
  readFields s m (emitBytes num v ++ rest) = readFields s (f m (normBytes v)) rest.
Proof.
  intros Hs Hf. rewrite /emitBytes /emitString /normBytes. destruct v as [v|]; [|by rewrite Hf].
  case_bool_decide as Hv; [by rewrite Hf|]. cbn [app readFields]. by rewrite Hs /= string_of_bytes.
Qed.

Lemma read_u64 num f v rest m :
  s num = Some (u64f f) → f m 0 = m →
  readFields s m (emitU64 num v ++ rest) = readFields s (f m v) rest.
Proof.
  intros Hs Hf. rewrite /emitU64. destruct (Z.eqb_spec v 0) as [->|Hv]; [by rewrite Hf|].
  cbn [app readFields]. by rewrite Hs.
Qed.

Lemma read_u32 num f v rest m :
  s num = Some (u32f f) → f m 0 = m → 0 ≤ v < 2 ^ 32 →
  readFields s m (emitU64 num v ++ rest) = readFields s (f m v) rest.
Proof.
  intros Hs Hf Hr. rewrite /emitU64. destruct (Z.eqb_spec v 0) as [->|Hv]; [by rewrite Hf|].
  cbn [app readFields]. by rewrite Hs /= u32_small.
Qed.

Lemma read_i32 num f v rest m :
  s num = Some (i32f f) → f m 0 = m → 0 ≤ v < 2 ^ 31 →
  readFields s m (emitU64 num v ++ rest) = readFields s (f m v) rest.
Proof.
  intros Hs Hf Hr. rewrite /emitU64. destruct (Z.eqb_spec v 0) as [->|Hv]; [by rewrite Hf|].
  cbn [app readFields]. rewrite Hs /=. replace (i32 v) with v; [done|]. rewrite /i32 Z.mod_small; lia.
Qed.

Lemma read_i64 num f v rest m :
  s num = Some (i64f f) → f m 0 = m → in_i64 v →
  readFields s m (emitI64 num v ++ rest) = readFields s (f m v) rest.
Proof.
  intros Hs Hf Hr. rewrite /emitI64. destruct (Z.eqb_spec v 0) as [->|Hv]; [by rewrite Hf|].
  cbn [app readFields]. by rewrite Hs /= u64_i64.
Qed.

Lemma read_bool num f v rest m :
  s num = Some (boolf f) → f m false = m →
  readFields s m (emitBool num v ++ rest) = readFields s (f m v) rest.
Proof. intros Hs Hf. destruct v; cbn [emitBool app readFields]; [by rewrite Hs|by rewrite Hf]. Qed.

Lemma read_message num set b rest m m' :
  s num = Some (FBytes set) → set m b = Ok m' →
  readFields s m (emitMessage num b ++ rest) = readFields s m' rest.
Proof. intros Hs Hb. cbn [emitMessage app readFields]. by rewrite Hs Hb. Qed.

Lemma read_repeated {A} num set (enc : A → list ascii) l rest m m' :
  s num = Some (FBytes set) → foldl (λ r x, match r with Ok m => set m (enc x) | Err e => Err e end) (Ok m) l = Ok m' →
  readFields s m (emitRepeated num enc l ++ rest) = readFields s m' rest.
Proof.
  intros Hs. revert m. induction l as [|x l IH]; intros m; [by intros [= <-]|].
  rewrite /emitRepeated fmap_cons. cbn [app readFields foldl]. rewrite Hs.
  destruct (set m (enc x)) as [m1|e]; [apply IH|]. intros H. exfalso. clear IH. revert H.
  induction l as [|y l IHl]; [done|apply IHl].
Qed.

(** Fields that are always written. *)
Lemma read_raw_varint num set v rest m :
  s num = Some (FVarint set) → readFields s m ((num, WVarint v) :: rest) = readFields s (set m v) rest.
Proof. intros Hs. cbn [readFields]. by rewrite Hs. Qed.
Lemma read_raw_bytes num set b rest m m' :
  s num = Some (FBytes set) → set m b = Ok m' → readFields s m ((num, WBytes b) :: rest) = readFields s m' rest.
Proof. intros Hs Hb. cbn [readFields]. by rewrite Hs Hb. Qed.

(** What the emitters write fits the field they write it to. *)
Lemma fits_repeated {A} num set (enc : A → list ascii) l :
  s num = Some (FBytes set) → 0 < num < 2 ^ 28 → Forall (field_fits s) (emitRepeated num enc l).
Proof.
  intros Hs Hn. apply Forall_fmap, Forall_forall. intros x _. split; [done|]. by rewrite /= Hs.
Qed.

Lemma fits_string num set v :
  s num = Some (FBytes set) → 0 < num < 2 ^ 28 → Forall (field_fits s) (emitString num v).
Proof.
  intros Hs Hn. rewrite /emitString. case_bool_decide; [constructor|]. repeat constructor; simpl; try lia. by rewrite Hs.
Qed.
Lemma fits_bytes num set v :
  s num = Some (FBytes set) → 0 < num < 2 ^ 28 → Forall (field_fits s) (emitBytes num v).
Proof. intros Hs Hn. destruct v; [by eapply fits_string|constructor]. Qed.
Lemma fits_message num set b :
  s num = Some (FBytes set) → 0 < num < 2 ^ 28 → Forall (field_fits s) (emitMessage num b).
Proof. intros Hs Hn. repeat constructor; simpl; try lia. by rewrite Hs. Qed.
Lemma fits_u64 num set v :
  s num = Some (FVarint set) → 0 < num < 2 ^ 28 → in_u64 v → Forall (field_fits s) (emitU64 num v).
Proof.
  intros Hs Hn Hv. rewrite /emitU64. case_match; [constructor|]. repeat constructor; simpl; try lia. by rewrite Hs.
Qed.
Lemma fits_i64 num set v :
  s num = Some (FVarint set) → 0 < num < 2 ^ 28 → Forall (field_fits s) (emitI64 num v).
Proof.
  intros Hs Hn. rewrite /emitI64. case_match; [constructor|]. repeat constructor; simpl; try lia. rewrite Hs.
  apply u64_range.
Qed.
Lemma fits_bool num set v :
  s num = Some (FVarint set) → 0 < num < 2 ^ 28 → Forall (field_fits s) (emitBool num v).
Proof. intros Hs Hn. destruct v; [|constructor]. repeat constructor; simpl; try lia. by rewrite Hs. Qed.
End emit.

(** Computes the message read so far. *)
Ltac simpl_read :=
  match goal with
  | |- readFields ?s ?m ?rest = ?r => let m' := eval simpl in m in change (readFields s m' rest = r)
  end.

(** Steps through the fields of a message that was just written. *)
Ltac read_fields :=
  repeat (etransitivity;
    [first [ eapply read_string; [reflexivity|reflexivity]
           | eapply read_bytes; [reflexivity|reflexivity]
           | eapply read_i64; [reflexivity|reflexivity|assumption]
           | eapply read_u32; [reflexivity|reflexivity|assumption]
           | eapply read_bool; [reflexivity|reflexivity]
           | eapply read_u64; [reflexivity|reflexivity] ]|];
    simpl_read).

Ltac read_raw :=
  repeat first [ etransitivity; [eapply read_raw_varint; reflexivity|] | etransitivity; [eapply read_raw_bytes; reflexivity|] ].

Ltac fits_fields :=
  repeat (apply Forall_app; split);
  try (first [ eapply fits_string | eapply fits_bytes | eapply fits_i64 | eapply fits_bool | eapply fits_u64
             | eapply fits_repeated | eapply fits_message ]; [reflexivity|lia|try assumption..]);
  try constructor.

#[global] Opaque marshal unmarshal.

(** ** Helpers for the messages' round trips *)

Abbreviation small l := (Z.of_nat (length l) < 2 ^ 63).

Ltac round_trip := rewrite unmarshal_marshal_fits //; [fits_fields|by read_fields].

Lemma small_elem num b fs : small (marshal fs) → (num, WBytes b) ∈ fs → small b.
Proof.
  intros Hl Hin. pose proof (length_field_marshal _ _ Hin). pose proof (length_encodeField_bytes num b). lia.
Qed.

Lemma small_nested num b : small (marshal (emitMessage num b ++ [])) → small b.
Proof. intros Hl. eapply small_elem; [exact Hl|]. by left. Qed.

(** Reading back the elements of a repeated field appends them, [P] being the
    message with the elements read so far. *)
Lemma read_elements {M A V} (set : M → list ascii → result M WireError) (enc : A → list ascii) (dec : A → V)
    (P : list V → M) vs l :
  (∀ vs x, x ∈ l → set (P vs) (enc x) = Ok (P (vs ++ [dec x]))) →
  foldl (λ r x, match r with Ok m => set m (enc x) | Err e => Err e end) (Ok (P vs)) l = Ok (P (vs ++ (dec <$> l))).
Proof.
  revert vs. induction l as [|x l IH]; intros vs Hx; [by rewrite app_nil_r|]. cbn [foldl].
  rewrite (Hx vs x); [by left|]. rewrite IH; [by intros; apply Hx; right|]. by rewrite fmap_cons -app_assoc.
Qed.
