(* ===== verification/Keypath.v ===== *)
(** * Resource paths: [internal/auth/keypath]

    Validation, owner extraction and boundary prefix matching of lock and
    election keys, with their declarative reading: a canonical key is a slash
    followed by at least two legal segments joined by slashes, and a prefix
    covers a key when its segments are an initial run of the key's segments. *)
From S2P Require Import Prelude GoStrings.
From Stdlib Require Import Ascii.

Local Open Scope Z_scope.

(** ** Data and operations *)
Definition slash : ascii := "/".

Inductive SegmentError :=
| SegEmpty
| SegDots (s : string)
| SegTooLong
| SegBadRune (s : string) (r : Z).

Inductive KeyError :=
| KeyEmpty
| KeyTooLong
| KeyNoLeadingSlash (key : string)
| KeyTrailingSlash (key : string)
| KeyTooFewSegments (key : string)
| KeyBadSegment (key : string) (e : SegmentError).

Definition maxSegmentLen : Z := 255.
Definition maxPathLen : Z := 1024.

Definition rune (c : ascii) : Z := byte_val c.

Definition isSegmentRune (r : Z) : bool :=
  if (rune "a" <=? r) && (r <=? rune "z") then true
  else if (rune "A" <=? r) && (r <=? rune "Z") then true
  else if (rune "0" <=? r) && (r <=? rune "9") then true
  else (r =? rune ".") || (r =? rune "_") || (r =? rune "@") || (r =? rune "-").

Fixpoint checkRunes (s : string) (rs : list Z) : result unit SegmentError :=
  match rs with
  | [] => Ok tt
  | r :: rs' => if negb (isSegmentRune r) then Err (SegBadRune s r) else checkRunes s rs'
  end.

Definition validateSegment (s : string) : result unit SegmentError :=
  if bool_decide (s = "") then Err SegEmpty
  else if bool_decide (s = ".") || bool_decide (s = "..") then Err (SegDots s)
  else if maxSegmentLen <? len s then Err SegTooLong
  else checkRunes s (runes s).

Fixpoint validateSegments (key : string) (segs : list string) : result unit KeyError :=
  match segs with
  | [] => Ok tt
  | s :: segs' =>
      match validateSegment s with
      | Err e => Err (KeyBadSegment key e)
      | Ok _ => validateSegments key segs'
      end
  end.

Definition Validate (key : string) : result unit KeyError :=
  match key with
  | EmptyString => Err KeyEmpty
  | String c0 rest =>
      if maxPathLen <? len key then Err KeyTooLong
      else if negb (Ascii.eqb c0 slash) then Err (KeyNoLeadingSlash key)
      else if HasSuffix key "/" then Err (KeyTrailingSlash key)
      else
        let segs := Split slash rest in
        if (Z.of_nat (length segs) <? 2) then Err (KeyTooFewSegments key)
        else validateSegments key segs
  end.

Definition HasPrefix (prefix key : string) : bool :=
  if bool_decide (prefix = "") then true
  else
    let prefix := TrimSuffix prefix "/" in
    bool_decide (key = prefix) || GoStrings.HasPrefix key (prefix +:+ "/").

(** [key[1:]] *)
Definition tail1 (s : string) : string :=
  match s with
  | EmptyString => ""
  | String _ s' => s'
  end.

Definition Owner (key : string) : result string KeyError :=
  match Validate key with
  | Err e => Err e
  | Ok _ =>
      let rest := tail1 key in
      match cut_before slash rest with
      | Some o => Ok o
      | None => Ok rest
      end
  end.

(** ** Declarative reading *)
Definition segment_alphabet : string :=
  "abcdefghijklmnopqrstuvwxyzABCDEFGHIJKLMNOPQRSTUVWXYZ0123456789._@-".

Record canonical_segment (s : string) : Prop := {
  cs_nonempty : s ≠ "";
  cs_not_dot : s ≠ "." ∧ s ≠ "..";
  cs_short : len s ≤ 255;
  cs_alphabet : ∀ c, c ∈ bytes_of s → c ∈ bytes_of segment_alphabet
}.

Record canonical_key (key : string) (segs : list string) : Prop := {
  ck_shape : key = String slash (Join slash segs);
  ck_two : (2 ≤ length segs)%nat;
  ck_short : len key ≤ 1024;
  ck_segments : Forall canonical_segment segs
}.

(** The segments of a path, the empty one before the leading slash included. *)
Definition segments (key : string) : list string := Split slash key.

(** ** Segments *)
Lemma isSegmentRune_byte c : isSegmentRune (byte_val c) = true ↔ c ∈ bytes_of segment_alphabet.
Proof.
  rewrite -(bool_decide_eq_true (c ∈ bytes_of segment_alphabet)).
  assert (isSegmentRune (byte_val c) = bool_decide (c ∈ bytes_of segment_alphabet)) as ->; [|done].
  by destruct c as [[] [] [] [] [] [] [] []]; vm_compute.
Qed.

Lemma isSegmentRune_ascii r : isSegmentRune r = true → r < 128.
Proof.
  rewrite /isSegmentRune.
  change (rune "a") with 97. change (rune "z") with 122.
  change (rune "A") with 65. change (rune "Z") with 90.
  change (rune "0") with 48. change (rune "9") with 57.
  change (rune ".") with 46. change (rune "_") with 95.
  change (rune "@") with 64. change (rune "-") with 45.
  repeat case_match; lia.
Qed.

Lemma checkRunes_ok s rs : checkRunes s rs = Ok tt ↔ Forall (λ r, isSegmentRune r = true) rs.
Proof.
  induction rs as [|r rs IH]; simpl; [by split|].
  rewrite Forall_cons -IH. destruct (isSegmentRune r); simpl; naive_solver.
Qed.

Lemma validateSegment_ok s : validateSegment s = Ok tt ↔ canonical_segment s.
Proof.
  rewrite /validateSegment /maxSegmentLen.
  assert (checkRunes s (runes s) = Ok tt ↔ ∀ c, c ∈ bytes_of s → c ∈ bytes_of segment_alphabet) as Hc.
  { rewrite checkRunes_ok Forall_runes_ascii; [apply isSegmentRune_ascii|].
    rewrite Forall_forall. by setoid_rewrite isSegmentRune_byte. }
  case_bool_decide as H1; [by split; [|intros []]|].
  case_bool_decide as H2; [by split; [|intros [? [??] ??]]|].
  case_bool_decide as H3; [by split; [|intros [? [??] ??]]|]. simpl.
  destruct (Z.ltb_spec 255 (len s)); [by split; [|intros []; lia]|].
  rewrite Hc. split; [by intros; split|by intros []].
Qed.

Lemma canonical_segment_no_slash s : canonical_segment s → slash ∉ bytes_of s.
Proof.
  intros [_ _ _ Ha] Hs. apply Ha in Hs.
  assert (bool_decide (slash ∈ bytes_of segment_alphabet) = false) as H by by vm_compute.
  by apply bool_decide_eq_false in H.
Qed.

Lemma validateSegments_ok key segs : validateSegments key segs = Ok tt ↔ Forall canonical_segment segs.
Proof.
  induction segs as [|s segs IH]; simpl; [by split|].
  rewrite Forall_cons -IH -validateSegment_ok. destruct (validateSegment s) as [[]|]; naive_solver.
Qed.

(** ** Whole paths *)
Lemma Split_canonical segs :
  Forall canonical_segment segs → segs ≠ [] → Split slash (Join slash segs) = segs.
Proof.
  intros Hsegs Hne. apply Split_Join; [done|].
  eapply Forall_impl; [done|]. apply canonical_segment_no_slash.
Qed.

(** A path that ends in a slash has an empty last segment. *)
Lemma canonical_no_trailing_slash segs :
  Forall canonical_segment segs → segs ≠ [] →
  HasSuffix (String slash (Join slash segs)) "/" = false.
Proof.
  intros Hsegs Hne. apply not_true_iff_false. rewrite HasSuffix_spec.
  intros [[|c p] Hp].
  - injection Hp as Hp. apply (f_equal (Split slash)) in Hp.
    rewrite Split_canonical // in Hp. subst. by apply Forall_cons in Hsegs as [[] _].
  - rewrite append_cons in Hp. injection Hp as _ Hp. apply (f_equal (Split slash)) in Hp.
    rewrite Split_canonical // Split_append in Hp. subst.
    by apply Forall_app in Hsegs as [_ [[] _]%Forall_cons].
Qed.

Lemma Validate_canonical key : Validate key = Ok tt ↔ ∃ segs, canonical_key key segs.
Proof.
  split.
  - destruct key as [|c0 rest]; [done|]. rewrite /Validate /maxPathLen.
    destruct (Z.ltb_spec 1024 (len (String c0 rest))) as [|Hlen]; [done|].
    destruct (Ascii.eqb_spec c0 slash) as [->|]; [cbn [negb]|by cbn [negb]].
    case_match; [done|].
    destruct (Z.ltb_spec (Z.of_nat (length (Split slash rest))) 2); [done|].
    intros Hs%validateSegments_ok. exists (Split slash rest).
    split; [by rewrite Join_Split|lia|done|done].
  - intros (segs & [-> Htwo Hlen Hsegs]). rewrite /Validate /maxPathLen.
    destruct (Z.ltb_spec 1024 (len (String slash (Join slash segs)))); [lia|].
    assert (segs ≠ []) by (intros ->; simpl in Htwo; lia).
    rewrite Ascii.eqb_refl canonical_no_trailing_slash // Split_canonical //=.
    destruct (Z.ltb_spec (Z.of_nat (length segs)) 2); [lia|]. by apply validateSegments_ok.
Qed.

(** [Validate] accepts exactly the canonical resource paths
    [/<user>/<dir.../><name>] of the package documentation: a leading slash, at
    least two segments, each one to 255 bytes over [A-Za-z0-9._@-] and neither
    dot nor dot-dot, at most 1024 bytes in all.  Stated over runes, it rules out
    every non-ASCII and malformed UTF-8 key. *)
Theorem Validate_spec key : is_ok (Validate key) = true ↔ ∃ segs, canonical_key key segs.
Proof. rewrite -Validate_canonical is_ok_true. split; [intros [[] ->]; done|eauto]. Qed.

(** Prefix matching is on path boundaries: a non-empty prefix covers a key
    exactly when its segments (one trailing slash ignored) are an initial run
    of the key's segments, and the empty prefix covers everything. *)
Theorem HasPrefix_segments prefix key :
  HasPrefix prefix key = true ↔
  prefix = "" ∨ segments (TrimSuffix prefix "/") `prefix_of` segments key.
Proof.
  rewrite /HasPrefix /segments Split_prefix. case_bool_decide as Hp; [by split; [left|]|].
  rewrite orb_true_iff bool_decide_eq_true HasPrefix_spec.
  assert (∀ p t, (p +:+ "/") +:+ t = p +:+ String slash t) as Happ
    by (intros; by rewrite -append_assoc).
  setoid_rewrite Happ. naive_solver.
Qed.

Lemma Owner_canonical key segs :
  canonical_key key segs → ∃ o rest, segs = o :: rest ∧ rest ≠ [] ∧ Owner key = Ok o.
Proof.
  intros Hck. assert (Validate key = Ok tt) as Hv by (apply Validate_canonical; eauto).
  destruct Hck as [-> Htwo _ Hsegs]. destruct segs as [|o [|s rest]]; [simpl in Htwo; lia..|].
  exists o, (s :: rest). rewrite /Owner Hv. cbn [tail1].
  by rewrite cut_before_Split Split_canonical.
Qed.

(** The owner of a key is defined for exactly the canonical keys, is itself
    a legal segment, and the key lies strictly below [/<owner>/]. *)
Theorem Owner_spec key o :
  Owner key = Ok o ↔
  is_ok (Validate key) = true ∧ canonical_segment o ∧ ∃ rest, key = "/" +:+ o +:+ "/" +:+ rest ∧ rest ≠ "".
Proof.
  split.
  - intros Ho. rewrite /Owner in Ho. destruct (Validate key) as [[]|] eqn:Hv; [|done].
    pose proof Hv as (segs & Hck)%Validate_canonical.
    destruct (Owner_canonical _ _ Hck) as (o' & rest & -> & Hne & Ho').
    rewrite /Owner Hv in Ho'. assert (o' = o) as -> by congruence.
    destruct Hck as [-> _ _ [Hseg Hrest]%Forall_cons]. split_and!; [done..|].
    exists (Join slash rest). rewrite Join_cons //. split; [done|].
    intros Hj. apply (f_equal (Split slash)) in Hj. rewrite Split_canonical // in Hj.
    subst. by apply Forall_cons in Hrest as [[] _].
  - intros (Hv & Hseg & rest & -> & _). apply Validate_spec in Hv as (segs & Hck).
    pose proof (Owner_canonical _ _ Hck) as (o' & rest' & -> & Hne & ->). f_equal.
    destruct Hck as [Hk _ _ [Hseg' _]%Forall_cons].
    rewrite Join_cons // in Hk. injection Hk as Hk.
    change (o +:+ String slash rest = o' +:+ String slash (Join slash rest')) in Hk.
    apply (f_equal (cut_before slash)) in Hk. rewrite !cut_before_Split in Hk.
    rewrite !Split_app in Hk; try by apply canonical_segment_no_slash.
    destruct (Split slash rest) eqn:E1; [by apply Split_not_nil in E1|].
    destruct (Split _ (Join _ rest')) eqn:E2; [by apply Split_not_nil in E2|]. congruence.
Qed.
