(* ===== verification/Authz.v ===== *)
(** * Authorization policies and their files

    internal/auth/authz: the authorizers ([authz.go]), the ACL file
    ([file.go]) and the bearer-token file ([token.go]).  A policy decides from
    the caller's identity, the key and the requested right; the files are read
    line by line as [bufio.Scanner] delivers them. *)
From S2P Require Import Prelude GoStrings GoText Keypath.
From Stdlib Require Import Ascii.

Local Open Scope Z_scope.

(** ** authz.go *)
Inductive Op := UnknownOp | Read | Write | Admin.
#[export] Instance Op_eq_dec : EqDecision Op.
Proof. solve_decision. Defined.

Inductive AuthzError := ErrDenied.

Record Rule := { rl_Prefix : string; rl_Write : bool; rl_Admin : bool }.
#[export] Instance Rule_eq_dec : EqDecision Rule.
Proof. solve_decision. Defined.

(** The implementations of the [Authorizer] interface. *)
Inductive Authorizer :=
| allowAll
| prefixPolicy (rules : gmap string (list Rule))
| homeDir (inner : Authorizer).

Definition AllowAll : Authorizer := allowAll.

(** [None] is a nil interface value. *)
Definition NeedsIdentity (a : option Authorizer) : bool :=
  match a with
  | None => false
  | Some allowAll => false
  | Some _ => true
  end.

(** [Prefix] copies every rule list, so that the caller's slices are not shared. *)
Definition Prefix (rules : gmap string (list Rule)) : Authorizer := prefixPolicy rules.

Definition HomeDir (inner : Authorizer) : Authorizer := homeDir inner.

Definition prefixCovers (prefix key : string) : bool := Keypath.HasPrefix prefix key.

(** The loop of [prefixPolicy.Authorize]. *)
Fixpoint anyRule (key : string) (op : Op) (rs : list Rule) : result unit AuthzError :=
  match rs with
  | [] => Err ErrDenied
  | r :: rs' =>
      if negb (prefixCovers (rl_Prefix r) key) then anyRule key op rs'
      else match op with
           | Read => Ok tt
           | Write => if rl_Write r then Ok tt else anyRule key op rs'
           | Admin => if rl_Admin r then Ok tt else anyRule key op rs'
           | UnknownOp => anyRule key op rs'
           end
  end.

(** A missing map entry is an empty slice. *)
Fixpoint Authorize (a : Authorizer) (identity key : string) (op : Op) : result unit AuthzError :=
  match a with
  | allowAll => Ok tt
  | prefixPolicy rules => anyRule key op (default [] (rules !! identity))
  | homeDir inner =>
      if bool_decide (identity ≠ "") && bool_decide (op = Read ∨ op = Write) then
        match Keypath.Owner key with
        | Ok owner => if bool_decide (owner = identity) then Ok tt else Authorize inner identity key op
        | Err _ => Authorize inner identity key op
        end
      else Authorize inner identity key op
  end.

(** ** Files *)
Inductive FileError :=
| OpenError
| ReadError
| LineError (line : Z) (text : string)
| ModeError (line : Z) (mode : string).

(** What the operating system returns for a path: nothing, or the bytes read,
    with [true] when reading them ended in an error instead of end of file. *)
Definition osFile : Type := option (string * bool).

(** [bufio.Scanner] over lines: [step] handles one delivered line.  Scanning
    stops at a line that does not fit the buffer. *)
Section scan.
Context {A E : Type} (step : A → Z → string → result A E) (tooLong : E).

Fixpoint scanLines (acc : A) (line : Z) (ls : list string) : result A E :=
  match ls with
  | [] => Ok acc
  | l :: ls' =>
      if maxLine <? len l then Err tooLong
      else match step acc line (dropCR l) with
           | Ok acc' => scanLines acc' (line + 1) ls'
           | Err e => Err e
           end
  end.
End scan.

(** *** file.go *)
Fixpoint modeRights (r : Rule) (rs : list Z) : option Rule :=
  match rs with
  | [] => Some r
  | c :: rs' =>
      if c =? 119 then modeRights {| rl_Prefix := rl_Prefix r; rl_Write := true; rl_Admin := rl_Admin r |} rs'
      else if c =? 97 then modeRights {| rl_Prefix := rl_Prefix r; rl_Write := rl_Write r; rl_Admin := true |} rs'
      else None
  end.

Definition parseMode (mode : string) : option Rule :=
  match mode with
  | EmptyString => None
  | String c rest =>
      if Ascii.eqb c "r" then modeRights {| rl_Prefix := ""; rl_Write := false; rl_Admin := false |} (runes rest)
      else None
  end.

Definition rulesOf : Type := gmap string (list Rule).

Definition aclLine (rules : rulesOf) (line : Z) (raw : string) : result rulesOf FileError :=
  let text := TrimSpace raw in
  if bool_decide (text = "") || GoStrings.HasPrefix text "#" then Ok rules
  else match Fields text with
       | [id; prefix; mode] =>
           let prefix := if bool_decide (prefix = "*") then "" else prefix in
           match parseMode mode with
           | None => Err (ModeError line mode)
           | Some rule =>
               let rule := {| rl_Prefix := prefix; rl_Write := rl_Write rule; rl_Admin := rl_Admin rule |} in
               Ok (<[id := default [] (rules !! id) ++ [rule]]> rules)
           end
       | _ => Err (LineError line text)
       end.

Definition LoadFile (f : osFile) : result Authorizer FileError :=
  match f with
  | None => Err OpenError
  | Some (data, failed) =>
      match scanLines aclLine ReadError ∅ 1 (raw_lines data) with
      | Err e => Err e
      | Ok rules => if (failed : bool) then Err ReadError else Ok (HomeDir (Prefix rules))
      end
  end.

(** *** token.go *)
Definition tokenLine (tokens : gmap string string) (line : Z) (raw : string) :
    result (gmap string string) FileError :=
  let text := TrimSpace raw in
  if bool_decide (text = "") || GoStrings.HasPrefix text "#" then Ok tokens
  else match Fields text with
       | [tok; id] => Ok (<[tok := id]> tokens)
       | _ => Err (LineError line text)
       end.

Definition LoadTokens (f : osFile) : result (gmap string string) FileError :=
  match f with
  | None => Err OpenError
  | Some (data, failed) =>
      match scanLines tokenLine ReadError ∅ 1 (raw_lines data) with
      | Err e => Err e
      | Ok tokens => if (failed : bool) then Err ReadError else Ok tokens
      end
  end.

(** ** Specification *)

(** The right a rule confers, apart from its prefix. *)
Definition grants (r : Rule) (op : Op) : bool :=
  match op with
  | UnknownOp => false
  | Read => true
  | Write => rl_Write r
  | Admin => rl_Admin r
  end.

(** One line of an ACL file: an identity and what it may do. *)
Record entry := { en_id : string; en_rule : Rule }.

Definition entry_ok (e : entry) : Prop :=
  word (en_id e) ∧ GoStrings.HasPrefix (en_id e) "#" = false ∧
  (rl_Prefix (en_rule e) = "" ∨ (word (rl_Prefix (en_rule e)) ∧ rl_Prefix (en_rule e) ≠ "*")) ∧
  len (en_id e) + len (rl_Prefix (en_rule e)) < maxLine - 6.

#[export] Instance entry_ok_dec e : Decision (entry_ok e).
Proof. apply _. Defined.

Definition space : ascii := " ".

Definition renderPrefix (p : string) : string := if bool_decide (p = "") then "*" else p.
Definition renderMode (r : Rule) : string :=
  "r" +:+ (if rl_Write r then "w" else "") +:+ (if rl_Admin r then "a" else "").
Definition render (e : entry) : string :=
  en_id e +:+ String space (renderPrefix (rl_Prefix (en_rule e)) +:+ String space (renderMode (en_rule e))).

Definition addEntry (rules : rulesOf) (e : entry) : rulesOf :=
  <[en_id e := default [] (rules !! en_id e) ++ [en_rule e]]> rules.

Section authorize.
Lemma anyRule_ok key op rs :
  is_ok (anyRule key op rs) = true ↔
  ∃ r, r ∈ rs ∧ prefixCovers (rl_Prefix r) key = true ∧ grants r op = true.
Proof.
  induction rs as [|r rs IH]; cbn [anyRule].
  { split; [done|]. intros (r & ?%elem_of_nil & _). done. }
  assert (∀ b : bool, (prefixCovers (rl_Prefix r) key = true ∧ grants r op = true ↔ b = true) →
    (b = true ∨ ∃ r', r' ∈ rs ∧ prefixCovers (rl_Prefix r') key = true ∧ grants r' op = true) ↔
    ∃ r', r' ∈ r :: rs ∧ prefixCovers (rl_Prefix r') key = true ∧ grants r' op = true) as Hhead.
  { intros b Hb. setoid_rewrite elem_of_cons. naive_solver. }
  rewrite -(Hhead (prefixCovers (rl_Prefix r) key && grants r op)); [by rewrite andb_true_iff|]. rewrite -IH.
  destruct (prefixCovers (rl_Prefix r) key); cbn [negb andb]; [|naive_solver].
  destruct op; cbn [grants is_ok]; repeat case_match; naive_solver.
Qed.

Lemma renderMode_word r : word (renderMode r).
Proof. rewrite /renderMode. destruct (rl_Write r), (rl_Admin r); by vm_compute; split; repeat constructor. Qed.

Lemma parseMode_render r :
  parseMode (renderMode r) = Some {| rl_Prefix := ""; rl_Write := rl_Write r; rl_Admin := rl_Admin r |}.
Proof. rewrite /renderMode. by destruct (rl_Write r), (rl_Admin r). Qed.

Lemma renderPrefix_word p : p = "" ∨ (word p ∧ p ≠ "*") → word (renderPrefix p).
Proof.
  rewrite /renderPrefix. intros [->|[[? ?] ?]]; [by vm_compute; split; repeat constructor|].
  by rewrite bool_decide_eq_false_2.
Qed.

Lemma renderPrefix_back p :
  p = "" ∨ (word p ∧ p ≠ "*") → (if bool_decide (renderPrefix p = "*") then "" else renderPrefix p) = p.
Proof. rewrite /renderPrefix. intros [->|[[? _] ?]]; [done|]. rewrite !bool_decide_eq_false_2 //. Qed.
End authorize.

Section round_trip.
Variables (e : entry).
Hypothesis Hok : entry_ok e.

Lemma word_first s : word s → ∃ c cs, chunks s = c :: cs ∧ is_blank c = false.
Proof.
  intros [Hne Hs]. destruct (chunks s) as [|c cs] eqn:E.
  - destruct Hne. rewrite -(string_of_bytes s) -(concat_chunks s) E. done.
  - apply Forall_cons in Hs as [? _]. eauto.
Qed.

Lemma word_last s : word s → ∃ c cs, chunks s = cs ++ [c] ∧ is_blank c = false.
Proof.
  intros [Hne Hs]. destruct (exists_last (l := chunks s)) as (cs & c & E).
  { intros E. destruct Hne. rewrite -(string_of_bytes s) -(concat_chunks s) E. done. }
  rewrite E in Hs. apply Forall_app in Hs as [_ [? _]%Forall_cons]. eauto.
Qed.

Lemma render_chunks :
  chunks (render e) = chunks (en_id e) ++ (32, [space]) :: chunks (renderPrefix (rl_Prefix (en_rule e)))
    ++ (32, [space]) :: chunks (renderMode (en_rule e)).
Proof. by rewrite /render !chunks_append_ascii. Qed.

Lemma render_trim : TrimSpace (render e) = render e.
Proof.
  destruct Hok as (Hid & _ & _ & _). destruct (word_first _ Hid) as (c & cs & Ec & Hc).
  destruct (word_last _ (renderMode_word (en_rule e))) as (d & ds & Ed & Hd).
  eapply (TrimSpace_id c _ d); [by rewrite render_chunks Ec| |done|done].
  rewrite render_chunks Ed. by rewrite !app_comm_cons !app_assoc.
Qed.

Lemma render_fields :
  Fields (render e) = [en_id e; renderPrefix (rl_Prefix (en_rule e)); renderMode (en_rule e)].
Proof.
  destruct Hok as (Hid & _ & Hp & _). rewrite /render Fields_cons // Fields_cons //; [by apply renderPrefix_word|].
  by rewrite Fields_word; [apply renderMode_word|].
Qed.

Lemma render_no_byte c :
  byte_val c < 128 → IsSpace (byte_val c) = true → c ≠ space → c ∉ bytes_of (render e).
Proof.
  intros Hc Hsp Hne. destruct Hok as ([_ Hid] & _ & Hp & _). destruct (renderPrefix_word _ Hp) as [_ Hp'].
  destruct (renderMode_word (en_rule e)) as [_ Hm].
  pose proof (word_no_ascii_space _ _ Hid Hc Hsp). pose proof (word_no_ascii_space _ _ Hp' Hc Hsp).
  pose proof (word_no_ascii_space _ _ Hm Hc Hsp).
  rewrite /render bytes_of_append /= bytes_of_append /=. set_solver.
Qed.

Lemma aclLine_render rules line : aclLine rules line (dropCR (render e)) = Ok (addEntry rules e).
Proof.
  assert (dropCR (render e) = render e) as ->.
  { apply TrimSuffix_no_suffix. destruct (HasSuffix _ _) eqn:E; [|done].
    apply HasSuffix_spec in E as [p Ep]. destruct (render_no_byte carriage_return); [done..|].
    rewrite Ep bytes_of_append. set_solver. }
  rewrite /aclLine render_trim render_fields.
  destruct Hok as ([Hne _] & Hhash & Hp & _).
  assert (render e ≠ "" ∧ GoStrings.HasPrefix (render e) "#" = false) as [Hr1 Hr2].
  { rewrite /render. destruct (en_id e) as [|c s]; [done|]. rewrite append_cons. split; [done|].
    rewrite /GoStrings.HasPrefix in Hhash |- *. cbn [String.prefix] in *. by case_match; [destruct s|]. }
  rewrite bool_decide_eq_false_2 // Hr2. cbn [orb]. rewrite parseMode_render renderPrefix_back //.
  rewrite /addEntry. by destruct (en_rule e).
Qed.

Lemma render_len : (maxLine <? len (render e)) = false.
Proof.
  destruct Hok as (_ & _ & _ & Hlen). apply Z.ltb_ge. rewrite /len /maxLine in Hlen |- *.
  assert (String.length (render e) = String.length (en_id e) + 1 +
    String.length (renderPrefix (rl_Prefix (en_rule e))) + 1 + String.length (renderMode (en_rule e)))%nat as ->.
  { rewrite /render length_append. cbn [String.length]. rewrite length_append. cbn [String.length]. lia. }
  assert (String.length (renderPrefix (rl_Prefix (en_rule e))) ≤ String.length (rl_Prefix (en_rule e)) + 1)%nat.
  { rewrite /renderPrefix. case_bool_decide as E; [rewrite E|]; simpl; lia. }
  assert (String.length (renderMode (en_rule e)) ≤ 3)%nat.
  { rewrite /renderMode. destruct (rl_Write _), (rl_Admin _); simpl; lia. }
  lia.
Qed.
End round_trip.

Lemma scan_render es rules line :
  Forall entry_ok es →
  scanLines aclLine ReadError rules line (render <$> es) = Ok (foldl addEntry rules es).
Proof.
  revert rules line. induction es as [|e es IH]; intros rules line; [done|]. intros [He Hes]%Forall_cons.
  rewrite fmap_cons. cbn [scanLines]. rewrite render_len // aclLine_render //. by apply IH.
Qed.

Lemma raw_lines_render es : Forall entry_ok es → raw_lines (unlines (render <$> es)) = render <$> es.
Proof.
  intros Hes. apply raw_lines_unlines. apply Forall_fmap. eapply Forall_impl; [done|].
  intros e He. by apply render_no_byte.
Qed.

Lemma lookup_addEntries es rules id :
  default [] (foldl addEntry rules es !! id) =
    default [] (rules !! id) ++ (en_rule <$> filter (λ e, en_id e = id) es).
Proof.
  revert rules. induction es as [|e es IH]; intros rules; cbn [foldl]; [by rewrite app_nil_r|].
  rewrite IH /addEntry lookup_insert filter_cons. repeat case_decide; simplify_eq/=; try done.
  by rewrite -app_assoc.
Qed.

(** ** Theorems *)

(** Who may do what.  Under a home-directory policy over prefix rules, an
    operation on a key is allowed exactly when it is a read or write by the owner
    of the key, the first segment of a canonical path, or when one of the
    caller's rules covers the key and confers the right; administration is only
    ever conferred by a rule that grants it, and the unset operation never. *)
Theorem policy_decides rules identity key op :
  is_ok (Authorize (HomeDir (Prefix rules)) identity key op) = true ↔
  (identity ≠ "" ∧ (op = Read ∨ op = Write) ∧ Keypath.Owner key = Ok identity) ∨
  (∃ r, r ∈ default [] (rules !! identity) ∧ prefixCovers (rl_Prefix r) key = true ∧ grants r op = true).
Proof.
  rewrite -anyRule_ok. cbn [HomeDir Prefix Authorize].
  destruct (bool_decide (identity ≠ "")) eqn:Hid; cbn [andb].
  2: { apply bool_decide_eq_false in Hid. naive_solver. }
  destruct (bool_decide (op = Read ∨ op = Write)) eqn:Hop.
  2: { apply bool_decide_eq_false in Hop. naive_solver. }
  apply bool_decide_eq_true in Hid, Hop.
  destruct (Keypath.Owner key) as [owner|e]; [|naive_solver].
  case_bool_decide; subst; naive_solver.
Qed.

(** The ACL file says what it means.  Writing any table of rules as an ACL
    file, one line each, and loading it gives a policy in which every identity
    has its own home directory and exactly its own rules, in order. *)
Theorem acl_round_trip es :
  Forall entry_ok es →
  ∃ rules, LoadFile (Some (unlines (render <$> es), false)) = Ok (HomeDir (Prefix rules)) ∧
    ∀ id, default [] (rules !! id) = en_rule <$> filter (λ e, en_id e = id) es.
Proof.
  intros Hes. exists (foldl addEntry ∅ es). split; [|intros id; by rewrite lookup_addEntries lookup_empty].
  by rewrite /LoadFile raw_lines_render // scan_render.
Qed.

Lemma acl_round_trip_witness :
  ∃ rules, LoadFile (Some (unlines (render <$>
      [{| en_id := "bob"; en_rule := {| rl_Prefix := "/alice/configs/"; rl_Write := false; rl_Admin := false |} |};
       {| en_id := "operator"; en_rule := {| rl_Prefix := ""; rl_Write := true; rl_Admin := true |} |}]), false)) =
    Ok (HomeDir (Prefix rules)).
Proof.
  edestruct (acl_round_trip [{| en_id := "bob"; en_rule := {| rl_Prefix := "/alice/configs/"; rl_Write := false;
      rl_Admin := false |} |};
     {| en_id := "operator"; en_rule := {| rl_Prefix := ""; rl_Write := true; rl_Admin := true |} |}])
    as (rules & H & _).
  - refine (bool_decide_unpack _ _). vm_compute. exact I.
  - by exists rules.
Defined.

(** Rights are separate.  A mode string is accepted only when it is "r"
    followed by any of "w" and "a"; it grants writing exactly when it has a "w"
    and administration exactly when it has an "a". *)
Theorem mode_rights mode :
  match parseMode mode with
  | Some r => ∃ rest, mode = String "r" rest ∧ Forall (λ c, c = 119 ∨ c = 97) (runes rest) ∧
                      (rl_Write r = true ↔ 119 ∈ runes rest) ∧ (rl_Admin r = true ↔ 97 ∈ runes rest)
  | None => ¬ ∃ rest, mode = String "r" rest ∧ Forall (λ c, c = 119 ∨ c = 97) (runes rest)
  end.
Proof.
  assert (∀ rs r, match modeRights r rs with
    | Some r' => Forall (λ c, c = 119 ∨ c = 97) rs ∧ (rl_Write r' = true ↔ rl_Write r = true ∨ 119 ∈ rs) ∧
                 (rl_Admin r' = true ↔ rl_Admin r = true ∨ 97 ∈ rs)
    | None => ¬ Forall (λ c, c = 119 ∨ c = 97) rs
    end) as Hrights.
  { induction rs as [|c rs IH]; intros r; cbn [modeRights]; [set_solver|].
    destruct (Z.eqb_spec c 119) as [->|Hw]; [|destruct (Z.eqb_spec c 97) as [->|Ha]].
    - specialize (IH {| rl_Prefix := rl_Prefix r; rl_Write := true; rl_Admin := rl_Admin r |}).
      case_match; rewrite Forall_cons; set_solver.
    - specialize (IH {| rl_Prefix := rl_Prefix r; rl_Write := rl_Write r; rl_Admin := true |}).
      case_match; rewrite Forall_cons; set_solver.
    - rewrite Forall_cons. naive_solver. }
  destruct mode as [|c rest]; [naive_solver|]. cbn [parseMode]. destruct (Ascii.eqb_spec c "r") as [->|Hc]; [|naive_solver].
  specialize (Hrights (runes rest) {| rl_Prefix := ""; rl_Write := false; rl_Admin := false |}).
  case_match; [|naive_solver]. exists rest. simpl in *. naive_solver.
Qed.
