(* ===== verification/Errors.v ===== *)
(** * Service errors

    errors/errors.go and errors/grpc.go: errors carry a category and a type, map
    to a gRPC status code, are stamped at the server boundary and classified
    again at the client.  An error value is the tree its [Unwrap] methods span;
    [FromError] is [status.FromError] of grpc-go, which takes the first error of
    the tree that reports a status. *)
From S2P Require Import Prelude GoStrings GoRegexp.
From stdpp Require Import pretty.

Local Open Scope Z_scope.

(** ** errors.go *)
Inductive Category :=
| UnknownCategory | CatRequest | CatNotFound | CatUnauthenticated | CatPermission | CatPrecondition
| CatResourceExhausted | CatUnavailable | CatUnimplemented | CatInternal.
#[export] Instance Category_eq_dec : EqDecision Category.
Proof. solve_decision. Defined.

Inductive Type_ :=
| UnknownType
| TypeBadRequest | TypeInvalidKeyPath | TypeMissingClientID
| TypeMissingCredentials | TypeInvalidToken
| TypeIdentityMismatch | TypePeerCertRequired | TypePeerCertUntrusted | TypePeerCertNotAllowed
| TypeUnauthorizedKey | TypeUnauthorizedCluster
| TypeNoLiveLease | TypeStaleFencingToken | TypeNotLockHolder | TypeNotLeader | TypeNoSession
| TypeRateLimited
| TypeNotFound | TypeNotAcquired
| TypeMembershipDisabled
| TypeUnexpectedOutcome | TypeBackend | TypeMarshal | TypeConsensus
| TypeConfig
| TypeDiscovery.
#[export] Instance Type_eq_dec : EqDecision Type_.
Proof. solve_decision. Defined.

(** gRPC status codes ([codes.Code] is a [uint32]). *)
Module codes.
Definition OK : Z := 0.
Definition Canceled : Z := 1.
Definition Unknown : Z := 2.
Definition InvalidArgument : Z := 3.
Definition DeadlineExceeded : Z := 4.
Definition NotFound : Z := 5.
Definition PermissionDenied : Z := 7.
Definition ResourceExhausted : Z := 8.
Definition FailedPrecondition : Z := 9.
Definition Aborted : Z := 10.
Definition Unimplemented : Z := 12.
Definition Internal : Z := 13.
Definition Unavailable : Z := 14.
Definition Unauthenticated : Z := 16.
End codes.

(** [Category.Code] by the table [catToCode], which has every category. *)
Definition Code (c : Category) : Z :=
  match c with
  | UnknownCategory => codes.Unknown
  | CatRequest => codes.InvalidArgument
  | CatNotFound => codes.NotFound
  | CatUnauthenticated => codes.Unauthenticated
  | CatPermission => codes.PermissionDenied
  | CatPrecondition => codes.FailedPrecondition
  | CatResourceExhausted => codes.ResourceExhausted
  | CatUnavailable => codes.Unavailable
  | CatUnimplemented => codes.Unimplemented
  | CatInternal => codes.Internal
  end.

(** *** Error values

    [Text] is an error without a cause, [StatusError] a grpc-go status error,
    [Wrapping] any [fmt.Errorf] with [%w] or [errors.Join], [BaseError] the
    error of github.com/gostdlib/base/errors and [Error] the service error
    around it. *)
Inductive error :=
| Text (text : string)
| StatusError (code : Z) (message : string)
| Wrapping (text : string) (causes : list error)
| BaseError (c : Category) (t : Type_) (override : string) (msg : error)
| Error (c : Category) (t : Type_) (override : string) (msg : error).

(** [codes.Code.String] *)
Definition codeNames : list string :=
  ["OK"; "Canceled"; "Unknown"; "InvalidArgument"; "DeadlineExceeded"; "NotFound"; "AlreadyExists";
   "PermissionDenied"; "ResourceExhausted"; "FailedPrecondition"; "Aborted"; "OutOfRange"; "Unimplemented";
   "Internal"; "Unavailable"; "DataLoss"; "Unauthenticated"].

Definition codeName (c : Z) : string :=
  match (if c <? 0 then None else codeNames !! Z.to_nat c) with
  | Some n => n
  | None => "Code(" +:+ pretty c +:+ ")"
  end.

(** The [Error] methods. *)
Fixpoint message (e : error) : string :=
  match e with
  | Text t => t
  | StatusError c m => "rpc error: code = " +:+ codeName c +:+ " desc = " +:+ m
  | Wrapping t _ => t
  | BaseError _ _ o m | Error _ _ o m => if bool_decide (o = "") then message m else o
  end.

(** *** Redaction *)
Definition lower (c : Z) : Z := if in_range 65 90 c then c + 32 else c.

(** A literal rune under [(?i)]: besides its two cases, Unicode folds the Kelvin
    sign with k and the long s with s. *)
Definition folds (x c : Z) : bool :=
  (lower c =? lower x) || ((lower x =? 107) && (c =? 8490)) || ((lower x =? 115) && (c =? 383)).

Fixpoint literal_from (l : list Z) : re :=
  match l with
  | [] => Eps
  | [c] => Class (folds c)
  | c :: l' => Seq (Class (folds c)) (literal_from l')
  end.
Definition literal (s : string) : re := literal_from (runes s).

Fixpoint repeat_re (n : nat) (r s : re) : re :=
  match n with
  | O => s
  | S n' => Seq r (repeat_re n' r s)
  end.

(** [r{n,}] *)
Definition at_least (n : nat) (r : re) : re := repeat_re n r (Star r).

(** [[A-Za-z0-9._\-]] under [(?i)]. *)
Definition tokenRune (c : Z) : bool :=
  in_range 65 90 c || in_range 97 122 c || in_range 48 57 c || (c =? 46) || (c =? 95) || (c =? 45)
  || (c =? 8490) || (c =? 383).

(** [\s], ASCII white space without the vertical tab. *)
Definition perlSpace (c : Z) : bool := (c =? 9) || (c =? 10) || (c =? 12) || (c =? 13) || (c =? 32).

Definition secretRE : re :=
  Alt (Seq (literal "bearer") (Seq (at_least 1 (Class perlSpace)) (at_least 8 (Class tokenRune))))
  (Alt (Seq (literal "eyJ") (at_least 10 (Class tokenRune)))
       (Seq (Alt (literal "password") (Alt (literal "passwd")
               (Alt (Seq (literal "api") (Seq (Alt Eps (Class (λ c, (c =? 95) || (c =? 45) || (c =? 32))))
                      (literal "key")))
                    (literal "secret"))))
            (Seq (Star (Class perlSpace)) (Seq (Class (λ c, (c =? 58) || (c =? 61)))
               (Seq (Star (Class perlSpace)) (at_least 1 (Class (λ c, negb (perlSpace c))))))))).

Definition redacted : string := "[redacted for security]".

(** [E ctx c t msg]: a nil [msg] is a bug with a text of its own, and a base
    error is not wrapped again. *)
Definition E (c : Category) (t : Type_) (msg : option error) : error :=
  match msg with
  | None => Error c t "" (Text "bug: nil error")
  | Some m =>
      let '(c', t', o, m') := match m with
                              | BaseError c1 t1 o1 m1 => (c1, t1, o1, m1)
                              | _ => (c, t, "", m)
                              end in
      if bool_decide (o = "") && MatchString secretRE (message m) then Error c' t' redacted m'
      else Error c' t' o m'
  end.

Definition ErrPermanent : error := Text "permanent error".

Definition Permanent (err : option error) : option error :=
  match err with
  | None => None
  | Some e => Some (Wrapping (message e +:+ ": " +:+ message ErrPermanent) [e; ErrPermanent])
  end.

(** [errors.Is] for a target made by [errors.New]: whether it occurs in the tree
    of causes.  Such targets are told apart by their texts. *)
Fixpoint Is (target : string) (e : error) : bool :=
  match e with
  | Text t => bool_decide (t = target)
  | StatusError _ _ => false
  | Wrapping _ es =>
      (fix go es := match es with
                    | [] => false
                    | e :: es' => Is target e || go es'
                    end) es
  | BaseError _ _ _ m => Is target m
  | Error _ _ _ m => Is target m
  end.

(** ** grpc.go *)

(** The code of the first error in the tree that has a [GRPCStatus] method, as
    [errors.As] walks it; [Error.GRPCStatus] prefers the status of its cause. *)
Fixpoint findStatus (e : error) : option Z :=
  match e with
  | Text _ => None
  | StatusError c _ => Some c
  | Wrapping _ es =>
      (fix go es := match es with
                    | [] => None
                    | e :: es' => match findStatus e with Some c => Some c | None => go es' end
                    end) es
  | BaseError _ _ _ m => findStatus m
  | Error c _ _ m => match findStatus m with Some s => Some s | None => Some (Code c) end
  end.

(** [status.FromError]: the status, its message, and whether there was one. *)
Definition FromError (e : error) : Z * string * bool :=
  match e with
  | StatusError c m => (c, m, true)
  | _ => match findStatus e with
         | Some c => (c, message e, true)
         | None => (codes.Unknown, message e, false)
         end
  end.

(** [status.Code]; nil is OK. *)
Definition statusCode (err : option error) : Z :=
  match err with
  | None => codes.OK
  | Some e => (FromError e).1.1
  end.

Definition Status (err : option error) : option error :=
  match err with
  | None => None
  | Some e => if (FromError e).2 then Some e else Some (E CatInternal UnknownType (Some e))
  end.

Definition codeToCat (c : Z) : Category :=
  if c =? codes.InvalidArgument then CatRequest
  else if c =? codes.NotFound then CatNotFound
  else if c =? codes.Unauthenticated then CatUnauthenticated
  else if c =? codes.PermissionDenied then CatPermission
  else if c =? codes.FailedPrecondition then CatPrecondition
  else if c =? codes.ResourceExhausted then CatResourceExhausted
  else if c =? codes.Unavailable then CatUnavailable
  else if c =? codes.Unimplemented then CatUnimplemented
  else if c =? codes.Internal then CatInternal
  else UnknownCategory.

Definition FromStatus (err : option error) : option error :=
  match err with
  | None => None
  | Some e =>
      let '(c, _, ok) := FromError e in
      if ok then Some (E (codeToCat c) UnknownType (Some e)) else Some (E CatInternal UnknownType (Some e))
  end.

(** The interceptors, with the handler or invoker as an argument. *)
Definition UnaryServerInterceptor {R} (handler : R * option error) : R * option error :=
  let '(resp, err) := handler in
  match err with
  | Some _ => (resp, Status err)
  | None => (resp, None)
  end.
Definition StreamServerInterceptor (handler : option error) : option error := Status handler.
Definition UnaryClientInterceptor (invoker : option error) : option error := FromStatus invoker.
Definition StreamClientInterceptor {R} (streamer : R * option error) : option R * option error :=
  let '(cs, err) := streamer in
  match err with
  | Some _ => (None, FromStatus err)
  | None => (Some cs, None)
  end.

(** The category a service error carries, if it is one. *)
Definition category_of (err : option error) : option Category :=
  match err with
  | Some (Error c _ _ _) => Some c
  | _ => None
  end.

(** What grpc transports of a handler's error: its status, rebuilt as a status
    error on the client. *)
Definition wire (err : option error) : option error :=
  match err with
  | None => None
  | Some e => let '(c, m, _) := FromError e in Some (StatusError c m)
  end.

(** ** Theorems *)
Definition is_base (e : error) : bool := match e with BaseError _ _ _ _ => true | _ => false end.

Section boundary.
Lemma E_Error c t m : ∃ c' t' o m', E c t m = Error c' t' o m'.
Proof. destruct m as [[]|]; simpl; repeat case_match; eauto. Qed.

Lemma E_fresh c t m :
  is_base m = false → ∃ o, E c t (Some m) = Error c t o m ∧
    o = if MatchString secretRE (message m) then redacted else "".
Proof.
  intros Hm. assert (E c t (Some m) = if MatchString secretRE (message m) then Error c t redacted m else Error c t "" m)
    as ->; [|case_match; eauto].
  destruct m; done.
Qed.

Lemma Error_has_status c t o m : (FromError (Error c t o m)).2 = true.
Proof. simpl. by destruct (findStatus m). Qed.

Lemma codeToCat_Code c : codeToCat (Code c) = c.
Proof. by destruct c. Qed.

Lemma redacted_clean : MatchString secretRE redacted = false.
Proof. by vm_compute. Qed.
End boundary.

(** The code an error without a status gets at the boundary: its own category's
    when it is a bare base error, Internal otherwise. *)
Definition boundaryCode (e : error) : Z :=
  match e with
  | BaseError c _ _ _ => Code c
  | _ => codes.Internal
  end.

(** Nothing leaves the server without a code.  The server boundary keeps
    nil, keeps every error that already reports a status with its code, and
    turns any other error into one that reports its own category's code or
    Internal; doing it twice changes nothing. *)
Theorem boundary_status err :
  (Status err = None ↔ err = None) ∧
  (∀ e, Status err = Some e → (FromError e).2 = true) ∧
  statusCode (Status err) =
    match err with
    | Some e => if (FromError e).2 then statusCode err else boundaryCode e
    | None => codes.OK
    end ∧
  Status (Status err) = Status err.
Proof.
  destruct err as [e|]; [|done]. rewrite /Status.
  destruct (FromError e).2 eqn:Hs; [rewrite Hs; naive_solver|].
  assert (findStatus e = None) as Hf.
  { rewrite /FromError in Hs. destruct e; try done; by destruct (findStatus _). }
  assert (∃ c t o m, E CatInternal UnknownType (Some e) = Error c t o m ∧ findStatus m = None ∧
    Code c = boundaryCode e) as (c & t & o & m & -> & Hm & Hc).
  { destruct (is_base e) eqn:Hb; [destruct e; try done; simpl; case_match; eauto 8|].
    destruct (E_fresh CatInternal UnknownType e Hb) as (o' & -> & _). exists CatInternal, UnknownType, o', e.
    by destruct e. }
  rewrite Error_has_status. split_and!; [done|intros ? [= <-]; apply Error_has_status| |done].
  rewrite /statusCode /FromError. cbn [findStatus]. by rewrite Hm.
Qed.

(** The client sees the server's category.  An error stamped with a category
    and a cause that reports no status arrives at the client as an error of the
    same category and the same status code. *)
Theorem category_round_trip c t m :
  is_base m = false → findStatus m = None →
  let seen := FromStatus (wire (Status (Some (E c t (Some m))))) in
  category_of seen = Some c ∧ statusCode seen = Code c.
Proof.
  intros Hb Hf. destruct (E_fresh c t m Hb) as (o & -> & _). rewrite /Status Error_has_status /wire.
  assert (FromError (Error c t o m) = (Code c, message (Error c t o m), true)) as -> by by rewrite /FromError /= Hf.
  generalize (message (Error c t o m)). intros s. cbn [FromStatus FromError].
  destruct (E_fresh (codeToCat (Code c)) UnknownType (StatusError (Code c) s) eq_refl) as (o' & -> & _).
  by rewrite codeToCat_Code.
Qed.

Lemma category_round_trip_witness :
  category_of (FromStatus (wire (Status (Some (E CatPrecondition TypeNotLeader (Some (Text "not the leader"))))))) =
    Some CatPrecondition.
Proof. by destruct (category_round_trip CatPrecondition TypeNotLeader (Text "not the leader")). Defined.

(** Secrets do not leave in messages.  Whatever text an error is stamped
    with, the message of the stamped error has no part that looks like a bearer
    token, a JWT or a password pair. *)
Theorem stamped_message_clean c t m :
  is_base m = false → MatchString secretRE (message (E c t (Some m))) = false.
Proof.
  intros Hb. destruct (E_fresh c t m Hb) as (o & -> & Ho). cbn [message]. rewrite Ho.
  destruct (MatchString secretRE (message m)) eqn:Hm; [apply redacted_clean|done].
Qed.

Lemma stamped_message_clean_witness :
  MatchString secretRE (message (E CatInternal TypeBackend (Some (Text "login with password=hunter2")))) = false.
Proof. by apply (stamped_message_clean CatInternal TypeBackend (Text "login with password=hunter2")). Defined.

(** Stamping runs the redaction matcher: clients reason about [E] through
    [E_fresh], not by computation. *)
Arguments E : simpl never.
Arguments MatchString : simpl never.
#[global] Opaque E MatchString.
