(* ===== verification/Gate.v ===== *)
(** * The authentication gate and the per-identity rate limits

    internal/node/auth.go and context/identity.go: every call passes the gate,
    which decides by the method's class whether it needs a bearer token, a peer
    certificate or nothing, and settles which identity the handlers see.  SHA-256,
    OIDC verification, certificate chains and token buckets are arguments. *)
From S2P Require Import Prelude GoStrings GoText GoRegexp Errors.
From Stdlib Require Import Ascii.

Local Open Scope Z_scope.

(** ** Contexts *)
Record Certificate := { CommonName : string; cert_id : Z }.

(** What a call's context carries: incoming metadata, the identity an
    interceptor attached, and the peer: [None] without peer information,
    [Some None] when the connection is not TLS. *)
Record Context := {
  ctx_md : option (gmap string (list string));
  ctx_identity : option string;
  ctx_peer : option (option (list Certificate))
}.

(** *** context/identity.go *)
Definition WithIdentity (ctx : Context) (identity : string) : Context :=
  {| ctx_md := ctx_md ctx; ctx_identity := Some identity; ctx_peer := ctx_peer ctx |}.

Definition certIdentity (ctx : Context) : string * bool :=
  match ctx_peer ctx with
  | Some (Some (c :: _)) => (CommonName c, true)
  | _ => ("", false)
  end.

Definition IdentityFromContext (ctx : Context) : string * bool :=
  match ctx_identity ctx with
  | Some id => if bool_decide (id ≠ "") then (id, true) else certIdentity ctx
  | None => certIdentity ctx
  end.

(** ** auth.go *)
Definition bearerPrefix : string := "bearer ".
Definition healthMethodPrefix : string := "/grpc.health.v1.Health/".
Definition forwardMethodPrefix : string := "/zuul.forward.Forwarder/".
Definition UserHeader : string := "zuul-user".

Inductive methodClass := classClient | classPeer | classOpen.

Definition classify (fullMethod : string) : methodClass :=
  if GoStrings.HasPrefix fullMethod healthMethodPrefix then classOpen
  else if GoStrings.HasPrefix fullMethod forwardMethodPrefix then classPeer
  else classClient.

(** [md.Get key] for a key in lower case. *)
Definition mdGet (md : gmap string (list string)) (key : string) : list string := default [] (md !! key).

(** [s[:n]] and [s[n:]]. *)
Fixpoint takeBytes (n : nat) (s : string) : string :=
  match n, s with
  | S n', String c s' => String c (takeBytes n' s')
  | _, _ => ""
  end.
Fixpoint dropBytes (n : nat) (s : string) : string :=
  match n, s with
  | S n', String _ s' => dropBytes n' s'
  | _, _ => s
  end.

(** [strings.EqualFold s t] for an ASCII [t]. *)
Fixpoint foldEq (l t : list Z) : bool :=
  match l, t with
  | [], [] => true
  | c :: l', x :: t' => folds x c && foldEq l' t'
  | _, _ => false
  end.
Definition EqualFold (s t : string) : bool := foldEq (runes s) (runes t).

(** Strips the auth scheme in any case. *)
Definition stripBearer (token : string) : string :=
  if (len bearerPrefix <=? len token) && EqualFold (takeBytes 7 token) bearerPrefix
  then dropBytes 7 token else token.

Definition firstMetadata (ctx : Context) (key : string) : string :=
  match ctx_md ctx with
  | None => ""
  | Some md => match mdGet md key with
               | [] => ""
               | v :: _ => TrimSpace v
               end
  end.

Definition reconcileUser (ctx : Context) : result Context error :=
  let user := firstMetadata ctx UserHeader in
  let '(authID, ok) := IdentityFromContext ctx in
  if (ok : bool) && bool_decide (authID ≠ "") then
    if bool_decide (user ≠ "") && bool_decide (user ≠ authID) then
      Err (E CatPermission TypeIdentityMismatch
             (Some (Text "zuul-user header does not match the authenticated identity")))
    else Ok ctx
  else if bool_decide (user ≠ "") then Ok (WithIdentity ctx user)
  else Ok ctx.

Definition peerLeaf (ctx : Context) : option Certificate :=
  match ctx_peer ctx with
  | Some (Some (c :: _)) => Some c
  | _ => None
  end.

Section gate.
Context (Sum256 : string → string).

(** Static tokens by the hash of the token, and an OIDC verifier. *)
Record bearerAuth := {
  ba_tokens : gmap string string;
  ba_oidc : option (string → result string unit)
}.

(** The loop of [hashTokens], in the order the runtime ranges over the map. *)
Definition hashTokensInOrder (order : list (string * string)) : gmap string string :=
  foldl (λ h ti, <[Sum256 ti.1 := ti.2]> h) ∅ order.
Definition hashTokens (tokens : gmap string string) : gmap string string :=
  hashTokensInOrder (map_to_list tokens).

Definition enabled (b : bearerAuth) : bool :=
  bool_decide (ba_tokens b ≠ ∅) || bool_decide (is_Some (ba_oidc b)).

Definition invalidToken : error :=
  E CatUnauthenticated TypeInvalidToken (Some (Text "invalid authorization token")).

Definition authenticate (b : bearerAuth) (ctx : Context) : result Context error :=
  match ctx_md ctx with
  | None => Err (E CatUnauthenticated TypeMissingCredentials (Some (Text "missing credentials")))
  | Some md =>
      match mdGet md "authorization" with
      | [] => Err (E CatUnauthenticated TypeMissingCredentials (Some (Text "missing authorization token")))
      | v :: _ =>
          let token := stripBearer (TrimSpace v) in
          match ba_tokens b !! Sum256 token with
          | Some who => Ok (WithIdentity ctx who)
          | None =>
              match ba_oidc b with
              | Some verify =>
                  match verify token with
                  | Ok who => Ok (WithIdentity ctx who)
                  | Err _ => Err invalidToken
                  end
              | None => Err invalidToken
              end
          end
      end
  end.

(** [peerCA] is the chain check against the configured pool, when there is one;
    an empty [peerCNs] pins nothing. *)
Record authGate := {
  ag_bearer : bearerAuth;
  ag_guardPeer : bool;
  ag_peerCA : option (Certificate → bool);
  ag_peerCNs : gset string
}.

Definition verifyPeer (g : authGate) (ctx : Context) : result unit error :=
  match peerLeaf ctx with
  | None => Err (E CatPermission TypePeerCertRequired
                   (Some (Text "forward plane requires a verified peer certificate")))
  | Some cert =>
      if match ag_peerCA g with Some chains => negb (chains cert) | None => false end then
        Err (E CatPermission TypePeerCertUntrusted
               (Some (Text "forward plane peer certificate is not issued by the peer CA")))
      else if bool_decide (ag_peerCNs g ≠ ∅) && negb (bool_decide (CommonName cert ∈ ag_peerCNs g)) then
        Err (E CatPermission TypePeerCertNotAllowed
               (Some (Text "forward plane peer certificate Common Name is not an allowed node")))
      else Ok tt
  end.

Definition check (g : authGate) (ctx : Context) (fullMethod : string) : result Context error :=
  match classify fullMethod with
  | classOpen => Ok ctx
  | classPeer =>
      if ag_guardPeer g then
        match verifyPeer g ctx with
        | Err e => Err e
        | Ok _ => Ok ctx
        end
      else Ok ctx
  | classClient =>
      if enabled (ag_bearer g) then
        match authenticate (ag_bearer g) ctx with
        | Err e => Err e
        | Ok authed => reconcileUser authed
        end
      else reconcileUser ctx
  end.

(** The interceptors hand the checked context to the handler. *)
Definition unary {Req R} (g : authGate) (handler : Context → Req → R * option error) (noResponse : R)
    (ctx : Context) (req : Req) (fullMethod : string) : R * option error :=
  match check g ctx fullMethod with
  | Err e => (noResponse, Some e)
  | Ok ctx' => handler ctx' req
  end.
Definition stream (g : authGate) (handler : Context → option error) (ctx : Context) (fullMethod : string) :
    option error :=
  match check g ctx fullMethod with
  | Err e => Some e
  | Ok ctx' => handler ctx'
  end.
End gate.

(** *** Per-identity limits

    A token bucket is an argument: its state, a fresh bucket for the configured
    rate and burst, and [Allow] at a time. *)
Section limiters.
Context {Limiter : Type} (NewLimiter : Limiter) (Allow : Z → Limiter → Limiter * bool).

Definition maxIdentityLimiters : Z := 10000.

Definition limiterKey (identity : string) : string :=
  if bool_decide (identity = "") then "anonymous" else identity.

(** [allow]: the map after charging one request at time [now], and the verdict. *)
Definition allow (m : gmap string Limiter) (now : Z) (identity : string) : gmap string Limiter * bool :=
  let id := limiterKey identity in
  let m1 := if maxIdentityLimiters <=? Z.of_nat (size m) then ∅ else m in
  let lim := default NewLimiter (m1 !! id) in
  let '(lim', ok) := Allow now lim in
  (<[id := lim']> m1, ok).

(** A sequence of requests. *)
Definition allows (m : gmap string Limiter) (reqs : list (Z * string)) : gmap string Limiter :=
  foldl (λ m r, (allow m r.1 r.2).1) m reqs.

Lemma allow_size m now who :
  Z.of_nat (size m) ≤ maxIdentityLimiters → Z.of_nat (size (allow m now who).1) ≤ maxIdentityLimiters.
Proof.
  intros Hm. rewrite /allow. destruct (Allow _ _) as [lim ok]. cbn [fst].
  destruct (Z.leb_spec maxIdentityLimiters (Z.of_nat (size m))) as [Hge|Hlt]; rewrite map_size_insert.
  - rewrite lookup_empty map_size_empty /maxIdentityLimiters. lia.
  - case_match; unfold id; rewrite /maxIdentityLimiters in Hm, Hlt |- *; lia.
Qed.

(** limiter memory is bounded and buckets are separate.  However many
    identities call, the map never holds more than its cap; and below the cap a
    request charges only the bucket of its own identity. *)
Theorem limiters_bounded_separate reqs now id other :
  Z.of_nat (size (allows ∅ reqs)) ≤ maxIdentityLimiters ∧
  (Z.of_nat (size (allows ∅ reqs)) < maxIdentityLimiters → limiterKey other ≠ limiterKey id →
   (allow (allows ∅ reqs) now id).1 !! limiterKey other = allows ∅ reqs !! limiterKey other).
Proof.
  split.
  - rewrite /allows. apply (foldl_invariant (λ m : gmap string Limiter, Z.of_nat (size m) ≤ maxIdentityLimiters)).
    + by rewrite map_size_empty.
    + intros m r _ Hm. by apply allow_size.
  - intros Hlt Hne. rewrite /allow. destruct (Allow _ _) as [lim ok]. cbn [fst].
    destruct (Z.leb_spec maxIdentityLimiters (Z.of_nat (size (allows ∅ reqs)))); [lia|].
    by rewrite lookup_insert_ne.
Qed.
End limiters.

(** ** Theorems *)
Section sound.
Context (Sum256 : string → string).

(** *** Who a caller is

    Read off the request and the configuration, without hashes: the token the caller
    presents, the identity it belongs to, and the name the caller goes by, which is the
    token's, or the certificate's when the token names nobody. *)
Definition presented (ctx : Context) : option string :=
  md ← ctx_md ctx; v ← head (mdGet md "authorization"); Some (stripBearer (TrimSpace v)).
Definition ownerOf (tokens : gmap string string) (oidc : option (string → result string unit)) (token : string) : option string :=
  match tokens !! token, oidc with
  | Some who, _ => Some who
  | None, Some verify => match verify token with Ok who => Some who | Err _ => None end
  | None, None => None
  end.
Definition principal (ctx : Context) (who : string) : string := if bool_decide (who = "") then (certIdentity ctx).1 else who.
Definition bearerOn (tokens : gmap string string) (oidc : option (string → result string unit)) : bool :=
  bool_decide (tokens ≠ ∅) || bool_decide (is_Some oidc).
(** The authenticated name, when the call has the credentials it needs: with no bearer
    authentication configured, the one the connection brought. *)
Definition authenticated tokens oidc (ctx : Context) : option string :=
  if bearerOn tokens oidc then principal ctx <$> (token ← presented ctx; ownerOf tokens oidc token)
  else Some (IdentityFromContext ctx).1.

(** SHA-256 keeps the configured tokens apart from everything else. *)
Definition collisionFree (tokens : gmap string string) : Prop :=
  ∀ t t', is_Some (tokens !! t) → Sum256 t' = Sum256 t → t' = t.

Lemma hashed_lookup (tokens : gmap string string) (order : list (string * string)) (h : gmap string string) t :
  (∀ x, x ∈ order → is_Some (tokens !! x.1)) → NoDup order.*1 → collisionFree tokens →
  foldl (λ (h : gmap string string) ti, <[Sum256 ti.1 := ti.2]> h) h order !! Sum256 t =
    match list_to_map (M := gmap string string) order !! t with Some who => Some who | None => h !! Sum256 t end.
Proof.
  intros Hin Hnd Hcf. revert h Hin Hnd. induction order as [|[u who] order IH]; intros h Hin Hnd; [by rewrite lookup_empty|].
  apply NoDup_cons in Hnd as [Hu Hnd]. cbn [foldl fst snd list_to_map]. rewrite IH; [intros x Hx; apply Hin; by right|done|].
  assert (is_Some (tokens !! u)) as Ht by exact (Hin (u, who) (list_elem_of_here _ _)). destruct (decide (t = u)) as [->|Hne].
  - by rewrite lookup_insert_eq (proj1 (not_elem_of_list_to_map (M := gmap string) order u) Hu) lookup_insert_eq.
  - rewrite (lookup_insert_ne _ u) //. rewrite lookup_insert_ne //. intros He. apply Hne. exact (Hcf u t Ht (eq_sym He)).
Qed.
Lemma hashTokens_lookup tokens t : collisionFree tokens → hashTokens Sum256 tokens !! Sum256 t = tokens !! t.
Proof.
  intros Hcf. rewrite /hashTokens /hashTokensInOrder (hashed_lookup tokens).
  - intros [u who] Hx%elem_of_map_to_list. by exists who.
  - apply NoDup_fst_map_to_list.
  - done.
  - rewrite list_to_map_to_list. by destruct (tokens !! t).
Qed.
Lemma hashTokens_enabled tokens oidc : collisionFree tokens →
  enabled {| ba_tokens := hashTokens Sum256 tokens; ba_oidc := oidc |} = bearerOn tokens oidc.
Proof.
  intros Hcf. rewrite /enabled /bearerOn /=. f_equal. apply bool_decide_ext. apply not_iff_compat. split.
  - intros He. apply map_empty. intros t. by rewrite -hashTokens_lookup // He.
  - intros ->. done.
Qed.

Lemma authenticate_owner tokens oidc ctx : collisionFree tokens →
  match token ← presented ctx; ownerOf tokens oidc token with
  | Some who => authenticate Sum256 {| ba_tokens := hashTokens Sum256 tokens; ba_oidc := oidc |} ctx = Ok (WithIdentity ctx who)
  | None => ∃ e, authenticate Sum256 {| ba_tokens := hashTokens Sum256 tokens; ba_oidc := oidc |} ctx = Err e ∧ statusCode (Some e) = codes.Unauthenticated
  end.
Proof.
  intros Hcf. rewrite /presented /authenticate. destruct (ctx_md ctx) as [md|]; [|by eexists]. cbn [mbind option_bind].
  destruct (mdGet md "authorization") as [|v vs]; [by eexists|]. cbn [head mbind option_bind ba_tokens ba_oidc]. rewrite hashTokens_lookup // /ownerOf.
  destruct (tokens !! _) as [who|]; [done|]. destruct oidc as [verify|]; [|by eexists]. by destruct (verify _) as [who|]; [|eexists].
Qed.

(** The user header against the name: it may repeat the name, or give one to a caller
    without any. *)
Lemma reconcileUser_spec ctx :
  let name := (IdentityFromContext ctx).1 in let user := firstMetadata ctx UserHeader in
  if bool_decide (name = "" ∨ user = "" ∨ user = name) then
    ∃ ctx', reconcileUser ctx = Ok ctx' ∧ ctx_md ctx' = ctx_md ctx ∧ ctx_peer ctx' = ctx_peer ctx ∧
      (IdentityFromContext ctx').1 = if bool_decide (name = "") then user else name
  else ∃ e, reconcileUser ctx = Err e ∧ statusCode (Some e) = codes.PermissionDenied.
Proof.
  cbv zeta. rewrite /reconcileUser. destruct (IdentityFromContext ctx) as [name ok] eqn:E. cbn [fst].
  destruct (decide (name = "")) as [->|Hn].
  { rewrite bool_decide_eq_true_2; [by auto|]. rewrite (bool_decide_eq_false_2 ("" ≠ "")) ?andb_false_r; [by intros []|].
    case_bool_decide as Hu; eexists; (split_and!; [done..|]); [by rewrite /IdentityFromContext /= bool_decide_eq_true_2|].
    rewrite E /=. symmetry. destruct (decide (firstMetadata ctx UserHeader = "")) as [->|]; done. }
  assert (ok = true) as ->.
  { revert E. rewrite /IdentityFromContext /certIdentity. by repeat case_match; intros; simplify_eq. }
  rewrite (bool_decide_eq_true_2 (name ≠ "")) // (bool_decide_eq_false_2 (name = "")) //. cbn [andb].
  destruct (decide (firstMetadata ctx UserHeader = "" ∨ firstMetadata ctx UserHeader = name)) as [Hu|Hu].
  - rewrite bool_decide_eq_true_2; [by right|]. assert (bool_decide (firstMetadata ctx UserHeader ≠ "") && bool_decide (firstMetadata ctx UserHeader ≠ name) = false) as ->.
    { apply andb_false_iff. rewrite !bool_decide_eq_false. destruct Hu; [left|right]; by intros []. }
    exists ctx. by rewrite E.
  - rewrite bool_decide_eq_false_2; [by intros [|]|]. rewrite !bool_decide_eq_true_2; [by auto..|]. by eexists.
Qed.

(** C25: the gate tells callers apart.  On a client method, for a gate configured with a table
    of tokens and perhaps an OIDC verifier, and hashes that do not collide with a configured
    token: when bearer authentication is on, a call without a token, or with one that belongs to
    nobody, is refused as unauthenticated; otherwise its name is that of the identity to which the
    very token it presents belongs (the certificate's, when that identity is empty).  With no
    bearer authentication, its name is the one the connection brought, and may be empty.  A call
    is then refused, as not permitted, exactly when it has a name and sends a different one in the
    user header, and the handlers of every other call see its name, or, when it has none, what it
    wrote in the user header, and otherwise the request as it came. *)
Theorem gate_identity tokens oidc g ctx m :
  collisionFree tokens → ag_bearer g = {| ba_tokens := hashTokens Sum256 tokens; ba_oidc := oidc |} → classify m = classClient →
  let user := firstMetadata ctx UserHeader in
  match authenticated tokens oidc ctx with
  | None => ∃ e, check Sum256 g ctx m = Err e ∧ statusCode (Some e) = codes.Unauthenticated
  | Some name =>
      if bool_decide (name = "" ∨ user = "" ∨ user = name) then
        ∃ ctx', check Sum256 g ctx m = Ok ctx' ∧ ctx_md ctx' = ctx_md ctx ∧ ctx_peer ctx' = ctx_peer ctx ∧
          (IdentityFromContext ctx').1 = if bool_decide (name = "") then user else name
      else ∃ e, check Sum256 g ctx m = Err e ∧ statusCode (Some e) = codes.PermissionDenied
  end.
Proof.
  intros Hcf Hg Hm. cbv zeta. rewrite /check Hm Hg hashTokens_enabled // /authenticated. destruct (bearerOn tokens oidc); [|apply reconcileUser_spec].
  pose proof (authenticate_owner tokens oidc ctx Hcf) as Ha. destruct (token ← presented ctx; ownerOf tokens oidc token) as [who|]; cbn [fmap option_fmap option_map].
  - rewrite Ha. assert (principal ctx who = (IdentityFromContext (WithIdentity ctx who)).1) as ->; [|exact (reconcileUser_spec (WithIdentity ctx who))].
    rewrite /principal /IdentityFromContext /=. by destruct (decide (who = "")) as [->|]; [|rewrite bool_decide_eq_false_2 // bool_decide_eq_true_2].
  - destruct Ha as (e & -> & He). by exists e.
Qed.

(** The forward plane is for nodes.  With the peer guard on, a call to the
    forward service passes only with a leaf certificate that chains to the peer
    CA, when one is set, and whose Common Name is pinned, when names are. *)
Theorem forward_plane_guarded g ctx m ctx' :
  classify m = classPeer → ag_guardPeer g = true → check Sum256 g ctx m = Ok ctx' →
  ctx' = ctx ∧ ∃ cert, peerLeaf ctx = Some cert ∧
    (∀ chains, ag_peerCA g = Some chains → chains cert = true) ∧
    (ag_peerCNs g ≠ ∅ → CommonName cert ∈ ag_peerCNs g).
Proof.
  intros Hm Hg. rewrite /check Hm Hg /verifyPeer. destruct (peerLeaf ctx) as [cert|]; [|done].
  destruct (match ag_peerCA g with Some _ => _ | None => _ end) eqn:Hca; [done|].
  destruct (bool_decide (ag_peerCNs g ≠ ∅) && _) eqn:Hcn; [done|]. intros [= <-].
  split; [done|]. exists cert. split; [done|]. split.
  - intros chains Hc. rewrite Hc in Hca. by apply negb_false_iff in Hca.
  - intros Hne. rewrite bool_decide_eq_true_2 //= in Hcn.
    apply negb_false_iff in Hcn. by apply bool_decide_eq_true in Hcn.
Qed.
End sound.

(** A deployment for the instances: one static token, node certificates pinned
    to one name. *)
Definition demoGate : authGate :=
  {| ag_bearer := {| ba_tokens := {["s3cr3t" := "alice"]}; ba_oidc := None |}; ag_guardPeer := true;
     ag_peerCA := Some (λ c, cert_id c =? 1); ag_peerCNs := {["node"]} |}.
Definition demoCall : Context :=
  {| ctx_md := Some {["authorization" := ["BEARER s3cr3t"]; "zuul-user" := ["alice"]]};
     ctx_identity := None; ctx_peer := Some None |}.
Definition demoPeer : Context :=
  {| ctx_md := None; ctx_identity := None; ctx_peer := Some (Some [{| CommonName := "node"; cert_id := 1 |}]) |}.

Lemma gate_identity_witness :
  ∃ ctx', check (λ s, s) demoGate demoCall "/zuul.v1.Lock/Acquire" = Ok ctx' ∧ (IdentityFromContext ctx').1 = "alice".
Proof.
  destruct (gate_identity (λ s, s) {["s3cr3t" := "alice"]} None demoGate demoCall "/zuul.v1.Lock/Acquire") as (ctx' & H1 & _ & _ & H2);
    [by intros t t' _ ->|by vm_compute|by vm_compute|].
  exists ctx'. split; [exact H1|exact H2].
Defined.

Lemma forward_plane_guarded_witness : ∃ cert, peerLeaf demoPeer = Some cert ∧ CommonName cert ∈@{gset string} {["node"]}.
Proof.
  edestruct (forward_plane_guarded (λ s, s) demoGate demoPeer "/zuul.forward.Forwarder/Propose")
    as (_ & cert & H & _ & Hcn); [by vm_compute|by vm_compute|by vm_compute|].
  exists cert. split; [exact H|]. apply Hcn. by vm_compute.
Defined.

Lemma limiters_bounded_separate_witness :
  (allow 3 (λ _ l, (l - 1, 0 <? l)) (allows 3 (λ _ l, (l - 1, 0 <? l)) ∅ [(0, "a"); (1, "b")]) 2 "a").1 !! "b" = Some 2.
Proof.
  destruct (limiters_bounded_separate 3 (λ _ l, (l - 1, 0 <? l)) [(0, "a"); (1, "b")] 2 "a" "b") as [_ H].
  change "b" with (limiterKey "b") at 2. rewrite H; [by vm_compute|done|]. by vm_compute.
Defined.
