(* ===== verification/Meta.v ===== *)
(** * The meta shard: cluster topology

    internal/raft/meta/store.go (a replicated map from replica id to addresses),
    its wire format (metapb), the resolvers over it
    (consensus/resolver.go, cluster/topology) and the command constructors'
    counterpart for members.  Replica ids are [uint64]. *)
From S2P Require Import Prelude GoStrings Wire.
From Stdlib Require Import Ascii.

Local Open Scope Z_scope.

Record Member := {
  mb_ReplicaId : Z;
  mb_RaftAddress : string;
  mb_ZuulGrpcAddress : string;
  mb_NodeHostId : string
}.

Record Store := { members : gmap Z Member; st_revision : Z }.

Definition NewStore : Store := {| members := ∅; st_revision := 0 |}.

Inductive MetaCmd := Put (m : Member) | Delete (id : Z).
Record MetaCommand := { GetMetaCmd : option MetaCmd }.

Inductive MetaError := NilMetaCommand | UnknownMetaCommand | UnknownMetaQuery.

Definition cloneMember (m : Member) : Member :=
  {| mb_ReplicaId := mb_ReplicaId m; mb_RaftAddress := mb_RaftAddress m;
     mb_ZuulGrpcAddress := mb_ZuulGrpcAddress m; mb_NodeHostId := mb_NodeHostId m |}.

(** [Apply]: the new store and the revision of the result. *)
Definition ApplyMeta (s : Store) (c : option MetaCommand) : Store * result Z MetaError :=
  match c with
  | None => (s, Err NilMetaCommand)
  | Some c =>
      let rev := u64 (st_revision s + 1) in
      match GetMetaCmd c with
      | Some (Put m) => ({| members := <[mb_ReplicaId m := cloneMember m]> (members s); st_revision := rev |}, Ok rev)
      | Some (Delete id) => ({| members := delete id (members s); st_revision := rev |}, Ok rev)
      | None => ({| members := members s; st_revision := rev |}, Err UnknownMetaCommand)
      end
  end.

(** [list]: the ids sorted, then the members in that order. *)
Definition sortedIds (s : Store) : list Z := merge_sort Z.le (elements (dom (members s))).
Definition list_ (s : Store) : list Member := omap (λ id, cloneMember <$> members s !! id) (sortedIds s).

Inductive MetaQuery := MemberQuery (ReplicaID : Z) | ListQuery | OtherMetaQuery.
Inductive MetaAnswer := AMember (m : option Member) | AMembers (ms : list Member).

Definition QueryMeta (s : Store) (q : MetaQuery) : result MetaAnswer MetaError :=
  match q with
  | MemberQuery id =>
      match members s !! id with
      | None => Ok (AMember None)
      | Some m => Ok (AMember (Some (cloneMember m)))
      end
  | ListQuery => Ok (AMembers (list_ s))
  | OtherMetaQuery => Err UnknownMetaQuery
  end.

Record MetaSnapshot := { ms_Revision : Z; ms_Members : list Member }.

Definition SnapshotMeta (s : Store) : MetaSnapshot :=
  {| ms_Revision := st_revision s; ms_Members := list_ s |}.

Definition RestoreMeta (snap : MetaSnapshot) : Store :=
  {| members := foldl (λ ms m, <[mb_ReplicaId m := cloneMember m]> ms) ∅ (ms_Members snap);
     st_revision := ms_Revision snap |}.

(** ** Wire format (meta_vtproto.pb.go) *)
Definition member0 : Member :=
  {| mb_ReplicaId := 0; mb_RaftAddress := ""; mb_ZuulGrpcAddress := ""; mb_NodeHostId := "" |}.
Definition schemaMember : schema Member := fields
  [u64f (λ m v, Build_Member v (mb_RaftAddress m) (mb_ZuulGrpcAddress m) (mb_NodeHostId m));
   str (λ m v, Build_Member (mb_ReplicaId m) v (mb_ZuulGrpcAddress m) (mb_NodeHostId m));
   str (λ m v, Build_Member (mb_ReplicaId m) (mb_RaftAddress m) v (mb_NodeHostId m));
   str (λ m v, Build_Member (mb_ReplicaId m) (mb_RaftAddress m) (mb_ZuulGrpcAddress m) v)].
Definition emitMember (m : Member) : list (Z * wval) :=
  emitU64 1 (mb_ReplicaId m) ++ emitString 2 (mb_RaftAddress m) ++ emitString 3 (mb_ZuulGrpcAddress m) ++
  emitString 4 (mb_NodeHostId m) ++ [].

(** The oneof writes its scalar variant also when it is zero. *)
Definition schemaMetaCommand : schema MetaCommand := fields
  [FBytes (λ m b,
     let old := match GetMetaCmd m with Some (Put p) => p | _ => member0 end in
     match unmarshal schemaMember old b with
     | Ok p => Ok {| GetMetaCmd := Some (Put p) |}
     | Err e => Err e
     end);
   FVarint (λ _ v, {| GetMetaCmd := Some (Delete v) |})].
Definition emitMetaCommand (c : MetaCommand) : list (Z * wval) :=
  match GetMetaCmd c with
  | Some (Put m) => emitMessage 1 (marshal (emitMember m)) ++ []
  | Some (Delete id) => [(2, WVarint id)]
  | None => []
  end.
Definition MarshalMetaCommand (c : MetaCommand) : list ascii := marshal (emitMetaCommand c).
Definition UnmarshalMetaCommand (l : list ascii) : result MetaCommand WireError :=
  unmarshal schemaMetaCommand {| GetMetaCmd := None |} l.

Definition schemaMetaSnapshot : schema MetaSnapshot := fields
  [u64f (λ m v, Build_MetaSnapshot v (ms_Members m));
   msg schemaMember (λ _, member0) (λ m v, Build_MetaSnapshot (ms_Revision m) (ms_Members m ++ [v]))].
Definition emitMetaSnapshot (s : MetaSnapshot) : list (Z * wval) :=
  emitU64 1 (ms_Revision s) ++ emitRepeated 2 (λ m, marshal (emitMember m)) (ms_Members s) ++ [].
Definition MarshalMetaSnapshot (s : MetaSnapshot) : list ascii := marshal (emitMetaSnapshot s).
Definition UnmarshalMetaSnapshot (l : list ascii) : result MetaSnapshot WireError :=
  unmarshal schemaMetaSnapshot {| ms_Revision := 0; ms_Members := [] |} l.

(** ** Resolvers *)

(** cluster/topology: a resolver maps a replica id to an address. *)
Class Resolver (R : Type) := Addr : R → Z → option string.

Record Static := { addrs : gmap Z string }.
Definition NewStatic (a : gmap Z string) : option Static :=
  if bool_decide (a = ∅) then None else Some {| addrs := a |}.
#[export] Instance Static_resolver : Resolver Static := λ s id, addrs s !! id.

(** consensus/resolver.go: the meta shard first, then the bootstrap seed.
    [MetaMember] is the local read of the meta shard. *)
Record MetaResolver := { mr_MetaMember : Z → option Member; mr_seed : gmap Z string }.
Definition NewMetaResolver (MetaMember : Z → option Member) (seed : gmap Z string) : MetaResolver :=
  {| mr_MetaMember := MetaMember; mr_seed := seed |}.
#[export] Instance MetaResolver_resolver : Resolver MetaResolver := λ r id,
  match mr_MetaMember r id with
  | Some m => if bool_decide (mb_ZuulGrpcAddress m ≠ "") then Some (mb_ZuulGrpcAddress m) else mr_seed r !! id
  | None => mr_seed r !! id
  end.

(** ** What the meta shard means

    [wf]: every member is stored under its own replica id. *)
Definition meta_wf (s : Store) : Prop := ∀ id m, members s !! id = Some m → mb_ReplicaId m = id.

(** The member of [id] after a log: the last command about [id] decides. *)
Definition about (id : Z) (c : MetaCmd) : bool :=
  match c with Put m => bool_decide (mb_ReplicaId m = id) | Delete i => bool_decide (i = id) end.
Definition last_word (id : Z) (l : list MetaCmd) : option (option Member) :=
  (λ c, match c with Put m => Some m | Delete _ => None end) <$> last (filter (λ c, about id c = true) l).

Definition runMeta (s : Store) (l : list MetaCmd) : Store :=
  foldl (λ s c, (ApplyMeta s (Some {| GetMetaCmd := Some c |})).1) s l.

Lemma cloneMember_id m : cloneMember m = m.
Proof. by destruct m. Qed.

Lemma runMeta_snoc s l c :
  runMeta s (l ++ [c]) = (ApplyMeta (runMeta s l) (Some {| GetMetaCmd := Some c |})).1.
Proof. by rewrite /runMeta foldl_app. Qed.

Lemma ApplyMeta_wf s c : meta_wf s → meta_wf (ApplyMeta s c).1.
Proof.
  intros Hwf. destruct c as [[[[m|id]|]]|]; cbn; try done; intros i x; cbn.
  - rewrite cloneMember_id lookup_insert. case_decide; naive_solver.
  - rewrite lookup_delete. case_decide; naive_solver.
Qed.

Lemma runMeta_wf s l : meta_wf s → meta_wf (runMeta s l).
Proof. intros Hwf. rewrite /runMeta. apply foldl_invariant; [done|]. intros; by apply ApplyMeta_wf. Qed.

Lemma runMeta_lookup s l id :
  members (runMeta s l) !! id = default (members s !! id) (last_word id l).
Proof.
  induction l as [|c l IH] using rev_ind; [done|]. rewrite runMeta_snoc /last_word filter_app.
  destruct c as [m|i]; cbn [ApplyMeta GetMetaCmd fst members].
  - rewrite lookup_insert filter_cons filter_nil /=. case_decide as He.
    + rewrite decide_True ?last_snoc /= ?cloneMember_id //. by apply bool_decide_eq_true.
    + rewrite decide_False ?app_nil_r //. by rewrite bool_decide_eq_true.
  - rewrite lookup_delete filter_cons filter_nil /=. case_decide as He.
    + rewrite decide_True ?last_snoc //. by apply bool_decide_eq_true.
    + rewrite decide_False ?app_nil_r //. by rewrite bool_decide_eq_true.
Qed.

Lemma runMeta_revision s l :
  in_u64 (st_revision s) → st_revision (runMeta s l) = u64 (st_revision s + Z.of_nat (length l)).
Proof.
  intros Hs. induction l as [|c l IH] using rev_ind.
  - rewrite Z.add_0_r /u64. symmetry. by apply Z.mod_small.
  - rewrite runMeta_snoc length_app. transitivity (u64 (st_revision (runMeta s l) + 1)); [by destruct c|].
    rewrite IH /u64 Zplus_mod_idemp_l. f_equal. cbn. lia.
Qed.

(** ** Listing and restoring *)
Lemma elem_of_sortedIds s id : id ∈ sortedIds s ↔ is_Some (members s !! id).
Proof. by rewrite /sortedIds merge_sort_Permutation elem_of_elements elem_of_dom. Qed.

Lemma NoDup_sortedIds s : NoDup (sortedIds s).
Proof. rewrite /sortedIds merge_sort_Permutation. apply NoDup_elements. Qed.

Lemma sortedIds_sorted s : StronglySorted Z.lt (sortedIds s).
Proof.
  pose proof (NoDup_sortedIds s) as Hnd. pose proof (StronglySorted_merge_sort Z.le (elements (dom (members s)))) as Hs.
  rewrite -/(sortedIds s) in Hs. induction Hs as [|x l Hs IH Hall]; [constructor|].
  apply NoDup_cons in Hnd as [Hx Hnd]. constructor; [by apply IH|].
  apply Forall_forall. intros y Hy. eapply Forall_forall in Hall; [|done].
  assert (x ≠ y) by (intros ->; done). lia.
Qed.

Lemma list_ids s : meta_wf s → mb_ReplicaId <$> list_ s = sortedIds s.
Proof.
  intros Hwf. rewrite /list_. assert (∀ id, id ∈ sortedIds s → is_Some (members s !! id)) as Hin
    by (intros; by apply elem_of_sortedIds).
  induction (sortedIds s) as [|id l IH]; [done|]. destruct (Hin id) as [m Hm]; [by left|].
  rewrite /= Hm /= (Hwf _ _ Hm).
  f_equal. apply IH. by intros; apply Hin; right.
Qed.

Lemma elem_of_list s m : meta_wf s → m ∈ list_ s ↔ members s !! mb_ReplicaId m = Some m.
Proof.
  intros Hwf. rewrite /list_ list_elem_of_omap. split.
  - intros (id & Hid & (m' & Hm & ->)%fmap_Some). rewrite cloneMember_id. by rewrite (Hwf _ _ Hm).
  - intros Hm. exists (mb_ReplicaId m). rewrite elem_of_sortedIds Hm /= cloneMember_id. eauto.
Qed.

(** Storing a list of members with distinct ids stores each of them, and nothing
    else that was not there. *)
Lemma put_all_lookup l (ms : gmap Z Member) id :
  NoDup (mb_ReplicaId <$> l) →
  foldl (λ ms m, <[mb_ReplicaId m := cloneMember m]> ms) ms l !! id =
  match list_find (λ m, mb_ReplicaId m = id) l with Some (_, m) => Some m | None => ms !! id end.
Proof.
  revert ms. induction l as [|m l IH]; intros ms Hnd; [done|]. cbn [foldl].
  apply NoDup_cons in Hnd as [Hm Hnd]. rewrite IH // cloneMember_id. cbn [list_find]. case_decide as He.
  - destruct (list_find _ l) as [[i x]|] eqn:Ef.
    + exfalso. apply Hm. apply list_find_Some in Ef as (Hx & Hid & _). apply list_elem_of_fmap. exists x.
      split; [congruence|]. by eapply list_elem_of_lookup_2.
    + subst. by rewrite lookup_insert_eq.
  - destruct (list_find _ l) as [[i x]|] eqn:Ef; [done|]. by rewrite lookup_insert_ne.
Qed.

Lemma RestoreMeta_Snapshot s : meta_wf s → RestoreMeta (SnapshotMeta s) = s.
Proof.
  intros Hwf. destruct s as [ms rev]. rewrite /RestoreMeta /SnapshotMeta. cbn [ms_Revision ms_Members st_revision]. f_equal.
  apply map_eq. intros id. rewrite put_all_lookup; [rewrite list_ids //; apply NoDup_sortedIds|].
  destruct (list_find _ _) as [[i m]|] eqn:Ef.
  - apply list_find_Some in Ef as (Hm & Hid & _). apply list_elem_of_lookup_2 in Hm.
    apply elem_of_list in Hm; [|done]. cbn in Hm. by rewrite Hid in Hm.
  - rewrite lookup_empty. destruct (ms !! id) as [m|] eqn:Em; [|done]. exfalso.
    apply list_find_None in Ef. pose proof (Hwf _ _ Em) as Hid.
    eapply Forall_forall in Ef; [by apply Ef, Hid|]. apply elem_of_list; [done|]. by rewrite Hid.
Qed.

(** ** Wire round trips *)
Definition member_fits (m : Member) : Prop := in_u64 (mb_ReplicaId m).
Definition metacmd_fits (c : MetaCmd) : Prop :=
  match c with Put m => member_fits m | Delete id => in_u64 id end.
Definition meta_fits (s : MetaSnapshot) : Prop := in_u64 (ms_Revision s) ∧ Forall member_fits (ms_Members s).

Lemma Member_round_trip m :
  member_fits m → small (marshal (emitMember m)) →
  unmarshal schemaMember member0 (marshal (emitMember m)) = Ok m.
Proof.
  rewrite /member_fits. destruct m as [i r g h]. rewrite /emitMember /member0 /=. intros Hi Hl. round_trip.
Qed.

Lemma MetaCommand_round_trip c :
  metacmd_fits c → small (MarshalMetaCommand {| GetMetaCmd := Some c |}) →
  UnmarshalMetaCommand (MarshalMetaCommand {| GetMetaCmd := Some c |}) = Ok {| GetMetaCmd := Some c |}.
Proof.
  rewrite /UnmarshalMetaCommand /MarshalMetaCommand /emitMetaCommand. cbn [GetMetaCmd].
  destruct c as [m|id]; cbn [metacmd_fits]; intros Hf Hl.
  - pose proof (small_nested _ _ Hl) as Hn. rewrite unmarshal_marshal_fits //.
    + apply Forall_app. split; [|constructor]. by eapply fits_message.
    + erewrite read_message; [|reflexivity|]; [done|]. cbn. by rewrite Member_round_trip.
  - rewrite unmarshal_marshal_fits //. constructor; [|constructor]. done.
Qed.

Lemma MetaSnapshot_round_trip s :
  meta_fits s → small (MarshalMetaSnapshot s) → UnmarshalMetaSnapshot (MarshalMetaSnapshot s) = Ok s.
Proof.
  rewrite /UnmarshalMetaSnapshot /MarshalMetaSnapshot. intros [Hr Hm] Hl.
  rewrite unmarshal_marshal_fits //; rewrite /emitMetaSnapshot in Hl |- *; [fits_fields|].
  read_fields. etransitivity; [eapply read_repeated; [reflexivity|]|reflexivity].
  rewrite (read_elements _ _ id (λ q, Build_MetaSnapshot (ms_Revision s) q) []).
  - intros vs m Hin. simpl. rewrite Member_round_trip //; [by eapply Forall_forall in Hm|].
    eapply (small_elem 2); [exact Hl|]. rewrite !elem_of_app !list_elem_of_fmap. eauto 10.
  - rewrite list_fmap_id. by destruct s.
Qed.

(** ** Properties *)

(** The topology is the last word of every member.  After any log on a new
    store, a member query answers the last [Put] of that replica unless a later
    [Delete] removed it; the listing is strictly sorted by replica id and holds
    exactly those members; the revision counts the commands; a snapshot restores
    the store; and the resolver gives a member's own address when it published
    one and the bootstrap address otherwise. *)
Theorem topology_last_write l seed :
  let s := runMeta NewStore l in
  let lookup id := default None (last_word id l) in
  (∀ id, QueryMeta s (MemberQuery id) = Ok (AMember (lookup id))) ∧
  QueryMeta s ListQuery = Ok (AMembers (list_ s)) ∧
  (∀ m, m ∈ list_ s ↔ lookup (mb_ReplicaId m) = Some m) ∧
  StronglySorted Z.lt (mb_ReplicaId <$> list_ s) ∧
  st_revision s = u64 (Z.of_nat (length l)) ∧
  RestoreMeta (SnapshotMeta s) = s ∧
  (∀ id, Addr (NewMetaResolver lookup seed) id =
     match lookup id with
     | Some m => if bool_decide (mb_ZuulGrpcAddress m = "") then seed !! id else Some (mb_ZuulGrpcAddress m)
     | None => seed !! id
     end).
Proof.
  intros s lookup.
  assert (meta_wf s) as Hwf by by apply runMeta_wf.
  assert (∀ id, members s !! id = lookup id) as Hl by by (intros; rewrite runMeta_lookup).
  split_and!.
  - intros id. rewrite /= Hl. destruct (lookup id) as [m|]; [by rewrite cloneMember_id|done].
  - done.
  - intros m. by rewrite elem_of_list // Hl.
  - rewrite list_ids //. apply sortedIds_sorted.
  - by apply runMeta_revision.
  - by apply RestoreMeta_Snapshot.
  - intros id. rewrite /Addr /MetaResolver_resolver /=. destruct (lookup id) as [m|]; [|done]. by repeat case_bool_decide.
Qed.
