(* ===== verification/Fsm.v ===== *)
(** * The shard state machine: [internal/raft/fsm]

    Data, commands and operations of one shard's replicated state machine:
    locks and elections with FIFO wait queues, client leases with their
    held/waiting indexes, fencing tokens, ownership-change events, queries and
    snapshots.  [Apply] is the dispatcher of [fsm.go]; the operations are those
    of [locks.go] and [leases.go].

    Go keeps [*lock] and [*lease] pointers in maps and mutates through them.
    Here a mutation through a pointer is a store under the key the pointer is
    filed at.  A [[]byte] is [option string], with [None] for [nil].  The
    notifier is the log of the events it has been sent, or [None] when it is
    [nil]. *)
From S2P Require Import Prelude GoStrings Keypath.

Local Open Scope Z_scope.

(** ** Data *)
Abbreviation gobytes := (option string).

Record Event := {
  ev_Key : string;
  ev_Holder : string;
  ev_Token : Z;
  ev_Value : gobytes;
  ev_Revision : Z
}.

Record waiter := {
  w_clientID : string;
  w_seq : Z;
  w_value : gobytes
}.

Record lock := {
  lk_name : string;
  lk_holder : string;
  lk_token : Z;
  lk_value : gobytes;
  lk_queue : list waiter
}.

Record lease := {
  ls_clientID : string;
  ls_ttlMS : Z;
  ls_expireAt : Z;
  ls_held : gset string;
  ls_waiting : gset string
}.

Record FSM := {
  locks : gmap string lock;
  leases : gmap string lease;
  seq : Z;
  revision : Z;
  notifier : option (list Event)
}.

#[export] Instance Event_eq_dec : EqDecision Event.
Proof. solve_decision. Defined.
#[export] Instance waiter_eq_dec : EqDecision waiter.
Proof. solve_decision. Defined.
#[export] Instance lock_eq_dec : EqDecision lock.
Proof. solve_decision. Defined.

(** [New notifier]: an empty state machine. *)
Definition New (n : option (list Event)) : FSM :=
  {| locks := ∅; leases := ∅; seq := 0; revision := 0; notifier := n |}.

(** *** Commands and results (fsm.proto) *)
Inductive Cmd :=
| AcquireLock (name client_id : string) (try_lock : bool)
| ReleaseLock (name client_id : string) (fencing_token : Z)
| CancelWait (name client_id : string)
| LeaseGrant (client_id : string) (ttl_ms now_unix_nano : Z)
| LeaseKeepAlive (client_id : string) (now_unix_nano : Z)
| LeaseRevoke (client_id : string)
| LeaseExpire (client_id : string) (now_unix_nano : Z)
| Campaign (name client_id : string) (value : gobytes)
| Proclaim (name client_id : string) (fencing_token : Z) (value : gobytes)
| Resign (name client_id : string) (fencing_token : Z).

(** A [*fsmpb.Command]: [None] when the oneof is unset. *)
Record Command := { GetCmd : option Cmd }.

Inductive Outcome :=
| OUTCOME_UNKNOWN
| OUTCOME_GRANTED
| OUTCOME_QUEUED
| OUTCOME_NOT_ACQUIRED
| OUTCOME_RELEASED
| OUTCOME_NOT_HOLDER
| OUTCOME_STALE_TOKEN
| OUTCOME_NO_LEASE
| OUTCOME_LEASE_GRANTED
| OUTCOME_LEASE_RENEWED
| OUTCOME_LEASE_REVOKED
| OUTCOME_LEASE_EXPIRED
| OUTCOME_VALUE_UPDATED
| OUTCOME_NOT_FOUND
| OUTCOME_NOOP.

#[export] Instance Outcome_eq_dec : EqDecision Outcome.
Proof. solve_decision. Defined.

Record CommandResult := {
  r_Outcome : Outcome;
  r_Revision : Z;
  r_FencingToken : Z;
  r_LockKey : string;
  r_QueuePosition : Z;
  r_CurrentHolder : string;
  r_LeaseDeadline : Z;
  r_Value : gobytes
}.

Inductive ApplyError :=
| NilCommand
| UnknownCommand.

(** ** Stores through the map pointers *)
Definition set_locks (f : FSM) (m : gmap string lock) : FSM :=
  {| locks := m; leases := leases f; seq := seq f; revision := revision f; notifier := notifier f |}.
Definition set_leases (f : FSM) (m : gmap string lease) : FSM :=
  {| locks := locks f; leases := m; seq := seq f; revision := revision f; notifier := notifier f |}.
Definition put_lock (f : FSM) (name : string) (lk : lock) : FSM := set_locks f (<[name := lk]> (locks f)).
Definition put_lease (f : FSM) (id : string) (ls : lease) : FSM := set_leases f (<[id := ls]> (leases f)).

(** [f.seq++] and [f.revision++] on [uint64]. *)
Definition incr_seq (f : FSM) : FSM :=
  {| locks := locks f; leases := leases f; seq := u64 (seq f + 1); revision := revision f;
     notifier := notifier f |}.
Definition incr_revision (f : FSM) : FSM :=
  {| locks := locks f; leases := leases f; seq := seq f; revision := u64 (revision f + 1);
     notifier := notifier f |}.

Definition with_queue (lk : lock) (q : list waiter) : lock :=
  {| lk_name := lk_name lk; lk_holder := lk_holder lk; lk_token := lk_token lk;
     lk_value := lk_value lk; lk_queue := q |}.
Definition with_index (ls : lease) (held waiting : gset string) : lease :=
  {| ls_clientID := ls_clientID ls; ls_ttlMS := ls_ttlMS ls; ls_expireAt := ls_expireAt ls;
     ls_held := held; ls_waiting := waiting |}.

(** ** Results and events *)
Definition mkresult (f : FSM) (o : Outcome) : CommandResult :=
  {| r_Outcome := o; r_Revision := revision f; r_FencingToken := 0; r_LockKey := "";
     r_QueuePosition := 0; r_CurrentHolder := ""; r_LeaseDeadline := 0; r_Value := None |}.

Definition resultKey (f : FSM) (o : Outcome) (key : string) : CommandResult :=
  {| r_Outcome := o; r_Revision := revision f; r_FencingToken := 0; r_LockKey := key;
     r_QueuePosition := 0; r_CurrentHolder := ""; r_LeaseDeadline := 0; r_Value := None |}.

(** [r.FencingToken = token; r.Value = value] on a keyed result. *)
Definition resultToken (f : FSM) (o : Outcome) (key : string) (token : Z) (value : gobytes) : CommandResult :=
  {| r_Outcome := o; r_Revision := revision f; r_FencingToken := token; r_LockKey := key;
     r_QueuePosition := 0; r_CurrentHolder := ""; r_LeaseDeadline := 0; r_Value := value |}.

(** [r.QueuePosition = pos] on a keyed result. *)
Definition resultPosition (f : FSM) (o : Outcome) (key : string) (pos : Z) : CommandResult :=
  {| r_Outcome := o; r_Revision := revision f; r_FencingToken := 0; r_LockKey := key;
     r_QueuePosition := pos; r_CurrentHolder := ""; r_LeaseDeadline := 0; r_Value := None |}.

(** [r.CurrentHolder = holder] on a keyed result. *)
Definition resultHolder (f : FSM) (o : Outcome) (key holder : string) : CommandResult :=
  {| r_Outcome := o; r_Revision := revision f; r_FencingToken := 0; r_LockKey := key;
     r_QueuePosition := 0; r_CurrentHolder := holder; r_LeaseDeadline := 0; r_Value := None |}.

(** [r.LeaseDeadlineUnixNano = deadline] on an unkeyed result. *)
Definition resultDeadline (f : FSM) (o : Outcome) (deadline : Z) : CommandResult :=
  {| r_Outcome := o; r_Revision := revision f; r_FencingToken := 0; r_LockKey := "";
     r_QueuePosition := 0; r_CurrentHolder := ""; r_LeaseDeadline := deadline; r_Value := None |}.

Definition emit (f : FSM) (key holder : string) (token : Z) (value : gobytes) : FSM :=
  match notifier f with
  | None => f
  | Some log =>
      {| locks := locks f; leases := leases f; seq := seq f; revision := revision f;
         notifier := Some (log ++ [{| ev_Key := key; ev_Holder := holder; ev_Token := token;
                                      ev_Value := value; ev_Revision := revision f |}]) |}
  end.

(** [time.Millisecond] in nanoseconds; the product and the sum wrap at 64 bits. *)
Definition Millisecond : Z := 1000000.
Definition leaseDeadline (now ttlMS : Z) : Z := i64 (now + i64 (ttlMS * Millisecond)).

(** ** locks.go *)
Fixpoint queuePosFrom (i : Z) (q : list waiter) (clientID : string) : Z :=
  match q with
  | [] => 0
  | w :: q' => if bool_decide (w_clientID w = clientID) then u32 (i + 1) else queuePosFrom (i + 1) q' clientID
  end.

Definition queuePos (lk : lock) (clientID : string) : Z := queuePosFrom 0 (lk_queue lk) clientID.

Definition grant (f : FSM) (name : string) (ls : lease) (value : gobytes) : FSM * CommandResult :=
  let lk := match locks f !! name with
            | Some lk => lk
            | None => {| lk_name := name; lk_holder := ""; lk_token := 0; lk_value := None; lk_queue := [] |}
            end in
  let f1 := incr_seq f in
  let lk1 := {| lk_name := lk_name lk; lk_holder := ls_clientID ls; lk_token := seq f1;
                lk_value := value; lk_queue := lk_queue lk |} in
  let ls1 := with_index ls (ls_held ls ∪ {[name]}) (ls_waiting ls ∖ {[name]}) in
  let f2 := put_lease (put_lock f1 name lk1) (ls_clientID ls) ls1 in
  let f3 := emit f2 name (lk_holder lk1) (lk_token lk1) (lk_value lk1) in
  (f3, resultToken f3 OUTCOME_GRANTED name (lk_token lk1) (lk_value lk1)).

Definition acquire (f : FSM) (name clientID : string) (value : gobytes) (try : bool) : FSM * CommandResult :=
  match leases f !! clientID with
  | None => (f, resultKey f OUTCOME_NO_LEASE name)
  | Some ls =>
      match locks f !! name with
      | None => grant f name ls value
      | Some lk =>
          if bool_decide (lk_holder lk = "") then grant f name ls value
          else if bool_decide (lk_holder lk = clientID) then
            (f, resultToken f OUTCOME_GRANTED name (lk_token lk) (lk_value lk))
          else if try then
            (f, resultHolder f OUTCOME_NOT_ACQUIRED name (lk_holder lk))
          else if bool_decide (name ∈ ls_waiting ls) then
            (f, resultPosition f OUTCOME_QUEUED name (queuePos lk clientID))
          else
            let f1 := incr_seq f in
            let lk1 := with_queue lk
              (lk_queue lk ++ [{| w_clientID := clientID; w_seq := seq f1; w_value := value |}]) in
            let ls1 := with_index ls (ls_held ls) (ls_waiting ls ∪ {[name]}) in
            let f2 := put_lease (put_lock f1 name lk1) clientID ls1 in
            (f2, resultPosition f2 OUTCOME_QUEUED name (u32 (Z.of_nat (length (lk_queue lk1)))))
      end
  end.

(** The loop of [promote] over the queue that is left. *)
Fixpoint promoteQueue (f : FSM) (lk : lock) (q : list waiter) : FSM :=
  match q with
  | [] =>
      let f1 := set_locks f (delete (lk_name lk) (locks f)) in
      emit f1 (lk_name lk) "" 0 None
  | w :: q' =>
      match leases f !! w_clientID w with
      | None => promoteQueue f lk q'
      | Some ls =>
          let f1 := incr_seq f in
          let lk1 := {| lk_name := lk_name lk; lk_holder := w_clientID w; lk_token := seq f1;
                        lk_value := w_value w; lk_queue := q' |} in
          let ls1 := with_index ls (ls_held ls ∪ {[lk_name lk]}) (ls_waiting ls ∖ {[lk_name lk]}) in
          let f2 := put_lease (put_lock f1 (lk_name lk) lk1) (w_clientID w) ls1 in
          emit f2 (lk_name lk) (lk_holder lk1) (lk_token lk1) (lk_value lk1)
      end
  end.

Definition promote (f : FSM) (lk : lock) : FSM := promoteQueue f lk (lk_queue lk).

Definition release (f : FSM) (name clientID : string) (token : Z) : FSM * CommandResult :=
  match locks f !! name with
  | None => (f, resultKey f OUTCOME_NOT_HOLDER name)
  | Some lk =>
      if bool_decide (lk_holder lk = "") || negb (bool_decide (lk_holder lk = clientID)) then
        (f, resultKey f OUTCOME_NOT_HOLDER name)
      else if negb (lk_token lk =? token) then
        (f, resultKey f OUTCOME_STALE_TOKEN name)
      else
        let f1 := match leases f !! clientID with
                  | Some ls => put_lease f clientID (with_index ls (ls_held ls ∖ {[name]}) (ls_waiting ls))
                  | None => f
                  end in
        let f2 := promote f1 lk in
        (f2, resultKey f2 OUTCOME_RELEASED name)
  end.

(** [append(q[:i], q[i+1:]...)] for the first [i] with that client, if any. *)
Fixpoint removeWaiter (q : list waiter) (clientID : string) : option (list waiter) :=
  match q with
  | [] => None
  | w :: q' => if bool_decide (w_clientID w = clientID) then Some q'
               else cons w <$> removeWaiter q' clientID
  end.

Definition cancelWait (f : FSM) (name clientID : string) : FSM * CommandResult :=
  match locks f !! name with
  | None => (f, resultKey f OUTCOME_NOOP name)
  | Some lk =>
      match removeWaiter (lk_queue lk) clientID with
      | Some q =>
          let f1 := put_lock f name (with_queue lk q) in
          let f2 := match leases f1 !! clientID with
                    | Some ls => put_lease f1 clientID (with_index ls (ls_held ls) (ls_waiting ls ∖ {[name]}))
                    | None => f1
                    end in
          (f2, resultKey f2 OUTCOME_RELEASED name)
      | None => (f, resultKey f OUTCOME_NOOP name)
      end
  end.

Definition proclaim (f : FSM) (name clientID : string) (token : Z) (value : gobytes) : FSM * CommandResult :=
  match locks f !! name with
  | None => (f, resultKey f OUTCOME_NOT_HOLDER name)
  | Some lk =>
      if bool_decide (lk_holder lk = "") || negb (bool_decide (lk_holder lk = clientID)) then
        (f, resultKey f OUTCOME_NOT_HOLDER name)
      else if negb (lk_token lk =? token) then
        (f, resultKey f OUTCOME_STALE_TOKEN name)
      else
        let lk1 := {| lk_name := lk_name lk; lk_holder := lk_holder lk; lk_token := lk_token lk;
                      lk_value := value; lk_queue := lk_queue lk |} in
        let f1 := put_lock f name lk1 in
        let f2 := emit f1 name (lk_holder lk1) (lk_token lk1) (lk_value lk1) in
        (f2, resultToken f2 OUTCOME_VALUE_UPDATED name (lk_token lk1) value)
  end.

(** ** leases.go *)
Definition leaseGrant (f : FSM) (clientID : string) (ttlMS now : Z) : FSM * CommandResult :=
  let ls := match leases f !! clientID with
            | Some ls => ls
            | None => {| ls_clientID := clientID; ls_ttlMS := 0; ls_expireAt := 0;
                         ls_held := ∅; ls_waiting := ∅ |}
            end in
  let ls1 := {| ls_clientID := ls_clientID ls; ls_ttlMS := ttlMS; ls_expireAt := leaseDeadline now ttlMS;
                ls_held := ls_held ls; ls_waiting := ls_waiting ls |} in
  let f1 := put_lease f clientID ls1 in
  (f1, resultDeadline f1 OUTCOME_LEASE_GRANTED (ls_expireAt ls1)).

Definition leaseKeepAlive (f : FSM) (clientID : string) (now : Z) : FSM * CommandResult :=
  match leases f !! clientID with
  | None => (f, mkresult f OUTCOME_NOT_FOUND)
  | Some ls =>
      let ls1 := {| ls_clientID := ls_clientID ls; ls_ttlMS := ls_ttlMS ls;
                    ls_expireAt := leaseDeadline now (ls_ttlMS ls);
                    ls_held := ls_held ls; ls_waiting := ls_waiting ls |} in
      let f1 := put_lease f clientID ls1 in
      (f1, resultDeadline f1 OUTCOME_LEASE_RENEWED (ls_expireAt ls1))
  end.

(** One iteration of the first loop of [dropLease]: hand on one held key. *)
Definition dropHeld (id : string) (f : FSM) (name : string) : FSM :=
  match locks f !! name with
  | None => f
  | Some lk => if negb (bool_decide (lk_holder lk = id)) then f else promote f lk
  end.

(** One iteration of the second loop: leave one wait queue. *)
Definition dropWaiting (id : string) (f : FSM) (name : string) : FSM :=
  match locks f !! name with
  | None => f
  | Some lk =>
      match removeWaiter (lk_queue lk) id with
      | Some q => put_lock f name (with_queue lk q)
      | None => f
      end
  end.

(** [dropLease ls] for the lease filed under [id].  [ls] is a pointer: the
    second loop reads the waiting set as the first loop left it. *)
Definition dropLease (f : FSM) (id : string) : FSM :=
  match leases f !! id with
  | None => f
  | Some ls =>
      let f1 := foldl (dropHeld (ls_clientID ls)) f (sortedSet (ls_held ls)) in
      let waiting := match leases f1 !! id with
                     | Some ls1 => ls_waiting ls1
                     | None => ls_waiting ls
                     end in
      let f2 := foldl (dropWaiting (ls_clientID ls)) f1 (sortedSet waiting) in
      set_leases f2 (delete (ls_clientID ls) (leases f2))
  end.

Definition leaseRevoke (f : FSM) (clientID : string) : FSM * CommandResult :=
  match leases f !! clientID with
  | None => (f, mkresult f OUTCOME_NOT_FOUND)
  | Some _ =>
      let f1 := dropLease f clientID in
      (f1, mkresult f1 OUTCOME_LEASE_REVOKED)
  end.

Definition leaseExpire (f : FSM) (clientID : string) (now : Z) : FSM * CommandResult :=
  match leases f !! clientID with
  | None => (f, mkresult f OUTCOME_NOT_FOUND)
  | Some ls =>
      if now <? ls_expireAt ls then (f, mkresult f OUTCOME_NOOP)
      else
        let f1 := dropLease f clientID in
        (f1, mkresult f1 OUTCOME_LEASE_EXPIRED)
  end.

(** ** Apply *)
Definition dispatch (f : FSM) (c : Cmd) : FSM * CommandResult :=
  match c with
  | AcquireLock name id try => acquire f name id None try
  | Campaign name id value => acquire f name id value false
  | ReleaseLock name id token => release f name id token
  | Resign name id token => release f name id token
  | CancelWait name id => cancelWait f name id
  | Proclaim name id token value => proclaim f name id token value
  | LeaseGrant id ttl now => leaseGrant f id ttl now
  | LeaseKeepAlive id now => leaseKeepAlive f id now
  | LeaseRevoke id => leaseRevoke f id
  | LeaseExpire id now => leaseExpire f id now
  end.

Definition Apply (f : FSM) (cmd : option Command) : FSM * result CommandResult ApplyError :=
  match cmd with
  | None => (f, Err NilCommand)
  | Some c =>
      let f1 := incr_revision f in
      match GetCmd c with
      | Some c' => let '(f2, r) := dispatch f1 c' in (f2, Ok r)
      | None => (f1, Err UnknownCommand)
      end
  end.

(** ** Queries *)
Inductive Query :=
| StatusQuery (Name : string)
| LeaseQuery (ClientID : string)
| DueLeasesQuery (NowUnixNano : Z)
| ListLocksQuery (Prefix : string)
| WaitersQuery (Name : string)
| OtherQuery.

Record Status := {
  st_Held : bool;
  st_Holder : string;
  st_Token : Z;
  st_Value : gobytes;
  st_QueueDepth : Z;
  st_Revision : Z
}.

Record LeaseInfo := {
  li_Exists : bool;
  li_TTLMillis : Z;
  li_ExpireAtUnixNano : Z;
  li_HeldKeys : list string;
  li_Revision : Z
}.

Record LockSummary := {
  lsum_Name : string;
  lsum_Held : bool;
  lsum_Holder : string;
  lsum_Token : Z;
  lsum_HasValue : bool;
  lsum_QueueDepth : Z
}.

Record LockSummaries := {
  lsums_Locks : list LockSummary;
  lsums_Revision : Z
}.

Record WaiterInfo := {
  wi_ClientID : string;
  wi_Seq : Z;
  wi_Position : Z
}.

Record Waiters := {
  ws_Held : bool;
  ws_Holder : string;
  ws_Token : Z;
  ws_Value : gobytes;
  ws_Entries : list WaiterInfo;
  ws_Revision : Z
}.

Inductive Answer :=
| AStatus (st : Status)
| ALease (li : LeaseInfo)
| ADue (ids : list string)
| ALocks (ls : LockSummaries)
| AWaiters (ws : Waiters).

Inductive QueryError := UnknownQuery.

Definition queueDepth (lk : lock) : Z := u32 (Z.of_nat (length (lk_queue lk))).

Definition no_status (f : FSM) : Status :=
  {| st_Held := false; st_Holder := ""; st_Token := 0; st_Value := None; st_QueueDepth := 0;
     st_Revision := revision f |}.

Definition status (f : FSM) (name : string) : Status :=
  match locks f !! name with
  | None => no_status f
  | Some lk =>
      if bool_decide (lk_holder lk = "") then no_status f
      else {| st_Held := true; st_Holder := lk_holder lk; st_Token := lk_token lk;
              st_Value := lk_value lk; st_QueueDepth := queueDepth lk; st_Revision := revision f |}
  end.

Definition leaseInfo (f : FSM) (clientID : string) : LeaseInfo :=
  match leases f !! clientID with
  | None => {| li_Exists := false; li_TTLMillis := 0; li_ExpireAtUnixNano := 0; li_HeldKeys := [];
               li_Revision := revision f |}
  | Some ls => {| li_Exists := true; li_TTLMillis := ls_ttlMS ls; li_ExpireAtUnixNano := ls_expireAt ls;
                  li_HeldKeys := sortedSet (ls_held ls); li_Revision := revision f |}
  end.

Fixpoint dueFrom (f : FSM) (now : Z) (ids : list string) : list string :=
  match ids with
  | [] => []
  | id :: ids' =>
      match leases f !! id with
      | Some ls => if ls_expireAt ls <=? now then id :: dueFrom f now ids' else dueFrom f now ids'
      | None => dueFrom f now ids'
      end
  end.

Definition dueLeases (f : FSM) (now : Z) : list string := dueFrom f now (sortedKeys (leases f)).

Fixpoint listFrom (f : FSM) (prefix : string) (names : list string) : list LockSummary :=
  match names with
  | [] => []
  | name :: names' =>
      match locks f !! name with
      | None => listFrom f prefix names'
      | Some lk =>
          if bool_decide (lk_holder lk = "") || negb (Keypath.HasPrefix prefix name)
          then listFrom f prefix names'
          else {| lsum_Name := name; lsum_Held := true; lsum_Holder := lk_holder lk;
                  lsum_Token := lk_token lk; lsum_HasValue := bool_decide (is_Some (lk_value lk));
                  lsum_QueueDepth := queueDepth lk |} :: listFrom f prefix names'
      end
  end.

Definition listLocks (f : FSM) (prefix : string) : LockSummaries :=
  {| lsums_Locks := listFrom f prefix (sortedKeys (locks f)); lsums_Revision := revision f |}.

Fixpoint entriesFrom (i : Z) (q : list waiter) : list WaiterInfo :=
  match q with
  | [] => []
  | w :: q' => {| wi_ClientID := w_clientID w; wi_Seq := w_seq w; wi_Position := u32 (i + 1) |}
               :: entriesFrom (i + 1) q'
  end.

Definition no_waiters (f : FSM) : Waiters :=
  {| ws_Held := false; ws_Holder := ""; ws_Token := 0; ws_Value := None; ws_Entries := [];
     ws_Revision := revision f |}.

Definition waiters (f : FSM) (name : string) : Waiters :=
  match locks f !! name with
  | None => no_waiters f
  | Some lk =>
      if bool_decide (lk_holder lk = "") then no_waiters f
      else {| ws_Held := true; ws_Holder := lk_holder lk; ws_Token := lk_token lk;
              ws_Value := lk_value lk; ws_Entries := entriesFrom 0 (lk_queue lk);
              ws_Revision := revision f |}
  end.

Definition query (f : FSM) (q : Query) : result Answer QueryError :=
  match q with
  | StatusQuery name => Ok (AStatus (status f name))
  | LeaseQuery id => Ok (ALease (leaseInfo f id))
  | DueLeasesQuery now => Ok (ADue (dueLeases f now))
  | ListLocksQuery prefix => Ok (ALocks (listLocks f prefix))
  | WaitersQuery name => Ok (AWaiters (waiters f name))
  | OtherQuery => Err UnknownQuery
  end.

(** ** Snapshots *)
Record pb_Waiter := {
  pw_ClientId : string;
  pw_EnqueueSeq : Z;
  pw_Value : gobytes
}.

Record LockState := {
  lst_Name : string;
  lst_Holder : option string; (* the client id of the [Owner], when there is one *)
  lst_Token : Z;
  lst_Value : gobytes;
  lst_Queue : list pb_Waiter
}.

Record LeaseState := {
  les_ClientId : string;
  les_TtlMs : Z;
  les_ExpireAtUnixNano : Z;
  les_HeldKeys : list string
}.

Record Snapshot := {
  sn_Seq : Z;
  sn_Revision : Z;
  sn_Locks : list LockState;
  sn_Leases : list LeaseState
}.

Definition snapWaiter (w : waiter) : pb_Waiter :=
  {| pw_ClientId := w_clientID w; pw_EnqueueSeq := w_seq w; pw_Value := w_value w |}.

Definition snapLock (name : string) (lk : lock) : LockState :=
  {| lst_Name := name;
     lst_Holder := if bool_decide (lk_holder lk = "") then None else Some (lk_holder lk);
     lst_Token := lk_token lk; lst_Value := lk_value lk; lst_Queue := snapWaiter <$> lk_queue lk |}.

Definition snapLease (id : string) (ls : lease) : LeaseState :=
  {| les_ClientId := id; les_TtlMs := ls_ttlMS ls; les_ExpireAtUnixNano := ls_expireAt ls;
     les_HeldKeys := sortedSet (ls_held ls) |}.

(** [for _, k := range sortedKeys(m) { out = append(out, g(k, m[k])) }] *)
Definition collect {V B} (g : string → V → B) (m : gmap string V) : list B :=
  omap (λ k, g k <$> m !! k) (sortedKeys m).

Definition snapshot (f : FSM) : Snapshot :=
  {| sn_Seq := seq f; sn_Revision := revision f;
     sn_Locks := collect snapLock (locks f); sn_Leases := collect snapLease (leases f) |}.

Definition restoreWaiter (w : pb_Waiter) : waiter :=
  {| w_clientID := pw_ClientId w; w_seq := pw_EnqueueSeq w; w_value := pw_Value w |}.

Definition restoreLock (l : LockState) : lock :=
  {| lk_name := lst_Name l;
     lk_holder := match lst_Holder l with Some h => h | None => "" end;
     lk_token := lst_Token l; lk_value := lst_Value l; lk_queue := restoreWaiter <$> lst_Queue l |}.

Definition restoreLease (l : LeaseState) : lease :=
  {| ls_clientID := les_ClientId l; ls_ttlMS := les_TtlMs l; ls_expireAt := les_ExpireAtUnixNano l;
     ls_held := ∅; ls_waiting := ∅ |}.

Definition addHeld (m : gmap string lease) (id name : string) : gmap string lease :=
  alter (λ ls, with_index ls (ls_held ls ∪ {[name]}) (ls_waiting ls)) id m.
Definition addWaiting (m : gmap string lease) (id name : string) : gmap string lease :=
  alter (λ ls, with_index ls (ls_held ls) (ls_waiting ls ∪ {[name]})) id m.

(** The body of the index-rebuilding loop of [Restore], for one lock. *)
Definition indexLock (m : gmap string lease) (lk : lock) : gmap string lease :=
  let m1 := if bool_decide (lk_holder lk = "") then m else addHeld m (lk_holder lk) (lk_name lk) in
  foldl (λ m w, addWaiting m (w_clientID w) (lk_name lk)) m1 (lk_queue lk).

(** [Restore] with the order in which the runtime happens to range over the
    rebuilt lock map as an argument. *)
Definition restoreLocks (snap : Snapshot) : gmap string lock :=
  foldl (λ m l, <[lst_Name l := restoreLock l]> m) ∅ (sn_Locks snap).
Definition restoreLeases (snap : Snapshot) : gmap string lease :=
  foldl (λ m l, <[les_ClientId l := restoreLease l]> m) ∅ (sn_Leases snap).

Definition RestoreInOrder (f : FSM) (snap : Snapshot) (order : list lock) : FSM :=
  {| locks := restoreLocks snap;
     leases := foldl indexLock (restoreLeases snap) order;
     seq := sn_Seq snap; revision := sn_Revision snap; notifier := notifier f |}.

Definition Restore (f : FSM) (snap : Snapshot) : FSM :=
  RestoreInOrder f snap (map_to_list (restoreLocks snap)).*2.
