(* ===== verification/Router.v ===== *)
(** * Key routing

    internal/cluster/router/router.go: the shard that owns a key, by the 64-bit
    xxHash of the key (vendor/github.com/cespare/xxhash/v2) over the shard list,
    and the command constructors of internal/raft/cmd. *)
From S2P Require Import Prelude GoStrings Fsm.
From Stdlib Require Import Ascii.

Local Open Scope Z_scope.

(** ** xxHash, 64 bits, seed zero *)
Module XXHash.
Definition prime1 : Z := 11400714785074694791.
Definition prime2 : Z := 14029467366897019727.
Definition prime3 : Z := 1609587929392839161.
Definition prime4 : Z := 9650029242287828579.
Definition prime5 : Z := 2870177450012600261.

(** [bits.RotateLeft64(x, k)] for [0 < k < 64]. *)
Definition rol (k x : Z) : Z := Z.lor (u64 (Z.shiftl x k)) (Z.shiftr x (64 - k)).

(** [binary.LittleEndian.Uint64] and [Uint32] of the first 8 or 4 bytes. *)
Fixpoint littleEndian (b : list Z) : Z :=
  match b with [] => 0 | x :: b' => Z.lor x (Z.shiftl (littleEndian b') 8) end.

Definition round (acc input : Z) : Z := u64 (rol 31 (u64 (acc + u64 (input * prime2))) * prime1).
Definition mergeRound (acc val : Z) : Z := u64 (u64 (Z.lxor acc (round 0 val) * prime1) + prime4).

Definition lanes : Type := Z * Z * Z * Z.

(** [for len(b) >= 32]: one step consumes 32 bytes, so [length b] steps are
    enough. *)
Fixpoint blocks (fuel : nat) (v : lanes) (b : list Z) : lanes * list Z :=
  match fuel with
  | O => (v, b)
  | S n =>
      if (32 <=? length b)%nat then
        let '(v1, v2, v3, v4) := v in
        blocks n (round v1 (littleEndian (take 8 b)), round v2 (littleEndian (take 8 (drop 8 b))),
                  round v3 (littleEndian (take 8 (drop 16 b))), round v4 (littleEndian (take 8 (drop 24 b)))) (drop 32 b)
      else (v, b)
  end.

(** [for ; len(b) >= 8; b = b[8:]]. *)
Fixpoint words (fuel : nat) (h : Z) (b : list Z) : Z * list Z :=
  match fuel with
  | O => (h, b)
  | S n =>
      if (8 <=? length b)%nat then
        words n (u64 (u64 (rol 27 (Z.lxor h (round 0 (littleEndian (take 8 b)))) * prime1) + prime4)) (drop 8 b)
      else (h, b)
  end.

Fixpoint tailBytes (h : Z) (b : list Z) : Z :=
  match b with
  | [] => h
  | x :: b' => tailBytes (u64 (rol 11 (Z.lxor h (u64 (x * prime5))) * prime1)) b'
  end.

Definition avalanche (h : Z) : Z :=
  let h1 := u64 (Z.lxor h (Z.shiftr h 33) * prime2) in
  let h2 := u64 (Z.lxor h1 (Z.shiftr h1 29) * prime3) in
  Z.lxor h2 (Z.shiftr h2 32).

Definition Sum64 (b : list Z) : Z :=
  let n := length b in
  let '(h, b1) :=
    if (32 <=? n)%nat then
      let '((v1, v2, v3, v4), b1) := blocks n (u64 (prime1 + prime2), prime2, 0, u64 (- prime1)) b in
      let h := u64 (u64 (u64 (rol 1 v1 + rol 7 v2) + rol 12 v3) + rol 18 v4) in
      (mergeRound (mergeRound (mergeRound (mergeRound h v1) v2) v3) v4, b1)
    else (prime5, b) in
  let '(h2, b2) := words n (u64 (h + u64 (Z.of_nat n))) b1 in
  let '(h3, b3) :=
    if (4 <=? length b2)%nat then
      (u64 (u64 (rol 23 (Z.lxor h2 (u64 (littleEndian (take 4 b2) * prime1))) * prime2) + prime3), drop 4 b2)
    else (h2, b2) in
  avalanche (tailBytes h3 b3).

Definition Sum64String (s : string) : Z := Sum64 ((λ c, byte_val c) <$> bytes_of s).

(** Published test vectors of XXH64. *)
Example Sum64_empty : Sum64String "" = 0xef46db3751d8e999. Proof. by vm_compute. Qed.
Example Sum64_a : Sum64String "a" = 0xd24ec4f1a98c6e5b. Proof. by vm_compute. Qed.
Example Sum64_asdf : Sum64String "asdf" = 0x415872f599cea71e. Proof. by vm_compute. Qed.
Example Sum64_long :
  Sum64String "Call me Ishmael. Some years ago--never mind how long precisely-" = 0x02a2e85470d6fd96.
Proof. by vm_compute. Qed.

Lemma lxor_range a b : in_u64 a → in_u64 b → in_u64 (Z.lxor a b).
Proof.
  rewrite /in_u64. intros [Ha0 Ha] [Hb0 Hb]. split; [by apply Z.lxor_nonneg|].
  destruct (decide (Z.lxor a b = 0)) as [->|Hne]; [done|].
  assert (0 < Z.lxor a b) as Hpos. { assert (0 ≤ Z.lxor a b) by by apply Z.lxor_nonneg. lia. }
  apply Z.log2_lt_pow2; [done|].
  pose proof (Z.log2_lxor a b Ha0 Hb0) as Hl.
  assert (∀ x, 0 ≤ x < 2 ^ 64 → Z.log2 x < 64) as Hlog.
  { intros x [H0 H1]. destruct (decide (x = 0)) as [->|]; [done|]. apply Z.log2_lt_pow2; lia. }
  pose proof (Hlog a (conj Ha0 Ha)). pose proof (Hlog b (conj Hb0 Hb)). lia.
Qed.

Lemma shiftr_range x n : 0 ≤ n → in_u64 x → in_u64 (Z.shiftr x n).
Proof.
  intros Hn [H0 H1]. rewrite /in_u64 Z.shiftr_div_pow2; [exact Hn|].
  pose proof (Z.pow_pos_nonneg 2 n ltac:(lia) Hn). split; [apply Z.div_pos; lia|].
  apply Z.div_lt_upper_bound; nia.
Qed.

Lemma avalanche_range h : in_u64 (avalanche h).
Proof. apply lxor_range; [|apply shiftr_range; [lia|]]; apply u64_range. Qed.

Lemma Sum64_range b : in_u64 (Sum64 b).
Proof.
  rewrite /Sum64. destruct (if (32 <=? length b)%nat then _ else _) as [h b1]. destruct (words _ _ _) as [h2 b2].
  destruct (if (4 <=? length b2)%nat then _ else _) as [h3 b3]. apply avalanche_range.
Qed.
End XXHash.

(** ** Router

    [shards.Get] is an index expression: [None] is the panic of an index out of
    range. *)
Record Router := { shards : list Z }.

Definition NewRouter (s : list Z) : option Router :=
  if bool_decide (length s = 0%nat) then None else Some {| shards := s |}.

Definition Shard (r : Router) (key : string) : option Z :=
  shards r !! Z.to_nat (i64 (XXHash.Sum64String key mod u64 (Z.of_nat (length (shards r))))).

Definition Shards (r : Router) : list Z := shards r.

#[global] Opaque XXHash.Sum64String.

(** Every key has one shard.  A router exists exactly for a non-empty shard
    list, and it sends every key, whatever its bytes, to a shard of that list
    without an index out of range. *)
Theorem router_total s :
  Z.of_nat (length s) < 2 ^ 63 →
  (is_Some (NewRouter s) ↔ s ≠ []) ∧
  ∀ r key, NewRouter s = Some r → ∃ sh, Shard r key = Some sh ∧ sh ∈ Shards r ∧ Shards r = s.
Proof.
  intros Hlen. rewrite /NewRouter. split.
  - case_bool_decide as Hs; destruct s; naive_solver.
  - intros r key. case_bool_decide as Hs; [done|]. intros [= <-]. rewrite /Shard /Shards /=.
    rewrite (u64_small (Z.of_nat (length s))); [rewrite /in_u64; lia|].
    pose proof (Z.mod_pos_bound (XXHash.Sum64String key) (Z.of_nat (length s)) ltac:(lia)) as Hm.
    rewrite i64_small; [rewrite /in_i64; lia|].
    destruct (s !! Z.to_nat _) as [sh|] eqn:E; [|apply lookup_ge_None in E; lia].
    exists sh. split_and!; [done|by eapply list_elem_of_lookup_2|done].
Qed.

Lemma router_total_witness : ∃ sh, Shard {| shards := [1; 2; 3] |} "/team/x" = Some sh ∧ sh ∈ [1; 2; 3].
Proof.
  destruct (router_total [1; 2; 3] ltac:(done)) as [_ H].
  destruct (H {| shards := [1; 2; 3] |} "/team/x" eq_refl) as (sh & H1 & H2 & _).
  exists sh. split; [exact H1|exact H2].
Defined.

(** ** Command constructors (internal/raft/cmd/cmd.go) *)
Module cmd.
Definition Acquire (name clientID : string) (try : bool) : Command := {| GetCmd := Some (AcquireLock name clientID try) |}.
Definition Release (name clientID : string) (token : Z) : Command := {| GetCmd := Some (ReleaseLock name clientID token) |}.
Definition Cancel (name clientID : string) : Command := {| GetCmd := Some (CancelWait name clientID) |}.
Definition Grant (clientID : string) (ttlMS now : Z) : Command := {| GetCmd := Some (LeaseGrant clientID ttlMS now) |}.
Definition KeepAlive (clientID : string) (now : Z) : Command := {| GetCmd := Some (LeaseKeepAlive clientID now) |}.
Definition Revoke (clientID : string) : Command := {| GetCmd := Some (LeaseRevoke clientID) |}.
Definition Expire (clientID : string) (now : Z) : Command := {| GetCmd := Some (LeaseExpire clientID now) |}.
Definition Campaign (name clientID : string) (value : gobytes) : Command :=
  {| GetCmd := Some (Fsm.Campaign name clientID value) |}.
Definition Proclaim (name clientID : string) (token : Z) (value : gobytes) : Command :=
  {| GetCmd := Some (Fsm.Proclaim name clientID token value) |}.
Definition Resign (name clientID : string) (token : Z) : Command := {| GetCmd := Some (Fsm.Resign name clientID token) |}.
End cmd.
