(* ===== verification/Watch.v ===== *)
(** * The watch hub

    internal/lock/watch/watch.go.  Subscriptions are pointers into a heap; the
    hub is an array of sixteen stripes, each a map from key to the set of its
    subscriptions, chosen by a seeded hash of the key.  The hash
    ([maphash.String] under a random seed) is the argument [hash]: every
    statement holds for any hash.

    [Subscribe], [Notify], [Next], [Close] and [Observers] are the methods as
    one step each.  [hstep] is their interleaving at the granularity of the
    code's locks and channel operations: the mutex of a stripe is held from the
    start to the end of a [Notify], [signal] stores the event and then sends,
    [Next] receives and then reads the event. *)
From S2P Require Import Prelude GoStrings Fsm.

Local Open Scope nat_scope.

(** ** Subscriptions *)
Definition zero_event : Event := {| ev_Key := ""; ev_Holder := ""; ev_Token := 0; ev_Value := None; ev_Revision := 0 |}.

Record Sub := {
  sb_key : string;
  sb_identity : string;
  sb_track : bool;
  sb_ch : bool;      (* the one-slot channel is full *)
  sb_last : Event
}.

Record SubArgs := { sa_Key : string; sa_Identity : string; sa_Track : bool }.
Definition validate (a : SubArgs) : bool := negb (bool_decide (sa_Key a = "")).

Record Observation := { ob_Key : string; ob_Identity : string }.

(** [signal]: the event under the subscription's mutex, then the wakeup, which a
    full channel drops. *)
Definition signalSet (e : Event) (s : Sub) : Sub :=
  {| sb_key := sb_key s; sb_identity := sb_identity s; sb_track := sb_track s; sb_ch := sb_ch s; sb_last := e |}.
Definition signalSend (s : Sub) : Sub :=
  {| sb_key := sb_key s; sb_identity := sb_identity s; sb_track := sb_track s; sb_ch := true; sb_last := sb_last s |}.
Definition signal (e : Event) (s : Sub) : Sub := signalSend (signalSet e s).

(** [<-s.ch] on a full channel. *)
Definition receive (s : Sub) : Sub :=
  {| sb_key := sb_key s; sb_identity := sb_identity s; sb_track := sb_track s; sb_ch := false; sb_last := sb_last s |}.

(** ** The hub *)
Definition numStripes : nat := 16.
Abbreviation stripe := (gmap string (gset nat)).
Record Hub := { hb_stripes : list stripe; hb_heap : gmap nat Sub }.

Definition NewHub : Hub := {| hb_stripes := replicate numStripes ∅; hb_heap := ∅ |}.

Inductive NextResult := Blocks | Woken (e : Event) | Cancelled.

Lemma NoDup_bind_index {A B} (f : A → list B) l :
  (∀ x y a b c, l !! x = Some a → l !! y = Some b → c ∈ f a → c ∈ f b → x = y) →
  (∀ a, a ∈ l → NoDup (f a)) → NoDup (l ≫= f).
Proof.
  induction l as [|a l IH]; intros Hd Hf; [constructor|]. cbn. apply NoDup_app. split_and!.
  - apply Hf. by left.
  - intros c Hc (b & Hb & [y Hy]%list_elem_of_lookup_1)%list_elem_of_bind.
    by pose proof (Hd 0 (S y) a b c eq_refl Hy Hc Hb).
  - apply IH; [|intros; apply Hf; by right]. intros x y a' b c Hx Hy Ha Hb.
    by injection (Hd (S x) (S y) a' b c Hx Hy Ha Hb).
Qed.

Section hub.
Context (hash : string → N).

Definition stripeOf (key : string) : nat := N.to_nat (N.modulo (hash key) 16).

(** [st.subs[key]], the nil map reading as empty. *)
Definition subsAt (h : Hub) (key : string) : gset nat :=
  default ∅ (default ∅ (hb_stripes h !! stripeOf key) !! key).

Definition setStripe (h : Hub) (key : string) (f : stripe → stripe) : Hub :=
  {| hb_stripes := alter f (stripeOf key) (hb_stripes h); hb_heap := hb_heap h |}.

Definition Notify (h : Hub) (e : Event) : Hub :=
  {| hb_stripes := hb_stripes h;
     hb_heap := foldl (λ hp i, alter (signal e) i hp) (hb_heap h) (elements (subsAt h (ev_Key e))) |}.

(** [None] is the panic on invalid arguments. *)
Definition addSub (i : nat) (key : string) (st : stripe) : stripe := <[key := default ∅ (st !! key) ∪ {[i]}]> st.

Definition newSub (a : SubArgs) : Sub :=
  {| sb_key := sa_Key a; sb_identity := sa_Identity a; sb_track := sa_Track a; sb_ch := false; sb_last := zero_event |}.

Definition Subscribe (h : Hub) (a : SubArgs) : option (Hub * nat) :=
  if negb (validate a) then None
  else
    let i := fresh (dom (hb_heap h)) in
    Some (setStripe {| hb_stripes := hb_stripes h; hb_heap := <[i := newSub a]> (hb_heap h) |}
            (sa_Key a) (addSub i (sa_Key a)), i).

Definition dropSub (i : nat) (key : string) (st : stripe) : stripe :=
  match st !! key with
  | None => st
  | Some m =>
      let m1 := m ∖ {[i]} in
      if bool_decide (m1 = ∅) then delete key st else <[key := m1]> st
  end.

Definition Close (h : Hub) (i : nat) : Hub :=
  match hb_heap h !! i with
  | None => h
  | Some s => setStripe h (sb_key s) (dropSub i (sb_key s))
  end.

(** [Next]: [done] says whether the context has ended, [pick] which ready case
    the runtime takes when both are. *)
Definition Next (h : Hub) (i : nat) (done pick : bool) : Hub * NextResult :=
  match hb_heap h !! i with
  | None => (h, Blocks)
  | Some s =>
      if sb_ch s && negb (done && pick) then
        ({| hb_stripes := hb_stripes h; hb_heap := <[i := receive s]> (hb_heap h) |}, Woken (sb_last s))
      else if done then (h, Cancelled) else (h, Blocks)
  end.

(** The tracked subscriptions [collect] visits in one stripe, with their keys. *)
Definition collectIn (h : Hub) (key : string) (st : stripe) : list (string * nat) :=
  '(k, m) ← map_to_list st;
  if bool_decide (key ≠ "" ∧ k ≠ key) then []
  else (λ i, (k, i)) <$> filter (λ i, sb_track <$> hb_heap h !! i = Some true) (elements m).

Definition collected (h : Hub) (key : string) : list (string * nat) :=
  if bool_decide (key ≠ "") then collectIn h key (default ∅ (hb_stripes h !! stripeOf key))
  else hb_stripes h ≫= collectIn h key.

Definition identityOf (h : Hub) (i : nat) : string := default "" (sb_identity <$> hb_heap h !! i).
Definition Observers (h : Hub) (key : string) : list Observation :=
  (λ '(k, i), {| ob_Key := k; ob_Identity := identityOf h i |}) <$> collected h key.

(** ** Interleaving

    [hs_busy] holds, for a stripe whose mutex a [Notify] has, the event, the
    subscriptions still to signal and whether the first of them has the event
    stored but not yet the wakeup.  [hs_reading] are the callers of [Next]
    between the receive and the read.  [hs_log], [hs_since], [hs_seen] and
    [hs_got] are history: the events notified, how many there were when a
    subscription was made, the events stored in it and the events [Next]
    returned from it. *)
Record HState := {
  hs_hub : Hub;
  hs_busy : gmap nat (Event * list nat * bool);
  hs_reading : gset nat;
  hs_log : list Event;
  hs_since : gmap nat nat;
  hs_seen : gmap nat (list Event);
  hs_got : gmap nat (list Event)
}.

Definition hinit : HState :=
  {| hs_hub := NewHub; hs_busy := ∅; hs_reading := ∅; hs_log := []; hs_since := ∅; hs_seen := ∅; hs_got := ∅ |}.

Definition alterHeap (h : Hub) (f : Sub → Sub) (i : nat) : Hub :=
  {| hb_stripes := hb_stripes h; hb_heap := alter f i (hb_heap h) |}.

Definition free (s : HState) (key : string) : Prop := hs_busy s !! stripeOf key = None.

Inductive hstep (s : HState) : HState → Prop :=
| step_subscribe a h' i :
    free s (sa_Key a) → Subscribe (hs_hub s) a = Some (h', i) →
    hstep s {| hs_hub := h'; hs_busy := hs_busy s; hs_reading := hs_reading s; hs_log := hs_log s;
               hs_since := <[i := length (hs_log s)]> (hs_since s); hs_seen := <[i := []]> (hs_seen s);
               hs_got := <[i := []]> (hs_got s) |}
| step_close i sub :
    hb_heap (hs_hub s) !! i = Some sub → free s (sb_key sub) →
    hstep s {| hs_hub := Close (hs_hub s) i; hs_busy := hs_busy s; hs_reading := hs_reading s; hs_log := hs_log s;
               hs_since := hs_since s; hs_seen := hs_seen s; hs_got := hs_got s |}
| step_start e l :
    free s (ev_Key e) → l ≡ₚ elements (subsAt (hs_hub s) (ev_Key e)) →
    hstep s {| hs_hub := hs_hub s; hs_busy := <[stripeOf (ev_Key e) := (e, l, false)]> (hs_busy s);
               hs_reading := hs_reading s; hs_log := hs_log s ++ [e];
               hs_since := hs_since s; hs_seen := hs_seen s; hs_got := hs_got s |}
| step_set x e i l :
    hs_busy s !! x = Some (e, i :: l, false) →
    hstep s {| hs_hub := alterHeap (hs_hub s) (signalSet e) i; hs_busy := <[x := (e, i :: l, true)]> (hs_busy s);
               hs_reading := hs_reading s; hs_log := hs_log s;
               hs_since := hs_since s; hs_seen := alter (λ es, es ++ [e]) i (hs_seen s); hs_got := hs_got s |}
| step_send x e i l :
    hs_busy s !! x = Some (e, i :: l, true) →
    hstep s {| hs_hub := alterHeap (hs_hub s) signalSend i; hs_busy := <[x := (e, l, false)]> (hs_busy s);
               hs_reading := hs_reading s; hs_log := hs_log s;
               hs_since := hs_since s; hs_seen := hs_seen s; hs_got := hs_got s |}
| step_end x e :
    hs_busy s !! x = Some (e, [], false) →
    hstep s {| hs_hub := hs_hub s; hs_busy := delete x (hs_busy s);
               hs_reading := hs_reading s; hs_log := hs_log s;
               hs_since := hs_since s; hs_seen := hs_seen s; hs_got := hs_got s |}
| step_receive i sub :
    hb_heap (hs_hub s) !! i = Some sub → sb_ch sub = true → i ∉ hs_reading s →
    hstep s {| hs_hub := alterHeap (hs_hub s) receive i; hs_busy := hs_busy s;
               hs_reading := hs_reading s ∪ {[i]}; hs_log := hs_log s;
               hs_since := hs_since s; hs_seen := hs_seen s; hs_got := hs_got s |}
| step_read i sub :
    hb_heap (hs_hub s) !! i = Some sub → i ∈ hs_reading s →
    hstep s {| hs_hub := hs_hub s; hs_busy := hs_busy s;
               hs_reading := hs_reading s ∖ {[i]}; hs_log := hs_log s;
               hs_since := hs_since s; hs_seen := hs_seen s;
               hs_got := alter (λ es, es ++ [sb_last sub]) i (hs_got s) |}.

Definition hreachable : HState → Prop := rtc hstep hinit.

(** The subscription [i] watches [k]. *)
Definition watches (s : HState) (i : nat) (k : string) : Prop := i ∈ subsAt (hs_hub s) k.

(** The events of [k] notified since [i] subscribed. *)
Definition events_since (s : HState) (i : nat) (k : string) : list Event :=
  filter (λ e, ev_Key e = k) (drop (default 0 (hs_since s !! i)) (hs_log s)).

(** Blocked in [Next], or about to block: nothing received, nothing to receive. *)
Definition parked (s : HState) (i : nat) : Prop :=
  (i ∉ hs_reading s) ∧ ∃ sub, hb_heap (hs_hub s) !! i = Some sub ∧ sb_ch sub = false.

(** The returned events follow the notified ones, skipping but never going back. *)
Definition follows (got es : list Event) : Prop :=
  ∃ js, StronglySorted le js ∧ Forall2 (λ j e, es !! j = Some e) js got.

(** ** Structure of the hub *)
Record hub_wf (h : Hub) : Prop := {
  hw_len : length (hb_stripes h) = numStripes;
  hw_at x st k m : hb_stripes h !! x = Some st → st !! k = Some m →
    x = stripeOf k ∧ m ≠ ∅ ∧ ∀ i, i ∈ m → ∃ sub, hb_heap h !! i = Some sub ∧ sb_key sub = k
}.

Lemma stripeOf_lt k : stripeOf k < numStripes.
Proof. rewrite /stripeOf /numStripes. pose proof (N.mod_lt (hash k) 16). lia. Qed.

Lemma stripe_at h k : hub_wf h → ∃ st, hb_stripes h !! stripeOf k = Some st.
Proof. intros [Hl _]. apply lookup_lt_is_Some_2. rewrite Hl. apply stripeOf_lt. Qed.

Lemma watched_sub h i k : hub_wf h → i ∈ subsAt h k → ∃ sub, hb_heap h !! i = Some sub ∧ sb_key sub = k.
Proof.
  intros Hwf. rewrite /subsAt. destruct (stripe_at h k Hwf) as [st Hst]. rewrite Hst /=.
  destruct (st !! k) as [m|] eqn:Em; cbn; [|set_solver]. by apply (hw_at _ Hwf _ _ _ _ Hst Em).
Qed.

Lemma NewHub_wf : hub_wf NewHub.
Proof.
  split; [done|]. intros x st k m [-> _]%lookup_replicate. by rewrite lookup_empty.
Qed.

Lemma alterHeap_wf h f i : (∀ s, sb_key (f s) = sb_key s) → hub_wf h → hub_wf (alterHeap h f i).
Proof.
  intros Hf [Hl Hat]. split; [done|]. intros x st k m Hst Hm. destruct (Hat _ _ _ _ Hst Hm) as (Hx & Hne & Hin).
  split_and!; [done..|]. intros j Hj. destruct (Hin j Hj) as (sub & Hs & Hk). cbn. rewrite lookup_alter.
  case_decide; subst; rewrite Hs /=; [|by eauto]. eexists. split; [done|]. by rewrite Hf.
Qed.

Lemma setStripe_wf h key f :
  hub_wf h →
  (∀ st, hb_stripes h !! stripeOf key = Some st → ∀ k m, f st !! k = Some m →
     (st !! k = Some m) ∨ (k = key ∧ m ≠ ∅ ∧ ∀ i, i ∈ m → ∃ sub, hb_heap h !! i = Some sub ∧ sb_key sub = k)) →
  hub_wf (setStripe h key f).
Proof.
  intros Hwf Hf. split; [cbn; rewrite length_alter; apply Hwf|]. intros x st k m. cbn.
  rewrite list_lookup_alter. case_decide as Hx.
  - subst x. intros (st0 & Hst & ->)%fmap_Some Hm. destruct (Hf _ Hst _ _ Hm) as [Hm'|(-> & ? & ?)]; [|done].
    by apply (hw_at _ Hwf _ _ _ _ Hst Hm').
  - apply (hw_at _ Hwf).
Qed.

Lemma subsAt_setStripe h key f k :
  hub_wf h → subsAt (setStripe h key f) k =
    if decide (stripeOf key = stripeOf k) then default ∅ (f (default ∅ (hb_stripes h !! stripeOf k)) !! k) else subsAt h k.
Proof.
  intros Hwf. rewrite /subsAt /= list_lookup_alter. destruct (stripe_at h k Hwf) as [st Hst].
  case_decide as He; [|done]. by rewrite He Hst.
Qed.

Lemma Subscribe_spec h a h' i :
  hub_wf h → Subscribe h a = Some (h', i) →
  hub_wf h' ∧ hb_heap h !! i = None ∧ hb_heap h' = <[i := newSub a]> (hb_heap h) ∧
  ∀ j k, j ∈ subsAt h' k ↔ j ∈ subsAt h k ∨ (j = i ∧ k = sa_Key a).
Proof.
  rewrite /Subscribe. intros Hwf. destruct (validate a); [|done]. cbn [negb]. intros [= <- Hi].
  assert (hb_heap h !! i = None) as Hfresh.
  { subst i. apply not_elem_of_dom. apply is_fresh. }
  rewrite Hi. clear Hi.
  assert (hub_wf {| hb_stripes := hb_stripes h; hb_heap := <[i := newSub a]> (hb_heap h) |}) as Hwf'.
  { split; [apply Hwf|]. intros x st k m Hst Hm. destruct (hw_at _ Hwf _ _ _ _ Hst Hm) as (Hx & Hne & Hin).
    split_and!; [done..|]. intros j Hj. cbn. rewrite lookup_insert_ne; [|by apply Hin]. intros ->.
    destruct (Hin _ Hj) as (? & ? & _). congruence. }
  split_and!; [|done|done|].
  - apply setStripe_wf; [done|]. intros st Hst k m. rewrite /addSub lookup_insert. case_decide as Hk; [|by left].
    intros [= <-]. right. subst k. split_and!; [done|set_solver|]. intros j [Hj|Hj]%elem_of_union.
    + apply (watched_sub _ _ _ Hwf'). by rewrite /subsAt Hst.
    + apply elem_of_singleton in Hj as ->. cbn. rewrite lookup_insert_eq. eauto.
  - intros j k. rewrite subsAt_setStripe // /subsAt. cbn [hb_stripes]. case_decide as Hs.
    + destruct (stripe_at h k Hwf) as [st Hst]. rewrite Hst /= /addSub lookup_insert.
      case_decide as Hk; [subst|]; cbn; set_solver.
    + split; [by left|]. intros [?|[_ ->]]; done.
Qed.

Lemma Close_spec h i sub :
  hub_wf h → hb_heap h !! i = Some sub →
  hub_wf (Close h i) ∧ hb_heap (Close h i) = hb_heap h ∧ ∀ j k, j ∈ subsAt (Close h i) k ↔ j ∈ subsAt h k ∧ j ≠ i.
Proof.
  intros Hwf Hi. rewrite /Close Hi.
  assert (∀ k, k ≠ sb_key sub → i ∉ subsAt h k) as Hother.
  { intros k Hk Hin. destruct (watched_sub _ _ _ Hwf Hin) as (s' & Hs' & Hk'). congruence. }
  split_and!; [|done|].
  - apply setStripe_wf; [done|]. intros st Hst k m. rewrite /dropSub.
    destruct (st !! sb_key sub) as [m0|] eqn:Em; [|by left]. case_bool_decide as Hempty.
    + rewrite lookup_delete. case_decide; [done|by left].
    + rewrite lookup_insert. case_decide as Hk; [|by left]. intros [= <-]. right. subst k. split_and!; [done..|].
      intros j [Hj _]%elem_of_difference. by apply (hw_at _ Hwf _ _ _ _ Hst Em).
  - intros j k. rewrite subsAt_setStripe //. case_decide as Hs; cycle 1.
    { split; [|by intros [? _]]. intros Hj. split; [done|]. intros ->. eapply Hother; [|done]. congruence. }
    destruct (stripe_at h k Hwf) as [st Hst]. specialize (Hother k). rewrite /subsAt Hst /= in Hother |- *.
    rewrite /dropSub. destruct (decide (k = sb_key sub)) as [->|Hk].
    + destruct (st !! sb_key sub) as [m0|] eqn:Em; cbn; [|rewrite Em; cbn; set_solver].
      case_bool_decide as Hempty; [rewrite lookup_delete_eq|rewrite lookup_insert_eq]; cbn; set_solver.
    + specialize (Hother Hk). destruct (st !! sb_key sub) as [m0|]; [|set_solver].
      case_bool_decide; [rewrite lookup_delete_ne //|rewrite lookup_insert_ne //]; set_solver.
Qed.

(** ** The interleaving invariant *)

(** The event of a running [Notify] that [i] does not have yet. *)
Definition pending (s : HState) (i : nat) (k : string) : list Event :=
  match hs_busy s !! stripeOf k with
  | Some (e, l, b) => if decide (ev_Key e = k ∧ i ∈ (if b : bool then tail l else l)) then [e] else []
  | None => []
  end.

(** [i] has the event of a running [Notify] but not its wakeup. *)
Definition sending (s : HState) (i : nat) (k : string) : Prop :=
  ∃ e l, hs_busy s !! stripeOf k = Some (e, i :: l, true) ∧ ev_Key e = k.

Definition awake (s : HState) (i : nat) (k : string) (sub : Sub) : Prop :=
  sb_ch sub = true ∨ i ∈ hs_reading s ∨ sending s i k.

Record sub_ok (s : HState) (i : nat) (k : string) (sub : Sub) (seen got : list Event) : Prop := {
  so_since : default 0 (hs_since s !! i) ≤ length (hs_log s);
  so_events : events_since s i k = seen ++ pending s i k;
  so_last : sb_last sub = default zero_event (last seen);
  so_wake : awake s i k sub ∨ last got = last seen;
  so_cause : awake s i k sub → seen ≠ [];
  so_follows : follows got seen
}.

Record hinv (s : HState) : Prop := {
  hi_wf : hub_wf (hs_hub s);
  hi_reading i : i ∈ hs_reading s → is_Some (hb_heap (hs_hub s) !! i);
  hi_busy x e l b : hs_busy s !! x = Some (e, l, b) →
    x = stripeOf (ev_Key e) ∧ NoDup l ∧ ∀ i, i ∈ l → watches s i (ev_Key e);
  hi_sub i k : watches s i k → ∃ sub seen got,
    hb_heap (hs_hub s) !! i = Some sub ∧ hs_seen s !! i = Some seen ∧ hs_got s !! i = Some got ∧
    sub_ok s i k sub seen got
}.

Lemma follows_app got seen e : follows got seen → follows got (seen ++ [e]).
Proof.
  intros (js & Hs & Hf). exists js. split; [done|]. eapply Forall2_impl; [exact Hf|].
  intros j x. apply lookup_app_l_Some.
Qed.

Lemma follows_read got seen e : follows got seen → last seen = Some e → follows (got ++ [e]) seen.
Proof.
  intros (js & Hs & Hf) He. exists (js ++ [pred (length seen)]). rewrite last_lookup in He. split.
  - apply StronglySorted_snoc; [done|]. apply Forall_forall. intros j Hj.
    apply list_elem_of_lookup_1 in Hj as [n Hn]. destruct (Forall2_lookup_l _ _ _ _ _ Hf Hn) as (x & _ & Hx).
    apply lookup_lt_Some in Hx. lia.
  - apply Forall2_app; [done|]. by constructor.
Qed.

Lemma watched_key s i k k' : hinv s → watches s i k → watches s i k' → k = k'.
Proof.
  intros Hs H1 H2. destruct (watched_sub _ _ _ (hi_wf _ Hs) H1) as (s1 & E1 & <-).
  destruct (watched_sub _ _ _ (hi_wf _ Hs) H2) as (s2 & E2 & <-). congruence.
Qed.

(** What [sub_ok] reads of a state. *)
Lemma sub_ok_ext s s' i k sub sub' seen got :
  sub_ok s i k sub seen got →
  events_since s' i k = events_since s i k → default 0 (hs_since s' !! i) ≤ length (hs_log s') →
  hs_busy s' !! stripeOf k = hs_busy s !! stripeOf k → (i ∈ hs_reading s' ↔ i ∈ hs_reading s) →
  sb_ch sub' = sb_ch sub → sb_last sub' = sb_last sub → sub_ok s' i k sub' seen got.
Proof.
  intros [H1 H2 H3 H4 H5 H6] Hev Hsn Hb Hr Hch Hl.
  assert (awake s' i k sub' ↔ awake s i k sub) as Haw by by rewrite /awake /sending Hb Hr Hch.
  split; [done| | |by rewrite Haw|by rewrite Haw|done].
  - by rewrite Hev H2 /pending Hb.
  - by rewrite Hl.
Qed.

Lemma hinv_init : hinv hinit.
Proof.
  split; [apply NewHub_wf|done|done|]. intros i k Hi. exfalso. revert Hi. rewrite /watches /subsAt /=.
  destruct (lookup_lt_is_Some_2 (replicate numStripes (∅ : stripe)) (stripeOf k)) as [st Hst];
    [rewrite length_replicate; apply stripeOf_lt|].
  rewrite Hst. apply lookup_replicate in Hst as [-> _]. cbn. rewrite lookup_empty. set_solver.
Qed.

Lemma hinv_subscribe s a h' i :
  hinv s → free s (sa_Key a) → Subscribe (hs_hub s) a = Some (h', i) →
  hinv {| hs_hub := h'; hs_busy := hs_busy s; hs_reading := hs_reading s; hs_log := hs_log s;
          hs_since := <[i := length (hs_log s)]> (hs_since s); hs_seen := <[i := []]> (hs_seen s);
          hs_got := <[i := []]> (hs_got s) |}.
Proof.
  intros Hs Hfree Hsub. destruct (Subscribe_spec _ _ _ _ (hi_wf _ Hs) Hsub) as (Hwf & Hnone & Hheap & Hat).
  assert (∀ j k, watches s j k → j ≠ i) as Hne.
  { intros j k Hj ->. destruct (watched_sub _ _ _ (hi_wf _ Hs) Hj) as (? & ? & _). congruence. }
  split; cbn; [done| | |].
  - intros j Hj. rewrite Hheap lookup_insert. case_decide; [done|]. by apply (hi_reading _ Hs).
  - intros x e l b Hb. destruct (hi_busy _ Hs _ _ _ _ Hb) as (? & ? & Hl). split_and!; [done..|].
    intros j Hj. apply Hat. left. by apply Hl.
  - intros j k [Hj|[-> ->]]%Hat.
    + pose proof (Hne _ _ Hj). rewrite Hheap !lookup_insert_ne //.
      destruct (hi_sub _ Hs _ _ Hj) as (sub & seen & got & E1 & E2 & E3 & Hok). exists sub, seen, got. split_and!; [done..|].
      eapply sub_ok_ext; [exact Hok|..]; rewrite /events_since /= ?lookup_insert_ne //. apply Hok.
    + rewrite Hheap !lookup_insert_eq. exists (newSub a), [], []. split_and!; [done..|].
      assert (¬ awake s i (sa_Key a) (newSub a)) as Hno.
      { intros [?|[Hr|(e & l & Hb & _)]]; [done| |congruence]. apply (hi_reading _ Hs) in Hr as [? ?]. congruence. }
      split; [by rewrite /= lookup_insert_eq| |done|by right|by intros ?%Hno|exists []; split; constructor].
      by rewrite /events_since /pending /= lookup_insert_eq /= drop_all Hfree.
Qed.

Lemma hinv_close s i sub :
  hinv s → hb_heap (hs_hub s) !! i = Some sub → free s (sb_key sub) →
  hinv {| hs_hub := Close (hs_hub s) i; hs_busy := hs_busy s; hs_reading := hs_reading s; hs_log := hs_log s;
          hs_since := hs_since s; hs_seen := hs_seen s; hs_got := hs_got s |}.
Proof.
  intros Hs Hi Hfree. destruct (Close_spec _ _ _ (hi_wf _ Hs) Hi) as (Hwf & Hheap & Hat).
  split; cbn; [done| | |].
  - intros j Hj. rewrite Hheap. by apply (hi_reading _ Hs).
  - intros x e l b Hb. destruct (hi_busy _ Hs _ _ _ _ Hb) as (-> & ? & Hl). split_and!; [done..|].
    intros j Hj. apply Hat. split; [by apply Hl|]. intros ->.
    destruct (watched_sub _ _ _ (hi_wf _ Hs) (Hl _ Hj)) as (sub' & E & Hk).
    rewrite Hi in E. injection E as <-. rewrite /free Hk in Hfree. congruence.
  - intros j k [Hj _]%Hat. destruct (hi_sub _ Hs _ _ Hj) as (sub' & seen & got & E1 & E2 & E3 & Hok).
    exists sub', seen, got. rewrite Hheap. split_and!; [done..|]. eapply sub_ok_ext; [exact Hok|..]; try done. apply Hok.
Qed.

Lemma hinv_start s e l :
  hinv s → free s (ev_Key e) → l ≡ₚ elements (subsAt (hs_hub s) (ev_Key e)) →
  hinv {| hs_hub := hs_hub s; hs_busy := <[stripeOf (ev_Key e) := (e, l, false)]> (hs_busy s);
          hs_reading := hs_reading s; hs_log := hs_log s ++ [e];
          hs_since := hs_since s; hs_seen := hs_seen s; hs_got := hs_got s |}.
Proof.
  intros Hs Hfree Hl. assert (∀ j, j ∈ l ↔ watches s j (ev_Key e)) as Hmem.
  { intros j. by rewrite Hl elem_of_elements. }
  split; cbn; [apply Hs|apply Hs| |].
  - intros x e' l' b. rewrite lookup_insert. case_decide as Hx; [|by apply Hs]. intros [= <- <- <-]. split_and!; [done| |].
    + rewrite Hl. apply NoDup_elements.
    + intros j. apply Hmem.
  - intros j k Hj. destruct (hi_sub _ Hs _ _ Hj) as (sub & seen & got & E1 & E2 & E3 & [H1 H2 H3 H4 H5 H6]).
    exists sub, seen, got. split_and!; [done..|].
    assert (∀ s', hs_busy s' = <[stripeOf (ev_Key e) := (e, l, false)]> (hs_busy s) → hs_reading s' = hs_reading s →
      awake s' j k sub ↔ awake s j k sub) as Haw.
    { intros s' Hb Hr. rewrite /awake /sending Hb Hr lookup_insert. case_decide as Hk; [|done].
      split; (intros [?|[?|(e' & l' & Hbl & _)]]; [by left|by right; left|]); [done|congruence]. }
    split; cbn; [rewrite length_app; lia| |done|by rewrite Haw|by rewrite Haw|done].
    rewrite /events_since /= drop_app_le // filter_app -/(events_since s j k) H2.
    rewrite -app_assoc. f_equal. rewrite /pending /= lookup_insert filter_cons filter_nil.
    destruct (decide (stripeOf (ev_Key e) = stripeOf k)) as [Hk|Hk].
    + rewrite -Hk Hfree /=. destruct (decide (ev_Key e = k)) as [<-|Hne]; cycle 1.
      { rewrite decide_False //. by intros [? _]. }
      rewrite decide_True //. split; [done|]. by apply Hmem.
    + rewrite decide_False ?app_nil_r //. congruence.
Qed.

(** Another key in the same stripe is not concerned by a running [Notify]. *)
Lemma pending_other s s' i k e l b l' b' :
  hs_busy s !! stripeOf (ev_Key e) = Some (e, l, b) →
  hs_busy s' = <[stripeOf (ev_Key e) := (e, l', b')]> (hs_busy s) → ev_Key e ≠ k →
  pending s' i k = pending s i k ∧ (sending s' i k ↔ sending s i k).
Proof.
  intros Hb Hb' Hk. rewrite /pending /sending Hb' lookup_insert. case_decide as Hx; [|done].
  rewrite -Hx Hb. rewrite !decide_False; [by intros [? _]..|]. split; [done|].
  split; intros (e' & l1 & [= <- _ _] & ?); done.
Qed.

Lemma sub_ok_other s s' i k sub seen got e l b l' b' :
  sub_ok s i k sub seen got → hs_busy s !! stripeOf (ev_Key e) = Some (e, l, b) →
  hs_busy s' = <[stripeOf (ev_Key e) := (e, l', b')]> (hs_busy s) → ev_Key e ≠ k →
  hs_since s' = hs_since s → hs_log s' = hs_log s → hs_reading s' = hs_reading s → sub_ok s' i k sub seen got.
Proof.
  intros [H1 H2 H3 H4 H5 H6] Hb Hb' Hk Hsn Hlog Hr.
  destruct (pending_other s s' i k e l b l' b' Hb Hb' Hk) as [Hp Hsd].
  assert (awake s' i k sub ↔ awake s i k sub) as Haw by by rewrite /awake Hsd Hr.
  split; [by rewrite Hsn Hlog| |done|by rewrite Haw|by rewrite Haw|done].
  by rewrite /events_since Hsn Hlog -/(events_since s i k) H2 Hp.
Qed.

Lemma hinv_busy s s' x e l b l' b' :
  hinv s → hs_busy s !! x = Some (e, l, b) → hs_busy s' = <[x := (e, l', b')]> (hs_busy s) → l' `sublist_of` l →
  (∀ i k, watches s' i k ↔ watches s i k) →
  ∀ x e l b, hs_busy s' !! x = Some (e, l, b) → x = stripeOf (ev_Key e) ∧ NoDup l ∧ ∀ i, i ∈ l → watches s' i (ev_Key e).
Proof.
  intros Hs Hb Hb' Hsub Hw y e1 l1 b1. rewrite Hb' lookup_insert. case_decide as Hy.
  - intros [= <- <- <-]. subst y. destruct (hi_busy _ Hs _ _ _ _ Hb) as (-> & Hnd & Hl). split_and!; [done|by eapply sublist_NoDup|].
    intros j Hj. apply Hw, Hl. by eapply elem_of_sublist.
  - intros Hy1. destruct (hi_busy _ Hs _ _ _ _ Hy1) as (-> & Hnd & Hl). split_and!; [done..|]. intros j Hj. by apply Hw, Hl.
Qed.

Lemma hinv_set s x e i l :
  hinv s → hs_busy s !! x = Some (e, i :: l, false) →
  hinv {| hs_hub := alterHeap (hs_hub s) (signalSet e) i; hs_busy := <[x := (e, i :: l, true)]> (hs_busy s);
          hs_reading := hs_reading s; hs_log := hs_log s;
          hs_since := hs_since s; hs_seen := alter (λ es, es ++ [e]) i (hs_seen s); hs_got := hs_got s |}.
Proof.
  intros Hs Hb. destruct (hi_busy _ Hs _ _ _ _ Hb) as (-> & [Hil Hnd]%NoDup_cons & Hl).
  assert (watches s i (ev_Key e)) as Hi by (apply Hl; by left).
  split; [by apply alterHeap_wf, Hs| |by eapply hinv_busy|].
  { intros j Hj. cbn. rewrite lookup_alter. case_decide; [|by apply (hi_reading _ Hs)].
    apply fmap_is_Some. subst. by apply (hi_reading _ Hs). }
  intros j k Hj. destruct (hi_sub _ Hs _ _ Hj) as (sub & seen & got & E1 & E2 & E3 & Hok). cbn.
  destruct (decide (i = j)) as [<-|Hne].
  - assert (k = ev_Key e) as -> by by eapply watched_key.
    rewrite !lookup_alter !decide_True // E1 E2 /=. exists (signalSet e sub), (seen ++ [e]), got. split_and!; [done..|].
    destruct Hok as [H1 H2 H3 H4 H5 H6]. split; cbn.
    + done.
    + rewrite /events_since /= -/(events_since s i (ev_Key e)) H2 /pending /= Hb lookup_insert_eq.
      rewrite decide_True; [split; [done|by left]|]. rewrite decide_False ?app_nil_r //=. by intros [_ ?].
    + by rewrite last_snoc.
    + left. right. right. exists e, l. by rewrite /= lookup_insert_eq.
    + intros _. by destruct seen.
    + by apply follows_app.
  - exists sub, seen, got. rewrite !lookup_alter !decide_False //. split_and!; [done..|].
    destruct (decide (ev_Key e = k)) as [<-|Hk].
    + destruct Hok as [H1 H2 H3 H4 H5 H6].
      assert (∀ s', hs_busy s' = <[stripeOf (ev_Key e) := (e, i :: l, true)]> (hs_busy s) → hs_reading s' = hs_reading s →
        awake s' j (ev_Key e) sub ↔ awake s j (ev_Key e) sub) as Haw.
      { intros s' Hb' Hr. rewrite /awake /sending Hb' Hr lookup_insert_eq Hb. naive_solver. }
      split; cbn; [done| |done|by rewrite Haw|by rewrite Haw|done].
      rewrite /events_since /= -/(events_since s j (ev_Key e)) H2 /pending /= Hb lookup_insert_eq. f_equal.
      apply decide_ext. cbn. set_solver.
    + by eapply sub_ok_other.
Qed.

Lemma hinv_send s x e i l :
  hinv s → hs_busy s !! x = Some (e, i :: l, true) →
  hinv {| hs_hub := alterHeap (hs_hub s) signalSend i; hs_busy := <[x := (e, l, false)]> (hs_busy s);
          hs_reading := hs_reading s; hs_log := hs_log s;
          hs_since := hs_since s; hs_seen := hs_seen s; hs_got := hs_got s |}.
Proof.
  intros Hs Hb. destruct (hi_busy _ Hs _ _ _ _ Hb) as (-> & [Hil Hnd]%NoDup_cons & Hl).
  assert (watches s i (ev_Key e)) as Hi by (apply Hl; by left).
  split; [by apply alterHeap_wf, Hs| |eapply hinv_busy; [done..| |done]; by apply sublist_cons|].
  { intros j Hj. cbn. rewrite lookup_alter. case_decide; [|by apply (hi_reading _ Hs)].
    apply fmap_is_Some. subst. by apply (hi_reading _ Hs). }
  intros j k Hj. destruct (hi_sub _ Hs _ _ Hj) as (sub & seen & got & E1 & E2 & E3 & Hok). cbn.
  destruct (decide (ev_Key e = k)) as [<-|Hk]; cycle 1.
  { assert (i ≠ j) by (intros ->; eapply Hk; by eapply watched_key).
    exists sub, seen, got. rewrite lookup_alter decide_False //. split_and!; [done..|]. by eapply sub_ok_other. }
  destruct Hok as [H1 H2 H3 H4 H5 H6].
  assert (∀ s', hs_busy s' = <[stripeOf (ev_Key e) := (e, l, false)]> (hs_busy s) →
    pending s' j (ev_Key e) = pending s j (ev_Key e)) as Hpend.
  { intros s' Hb'. rewrite /pending Hb' lookup_insert_eq Hb //. }
  destruct (decide (i = j)) as [<-|Hne].
  - exists (signalSend sub), seen, got. rewrite lookup_alter decide_True // E1. split_and!; [done..|].
    split; cbn; [done| |done|by left; left| |done].
    + rewrite Hpend //.
    + intros _. apply H5. right. right. exists e, l. done.
  - exists sub, seen, got. rewrite lookup_alter decide_False //. split_and!; [done..|].
    assert (∀ s', hs_busy s' = <[stripeOf (ev_Key e) := (e, l, false)]> (hs_busy s) → hs_reading s' = hs_reading s →
      awake s' j (ev_Key e) sub ↔ awake s j (ev_Key e) sub) as Haw.
    { intros s' Hb' Hr. rewrite /awake /sending Hb' Hr lookup_insert_eq Hb. naive_solver. }
    split; cbn; [done| |done|by rewrite Haw|by rewrite Haw|done]. rewrite Hpend //.
Qed.

Lemma hinv_end s x e :
  hinv s → hs_busy s !! x = Some (e, [], false) →
  hinv {| hs_hub := hs_hub s; hs_busy := delete x (hs_busy s); hs_reading := hs_reading s; hs_log := hs_log s;
          hs_since := hs_since s; hs_seen := hs_seen s; hs_got := hs_got s |}.
Proof.
  intros Hs Hb. split; cbn; [apply Hs|apply Hs| |].
  - intros y e' l b. rewrite lookup_delete. case_decide; [done|]. apply Hs.
  - intros j k Hj. destruct (hi_sub _ Hs _ _ Hj) as (sub & seen & got & E1 & E2 & E3 & [H1 H2 H3 H4 H5 H6]).
    exists sub, seen, got. split_and!; [done..|].
    assert (∀ s', hs_busy s' = delete x (hs_busy s) → hs_reading s' = hs_reading s →
      pending s' j k = pending s j k ∧ (awake s' j k sub ↔ awake s j k sub)) as Haw.
    { intros s' Hb' Hr. rewrite /pending /awake /sending Hb' Hr lookup_delete. case_decide as Hx; [|done]. subst x. rewrite Hb.
      rewrite decide_False; [by intros [_ ?%elem_of_nil]|]. naive_solver. }
    split; cbn; [done| |done|by edestruct Haw as [_ ->]|by edestruct Haw as [_ ->]|done].
    by edestruct Haw as [-> _].
Qed.

Lemma hinv_receive s i sub :
  hinv s → hb_heap (hs_hub s) !! i = Some sub → sb_ch sub = true →
  hinv {| hs_hub := alterHeap (hs_hub s) receive i; hs_busy := hs_busy s;
          hs_reading := hs_reading s ∪ {[i]}; hs_log := hs_log s;
          hs_since := hs_since s; hs_seen := hs_seen s; hs_got := hs_got s |}.
Proof.
  intros Hs Hi Hch. split; cbn; [by apply alterHeap_wf, Hs| |apply Hs|].
  - intros j Hj. rewrite lookup_alter. case_decide as He; [subst; rewrite Hi; eauto|]. apply (hi_reading _ Hs). set_solver.
  - intros j k Hj. destruct (hi_sub _ Hs _ _ Hj) as (sub' & seen & got & E1 & E2 & E3 & Hok).
    rewrite lookup_alter. destruct (decide (i = j)) as [<-|Hne].
    + rewrite E1. exists (receive sub'), seen, got. split_and!; [done..|]. rewrite Hi in E1. injection E1 as <-.
      destruct Hok as [H1 H2 H3 H4 H5 H6]. split; cbn; [done..| | |done].
      * left. right. left. cbn. set_solver.
      * intros _. apply H5. by left.
    + exists sub', seen, got. split_and!; [done..|]. eapply sub_ok_ext; [exact Hok|..]; try done; [apply Hok|]. cbn. set_solver.
Qed.

Lemma hinv_read s i sub :
  hinv s → hb_heap (hs_hub s) !! i = Some sub → i ∈ hs_reading s →
  hinv {| hs_hub := hs_hub s; hs_busy := hs_busy s; hs_reading := hs_reading s ∖ {[i]}; hs_log := hs_log s;
          hs_since := hs_since s; hs_seen := hs_seen s;
          hs_got := alter (λ es, es ++ [sb_last sub]) i (hs_got s) |}.
Proof.
  intros Hs Hi Hr. split; cbn; [apply Hs| |apply Hs|].
  - intros j Hj. apply (hi_reading _ Hs). set_solver.
  - intros j k Hj. destruct (hi_sub _ Hs _ _ Hj) as (sub' & seen & got & E1 & E2 & E3 & Hok).
    rewrite lookup_alter. destruct (decide (i = j)) as [<-|Hne].
    + rewrite E3. rewrite Hi in E1. injection E1 as <-. exists sub, seen, (got ++ [sb_last sub]). split_and!; [done..|].
      destruct Hok as [H1 H2 H3 H4 H5 H6].
      assert (seen ≠ []) as Hseen by (apply H5; right; by left).
      destruct (last seen) as [e|] eqn:El; [|by apply last_None in El]. cbn in H3.
      split; cbn; [done..| | | |].
      * by rewrite El.
      * right. by rewrite last_snoc El H3.
      * done.
      * rewrite H3. by apply follows_read.
    + exists sub', seen, got. split_and!; [done..|]. eapply sub_ok_ext; [exact Hok|..]; try done; [apply Hok|]. cbn. set_solver.
Qed.

Lemma hreachable_inv s : hreachable s → hinv s.
Proof.
  intros Hr. refine (rtc_ind_r (λ s, hinv s) hinit hinv_init _ s Hr). clear s Hr. intros s s' _ Hstep IH.
  destruct Hstep.
  - by eapply hinv_subscribe.
  - by eapply hinv_close.
  - by apply hinv_start.
  - by apply hinv_set.
  - by eapply hinv_send.
  - by eapply hinv_end.
  - by eapply hinv_receive.
  - by apply hinv_read.
Qed.

(** ** The methods as runs of the interleaving *)

(** The loop of [Notify] over the subscriptions left. *)
Lemma signals_run s x e l :
  hs_busy s !! x = Some (e, l, false) →
  ∃ s', rtc hstep s s' ∧ hs_busy s' = delete x (hs_busy s) ∧ hs_log s' = hs_log s ∧
    hs_reading s' = hs_reading s ∧ hs_since s' = hs_since s ∧
    hs_hub s' = {| hb_stripes := hb_stripes (hs_hub s);
                   hb_heap := foldl (λ hp i, alter (signal e) i hp) (hb_heap (hs_hub s)) l |}.
Proof.
  revert s. induction l as [|i l IH]; intros s Hb.
  - eexists. split; [by eapply rtc_once, step_end|]. split_and!; try done. cbn. by destruct (hs_hub s).
  - destruct (IH {| hs_hub := alterHeap (alterHeap (hs_hub s) (signalSet e) i) signalSend i;
                    hs_busy := <[x := (e, l, false)]> (<[x := (e, i :: l, true)]> (hs_busy s));
                    hs_reading := hs_reading s; hs_log := hs_log s;
                    hs_since := hs_since s; hs_seen := alter (λ es, es ++ [e]) i (hs_seen s); hs_got := hs_got s |})
      as (s' & Hrun & Hb' & Hlog & Hr & Hsn & Hh); [by rewrite /= lookup_insert_eq|].
    exists s'. split_and!; [|by rewrite Hb' /= insert_insert_eq delete_insert_eq|done|done|done|].
    + eapply rtc_l; [by apply step_set|]. eapply rtc_l; [|exact Hrun].
      by eapply (step_send (Build_HState _ _ _ _ _ _ _) x e i l); rewrite /= lookup_insert_eq.
    + rewrite Hh /=. f_equal. by rewrite alter_alter_eq.
Qed.

Lemma notify_run s e :
  free s (ev_Key e) →
  ∃ s', rtc hstep s s' ∧ hs_hub s' = Notify (hs_hub s) e ∧ hs_log s' = hs_log s ++ [e] ∧ hs_reading s' = hs_reading s ∧
    hs_busy s' = hs_busy s ∧ hs_since s' = hs_since s.
Proof.
  intros Hf. destruct (signals_run
    {| hs_hub := hs_hub s; hs_busy := <[stripeOf (ev_Key e) := (e, elements (subsAt (hs_hub s) (ev_Key e)), false)]> (hs_busy s);
       hs_reading := hs_reading s; hs_log := hs_log s ++ [e];
       hs_since := hs_since s; hs_seen := hs_seen s; hs_got := hs_got s |} (stripeOf (ev_Key e)) e
      (elements (subsAt (hs_hub s) (ev_Key e)))) as (s' & Hrun & Hb & Hlog & Hr & Hsn & Hh);
    [by rewrite /= lookup_insert_eq|].
  exists s'. split_and!; try done.
  - eapply rtc_l; [|exact Hrun]. by apply step_start.
  - by rewrite Hb /= delete_insert_id.
Qed.

Lemma next_run s i h' e :
  i ∉ hs_reading s → Next (hs_hub s) i false false = (h', Woken e) →
  ∃ s', rtc hstep s s' ∧ hs_hub s' = h' ∧ hs_log s' = hs_log s ∧ hs_reading s' = hs_reading s ∧
    hs_busy s' = hs_busy s ∧ hs_since s' = hs_since s ∧ hs_got s' = alter (λ es, es ++ [e]) i (hs_got s).
Proof.
  intros Hr. rewrite /Next. destruct (hb_heap (hs_hub s) !! i) as [sub|] eqn:E; [|done].
  destruct (sb_ch sub) eqn:Ech; cbn; [|done]. intros [= <- <-].
  eexists. split; [eapply rtc_l; [by eapply step_receive|]|].
  - eapply rtc_l; [|apply rtc_refl]. eapply (step_read _ i (receive sub)); cbn; [by rewrite lookup_alter decide_True // E|set_solver].
  - cbn. split_and!; [|done| |done|done|done].
    + rewrite /alterHeap. f_equal. apply map_eq. intros j. rewrite lookup_alter lookup_insert. case_decide; [by subst; rewrite E|done].
    + set_solver.
Qed.

(** ** Observers *)
Lemma elem_of_collectIn h key st k i :
  (k, i) ∈ collectIn h key st ↔
  (key = "" ∨ key = k) ∧ i ∈ default ∅ (st !! k) ∧ sb_track <$> hb_heap h !! i = Some true.
Proof.
  rewrite /collectIn list_elem_of_bind. split.
  - intros ([k' m] & Hin & Hm%elem_of_map_to_list). case_bool_decide as Hk; [by apply elem_of_nil in Hin|].
    apply list_elem_of_fmap in Hin as (j & [= -> ->] & [Ht Hj]%list_elem_of_filter).
    rewrite Hm /=. split_and!; [|by apply elem_of_elements|done]. destruct (decide (key = "")); [by left|].
    right. destruct (decide (k' = key)); [done|]. naive_solver.
  - intros (Hk & Hi & Ht). destruct (st !! k) as [m|] eqn:Em; cbn in Hi; [|set_solver]. exists (k, m).
    rewrite elem_of_map_to_list. split; [|done]. rewrite bool_decide_false; [naive_solver|].
    apply list_elem_of_fmap. exists i. split; [done|]. apply list_elem_of_filter. by rewrite elem_of_elements.
Qed.

Lemma elem_of_collected h key k i :
  hub_wf h →
  (k, i) ∈ collected h key ↔ (key = "" ∨ key = k) ∧ i ∈ subsAt h k ∧ sb_track <$> hb_heap h !! i = Some true.
Proof.
  intros Hwf. rewrite /collected. case_bool_decide as Hk.
  - rewrite elem_of_collectIn. split; (intros ([?|<-] & ? & ?); [done|]; split_and!; [by right|done|done]).
  - subst key. rewrite list_elem_of_bind. split.
    + intros (st & Hin & Hst). apply elem_of_collectIn in Hin as (_ & Hi & Ht). split_and!; [by left| |done].
      apply list_elem_of_lookup_1 in Hst as [x Hx]. destruct (st !! k) as [m|] eqn:Em; cbn in Hi; [|set_solver].
      destruct (hw_at _ Hwf _ _ _ _ Hx Em) as (-> & _ & _). by rewrite /subsAt Hx /= Em.
    + intros (_ & Hi & Ht). destruct (stripe_at h k Hwf) as [st Hst]. exists st.
      split; [|by eapply list_elem_of_lookup_2]. apply elem_of_collectIn. rewrite /subsAt Hst in Hi. split_and!; [by left|done|done].
Qed.

Lemma NoDup_collectIn h key st : NoDup (collectIn h key st).
Proof.
  rewrite /collectIn. apply NoDup_bind.
  - intros [k1 m1] [k2 m2] [k i] H1%elem_of_map_to_list H2%elem_of_map_to_list Hi1 Hi2.
    destruct (bool_decide (key ≠ "" ∧ k1 ≠ key)); [by apply elem_of_nil in Hi1|].
    destruct (bool_decide (key ≠ "" ∧ k2 ≠ key)); [by apply elem_of_nil in Hi2|].
    apply list_elem_of_fmap in Hi1 as (? & [= <- _] & _). apply list_elem_of_fmap in Hi2 as (? & [= <- _] & _). congruence.
  - intros [k m] _. case_bool_decide; [constructor|]. apply NoDup_fmap_2; [|apply NoDup_filter, NoDup_elements].
    by intros ? ? [= ->].
  - apply NoDup_map_to_list.
Qed.

Lemma NoDup_collected h key : hub_wf h → NoDup (collected h key).*2.
Proof.
  intros Hwf.
  assert (∀ i k1 k2, i ∈ subsAt h k1 → i ∈ subsAt h k2 → k1 = k2) as Hkey.
  { intros i k1 k2 H1 H2. destruct (watched_sub _ _ _ Hwf H1) as (? & ? & <-).
    destruct (watched_sub _ _ _ Hwf H2) as (? & ? & <-). congruence. }
  apply NoDup_fmap_2_strong.
  - intros [k1 i] [k2 i2] H1 H2 [= <-]. apply elem_of_collected in H1 as (_ & H1 & _); [|done].
    apply elem_of_collected in H2 as (_ & H2 & _); [|done]. by rewrite (Hkey _ _ _ H1 H2).
  - rewrite /collected. case_bool_decide; [apply NoDup_collectIn|].
    apply NoDup_bind_index; [|intros; apply NoDup_collectIn].
    intros x y st1 st2 [k i] H1 H2 Hi1 Hi2.
    apply elem_of_collectIn in Hi1 as (_ & Hi1 & _). apply elem_of_collectIn in Hi2 as (_ & Hi2 & _).
    destruct (st1 !! k) as [m1|] eqn:E1; cbn in Hi1; [|set_solver].
    destruct (st2 !! k) as [m2|] eqn:E2; cbn in Hi2; [|set_solver].
    destruct (hw_at _ Hwf _ _ _ _ H1 E1) as (-> & _). by destruct (hw_at _ Hwf _ _ _ _ H2 E2) as (-> & _).
Qed.

(** ** Properties *)

(** C24: a waiter never misses the latest event and never goes back.  In every
    state of the interleaving, for every open subscription: the events [Next]
    has returned are events of its key notified since it subscribed, in their
    order, some perhaps skipped or repeated; and when the caller is parked with
    no [Notify] running on its stripe, the last event returned is the last one
    notified. *)
Theorem waiter_never_misses s i k :
  hreachable s → watches s i k →
  ∃ got, hs_got s !! i = Some got ∧ follows got (events_since s i k) ∧
    (parked s i → free s k → last got = last (events_since s i k)).
Proof.
  intros Hs%hreachable_inv Hw. destruct (hi_sub _ Hs _ _ Hw) as (sub & seen & got & E1 & E2 & E3 & [H1 H2 H3 H4 H5 H6]).
  exists got. split_and!; [done| |].
  - rewrite H2. destruct H6 as (js & Hj & Hf). exists js. split; [done|]. eapply Forall2_impl; [exact Hf|].
    intros j e. apply lookup_app_l_Some.
  - intros [Hr (sub' & E & Hch)] Hfree. rewrite E1 in E. injection E as <-. rewrite H2 /pending Hfree app_nil_r.
    destruct H4 as [[?|[?|(e & l & Hb & _)]]|?]; [congruence|done| |done]. rewrite /free in Hfree. congruence.
Qed.

(** The hub's observer report is exact.  In every reachable state, for a key
    or for every key, [Observers] reports each open tracked subscription of that
    key once, under its key and identity, and nothing else. *)
Theorem observers_exact s key :
  hreachable s →
  ∃ ids, NoDup ids ∧
    (∀ i, i ∈ ids ↔ ∃ k sub, watches s i k ∧ hb_heap (hs_hub s) !! i = Some sub ∧ sb_track sub = true ∧
                      (key = "" ∨ key = k)) ∧
    Forall2 (λ i o, ∃ sub, hb_heap (hs_hub s) !! i = Some sub ∧
                      o = {| ob_Key := sb_key sub; ob_Identity := sb_identity sub |}) ids (Observers (hs_hub s) key).
Proof.
  intros Hs%hreachable_inv. pose proof (hi_wf _ Hs) as Hwf. exists (collected (hs_hub s) key).*2.
  split_and!; [by apply NoDup_collected| |].
  - intros i. rewrite list_elem_of_fmap. split.
    + intros ([k j] & -> & (Hk & Hw & (sub & E & Ht)%fmap_Some)%elem_of_collected); [|done]. by exists k, sub.
    + intros (k & sub & Hw & E & Ht & Hk). exists (k, i). split; [done|]. apply elem_of_collected; [done|].
      by rewrite E /= Ht.
  - rewrite /Observers Forall2_fmap. apply Forall_Forall2_diag, Forall_forall.
    intros [k i] (_ & Hw & _)%elem_of_collected; [|done]. destruct (watched_sub _ _ _ Hwf Hw) as (sub & E & <-).
    exists sub. by rewrite /identityOf E.
Qed.
End hub.

(** ** Witnesses: a subscription, an event and its delivery *)
Definition demo_hash (k : string) : N := N.of_nat (String.length k).
Definition demo_event : Event :=
  {| ev_Key := "/t/x"; ev_Holder := "a"; ev_Token := 1; ev_Value := None; ev_Revision := 2 |}.
Definition demo_args : SubArgs := {| sa_Key := "/t/x"; sa_Identity := "bob"; sa_Track := true |}.

Definition demo_hub : Hub := from_option fst NewHub (Subscribe demo_hash NewHub demo_args).
Definition demo_state : HState :=
  {| hs_hub := demo_hub; hs_busy := ∅; hs_reading := ∅; hs_log := []; hs_since := {[0 := 0]};
     hs_seen := {[0 := []]}; hs_got := {[0 := []]} |}.

Lemma demo_reachable : hreachable demo_hash demo_state.
Proof. apply rtc_once. exact (step_subscribe demo_hash hinit demo_args demo_hub 0 eq_refl eq_refl). Qed.

Lemma waiter_never_misses_witness : ∃ s got, hreachable demo_hash s ∧ hs_got s !! 0 = Some got ∧ last got = Some demo_event.
Proof.
  destruct (notify_run demo_hash demo_state demo_event eq_refl) as (s1 & R1 & H1 & L1 & D1 & B1 & N1).
  destruct (next_run demo_hash s1 0 (Next (Notify demo_hash demo_hub demo_event) 0 false false).1 demo_event)
    as (s2 & R2 & H2 & L2 & D2 & B2 & N2 & G2); [by rewrite D1|by rewrite H1|].
  assert (hreachable demo_hash s2) as Hr.
  { rewrite /hreachable. etransitivity; [|exact R2]. etransitivity; [exact demo_reachable|exact R1]. }
  destruct (waiter_never_misses demo_hash s2 0 "/t/x" Hr) as (got & Hg & _ & Hlast); [rewrite /watches H2; by vm_compute|].
  exists s2, got. split_and!; [done|done|]. rewrite Hlast.
  - split; [by rewrite D2 D1|]. rewrite H2. eexists. split; [vm_compute; reflexivity|done].
  - by rewrite /free B2 B1.
  - by rewrite /events_since L2 L1 N2 N1.
Defined.

Lemma observers_exact_witness :
  ∃ ids, NoDup ids ∧ 0 ∈ ids ∧ length (Observers demo_hash demo_hub "") = length ids.
Proof.
  destruct (observers_exact demo_hash demo_state "" demo_reachable) as (ids & Hnd & Hin & Hobs).
  exists ids. split_and!; [done| |by rewrite (Forall2_length _ _ _ Hobs)].
  apply Hin. exists "/t/x". eexists. split_and!; [by vm_compute|vm_compute; reflexivity|done|by left].
Defined.
