(* ===== verification/FsmWire.v ===== *)
(** * Wire format of the shard's commands, results and snapshots

    The [MarshalVT] and [UnmarshalVT] methods of fsmpb (fsm_vtproto.pb.go) for
    every message of fsm.proto: what is written for each field and how each
    field is stored when read.  Fields the schema does not know are skipped. *)
From S2P Require Import Prelude GoStrings Wire Keypath Fsm.
From Stdlib Require Import Ascii.

Local Open Scope Z_scope.

(** ** Command and its variants

    The variants as tuples of their fields, in order. *)
Definition pbAcquireLock : Type := string * string * bool.
Definition pbReleaseLock : Type := string * string * Z. (* also Resign *)
Definition pbCancelWait : Type := string * string.
Definition pbLeaseGrant : Type := string * Z * Z.
Definition pbLeaseStamp : Type := string * Z. (* LeaseKeepAlive and LeaseExpire *)
Definition pbLeaseRevoke : Type := string.
Definition pbCampaign : Type := string * string * gobytes.
Definition pbProclaim : Type := string * string * Z * gobytes.

Definition schemaAcquireLock : schema pbAcquireLock := fields
  [str (λ '(_, c, t) v, (v, c, t)); str (λ '(n, _, t) v, (n, v, t)); boolf (λ '(n, c, _) v, (n, c, v))].
Definition schemaReleaseLock : schema pbReleaseLock := fields
  [str (λ '(_, c, t) v, (v, c, t)); str (λ '(n, _, t) v, (n, v, t)); u64f (λ '(n, c, _) v, (n, c, v))].
Definition schemaCancelWait : schema pbCancelWait := fields
  [str (λ '(_, c) v, (v, c)); str (λ '(n, _) v, (n, v))].
Definition schemaLeaseGrant : schema pbLeaseGrant := fields
  [str (λ '(_, t, w) v, (v, t, w)); i64f (λ '(c, _, w) v, (c, v, w)); i64f (λ '(c, t, _) v, (c, t, v))].
Definition schemaLeaseStamp : schema pbLeaseStamp := fields
  [str (λ '(_, w) v, (v, w)); i64f (λ '(c, _) v, (c, v))].
Definition schemaLeaseRevoke : schema pbLeaseRevoke := fields [str (λ _ v, v)].
Definition schemaCampaign : schema pbCampaign := fields
  [str (λ '(_, c, x) v, (v, c, x)); str (λ '(n, _, x) v, (n, v, x)); byt (λ '(n, c, _) v, (n, c, v))].
Definition schemaProclaim : schema pbProclaim := fields
  [str (λ '(_, c, t, x) v, (v, c, t, x)); str (λ '(n, _, t, x) v, (n, v, t, x));
   u64f (λ '(n, c, _, x) v, (n, c, v, x)); byt (λ '(n, c, t, _) v, (n, c, t, v))].

(** What each variant's encoder writes. *)
Definition emitAcquireLock : pbAcquireLock → list (Z * wval) :=
  λ '(n, c, t), emitString 1 n ++ emitString 2 c ++ emitBool 3 t ++ [].
Definition emitReleaseLock : pbReleaseLock → list (Z * wval) :=
  λ '(n, c, t), emitString 1 n ++ emitString 2 c ++ emitU64 3 t ++ [].
Definition emitCancelWait : pbCancelWait → list (Z * wval) :=
  λ '(n, c), emitString 1 n ++ emitString 2 c ++ [].
Definition emitLeaseGrant : pbLeaseGrant → list (Z * wval) :=
  λ '(c, t, w), emitString 1 c ++ emitI64 2 t ++ emitI64 3 w ++ [].
Definition emitLeaseStamp : pbLeaseStamp → list (Z * wval) :=
  λ '(c, w), emitString 1 c ++ emitI64 2 w ++ [].
Definition emitLeaseRevoke : pbLeaseRevoke → list (Z * wval) := λ c, emitString 1 c ++ [].
Definition emitCampaign : pbCampaign → list (Z * wval) :=
  λ '(n, c, v), emitString 1 n ++ emitString 2 c ++ emitBytes 3 v ++ [].
Definition emitProclaim : pbProclaim → list (Z * wval) :=
  λ '(n, c, t, v), emitString 1 n ++ emitString 2 c ++ emitU64 3 t ++ emitBytes 4 v ++ [].

(** The oneof: a variant is merged into one of the same kind that was already
    read, and replaces any other. *)
Definition variant {V} (s : schema V) (zero : V) (get : Cmd → option V) (put : V → Cmd) : wfield Command :=
  FBytes (λ m b,
    let old := match GetCmd m with Some c => default zero (get c) | None => zero end in
    match unmarshal s old b with
    | Ok v => Ok {| GetCmd := Some (put v) |}
    | Err e => Err e
    end).

Definition getAcquireLock (c : Cmd) : option pbAcquireLock :=
  match c with AcquireLock n i t => Some (n, i, t) | _ => None end.
Definition getReleaseLock (c : Cmd) : option pbReleaseLock :=
  match c with ReleaseLock n i t => Some (n, i, t) | _ => None end.
Definition getCancelWait (c : Cmd) : option pbCancelWait :=
  match c with CancelWait n i => Some (n, i) | _ => None end.
Definition getLeaseGrant (c : Cmd) : option pbLeaseGrant :=
  match c with LeaseGrant i t w => Some (i, t, w) | _ => None end.
Definition getLeaseKeepAlive (c : Cmd) : option pbLeaseStamp :=
  match c with LeaseKeepAlive i w => Some (i, w) | _ => None end.
Definition getLeaseRevoke (c : Cmd) : option pbLeaseRevoke :=
  match c with LeaseRevoke i => Some i | _ => None end.
Definition getLeaseExpire (c : Cmd) : option pbLeaseStamp :=
  match c with LeaseExpire i w => Some (i, w) | _ => None end.
Definition getCampaign (c : Cmd) : option pbCampaign :=
  match c with Campaign n i v => Some (n, i, v) | _ => None end.
Definition getProclaim (c : Cmd) : option pbProclaim :=
  match c with Proclaim n i t v => Some (n, i, t, v) | _ => None end.
Definition getResign (c : Cmd) : option pbReleaseLock :=
  match c with Resign n i t => Some (n, i, t) | _ => None end.

Definition schemaCommand : schema Command := fields
  [variant schemaAcquireLock ("", "", false) getAcquireLock (λ '(n, c, t), AcquireLock n c t);
   variant schemaReleaseLock ("", "", 0) getReleaseLock (λ '(n, c, t), ReleaseLock n c t);
   variant schemaCancelWait ("", "") getCancelWait (λ '(n, c), CancelWait n c);
   variant schemaLeaseGrant ("", 0, 0) getLeaseGrant (λ '(c, t, w), LeaseGrant c t w);
   variant schemaLeaseStamp ("", 0) getLeaseKeepAlive (λ '(c, w), LeaseKeepAlive c w);
   variant schemaLeaseRevoke "" getLeaseRevoke (λ c, LeaseRevoke c);
   variant schemaLeaseStamp ("", 0) getLeaseExpire (λ '(c, w), LeaseExpire c w);
   variant schemaCampaign ("", "", None) getCampaign (λ '(n, c, v), Campaign n c v);
   variant schemaProclaim ("", "", 0, None) getProclaim (λ '(n, c, t, v), Proclaim n c t v);
   variant schemaReleaseLock ("", "", 0) getResign (λ '(n, c, t), Resign n c t)].

Definition emitCmd (c : Cmd) : list (Z * wval) :=
  match c with
  | AcquireLock n i t => emitMessage 1 (marshal (emitAcquireLock (n, i, t)))
  | ReleaseLock n i t => emitMessage 2 (marshal (emitReleaseLock (n, i, t)))
  | CancelWait n i => emitMessage 3 (marshal (emitCancelWait (n, i)))
  | LeaseGrant i t w => emitMessage 4 (marshal (emitLeaseGrant (i, t, w)))
  | LeaseKeepAlive i w => emitMessage 5 (marshal (emitLeaseStamp (i, w)))
  | LeaseRevoke i => emitMessage 6 (marshal (emitLeaseRevoke i))
  | LeaseExpire i w => emitMessage 7 (marshal (emitLeaseStamp (i, w)))
  | Campaign n i v => emitMessage 8 (marshal (emitCampaign (n, i, v)))
  | Proclaim n i t v => emitMessage 9 (marshal (emitProclaim (n, i, t, v)))
  | Resign n i t => emitMessage 10 (marshal (emitReleaseLock (n, i, t)))
  end.

Definition emitCommand (m : Command) : list (Z * wval) :=
  match GetCmd m with Some c => emitCmd c ++ [] | None => [] end.

Definition MarshalCommand (m : Command) : list ascii := marshal (emitCommand m).
Definition UnmarshalCommand (l : list ascii) : result Command WireError :=
  unmarshal schemaCommand {| GetCmd := None |} l.

(** ** CommandResult

    Read back, the outcome is a number: the enum is open. *)
Definition outcomeNumber (o : Outcome) : Z :=
  match o with
  | OUTCOME_UNKNOWN => 0 | OUTCOME_GRANTED => 1 | OUTCOME_QUEUED => 2 | OUTCOME_NOT_ACQUIRED => 3
  | OUTCOME_RELEASED => 4 | OUTCOME_NOT_HOLDER => 5 | OUTCOME_STALE_TOKEN => 6 | OUTCOME_NO_LEASE => 7
  | OUTCOME_LEASE_GRANTED => 8 | OUTCOME_LEASE_RENEWED => 9 | OUTCOME_LEASE_REVOKED => 10
  | OUTCOME_LEASE_EXPIRED => 11 | OUTCOME_VALUE_UPDATED => 12 | OUTCOME_NOT_FOUND => 13 | OUTCOME_NOOP => 14
  end.

Record pbResult := {
  pr_Outcome : Z; pr_Revision : Z; pr_FencingToken : Z; pr_LockKey : string; pr_QueuePosition : Z;
  pr_CurrentHolder : string; pr_LeaseDeadline : Z; pr_Value : gobytes
}.

Definition pbResult0 : pbResult :=
  {| pr_Outcome := 0; pr_Revision := 0; pr_FencingToken := 0; pr_LockKey := ""; pr_QueuePosition := 0;
     pr_CurrentHolder := ""; pr_LeaseDeadline := 0; pr_Value := None |}.

Definition resultSchema : schema pbResult := fields
  [i32f (λ m v, Build_pbResult v (pr_Revision m) (pr_FencingToken m) (pr_LockKey m)
     (pr_QueuePosition m) (pr_CurrentHolder m) (pr_LeaseDeadline m) (pr_Value m));
   u64f (λ m v, Build_pbResult (pr_Outcome m) v (pr_FencingToken m) (pr_LockKey m)
     (pr_QueuePosition m) (pr_CurrentHolder m) (pr_LeaseDeadline m) (pr_Value m));
   u64f (λ m v, Build_pbResult (pr_Outcome m) (pr_Revision m) v (pr_LockKey m)
     (pr_QueuePosition m) (pr_CurrentHolder m) (pr_LeaseDeadline m) (pr_Value m));
   str (λ m v, Build_pbResult (pr_Outcome m) (pr_Revision m) (pr_FencingToken m) v
     (pr_QueuePosition m) (pr_CurrentHolder m) (pr_LeaseDeadline m) (pr_Value m));
   u32f (λ m v, Build_pbResult (pr_Outcome m) (pr_Revision m) (pr_FencingToken m) (pr_LockKey m)
     v (pr_CurrentHolder m) (pr_LeaseDeadline m) (pr_Value m));
   str (λ m v, Build_pbResult (pr_Outcome m) (pr_Revision m) (pr_FencingToken m) (pr_LockKey m)
     (pr_QueuePosition m) v (pr_LeaseDeadline m) (pr_Value m));
   i64f (λ m v, Build_pbResult (pr_Outcome m) (pr_Revision m) (pr_FencingToken m) (pr_LockKey m)
     (pr_QueuePosition m) (pr_CurrentHolder m) v (pr_Value m));
   byt (λ m v, Build_pbResult (pr_Outcome m) (pr_Revision m) (pr_FencingToken m) (pr_LockKey m)
     (pr_QueuePosition m) (pr_CurrentHolder m) (pr_LeaseDeadline m) v)].

Definition emitResult (r : CommandResult) : list (Z * wval) :=
  emitU64 1 (outcomeNumber (r_Outcome r)) ++ emitU64 2 (r_Revision r) ++ emitU64 3 (r_FencingToken r) ++
  emitString 4 (r_LockKey r) ++ emitU64 5 (r_QueuePosition r) ++ emitString 6 (r_CurrentHolder r) ++
  emitI64 7 (r_LeaseDeadline r) ++ emitBytes 8 (r_Value r) ++ [].

Definition MarshalResult (r : CommandResult) : list ascii := marshal (emitResult r).
Definition UnmarshalResult (l : list ascii) : result pbResult WireError := unmarshal resultSchema pbResult0 l.

(** ** Snapshot *)
Definition schemaOwner : schema string := fields [str (λ _ v, v)].
Definition emitOwner (id : string) : list (Z * wval) := emitString 1 id ++ [].

Definition schemaWaiter : schema pb_Waiter := fields
  [str (λ m v, Build_pb_Waiter v (pw_EnqueueSeq m) (pw_Value m));
   u64f (λ m v, Build_pb_Waiter (pw_ClientId m) v (pw_Value m));
   byt (λ m v, Build_pb_Waiter (pw_ClientId m) (pw_EnqueueSeq m) v)].
Definition emitWaiter (w : pb_Waiter) : list (Z * wval) :=
  emitString 1 (pw_ClientId w) ++ emitU64 2 (pw_EnqueueSeq w) ++ emitBytes 3 (pw_Value w) ++ [].

Definition waiter0 : pb_Waiter := {| pw_ClientId := ""; pw_EnqueueSeq := 0; pw_Value := None |}.

Definition schemaLockState : schema LockState := fields
  [str (λ m v, Build_LockState v (lst_Holder m) (lst_Token m) (lst_Value m) (lst_Queue m));
   msg schemaOwner (λ m, default "" (lst_Holder m))
     (λ m v, Build_LockState (lst_Name m) (Some v) (lst_Token m) (lst_Value m) (lst_Queue m));
   u64f (λ m v, Build_LockState (lst_Name m) (lst_Holder m) v (lst_Value m) (lst_Queue m));
   byt (λ m v, Build_LockState (lst_Name m) (lst_Holder m) (lst_Token m) v (lst_Queue m));
   msg schemaWaiter (λ _, waiter0)
     (λ m v, Build_LockState (lst_Name m) (lst_Holder m) (lst_Token m) (lst_Value m) (lst_Queue m ++ [v]))].
Definition lockState0 : LockState :=
  {| lst_Name := ""; lst_Holder := None; lst_Token := 0; lst_Value := None; lst_Queue := [] |}.

Definition emitLockState (l : LockState) : list (Z * wval) :=
  emitString 1 (lst_Name l) ++
  (match lst_Holder l with Some h => emitMessage 2 (marshal (emitOwner h)) | None => [] end) ++
  emitU64 3 (lst_Token l) ++ emitBytes 4 (lst_Value l) ++
  emitRepeated 5 (λ w, marshal (emitWaiter w)) (lst_Queue l) ++ [].

Definition schemaLeaseState : schema LeaseState := fields
  [str (λ m v, Build_LeaseState v (les_TtlMs m) (les_ExpireAtUnixNano m) (les_HeldKeys m));
   i64f (λ m v, Build_LeaseState (les_ClientId m) v (les_ExpireAtUnixNano m) (les_HeldKeys m));
   i64f (λ m v, Build_LeaseState (les_ClientId m) (les_TtlMs m) v (les_HeldKeys m));
   str (λ m v, Build_LeaseState (les_ClientId m) (les_TtlMs m) (les_ExpireAtUnixNano m) (les_HeldKeys m ++ [v]))].
Definition leaseState0 : LeaseState :=
  {| les_ClientId := ""; les_TtlMs := 0; les_ExpireAtUnixNano := 0; les_HeldKeys := [] |}.
Definition emitLeaseState (l : LeaseState) : list (Z * wval) :=
  emitString 1 (les_ClientId l) ++ emitI64 2 (les_TtlMs l) ++ emitI64 3 (les_ExpireAtUnixNano l) ++
  emitRepeated 4 bytes_of (les_HeldKeys l) ++ [].

Definition schemaSnapshot : schema Snapshot := fields
  [u64f (λ m v, Build_Snapshot v (sn_Revision m) (sn_Locks m) (sn_Leases m));
   u64f (λ m v, Build_Snapshot (sn_Seq m) v (sn_Locks m) (sn_Leases m));
   msg schemaLockState (λ _, lockState0)
     (λ m v, Build_Snapshot (sn_Seq m) (sn_Revision m) (sn_Locks m ++ [v]) (sn_Leases m));
   msg schemaLeaseState (λ _, leaseState0)
     (λ m v, Build_Snapshot (sn_Seq m) (sn_Revision m) (sn_Locks m) (sn_Leases m ++ [v]))].
Definition snapshot0 : Snapshot := {| sn_Seq := 0; sn_Revision := 0; sn_Locks := []; sn_Leases := [] |}.
Definition emitSnapshot (s : Snapshot) : list (Z * wval) :=
  emitU64 1 (sn_Seq s) ++ emitU64 2 (sn_Revision s) ++
  emitRepeated 3 (λ l, marshal (emitLockState l)) (sn_Locks s) ++
  emitRepeated 4 (λ l, marshal (emitLeaseState l)) (sn_Leases s) ++ [].

Definition MarshalSnapshot (s : Snapshot) : list ascii := marshal (emitSnapshot s).
Definition UnmarshalSnapshot (l : list ascii) : result Snapshot WireError := unmarshal schemaSnapshot snapshot0 l.

(** ** Values in range, and what the wire makes of empty values *)
Definition cmd_fits (c : Cmd) : Prop :=
  match c with
  | ReleaseLock _ _ t | Resign _ _ t | Proclaim _ _ t _ => in_u64 t
  | LeaseGrant _ ttl now => in_i64 ttl ∧ in_i64 now
  | LeaseKeepAlive _ now | LeaseExpire _ now => in_i64 now
  | _ => True
  end.

Definition normCmd (c : Cmd) : Cmd :=
  match c with
  | Campaign n i v => Campaign n i (normBytes v)
  | Proclaim n i t v => Proclaim n i t (normBytes v)
  | _ => c
  end.
Definition normCommand (m : Command) : Command := {| GetCmd := normCmd <$> GetCmd m |}.

Definition result_fits (r : CommandResult) : Prop :=
  in_u64 (r_Revision r) ∧ in_u64 (r_FencingToken r) ∧ 0 ≤ r_QueuePosition r < 2 ^ 32 ∧ in_i64 (r_LeaseDeadline r).

Definition pbOf (r : CommandResult) : pbResult :=
  {| pr_Outcome := outcomeNumber (r_Outcome r); pr_Revision := r_Revision r; pr_FencingToken := r_FencingToken r;
     pr_LockKey := r_LockKey r; pr_QueuePosition := r_QueuePosition r; pr_CurrentHolder := r_CurrentHolder r;
     pr_LeaseDeadline := r_LeaseDeadline r; pr_Value := normBytes (r_Value r) |}.

Definition lockState_fits (l : LockState) : Prop :=
  in_u64 (lst_Token l) ∧ Forall (λ w, in_u64 (pw_EnqueueSeq w)) (lst_Queue l).
Definition leaseState_fits (l : LeaseState) : Prop := in_i64 (les_TtlMs l) ∧ in_i64 (les_ExpireAtUnixNano l).
Definition snapshot_fits (s : Snapshot) : Prop :=
  in_u64 (sn_Seq s) ∧ in_u64 (sn_Revision s) ∧ Forall lockState_fits (sn_Locks s) ∧
  Forall leaseState_fits (sn_Leases s).

Definition normWaiter (w : pb_Waiter) : pb_Waiter :=
  {| pw_ClientId := pw_ClientId w; pw_EnqueueSeq := pw_EnqueueSeq w; pw_Value := normBytes (pw_Value w) |}.
Definition normLockState (l : LockState) : LockState :=
  {| lst_Name := lst_Name l; lst_Holder := lst_Holder l; lst_Token := lst_Token l;
     lst_Value := normBytes (lst_Value l); lst_Queue := normWaiter <$> lst_Queue l |}.
Definition normSnapshot (s : Snapshot) : Snapshot :=
  {| sn_Seq := sn_Seq s; sn_Revision := sn_Revision s; sn_Locks := normLockState <$> sn_Locks s;
     sn_Leases := sn_Leases s |}.

(** ** Round trips *)

Section command.
Lemma AcquireLock_round_trip n c t :
  small (marshal (emitAcquireLock (n, c, t))) →
  unmarshal schemaAcquireLock ("", "", false) (marshal (emitAcquireLock (n, c, t))) = Ok (n, c, t).
Proof. intros Hl. round_trip. Qed.

Lemma ReleaseLock_round_trip n c t :
  in_u64 t → small (marshal (emitReleaseLock (n, c, t))) →
  unmarshal schemaReleaseLock ("", "", 0) (marshal (emitReleaseLock (n, c, t))) = Ok (n, c, t).
Proof. intros Ht Hl. round_trip. Qed.

Lemma CancelWait_round_trip n c :
  small (marshal (emitCancelWait (n, c))) →
  unmarshal schemaCancelWait ("", "") (marshal (emitCancelWait (n, c))) = Ok (n, c).
Proof. intros Hl. round_trip. Qed.

Lemma LeaseGrant_round_trip c t w :
  in_i64 t → in_i64 w → small (marshal (emitLeaseGrant (c, t, w))) →
  unmarshal schemaLeaseGrant ("", 0, 0) (marshal (emitLeaseGrant (c, t, w))) = Ok (c, t, w).
Proof. intros Ht Hw Hl. round_trip. Qed.

Lemma LeaseStamp_round_trip c w :
  in_i64 w → small (marshal (emitLeaseStamp (c, w))) →
  unmarshal schemaLeaseStamp ("", 0) (marshal (emitLeaseStamp (c, w))) = Ok (c, w).
Proof. intros Hw Hl. round_trip. Qed.

Lemma LeaseRevoke_round_trip c :
  small (marshal (emitLeaseRevoke c)) → unmarshal schemaLeaseRevoke "" (marshal (emitLeaseRevoke c)) = Ok c.
Proof. intros Hl. round_trip. Qed.

Lemma Campaign_round_trip n c v :
  small (marshal (emitCampaign (n, c, v))) →
  unmarshal schemaCampaign ("", "", None) (marshal (emitCampaign (n, c, v))) = Ok (n, c, normBytes v).
Proof. intros Hl. round_trip. Qed.

Lemma Proclaim_round_trip n c t v :
  in_u64 t → small (marshal (emitProclaim (n, c, t, v))) →
  unmarshal schemaProclaim ("", "", 0, None) (marshal (emitProclaim (n, c, t, v))) = Ok (n, c, t, normBytes v).
Proof. intros Ht Hl. round_trip. Qed.

(** A variant written as field [num] is read back as that variant. *)
Lemma variant_round_trip {V} num (sv : schema V) zero get put b v :
  schemaCommand num = Some (variant sv zero get put) → 0 < num < 2 ^ 28 →
  small (marshal (emitMessage num b ++ [])) → unmarshal sv zero b = Ok v →
  unmarshal schemaCommand {| GetCmd := None |} (marshal (emitMessage num b ++ [])) = Ok {| GetCmd := Some (put v) |}.
Proof.
  intros Hs Hn Hl Hv. rewrite unmarshal_marshal_fits //.
  - apply Forall_app. split; [|constructor]. by eapply fits_message.
  - erewrite read_message; [|exact Hs|]; [done|]. by rewrite /= Hv.
Qed.
End command.

Ltac by_variant L :=
  etransitivity; [eapply variant_round_trip; [reflexivity|lia|eassumption|by apply L]|reflexivity].

Lemma command_round_trip_lemma m :
  (match GetCmd m with Some c => cmd_fits c | None => True end) → small (MarshalCommand m) →
  UnmarshalCommand (MarshalCommand m) = Ok (normCommand m).
Proof.
  rewrite /UnmarshalCommand /MarshalCommand /emitCommand /normCommand. destruct m as [[c|]]; cbn [GetCmd fmap option_fmap option_map].
  2: { intros _ _. by rewrite unmarshal_marshal_fits. }
  intros Hc Hl. destruct c; cbn [emitCmd normCmd cmd_fits] in *; pose proof (small_nested _ _ Hl) as Hn.
  - by_variant AcquireLock_round_trip.
  - by_variant ReleaseLock_round_trip.
  - by_variant CancelWait_round_trip.
  - destruct Hc. by_variant LeaseGrant_round_trip.
  - by_variant LeaseStamp_round_trip.
  - by_variant LeaseRevoke_round_trip.
  - by_variant LeaseStamp_round_trip.
  - by_variant Campaign_round_trip.
  - by_variant Proclaim_round_trip.
  - by_variant ReleaseLock_round_trip.
Qed.

(** Commands survive the wire.  Decoding the encoding of any command whose
    integers fit their types gives that command back, an empty value becoming an
    absent one. *)
Theorem command_round_trip m :
  (match GetCmd m with Some c => cmd_fits c | None => True end) → small (MarshalCommand m) →
  UnmarshalCommand (MarshalCommand m) = Ok (normCommand m).
Proof. apply command_round_trip_lemma. Qed.

Lemma command_round_trip_witness :
  UnmarshalCommand (MarshalCommand {| GetCmd := Some (Proclaim "/team/x" "a" 300 (Some "v")) |}) =
    Ok {| GetCmd := Some (Proclaim "/team/x" "a" 300 (Some "v")) |}.
Proof. apply (command_round_trip {| GetCmd := Some (Proclaim "/team/x" "a" 300 (Some "v")) |}); by vm_compute. Defined.

Lemma result_round_trip_lemma r :
  result_fits r → small (MarshalResult r) → UnmarshalResult (MarshalResult r) = Ok (pbOf r).
Proof.
  rewrite /UnmarshalResult /MarshalResult. intros (H1 & H2 & H3 & H4) Hl.
  assert (0 ≤ outcomeNumber (r_Outcome r) < 2 ^ 31) as Ho by (destruct (r_Outcome r); simpl; lia).
  assert (in_u64 (outcomeNumber (r_Outcome r))) as Ho' by (rewrite /in_u64; lia).
  assert (in_u64 (r_QueuePosition r)) as Hq' by (rewrite /in_u64; lia).
  rewrite unmarshal_marshal_fits //; rewrite /emitResult; [fits_fields|].
  etransitivity; [eapply read_i32; [reflexivity|reflexivity|done]|]. simpl_read. by read_fields.
Qed.

(** Answers survive the wire.  Decoding the encoding of a command result
    whose integers fit gives back every field, with the outcome's number. *)
Theorem result_round_trip r :
  result_fits r → small (MarshalResult r) → UnmarshalResult (MarshalResult r) = Ok (pbOf r).
Proof. apply result_round_trip_lemma. Qed.

Lemma result_round_trip_witness :
  UnmarshalResult (MarshalResult {| r_Outcome := OUTCOME_QUEUED; r_Revision := 7; r_FencingToken := 0;
    r_LockKey := "/team/x"; r_QueuePosition := 2; r_CurrentHolder := ""; r_LeaseDeadline := -5; r_Value := None |}) =
  Ok {| pr_Outcome := 2; pr_Revision := 7; pr_FencingToken := 0; pr_LockKey := "/team/x"; pr_QueuePosition := 2;
        pr_CurrentHolder := ""; pr_LeaseDeadline := -5; pr_Value := None |}.
Proof.
  apply (result_round_trip {| r_Outcome := OUTCOME_QUEUED; r_Revision := 7; r_FencingToken := 0;
    r_LockKey := "/team/x"; r_QueuePosition := 2; r_CurrentHolder := ""; r_LeaseDeadline := -5; r_Value := None |});
    [|by vm_compute].
  rewrite /result_fits /in_u64 /in_i64 /=. lia.
Defined.

Section snapshot.
Lemma Waiter_round_trip w :
  in_u64 (pw_EnqueueSeq w) → small (marshal (emitWaiter w)) →
  unmarshal schemaWaiter waiter0 (marshal (emitWaiter w)) = Ok (normWaiter w).
Proof. intros Hs Hl. rewrite /waiter0. round_trip. Qed.

Lemma Owner_round_trip h :
  small (marshal (emitOwner h)) → unmarshal schemaOwner "" (marshal (emitOwner h)) = Ok h.
Proof. intros Hl. round_trip. Qed.

Lemma LockState_round_trip l :
  lockState_fits l → small (marshal (emitLockState l)) →
  unmarshal schemaLockState lockState0 (marshal (emitLockState l)) = Ok (normLockState l).
Proof.
  intros [Ht Hq] Hl. rewrite unmarshal_marshal_fits //.
  { rewrite /emitLockState. fits_fields. destruct (lst_Holder l); [by eapply fits_message|constructor]. }
  rewrite /lockState0 /emitLockState in Hl |- *.
  etransitivity; [eapply read_string; reflexivity|]. simpl_read.
  assert (∀ rest, readFields schemaLockState (Build_LockState (lst_Name l) None 0 None [])
    ((match lst_Holder l with Some h => emitMessage 2 (marshal (emitOwner h)) | None => [] end) ++ rest) =
    readFields schemaLockState (Build_LockState (lst_Name l) (lst_Holder l) 0 None []) rest) as ->.
  { intros rest. destruct (lst_Holder l) as [h|] eqn:Eh; [|done]. eapply read_message; [reflexivity|].
    cbn [msg]. simpl. rewrite Owner_round_trip //. eapply (small_elem 2); [exact Hl|]. set_solver. }
  read_fields. etransitivity; [eapply read_repeated; [reflexivity|]|reflexivity].
  eapply (read_elements _ _ normWaiter
    (λ q, Build_LockState (lst_Name l) (lst_Holder l) (lst_Token l) (normBytes (lst_Value l)) q) []).
  intros vs w Hw. simpl. rewrite Waiter_round_trip //; [by eapply Forall_forall in Hq|].
  eapply (small_elem 5); [exact Hl|]. rewrite !elem_of_app list_elem_of_fmap. eauto 10.
Qed.

Lemma LeaseState_round_trip l :
  leaseState_fits l → small (marshal (emitLeaseState l)) →
  unmarshal schemaLeaseState leaseState0 (marshal (emitLeaseState l)) = Ok l.
Proof.
  intros [Ht He] Hl. rewrite unmarshal_marshal_fits //; rewrite /emitLeaseState; [fits_fields|].
  rewrite /leaseState0. read_fields. etransitivity; [eapply read_repeated; [reflexivity|]|reflexivity].
  rewrite (read_elements _ _ id
    (λ q, Build_LeaseState (les_ClientId l) (les_TtlMs l) (les_ExpireAtUnixNano l) q) []).
  - intros vs k _. by rewrite /= string_of_bytes.
  - rewrite list_fmap_id. by destruct l.
Qed.

Lemma Snapshot_round_trip s :
  snapshot_fits s → small (MarshalSnapshot s) → UnmarshalSnapshot (MarshalSnapshot s) = Ok (normSnapshot s).
Proof.
  rewrite /UnmarshalSnapshot /MarshalSnapshot. intros (Hs & Hr & Hlk & Hls) Hl.
  rewrite unmarshal_marshal_fits //; rewrite /emitSnapshot in Hl |- *; [fits_fields|].
  rewrite /snapshot0. read_fields.
  etransitivity; [eapply read_repeated; [reflexivity|]|].
  { eapply (read_elements _ _ normLockState (λ q, Build_Snapshot (sn_Seq s) (sn_Revision s) q []) []).
    intros vs lk Hin. simpl. rewrite LockState_round_trip //; [by eapply Forall_forall in Hlk|].
    eapply (small_elem 3); [exact Hl|]. rewrite !elem_of_app !list_elem_of_fmap. eauto 10. }
  etransitivity; [eapply read_repeated; [reflexivity|]|reflexivity].
  rewrite (read_elements _ _ id (λ q, Build_Snapshot (sn_Seq s) (sn_Revision s) (normLockState <$> sn_Locks s) q) []).
  - intros vs ls Hin. simpl. rewrite LeaseState_round_trip //; [by eapply Forall_forall in Hls|].
    eapply (small_elem 4); [exact Hl|]. rewrite !elem_of_app !list_elem_of_fmap. eauto 10.
  - by rewrite list_fmap_id.
Qed.
End snapshot.
