(* ===== verification/FsmInv.v ===== *)
(** * Well-formedness of the shard state machine

    The structural invariant of [Fsm.FSM]: every stored lock has a holder, every
    holder and waiter has a live lease, no client is queued twice or queued on a
    key it holds, and the held/waiting indexes of the leases are exactly the
    holders and queues of the lock map.  Every command preserves it; the only
    requirement on a command is that a lease is never granted to the empty
    client id. *)
From S2P Require Import Prelude GoStrings Keypath Fsm.

Local Open Scope Z_scope.

(** ** Projections through the state updates *)
Lemma locks_emit f k h t v : locks (emit f k h t v) = locks f.
Proof. rewrite /emit. by case_match. Qed.
Lemma leases_emit f k h t v : leases (emit f k h t v) = leases f.
Proof. rewrite /emit. by case_match. Qed.
Lemma seq_emit f k h t v : seq (emit f k h t v) = seq f.
Proof. rewrite /emit. by case_match. Qed.
Lemma revision_emit f k h t v : revision (emit f k h t v) = revision f.
Proof. rewrite /emit. by case_match. Qed.

Create HintDb fsm.
Create Rewrite HintDb fsm.
#[export] Hint Rewrite locks_emit leases_emit seq_emit revision_emit : fsm.

(** Exposes the maps of an updated state. *)
Ltac fsm_simpl :=
  repeat (autorewrite with fsm in *; cbn [locks leases seq revision notifier put_lock put_lease
    set_locks set_leases incr_seq incr_revision with_queue with_index
    lk_name lk_holder lk_token lk_value lk_queue ls_clientID ls_ttlMS ls_expireAt ls_held ls_waiting
    fst snd] in * ).

(** ** The invariant *)
Definition queue_ids (lk : lock) : list string := w_clientID <$> lk_queue lk.

Definition holds (f : FSM) (id name : string) : Prop :=
  ∃ lk, locks f !! name = Some lk ∧ lk_holder lk = id.
Definition waits (f : FSM) (id name : string) : Prop :=
  ∃ lk, locks f !! name = Some lk ∧ id ∈ queue_ids lk.

Record lock_ok (f : FSM) (name : string) (lk : lock) : Prop := {
  lo_name : lk_name lk = name;
  lo_holder : lk_holder lk ≠ "";
  lo_holder_lease : is_Some (leases f !! lk_holder lk);
  lo_queue_lease : ∀ id, id ∈ queue_ids lk → is_Some (leases f !! id);
  lo_nodup : NoDup (queue_ids lk);
  lo_not_queued : lk_holder lk ∉ queue_ids lk
}.

(** The invariant during a lease drop: the indexes of client [c] may still name
    keys [X] it no longer holds and keys [Y] it no longer waits on. *)
Record lease_ok (f : FSM) (c : string) (X Y : gset string) (id : string) (ls : lease) : Prop := {
  le_id : ls_clientID ls = id;
  le_nonempty : id ≠ "";
  le_held : ∀ n, n ∈ ls_held ls ↔ holds f id n ∨ (id = c ∧ n ∈ X);
  le_waiting : ∀ n, n ∈ ls_waiting ls ↔ waits f id n ∨ (id = c ∧ n ∈ Y)
}.

Record wfx (c : string) (X Y : gset string) (f : FSM) : Prop := {
  wfx_locks : ∀ n lk, locks f !! n = Some lk → lock_ok f n lk;
  wfx_leases : ∀ id ls, leases f !! id = Some ls → lease_ok f c X Y id ls
}.

Definition wf (f : FSM) : Prop := wfx "" ∅ ∅ f.

(** What the invariant asks of a command. *)
Definition cmd_ok (c : Cmd) : Prop :=
  match c with
  | LeaseGrant id _ _ => id ≠ ""
  | _ => True
  end.

#[export] Instance cmd_ok_dec c : Decision (cmd_ok c).
Proof. destruct c; apply _. Defined.

Section wf_basics.
Implicit Types f : FSM.

Lemma wfx_wf c f : wfx c ∅ ∅ f ↔ wf f.
Proof.
  split; intros [Hlk Hls]; split; [done| |done|]; intros id ls H%Hls;
    destruct H; split; set_solver.
Qed.

Lemma wf_New n : wf (New n).
Proof. split; intros ?? H; by rewrite lookup_empty in H. Qed.

(** Only the two maps matter. *)
Lemma wfx_ext c X Y f g : locks f = locks g → leases f = leases g → wfx c X Y f → wfx c X Y g.
Proof.
  intros E1 E2 [Hlk Hls]. split.
  - intros n lk. rewrite -E1. intros H%Hlk. destruct H. split; rewrite -?E2; auto.
  - intros id ls. rewrite -E2. intros H%Hls. destruct H.
    split; rewrite /holds /waits -?E1; auto.
Qed.

Lemma holds_lookup f n lk id : locks f !! n = Some lk → holds f id n ↔ lk_holder lk = id.
Proof. intros H. rewrite /holds H. naive_solver. Qed.
Lemma waits_lookup f n lk id : locks f !! n = Some lk → waits f id n ↔ id ∈ queue_ids lk.
Proof. intros H. rewrite /waits H. naive_solver. Qed.
Lemma holds_None f n id : locks f !! n = None → ¬ holds f id n.
Proof. intros H [lk [H' _]]. congruence. Qed.
Lemma waits_None f n id : locks f !! n = None → ¬ waits f id n.
Proof. intros H [lk [H' _]]. congruence. Qed.

(** [holds] and [waits] after a change of one lock. *)
Lemma holds_insert f g n lk id n' :
  locks g = <[n := lk]> (locks f) →
  holds g id n' ↔ if decide (n' = n) then lk_holder lk = id else holds f id n'.
Proof.
  intros E. rewrite /holds E. case_decide as Hn.
  - subst. rewrite lookup_insert_eq. naive_solver.
  - by rewrite lookup_insert_ne.
Qed.
Lemma waits_insert f g n lk id n' :
  locks g = <[n := lk]> (locks f) →
  waits g id n' ↔ if decide (n' = n) then id ∈ queue_ids lk else waits f id n'.
Proof.
  intros E. rewrite /waits E. case_decide as Hn.
  - subst. rewrite lookup_insert_eq. naive_solver.
  - by rewrite lookup_insert_ne.
Qed.
Lemma holds_delete f g n id n' :
  locks g = delete n (locks f) → holds g id n' ↔ n' ≠ n ∧ holds f id n'.
Proof.
  intros E. rewrite /holds E. destruct (decide (n' = n)) as [->|].
  - rewrite lookup_delete_eq. naive_solver.
  - rewrite lookup_delete_ne //. naive_solver.
Qed.
Lemma waits_delete f g n id n' :
  locks g = delete n (locks f) → waits g id n' ↔ n' ≠ n ∧ waits f id n'.
Proof.
  intros E. rewrite /waits E. destruct (decide (n' = n)) as [->|].
  - rewrite lookup_delete_eq. naive_solver.
  - rewrite lookup_delete_ne //. naive_solver.
Qed.
End wf_basics.

(** ** Changing one lock

    A state that differs from [f] at one lock and in lease contents, but not in
    the set of live leases, keeps every other lock well-formed. *)
Lemma wfx_change_lock c X Y X' Y' f g n olk :
  wfx c X Y f →
  (∀ id, is_Some (leases f !! id) → is_Some (leases g !! id)) →
  locks g = partial_alter (λ _, olk) n (locks f) →
  (∀ lk, olk = Some lk → lock_ok g n lk) →
  (∀ id ls, leases g !! id = Some ls → lease_ok g c X' Y' id ls) →
  wfx c X' Y' g.
Proof.
  intros [Hlk _] Hlive El Hn Hls. split; [|done].
  intros n' lk'. rewrite El. destruct (decide (n' = n)) as [->|Hne].
  - rewrite lookup_partial_alter_eq. auto.
  - rewrite lookup_partial_alter_ne // => /Hlk H. destruct H. split; auto.
Qed.

(** ** Handing a key on *)
Section promote.
Implicit Types f : FSM.

Lemma promote_nil f lk :
  lk_queue lk = [] →
  promote f lk = emit (set_locks f (delete (lk_name lk) (locks f))) (lk_name lk) "" 0 None.
Proof. rewrite /promote. by intros ->. Qed.

Definition promoted (f : FSM) (lk : lock) (w : waiter) (q : list waiter) : lock :=
  {| lk_name := lk_name lk; lk_holder := w_clientID w; lk_token := u64 (seq f + 1);
     lk_value := w_value w; lk_queue := q |}.

Lemma promote_cons f lk w q ls :
  lk_queue lk = w :: q → leases f !! w_clientID w = Some ls →
  promote f lk =
    emit (put_lease (put_lock (incr_seq f) (lk_name lk) (promoted f lk w q)) (w_clientID w)
            (with_index ls (ls_held ls ∪ {[lk_name lk]}) (ls_waiting ls ∖ {[lk_name lk]})))
         (lk_name lk) (w_clientID w) (u64 (seq f + 1)) (w_value w).
Proof. rewrite /promote => -> /= ->. done. Qed.

Lemma wfx_queue_head c X Y f n lk w q :
  wfx c X Y f → locks f !! n = Some lk → lk_queue lk = w :: q →
  ∃ ls, leases f !! w_clientID w = Some ls ∧ lease_ok f c X Y (w_clientID w) ls ∧
    w_clientID w ≠ lk_holder lk ∧ ¬ w_clientID w ∈ w_clientID <$> q ∧ NoDup (w_clientID <$> q) ∧
    lk_name lk = n.
Proof.
  intros [Hlk Hls] Hn Eq. destruct (Hlk _ _ Hn) as [Hname _ _ Hq Hnd Hnq].
  rewrite /queue_ids Eq fmap_cons in Hq Hnd Hnq.
  destruct (Hq (w_clientID w)) as [ls Hw]; [by left|]. exists ls.
  apply NoDup_cons in Hnd as [? ?]. apply not_elem_of_cons in Hnq as [? ?].
  split_and!; eauto.
Qed.

Lemma promote_wfx_nil c X Y f n lk :
  wfx c X Y f → locks f !! n = Some lk → lk_holder lk = c → lk_queue lk = [] →
  wfx c (X ∪ {[n]}) Y (promote f lk).
Proof.
  intros Hwf Hn Hc Eq. pose proof (lo_name _ _ _ (wfx_locks _ _ _ _ Hwf _ _ Hn)) as Hname.
  rewrite promote_nil // Hname. set (g := emit _ _ _ _ _).
  assert (locks g = delete n (locks f)) as El by (by rewrite /g; fsm_simpl).
  assert (leases g = leases f) as Es by (by rewrite /g; fsm_simpl).
  eapply (wfx_change_lock _ _ _ _ _ f _ n None); [done|by rewrite Es|done|done|].
  intros id ls. rewrite Es. intros [Hid Hne Hh Hw]%(wfx_leases _ _ _ _ Hwf).
  split; [done..| |]; intros n'.
  - rewrite Hh (holds_delete f g n) //.
    destruct (decide (n' = n)) as [->|]; [rewrite (holds_lookup _ _ _ _ Hn)|]; set_solver.
  - rewrite Hw (waits_delete f g n) //.
    destruct (decide (n' = n)) as [->|]; [|set_solver].
    rewrite (waits_lookup _ _ _ _ Hn) /queue_ids Eq. set_solver.
Qed.

Lemma promote_wfx_cons c X Y f n lk w q :
  wfx c X Y f → locks f !! n = Some lk → lk_holder lk = c → lk_queue lk = w :: q →
  wfx c (X ∪ {[n]}) Y (promote f lk).
Proof.
  intros Hwf Hn Hc Eq.
  destruct (wfx_queue_head _ _ _ _ _ _ _ _ Hwf Hn Eq) as (ls & Hls & Hlok & Hwc & Hwq & Hnd & Hname).
  pose proof (wfx_locks _ _ _ _ Hwf _ _ Hn) as [_ _ _ Hql _ _]. rewrite /queue_ids Eq in Hql.
  rewrite (promote_cons _ _ _ _ _ Eq Hls) Hname. set (g := emit _ _ _ _ _).
  assert (locks g = <[n := promoted f lk w q]> (locks f)) as El by (by rewrite /g; fsm_simpl).
  assert (∀ id, leases g !! id = if decide (w_clientID w = id) then
      Some (with_index ls (ls_held ls ∪ {[n]}) (ls_waiting ls ∖ {[n]})) else leases f !! id) as Es.
  { intros id. rewrite /g. fsm_simpl. by rewrite lookup_insert. }
  eapply (wfx_change_lock _ _ _ _ _ f _ n (Some (promoted f lk w q))); [done|..|done| |].
  - intros id Hid. rewrite Es. by case_decide.
  - intros ? [= <-]. split; rewrite ?Es /= ?decide_True //; [apply Hlok|].
    intros id Hid. rewrite Es. case_decide; [done|]. apply Hql. by right.
  - intros id ls'. rewrite Es. case_decide as Hid; [intros [= <-]; subst id|intros Hl].
    + destruct Hlok as [Hid Hne Hh Hw]. split; [done..| |]; intros n'; fsm_simpl.
      * rewrite elem_of_union Hh (holds_insert f g n _ _ _ El).
        case_decide as Hn'; [subst n'; rewrite (holds_lookup _ _ _ _ Hn)|]; set_solver.
      * rewrite elem_of_difference Hw (waits_insert f g n _ _ _ El).
        case_decide as Hn'; [subst n'; rewrite (waits_lookup _ _ _ _ Hn) /queue_ids Eq /=|]; set_solver.
    + apply (wfx_leases _ _ _ _ Hwf) in Hl as [Hid' Hne Hh Hw]. split; [done..| |]; intros n'.
      * rewrite Hh (holds_insert f g n _ _ _ El).
        case_decide as Hn'; [subst n'; rewrite (holds_lookup _ _ _ _ Hn) /=|]; set_solver.
      * rewrite Hw (waits_insert f g n _ _ _ El).
        case_decide as Hn'; [subst n'; rewrite (waits_lookup _ _ _ _ Hn) /queue_ids Eq /=|]; set_solver.
Qed.

Lemma promote_wfx c X Y f n lk :
  wfx c X Y f → locks f !! n = Some lk → lk_holder lk = c → wfx c (X ∪ {[n]}) Y (promote f lk).
Proof.
  intros. destruct (lk_queue lk) eqn:Eq; [by apply promote_wfx_nil|by eapply promote_wfx_cons].
Qed.
End promote.

(** ** Removing a waiter *)
Section remove_waiter.
Implicit Types q : list waiter.

Lemma removeWaiter_Some q id q' :
  removeWaiter q id = Some q' →
  ∃ q1 w q2, q = q1 ++ w :: q2 ∧ q' = q1 ++ q2 ∧ w_clientID w = id ∧ id ∉ (w_clientID <$> q1).
Proof.
  revert q'. induction q as [|w q IH]; intros q' H; [done|]. simpl in H.
  case_bool_decide as Hw.
  - simplify_eq. exists [], w, q'. split_and!; [done..|]. apply not_elem_of_nil.
  - destruct (removeWaiter q id) as [q0|] eqn:E; [|done]. simplify_eq/=.
    destruct (IH _ eq_refl) as (q1 & w' & q2 & -> & -> & Hid & Hnot).
    exists (w :: q1), w', q2. split_and!; [done..|]. rewrite fmap_cons. apply not_elem_of_cons. auto.
Qed.

Lemma removeWaiter_None q id : removeWaiter q id = None ↔ id ∉ (w_clientID <$> q).
Proof.
  induction q as [|w q IH]; cbn [removeWaiter]; [split; [intros _; apply not_elem_of_nil|done]|].
  rewrite fmap_cons not_elem_of_cons. case_bool_decide as Hw; [naive_solver|].
  destruct (removeWaiter q id); simpl; naive_solver.
Qed.

Lemma removeWaiter_ids q id q' :
  removeWaiter q id = Some q' → NoDup (w_clientID <$> q) →
  NoDup (w_clientID <$> q') ∧ ∀ x, x ∈ (w_clientID <$> q') ↔ x ∈ (w_clientID <$> q) ∧ x ≠ id.
Proof.
  intros (q1 & w & q2 & -> & -> & Hid & Hnot)%removeWaiter_Some.
  rewrite !fmap_app fmap_cons. intros (Hn1 & Hd & [Hw Hn2]%NoDup_cons)%NoDup_app.
  rewrite Hid in Hw, Hd |- *. split.
  - apply NoDup_app. split_and!; [done| |done]. intros x Hx1 Hx2. apply (Hd x Hx1). by right.
  - intros x. rewrite !elem_of_app elem_of_cons. split.
    + intros [H|H]; (split; [tauto|]); by intros ->.
    + tauto.
Qed.
End remove_waiter.

(** ** Changing one lease *)
Section one_lease.
Implicit Types f : FSM.

Lemma lease_ok_other f c X Y X' Y' id ls :
  id ≠ c → lease_ok f c X Y id ls → lease_ok f c X' Y' id ls.
Proof. intros Hid [? ? Hh Hw]. split; [done..| |]; intros n; [rewrite Hh|rewrite Hw]; naive_solver. Qed.

Lemma lease_ok_ext f g c X Y id ls : locks f = locks g → lease_ok f c X Y id ls → lease_ok g c X Y id ls.
Proof. intros E [? ? Hh Hw]. split; [done..| |]; rewrite /holds /waits -E; auto. Qed.

Lemma wfx_put_lease c X Y X' Y' f id ls' :
  wfx c X Y f → lease_ok f c X' Y' id ls' →
  (∀ id' ls, id' ≠ id → lease_ok f c X Y id' ls → lease_ok f c X' Y' id' ls) →
  wfx c X' Y' (put_lease f id ls').
Proof.
  intros [Hlk Hls] Hok Hother. split.
  - intros n lk H%Hlk. destruct H as [? ? Hh Hq ? ?]. split; [done|done| | |done|done];
      fsm_simpl; [|intros id' Hid'%Hq]; rewrite lookup_insert; by case_decide.
  - intros id' ls. fsm_simpl. rewrite lookup_insert. case_decide as Hid.
    + intros [= <-]. subst. by apply (lease_ok_ext f).
    + intros H%Hls. apply (lease_ok_ext f); [done|]. by apply Hother.
Qed.

(** Replacing a lease by one with the same indexes. *)
Lemma wfx_put_same c X Y f id ls ls' :
  wfx c X Y f → leases f !! id = Some ls → ls_clientID ls' = ls_clientID ls →
  ls_held ls' = ls_held ls → ls_waiting ls' = ls_waiting ls → wfx c X Y (put_lease f id ls').
Proof.
  intros Hwf Hl Eid Eh Ew. eapply wfx_put_lease; [done| |done].
  destruct (wfx_leases _ _ _ _ Hwf _ _ Hl). split; rewrite ?Eid ?Eh ?Ew; auto.
Qed.

(** Dropping a stale key from an index. *)
Lemma wfx_unmark_held c X Y f n ls :
  wfx c X Y f → leases f !! c = Some ls → ¬ holds f c n →
  wfx c (X ∖ {[n]}) Y (put_lease f c (with_index ls (ls_held ls ∖ {[n]}) (ls_waiting ls))).
Proof.
  intros Hwf Hl Hn. eapply wfx_put_lease; [done| |by intros; eapply lease_ok_other].
  destruct (wfx_leases _ _ _ _ Hwf _ _ Hl) as [? ? Hh Hw]. split; [done..| |done].
  intros n'. simpl. rewrite elem_of_difference Hh. destruct (decide (n' = n)); set_solver.
Qed.
Lemma wfx_unmark_waiting c X Y f n ls :
  wfx c X Y f → leases f !! c = Some ls → ¬ waits f c n →
  wfx c X (Y ∖ {[n]}) (put_lease f c (with_index ls (ls_held ls) (ls_waiting ls ∖ {[n]}))).
Proof.
  intros Hwf Hl Hn. eapply wfx_put_lease; [done| |by intros; eapply lease_ok_other].
  destruct (wfx_leases _ _ _ _ Hwf _ _ Hl) as [? ? Hh Hw]. split; [done..|done|].
  intros n'. simpl. rewrite elem_of_difference Hw. destruct (decide (n' = n)); set_solver.
Qed.

(** A client without a lease holds and waits on nothing. *)
Lemma wfx_dead c X Y f id n : wfx c X Y f → leases f !! id = None → ¬ holds f id n ∧ ¬ waits f id n.
Proof.
  intros [Hlk _] Hid. split; intros (lk & [? _ Hh Hq _ _]%Hlk & H).
  - rewrite H Hid in Hh. by destruct Hh.
  - apply Hq in H. rewrite Hid in H. by destruct H.
Qed.

(** A client that holds and waits on nothing can be forgotten. *)
Lemma wfx_delete_lease c X Y f :
  wfx c X Y f → (∀ n, ¬ holds f c n ∧ ¬ waits f c n) → wf (set_leases f (delete c (leases f))).
Proof.
  intros [Hlk Hls] Hnone. split.
  - intros n lk Hn. cbn [locks set_leases] in Hn. pose proof (Hlk _ _ Hn) as [? ? Hh Hq ? ?].
    destruct (Hnone n) as [Hnh Hnw].
    rewrite (holds_lookup _ _ _ _ Hn) in Hnh. rewrite (waits_lookup _ _ _ _ Hn) in Hnw.
    split; [done|done| | |done|done]; fsm_simpl; [by rewrite lookup_delete_ne|].
    intros id Hid. rewrite lookup_delete_ne; [by intros ->|auto].
  - intros id ls. fsm_simpl. intros [Hid H%Hls]%lookup_delete_Some.
    apply (lease_ok_ext f); [done|]. destruct H as [? ? Hh Hw].
    split; [done..| |]; intros n; [rewrite Hh|rewrite Hw]; set_solver.
Qed.
End one_lease.

(** ** Preservation, operation by operation *)
Section preservation.
Implicit Types f : FSM.

(** A fresh key granted to a live client. *)
Lemma grant_wf f name id ls value :
  wf f → leases f !! id = Some ls → locks f !! name = None → wf (grant f name ls value).1.
Proof.
  intros Hwf Hl Hn. destruct (wfx_leases _ _ _ _ Hwf _ _ Hl) as [Hid Hne Hh Hw].
  rewrite /grant Hn Hid /=. set (g := emit _ _ _ _ _).
  set (lk1 := {| lk_name := name; lk_holder := id; lk_token := u64 (seq f + 1);
                 lk_value := value; lk_queue := [] |}).
  assert (locks g = <[name := lk1]> (locks f)) as El by (by rewrite /g; fsm_simpl).
  assert (∀ id', leases g !! id' = if decide (id = id') then
      Some (with_index ls (ls_held ls ∪ {[name]}) (ls_waiting ls ∖ {[name]})) else leases f !! id') as Es.
  { intros id'. rewrite /g. fsm_simpl. by rewrite lookup_insert. }
  eapply (wfx_change_lock _ _ _ _ _ f _ name (Some lk1)); [done| |done| |].
  - intros id' ?. rewrite Es. by case_decide.
  - intros ? [= <-]. split; rewrite ?Es /= ?decide_True //; [|constructor|apply not_elem_of_nil].
    intros ? H. by apply elem_of_nil in H.
  - pose proof (λ i, holds_None f name i Hn) as Hnh. pose proof (λ i, waits_None f name i Hn) as Hnw.
    intros id' ls'. rewrite Es. case_decide as Hid'; [intros [= <-]; subst id'|intros Hl'].
    + split; [done..| |]; intros n'; fsm_simpl.
      * rewrite elem_of_union Hh (holds_insert f g _ _ _ _ El). case_decide; set_solver.
      * rewrite elem_of_difference Hw (waits_insert f g _ _ _ _ El). case_decide; set_solver.
    + apply (wfx_leases _ _ _ _ Hwf) in Hl' as [? ? Hh' Hw']. split; [done..| |]; intros n'.
      * rewrite Hh' (holds_insert f g _ _ _ _ El) /=. case_decide; set_solver.
      * rewrite Hw' (waits_insert f g _ _ _ _ El) /=. case_decide; set_solver.
Qed.

(** A live client appended to the queue of a key it neither holds nor waits on. *)
Lemma enqueue_wf f name id ls lk w :
  wf f → leases f !! id = Some ls → locks f !! name = Some lk → lk_holder lk ≠ id →
  name ∉ ls_waiting ls → w_clientID w = id →
  wf (put_lease (put_lock (incr_seq f) name (with_queue lk (lk_queue lk ++ [w]))) id
        (with_index ls (ls_held ls) (ls_waiting ls ∪ {[name]}))).
Proof.
  intros Hwf Hl Hn Hne Hnw Hid. destruct (wfx_leases _ _ _ _ Hwf _ _ Hl) as [Eid Hid0 Hh Hw].
  assert (id ∉ queue_ids lk) as Hq.
  { intros Hq. apply Hnw, Hw. left. by apply (waits_lookup _ _ _ _ Hn). }
  destruct (wfx_locks _ _ _ _ Hwf _ _ Hn) as [Hname Hhne Hhl Hql Hnd Hnq].
  set (lk1 := with_queue lk (lk_queue lk ++ [w])).
  assert (∀ x, x ∈ queue_ids lk1 ↔ x ∈ queue_ids lk ∨ x = id) as Hq1.
  { intros x. rewrite /queue_ids fmap_app elem_of_app -Hid. set_solver. }
  set (g := put_lease _ _ _).
  assert (locks g = <[name := lk1]> (locks f)) as El by done.
  assert (∀ id', leases g !! id' = if decide (id = id') then
      Some (with_index ls (ls_held ls) (ls_waiting ls ∪ {[name]})) else leases f !! id') as Es.
  { intros id'. rewrite /g. fsm_simpl. by rewrite lookup_insert. }
  assert (∀ id', is_Some (leases f !! id') → is_Some (leases g !! id')) as Hlive.
  { intros id' ?. rewrite Es. by case_decide. }
  eapply (wfx_change_lock _ _ _ _ _ f _ name (Some lk1)); [done|done|done| |].
  - intros ? [= <-]. split; [done..|by apply Hlive| | |].
    + intros x [Hx| ->]%Hq1; apply Hlive; [by apply Hql|by rewrite Hl].
    + rewrite /queue_ids fmap_app. apply NoDup_app. split_and!; [done| |by apply NoDup_singleton].
      intros x Hx ->%list_elem_of_singleton. by rewrite Hid in Hx.
    + rewrite Hq1. intros [?|?]; [done|]. by apply Hne.
  - intros id' ls'. rewrite Es. case_decide as Hid'; [intros [= <-]; subst id'|intros Hl'].
    + split; [done..| |]; intros n'; fsm_simpl.
      * rewrite Hh (holds_insert f g _ _ _ _ El) /=. case_decide as E; [|done].
        subst n'. by rewrite (holds_lookup _ _ _ _ Hn).
      * rewrite elem_of_union Hw (waits_insert f g _ _ _ _ El). case_decide; set_solver.
    + apply (wfx_leases _ _ _ _ Hwf) in Hl' as [? ? Hh' Hw']. split; [done..| |]; intros n'.
      * rewrite Hh' (holds_insert f g _ _ _ _ El) /=. case_decide as E; [|done].
        subst n'. by rewrite (holds_lookup _ _ _ _ Hn).
      * rewrite Hw' (waits_insert f g _ _ _ _ El) /=. case_decide as E; [|done].
        subst n'. rewrite (waits_lookup _ _ _ _ Hn) Hq1. naive_solver.
Qed.

Lemma unmark_empty (n : string) : (∅ ∪ {[n]}) ∖ {[n]} =@{gset string} ∅.
Proof. set_solver. Qed.

(** A client taken out of one queue, its waiting index left as it was. *)
Lemma leave_wfx c X Y f n lk q :
  wfx c X Y f → locks f !! n = Some lk → removeWaiter (lk_queue lk) c = Some q →
  wfx c X (Y ∪ {[n]}) (put_lock f n (with_queue lk q)).
Proof.
  intros Hwf Hn Hq. destruct (wfx_locks _ _ _ _ Hwf _ _ Hn) as [Hname Hhne Hhl Hql Hnd Hnq].
  destruct (removeWaiter_ids _ _ _ Hq Hnd) as [Hnd' Hin]. set (g := put_lock _ _ _).
  assert (locks g = <[n := with_queue lk q]> (locks f)) as El by done.
  eapply (wfx_change_lock _ _ _ _ _ f _ n (Some (with_queue lk q))); [done..| |].
  - intros ? [= <-]. split; [done..| |done|]; rewrite /queue_ids /=.
    + intros x [Hx _]%Hin. by apply Hql.
    + by intros [? _]%Hin.
  - intros id ls [? ? Hh Hw]%(wfx_leases _ _ _ _ Hwf). split; [done..| |]; intros n'.
    + rewrite Hh (holds_insert f g _ _ _ _ El) /=. case_decide as E; [|done].
      subst n'. by rewrite (holds_lookup _ _ _ _ Hn).
    + rewrite Hw (waits_insert f g _ _ _ _ El). case_decide as E; [|set_solver].
      subst n'. rewrite (waits_lookup _ _ _ _ Hn) /queue_ids /= Hin.
      assert (c ∈ queue_ids lk) as Hc.
      { apply dec_stable. intros Hc%removeWaiter_None. congruence. }
      destruct (decide (id = c)) as [->|]; set_solver.
Qed.

Lemma leave_not_waits f n lk q c :
  NoDup (queue_ids lk) → removeWaiter (lk_queue lk) c = Some q →
  ¬ waits (put_lock f n (with_queue lk q)) c n.
Proof.
  intros Hnd Hq (lk' & Hlk' & Hin). fsm_simpl. rewrite lookup_insert_eq in Hlk'.
  injection Hlk' as <-. by apply (removeWaiter_ids _ _ _ Hq Hnd) in Hin as [_ ?].
Qed.

Lemma cancelWait_wf f n c : wf f → wf (cancelWait f n c).1.
Proof.
  intros Hwf. rewrite /cancelWait. destruct (locks f !! n) as [lk|] eqn:Hn; [|done].
  destruct (removeWaiter (lk_queue lk) c) as [q|] eqn:Hq; [|done].
  pose proof (lo_nodup _ _ _ (wfx_locks _ _ _ _ Hwf _ _ Hn)) as Hnd.
  apply (wfx_wf c) in Hwf. pose proof (leave_wfx _ _ _ _ _ _ _ Hwf Hn Hq) as Hg.
  cbn [fst]. destruct (leases _ !! c) as [ls|] eqn:Hl.
  - apply (wfx_wf c). rewrite -{2}(unmark_empty n).
    by apply wfx_unmark_waiting; [|..|by apply leave_not_waits].
  - exfalso. destruct (wfx_locks _ _ _ _ Hwf _ _ Hn) as [_ _ _ Hql _ _].
    destruct (Hql c) as [? ?]; [|by fsm_simpl; congruence].
    apply dec_stable. intros Hc%removeWaiter_None. congruence.
Qed.

Lemma proclaim_wf f n c t v : wf f → wf (proclaim f n c t v).1.
Proof.
  intros Hwf. rewrite /proclaim. destruct (locks f !! n) as [lk|] eqn:Hn; [|done].
  case_match; [done|]. case_match; [done|]. cbn [fst].
  set (lk1 := {| lk_name := lk_name lk; lk_holder := lk_holder lk; lk_token := lk_token lk;
                 lk_value := v; lk_queue := lk_queue lk |}).
  set (g := emit _ _ _ _ _). pose proof (wfx_locks _ _ _ _ Hwf _ _ Hn) as Hok.
  assert (locks g = <[n := lk1]> (locks f)) as El by (by rewrite /g; fsm_simpl).
  assert (leases g = leases f) as Es by (by rewrite /g; fsm_simpl).
  eapply (wfx_change_lock _ _ _ _ _ f _ n (Some lk1)); [done|by rewrite Es|done| |].
  - intros ? [= <-]. destruct Hok. split; rewrite ?Es; auto.
  - intros id ls. rewrite Es. intros [? ? Hh Hw]%(wfx_leases _ _ _ _ Hwf).
    split; [done..| |]; intros n'.
    + rewrite Hh (holds_insert f g _ _ _ _ El). destruct (decide (n' = n)) as [->|]; [|done].
      by rewrite (holds_lookup _ _ _ _ Hn).
    + rewrite Hw (waits_insert f g _ _ _ _ El). destruct (decide (n' = n)) as [->|]; [|done].
      by rewrite (waits_lookup _ _ _ _ Hn).
Qed.

(** Handing a key on after striking it from the old holder's index gives the
    maps of striking it afterwards. *)
Lemma promote_unmark_commute f n lk c ls :
  wf f → locks f !! n = Some lk → lk_holder lk = c → leases f !! c = Some ls →
  let f1 := put_lease f c (with_index ls (ls_held ls ∖ {[n]}) (ls_waiting ls)) in
  let f2 := put_lease (promote f lk) c (with_index ls (ls_held ls ∖ {[n]}) (ls_waiting ls)) in
  leases (promote f lk) !! c = Some ls ∧
  locks (promote f1 lk) = locks f2 ∧ leases (promote f1 lk) = leases f2.
Proof.
  intros Hwf Hn Hc Hl. cbv zeta. destruct (lk_queue lk) as [|w q] eqn:Eq.
  - rewrite !promote_nil //. fsm_simpl. done.
  - destruct (wfx_queue_head _ _ _ _ _ _ _ _ Hwf Hn Eq) as (lsw & Hlw & _ & Hwc & _).
    rewrite Hc in Hwc. rewrite !(promote_cons _ _ _ _ lsw Eq) //.
    { fsm_simpl. by rewrite lookup_insert_ne. }
    fsm_simpl. rewrite lookup_insert_ne //. split_and!; [done|done|]. by rewrite insert_insert_ne.
Qed.

(** Nobody but the promoted client holds a key that was handed on. *)
Lemma promote_not_holds c X Y f n lk :
  wfx c X Y f → locks f !! n = Some lk → lk_holder lk = c → ¬ holds (promote f lk) c n.
Proof.
  intros Hwf Hn Hc. pose proof (lo_name _ _ _ (wfx_locks _ _ _ _ Hwf _ _ Hn)) as Hname.
  destruct (lk_queue lk) as [|w q] eqn:Eq; rewrite /holds.
  - rewrite promote_nil // Hname. fsm_simpl. rewrite lookup_delete_eq. by intros (? & ? & _).
  - destruct (wfx_queue_head _ _ _ _ _ _ _ _ Hwf Hn Eq) as (lsw & Hlw & _ & Hwc & _).
    rewrite (promote_cons _ _ _ _ lsw Eq) // Hname. fsm_simpl. rewrite lookup_insert_eq.
    intros (? & [= <-] & H). rewrite Hc in Hwc. by apply Hwc.
Qed.

Lemma release_wf f n c t : wf f → wf (release f n c t).1.
Proof.
  intros Hwf. rewrite /release. destruct (locks f !! n) as [lk|] eqn:Hn; [|done].
  case_match eqn:E1; [done|]. case_match; [done|].
  apply orb_false_iff in E1 as [_ Hc%negb_false_iff%bool_decide_eq_true].
  pose proof (lo_holder_lease _ _ _ (wfx_locks _ _ _ _ Hwf _ _ Hn)) as [ls Hl].
  rewrite Hc in Hl. rewrite Hl. cbn [fst].
  destruct (promote_unmark_commute _ _ _ _ _ Hwf Hn Hc Hl) as (Hl' & El & Es).
  apply (wfx_wf c). eapply wfx_ext; [symmetry; exact El|symmetry; exact Es|].
  apply (wfx_wf c) in Hwf.
  rewrite -{1}(unmark_empty n).
  apply wfx_unmark_held; [|done|by eapply promote_not_holds]. by apply promote_wfx.
Qed.

Lemma acquire_wf f n c v b : wf f → wf (acquire f n c v b).1.
Proof.
  intros Hwf. rewrite /acquire. destruct (leases f !! c) as [ls|] eqn:Hl; [|done].
  destruct (locks f !! n) as [lk|] eqn:Hn; [|by eapply grant_wf].
  case_bool_decide as Hh; [by destruct (lo_holder _ _ _ (wfx_locks _ _ _ _ Hwf _ _ Hn))|].
  case_bool_decide; [done|]. destruct b; [done|]. case_bool_decide; [done|].
  by eapply enqueue_wf.
Qed.

Lemma leaseGrant_wf f c ttl now : wf f → c ≠ "" → wf (leaseGrant f c ttl now).1.
Proof.
  intros Hwf Hc. rewrite /leaseGrant. cbn [fst]. destruct (leases f !! c) as [ls|] eqn:Hl.
  - by eapply wfx_put_same.
  - eapply wfx_put_lease; [done| |done]. split; [done..| |]; intros n;
      pose proof (wfx_dead _ _ _ _ _ n Hwf Hl); set_solver.
Qed.

Lemma leaseKeepAlive_wf f c now : wf f → wf (leaseKeepAlive f c now).1.
Proof.
  intros Hwf. rewrite /leaseKeepAlive. destruct (leases f !! c) as [ls|] eqn:Hl; [|done].
  by eapply wfx_put_same.
Qed.
End preservation.

(** ** Dropping a lease *)
Section drop_lease.
Implicit Types f : FSM.

Lemma promote_holds_other c X Y f n lk n' :
  wfx c X Y f → locks f !! n = Some lk → n' ≠ n → locks (promote f lk) !! n' = locks f !! n'.
Proof.
  intros Hwf Hn Hne. pose proof (lo_name _ _ _ (wfx_locks _ _ _ _ Hwf _ _ Hn)) as Hname.
  destruct (lk_queue lk) as [|w q] eqn:Eq.
  - rewrite promote_nil // Hname. fsm_simpl. by rewrite lookup_delete_ne.
  - destruct (wfx_queue_head _ _ _ _ _ _ _ _ Hwf Hn Eq) as (lsw & Hlw & _).
    rewrite (promote_cons _ _ _ _ lsw Eq) // Hname. fsm_simpl. by rewrite lookup_insert_ne.
Qed.

Lemma promote_lease_holder c X Y f n lk :
  wfx c X Y f → locks f !! n = Some lk → lk_holder lk = c →
  leases (promote f lk) !! c = leases f !! c.
Proof.
  intros Hwf Hn Hc. destruct (lk_queue lk) as [|w q] eqn:Eq.
  - rewrite promote_nil //. by fsm_simpl.
  - destruct (wfx_queue_head _ _ _ _ _ _ _ _ Hwf Hn Eq) as (lsw & Hlw & _ & Hwc & _).
    rewrite (promote_cons _ _ _ _ lsw Eq) //. fsm_simpl. by rewrite lookup_insert_ne; [congruence|].
Qed.

Lemma dropHeld_wfx c X Y f n : wfx c X Y f → ∃ X', wfx c X' Y (dropHeld c f n).
Proof.
  intros Hwf. rewrite /dropHeld. destruct (locks f !! n) as [lk|] eqn:Hn; [|by exists X].
  case_bool_decide as Hc; simpl; [|by exists X]. exists (X ∪ {[n]}). by apply promote_wfx.
Qed.

Lemma dropHeld_holds c X Y f n n' :
  wfx c X Y f → holds (dropHeld c f n) c n' → holds f c n' ∧ n' ≠ n.
Proof.
  intros Hwf. rewrite /dropHeld. destruct (locks f !! n) as [lk|] eqn:Hn.
  - case_bool_decide as Hc; simpl; intros Hh.
    + destruct (decide (n' = n)) as [->|Hne]; [by eapply promote_not_holds in Hh|].
      split; [|done]. revert Hh. rewrite /holds. by erewrite promote_holds_other.
    + split; [done|]. intros ->. apply Hc. by apply (holds_lookup _ _ _ _ Hn).
  - intros Hh. split; [done|]. intros ->. by eapply holds_None.
Qed.

Lemma dropHeld_lease c X Y f n : wfx c X Y f → leases (dropHeld c f n) !! c = leases f !! c.
Proof.
  intros Hwf. rewrite /dropHeld. destruct (locks f !! n) as [lk|] eqn:Hn; [|done].
  case_bool_decide as Hc; simpl; [|done]. by eapply promote_lease_holder.
Qed.

Lemma dropWaiting_wfx c X Y f n : wfx c X Y f → ∃ Y', wfx c X Y' (dropWaiting c f n).
Proof.
  intros Hwf. rewrite /dropWaiting. destruct (locks f !! n) as [lk|] eqn:Hn; [|by exists Y].
  destruct (removeWaiter _ _) as [q|] eqn:Hq; [|by exists Y]. exists (Y ∪ {[n]}). by apply leave_wfx.
Qed.

Lemma dropWaiting_waits c X Y f n n' :
  wfx c X Y f → waits (dropWaiting c f n) c n' → waits f c n' ∧ n' ≠ n.
Proof.
  intros Hwf. rewrite /dropWaiting. destruct (locks f !! n) as [lk|] eqn:Hn.
  - pose proof (lo_nodup _ _ _ (wfx_locks _ _ _ _ Hwf _ _ Hn)) as Hnd.
    destruct (removeWaiter _ _) as [q|] eqn:Hq; intros Hw.
    + destruct (decide (n' = n)) as [->|Hne]; [by eapply leave_not_waits in Hw|].
      split; [|done]. revert Hw. rewrite /waits. fsm_simpl. by rewrite lookup_insert_ne.
    + split; [done|]. intros ->. apply removeWaiter_None in Hq.
      by apply (waits_lookup _ _ _ _ Hn) in Hw.
  - intros Hw. split; [done|]. intros ->. by eapply waits_None.
Qed.

Lemma dropWaiting_holds c f n id n' : holds (dropWaiting c f n) id n' ↔ holds f id n'.
Proof.
  rewrite /dropWaiting. destruct (locks f !! n) as [lk|] eqn:Hn; [|done].
  destruct (removeWaiter _ _) as [q|]; [|done].
  rewrite (holds_insert f _ n (with_queue lk q)) //. case_decide as E; [|done].
  subst. by rewrite (holds_lookup _ _ _ _ Hn).
Qed.

(** The state between the two loops of [dropLease]: the client holds nothing
    and its waiting index is still exact. *)
Lemma dropHeld_loop c f ls :
  wf f → leases f !! c = Some ls →
  let g := foldl (dropHeld c) f (sortedSet (ls_held ls)) in
  (∃ X, wfx c X ∅ g) ∧ leases g !! c = Some ls ∧ ∀ n, ¬ holds g c n.
Proof.
  intros Hwf Hl g. apply (wfx_wf c) in Hwf.
  destruct (foldl_shrink (λ s, (∃ X, wfx c X ∅ s) ∧ leases s !! c = Some ls) (λ s n, holds s c n)
    (dropHeld c) (sortedSet (ls_held ls)) f) as [[Hg Hlg] Hnone].
  - split; [by exists ∅|done].
  - intros s x [[X HX] Hs]. split; [by eapply dropHeld_wfx|]. by rewrite (dropHeld_lease _ X ∅).
  - intros s x y [[X HX] _]. by eapply dropHeld_holds.
  - split_and!; [done..|]. intros n [Hn Hnot]%Hnone. apply Hnot, elem_of_sortedSet.
    apply (le_held _ _ _ _ _ _ (wfx_leases _ _ _ _ Hwf _ _ Hl)). by left.
Qed.

Lemma dropWaiting_loop c X f ls :
  wfx c X ∅ f → leases f !! c = Some ls → (∀ n, ¬ holds f c n) →
  let g := foldl (dropWaiting c) f (sortedSet (ls_waiting ls)) in
  (∃ Y, wfx c X Y g) ∧ ∀ n, ¬ holds g c n ∧ ¬ waits g c n.
Proof.
  intros Hwf Hl Hh g.
  destruct (foldl_shrink (λ s, (∃ Y, wfx c X Y s) ∧ ∀ n, ¬ holds s c n) (λ s n, waits s c n)
    (dropWaiting c) (sortedSet (ls_waiting ls)) f) as [[Hg Hhg] Hnone].
  - split; [by exists ∅|done].
  - intros s x [[Y HY] Hs]. split; [by eapply dropWaiting_wfx|]. intros n. by rewrite dropWaiting_holds.
  - intros s x y [[Y HY] _]. by eapply dropWaiting_waits.
  - split; [done|]. intros n. split; [done|]. intros [Hn Hnot]%Hnone. apply Hnot, elem_of_sortedSet.
    apply (le_waiting _ _ _ _ _ _ (wfx_leases _ _ _ _ Hwf _ _ Hl)). by left.
Qed.

(** [dropLease] in terms of its two loops. *)
Lemma dropLease_eq f c ls :
  wf f → leases f !! c = Some ls →
  let f1 := foldl (dropHeld c) f (sortedSet (ls_held ls)) in
  let f2 := foldl (dropWaiting c) f1 (sortedSet (ls_waiting ls)) in
  dropLease f c = set_leases f2 (delete c (leases f2)).
Proof.
  intros Hwf Hl. pose proof (dropHeld_loop _ _ _ Hwf Hl) as (_ & Hl1 & _).
  pose proof (le_id _ _ _ _ _ _ (wfx_leases _ _ _ _ Hwf _ _ Hl)) as Hid.
  by rewrite /dropLease Hl Hid Hl1.
Qed.

Lemma dropLease_wf f c : wf f → wf (dropLease f c).
Proof.
  intros Hwf. destruct (leases f !! c) as [ls|] eqn:Hl; [|by rewrite /dropLease Hl].
  rewrite (dropLease_eq _ _ _ Hwf Hl).
  destruct (dropHeld_loop _ _ _ Hwf Hl) as ([X HX] & Hl1 & Hh).
  destruct (dropWaiting_loop _ _ _ _ HX Hl1 Hh) as ([Y HY] & Hnone). by eapply wfx_delete_lease.
Qed.

Lemma dispatch_wf f c : wf f → cmd_ok c → wf (dispatch f c).1.
Proof.
  intros Hwf Hc. destruct c; cbn [dispatch cmd_ok] in *; auto using acquire_wf, release_wf, cancelWait_wf,
    proclaim_wf, leaseGrant_wf, leaseKeepAlive_wf.
  - rewrite /leaseRevoke. repeat case_match; [by apply dropLease_wf|done].
  - rewrite /leaseExpire. repeat case_match; simpl; auto using dropLease_wf.
Qed.

Lemma incr_revision_wf f : wf f → wf (incr_revision f).
Proof. by apply wfx_ext. Qed.
End drop_lease.

#[export] Hint Resolve wf_New dispatch_wf incr_revision_wf : fsm.
