(* ===== verification/FsmSpec.v ===== *)
(** * Abstract lock service and refinement

    The contract of a shard, without the held/waiting indexes: a map of owned
    keys with their queues, the live leases, the token counter and the event
    log, changed only by seven atomic transitions.  [plan] says which transitions
    a command stands for, scanning all locks where the code follows an index.
    On every well-formed state [Fsm.dispatch] carries out exactly the plan of
    its command and answers with the outcome the contract prescribes. *)
From S2P Require Import Prelude GoStrings Keypath Fsm FsmInv.

Local Open Scope Z_scope.

(** ** Abstract states and atomic transitions *)
Record AState := {
  a_locks : gmap string lock;
  a_leases : gmap string (Z * Z); (* ttl in ms, deadline in unix nanoseconds *)
  a_seq : Z;
  a_rev : Z;
  a_log : option (list Event)
}.

Definition abs_lease (ls : lease) : Z * Z := (ls_ttlMS ls, ls_expireAt ls).

Definition abs (f : FSM) : AState :=
  {| a_locks := locks f; a_leases := abs_lease <$> leases f; a_seq := seq f; a_rev := revision f;
     a_log := notifier f |}.

Inductive mop :=
| MGrant (k c : string) (v : gobytes)    (* a free key goes to [c] *)
| MEnqueue (k c : string) (v : gobytes)  (* [c] joins the queue of [k] *)
| MHandover (k : string)                 (* [k] goes to the head of its queue, or is freed *)
| MLeave (k c : string)                  (* [c] leaves the queue of [k] *)
| MPublish (k : string) (v : gobytes)    (* the holder of [k] publishes a value *)
| MLease (c : string) (ttl deadline : Z) (* a lease is created or moved *)
| MForget (c : string).                  (* a lease disappears *)

Definition next_token (a : AState) : Z := u64 (a_seq a + 1).

Definition a_emit (a : AState) (k h : string) (t : Z) (v : gobytes) : option (list Event) :=
  match a_log a with
  | None => None
  | Some log => Some (log ++ [{| ev_Key := k; ev_Holder := h; ev_Token := t; ev_Value := v;
                                 ev_Revision := a_rev a |}])
  end.

Definition micro (a : AState) (m : mop) : AState :=
  match m with
  | MGrant k c v =>
      {| a_locks := <[k := {| lk_name := k; lk_holder := c; lk_token := next_token a;
                              lk_value := v; lk_queue := [] |}]> (a_locks a);
         a_leases := a_leases a; a_seq := next_token a; a_rev := a_rev a;
         a_log := a_emit a k c (next_token a) v |}
  | MEnqueue k c v =>
      match a_locks a !! k with
      | None => a
      | Some lk =>
          {| a_locks := <[k := with_queue lk (lk_queue lk ++
                           [{| w_clientID := c; w_seq := next_token a; w_value := v |}])]> (a_locks a);
             a_leases := a_leases a; a_seq := next_token a; a_rev := a_rev a; a_log := a_log a |}
      end
  | MHandover k =>
      match a_locks a !! k with
      | None => a
      | Some lk =>
          match lk_queue lk with
          | [] =>
              {| a_locks := delete k (a_locks a); a_leases := a_leases a; a_seq := a_seq a;
                 a_rev := a_rev a; a_log := a_emit a k "" 0 None |}
          | w :: q =>
              {| a_locks := <[k := {| lk_name := k; lk_holder := w_clientID w; lk_token := next_token a;
                                      lk_value := w_value w; lk_queue := q |}]> (a_locks a);
                 a_leases := a_leases a; a_seq := next_token a; a_rev := a_rev a;
                 a_log := a_emit a k (w_clientID w) (next_token a) (w_value w) |}
          end
      end
  | MLeave k c =>
      match a_locks a !! k with
      | None => a
      | Some lk =>
          match removeWaiter (lk_queue lk) c with
          | None => a
          | Some q =>
              {| a_locks := <[k := with_queue lk q]> (a_locks a); a_leases := a_leases a;
                 a_seq := a_seq a; a_rev := a_rev a; a_log := a_log a |}
          end
      end
  | MPublish k v =>
      match a_locks a !! k with
      | None => a
      | Some lk =>
          {| a_locks := <[k := {| lk_name := k; lk_holder := lk_holder lk; lk_token := lk_token lk;
                                  lk_value := v; lk_queue := lk_queue lk |}]> (a_locks a);
             a_leases := a_leases a; a_seq := a_seq a; a_rev := a_rev a;
             a_log := a_emit a k (lk_holder lk) (lk_token lk) v |}
      end
  | MLease c ttl deadline =>
      {| a_locks := a_locks a; a_leases := <[c := (ttl, deadline)]> (a_leases a); a_seq := a_seq a;
         a_rev := a_rev a; a_log := a_log a |}
  | MForget c =>
      {| a_locks := a_locks a; a_leases := delete c (a_leases a); a_seq := a_seq a; a_rev := a_rev a;
         a_log := a_log a |}
  end.

(** ** What a command stands for *)
Definition live (a : AState) (c : string) : bool := bool_decide (is_Some (a_leases a !! c)).

Definition is_holder (a : AState) (c k : string) : bool :=
  match a_locks a !! k with
  | Some lk => bool_decide (lk_holder lk = c)
  | None => false
  end.

Definition is_waiter (a : AState) (c k : string) : bool :=
  match a_locks a !! k with
  | Some lk => bool_decide (c ∈ queue_ids lk)
  | None => false
  end.

(** All keys [c] holds, and all keys [c] waits on, in ascending order, found by
    scanning every lock. *)
Definition held_keys (a : AState) (c : string) : list string :=
  filter (λ k, is_holder a c k = true) (sortedKeys (a_locks a)).
Definition waiting_keys (a : AState) (c : string) : list string :=
  filter (λ k, is_waiter a c k = true) (sortedKeys (a_locks a)).

Definition drop_plan (a : AState) (c : string) : list mop :=
  (MHandover <$> held_keys a c) ++ ((λ k, MLeave k c) <$> waiting_keys a c) ++ [MForget c].

Definition acquire_plan (a : AState) (k c : string) (v : gobytes) (try : bool) : list mop :=
  if negb (live a c) then []
  else match a_locks a !! k with
       | None => [MGrant k c v]
       | Some lk => if is_holder a c k || try || is_waiter a c k then [] else [MEnqueue k c v]
       end.

(** The holder of [k] presenting its own token. *)
Definition fenced (a : AState) (k c : string) (t : Z) : bool :=
  match a_locks a !! k with
  | Some lk => bool_decide (lk_holder lk = c) && (lk_token lk =? t)
  | None => false
  end.

Definition plan (a : AState) (cmd : Cmd) : list mop :=
  match cmd with
  | AcquireLock k c try => acquire_plan a k c None try
  | Campaign k c v => acquire_plan a k c v false
  | ReleaseLock k c t | Resign k c t => if fenced a k c t then [MHandover k] else []
  | CancelWait k c => if is_waiter a c k then [MLeave k c] else []
  | Proclaim k c t v => if fenced a k c t then [MPublish k v] else []
  | LeaseGrant c ttl now => [MLease c ttl (leaseDeadline now ttl)]
  | LeaseKeepAlive c now =>
      match a_leases a !! c with
      | Some (ttl, _) => [MLease c ttl (leaseDeadline now ttl)]
      | None => []
      end
  | LeaseRevoke c => if live a c then drop_plan a c else []
  | LeaseExpire c now =>
      match a_leases a !! c with
      | Some (_, deadline) => if now <? deadline then [] else drop_plan a c
      | None => []
      end
  end.

Definition acquire_outcome (a : AState) (k c : string) (try : bool) : Outcome :=
  if negb (live a c) then OUTCOME_NO_LEASE
  else match a_locks a !! k with
       | None => OUTCOME_GRANTED
       | Some _ => if is_holder a c k then OUTCOME_GRANTED
                   else if try then OUTCOME_NOT_ACQUIRED else OUTCOME_QUEUED
       end.

Definition outcome_of (a : AState) (cmd : Cmd) : Outcome :=
  match cmd with
  | AcquireLock k c try => acquire_outcome a k c try
  | Campaign k c _ => acquire_outcome a k c false
  | ReleaseLock k c t | Resign k c t =>
      if fenced a k c t then OUTCOME_RELEASED
      else if is_holder a c k then OUTCOME_STALE_TOKEN else OUTCOME_NOT_HOLDER
  | CancelWait k c => if is_waiter a c k then OUTCOME_RELEASED else OUTCOME_NOOP
  | Proclaim k c t _ =>
      if fenced a k c t then OUTCOME_VALUE_UPDATED
      else if is_holder a c k then OUTCOME_STALE_TOKEN else OUTCOME_NOT_HOLDER
  | LeaseGrant _ _ _ => OUTCOME_LEASE_GRANTED
  | LeaseKeepAlive c _ => if live a c then OUTCOME_LEASE_RENEWED else OUTCOME_NOT_FOUND
  | LeaseRevoke c => if live a c then OUTCOME_LEASE_REVOKED else OUTCOME_NOT_FOUND
  | LeaseExpire c now =>
      match a_leases a !! c with
      | Some (_, deadline) => if now <? deadline then OUTCOME_NOOP else OUTCOME_LEASE_EXPIRED
      | None => OUTCOME_NOT_FOUND
      end
  end.

(** ** Refinement *)
Lemma AState_eq a b :
  a_locks a = a_locks b → a_leases a = a_leases b → a_seq a = a_seq b → a_rev a = a_rev b →
  a_log a = a_log b → a = b.
Proof. destruct a, b. simpl. congruence. Qed.

Section abs_updates.
Implicit Types f : FSM.

Lemma abs_emit f k h t v :
  abs (emit f k h t v) =
    {| a_locks := locks f; a_leases := abs_lease <$> leases f; a_seq := seq f; a_rev := revision f;
       a_log := a_emit (abs f) k h t v |}.
Proof. rewrite /emit /a_emit /=. destruct (notifier f) eqn:E; [done|]. by rewrite /abs E. Qed.

(** Index bookkeeping is invisible. *)
Lemma abs_lease_insert (m : gmap string lease) c ls ls' :
  m !! c = Some ls → abs_lease ls' = abs_lease ls → abs_lease <$> <[c := ls']> m = abs_lease <$> m.
Proof.
  intros Hl E. rewrite fmap_insert E. apply insert_id. by rewrite lookup_fmap Hl.
Qed.

Lemma is_holder_holds f c k : is_holder (abs f) c k = true ↔ holds f c k.
Proof.
  rewrite /is_holder /holds /=. destruct (locks f !! k); [rewrite bool_decide_eq_true|]; naive_solver.
Qed.
Lemma is_waiter_waits f c k : is_waiter (abs f) c k = true ↔ waits f c k.
Proof.
  rewrite /is_waiter /waits /=. destruct (locks f !! k); [rewrite bool_decide_eq_true|]; naive_solver.
Qed.

Lemma live_abs f c : live (abs f) c = bool_decide (is_Some (leases f !! c)).
Proof. apply bool_decide_ext. simpl. rewrite lookup_fmap. apply fmap_is_Some. Qed.

Lemma lookup_abs_lease f c : a_leases (abs f) !! c = abs_lease <$> leases f !! c.
Proof. apply lookup_fmap. Qed.
End abs_updates.

Section handover.
Implicit Types f : FSM.

Lemma promote_refines c X Y f n lk :
  wfx c X Y f → locks f !! n = Some lk → abs (promote f lk) = micro (abs f) (MHandover n).
Proof.
  intros Hwf Hn. pose proof (lo_name _ _ _ (wfx_locks _ _ _ _ Hwf _ _ Hn)) as Hname.
  rewrite /= Hn. destruct (lk_queue lk) as [|w q] eqn:Eq.
  - rewrite promote_nil // abs_emit Hname. by apply AState_eq.
  - destruct (wfx_queue_head _ _ _ _ _ _ _ _ Hwf Hn Eq) as (ls & Hls & _).
    rewrite (promote_cons _ _ _ _ _ Eq Hls) abs_emit Hname. apply AState_eq; simpl; [|..|done|done|done].
    + by rewrite /promoted Hname.
    + by eapply abs_lease_insert.
Qed.

Lemma dropWaiting_refines f c n : abs (dropWaiting c f n) = micro (abs f) (MLeave n c).
Proof.
  rewrite /dropWaiting /=. destruct (locks f !! n) as [lk|]; [|done].
  by destruct (removeWaiter (lk_queue lk) c).
Qed.

Lemma dropHeld_loop_refines c X f l :
  wfx c X ∅ f → NoDup l → (∀ n, n ∈ l → holds f c n) →
  abs (foldl (dropHeld c) f l) = foldl micro (abs f) (MHandover <$> l).
Proof.
  revert X f. induction l as [|n l IH]; intros X f Hwf Hnd Hh; [done|].
  apply NoDup_cons in Hnd as [Hnl Hnd].
  destruct (Hh n) as (lk & Hn & Hc); [by left|].
  assert (dropHeld c f n = promote f lk) as E.
  { rewrite /dropHeld Hn. by rewrite bool_decide_eq_true_2. }
  rewrite fmap_cons. cbn [foldl]. rewrite E -(promote_refines _ _ _ _ _ _ Hwf Hn).
  apply (IH (X ∪ {[n]})); [by apply promote_wfx|done|].
  intros n' Hn'. destruct (Hh n') as (lk' & Hlk' & Hc'); [by right|]. exists lk'.
  split; [|done]. rewrite (promote_holds_other _ _ _ _ _ _ _ Hwf Hn) //. by intros ->.
Qed.

Lemma dropWaiting_loop_refines c f l :
  abs (foldl (dropWaiting c) f l) = foldl micro (abs f) ((λ k, MLeave k c) <$> l).
Proof.
  revert f. induction l as [|n l IH]; intros f; [done|].
  rewrite fmap_cons. cbn [foldl]. by rewrite IH dropWaiting_refines.
Qed.

(** The index of a lease lists what a scan of all locks finds. *)
Lemma held_index_scan f c ls :
  wf f → leases f !! c = Some ls → sortedSet (ls_held ls) = held_keys (abs f) c.
Proof.
  intros Hwf Hl. symmetry. apply sortedSet_unique.
  - apply NoDup_filter, NoDup_sortedKeys.
  - apply StronglySorted_filter, sortedSet_sorted.
  - intros n. rewrite list_elem_of_filter elem_of_sortedKeys is_holder_holds.
    rewrite (le_held _ _ _ _ _ _ (wfx_leases _ _ _ _ Hwf _ _ Hl)).
    split; [naive_solver|]. intros [Hh|[_ []%elem_of_empty]].
    split; [done|]. destruct Hh as (lk & Hlk & _). by exists lk.
Qed.
Lemma waiting_index_scan f c ls :
  wf f → leases f !! c = Some ls → sortedSet (ls_waiting ls) = waiting_keys (abs f) c.
Proof.
  intros Hwf Hl. symmetry. apply sortedSet_unique.
  - apply NoDup_filter, NoDup_sortedKeys.
  - apply StronglySorted_filter, sortedSet_sorted.
  - intros n. rewrite list_elem_of_filter elem_of_sortedKeys is_waiter_waits.
    rewrite (le_waiting _ _ _ _ _ _ (wfx_leases _ _ _ _ Hwf _ _ Hl)).
    split; [naive_solver|]. intros [Hh|[_ []%elem_of_empty]].
    split; [done|]. destruct Hh as (lk & Hlk & _). by exists lk.
Qed.

Lemma dropLease_refines f c ls :
  wf f → leases f !! c = Some ls →
  abs (dropLease f c) = foldl micro (abs f) (drop_plan (abs f) c).
Proof.
  intros Hwf Hl. rewrite (dropLease_eq _ _ _ Hwf Hl) /drop_plan !foldl_app.
  rewrite -(held_index_scan _ _ _ Hwf Hl) -(waiting_index_scan _ _ _ Hwf Hl).
  pose proof Hwf as Hwf'. apply (wfx_wf c) in Hwf'.
  rewrite -(dropHeld_loop_refines c ∅); [done|apply NoDup_sortedSet| |].
  { intros n Hn%elem_of_sortedSet. apply (le_held _ _ _ _ _ _ (wfx_leases _ _ _ _ Hwf _ _ Hl)) in Hn.
    destruct Hn as [|[_ []%elem_of_empty]]. done. }
  rewrite -dropWaiting_loop_refines. simpl. apply AState_eq; [done| |done..].
  simpl. by rewrite fmap_delete.
Qed.
End handover.

(** The conditions the code tests, as the contract states them. *)
Section conditions.
Implicit Types f : FSM.

Lemma is_holder_lookup f c k lk :
  locks f !! k = Some lk → is_holder (abs f) c k = bool_decide (lk_holder lk = c).
Proof. rewrite /is_holder /=. by intros ->. Qed.

Lemma waiting_is_waiter f c ls k :
  wf f → leases f !! c = Some ls → bool_decide (k ∈ ls_waiting ls) = is_waiter (abs f) c k.
Proof.
  intros Hwf Hl. apply eq_true_iff_eq. rewrite bool_decide_eq_true is_waiter_waits.
  rewrite (le_waiting _ _ _ _ _ _ (wfx_leases _ _ _ _ Hwf _ _ Hl)). set_solver.
Qed.

Lemma removeWaiter_is_waiter f c k lk :
  locks f !! k = Some lk →
  is_waiter (abs f) c k = bool_decide (is_Some (removeWaiter (lk_queue lk) c)).
Proof.
  rewrite /is_waiter /=. intros ->. apply bool_decide_ext.
  destruct (removeWaiter _ _) eqn:E; [|apply removeWaiter_None in E; split; [done|by intros []]].
  split; [done|]. intros _. apply dec_stable. intros H%removeWaiter_None. congruence.
Qed.

(** The guard of [release] and [proclaim] on a stored lock. *)
Lemma holder_guard f k c lk :
  wf f → locks f !! k = Some lk →
  bool_decide (lk_holder lk = "") || negb (bool_decide (lk_holder lk = c)) = negb (is_holder (abs f) c k).
Proof.
  intros Hwf Hk. rewrite (is_holder_lookup _ _ _ _ Hk).
  rewrite (bool_decide_eq_false_2 (lk_holder lk = "")) //.
  apply (lo_holder _ _ _ (wfx_locks _ _ _ _ Hwf _ _ Hk)).
Qed.
End conditions.

Section dispatch.
Implicit Types f : FSM.

Lemma acquire_refines f k c v b :
  wf f →
  abs (acquire f k c v b).1 = foldl micro (abs f) (acquire_plan (abs f) k c v b) ∧
  r_Outcome (acquire f k c v b).2 = acquire_outcome (abs f) k c b.
Proof.
  intros Hwf. rewrite /acquire /acquire_plan /acquire_outcome live_abs.
  destruct (leases f !! c) as [ls|] eqn:Hl; [|done]. cbn [a_locks abs].
  destruct (locks f !! k) as [lk|] eqn:Hk.
  - rewrite (is_holder_lookup _ _ _ _ Hk) -(waiting_is_waiter _ _ _ k Hwf Hl).
    pose proof (lo_holder _ _ _ (wfx_locks _ _ _ _ Hwf _ _ Hk)) as Hne.
    rewrite (bool_decide_eq_false_2 (lk_holder lk = "")) //.
    case_bool_decide; [done|]. destruct b; [done|]. case_bool_decide; [done|].
    simpl. rewrite Hk. split; [|done]. apply AState_eq; [done| |done..]. by eapply abs_lease_insert.
  - destruct (wfx_leases _ _ _ _ Hwf _ _ Hl) as [Hid _ _ _].
    rewrite /grant Hk Hid /= abs_emit. split; [|done]. apply AState_eq; [done| |done..].
    by eapply abs_lease_insert.
Qed.

Lemma release_refines f k c t :
  wf f →
  abs (release f k c t).1 = foldl micro (abs f) (if fenced (abs f) k c t then [MHandover k] else []) ∧
  r_Outcome (release f k c t).2 =
    if fenced (abs f) k c t then OUTCOME_RELEASED
    else if is_holder (abs f) c k then OUTCOME_STALE_TOKEN else OUTCOME_NOT_HOLDER.
Proof.
  intros Hwf. rewrite /release /fenced. cbn [a_locks abs].
  destruct (locks f !! k) as [lk|] eqn:Hk; [|by rewrite /is_holder /= Hk].
  rewrite (holder_guard _ _ _ _ Hwf Hk) (is_holder_lookup _ _ _ _ Hk).
  case_bool_decide as Hc; [|done]. cbn [negb andb].
  destruct (lk_token lk =? t); [|done]. cbn [negb].
  pose proof (lo_holder_lease _ _ _ (wfx_locks _ _ _ _ Hwf _ _ Hk)) as [ls Hl]. rewrite Hc in Hl.
  rewrite Hl. cbn [fst snd foldl]. split; [|done].
  set (f1 := put_lease f c (with_index ls (ls_held ls ∖ {[k]}) (ls_waiting ls))).
  assert (abs f1 = abs f) as <- by (apply AState_eq; try done; by eapply abs_lease_insert).
  rewrite /= Hk. destruct (lk_queue lk) as [|w q] eqn:Eq.
  - rewrite promote_nil // abs_emit. rewrite (lo_name _ _ _ (wfx_locks _ _ _ _ Hwf _ _ Hk)). done.
  - destruct (wfx_queue_head _ _ _ _ _ _ _ _ Hwf Hk Eq) as (lsw & Hlw & _ & Hwc & _ & _ & Hname).
    assert (leases f1 !! w_clientID w = Some lsw) as Hlw1.
    { rewrite /f1 /=. rewrite lookup_insert_ne //. congruence. }
    rewrite (promote_cons _ _ _ _ lsw Eq Hlw1) abs_emit Hname. apply AState_eq; [| |done..].
    + by rewrite /= /promoted Hname.
    + by eapply abs_lease_insert.
Qed.

Lemma cancelWait_refines f k c :
  wf f →
  abs (cancelWait f k c).1 = foldl micro (abs f) (if is_waiter (abs f) c k then [MLeave k c] else []) ∧
  r_Outcome (cancelWait f k c).2 = if is_waiter (abs f) c k then OUTCOME_RELEASED else OUTCOME_NOOP.
Proof.
  intros Hwf. rewrite /cancelWait. destruct (locks f !! k) as [lk|] eqn:Hk; [|by rewrite /is_waiter /= Hk].
  rewrite (removeWaiter_is_waiter _ _ _ _ Hk).
  destruct (removeWaiter (lk_queue lk) c) as [q|] eqn:Hq; [|done].
  simpl. rewrite Hk Hq. split; [|done].
  destruct (leases f !! c) as [ls|] eqn:Hl; [|done]. apply AState_eq; [done| |done..].
  by eapply abs_lease_insert.
Qed.

Lemma proclaim_refines f k c t v :
  wf f →
  abs (proclaim f k c t v).1 = foldl micro (abs f) (if fenced (abs f) k c t then [MPublish k v] else []) ∧
  r_Outcome (proclaim f k c t v).2 =
    if fenced (abs f) k c t then OUTCOME_VALUE_UPDATED
    else if is_holder (abs f) c k then OUTCOME_STALE_TOKEN else OUTCOME_NOT_HOLDER.
Proof.
  intros Hwf. rewrite /proclaim /fenced. cbn [a_locks abs].
  destruct (locks f !! k) as [lk|] eqn:Hk; [|by rewrite /is_holder /= Hk].
  rewrite (holder_guard _ _ _ _ Hwf Hk) (is_holder_lookup _ _ _ _ Hk).
  case_bool_decide as Hc; [|done]. cbn [negb andb].
  destruct (lk_token lk =? t); [|done]. cbn [negb fst snd foldl micro]. split; [|done].
  rewrite abs_emit /= Hk. by rewrite (lo_name _ _ _ (wfx_locks _ _ _ _ Hwf _ _ Hk)).
Qed.

Lemma dispatch_refines f cmd :
  wf f →
  abs (dispatch f cmd).1 = foldl micro (abs f) (plan (abs f) cmd) ∧
  r_Outcome (dispatch f cmd).2 = outcome_of (abs f) cmd.
Proof.
  intros Hwf. destruct cmd; cbn [dispatch plan outcome_of];
    auto using acquire_refines, release_refines, cancelWait_refines, proclaim_refines.
  - rewrite /leaseGrant. split; [|done]. simpl. apply AState_eq; [done| |done..]. by rewrite /= fmap_insert.
  - rewrite /leaseKeepAlive live_abs lookup_abs_lease.
    destruct (leases f !! client_id) as [ls|] eqn:Hl; [|done]. simpl.
    split; [|done]. apply AState_eq; [done| |done..]. by rewrite /= fmap_insert.
  - rewrite /leaseRevoke live_abs. destruct (leases f !! client_id) as [ls|] eqn:Hl; [|done].
    split; [|done]. by eapply dropLease_refines.
  - rewrite /leaseExpire lookup_abs_lease. destruct (leases f !! client_id) as [ls|] eqn:Hl; [|done].
    simpl. destruct (now_unix_nano <? ls_expireAt ls); [done|]. split; [|done]. by eapply dropLease_refines.
Qed.
End dispatch.
