(* ===== verification/FsmTrace.v ===== *)
(** * Runs of the shard state machine

    What holds along every sequence of applied commands: the token counter does
    not wrap for 2^63 commands, tokens of one key only grow and identify one
    acquisition, a token that stopped being current never becomes current again,
    queues are in arrival order and nobody is overtaken, and the last event
    published for a key describes its current owner. *)
From S2P Require Import Prelude GoStrings Keypath Fsm FsmInv FsmSpec.

Local Open Scope Z_scope.

(** ** Counting waiters *)
Definition waiters_of (lk : lock) : Z := Z.of_nat (length (lk_queue lk)).
Definition total_waiters (m : gmap string lock) : Z := map_fold (λ _ lk n, waiters_of lk + n) 0 m.

Section total_waiters.
Implicit Types m : gmap string lock.

Lemma total_waiters_delete m k lk :
  m !! k = Some lk → total_waiters m = waiters_of lk + total_waiters (delete k m).
Proof. intros H. rewrite /total_waiters (map_fold_delete_L _ _ k lk m) //. lia. Qed.

Lemma total_waiters_insert m k lk :
  total_waiters (<[k := lk]> m) = waiters_of lk + total_waiters (delete k m).
Proof. by rewrite (total_waiters_delete _ k lk) ?lookup_insert_eq // delete_insert_eq. Qed.

Lemma total_waiters_nonneg m : 0 ≤ total_waiters m.
Proof.
  rewrite /total_waiters. apply (map_fold_weak_ind (λ n _, 0 ≤ n)); [done|].
  intros k lk m' n _ Hn. rewrite /waiters_of. lia.
Qed.

Lemma total_waiters_update m k lk lk' :
  m !! k = Some lk →
  total_waiters (<[k := lk']> m) = total_waiters m + waiters_of lk' - waiters_of lk.
Proof. intros H. rewrite total_waiters_insert (total_waiters_delete _ _ _ H). lia. Qed.

Lemma total_waiters_fresh m k lk :
  m !! k = None → total_waiters (<[k := lk]> m) = total_waiters m + waiters_of lk.
Proof. intros H. rewrite total_waiters_insert delete_id //. lia. Qed.

Lemma waiters_of_le m k lk : m !! k = Some lk → waiters_of lk ≤ total_waiters m.
Proof.
  intros H. rewrite (total_waiters_delete _ _ _ H). pose proof (total_waiters_nonneg (delete k m)). lia.
Qed.
End total_waiters.

(** ** The token counter

    [seq] plus the number of waiters pays for every token that can still be
    handed out without a new acquire: one grant costs one, one enqueue two, and
    a handover turns a waiter into a token. *)
Definition potential (a : AState) : Z := a_seq a + total_waiters (a_locks a).

Definition cost (m : mop) : Z :=
  match m with
  | MGrant _ _ _ => 1
  | MEnqueue _ _ _ => 2
  | _ => 0
  end.

Definition costs (ms : list mop) : Z := foldr (λ m n, cost m + n) 0 ms.

(** When a transition makes sense: keys are granted when free, to named clients. *)
Definition enabled (a : AState) (m : mop) : Prop :=
  match m with
  | MGrant k c _ => a_locks a !! k = None ∧ c ≠ ""
  | MEnqueue _ c _ => c ≠ ""
  | _ => True
  end.

Fixpoint enabled_run (a : AState) (ms : list mop) : Prop :=
  match ms with
  | [] => True
  | m :: ms' => enabled a m ∧ enabled_run (micro a m) ms'
  end.

Lemma next_token_exact a : 0 ≤ a_seq a → a_seq a + 1 < 2 ^ 64 → next_token a = a_seq a + 1.
Proof. intros. apply u64_small. rewrite /in_u64. lia. Qed.

Lemma next_token_ne a : next_token a ≠ a_seq a.
Proof. rewrite /next_token. zlia. Qed.

Lemma potential_seq a : a_seq a ≤ potential a.
Proof. rewrite /potential. pose proof (total_waiters_nonneg (a_locks a)). lia. Qed.

Lemma cost_nonneg m : 0 ≤ cost m.
Proof. by destruct m. Qed.

Lemma waiters_of_removeWaiter q c q' lk :
  removeWaiter q c = Some q' → lk_queue lk = q → waiters_of (with_queue lk q') ≤ waiters_of lk.
Proof.
  intros (q1 & w & q2 & -> & -> & _)%removeWaiter_Some Hq.
  rewrite /waiters_of Hq /= !length_app /=. lia.
Qed.

Lemma micro_potential a m :
  enabled a m → 0 ≤ a_seq a → potential a + cost m < 2 ^ 64 →
  a_seq a ≤ a_seq (micro a m) ∧ potential (micro a m) ≤ potential a + cost m.
Proof.
  intros He H0 Hp. pose proof (potential_seq a) as Hs. rewrite /potential in Hp, Hs |- *.
  destruct m as [k c v|k c v|k|k c|k v|c ttl d|c]; cbn [micro cost] in *.
  - rewrite next_token_exact /= ?total_waiters_fresh; [lia|lia|apply He|]. rewrite /waiters_of /=. lia.
  - destruct (a_locks a !! k) as [lk|] eqn:Hk; [|lia]. simpl.
    rewrite next_token_exact ?(total_waiters_update _ _ _ _ Hk); [lia|lia|].
    rewrite /waiters_of /= length_app /=. lia.
  - destruct (a_locks a !! k) as [lk|] eqn:Hk; [|lia].
    pose proof (waiters_of_le _ _ _ Hk) as Hle. rewrite /waiters_of in Hle.
    destruct (lk_queue lk) as [|w q] eqn:Eq; simpl in *.
    + rewrite (total_waiters_delete _ _ _ Hk) /waiters_of. lia.
    + rewrite next_token_exact ?(total_waiters_update _ _ _ _ Hk); [lia|lia|].
      rewrite /waiters_of Eq /=. lia.
  - destruct (a_locks a !! k) as [lk|] eqn:Hk; [|lia].
    destruct (removeWaiter (lk_queue lk) c) as [q|] eqn:Hq; [|lia]. simpl.
    rewrite (total_waiters_update _ _ _ _ Hk). pose proof (waiters_of_removeWaiter _ _ _ _ Hq eq_refl). lia.
  - destruct (a_locks a !! k) as [lk|] eqn:Hk; [|lia]. simpl.
    rewrite (total_waiters_update _ _ _ _ Hk) /waiters_of /=. lia.
  - simpl. lia.
  - simpl. lia.
Qed.

(** The token a transition hands out is the next one, whenever it hands one out. *)
Lemma micro_next_token a m :
  enabled a m → 0 ≤ a_seq a → potential a + cost m < 2 ^ 64 →
  a_seq (micro a m) = a_seq a ∨ (a_seq (micro a m) = a_seq a + 1 ∧ next_token a = a_seq a + 1).
Proof.
  intros He H0 Hp. destruct (micro_potential a m He H0 Hp) as [Hle Hpot].
  pose proof (potential_seq (micro a m)) as Hs.
  assert (a_seq (micro a m) = a_seq a ∨ a_seq (micro a m) = next_token a) as [|Heq].
  { destruct m; simpl; repeat case_match; auto. }
  - by left.
  - right. rewrite Heq in Hle, Hs |- *. rewrite /next_token in Hle, Hs |- *. zlia.
Qed.

(** ** Order of tokens and queues *)
Record lock_ord (s : Z) (lk : lock) : Prop := {
  od_holder : lk_holder lk ≠ "";
  od_token : 0 < lk_token lk ≤ s;
  od_named : Forall (λ w, w_clientID w ≠ "") (lk_queue lk);
  od_bound : Forall (λ w, 0 < w_seq w ≤ s) (lk_queue lk);
  od_sorted : StronglySorted (λ w1 w2, w_seq w1 < w_seq w2) (lk_queue lk)
}.

Record ord (a : AState) : Prop := {
  ord_seq : 0 ≤ a_seq a;
  ord_locks : ∀ k lk, a_locks a !! k = Some lk → lock_ord (a_seq a) lk
}.

Section ord.
Lemma lock_ord_mono s s' lk : s ≤ s' → lock_ord s lk → lock_ord s' lk.
Proof.
  intros Hs [? [??] ? Hb ?]. split; [done|lia|done| |done].
  eapply Forall_impl; [exact Hb|]. simpl. intros w ?. lia.
Qed.

Lemma lock_ord_queue s lk q :
  lock_ord s lk → q `sublist_of` lk_queue lk → lock_ord s (with_queue lk q).
Proof.
  intros [? ? Hn Hb Hs] Hq. split; [done|done|..]; simpl.
  - by eapply Forall_sublist.
  - by eapply Forall_sublist.
  - by eapply StronglySorted_sublist.
Qed.

Lemma removeWaiter_sublist q c q' : removeWaiter q c = Some q' → q' `sublist_of` q.
Proof.
  intros (q1 & w & q2 & -> & -> & _)%removeWaiter_Some.
  apply sublist_app; [done|]. by apply sublist_cons.
Qed.

Lemma micro_ord a m :
  enabled a m → potential a + cost m < 2 ^ 64 → ord a → ord (micro a m).
Proof.
  intros He Hp [H0 Hl]. pose proof (micro_potential a m He H0 Hp) as [Hle _].
  assert (∀ k lk, a_locks a !! k = Some lk → lock_ord (a_seq (micro a m)) lk) as Hl'.
  { intros k lk Hk. eapply lock_ord_mono; [done|eauto]. }
  pose proof (micro_next_token a m He H0 Hp) as Hnt. pose proof (next_token_ne a) as Hne.
  split; [lia|]. intros k' lk'.
  destruct m as [k c v|k c v|k|k c|k v|c ttl d|c]; cbn [micro a_locks a_seq] in *; [..|apply Hl'|apply Hl'].
  - rewrite lookup_insert. case_decide; [intros [= <-]|apply Hl'].
    split; simpl; [apply He|lia|constructor..].
  - destruct (a_locks a !! k) as [lk|] eqn:Hk; [simpl in *|apply Hl'].
    rewrite lookup_insert. case_decide; [intros [= <-]|apply Hl'].
    destruct (Hl _ _ Hk) as [? ? Hn Hb Hs], (Hl' _ _ Hk) as [_ Ht _ Hb' _].
    split; simpl; [done|done|..].
    + apply Forall_app. by split; [|repeat constructor].
    + apply Forall_app. split; [done|]. repeat constructor; simpl; lia.
    + apply StronglySorted_snoc; [done|]. eapply Forall_impl; [exact Hb|]. simpl. intros w ?. lia.
  - destruct (a_locks a !! k) as [lk|] eqn:Hk; [|apply Hl'].
    destruct (Hl' _ _ Hk) as [? ? Hn Hb Hs], (Hl _ _ Hk) as [_ [??] _ _ _].
    destruct (lk_queue lk) as [|w q] eqn:Eq; simpl in *.
    + rewrite lookup_delete_Some. intros [_ ?]. by eapply Hl'.
    + rewrite lookup_insert. case_decide; [intros [= <-]|apply Hl'].
      apply Forall_cons in Hn as [? ?], Hb as [? ?]. apply StronglySorted_cons in Hs as [? ?].
      split; simpl; [done|lia|done..].
  - destruct (a_locks a !! k) as [lk|] eqn:Hk; [|apply Hl'].
    destruct (removeWaiter (lk_queue lk) c) as [q|] eqn:Hq; [simpl in *|apply Hl'].
    rewrite lookup_insert. case_decide; [intros [= <-]|apply Hl'].
    apply lock_ord_queue; [by eapply Hl'|]. by eapply removeWaiter_sublist.
  - destruct (a_locks a !! k) as [lk|] eqn:Hk; [simpl in *|apply Hl'].
    rewrite lookup_insert. case_decide; [intros [= <-]|apply Hl'].
    by destruct (Hl' _ _ Hk).
Qed.
End ord.

(** ** The event log *)
Definition held_event (e : Event) : Prop := ev_Holder e ≠ "".

(** A later event of the same key carries a larger token, or the same
    acquisition. *)
Definition succeeds (e1 e2 : Event) : Prop :=
  ev_Key e1 = ev_Key e2 → held_event e1 → held_event e2 →
  ev_Token e1 < ev_Token e2 ∨ (ev_Token e1 = ev_Token e2 ∧ ev_Holder e1 = ev_Holder e2).

Definition describes (e : Event) (olk : option lock) : Prop :=
  match olk with
  | Some lk => ev_Holder e = lk_holder lk ∧ ev_Token e = lk_token lk ∧ ev_Value e = lk_value lk
  | None => ev_Holder e = "" ∧ ev_Token e = 0 ∧ ev_Value e = None
  end.

Definition last_event (k : string) (log : list Event) : option Event :=
  last (filter (λ e, ev_Key e = k) log).

Record log_inv (a : AState) (log : list Event) : Prop := {
  li_bound : ∀ e, e ∈ log → held_event e → 0 < ev_Token e ≤ a_seq a;
  li_last : ∀ k, match last_event k log with
                 | Some e => describes e (a_locks a !! k)
                 | None => a_locks a !! k = None
                 end;
  li_current : ∀ e lk, e ∈ log → held_event e → a_locks a !! ev_Key e = Some lk →
      ev_Token e < lk_token lk ∨ (ev_Token e = lk_token lk ∧ ev_Holder e = lk_holder lk);
  li_succeeds : StronglySorted succeeds log;
  li_unique : ∀ e1 e2, e1 ∈ log → e2 ∈ log → held_event e1 → held_event e2 →
      ev_Token e1 = ev_Token e2 → ev_Key e1 = ev_Key e2 ∧ ev_Holder e1 = ev_Holder e2;
  li_revision : StronglySorted (λ e1 e2, ev_Revision e1 ≤ ev_Revision e2) log;
  li_rev_bound : ∀ e, e ∈ log → ev_Revision e ≤ a_rev a
}.

Section log.
Lemma last_event_snoc k log e :
  last_event k (log ++ [e]) = if decide (ev_Key e = k) then Some e else last_event k log.
Proof.
  rewrite /last_event filter_app filter_cons filter_nil. case_decide; [apply last_snoc|].
  by rewrite app_nil_r.
Qed.

Lemma last_event_elem k log e : last_event k log = Some e → e ∈ log ∧ ev_Key e = k.
Proof. intros H%last_Some_elem_of. apply list_elem_of_filter in H. naive_solver. Qed.

(** Transitions that publish nothing leave every owner, token and value. *)
Lemma log_inv_silent a b log :
  log_inv a log → a_seq a ≤ a_seq b → a_rev a = a_rev b →
  (∀ k, (λ lk, (lk_holder lk, lk_token lk, lk_value lk)) <$> a_locks b !! k =
        (λ lk, (lk_holder lk, lk_token lk, lk_value lk)) <$> a_locks a !! k) →
  log_inv b log.
Proof.
  intros [Hb Hl Hc Hs Hu Hr Hrb] Hseq Erev El. split; [..|done|done|done|].
  - intros e He Hh. specialize (Hb e He Hh). lia.
  - intros k. specialize (Hl k). specialize (El k).
    destruct (last_event k log); destruct (a_locks a !! k), (a_locks b !! k); simplify_eq/=; try done.
    naive_solver congruence.
  - intros e lk He Hh Hk. specialize (El (ev_Key e)). rewrite Hk in El.
    destruct (a_locks a !! ev_Key e) as [lk'|] eqn:Hk'; simplify_eq/=.
    destruct (Hc e lk' He Hh Hk'); [left; lia|right]. intuition congruence.
  - intros e He. rewrite -Erev. auto.
Qed.

(** A transition that publishes one event about the key it changes. *)
Lemma log_inv_publish a b log e olk :
  log_inv a log → 0 ≤ a_seq a ≤ a_seq b → a_rev a = a_rev b → ev_Revision e = a_rev a →
  a_locks b = partial_alter (λ _, olk) (ev_Key e) (a_locks a) → describes e olk →
  (held_event e →
    a_seq a < ev_Token e ≤ a_seq b ∨
    ∃ lk, a_locks a !! ev_Key e = Some lk ∧ ev_Token e = lk_token lk ∧ ev_Holder e = lk_holder lk ∧
          0 < lk_token lk ≤ a_seq b) →
  (∀ lk, olk = Some lk → lk_holder lk ≠ "") →
  log_inv b (log ++ [e]).
Proof.
  intros [Hb Hl Hc Hs Hu Hr Hrb] Hseq Erev Ere El Hd Htok Hne.
  assert (∀ e', e' ∈ log → succeeds e' e) as Hsucc.
  { intros e' He' Ek Hh' Hh. destruct (Htok Hh) as [Ht|(lk & Hk & -> & -> & _)].
    - left. specialize (Hb e' He' Hh'). lia.
    - eapply Hc; [done..|]. by rewrite Ek. }
  assert (∀ e', e' ∈ log → held_event e' → held_event e → ev_Token e' = ev_Token e →
    ev_Key e' = ev_Key e ∧ ev_Holder e' = ev_Holder e) as Huniq.
  { intros e' He' Hh' Hh Et. destruct (Htok Hh) as [Ht|(lk & Hk & Et' & Eh & _)].
    { specialize (Hb e' He' Hh'). lia. }
    specialize (Hl (ev_Key e)). destruct (last_event (ev_Key e) log) as [el|] eqn:Hlast; [|congruence].
    rewrite Hk in Hl. destruct Hl as (Hlh & Hlt & _). apply last_event_elem in Hlast as [Hel Hkl].
    destruct (Hu e' el) as [? ?]; try done; [rewrite /held_event; congruence|congruence|].
    split; congruence. }
  split.
  - intros e' [He'| ->%list_elem_of_singleton]%elem_of_app Hh; [specialize (Hb e' He' Hh); lia|].
    destruct (Htok Hh) as [?|(lk & Hk & -> & _ & ?)]; lia.
  - intros k. rewrite last_event_snoc El. case_decide as Hk; [subst k; by rewrite lookup_partial_alter_eq|].
    rewrite lookup_partial_alter_ne //. apply Hl.
  - intros e' lk He' Hh. rewrite El. destruct (decide (ev_Key e' = ev_Key e)) as [Ek|Ek].
    + rewrite Ek lookup_partial_alter_eq. intros ->. destruct Hd as (Eh & Et & _).
      apply elem_of_app in He' as [He'| ->%list_elem_of_singleton]; [|auto].
      rewrite -Et -Eh. apply Hsucc; [done..|]. rewrite /held_event Eh. auto.
    + rewrite lookup_partial_alter_ne //. apply Hc; [|done].
      apply elem_of_app in He' as [?| ->%list_elem_of_singleton]; done.
  - apply StronglySorted_snoc; [done|]. by apply Forall_forall.
  - intros e1 e2 [H1| ->%list_elem_of_singleton]%elem_of_app [H2| ->%list_elem_of_singleton]%elem_of_app ?? Et;
      [by apply Hu|by apply Huniq| |done].
    destruct (Huniq e2) as [-> ->]; done.
  - apply StronglySorted_snoc; [done|]. apply Forall_forall. intros e' He'. rewrite Ere. auto.
  - intros e' [He'| ->%list_elem_of_singleton]%elem_of_app; [rewrite -Erev; auto|lia].
Qed.
End log.

(** Every transition keeps the log in step with the locks. *)
Lemma micro_log a m log :
  enabled a m → potential a + cost m < 2 ^ 64 → ord a → a_log a = Some log → log_inv a log →
  ∃ log', a_log (micro a m) = Some log' ∧ log_inv (micro a m) log'.
Proof.
  intros He Hp Hord Hlog Hinv. pose proof (ord_seq a Hord) as H0.
  pose proof (micro_potential a m He H0 Hp) as [Hle _].
  pose proof (micro_next_token a m He H0 Hp) as Hnt. pose proof (next_token_ne a) as Hne.
  pose proof (micro_ord a m He Hp Hord) as [_ Hl'].
  assert (∀ e olk b, a_rev a = a_rev b → ev_Revision e = a_rev a → 0 ≤ a_seq a ≤ a_seq b →
     a_locks b = partial_alter (λ _, olk) (ev_Key e) (a_locks a) → describes e olk →
     (∀ lk, olk = Some lk → lock_ord (a_seq b) lk) →
     (∀ lk, olk = Some lk → a_seq a < lk_token lk ∨
        ∃ lk0, a_locks a !! ev_Key e = Some lk0 ∧ lk_token lk = lk_token lk0 ∧ lk_holder lk = lk_holder lk0) →
     log_inv b (log ++ [e])) as Hpub.
  { intros e olk b Er Ee Hs El Hd Ho Htok. eapply log_inv_publish; [done..| |].
    - intros Hh. destruct olk as [lk|]; [|by destruct Hd]. destruct Hd as (-> & -> & _).
      destruct (Ho lk eq_refl) as [_ ? _ _ _].
      destruct (Htok lk eq_refl) as [?|(lk0 & ? & Et & ?)]; [left; lia|right; exists lk0; rewrite -Et; auto].
    - intros lk Elk. by destruct (Ho lk Elk). }
  destruct m as [k c v|k c v|k|k c|k v|c ttl d|c]; cbn [micro] in *.
  - eexists. rewrite /a_emit Hlog. split; [done|].
    eapply (Hpub _ (Some _)); [done|done|simpl in *; lia|done|done| |].
    + intros lk [= <-]. apply (Hl' k). by rewrite /= lookup_insert_eq.
    + intros lk [= <-]. left. simpl in *. lia.
  - destruct (a_locks a !! k) as [lk|] eqn:Hk; [|by eauto]. exists log. split; [done|].
    eapply log_inv_silent; [done..|]. intros k'. simpl. rewrite lookup_insert. case_decide; [subst|done]. by rewrite Hk.
  - destruct (a_locks a !! k) as [lk|] eqn:Hk; [|by eauto].
    destruct (lk_queue lk) as [|w q] eqn:Eq.
    + eexists. rewrite /= /a_emit Hlog. split; [done|]. by eapply (Hpub _ None).
    + eexists. rewrite /= /a_emit Hlog. split; [done|].
      eapply (Hpub _ (Some _)); [done|done|simpl in *; lia|done|done| |].
      * intros lk' [= <-]. apply (Hl' k). by rewrite /= lookup_insert_eq.
      * intros lk' [= <-]. left. simpl in *. lia.
  - destruct (a_locks a !! k) as [lk|] eqn:Hk; [|by eauto].
    destruct (removeWaiter (lk_queue lk) c) as [q|] eqn:Hq; [|by eauto]. exists log. split; [done|].
    eapply log_inv_silent; [done..|]. intros k'. simpl. rewrite lookup_insert. case_decide; [subst|done]. by rewrite Hk.
  - destruct (a_locks a !! k) as [lk|] eqn:Hk; [|by eauto].
    eexists. rewrite /= /a_emit Hlog. split; [done|].
    eapply (Hpub _ (Some _)); [done|done|simpl in *; lia|done|done| |].
    + intros lk' [= <-]. apply (Hl' k). by rewrite /= lookup_insert_eq.
    + intros lk' [= <-]. right. by exists lk.
  - exists log. split; [done|]. by eapply log_inv_silent.
  - exists log. split; [done|]. by eapply log_inv_silent.
Qed.

Lemma log_inv_later a b log :
  a_locks a = a_locks b → a_seq a = a_seq b → a_rev a ≤ a_rev b → log_inv a log → log_inv b log.
Proof.
  intros El Es Er [Hb Hl Hc Hs Hu Hr Hrb]. split; rewrite -?El -?Es; auto.
  intros e He. etrans; [by apply Hrb|done].
Qed.

(** ** Invariant of a run

    [inv n f]: the state is well formed, its tokens and queues are ordered, its
    event log is consistent, and [n] more commands cannot wrap a counter. *)
Definition trace_ok (a : AState) : Prop :=
  ord a ∧ match a_log a with Some log => log_inv a log | None => True end.

Record inv (n : Z) (f : FSM) : Prop := {
  inv_wf : wf f;
  inv_trace : trace_ok (abs f);
  inv_rev : 0 ≤ revision f ∧ revision f + n < 2 ^ 64;
  inv_pot : potential (abs f) + 2 * n < 2 ^ 64
}.

Lemma micro_trace_ok a m :
  enabled a m → potential a + cost m < 2 ^ 64 → trace_ok a →
  trace_ok (micro a m) ∧ potential (micro a m) ≤ potential a + cost m.
Proof.
  intros He Hp [Ho Hl]. split; [split|].
  - by apply micro_ord.
  - destruct (a_log a) as [log|] eqn:E.
    + destruct (micro_log a m log) as (log' & -> & ?); done.
    + replace (a_log (micro a m)) with (@None (list Event)); [done|].
      destruct m; simpl; rewrite /a_emit ?E //; repeat case_match; simpl; by rewrite ?E.
  - apply micro_potential; [done|apply Ho|done].
Qed.

Lemma costs_nonneg ms : 0 ≤ costs ms.
Proof. induction ms as [|m ms IH]; simpl; [done|]. pose proof (cost_nonneg m). lia. Qed.

Lemma micros_trace_ok ms a :
  enabled_run a ms → potential a + costs ms < 2 ^ 64 → trace_ok a →
  trace_ok (foldl micro a ms) ∧ potential (foldl micro a ms) ≤ potential a + costs ms.
Proof.
  revert a. induction ms as [|m ms IH]; intros a; simpl; [intros; split; [done|lia]|].
  intros [He Hr] Hp Ht. pose proof (costs_nonneg ms).
  destruct (micro_trace_ok a m He) as [Ht' Hp']; [lia|done|].
  destruct (IH (micro a m)) as [? ?]; [done|lia|done|]. split; [done|lia].
Qed.

(** *** Plans are enabled and cost at most two tokens *)
Lemma enabled_drop_plan a b c : enabled_run b (drop_plan a c).
Proof.
  rewrite /drop_plan. generalize (held_keys a c), (waiting_keys a c). intros hs.
  revert b. induction hs as [|h hs IH]; intros b ws; simpl; [|split; [done|apply IH]].
  revert b. induction ws as [|w ws IH]; intros b; simpl; [done|split; [done|apply IH]].
Qed.

Lemma costs_app l1 l2 : costs (l1 ++ l2) = costs l1 + costs l2.
Proof. induction l1; simpl; lia. Qed.

Lemma costs_drop_plan a c : costs (drop_plan a c) = 0.
Proof.
  rewrite /drop_plan !costs_app. generalize (held_keys a c), (waiting_keys a c). intros hs ws.
  assert (costs (MHandover <$> hs) = 0) as -> by by induction hs.
  by assert (costs ((λ k, MLeave k c) <$> ws) = 0) as -> by by induction ws.
Qed.

Lemma plan_costs a cmd : costs (plan a cmd) ≤ 2.
Proof. destruct cmd; simpl; rewrite /acquire_plan; repeat case_match; rewrite ?costs_drop_plan; simpl; lia. Qed.

Lemma plan_enabled f cmd : wf f → enabled_run (abs f) (plan (abs f) cmd).
Proof.
  intros Hwf. assert (∀ k c v try, enabled_run (abs f) (acquire_plan (abs f) k c v try)) as Hacq.
  { intros k c v try. rewrite /acquire_plan live_abs. case_bool_decide as Hl; [|done]. simpl.
    assert (c ≠ "") as Hc by (destruct Hl as [ls Hl]; eapply le_nonempty, wfx_leases; done).
    repeat case_match; done. }
  destruct cmd; cbn [plan]; auto; repeat case_match; try done; apply enabled_drop_plan.
Qed.

(** ** Runs *)
Definition run (f : FSM) (cmds : list (option Command)) : FSM :=
  foldl (λ f c, (Apply f c).1) f cmds.

Definition command_ok (c : option Command) : Prop :=
  match c with
  | Some {| GetCmd := Some c' |} => cmd_ok c'
  | _ => True
  end.

#[export] Instance command_ok_dec c : Decision (command_ok c).
Proof. destruct c as [[[c|]]|]; apply _. Defined.

Definition a_bump (a : AState) : AState :=
  {| a_locks := a_locks a; a_leases := a_leases a; a_seq := a_seq a; a_rev := u64 (a_rev a + 1);
     a_log := a_log a |}.

(** The contract's view of one log entry, and of a whole log. *)
Definition a_apply (a : AState) (c : option Command) : AState :=
  match c with
  | None => a
  | Some {| GetCmd := None |} => a_bump a
  | Some {| GetCmd := Some c' |} => foldl micro (a_bump a) (plan (a_bump a) c')
  end.

Definition a_run : AState → list (option Command) → AState := foldl a_apply.

Lemma Apply_Some f c : (Apply f (Some {| GetCmd := Some c |})).1 = (dispatch (incr_revision f) c).1.
Proof. rewrite /Apply /=. by destruct (dispatch _ _). Qed.

Lemma Apply_answer f c : (Apply f (Some {| GetCmd := Some c |})).2 = Ok (dispatch (incr_revision f) c).2.
Proof. rewrite /Apply /=. by destruct (dispatch _ _). Qed.

Lemma Apply_wf f c : wf f → command_ok c → wf (Apply f c).1.
Proof.
  intros Hwf Hc. destruct c as [[[c|]]|]; [|by apply incr_revision_wf|done].
  rewrite Apply_Some. by apply dispatch_wf; [apply incr_revision_wf|].
Qed.

Lemma Apply_abs f c : wf f → abs (Apply f c).1 = a_apply (abs f) c.
Proof.
  intros Hwf. destruct c as [[[c|]]|]; [|done..].
  rewrite Apply_Some. destruct (dispatch_refines (incr_revision f) c) as [-> _]; [|done].
  by apply incr_revision_wf.
Qed.

Lemma run_wf f cmds : wf f → Forall command_ok cmds → wf (run f cmds).
Proof.
  rewrite /run. revert f. induction cmds as [|c cmds IH]; intros f Hwf; simpl; [done|].
  intros [Hc Hcs]%Forall_cons. by apply IH; [apply Apply_wf|].
Qed.

Lemma run_abs f cmds : wf f → Forall command_ok cmds → abs (run f cmds) = a_run (abs f) cmds.
Proof.
  rewrite /run /a_run. revert f. induction cmds as [|c cmds IH]; intros f Hwf; simpl; [done|].
  intros [Hc Hcs]%Forall_cons. rewrite -Apply_abs //. by apply IH; [apply Apply_wf|].
Qed.

Lemma run_app f c1 c2 : run f (c1 ++ c2) = run (run f c1) c2.
Proof. apply foldl_app. Qed.

Lemma bump_trace_ok f : trace_ok (abs f) → 0 ≤ revision f < 2 ^ 64 - 1 → trace_ok (a_bump (abs f)).
Proof.
  intros [[Ho1 Ho2] Hl] Hr.
  assert (u64 (revision f + 1) = revision f + 1) as Er by (apply u64_small; rewrite /in_u64; lia).
  split; [by split|]. simpl in *. destruct (notifier f); [|done].
  eapply log_inv_later; [..|exact Hl]; [done|done|]. simpl. lia.
Qed.

Lemma inv_step n f c : 0 ≤ n → inv (n + 1) f → command_ok c → inv n (Apply f c).1.
Proof.
  intros Hn [Hwf [Ho Hl] [Hr0 Hr] Hp] Hc.
  assert (abs (incr_revision f) = a_bump (abs f)) as Eb by done.
  assert (u64 (revision f + 1) = revision f + 1) as Er by (apply u64_small; rewrite /in_u64; lia).
  pose proof (bump_trace_ok f (conj Ho Hl) ltac:(lia)) as Ht.
  destruct c as [[[c|]]|]; [|split; simpl; rewrite ?Er; try done; try lia|split; simpl; [done|done|lia|lia]].
  2: { by apply incr_revision_wf. }
  2: { rewrite /potential /= in Hp |- *. lia. }
  pose proof (plan_costs (a_bump (abs f)) c) as Hcost.
  pose proof (plan_enabled (incr_revision f) c (incr_revision_wf f Hwf)) as Hen.
  destruct (micros_trace_ok (plan (a_bump (abs f)) c) (a_bump (abs f))) as [Ht' Hp'];
    [done|rewrite /potential /= in Hp |- *; lia|done|].
  assert (abs (Apply f (Some {| GetCmd := Some c |})).1 = foldl micro (a_bump (abs f)) (plan (a_bump (abs f)) c))
    as Eabs by by rewrite Apply_abs.
  split; [by apply Apply_wf|by rewrite Eabs| |].
  - assert (∀ ms a, a_rev (foldl micro a ms) = a_rev a) as Hrev.
    { induction ms as [|m ms IH]; intros a; [done|]. simpl. rewrite IH. destruct m; simpl; repeat case_match; done. }
    change (revision ?g) with (a_rev (abs g)). rewrite Eabs Hrev /=. lia.
  - rewrite Eabs. rewrite /potential /= in Hp, Hp' |- *. lia.
Qed.

Lemma inv_run f cmds n :
  0 ≤ n → inv (Z.of_nat (length cmds) + n) f → Forall command_ok cmds → inv n (run f cmds).
Proof.
  rewrite /run. revert f. induction cmds as [|c cmds IH]; intros f Hn Hi; simpl; [done|].
  intros [Hc Hcs]%Forall_cons. apply IH; [done| |done]. apply inv_step; [lia| |done].
  simpl in Hi. by replace (Z.of_nat (length cmds) + n + 1) with (Z.of_nat (S (length cmds)) + n) by lia.
Qed.

Lemma inv_New n nt : 0 ≤ n < 2 ^ 63 → nt = None ∨ nt = Some [] → inv n (New nt).
Proof.
  intros Hn Hnt. split; [apply wf_New| |simpl; lia|rewrite /potential /total_waiters /= map_fold_empty; lia].
  split; [by split|]. destruct Hnt as [-> | ->]; [done|]. simpl.
  split; try (by intros e; rewrite elem_of_nil); try (by intros e ?; rewrite elem_of_nil); try constructor.
Qed.

(** A state machine with a notifier keeps it. *)
Lemma micro_log_Some a m : is_Some (a_log a) → is_Some (a_log (micro a m)).
Proof. intros [log E]. destruct m; simpl; rewrite /a_emit ?E; repeat case_match; simpl; rewrite ?E; eauto. Qed.

Lemma run_notifier f cmds :
  wf f → Forall command_ok cmds → is_Some (notifier f) → is_Some (notifier (run f cmds)).
Proof.
  intros Hwf Hok Hn. change (notifier (run f cmds)) with (a_log (abs (run f cmds))).
  rewrite run_abs //. apply (foldl_invariant (λ a, is_Some (a_log a))); [done|].
  intros a c _ Ha. destruct c as [[[c|]]|]; [|done..].
  apply (foldl_invariant (λ a, is_Some (a_log a))); [done|]. intros; by apply micro_log_Some.
Qed.

(** *** Stale tokens *)
Lemma micro_fenced a m k c t :
  enabled a m → potential a + cost m < 2 ^ 64 → ord a →
  fenced (micro a m) k c t = true → fenced a k c t = true ∨ a_seq a < t.
Proof.
  intros He Hp Hord. pose proof (ord_seq a Hord) as H0.
  pose proof (micro_next_token a m He H0 Hp) as Hnt. pose proof (next_token_ne a) as Hne.
  rewrite /fenced. destruct m as [k' c' v|k' c' v|k'|k' c'|k' v|c' ttl d|c']; cbn [micro] in *;
    repeat case_match; simplify_eq/=; rewrite ?bool_decide_eq_true; auto;
    rewrite ->?andb_true_iff, ?Z.eqb_eq, ?bool_decide_eq_true in *; simplify_map_eq; auto;
    try (destruct (decide (k' = k)); simplify_map_eq; auto; right; lia).
Qed.

Lemma micros_fenced ms a k c t :
  enabled_run a ms → potential a + costs ms < 2 ^ 64 → trace_ok a →
  fenced (foldl micro a ms) k c t = true → fenced a k c t = true ∨ a_seq a < t.
Proof.
  revert a. induction ms as [|m ms IH]; intros a; simpl; [by left|].
  intros [He Hr] Hp Ht Hf. pose proof (costs_nonneg ms). pose proof (cost_nonneg m).
  destruct (micro_trace_ok a m He) as [Ht' Hp']; [lia|done|].
  destruct (micro_potential a m He) as [Hs _]; [apply Ht|lia|].
  destruct (IH (micro a m)) as [Hf'|Hf']; [done|lia|done|done| |right; lia].
  apply micro_fenced in Hf'; [done|done|lia|apply Ht].
Qed.

Lemma micros_seq ms a :
  enabled_run a ms → potential a + costs ms < 2 ^ 64 → trace_ok a → a_seq a ≤ a_seq (foldl micro a ms).
Proof.
  revert a. induction ms as [|m ms IH]; intros a; simpl; [done|].
  intros [He Hr] Hp Ht. pose proof (costs_nonneg ms). pose proof (cost_nonneg m).
  destruct (micro_trace_ok a m He) as [Ht' Hp']; [lia|done|].
  destruct (micro_potential a m He) as [Hs _]; [apply Ht|lia|].
  etrans; [done|]. apply IH; [done|lia|done].
Qed.

(** The plan of one command, run under the invariant. *)
Lemma inv_plan n f c :
  0 ≤ n → inv (n + 1) f →
  ∃ a ms, abs (Apply f c).1 = foldl micro a ms ∧ enabled_run a ms ∧ potential a + costs ms < 2 ^ 64 ∧
          trace_ok a ∧ a_locks a = locks f ∧ a_seq a = seq f.
Proof.
  intros Hn Hi. pose proof Hi as [Hwf [Ho Hl] [Hr0 Hr] Hp].
  pose proof (bump_trace_ok f (conj Ho Hl) ltac:(lia)) as Ht.
  destruct c as [[[c|]]|].
  - pose proof (plan_costs (a_bump (abs f)) c). rewrite /potential /= in Hp.
    exists (a_bump (abs f)), (plan (a_bump (abs f)) c). rewrite Apply_abs //.
    split_and!; [done|exact (plan_enabled (incr_revision f) c (incr_revision_wf f Hwf))| |done..].
    rewrite /potential /=. lia.
  - exists (a_bump (abs f)), []. rewrite /potential /= in Hp. split_and!; [done..| |done|done|done].
    rewrite /potential /=. lia.
  - exists (abs f), []. split_and!; [done..| |done|done|done]. simpl. lia.
Qed.

Lemma step_fenced n f cmd k c t :
  0 ≤ n → inv (n + 1) f → fenced (abs (Apply f cmd).1) k c t = true →
  fenced (abs f) k c t = true ∨ seq f < t.
Proof.
  intros Hn Hi. destruct (inv_plan n f cmd Hn Hi) as (a & ms & -> & Hen & Hp & Ht & El & <-).
  intros Hf%micros_fenced; [|done..]. by rewrite /fenced El in Hf.
Qed.

Lemma step_seq n f cmd : 0 ≤ n → inv (n + 1) f → seq f ≤ seq (Apply f cmd).1.
Proof.
  intros Hn Hi. destruct (inv_plan n f cmd Hn Hi) as (a & ms & E & Hen & Hp & Ht & El & <-).
  change (seq (Apply f cmd).1) with (a_seq (abs (Apply f cmd).1)). rewrite E. by apply micros_seq.
Qed.

Lemma run_seq cmds f n :
  0 ≤ n → inv (Z.of_nat (length cmds) + n) f → Forall command_ok cmds → seq f ≤ seq (run f cmds).
Proof.
  rewrite /run. revert f. induction cmds as [|cmd cmds IH]; intros f Hn Hi; simpl; [done|].
  intros [Hc Hcs]%Forall_cons.
  assert (inv ((Z.of_nat (length cmds) + n) + 1) f) as Hi'.
  { simpl in Hi. by replace (Z.of_nat (length cmds) + n + 1) with (Z.of_nat (S (length cmds)) + n) by lia. }
  etrans; [apply (step_seq (Z.of_nat (length cmds) + n) f cmd); [lia|done]|]. apply IH; [done|apply inv_step; [lia|done|done]|done].
Qed.

Lemma run_fenced cmds f n k c t :
  0 ≤ n → inv (Z.of_nat (length cmds) + n) f → Forall command_ok cmds →
  fenced (abs (run f cmds)) k c t = true → fenced (abs f) k c t = true ∨ seq f < t.
Proof.
  rewrite /run. revert f. induction cmds as [|cmd cmds IH]; intros f Hn Hi; simpl; [by left|].
  intros [Hc Hcs]%Forall_cons Hf.
  assert (inv ((Z.of_nat (length cmds) + n) + 1) f) as Hi'.
  { simpl in Hi. by replace (Z.of_nat (length cmds) + n + 1) with (Z.of_nat (S (length cmds)) + n) by lia. }
  destruct (IH (Apply f cmd).1) as [Hf'|Hlt]; [done|apply inv_step; [lia|done|done]|done|done|..].
  - eapply step_fenced; [|done|done]. lia.
  - right. pose proof (step_seq (Z.of_nat (length cmds) + n) f cmd ltac:(lia) Hi'). lia.
Qed.

(** *** Nobody is overtaken *)
Definition in_queue (a : AState) (k c : string) : Prop :=
  ∃ lk, a_locks a !! k = Some lk ∧ c ∈ queue_ids lk.

(** [c] waits on [k], and [d] neither holds [k] nor waits ahead of [c]. *)
Definition behind (a : AState) (k c d : string) : Prop :=
  ∃ lk l1 l2, a_locks a !! k = Some lk ∧ queue_ids lk = l1 ++ c :: l2 ∧ (c ∉ l1) ∧ (c ∉ l2) ∧
    lk_holder lk ≠ d ∧ (d ∉ l1).

Definition no_enqueue (m : mop) : Prop := match m with MEnqueue _ _ _ => False | _ => True end.

Section fifo.
Lemma behind_ext a b k c d : a_locks b !! k = a_locks a !! k → behind a k c d → behind b k c d.
Proof. rewrite /behind. by intros ->. Qed.

Lemma in_queue_ext a b k c : a_locks b !! k = a_locks a !! k → in_queue a k c → in_queue b k c.
Proof. rewrite /in_queue. by intros ->. Qed.

Lemma micro_other_key a m k :
  match m with
  | MGrant k' _ _ | MEnqueue k' _ _ | MHandover k' | MLeave k' _ | MPublish k' _ => k' ≠ k
  | _ => True
  end → a_locks (micro a m) !! k = a_locks a !! k.
Proof. destruct m; simpl; intros; repeat case_match; simpl; by simplify_map_eq. Qed.

Lemma removeWaiter_member q c q' d :
  removeWaiter q c = Some q' → d ∈ w_clientID <$> q' → d ∈ w_clientID <$> q.
Proof.
  intros (q1 & w & q2 & -> & -> & _)%removeWaiter_Some. rewrite !fmap_app !elem_of_app fmap_cons. set_solver.
Qed.

(** What a transition does to key [k] itself. *)
Lemma micro_at_key a m k :
  no_enqueue m →
  a_locks (micro a m) !! k = a_locks a !! k ∨
  (∃ c v, m = MGrant k c v ∧ ∃ t, a_locks (micro a m) !! k =
     Some {| lk_name := k; lk_holder := c; lk_token := t; lk_value := v; lk_queue := [] |}) ∨
  ∃ lk, a_locks a !! k = Some lk ∧
    ((a_locks (micro a m) !! k = None ∧ lk_queue lk = []) ∨
     ∃ lk', a_locks (micro a m) !! k = Some lk' ∧
       ((lk_holder lk' = lk_holder lk ∧
           (lk_queue lk' = lk_queue lk ∨ ∃ c, removeWaiter (lk_queue lk) c = Some (lk_queue lk'))) ∨
        ∃ w, lk_queue lk = w :: lk_queue lk' ∧ lk_holder lk' = w_clientID w)).
Proof.
  intros Hm. destruct m as [k' c' v|k' c' v|k'|k' c'|k' v|c' ttl d'|c']; try done; try (by left);
    (destruct (decide (k' = k)) as [->|Hk]; [|by left; apply micro_other_key]); cbn [micro].
  - right. left. exists c', v. split; [done|]. eexists. by rewrite /= lookup_insert_eq.
  - destruct (a_locks a !! k) as [lk|] eqn:Hk; [|by auto]. right. right. exists lk. split; [done|].
    destruct (lk_queue lk) as [|w q] eqn:Hq; simpl.
    + left. by rewrite lookup_delete_eq.
    + right. eexists. rewrite lookup_insert_eq. split; [done|]. simpl. eauto.
  - destruct (a_locks a !! k) as [lk|] eqn:Hk; [|by auto].
    destruct (removeWaiter (lk_queue lk) c') as [q|] eqn:Hq; [|by auto]. right. right. exists lk. split; [done|].
    right. eexists. rewrite /= lookup_insert_eq. split; [done|]. simpl. eauto.
  - destruct (a_locks a !! k) as [lk|] eqn:Hk; [|by auto]. right. right. exists lk. split; [done|].
    right. eexists. rewrite /= lookup_insert_eq. split; [done|]. simpl. eauto.
Qed.

Lemma micro_in_queue a m k c : no_enqueue m → in_queue (micro a m) k c → in_queue a k c.
Proof.
  intros Hm (lk' & Hk' & Hc). rewrite /in_queue.
  destruct (micro_at_key a m k Hm) as [E|[(c' & v & _ & t & E)|(lk & Hk & [[E _]|(lk'' & E & Hcase)])]];
    rewrite E in Hk'; simplify_eq/=; [by eauto|by apply elem_of_nil in Hc|].
  exists lk. split; [done|]. rewrite /queue_ids in Hc |- *.
  destruct Hcase as [(_ & [<-|[c' Hrm]])|(w & -> & _)]; [done|by eapply removeWaiter_member|].
  rewrite fmap_cons. set_solver.
Qed.

Lemma remove_split {A} (l1 l2 m1 m2 : list A) c x :
  l1 ++ c :: l2 = m1 ++ x :: m2 → x ≠ c →
  (∃ l1', m1 ++ m2 = l1' ++ c :: l2 ∧ l1' ⊆ l1) ∨ (∃ l2', m1 ++ m2 = l1 ++ c :: l2' ∧ l2' ⊆ l2).
Proof.
  intros E Hx. apply app_eq_inv in E as [(j & -> & E)|(j & -> & E)]; destruct j as [|y j]; simplify_eq/=.
  - left. exists (m1 ++ j). rewrite -app_assoc. set_solver.
  - right. exists (j ++ m2). rewrite -app_assoc. set_solver.
Qed.

Lemma split_unique {A} (l1 l2 m1 m2 : list A) c :
  m1 ++ c :: m2 = l1 ++ c :: l2 → c ∉ l1 → c ∉ m1 → l1 = m1 ∧ l2 = m2.
Proof.
  intros E Hl Hm. apply app_eq_inv in E as [(j & -> & E)|(j & -> & E)]; destruct j as [|y j]; simplify_eq/=;
    rewrite ?app_nil_r; set_solver.
Qed.

Lemma micro_behind a m k c d :
  no_enqueue m → behind a k c d → in_queue (micro a m) k c → behind (micro a m) k c d.
Proof.
  intros Hm (lk0 & l1 & l2 & Hk0 & Hq & Hc1 & Hc2 & Hh & Hd) (lk1 & Hk1 & Hin). rewrite /behind.
  destruct (micro_at_key a m k Hm) as [E|[(c' & v & _ & t & E)|(lk & Hk & [[E _]|(lk' & E & Hcase)])]];
    rewrite E in Hk1 |- *; simplify_eq/=; [by exists lk0, l1, l2|by apply elem_of_nil in Hin|].
  rewrite /queue_ids in Hq, Hin. destruct Hcase as [(Eh & [Eq|[x Hrm]])|(w & Eq & Eh)].
  - exists lk1, l1, l2. rewrite /queue_ids Eq Eh. done.
  - apply removeWaiter_Some in Hrm as (q1 & w & q2 & Eq & Eq' & <- & Hx).
    rewrite Eq' in Hin. rewrite Eq fmap_app fmap_cons in Hq.
    destruct (decide (w_clientID w = c)) as [Hw|Hw].
    + rewrite Hw in Hq, Hx. rewrite fmap_app in Hin.
      destruct (split_unique l1 l2 (w_clientID <$> q1) (w_clientID <$> q2) c); [done..|set_solver].
    + exists lk1. rewrite /queue_ids Eq' fmap_app Eh.
      destruct (remove_split l1 l2 (w_clientID <$> q1) (w_clientID <$> q2) c (w_clientID w))
        as [(l1' & -> & ?)|(l2' & -> & ?)]; [done|done| |].
      * exists l1', l2. split_and!; try done; set_solver.
      * exists l1, l2'. split_and!; try done; set_solver.
  - rewrite Eq fmap_cons in Hq. destruct l1 as [|y l1]; simplify_eq/=.
    exists lk1, l1, l2. rewrite /queue_ids Eh. split_and!; try done; set_solver.
Qed.

Lemma micros_in_queue ms a k c : Forall no_enqueue ms → in_queue (foldl micro a ms) k c → in_queue a k c.
Proof.
  revert a. induction ms as [|m ms IH]; intros a; simpl; [done|]. intros [Hm Hms]%Forall_cons Hin.
  eapply micro_in_queue; [done|]. by apply IH.
Qed.

Lemma micros_behind ms a k c d :
  Forall no_enqueue ms → behind a k c d → in_queue (foldl micro a ms) k c → behind (foldl micro a ms) k c d.
Proof.
  revert a. induction ms as [|m ms IH]; intros a; simpl; [done|]. intros [Hm Hms]%Forall_cons Hb Hin.
  apply IH; [done| |done]. apply micro_behind; [done|done|]. by eapply micros_in_queue.
Qed.

Lemma enqueue_behind a k' c' v k c d :
  is_waiter a c' k' = false → behind a k c d → behind (micro a (MEnqueue k' c' v)) k c d.
Proof.
  intros Hw. destruct (decide (k' = k)) as [->|Hk]; [|by apply behind_ext, micro_other_key].
  intros (lk & l1 & l2 & Hk & Hq & Hc1 & Hc2 & Hh & Hd).
  rewrite /is_waiter Hk Hq bool_decide_eq_false in Hw.
  rewrite /behind /= Hk /= lookup_insert_eq. eexists _, l1, (l2 ++ [c']). split; [done|].
  rewrite /queue_ids /= fmap_app -/(queue_ids lk) Hq /= -app_assoc /=. set_solver.
Qed.

Lemma plan_no_enqueue a cmd :
  (∃ k c v, plan a cmd = [MEnqueue k c v] ∧ is_waiter a c k = false) ∨ Forall no_enqueue (plan a cmd).
Proof.
  assert (∀ c, Forall no_enqueue (drop_plan a c)) as Hdrop.
  { intros c. rewrite /drop_plan !Forall_app !Forall_fmap. split_and!; [by apply Forall_true..|by constructor]. }
  assert (∀ k c v try, (∃ k' c' v', acquire_plan a k c v try = [MEnqueue k' c' v'] ∧ is_waiter a c' k' = false) ∨
    Forall no_enqueue (acquire_plan a k c v try)) as Hacq.
  { intros k c v try. rewrite /acquire_plan. repeat case_match; try (right; by repeat constructor).
    left. exists k, c, v. split; [done|]. by apply orb_false_iff in H1 as [_ ?]. }
  destruct cmd; cbn [plan]; auto; right; repeat case_match; auto; by repeat constructor.
Qed.

Lemma step_behind f cmd k c d :
  wf f → behind (abs f) k c d → in_queue (abs (Apply f cmd).1) k c → behind (abs (Apply f cmd).1) k c d.
Proof.
  intros Hwf Hb. rewrite Apply_abs //. destruct cmd as [[[cmd|]]|]; [|done..]. simpl.
  set (a := a_bump (abs f)). change (behind a k c d) in Hb.
  destruct (plan_no_enqueue a cmd) as [(k' & c' & v & -> & Hw)|Hno].
  - intros _. by apply enqueue_behind.
  - by apply micros_behind.
Qed.

Lemma run_behind cmds f k c d :
  wf f → Forall command_ok cmds → behind (abs f) k c d →
  (∀ pre, pre `prefix_of` cmds → in_queue (abs (run f pre)) k c) → behind (abs (run f cmds)) k c d.
Proof.
  rewrite /run. revert f. induction cmds as [|cmd cmds IH]; intros f Hwf; simpl; [done|].
  intros [Hc Hcs]%Forall_cons Hb Hin. apply IH; [by apply Apply_wf|done| |].
  - apply step_behind; [done|done|]. apply (Hin [cmd]). by exists cmds.
  - intros pre [suf ->]. apply (Hin (cmd :: pre)). by exists suf.
Qed.
End fifo.
