(* ===== verification/FsmStore.v ===== *)
(** * Snapshots, restore and replica agreement

    [Restore] rebuilds the indexes that [Snapshot] leaves out, ranging over a Go
    map in whatever order the runtime picks; the result does not depend on that
    order and gives back the state the snapshot was taken from.  States that
    differ only in their notifier take the same steps, so a replica that
    restores a snapshot and replays the rest of the log agrees with one that
    applied everything. *)
From S2P Require Import Prelude GoStrings Keypath Fsm FsmInv FsmSpec FsmTrace.

Local Open Scope Z_scope.

(** ** Rebuilding a map entry by entry *)
Section rebuild.
Context {V B W : Type} (g : string → V → B) (key : B → string) (val : B → W) (h : string → V → W).
Hypothesis key_g : ∀ k v, key (g k v) = k.
Hypothesis val_g : ∀ k v, val (g k v) = h k v.

Lemma lookup_rebuild (m : gmap string V) ks (m0 : gmap string W) j :
  foldl (λ m' x, <[key x := val x]> m') m0 (omap (λ k, g k <$> m !! k) ks) !! j =
    match m !! j with
    | Some v => if decide (j ∈ ks) then Some (h j v) else m0 !! j
    | None => m0 !! j
    end.
Proof.
  revert m0. induction ks as [|k ks IH]; intros m0; cbn [omap list_omap].
  - cbn [foldl]. case_match; [|done]. case_decide as Hn; [by apply elem_of_nil in Hn|done].
  - destruct (m !! k) as [v|] eqn:Hk; simpl; rewrite IH.
    + rewrite key_g val_g. destruct (decide (j = k)) as [->|Hj].
      * rewrite Hk lookup_insert_eq. repeat case_decide; set_solver.
      * rewrite lookup_insert_ne //. case_match; [|done].
        repeat case_decide; set_solver.
    + case_match; [|done]. repeat case_decide; set_solver.
Qed.

Lemma rebuild (m : gmap string V) :
  foldl (λ m' x, <[key x := val x]> m') ∅ (collect g m) = map_imap (λ k v, Some (h k v)) m.
Proof.
  apply map_eq. intros j. rewrite lookup_rebuild map_lookup_imap. destruct (m !! j) eqn:Hj; simpl; [|done].
  rewrite decide_True //. apply elem_of_sortedKeys. by eexists.
Qed.
End rebuild.

(** ** Rebuilding the indexes *)
Definition held_in (order : list lock) (id : string) : gset string :=
  list_to_set (lk_name <$> filter (λ lk, lk_holder lk = id ∧ lk_holder lk ≠ "") order).
Definition waiting_in (order : list lock) (id : string) : gset string :=
  list_to_set (lk_name <$> filter (λ lk, id ∈ queue_ids lk) order).

Arguments held_in : simpl never.
Arguments waiting_in : simpl never.

Section index.
Lemma elem_of_held_in order id n :
  n ∈ held_in order id ↔ ∃ lk, lk ∈ order ∧ lk_name lk = n ∧ lk_holder lk = id ∧ lk_holder lk ≠ "".
Proof.
  rewrite /held_in elem_of_list_to_set list_elem_of_fmap. setoid_rewrite list_elem_of_filter. naive_solver.
Qed.

Lemma elem_of_waiting_in order id n :
  n ∈ waiting_in order id ↔ ∃ lk, lk ∈ order ∧ lk_name lk = n ∧ id ∈ queue_ids lk.
Proof.
  rewrite /waiting_in elem_of_list_to_set list_elem_of_fmap. setoid_rewrite list_elem_of_filter. naive_solver.
Qed.

Lemma lookup_addWaitings q n (m : gmap string lease) id :
  foldl (λ m w, addWaiting m (w_clientID w) n) m q !! id =
    (λ ls, with_index ls (ls_held ls)
       (ls_waiting ls ∪ (if decide (id ∈ w_clientID <$> q) then {[n]} else ∅))) <$> m !! id.
Proof.
  revert m. induction q as [|w q IH]; intros m; cbn [foldl].
  - destruct (m !! id) as [[]|]; cbn [fmap option_fmap option_map]; [|done].
    case_decide as Hn; [by apply elem_of_nil in Hn|]. rewrite /with_index /=. do 2 f_equal. set_solver.
  - rewrite fmap_cons IH /addWaiting lookup_alter. destruct (decide (w_clientID w = id)) as [<-|Hw];
      [destruct (m !! w_clientID w)|destruct (m !! id)]; try done; rewrite /with_index /=; do 2 f_equal;
      repeat case_decide; set_solver.
Qed.

Lemma lookup_indexLocks order (m : gmap string lease) id :
  foldl indexLock m order !! id =
    (λ ls, with_index ls (ls_held ls ∪ held_in order id) (ls_waiting ls ∪ waiting_in order id)) <$> m !! id.
Proof.
  revert m. induction order as [|lk order IH]; intros m; cbn [foldl].
  - destruct (m !! id) as [[]|]; simpl; [|done]. rewrite /with_index /=. do 2 f_equal; set_solver.
  - rewrite IH /indexLock lookup_addWaitings -/(queue_ids lk).
    assert ((if bool_decide (lk_holder lk = "") then m else addHeld m (lk_holder lk) (lk_name lk)) !! id =
      (λ ls, with_index ls (ls_held ls ∪ held_in [lk] id) (ls_waiting ls)) <$> m !! id) as ->.
    { case_bool_decide as Hh; [|rewrite /addHeld lookup_alter; destruct (decide (lk_holder lk = id)) as [<-|]];
        [destruct (m !! id) as [[]|]|destruct (m !! lk_holder lk)|destruct (m !! id) as [[]|]]; try done;
        rewrite /with_index /=; do 2 f_equal; apply set_eq; intros x; rewrite !elem_of_union elem_of_held_in; set_solver. }
    destruct (m !! id) as [ls|]; [|done]. rewrite /with_index /=. do 2 f_equal; apply set_eq; intros x;
      rewrite !elem_of_union ?elem_of_held_in ?elem_of_waiting_in; [set_solver|].
    case_decide; set_solver.
Qed.
End index.

(** ** Restore *)
Definition with_notifier (f : FSM) (n : option (list Event)) : FSM :=
  {| locks := locks f; leases := leases f; seq := seq f; revision := revision f; notifier := n |}.

Section restore.
Lemma FSM_eq f g :
  locks f = locks g → leases f = leases g → seq f = seq g → revision f = revision g →
  notifier f = notifier g → f = g.
Proof. destruct f, g. simpl. congruence. Qed.

Lemma with_index_eq ls h w h' w' : h = h' → w = w' → with_index ls h w = with_index ls h' w'.
Proof. by intros -> ->. Qed.

Lemma RestoreInOrder_perm f snap o1 o2 : o1 ≡ₚ o2 → RestoreInOrder f snap o1 = RestoreInOrder f snap o2.
Proof.
  intros Ho. apply FSM_eq; [done| |done..]. simpl. apply map_eq. intros id. rewrite !lookup_indexLocks.
  destruct (_ !! id); [|done]. simpl. f_equal. apply with_index_eq; apply set_eq; intros n;
    rewrite !elem_of_union ?elem_of_held_in ?elem_of_waiting_in; by setoid_rewrite Ho.
Qed.

Lemma restoreWaiter_snap w : restoreWaiter (snapWaiter w) = w.
Proof. by destruct w. Qed.

Lemma restoreLock_snap n lk : lk_name lk = n → restoreLock (snapLock n lk) = lk.
Proof.
  destruct lk as [nm h t v q]. rewrite /restoreLock /snapLock /=. intros <-. f_equal.
  - by case_bool_decide.
  - rewrite -list_fmap_compose -{2}(list_fmap_id q). apply list_fmap_ext. intros _ w _. apply restoreWaiter_snap.
Qed.

Lemma restoreLocks_snapshot f : wf f → restoreLocks (snapshot f) = locks f.
Proof.
  intros Hwf. rewrite /restoreLocks /=.
  rewrite (rebuild snapLock lst_Name restoreLock (λ n lk, restoreLock (snapLock n lk))) //.
  apply map_eq. intros n. rewrite map_lookup_imap. destruct (locks f !! n) as [lk|] eqn:Hn; [|done]. simpl.
  f_equal. apply restoreLock_snap. eapply lo_name, wfx_locks; done.
Qed.

Lemma restoreLeases_snapshot f id :
  restoreLeases (snapshot f) !! id =
    (λ ls, {| ls_clientID := id; ls_ttlMS := ls_ttlMS ls; ls_expireAt := ls_expireAt ls; ls_held := ∅;
              ls_waiting := ∅ |}) <$> leases f !! id.
Proof.
  rewrite /restoreLeases /=.
  rewrite (rebuild snapLease les_ClientId restoreLease (λ n ls, restoreLease (snapLease n ls))) //.
  rewrite map_lookup_imap. by destruct (leases f !! id).
Qed.

Lemma elem_of_lock_values f :
  wf f → ∀ lk, lk ∈ (map_to_list (locks f)).*2 ↔ locks f !! lk_name lk = Some lk.
Proof.
  intros Hwf lk. rewrite list_elem_of_fmap. split.
  - intros ([n lk'] & -> & H%elem_of_map_to_list). simpl.
    by rewrite (lo_name _ _ _ (wfx_locks _ _ _ _ Hwf _ _ H)).
  - intros H. exists (lk_name lk, lk). split; [done|]. by apply elem_of_map_to_list.
Qed.

Lemma elem_of_locks_named f P n :
  wf f → (∃ lk, lk ∈ (map_to_list (locks f)).*2 ∧ lk_name lk = n ∧ P lk) ↔ ∃ lk, locks f !! n = Some lk ∧ P lk.
Proof.
  intros Hwf. setoid_rewrite (elem_of_lock_values f Hwf). split.
  - intros (lk & H & <- & HP). eauto.
  - intros (lk & H & HP). pose proof (lo_name _ _ _ (wfx_locks _ _ _ _ Hwf _ _ H)) as E.
    exists lk. by rewrite E.
Qed.

Lemma Restore_snapshot f g : wf f → Restore g (snapshot f) = with_notifier f (notifier g).
Proof.
  intros Hwf. rewrite /Restore. apply FSM_eq; simpl; [by apply restoreLocks_snapshot| |done..].
  apply map_eq. intros id. rewrite lookup_indexLocks restoreLeases_snapshot restoreLocks_snapshot //.
  destruct (leases f !! id) as [ls|] eqn:Hid; [|done]. simpl. f_equal.
  destruct (wfx_leases _ _ _ _ Hwf id ls Hid) as [Eid Hne Hheld Hwait].
  destruct ls as [id' ttl ex h w]; simpl in *. subst id'. rewrite /with_index /=. f_equal; apply set_eq; intros n.
  - rewrite Hheld elem_of_union elem_of_held_in /holds (elem_of_locks_named f _ n Hwf). set_solver.
  - rewrite Hwait elem_of_union elem_of_waiting_in /waits (elem_of_locks_named f _ n Hwf). set_solver.
Qed.
End restore.

(** ** Replicas

    Two states are the same replica state when they differ only in what their
    notifier recorded. *)
Definition erase (f : FSM) : FSM := with_notifier f None.
Definition same (f g : FSM) : Prop := erase f = erase g.

#[export] Instance same_equiv : Equivalence same.
Proof. split; rewrite /same; repeat intro; congruence. Qed.

Section erase.
Lemma erase_emit f k h t v : erase (emit f k h t v) = erase f.
Proof. rewrite /emit. by case_match. Qed.

Lemma erase_promoteQueue lk q f : erase (promoteQueue f lk q) = promoteQueue (erase f) lk q.
Proof.
  induction q as [|w q IH]; cbn [promoteQueue]; [by rewrite erase_emit|].
  change (leases (erase f)) with (leases f). case_match; [by rewrite erase_emit|done].
Qed.

Lemma erase_dropHeld id f n : erase (dropHeld id f n) = dropHeld id (erase f) n.
Proof.
  rewrite /dropHeld. change (locks (erase f)) with (locks f).
  repeat case_match; [done|apply erase_promoteQueue|done].
Qed.

Lemma erase_dropWaiting id f n : erase (dropWaiting id f n) = dropWaiting id (erase f) n.
Proof. rewrite /dropWaiting. change (locks (erase f)) with (locks f). by repeat case_match. Qed.

Lemma erase_foldl (g : FSM → string → FSM) ns f :
  (∀ f n, erase (g f n) = g (erase f) n) → erase (foldl g f ns) = foldl g (erase f) ns.
Proof. intros Hg. revert f. induction ns as [|n ns IH]; intros f; [done|]. simpl. by rewrite IH Hg. Qed.

Lemma erase_dropLease f id : erase (dropLease f id) = dropLease (erase f) id.
Proof.
  rewrite /dropLease. change (leases (erase f)) with (leases f). case_match; [|done].
  rewrite -(erase_foldl (dropHeld _)); [by intros; apply erase_dropHeld|].
  set (f1 := foldl (dropHeld _) f _). change (leases (erase f1)) with (leases f1).
  rewrite -(erase_foldl (dropWaiting _)); [by intros; apply erase_dropWaiting|done].
Qed.

Definition erase_fst (p : FSM * CommandResult) : FSM * CommandResult := (erase p.1, p.2).

(** A result only reads the revision. *)
Lemma erase_result (r : FSM → CommandResult) g g' :
  (∀ f, r f = r (erase f)) → erase g = g' → erase_fst (g, r g) = (g', r g').
Proof. intros Hr <-. by rewrite /erase_fst /= Hr. Qed.

Lemma erase_cancelWait f n c : erase_fst (cancelWait f n c) = cancelWait (erase f) n c.
Proof.
  rewrite /cancelWait /=. destruct (locks f !! n) as [lk|]; [|done].
  destruct (removeWaiter _ c) as [q|]; [|done]. by destruct (leases f !! c).
Qed.

Lemma erase_dispatch f c : erase_fst (dispatch f c) = dispatch (erase f) c.
Proof.
  destruct c; cbn [dispatch]; rewrite -?erase_cancelWait /acquire /grant /release /proclaim /leaseGrant /leaseKeepAlive
    /leaseRevoke /leaseExpire /promote;
    change (locks (erase f)) with (locks f); change (leases (erase f)) with (leases f);
    repeat case_match; try done;
    try (apply (erase_result (λ f, resultToken f _ _ _ _)); [done|by rewrite erase_emit]);
    try (apply (erase_result (λ f, resultKey f _ _)); [done|by apply erase_promoteQueue]);
    (apply (erase_result (λ f, mkresult f _)); [done|by apply erase_dropLease]).
Qed.

Lemma erase_Apply f c : erase (Apply f c).1 = (Apply (erase f) c).1 ∧ (Apply f c).2 = (Apply (erase f) c).2.
Proof.
  destruct c as [[[c|]]|]; [|done..]. rewrite /Apply /=.
  change (incr_revision (erase f)) with (erase (incr_revision f)). rewrite -erase_dispatch.
  by destruct (dispatch _ c).
Qed.
End erase.

#[export] Instance Apply_same : Proper (same ==> eq ==> prod_relation same eq) Apply.
Proof.
  intros f g Hfg c ? <-. destruct (erase_Apply f c) as [H1 H2], (erase_Apply g c) as [H3 H4].
  rewrite /same in Hfg. rewrite Hfg in H1, H2. split; [change (erase (Apply f c).1 = erase (Apply g c).1)|simpl]; congruence.
Qed.

#[export] Instance run_same : Proper (same ==> eq ==> same) run.
Proof.
  intros f g Hfg cmds ? <-. rewrite /run. revert f g Hfg.
  induction cmds as [|c cmds IH]; intros f g Hfg; simpl; [done|]. apply IH.
  by apply (Apply_same f g Hfg c c eq_refl).
Qed.

#[export] Instance snapshot_same : Proper (same ==> eq) snapshot.
Proof. intros f g Hfg. rewrite /same in Hfg. by change (snapshot (erase f) = snapshot (erase g)); rewrite Hfg. Qed.

#[export] Instance query_same : Proper (same ==> eq ==> eq) query.
Proof.
  intros f g Hfg q ? <-. rewrite /same in Hfg.
  assert (∀ f ids now, dueFrom f now ids = dueFrom (erase f) now ids) as Hdue.
  { intros f' ids now. induction ids as [|id ids IH]; cbn [dueFrom]; [done|]. by rewrite IH. }
  assert (∀ f ns p, listFrom f p ns = listFrom (erase f) p ns) as Hlist.
  { intros f' ns p. induction ns as [|n ns IH]; cbn [listFrom]; [done|]. by rewrite IH. }
  assert (∀ f, query f q = query (erase f) q) as E.
  { intros f'. destruct q as [n|c|now|p|n|]; [done|done|by rewrite /query /dueLeases (Hdue f')
      |by rewrite /query /listLocks (Hlist f')|done|done]. }
  by rewrite (E f) (E g) Hfg.
Qed.

Lemma same_with_notifier f n : same (with_notifier f n) f.
Proof. done. Qed.
