(* ===== verification/Consensus.v ===== *)
(** * State machine adapters

    internal/raft/consensus/sm.go and sm_meta.go: the lock state machine and the
    meta store behind dragonboat's [IConcurrentStateMachine], over bytes.  The
    interface is the class [StateMachine], what the Raft library relies on is
    [StateMachineLaws], and what replicas get from it is proved once, for both
    instances.

    [io.Writer] and [io.Reader] are the arguments [Write] and [ReadAll]. *)
From S2P Require Import Prelude GoStrings Wire Keypath Meta Fsm FsmWire FsmInv FsmSpec FsmTrace FsmStore.
From Stdlib Require Import Ascii.

Local Open Scope Z_scope.

(** ** Entries, errors and the values passed as [any] *)
Record SmResult := { sr_Value : Z; sr_Data : list ascii }.
Record Entry := { en_Index : Z; en_Cmd : list ascii; en_Result : SmResult }.

Definition with_result (e : Entry) (r : SmResult) : Entry :=
  {| en_Index := en_Index e; en_Cmd := en_Cmd e; en_Result := r |}.

Inductive SmError :=
| CorruptCommand (index : Z) (e : WireError)
| ApplyFailed (index : Z) (e : ApplyError)
| ApplyMetaFailed (index : Z) (e : MetaError)
| WrongSnapshotType
| WriteFailed (e : string)
| ReadFailed (e : string)
| CorruptSnapshot (e : WireError).

Inductive anyState := anySnapshot (s : Snapshot) | anyMetaSnapshot (s : MetaSnapshot) | anyOther.

(** ** The lock shard's adapter

    [Update] stops at the first entry that fails, which is fatal to the node;
    the state then has the entries before it applied.  The generated [MarshalVT]
    of a result has no failing path. *)
Fixpoint Update (f : FSM) (entries : list Entry) : FSM * result (list Entry) SmError :=
  match entries with
  | [] => (f, Ok [])
  | e :: rest =>
      match UnmarshalCommand (en_Cmd e) with
      | Err w => (f, Err (CorruptCommand (en_Index e) w))
      | Ok c =>
          let '(f1, r) := Apply f (Some c) in
          match r with
          | Err a => (f1, Err (ApplyFailed (en_Index e) a))
          | Ok res =>
              let e' := with_result e {| sr_Value := u64 (outcomeNumber (r_Outcome res)); sr_Data := MarshalResult res |} in
              let '(f2, r2) := Update f1 rest in
              (f2, match r2 with Ok es => Ok (e' :: es) | Err x => Err x end)
          end
      end
  end.

Definition Lookup (f : FSM) (q : Query) : result Answer QueryError := query f q.
Definition PrepareSnapshot (f : FSM) : anyState := anySnapshot (snapshot f).

(** ** The meta shard's adapter *)
Definition MarshalMetaResult (rev : Z) : list ascii := marshal (emitU64 1 rev ++ []).

Fixpoint UpdateMeta (s : Store) (entries : list Entry) : Store * result (list Entry) SmError :=
  match entries with
  | [] => (s, Ok [])
  | e :: rest =>
      match UnmarshalMetaCommand (en_Cmd e) with
      | Err w => (s, Err (CorruptCommand (en_Index e) w))
      | Ok c =>
          let '(s1, r) := ApplyMeta s (Some c) in
          match r with
          | Err a => (s1, Err (ApplyMetaFailed (en_Index e) a))
          | Ok rev =>
              let e' := with_result e {| sr_Value := rev; sr_Data := MarshalMetaResult rev |} in
              let '(s2, r2) := UpdateMeta s1 rest in
              (s2, match r2 with Ok es => Ok (e' :: es) | Err x => Err x end)
          end
      end
  end.

Definition LookupMeta (s : Store) (q : MetaQuery) : result MetaAnswer MetaError := QueryMeta s q.
Definition PrepareMetaSnapshot (s : Store) : anyState := anyMetaSnapshot (SnapshotMeta s).

Section streams.
Context {W R : Type} (Write : W → list ascii → W * option string) (ReadAll : R → result (list ascii) string).

Definition SaveSnapshot (state : anyState) (w : W) : W * result unit SmError :=
  match state with
  | anySnapshot snap =>
      let '(w1, err) := Write w (MarshalSnapshot snap) in
      (w1, match err with Some e => Err (WriteFailed e) | None => Ok tt end)
  | _ => (w, Err WrongSnapshotType)
  end.

Definition RecoverFromSnapshot (f : FSM) (r : R) : FSM * result unit SmError :=
  match ReadAll r with
  | Err e => (f, Err (ReadFailed e))
  | Ok b =>
      match UnmarshalSnapshot b with
      | Err e => (f, Err (CorruptSnapshot e))
      | Ok snap => (Restore f snap, Ok tt)
      end
  end.

Definition SaveMetaSnapshot (state : anyState) (w : W) : W * result unit SmError :=
  match state with
  | anyMetaSnapshot snap =>
      let '(w1, err) := Write w (MarshalMetaSnapshot snap) in
      (w1, match err with Some e => Err (WriteFailed e) | None => Ok tt end)
  | _ => (w, Err WrongSnapshotType)
  end.

Definition RecoverFromMetaSnapshot (s : Store) (r : R) : Store * result unit SmError :=
  match ReadAll r with
  | Err e => (s, Err (ReadFailed e))
  | Ok b =>
      match UnmarshalMetaSnapshot b with
      | Err e => (s, Err (CorruptSnapshot e))
      | Ok snap => (RestoreMeta snap, Ok tt)
      end
  end.
End streams.

(** ** The factory *)
Inductive machine := LockMachine (f : FSM) | MetaMachine (s : Store).

Definition newFactory (notifier : option (list Event)) (metaShardID clusterID nodeID : Z) : machine :=
  if negb (metaShardID =? 0) && (clusterID =? metaShardID) then MetaMachine NewStore
  else LockMachine (New notifier).

(** ** What a shard's state may store

    Integers in range, and no value that is present but empty: exactly what the
    wire format can carry. *)
Definition normal (v : gobytes) : Prop := normBytes v = v.

Definition stored_lock (lk : lock) : Prop :=
  in_u64 (lk_token lk) ∧ normal (lk_value lk) ∧
  Forall (λ w, in_u64 (w_seq w) ∧ normal (w_value w)) (lk_queue lk).

Record stored (a : AState) : Prop := {
  stored_seq : in_u64 (a_seq a);
  stored_rev : in_u64 (a_rev a);
  stored_locks : map_Forall (λ _, stored_lock) (a_locks a);
  stored_leases : map_Forall (λ _ l, in_i64 l.1 ∧ in_i64 l.2) (a_leases a)
}.

Definition mop_fits (m : mop) : Prop :=
  match m with
  | MGrant _ _ v | MEnqueue _ _ v | MPublish _ v => normal v
  | MLease _ ttl deadline => in_i64 ttl ∧ in_i64 deadline
  | _ => True
  end.

Section stored.
Lemma normal_normBytes v : normal (normBytes v).
Proof. rewrite /normal /normBytes. destruct v as [s|]; [|done]. by case_bool_decide; rewrite ?bool_decide_false. Qed.

Lemma stored_queue lk q : stored_lock lk → q `sublist_of` lk_queue lk → stored_lock (with_queue lk q).
Proof. intros (Ht & Hv & Hq) Hs. split_and!; [done..|]. by eapply Forall_sublist. Qed.

Lemma micro_stored a m : mop_fits m → stored a → stored (micro a m).
Proof.
  intros Hm [Hs Hr Hlk Hls]. assert (in_u64 (next_token a)) as Ht by apply u64_range.
  destruct m as [k c v|k c v|k|k c|k v|c t d|c]; cbn [micro mop_fits] in *.
  - split; cbn; [done..| |done]. by apply map_Forall_insert_2.
  - destruct (a_locks a !! k) as [lk|] eqn:E; [|done]. destruct (Hlk _ _ E) as (H1 & H2 & H3).
    split; cbn; [done..| |done]. apply map_Forall_insert_2; [|done]. split_and!; [done..|]. cbn.
    apply Forall_app. split; [done|]. by apply Forall_singleton.
  - destruct (a_locks a !! k) as [lk|] eqn:E; [|done]. destruct (Hlk _ _ E) as (H1 & H2 & H3).
    destruct (lk_queue lk) as [|w q]; split; cbn; try done; [by apply map_Forall_delete|].
    apply Forall_cons in H3 as [[? ?] ?]. by apply map_Forall_insert_2.
  - destruct (a_locks a !! k) as [lk|] eqn:E; [|done]. destruct (removeWaiter _ _) as [q|] eqn:Eq; [|done].
    split; cbn; [done..| |done]. apply map_Forall_insert_2; [|done].
    apply stored_queue; [by eapply Hlk|]. by eapply removeWaiter_sublist.
  - destruct (a_locks a !! k) as [lk|] eqn:E; [|done]. destruct (Hlk _ _ E) as (H1 & H2 & H3).
    split; cbn; [done..| |done]. by apply map_Forall_insert_2.
  - split; cbn; [done..|]. by apply map_Forall_insert_2.
  - split; cbn; [done..|]. by apply map_Forall_delete.
Qed.

Lemma micros_stored ms a : Forall mop_fits ms → stored a → stored (foldl micro a ms).
Proof.
  intros Hms Ha. apply foldl_invariant; [done|]. intros b m Hm. apply micro_stored. by eapply Forall_forall in Hms.
Qed.

Lemma drop_plan_fits a c : Forall mop_fits (drop_plan a c).
Proof. rewrite /drop_plan !Forall_app !Forall_fmap. split_and!; [by apply Forall_true..|by constructor]. Qed.

Lemma plan_fits a c : stored a → cmd_fits c → Forall mop_fits (plan a (normCmd c)).
Proof.
  intros [_ _ _ Hls] Hc.
  assert (∀ t n, in_i64 (leaseDeadline n t)) as Hd by (intros; apply i64_range).
  destruct c; cbn [normCmd plan cmd_fits] in *; rewrite /acquire_plan; repeat case_match;
    try apply drop_plan_fits; try apply Forall_nil; try apply Forall_singleton; cbn;
    try done; try apply normal_normBytes; [by destruct Hc|].
  by edestruct Hls as [? ?]; [eassumption|].
Qed.

(** A command as it comes out of the decoder. *)
Definition fits_command (c : option Command) : Prop :=
  ∃ c', c = Some (normCommand c') ∧ match GetCmd c' with Some x => cmd_fits x | None => True end.

Lemma Apply_stored f c : wf f → fits_command c → stored (abs f) → stored (abs (Apply f c).1).
Proof.
  intros Hwf ([c'] & -> & Hc) Hs. rewrite Apply_abs //.
  assert (stored (a_bump (abs f))) as Hb by (destruct Hs; split; [done|apply u64_range|done..]).
  destruct c' as [c'|]; cbn; [|done]. apply micros_stored; [|done]. by apply plan_fits.
Qed.

Lemma New_stored n : stored (abs (New n)).
Proof. split; cbn; [done..|apply map_Forall_empty|]. rewrite fmap_empty. apply map_Forall_empty. Qed.
End stored.

(** ** Results and snapshots of a stored state fit the wire *)
Section fits.
Lemma queuePosFrom_range i q c : 0 ≤ queuePosFrom i q c < 2 ^ 32.
Proof.
  revert i. induction q as [|w q IH]; intros i; cbn [queuePosFrom]; [done|].
  case_bool_decide; [by apply Z.mod_pos_bound|done].
Qed.

Lemma dispatch_revision f c : r_Revision (dispatch f c).2 = revision (dispatch f c).1.
Proof.
  destruct c; cbn [dispatch]; rewrite /acquire /grant /release /cancelWait /proclaim /leaseGrant /leaseKeepAlive
    /leaseRevoke /leaseExpire; repeat case_match; done.
Qed.

Lemma dispatch_token f c : stored (abs f) → in_u64 (r_FencingToken (dispatch f c).2).
Proof.
  intros [_ _ Hlk _].
  assert (∀ k lk, locks f !! k = Some lk → in_u64 (lk_token lk)) as Ht by (intros k lk E; by destruct (Hlk _ _ E)).
  assert (in_u64 0) by done.
  destruct c; cbn [dispatch]; rewrite /acquire /grant /release /cancelWait /proclaim /leaseGrant /leaseKeepAlive
    /leaseRevoke /leaseExpire; repeat case_match; cbn; eauto; apply u64_range.
Qed.

Lemma dispatch_position f c : 0 ≤ r_QueuePosition (dispatch f c).2 < 2 ^ 32.
Proof.
  assert (0 ≤ 0 < 2 ^ 32) by done.
  destruct c; cbn [dispatch]; rewrite /acquire /grant /release /cancelWait /proclaim /leaseGrant /leaseKeepAlive
    /leaseRevoke /leaseExpire; repeat case_match; cbn [r_QueuePosition snd resultKey resultToken resultHolder mkresult
    resultDeadline resultPosition]; try done; try apply queuePosFrom_range; by apply Z.mod_pos_bound.
Qed.

Lemma dispatch_deadline f c : in_i64 (r_LeaseDeadline (dispatch f c).2).
Proof.
  assert (in_i64 0) by done.
  destruct c; cbn [dispatch]; rewrite /acquire /grant /release /cancelWait /proclaim /leaseGrant /leaseKeepAlive
    /leaseRevoke /leaseExpire; repeat case_match; cbn; try done; apply i64_range.
Qed.

Lemma Apply_fits f c r :
  wf f → fits_command c → stored (abs f) → (Apply f c).2 = Ok r → result_fits r.
Proof.
  intros Hwf Hc Hs. pose proof (Apply_stored _ _ Hwf Hc Hs) as Hs'. destruct Hc as ([[c'|]] & -> & _); [|done].
  cbn [normCommand GetCmd fmap option_fmap option_map] in *. rewrite Apply_answer. rewrite Apply_Some in Hs'. intros [= <-].
  assert (stored (abs (incr_revision f))) as Hb by (destruct Hs; split; [done|apply u64_range|done..]).
  split_and!; [|by apply dispatch_token|apply dispatch_position|apply dispatch_position|apply dispatch_deadline].
  rewrite dispatch_revision. apply (stored_rev _ Hs').
Qed.

Lemma Forall_collect {V B} (P : B → Prop) (g : string → V → B) (m : gmap string V) :
  (∀ k v, m !! k = Some v → P (g k v)) → Forall P (collect g m).
Proof.
  intros HP. apply Forall_forall. intros b. rewrite /collect list_elem_of_omap.
  intros (k & _ & (v & Hv & ->)%fmap_Some). eauto.
Qed.

Lemma snapshot_stored_fits f : stored (abs f) → snapshot_fits (snapshot f).
Proof.
  intros [Hs Hr Hlk Hls]. split_and!; [done..| |]; apply Forall_collect.
  - intros k lk E. destruct (Hlk _ _ E) as (Ht & _ & Hq). split; [done|]. cbn. apply Forall_fmap.
    eapply Forall_impl; [exact Hq|]. by intros w [? _].
  - intros c ls E. apply (Hls c (abs_lease ls)). by rewrite /= lookup_fmap E.
Qed.

Lemma normLockState_id lk k : stored_lock lk → normLockState (snapLock k lk) = snapLock k lk.
Proof.
  intros (_ & Hv & Hq). rewrite /normLockState /snapLock /=. f_equal; [done|].
  induction Hq as [|w q [_ Hw] Hq IH]; [done|]. cbn. f_equal; [|done]. by rewrite /normWaiter /snapWaiter /= Hw.
Qed.

Lemma normSnapshot_id f : stored (abs f) → normSnapshot (snapshot f) = snapshot f.
Proof.
  intros [_ _ Hlk _]. rewrite /normSnapshot /snapshot /=. f_equal. rewrite -{2}(list_fmap_id (collect _ _)).
  apply list_fmap_ext. intros i l Hl. apply list_elem_of_lookup_2 in Hl.
  rewrite /collect list_elem_of_omap in Hl. destruct Hl as (k & _ & (lk & E & ->)%fmap_Some).
  apply normLockState_id. by apply (Hlk _ _ E).
Qed.

(** A snapshot that went over the wire restores the state it was taken from. *)
Lemma recover_saved {R} (ReadAll : R → result (list ascii) string) f g r :
  wf f → stored (abs f) → small (MarshalSnapshot (snapshot f)) → ReadAll r = Ok (MarshalSnapshot (snapshot f)) →
  RecoverFromSnapshot ReadAll g r = (with_notifier f (notifier g), Ok tt).
Proof.
  intros Hwf Hs Hl Hr. rewrite /RecoverFromSnapshot Hr Snapshot_round_trip //; [by apply snapshot_stored_fits|].
  by rewrite normSnapshot_id // Restore_snapshot.
Qed.
End fits.

(** ** Batches of encoded commands *)
Definition command_of (c : Cmd) : Command := {| GetCmd := Some c |}.

(** A command the service proposes: its integers fit, no lease is granted to the
    empty client, and its encoding has a length Go can express. *)
Definition proposal (c : Cmd) : Prop := cmd_ok c ∧ cmd_fits c ∧ small (MarshalCommand (command_of c)).

Definition carries (e : Entry) (c : Cmd) : Prop := en_Cmd e = MarshalCommand (command_of c) ∧ proposal c.

(** The answers of the commands applied one after another. *)
Fixpoint answers (f : FSM) (cs : list Cmd) : list CommandResult :=
  match cs with
  | [] => []
  | c :: cs' => (dispatch (incr_revision f) c).2 :: answers (dispatch (incr_revision f) c).1 cs'
  end.

Definition answered (e : Entry) (r : CommandResult) : Entry :=
  with_result e {| sr_Value := outcomeNumber (r_Outcome r); sr_Data := MarshalResult r |}.

Section batches.
Lemma proposal_command c : proposal c → command_ok (Some (command_of (normCmd c))) ∧ fits_command (Some (command_of (normCmd c))).
Proof. intros (Hok & Hf & _). split; [by destruct c|]. by exists (command_of c). Qed.

Lemma Apply_normal f c :
  Apply f (Some (normCommand (command_of c))) =
  ((dispatch (incr_revision f) (normCmd c)).1, Ok (dispatch (incr_revision f) (normCmd c)).2).
Proof. cbn. by destruct (dispatch _ _). Qed.

Lemma Apply_next f c :
  wf f → stored (abs f) → proposal c →
  wf (dispatch (incr_revision f) (normCmd c)).1 ∧ stored (abs (dispatch (incr_revision f) (normCmd c)).1) ∧
  result_fits (dispatch (incr_revision f) (normCmd c)).2.
Proof.
  intros Hwf Hs [Hok Hf]%proposal_command. rewrite -Apply_Some. split_and!; [by apply Apply_wf|by apply Apply_stored|].
  eapply Apply_fits; [exact Hwf|exact Hf|done|]. by rewrite Apply_answer.
Qed.

Lemma Update_carries f es cs :
  wf f → stored (abs f) → Forall2 carries es cs →
  Update f es = (run f (Some ∘ command_of <$> (normCmd <$> cs)), Ok (zip_with answered es (answers f (normCmd <$> cs)))) ∧
  Forall result_fits (answers f (normCmd <$> cs)) ∧
  wf (run f (Some ∘ command_of <$> (normCmd <$> cs))) ∧ stored (abs (run f (Some ∘ command_of <$> (normCmd <$> cs)))).
Proof.
  intros Hwf Hs Hes. revert f Hwf Hs. induction Hes as [|e c es cs [He Hc] Hes IH]; intros f Hwf Hs; [done|].
  destruct (Apply_next f c Hwf Hs Hc) as (Hwf' & Hs' & Hr). destruct (IH _ Hwf' Hs') as (IH1 & IH2 & IH3).
  cbn [Update]. rewrite He command_round_trip_lemma; [by destruct Hc as (? & ? & ?)..|].
  rewrite Apply_normal IH1. rewrite !fmap_cons. cbn [answers zip_with compose].
  rewrite /run. cbn [foldl]. rewrite Apply_Some. split_and!; [|by constructor|apply IH3..].
  repeat f_equal. rewrite /answered. repeat f_equal. apply u64_small. rewrite /in_u64. by destruct (r_Outcome _).
Qed.
End batches.

Lemma Update_app f es1 es2 :
  Update f (es1 ++ es2) =
    let '(f1, r1) := Update f es1 in
    match r1 with
    | Err x => (f1, Err x)
    | Ok o1 => let '(f2, r2) := Update f1 es2 in (f2, match r2 with Ok o2 => Ok (o1 ++ o2) | Err x => Err x end)
    end.
Proof.
  revert f. induction es1 as [|e es1 IH]; intros f; [by cbn; destruct (Update f es2) as [? []]|].
  cbn [Update app]. destruct (UnmarshalCommand _) as [c|]; [|done]. destruct (Apply f _) as [f1 [r|]]; [|done].
  rewrite IH. destruct (Update f1 es1) as [f2 [o1|]]; [|done]. by destruct (Update f2 es2) as [f3 [o2|]].
Qed.

Lemma Update_length f es f' o : Update f es = (f', Ok o) → length o = length es.
Proof.
  revert f o. induction es as [|e es IH]; intros f o; cbn [Update]; [by intros [= _ <-]|]. destruct (UnmarshalCommand _) as [c|]; [|done].
  destruct (Apply f _) as [f1 [r|]]; [|done]. destruct (Update f1 es) as [f2 [o'|]] eqn:E; [|done]. intros [= -> <-]. cbn [length]. f_equal. by eapply IH.
Qed.

Lemma Update_same f g es :
  same f g → same (Update f es).1 (Update g es).1 ∧ (Update f es).2 = (Update g es).2.
Proof.
  revert f g. induction es as [|e es IH]; intros f g Hfg; [done|]. cbn [Update].
  destruct (UnmarshalCommand _) as [c|]; [|done].
  destruct (Apply_same f g Hfg (Some c) (Some c) eq_refl) as [H1 H2].
  destruct (Apply f (Some c)) as [f1 r], (Apply g (Some c)) as [g1 r']. cbn in H1, H2. subst r'.
  destruct r as [r|]; [|done]. destruct (IH f1 g1 H1) as [H3 H4].
  destruct (Update f1 es) as [f2 o], (Update g1 es) as [g2 o']. cbn in H3, H4. by subst o'.
Qed.

(** ** The same for the meta shard *)
Definition meta_proposal (c : MetaCmd) : Prop :=
  metacmd_fits c ∧ small (MarshalMetaCommand {| GetMetaCmd := Some c |}).
Definition meta_carries (e : Entry) (c : MetaCmd) : Prop :=
  en_Cmd e = MarshalMetaCommand {| GetMetaCmd := Some c |} ∧ meta_proposal c.

Record meta_stored (s : Store) : Prop := {
  meta_stored_wf : meta_wf s;
  meta_stored_rev : in_u64 (st_revision s);
  meta_stored_fits : map_Forall (λ _, member_fits) (members s)
}.

Section meta_batches.
Lemma NewStore_stored : meta_stored NewStore.
Proof. split; [done|done|apply map_Forall_empty]. Qed.

Lemma ApplyMeta_stored s c : metacmd_fits c → meta_stored s → meta_stored (runMeta s [c]).
Proof.
  intros Hc [Hwf Hr Hm]. split; [by apply runMeta_wf| |]; destruct c; cbn; try apply u64_range.
  - by apply map_Forall_insert_2; rewrite ?cloneMember_id.
  - by apply map_Forall_delete.
Qed.

Lemma UpdateMeta_carries s es cs :
  meta_stored s → Forall2 meta_carries es cs →
  (UpdateMeta s es).1 = runMeta s cs ∧ meta_stored (runMeta s cs) ∧ is_ok (UpdateMeta s es).2.
Proof.
  intros Hs Hes. revert s Hs. induction Hes as [|e c es cs [He [Hf Hl]] Hes IH]; intros s Hs; [done|].
  pose proof (ApplyMeta_stored s c Hf Hs) as Hs'. destruct (IH _ Hs') as (IH1 & IH2 & IH3).
  cbn [UpdateMeta]. rewrite He MetaCommand_round_trip //.
  change (runMeta s (c :: cs)) with (runMeta (runMeta s [c]) cs).
  change (runMeta s [c]) with (ApplyMeta s (Some {| GetMetaCmd := Some c |})).1 in IH1, IH2, IH3, Hs' |- *.
  destruct (ApplyMeta s _) as [s1 [r|]] eqn:E; [|by destruct c]. cbn in IH1, IH2, IH3 |- *.
  destruct (UpdateMeta s1 es) as [s2 [o|]]; cbn in *; [done|]. by destruct IH3.
Qed.

Lemma UpdateMeta_app s es1 es2 :
  UpdateMeta s (es1 ++ es2) =
    let '(s1, r1) := UpdateMeta s es1 in
    match r1 with
    | Err x => (s1, Err x)
    | Ok o1 => let '(s2, r2) := UpdateMeta s1 es2 in (s2, match r2 with Ok o2 => Ok (o1 ++ o2) | Err x => Err x end)
    end.
Proof.
  revert s. induction es1 as [|e es1 IH]; intros s; [by cbn; destruct (UpdateMeta s es2) as [? []]|].
  cbn [UpdateMeta app]. destruct (UnmarshalMetaCommand _) as [c|]; [|done]. destruct (ApplyMeta s _) as [s1 [r|]]; [|done].
  rewrite IH. destruct (UpdateMeta s1 es1) as [s2 [o1|]]; [|done]. by destruct (UpdateMeta s2 es2) as [s3 [o2|]].
Qed.

Lemma recover_saved_meta {R} (ReadAll : R → result (list ascii) string) s t r :
  meta_stored s → small (MarshalMetaSnapshot (SnapshotMeta s)) → ReadAll r = Ok (MarshalMetaSnapshot (SnapshotMeta s)) →
  RecoverFromMetaSnapshot ReadAll t r = (s, Ok tt).
Proof.
  intros [Hwf Hr Hm] Hl Hread. rewrite /RecoverFromMetaSnapshot Hread MetaSnapshot_round_trip //.
  - split; [done|]. apply Forall_forall. intros m Hin%elem_of_list; [|done]. by apply (Hm _ _ Hin).
  - by rewrite RestoreMeta_Snapshot.
Qed.
End meta_batches.

(** ** The interface to the Raft library

    Snapshots go to files of an in-memory file system: a writer that appends and
    a reader that returns what was written. *)
Definition fileWrite (w b : list ascii) : list ascii * option string := (w ++ b, None).
Definition fileReadAll (r : list ascii) : result (list ascii) string := Ok r.

Class StateMachine (S : Type) := {
  sm_update : S → list Entry → S * result (list Entry) SmError;
  sm_save : S → list ascii * result unit SmError;
  sm_recover : S → list ascii → S * result unit SmError;
  sm_fresh : S → Prop;                (* what the factory returns *)
  sm_log : list Entry → Prop;         (* entries the service proposes *)
  sm_same : relation S                (* equal up to node-local observers *)
}.

Class StateMachineLaws S `{StateMachine S} : Prop := {
  sm_same_equiv :: Equivalence sm_same;
  sm_log_app es1 es2 : sm_log (es1 ++ es2) ↔ sm_log es1 ∧ sm_log es2;
  sm_update_app s es1 es2 s1 o1 :
    sm_update s es1 = (s1, Ok o1) →
    sm_update s (es1 ++ es2) =
      ((sm_update s1 es2).1, match (sm_update s1 es2).2 with Ok o2 => Ok (o1 ++ o2) | Err x => Err x end);
  sm_update_same s t es :
    sm_same s t → sm_same (sm_update s es).1 (sm_update t es).1 ∧ (sm_update s es).2 = (sm_update t es).2;
  sm_save_same s t : sm_same s t → sm_save s = sm_save t;
  sm_update_ok s es : sm_fresh s → sm_log es → is_ok (sm_update s es).2;
  sm_recover_save s t es :
    sm_fresh s → sm_log es → let s1 := (sm_update s es).1 in small (sm_save s1).1 →
    (sm_save s1).2 = Ok tt ∧ (sm_recover t (sm_save s1).1).2 = Ok tt ∧ sm_same (sm_recover t (sm_save s1).1).1 s1
}.

#[export] Instance FSM_machine : StateMachine FSM := {|
  sm_update := Update;
  sm_save f := SaveSnapshot fileWrite (PrepareSnapshot f) [];
  sm_recover := RecoverFromSnapshot fileReadAll;
  sm_fresh f := ∃ n, f = New n;
  sm_log es := ∃ cs, Forall2 carries es cs;
  sm_same := same
|}.

#[export] Instance Store_machine : StateMachine Store := {|
  sm_update := UpdateMeta;
  sm_save s := SaveMetaSnapshot fileWrite (PrepareMetaSnapshot s) [];
  sm_recover := RecoverFromMetaSnapshot fileReadAll;
  sm_fresh s := s = NewStore;
  sm_log es := ∃ cs, Forall2 meta_carries es cs;
  sm_same := eq
|}.

Lemma Forall2_ex_app {A B} (P : A → B → Prop) l1 l2 :
  (∃ k, Forall2 P (l1 ++ l2) k) ↔ (∃ k, Forall2 P l1 k) ∧ (∃ k, Forall2 P l2 k).
Proof.
  split.
  - intros (k & (k1 & k2 & H1 & H2 & ->)%Forall2_app_inv_l). eauto.
  - intros [[k1 H1] [k2 H2]]. exists (k1 ++ k2). by apply Forall2_app.
Qed.

#[export] Instance FSM_laws : StateMachineLaws FSM.
Proof.
  split; cbn [sm_update sm_save sm_recover sm_fresh sm_log sm_same FSM_machine].
  - apply _.
  - intros. apply Forall2_ex_app.
  - intros f es1 es2 f1 o1 E. rewrite Update_app E. by destruct (Update f1 es2).
  - intros f g es. apply Update_same.
  - intros f g Hfg. by rewrite /PrepareSnapshot (snapshot_same f g Hfg).
  - intros f es [n ->] [cs Hes]. destruct (Update_carries (New n) es cs) as (-> & _); [apply wf_New|apply New_stored|done|done].
  - intros f g es [n ->] [cs Hes]. destruct (Update_carries (New n) es cs) as (-> & _ & Hwf & Hs);
      [apply wf_New|apply New_stored|done|]. intros Hl. by rewrite (recover_saved fileReadAll _ g _ Hwf Hs Hl eq_refl).
Qed.

#[export] Instance Store_laws : StateMachineLaws Store.
Proof.
  split; cbn [sm_update sm_save sm_recover sm_fresh sm_log sm_same Store_machine].
  - apply _.
  - intros. apply Forall2_ex_app.
  - intros s es1 es2 s1 o1 E. rewrite UpdateMeta_app E. by destruct (UpdateMeta s1 es2).
  - by intros s ? es ->.
  - by intros s ? ->.
  - intros s es -> [cs Hes]. by apply (UpdateMeta_carries NewStore es cs NewStore_stored).
  - intros s t es -> [cs Hes]. destruct (UpdateMeta_carries NewStore es cs NewStore_stored Hes) as (-> & Hs & _).
    intros Hl. by rewrite (recover_saved_meta fileReadAll _ t _ Hs Hl eq_refl).
Qed.

(** ** Properties *)

(** a committed batch means what its commands mean.  On any well-formed
    state, [Update] of entries that carry proposed commands applies exactly those
    commands in order, fails on none, writes on every entry the answer of its
    command with the outcome's number, and every answer decodes to what was
    answered. *)
Theorem update_applies_commands f es cs :
  wf f → stored (abs f) → Forall2 carries es cs →
  let rs := answers f (normCmd <$> cs) in
  Update f es = (run f (Some ∘ command_of <$> (normCmd <$> cs)), Ok (zip_with answered es rs)) ∧
  Forall (λ r, small (MarshalResult r) → UnmarshalResult (MarshalResult r) = Ok (pbOf r)) rs.
Proof.
  intros Hwf Hs Hes. destruct (Update_carries f es cs Hwf Hs Hes) as (H1 & H2 & _). split; [done|].
  eapply Forall_impl; [exact H2|]. intros r. apply result_round_trip_lemma.
Qed.

(** A batch: a lease, a lock and a leadership with a value. *)
Definition demo_cmds : list Cmd :=
  [LeaseGrant "a" 30000 5; AcquireLock "/t/x" "a" false; Campaign "/t/y" "a" (Some "v")].
Definition demo_entries : list Entry :=
  imap (λ i c, {| en_Index := Z.of_nat i; en_Cmd := MarshalCommand (command_of c);
                  en_Result := {| sr_Value := 0; sr_Data := [] |} |}) demo_cmds.

Lemma demo_carries : Forall2 carries demo_entries demo_cmds.
Proof.
  repeat apply Forall2_cons_2; [..|apply Forall2_nil_2];
    (split; [reflexivity|split; [by vm_compute|split; by vm_compute]]).
Qed.

Lemma update_applies_commands_witness :
  ∃ o, (Update (New None) demo_entries).2 = Ok o ∧ (sr_Value ∘ en_Result) <$> o = [8; 1; 1].
Proof.
  destruct (update_applies_commands (New None) demo_entries demo_cmds (wf_New None) (New_stored None) demo_carries) as [-> _].
  eexists. split; [reflexivity|]. by vm_compute.
Defined.

(** What the laws give, for either shard: a state saved after a log [es1] and recovered
    elsewhere continues like a replica that applied [es1 ++ es2] from the start. *)
Lemma machine_recovers {S} `{StateMachineLaws S} (s0 t : S) es1 es2 :
  sm_fresh s0 → sm_log (es1 ++ es2) → small (sm_save (sm_update s0 es1).1).1 →
  let r := sm_recover t (sm_save (sm_update s0 es1).1).1 in
  r.2 = Ok tt ∧
  sm_same (sm_update r.1 es2).1 (sm_update s0 (es1 ++ es2)).1 ∧
  sm_save (sm_update r.1 es2).1 = sm_save (sm_update s0 (es1 ++ es2)).1 ∧
  ∃ o1 o2, (sm_update s0 (es1 ++ es2)).2 = Ok (o1 ++ o2) ∧ (sm_update s0 es1).2 = Ok o1 ∧ (sm_update r.1 es2).2 = Ok o2.
Proof.
  intros Hf Hlog Hl. destruct (sm_log_app es1 es2) as [Hsplit _]. destruct (Hsplit Hlog) as [Hl1 _].
  destruct (sm_recover_save s0 t es1 Hf Hl1 Hl) as (_ & Hok & Hsame).
  pose proof (sm_update_ok s0 es1 Hf Hl1) as Ho1. pose proof (sm_update_ok s0 _ Hf Hlog) as Ho.
  destruct (sm_update s0 es1) as [s1 [o1|]] eqn:E1; [|done]. cbn [fst snd] in *.
  rewrite (sm_update_app _ _ es2 _ _ E1) in Ho |- *. cbn [fst snd] in *.
  destruct (sm_update_same _ _ es2 Hsame) as [Hs2 Hr2].
  split_and!; [done|done|by apply sm_save_same|]. rewrite Hr2.
  destruct (sm_update s1 es2).2 as [o2|]; [|done]. eauto.
Qed.

(** The bytes a replica of each shard saves. *)
Definition savedBytes (f : FSM) : list ascii := (SaveSnapshot fileWrite (PrepareSnapshot f) []).1.
Definition savedMetaBytes (s : Store) : list ascii := (SaveMetaSnapshot fileWrite (PrepareMetaSnapshot s) []).1.


