(* ===== verification/Cluster.v ===== *)
(** * What the service sees of the cluster

    The [Proposer] and [Reader] interfaces of internal/server and
    internal/lock/session: proposing commits an encoded command to a shard,
    reading answers a query from a shard, and in the meantime the shard also
    moves on with the commands of other callers.  The class [Cluster] has the
    operations; [ClusterLaws] states what a caller may rely on, which is what
    Raft replication of [Consensus.Update] gives: a proposal that succeeds was
    applied at some point during the call and the answer is the answer of that
    application; a proposal that fails may or may not have been applied; a read
    answers from a state the shard had during the call.  The node's own replica of
    a shard follows behind what is committed; a stale read answers from it.

    [Sim] is a cluster in memory whose other callers follow a script. *)
From S2P Require Import Prelude GoStrings Wire Errors Keypath Fsm FsmWire FsmInv FsmSpec FsmTrace Consensus.
From Stdlib Require Import Ascii.

Local Open Scope Z_scope.

(** A shard moves on by committed commands. *)
Definition moved (f g : FSM) : Prop :=
  ∃ cs, Forall proposal cs ∧ g = run f (Some ∘ command_of <$> (normCmd <$> cs)).

Definition apply (f : FSM) (c : Cmd) : FSM := (dispatch (incr_revision f) (normCmd c)).1.
Definition answer (f : FSM) (c : Cmd) : CommandResult := (dispatch (incr_revision f) (normCmd c)).2.

(** [shard] is what is committed, [replica] what the node itself has applied. *)
Class Cluster (W : Type) := {
  shard : W → Z → FSM;
  replica : W → Z → FSM;
  Propose : W → Z → list ascii → W * result (list ascii) error;
  ReadAt : W → Z → Query → W * result Answer error;
  StaleRead : W → Z → Query → result Answer error
}.

Definition encode (c : Cmd) : list ascii := MarshalCommand (command_of c).

(** [serves] tells the shards that hold locks from the one that holds the
    topology. *)
Class ClusterLaws W `{Cluster W} := {
  valid : W → Prop;
  serves : Z → Prop;
  valid_shard w sh : valid w → wf (shard w sh) ∧ stored (abs (shard w sh));
  propose_moves w sh c : valid w → serves sh → proposal c →
    valid (Propose w sh (encode c)).1 ∧ ∀ s, moved (shard w s) (shard (Propose w sh (encode c)).1 s);
  propose_commits w sh c w' rb : valid w → serves sh → proposal c → Propose w sh (encode c) = (w', Ok rb) →
    ∃ f, moved (shard w sh) f ∧ moved (apply f c) (shard w' sh) ∧ UnmarshalResult rb = Ok (pbOf (answer f c));
  read_moves w sh q : valid w →
    valid (ReadAt w sh q).1 ∧ ∀ s, moved (shard w s) (shard (ReadAt w sh q).1 s);
  read_answers w sh q w' a : valid w → ReadAt w sh q = (w', Ok a) →
    ∃ f, moved (shard w sh) f ∧ moved f (shard w' sh) ∧ query f q = Ok a;
  stale_answers w sh q a : valid w → StaleRead w sh q = Ok a → query (replica w sh) q = Ok a;
  replica_follows w sh : valid w → moved (replica w sh) (shard w sh);
  replica_proposes w sh c : valid w → serves sh → proposal c → ∀ s, moved (replica w s) (replica (Propose w sh (encode c)).1 s);
  replica_reads w sh q : valid w → ∀ s, moved (replica w s) (replica (ReadAt w sh q).1 s)
}.

Section moved.
#[export] Instance moved_preorder : PreOrder moved.
Proof.
  split.
  - intros f. by exists [].
  - intros f g h (c1 & H1 & ->) (c2 & H2 & ->). exists (c1 ++ c2). split; [by apply Forall_app|].
    by rewrite !fmap_app run_app.
Qed.

Lemma moved_apply f c : proposal c → moved f (apply f c).
Proof.
  intros Hc. exists [c]. split; [by constructor|]. rewrite /run /=. by rewrite /apply; destruct (dispatch _ _).
Qed.

Lemma moved_ok f g : moved f g → wf f → stored (abs f) → wf g ∧ stored (abs g).
Proof.
  intros (cs & Hcs & ->). revert f. induction Hcs as [|c cs Hc Hcs IH]; intros f Hwf Hs; [done|].
  destruct (Apply_next f c Hwf Hs Hc) as (Hwf' & Hs' & _).
  assert (run f (Some ∘ command_of <$> (normCmd <$> c :: cs)) =
          run (apply f c) (Some ∘ command_of <$> (normCmd <$> cs))) as ->.
  { rewrite /run /apply !fmap_cons. cbn [foldl compose]. by rewrite Apply_Some. }
  by apply IH.
Qed.

(** Other callers' commands, one after another. *)
Definition apply_all : FSM → list Cmd → FSM := foldl apply.

Lemma moved_apply_all f cs : Forall proposal cs → moved f (apply_all f cs).
Proof.
  revert f. induction cs as [|c cs IH]; intros f Hcs; [done|]. apply Forall_cons in Hcs as [Hc Hcs].
  etransitivity; [by apply moved_apply|]. by apply IH.
Qed.
End moved.

(** ** A cluster in memory

    Each call takes the next step of the script: the commands other callers
    commit first, and whether the call then fails.  [sim_past] has the states a
    shard went through that the node's replica has not left behind yet, the
    oldest first. *)
Record Sim := {
  sim_shards : gmap Z FSM;
  sim_past : gmap Z (list FSM);
  sim_script : list (list (Z * Cmd) * bool)
}.

Definition sim_shard (w : Sim) (sh : Z) : FSM := default (New None) (sim_shards w !! sh).
Definition sim_history (w : Sim) (sh : Z) : list FSM := default [] (sim_past w !! sh).
Definition sim_replica (w : Sim) (sh : Z) : FSM := default (sim_shard w sh) (head (sim_history w sh)).

Definition sim_set (w : Sim) (sh : Z) (f : FSM) : Sim :=
  {| sim_shards := <[sh := f]> (sim_shards w);
     sim_past := <[sh := sim_history w sh ++ [sim_shard w sh]]> (sim_past w);
     sim_script := sim_script w |}.
Definition sim_commit (w : Sim) (sh : Z) (c : Cmd) : Sim := sim_set w sh (apply (sim_shard w sh) c).
Definition sim_commits (w : Sim) (os : list (Z * Cmd)) : Sim := foldl (λ w oc, sim_commit w oc.1 oc.2) w os.

(** The next step of the script: the world after it, and whether to fail. *)
Definition sim_next (w : Sim) : Sim * bool :=
  match sim_script w with
  | [] => (w, false)
  | (others, fail) :: rest =>
      (sim_commits {| sim_shards := sim_shards w; sim_past := sim_past w; sim_script := rest |} others, fail)
  end.

Definition sim_propose (w : Sim) (sh : Z) (b : list ascii) : Sim * result (list ascii) error :=
  let '(w1, fail) := sim_next w in
  if fail then (w1, Err (Text "timeout"))
  else match Update (sim_shard w1 sh) [{| en_Index := 0; en_Cmd := b; en_Result := {| sr_Value := 0; sr_Data := [] |} |}] with
       | (f, Ok [e]) =>
           if Z.of_nat (length (sr_Data (en_Result e))) <? 2 ^ 63 then (sim_set w1 sh f, Ok (sr_Data (en_Result e)))
           else (w1, Err (Text "timeout"))
       | _ => (w1, Err (Text "timeout"))
       end.

Definition sim_read (w : Sim) (sh : Z) (q : Query) : Sim * result Answer error :=
  let '(w1, fail) := sim_next w in
  if fail then (w1, Err (Text "timeout"))
  else (w1, match query (sim_shard w1 sh) q with Ok a => Ok a | Err _ => Err (Text "unknown query") end).

Definition sim_stale (w : Sim) (sh : Z) (q : Query) : result Answer error :=
  match query (sim_replica w sh) q with Ok a => Ok a | Err _ => Err (Text "unknown query") end.

#[export] Instance Sim_cluster : Cluster Sim :=
  {| shard := sim_shard; replica := sim_replica; Propose := sim_propose; ReadAt := sim_read; StaleRead := sim_stale |}.

Record sim_valid (w : Sim) : Prop := {
  sv_shards sh : wf (sim_shard w sh) ∧ stored (abs (sim_shard w sh));
  sv_past sh : StronglySorted moved (sim_history w sh ++ [sim_shard w sh]);
  sv_script : Forall (λ step, Forall (λ oc, proposal oc.2) step.1) (sim_script w)
}.

Section sim.
Lemma sim_set_shard w sh f s : sim_shard (sim_set w sh f) s = if decide (sh = s) then f else sim_shard w s.
Proof. rewrite /sim_shard /= lookup_insert. by case_decide. Qed.

Lemma sim_set_history w sh f s :
  sim_history (sim_set w sh f) s = if decide (sh = s) then sim_history w s ++ [sim_shard w s] else sim_history w s.
Proof. rewrite {1}/sim_history /= lookup_insert. by case_decide; subst. Qed.

(** Committing leaves the replica where it is. *)
Lemma sim_set_replica w sh f s : sim_replica (sim_set w sh f) s = sim_replica w s.
Proof.
  rewrite /sim_replica sim_set_shard sim_set_history. case_decide; [|done]. by destruct (sim_history w s).
Qed.

Lemma sim_set_ok w sh f :
  sim_valid w → moved (sim_shard w sh) f →
  sim_valid (sim_set w sh f) ∧ ∀ s, moved (sim_shard w s) (sim_shard (sim_set w sh f) s).
Proof.
  intros [Hsh Hp Hsc] Hf. split; [split|]; [| |exact Hsc|].
  - intros s. rewrite sim_set_shard. case_decide; [subst|done]. destruct (Hsh s) as [? ?]. by eapply moved_ok.
  - intros s. rewrite sim_set_shard sim_set_history. case_decide; [subst|done].
    apply StronglySorted_app_2; [|apply Hp|by repeat constructor].
    intros g h Hg ->%list_elem_of_singleton. specialize (Hp s).
    apply elem_of_app in Hg as [Hg| ->%list_elem_of_singleton]; [|done].
    etransitivity; [|exact Hf]. eapply StronglySorted_app_1_elem_of; [exact Hp|done|by apply list_elem_of_singleton].
  - intros s. rewrite sim_set_shard. case_decide; [by subst|done].
Qed.

Lemma sim_next_ok w :
  sim_valid w → sim_valid (sim_next w).1 ∧ (∀ s, moved (sim_shard w s) (sim_shard (sim_next w).1 s)) ∧
    ∀ s, sim_replica (sim_next w).1 s = sim_replica w s.
Proof.
  intros Hv. rewrite /sim_next. destruct (sim_script w) as [|[others fail] rest] eqn:E; [done|]. cbn [fst].
  destruct Hv as [Hsh Hp Hsc]. rewrite E in Hsc. apply Forall_cons in Hsc as [Ho Hrest]. cbn [fst] in Ho.
  set (w0 := {| sim_shards := sim_shards w; sim_past := sim_past w; sim_script := rest |}).
  assert (sim_valid w0) as Hv0 by done. change (sim_shard w) with (sim_shard w0).
  change (sim_replica w) with (sim_replica w0). clearbody w0. clear -Ho Hv0. revert w0 Hv0.
  induction others as [|[sh c] os IH]; intros w0 Hv0; [done|]. apply Forall_cons in Ho as [Hc Ho].
  destruct (sim_set_ok w0 sh (apply (sim_shard w0 sh) c) Hv0) as [Hv1 Hm1]; [by apply moved_apply|].
  destruct (IH Ho _ Hv1) as (Hv2 & Hm2 & Hr2). split_and!; [done| |].
  - intros s. etransitivity; [apply Hm1|apply Hm2].
  - intros s. by rewrite /sim_commits /= Hr2 sim_set_replica.
Qed.

(** A successful update of one encoded command applies it and answers. *)
Lemma Update_one f c e :
  wf f → stored (abs f) → proposal c → en_Cmd e = encode c →
  Update f [e] = (apply f c, Ok [answered e (answer f c)]) ∧ result_fits (answer f c).
Proof.
  intros Hwf Hs Hc He. destruct (Update_carries f [e] [c] Hwf Hs) as (H1 & H2 & _).
  { constructor; [by split|constructor]. }
  rewrite H1. split; [|by inversion H2]. f_equal. rewrite /run /=. rewrite /apply. by destruct (dispatch _ _).
Qed.

Lemma sim_propose_spec w sh c w' r :
  sim_valid w → proposal c → sim_propose w sh (encode c) = (w', r) →
  sim_valid w' ∧ (∀ s, moved (sim_shard w s) (sim_shard w' s)) ∧ (∀ s, sim_replica w' s = sim_replica w s) ∧
  (∀ rb, r = Ok rb → ∃ f, moved (sim_shard w sh) f ∧ moved (apply f c) (sim_shard w' sh) ∧
     UnmarshalResult rb = Ok (pbOf (answer f c))).
Proof.
  intros Hv Hc. destruct (sim_next_ok w Hv) as (Hv1 & Hm1 & Hr1). rewrite /sim_propose.
  destruct (sim_next w) as [w1 fail]. cbn [fst] in *. destruct fail; [by intros [= <- <-]|].
  destruct (sv_shards _ Hv1 sh) as [Hwf Hs].
  destruct (Update_one (sim_shard w1 sh) c
    {| en_Index := 0; en_Cmd := encode c; en_Result := {| sr_Value := 0; sr_Data := [] |} |} Hwf Hs Hc eq_refl) as [-> Hfits].
  cbn [en_Result answered with_result sr_Data].
  destruct (Z.ltb_spec (Z.of_nat (length (MarshalResult (answer (sim_shard w1 sh) c)))) (2 ^ 63)) as [Hl|Hl];
    [|by intros [= <- <-]].
  intros [= <- <-].
  destruct (sim_set_ok w1 sh (apply (sim_shard w1 sh) c) Hv1) as [Hv2 Hm2]; [by apply moved_apply|].
  split_and!; [done| | |].
  - intros s. etransitivity; [apply Hm1|apply Hm2].
  - intros s. by rewrite sim_set_replica.
  - intros rb [= <-]. exists (sim_shard w1 sh). split_and!; [apply Hm1| |by apply result_round_trip_lemma].
    rewrite sim_set_shard decide_True //.
Qed.

Lemma sim_replica_follows w s : sim_valid w → moved (sim_replica w s) (sim_shard w s).
Proof.
  intros Hv. pose proof (sv_past _ Hv s) as Hp. rewrite /sim_replica. destruct (sim_history w s) as [|f h]; [done|]. cbn.
  eapply (StronglySorted_app_1_elem_of moved (f :: h) [sim_shard w s]); [exact Hp|left|by apply list_elem_of_singleton].
Qed.
End sim.

#[export] Instance Sim_laws : ClusterLaws Sim.
Proof.
  refine {| valid := sim_valid; serves := λ _, True |}; cbn.
  - intros w sh Hv. apply Hv.
  - intros w sh c Hv _ Hc. destruct (sim_propose w sh (encode c)) as [w' r] eqn:E.
    by destruct (sim_propose_spec _ _ _ _ _ Hv Hc E) as (H1 & H2 & _).
  - intros w sh c w' rb Hv _ Hc E. destruct (sim_propose_spec _ _ _ _ _ Hv Hc E) as (_ & _ & _ & H). by apply H.
  - intros w sh q Hv. destruct (sim_next_ok w Hv) as (Hv1 & Hm1 & _). rewrite /sim_read.
    by destruct (sim_next w) as [w1 []].
  - intros w sh q w' a Hv. destruct (sim_next_ok w Hv) as (Hv1 & Hm1 & _). rewrite /sim_read.
    destruct (sim_next w) as [w1 []]; [done|]. cbn in Hm1. intros [= <- Ha]. exists (sim_shard w1 sh).
    split_and!; [apply Hm1|done|]. by destruct (query _ _); simplify_eq.
  - intros w sh q a _. rewrite /sim_stale. by destruct (query _ _); intros; simplify_eq.
  - intros w sh Hv. by apply sim_replica_follows.
  - intros w sh c Hv _ Hc s. destruct (sim_propose w sh (encode c)) as [w' r] eqn:E.
    destruct (sim_propose_spec _ _ _ _ _ Hv Hc E) as (_ & _ & H3 & _). cbn. by rewrite H3.
  - intros w sh q Hv s. destruct (sim_next_ok w Hv) as (_ & _ & Hr). rewrite /sim_read.
    destruct (sim_next w) as [w1 []]; cbn in *; by rewrite Hr.
Defined.
