(* ===== verification/Session.v ===== *)
(** * Client sessions

    internal/lock/session/session.go: the sessions of a node and the leases they
    hold in the shards.  Proposals go through the interface of [Cluster].  The
    clock [m.now()] is an argument of every operation that reads it.  [KeepAlive]
    and [Close] start one task per shard; [order] is the order in which the tasks
    run, any permutation of the session's shards.  The task group
    (vendor/github.com/gostdlib/base/concurrency/sync) runs them all and joins
    their errors into one that has no cause. *)
From S2P Require Import Prelude GoStrings Wire Errors Keypath Fsm FsmWire FsmInv FsmSpec FsmTrace Consensus Router Cluster.
From Stdlib Require Import Ascii.

Local Open Scope string_scope.
Local Open Scope list_scope.
Local Open Scope Z_scope.

Record session := { ss_ttlMS : Z; ss_shards : gset Z }.
Abbreviation Manager := (gmap string session).

Definition NewManager : Manager := ∅.

Definition ErrNoSession : error := Text "session: no open session for client".

(** The texts of the decoder's errors, without the numbers some of them carry. *)
Definition wireError (e : WireError) : error :=
  Text match e with
       | ErrIntOverflow => "proto: integer overflow"
       | ErrUnexpectedEOF => "unexpected EOF"
       | ErrInvalidLength => "proto: negative length found during unmarshaling"
       | ErrUnexpectedEndOfGroup => "proto: unexpected end of group"
       | ErrIllegalWireType => "proto: illegal wireType"
       | ErrEndGroup => "proto: wiretype end group for non-group"
       | ErrIllegalTag => "proto: illegal tag"
       | ErrWrongWireType => "proto: wrong wireType"
       end.

(** [Group.Wait]: nil without errors, else one error with all their messages. *)
Definition groupError (errs : list error) : option error :=
  match errs with
  | [] => None
  | _ => Some (Wrapping (Join "010"%char (message <$> errs)) [])
  end.

Section manager.
Context {W : Type} `{Cluster W}.

Definition propose (w : W) (shardID : Z) (c : Command) : W * result pbResult error :=
  let '(w1, r) := Propose w shardID (MarshalCommand c) in
  match r with
  | Err e => (w1, Err (E CatInternal TypeBackend (Some e)))
  | Ok rb =>
      match UnmarshalResult rb with
      | Err e => (w1, Err (E CatInternal TypeMarshal (Some (wireError e))))
      | Ok res => (w1, Ok res)
      end
  end.

Definition Open (m : Manager) (clientID : string) (ttlMS : Z) : Manager :=
  let s := default {| ss_ttlMS := 0; ss_shards := ∅ |} (m !! clientID) in
  <[clientID := {| ss_ttlMS := ttlMS; ss_shards := ss_shards s |}]> m.

Definition Attach (m : Manager) (clientID : string) (shardID : Z) : Manager * option error :=
  match m !! clientID with
  | None => (m, Some ErrNoSession)
  | Some s => (<[clientID := {| ss_ttlMS := ss_ttlMS s; ss_shards := ss_shards s ∪ {[shardID]} |}]> m, None)
  end.

Definition noSession : error := E CatPrecondition TypeNoSession (Some ErrNoSession).

Definition EnsureLease (m : Manager) (w : W) (clientID : string) (shardID now : Z) : Manager * W * option error :=
  match m !! clientID with
  | None => (m, w, Some noSession)
  | Some s =>
      if bool_decide (shardID ∈ ss_shards s) then (m, w, None)
      else
        let '(w1, r) := propose w shardID (cmd.Grant clientID (ss_ttlMS s) now) in
        match r with
        | Err e => (m, w1, Some e)
        | Ok _ => (<[clientID := {| ss_ttlMS := ss_ttlMS s; ss_shards := ss_shards s ∪ {[shardID]} |}]> m, w1, None)
        end
  end.

(** One task of [KeepAlive]: the shards of the session, the cluster and the
    errors so far. *)
Definition keepOne (clientID : string) (now : Z) (st : gset Z * W * list error) (sh : Z) : gset Z * W * list error :=
  let '(held, w, errs) := st in
  let '(w1, r) := propose w sh (cmd.KeepAlive clientID now) in
  match r with
  | Err e => (held, w1, errs ++ [e])
  | Ok res => ((if pr_Outcome res =? outcomeNumber OUTCOME_NOT_FOUND then held ∖ {[sh]} else held), w1, errs)
  end.

Definition KeepAlive (m : Manager) (w : W) (clientID : string) (now : Z) (order : list Z) : Manager * W * result Z error :=
  match m !! clientID with
  | None => (m, w, Err noSession)
  | Some s =>
      let deadline := i64 (now + i64 (ss_ttlMS s * Millisecond)) in
      let '(held, w1, errs) := foldl (keepOne clientID now) (ss_shards s, w, []) order in
      (<[clientID := {| ss_ttlMS := ss_ttlMS s; ss_shards := held |}]> m, w1,
       match groupError errs with Some e => Err e | None => Ok deadline end)
  end.

Definition CloseSession (m : Manager) (w : W) (clientID : string) (order : list Z) : Manager * W :=
  match m !! clientID with
  | None => (delete clientID m, w)
  | Some _ => (delete clientID m, foldl (λ w sh, (propose w sh (cmd.Revoke clientID)).1) w order)
  end.
End manager.

(** ** What the operations achieve *)
Section spec.
Context {W : Type} `{ClusterLaws W}.
Implicit Types (m : Manager) (w : W).

(** A proposal through the session manager. *)
Lemma propose_spec w sh c w' r :
  valid w → serves (W := W) sh → proposal c → propose w sh (command_of c) = (w', r) →
  valid w' ∧ (∀ s, moved (shard w s) (shard w' s)) ∧
  ∀ res, r = Ok res →
    ∃ f, moved (shard w sh) f ∧ moved (apply f c) (shard w' sh) ∧ res = pbOf (answer f c).
Proof.
  intros Hv Hsv Hc. rewrite /propose. destruct (propose_moves w sh c Hv Hsv Hc) as [Hv' Hm].
  destruct (Propose w sh (MarshalCommand (command_of c))) as [w1 [rb|e]] eqn:E; cbn [fst] in *.
  - destruct (propose_commits w sh c w1 rb Hv Hsv Hc E) as (f & H1 & H2 & H3). rewrite H3. intros [= <- <-].
    split_and!; [by rewrite /encode E in Hv'| |].
    + intros s. specialize (Hm s). by rewrite /encode E in Hm.
    + intros res [= <-]. by exists f.
  - rewrite /encode E in Hv', Hm. by intros [= <- <-].
Qed.

(** The lease of [c] in a state. *)
Definition lease_of (f : FSM) (c : string) : option (Z * Z) := a_leases (abs f) !! c.

Lemma answer_keepalive f c now :
  (r_Outcome (answer f (LeaseKeepAlive c now)) = OUTCOME_NOT_FOUND ↔ lease_of f c = None) ∧
  lease_of (apply f (LeaseKeepAlive c now)) c =
    (λ l, (l.1, leaseDeadline now l.1)) <$> lease_of f c.
Proof.
  rewrite /answer /apply /lease_of /= /leaseKeepAlive /=. rewrite !lookup_fmap.
  destruct (leases f !! c) as [ls|] eqn:E; cbn.
  - split; [done|]. by rewrite lookup_insert_eq.
  - split; [done|]. by rewrite E.
Qed.

Lemma lease_granted f c ttl now : lease_of (apply f (LeaseGrant c ttl now)) c = Some (ttl, leaseDeadline now ttl).
Proof. rewrite /apply /lease_of /= /leaseGrant /=. by rewrite lookup_fmap lookup_insert_eq. Qed.

Lemma outcome_not_found r :
  (pr_Outcome (pbOf r) =? outcomeNumber OUTCOME_NOT_FOUND) = bool_decide (r_Outcome r = OUTCOME_NOT_FOUND).
Proof. rewrite /pbOf /=. by destruct (r_Outcome r). Qed.

(** The tasks of [KeepAlive]. *)
Lemma keep_tasks c now order held w errs held' w' :
  valid w → proposal (LeaseKeepAlive c now) → NoDup order → Forall (serves (W := W)) order →
  foldl (keepOne c now) (held, w, errs) order = (held', w', []) →
  errs = [] ∧ valid w' ∧ (∀ s, moved (shard w s) (shard w' s)) ∧ held' ⊆ held ∧
  (∀ sh, sh ∉ order → sh ∈ held → sh ∈ held') ∧
  ∀ sh, sh ∈ order → sh ∈ held → ∃ f, moved (shard w sh) f ∧ moved (apply f (LeaseKeepAlive c now)) (shard w' sh) ∧
    (sh ∈ held' ↔ is_Some (lease_of f c)).
Proof.
  intros Hv Hc. revert held w errs Hv. induction order as [|sh order IH]; intros held w errs Hv Hnd Hsv Hrun.
  { cbn in Hrun. simplify_eq. split_and!; try done. by intros sh ?%elem_of_nil. }
  apply NoDup_cons in Hnd as [Hsh Hnd]. apply Forall_cons in Hsv as [Hsv1 Hsv]. cbn [foldl] in Hrun.
  destruct (propose w sh (command_of (LeaseKeepAlive c now))) as [w1 r] eqn:E.
  destruct (propose_spec _ _ _ _ _ Hv Hsv1 Hc E) as (Hv1 & Hm1 & Hres).
  rewrite {2}/keepOne in Hrun. change (cmd.KeepAlive c now) with (command_of (LeaseKeepAlive c now)) in Hrun.
  rewrite E in Hrun. destruct r as [res|e]; cycle 1.
  { apply IH in Hrun as (? & _); [by destruct errs|done..]. }
  destruct (Hres res eq_refl) as (f & Hf1 & Hf2 & ->). rewrite outcome_not_found in Hrun.
  destruct (answer_keepalive f c now) as [Hout _].
  apply IH in Hrun as (-> & Hv' & Hm' & Hsub & Hkeep & Hall); [|done..]. split_and!; [done|done| | | |].
  - intros s. by etransitivity; [apply Hm1|apply Hm'].
  - case_bool_decide; set_solver.
  - intros s [Hs1 Hs2]%not_elem_of_cons Hh. apply Hkeep; [done|]. case_bool_decide; set_solver.
  - intros s [->|Hs]%elem_of_cons Hh.
    + exists f. split_and!; [done|by etransitivity|]. rewrite -not_eq_None_Some -Hout. case_bool_decide; [set_solver|].
      split; [done|]. intros _. by apply Hkeep.
    + destruct (Hall s Hs) as (g & Hg1 & Hg2 & Hg3). { case_bool_decide; set_solver. }
      exists g. split_and!; [by etransitivity; [apply Hm1|]|done|done].
Qed.

(** ** Properties *)

(** C40: a heartbeat renews every lease.  When [KeepAlive] succeeds, in every
    shard of the session the renewal was applied during the call; the shard stays
    in the session exactly when the client still had a lease there, and that
    lease then runs its own time to live from [now] on.  The deadline returned is
    the session's time to live from [now] on, and no other session changes. *)
Theorem keepalive_renews m w id now order s m' w' d :
  valid w → m !! id = Some s → set_Forall (serves (W := W)) (ss_shards s) →
  proposal (LeaseKeepAlive id now) → order ≡ₚ elements (ss_shards s) →
  KeepAlive m w id now order = (m', w', Ok d) →
  d = leaseDeadline now (ss_ttlMS s) ∧
  ∃ s', m' = <[id := s']> m ∧ ss_ttlMS s' = ss_ttlMS s ∧ ss_shards s' ⊆ ss_shards s ∧
    ∀ sh, sh ∈ ss_shards s → ∃ f, moved (shard w sh) f ∧ moved (apply f (LeaseKeepAlive id now)) (shard w' sh) ∧
      (sh ∈ ss_shards s' ↔ is_Some (lease_of f id)) ∧
      lease_of (apply f (LeaseKeepAlive id now)) id = (λ l, (l.1, leaseDeadline now l.1)) <$> lease_of f id.
Proof.
  intros Hv Hs Hsv Hc Hord. rewrite /KeepAlive Hs.
  destruct (foldl (keepOne id now) (ss_shards s, w, []) order) as [[held w1] errs] eqn:E.
  destruct errs as [|e errs]; [|done]. intros [= <- <- <-]. split; [done|].
  apply keep_tasks in E as (_ & _ & _ & Hsub & _ & Hall); [|done|done|by rewrite Hord; apply NoDup_elements|by rewrite Hord Forall_forall; intros sh ?%elem_of_elements; apply Hsv].
  eexists. split_and!; [done|done|done|]. intros sh Hsh.
  destruct (Hall sh) as (f & H1 & H2 & H3); [by rewrite Hord elem_of_elements|done|].
  exists f. split_and!; [done|done|done|]. apply answer_keepalive.
Qed.

(** Leases are created where they are needed.  When [EnsureLease] succeeds,
    the shard is in the client's session; if it was not before, a lease with the
    session's time to live was granted in that shard during the call, and
    otherwise nothing was done. *)
Theorem ensure_lease_grants m w id sh now s m' w' :
  valid w → serves (W := W) sh → m !! id = Some s → proposal (LeaseGrant id (ss_ttlMS s) now) →
  EnsureLease m w id sh now = (m', w', None) →
  (∃ s', m' !! id = Some s' ∧ ss_ttlMS s' = ss_ttlMS s ∧ ss_shards s' = ss_shards s ∪ {[sh]}) ∧
  ((sh ∈ ss_shards s ∧ m' = m ∧ w' = w) ∨
   ((sh ∉ ss_shards s) ∧ ∃ f, moved (shard w sh) f ∧ moved (apply f (LeaseGrant id (ss_ttlMS s) now)) (shard w' sh) ∧
      lease_of (apply f (LeaseGrant id (ss_ttlMS s) now)) id = Some (ss_ttlMS s, leaseDeadline now (ss_ttlMS s)))).
Proof.
  intros Hv Hsv Hs Hc. rewrite /EnsureLease Hs. case_bool_decide as Hin.
  - intros [= <- <-]. split; [exists s; split_and!; [done|done|set_solver]|]. by left.
  - change (cmd.Grant id (ss_ttlMS s) now) with (command_of (LeaseGrant id (ss_ttlMS s) now)).
    destruct (propose w sh _) as [w1 [res|e]] eqn:E; [|done]. intros [= <- <-].
    destruct (propose_spec _ _ _ _ _ Hv Hsv Hc E) as (_ & _ & Hres). destruct (Hres res eq_refl) as (f & H1 & H2 & _).
    rewrite lookup_insert_eq. split; [by eexists|]. right. split; [done|]. exists f. split_and!; [done|done|].
    apply lease_granted.
Qed.
End spec.

(** ** Witnesses, on a cluster in memory *)
Definition demo_world : Sim := {| sim_shards := ∅; sim_past := ∅; sim_script := [] |}.

Lemma demo_valid : sim_valid demo_world.
Proof.
  split; [|by repeat constructor|constructor]. intros sh. split; [apply wf_New|apply New_stored].
Qed.

Definition demo_session (ttl : Z) (shards : gset Z) : session := {| ss_ttlMS := ttl; ss_shards := shards |}.

(** A lease granted in shard 1 by an open session of one second. *)
Definition demo_ensured : Manager * Sim * option error :=
  EnsureLease (Open NewManager "a" 1000) demo_world "a" 1 0.

Lemma ensure_lease_grants_witness :
  ∃ s', demo_ensured.1.1 !! "a" = Some s' ∧ ss_shards s' = ∅ ∪ {[1]}.
Proof.
  destruct (ensure_lease_grants (Open NewManager "a" 1000) demo_world "a" 1 0 (demo_session 1000 ∅)
    demo_ensured.1.1 demo_ensured.1.2) as [(s' & Hs & _ & Hsh) _]; [apply demo_valid|done|done| |by vm_compute|].
  - split; [done|split; by vm_compute].
  - exists s'. split; [exact Hs|exact Hsh].
Defined.

Lemma demo_ensured_valid : sim_valid demo_ensured.1.2.
Proof.
  assert (demo_ensured.1.2 = (Propose demo_world 1 (encode (LeaseGrant "a" 1000 0))).1) as -> by by vm_compute.
  assert (proposal (LeaseGrant "a" 1000 0)) as Hc by (split; [done|split; by vm_compute]).
  exact (proj1 (propose_moves demo_world 1 _ demo_valid I Hc)).
Qed.

Lemma keepalive_renews_witness :
  (KeepAlive demo_ensured.1.1 demo_ensured.1.2 "a" 7 [1]).2 = Ok (leaseDeadline 7 1000).
Proof.
  destruct (keepalive_renews demo_ensured.1.1 demo_ensured.1.2 "a" 7 [1] (demo_session 1000 {[1]})
    (KeepAlive demo_ensured.1.1 demo_ensured.1.2 "a" 7 [1]).1.1 (KeepAlive demo_ensured.1.1 demo_ensured.1.2 "a" 7 [1]).1.2
    1000000007) as [Hd _]; [apply demo_ensured_valid|by vm_compute|done| |done|by vm_compute|].
  - split; [done|split; by vm_compute].
  - transitivity (Ok 1000000007 : result Z error); [by vm_compute|by rewrite Hd].
Defined.

(** ** A deadline that is not the lease's

    [Open] changes the time to live of a session whose leases were granted with
    another one; the keepalive does not carry it.  A session opened for one
    second, leased, and opened again for a minute is told a deadline a minute
    away while its lease ends after a second. *)
Example keepalive_deadline_beyond_lease :
  let m := Open demo_ensured.1.1 "a" 60000 in
  let '(_, w, r) := KeepAlive m demo_ensured.1.2 "a" 0 [1] in
  r = Ok 60000000000 ∧ lease_of (shard w 1) "a" = Some (1000, 1000000000).
Proof. by vm_compute. Qed.
