(* ===== verification/FsmContract.v ===== *)
(** * What callers of a shard rely on

    Answers name the owner and token of the new state, a lease drop hands every
    key of the client to its first waiter and leaves nothing behind, waiters are
    served after as many releases as their position, and the queries enumerate
    exactly the state. *)
From S2P Require Import Prelude GoStrings Keypath Fsm FsmInv FsmSpec FsmTrace FsmStore.

Local Open Scope Z_scope.

(** ** Dropping a lease, key by key *)

(** What becomes of a lock when its holder goes away. *)
Definition handed_over (old new : option lock) : Prop :=
  match old with
  | None => new = None
  | Some lk =>
      match lk_queue lk with
      | [] => new = None
      | w :: q => ∃ t, new = Some {| lk_name := lk_name lk; lk_holder := w_clientID w; lk_token := t;
                                     lk_value := w_value w; lk_queue := q |}
      end
  end.

(** What becomes of a lock when one of its waiters goes away. *)
Definition left_by (c : string) (old new : option lock) : Prop :=
  new = (λ lk, with_queue lk (default (lk_queue lk) (removeWaiter (lk_queue lk) c))) <$> old.

Section drop.
Lemma handovers_other ks a k :
  k ∉ ks → a_locks (foldl micro a (MHandover <$> ks)) !! k = a_locks a !! k.
Proof.
  revert a. induction ks as [|k' ks IH]; intros a; [done|]. rewrite fmap_cons /=.
  intros [Hk Hks]%not_elem_of_cons. rewrite IH // (micro_other_key a (MHandover k')) //.
Qed.

Lemma handover_key a k lk :
  a_locks a !! k = Some lk → lk_name lk = k → handed_over (Some lk) (a_locks (micro a (MHandover k)) !! k).
Proof.
  intros Hk Hn. rewrite /= Hk. destruct (lk_queue lk) as [|w q] eqn:Hq; simpl.
  - by rewrite lookup_delete_eq.
  - eexists. rewrite lookup_insert_eq Hn. done.
Qed.

Lemma handovers_key ks a k lk :
  NoDup ks → k ∈ ks → a_locks a !! k = Some lk → lk_name lk = k →
  handed_over (Some lk) (a_locks (foldl micro a (MHandover <$> ks)) !! k).
Proof.
  revert a. induction ks as [|k' ks IH]; intros a; [by intros _ ?%elem_of_nil|]. rewrite fmap_cons.
  intros [Hk' Hnd]%NoDup_cons Hin Hk Hn. cbn [foldl]. apply elem_of_cons in Hin as [<-|Hin].
  - rewrite handovers_other //. by apply handover_key.
  - apply IH; [done|done| |done]. rewrite (micro_other_key a (MHandover k')) //. by intros ->.
Qed.

Lemma leaves_other ks c a k :
  k ∉ ks → a_locks (foldl micro a ((λ k, MLeave k c) <$> ks)) !! k = a_locks a !! k.
Proof.
  revert a. induction ks as [|k' ks IH]; intros a; [done|]. rewrite fmap_cons /=.
  intros [Hk Hks]%not_elem_of_cons. rewrite IH // (micro_other_key a (MLeave k' c)) //.
Qed.

Lemma leaves_key ks c a k :
  NoDup ks → k ∈ ks → left_by c (a_locks a !! k) (a_locks (foldl micro a ((λ k, MLeave k c) <$> ks)) !! k).
Proof.
  revert a. induction ks as [|k' ks IH]; intros a; [by intros _ ?%elem_of_nil|]. rewrite fmap_cons.
  intros [Hk' Hnd]%NoDup_cons Hin. cbn [foldl]. apply elem_of_cons in Hin as [<-|Hin].
  - rewrite leaves_other // /left_by /=. destruct (a_locks a !! k) as [lk|] eqn:Hk; simpl; [|done].
    destruct (removeWaiter (lk_queue lk) c); simpl; [by rewrite lookup_insert_eq|]. rewrite Hk. by destruct lk.
  - assert (a_locks a !! k = a_locks (micro a (MLeave k' c)) !! k) as ->; [|by apply IH].
    rewrite (micro_other_key a (MLeave k' c)) //. by intros ->.
Qed.

(** The keys of the leaving client are handed over, its places in queues are
    given up, and nothing else changes. *)
Lemma drop_plan_keys f c k :
  wf f →
  let a' := foldl micro (abs f) (drop_plan (abs f) c) in
  a_leases a' = delete c (a_leases (abs f)) ∧
  if is_holder (abs f) c k then handed_over (locks f !! k) (a_locks a' !! k)
  else if is_waiter (abs f) c k then left_by c (locks f !! k) (a_locks a' !! k)
  else a_locks a' !! k = locks f !! k.
Proof.
  intros Hwf a'. set (a1 := foldl micro (abs f) (MHandover <$> held_keys (abs f) c)).
  set (a2 := foldl micro a1 ((λ k, MLeave k c) <$> waiting_keys (abs f) c)).
  assert (a' = micro a2 (MForget c)) as Ea by by rewrite /a' /drop_plan !foldl_app.
  assert (∀ ms a, Forall (λ m, match m with MHandover _ | MLeave _ _ => True | _ => False end) ms →
    a_leases (foldl micro a ms) = a_leases a) as Hl.
  { induction ms as [|m ms IH]; intros a; [done|]. intros [Hm Hms]%Forall_cons. cbn [foldl]. rewrite IH //.
    destruct m; try done; simpl; by repeat case_match. }
  split.
  { rewrite Ea /= /a2 Hl ?/a1 ?Hl //; apply Forall_fmap; by apply Forall_true. }
  assert (a_locks a' !! k = a_locks a2 !! k) as -> by by rewrite Ea.
  assert (NoDup (held_keys (abs f) c)) as Hn1 by apply NoDup_filter, NoDup_sortedKeys.
  assert (NoDup (waiting_keys (abs f) c)) as Hn2 by apply NoDup_filter, NoDup_sortedKeys.
  assert (k ∈ held_keys (abs f) c ↔ is_holder (abs f) c k = true) as Hh.
  { rewrite list_elem_of_filter elem_of_sortedKeys /is_holder /=. destruct (locks f !! k); naive_solver. }
  assert (k ∈ waiting_keys (abs f) c ↔ is_waiter (abs f) c k = true) as Hw.
  { rewrite list_elem_of_filter elem_of_sortedKeys /is_waiter /=. destruct (locks f !! k); naive_solver. }
  destruct (is_holder (abs f) c k) eqn:Eh.
  - pose proof Eh as (lk & Hk & Hlk)%is_holder_holds.
    destruct (wfx_locks _ _ _ _ Hwf _ _ Hk) as [Hn _ _ _ _ Hnq].
    rewrite Hk /a2 leaves_other; [|by apply handovers_key; [|apply Hh|..]].
    rewrite Hw. intros (lk' & Hk' & Hin)%is_waiter_waits. naive_solver.
  - assert (a_locks a1 !! k = locks f !! k) as <- by (rewrite /a1 handovers_other // Hh; naive_solver).
    destruct (is_waiter (abs f) c k) eqn:Ew.
    + apply leaves_key; [done|by apply Hw].
    + apply leaves_other. rewrite Hw. naive_solver.
Qed.
Lemma drop_plan_spec f c :
  wf f →
  let a' := foldl micro (abs f) (drop_plan (abs f) c) in
  a_leases a' = delete c (a_leases (abs f)) ∧
  ∀ k, (holds f c k → handed_over (locks f !! k) (a_locks a' !! k)) ∧
       (waits f c k → left_by c (locks f !! k) (a_locks a' !! k)) ∧
       (¬ holds f c k → ¬ waits f c k → a_locks a' !! k = locks f !! k).
Proof.
  intros Hwf a'. split; [apply (drop_plan_keys f c "" Hwf)|]. intros k.
  destruct (drop_plan_keys f c k Hwf) as [_ Hk]. fold a' in Hk.
  rewrite -is_holder_holds -is_waiter_waits.
  destruct (is_holder (abs f) c k) eqn:Eh, (is_waiter (abs f) c k) eqn:Ew; split_and!; try done.
  intros _. exfalso. apply is_holder_holds in Eh as (lk & Hlk & Hc). apply is_waiter_waits in Ew as (lk' & Hlk' & Hin).
  destruct (wfx_locks _ _ _ _ Hwf _ _ Hlk). naive_solver.
Qed.

Lemma leaseless_owns_nothing f c : wf f → leases f !! c = None → ∀ k, ¬ holds f c k ∧ ¬ waits f c k.
Proof.
  intros Hwf Hnone k.
  split; intros (lk & Hlk & Hin); destruct (wfx_locks _ _ _ _ Hwf _ _ Hlk) as [_ _ H1 H2 _ _].
  - rewrite Hin Hnone in H1. by destruct H1.
  - destruct (H2 _ Hin). congruence.
Qed.

(** Commands that end a lease. *)
Lemma lease_end_abs f c ls cmd :
  wf f → leases f !! c = Some ls →
  cmd = LeaseRevoke c ∨ (∃ now, cmd = LeaseExpire c now ∧ ls_expireAt ls ≤ now) →
  abs (Apply f (Some {| GetCmd := Some cmd |})).1 =
    foldl micro (abs (incr_revision f)) (drop_plan (abs (incr_revision f)) c).
Proof.
  intros Hwf Hls Hcmd. rewrite Apply_abs //. destruct Hcmd as [->|(now & -> & Hnow)]; cbn [a_apply plan].
  - assert (live (a_bump (abs f)) c = true) as ->; [|done].
    apply bool_decide_eq_true. rewrite /= lookup_fmap Hls. by eexists.
  - rewrite /= lookup_fmap Hls /=. by destruct (Z.ltb_spec now (ls_expireAt ls)); [lia|].
Qed.
End drop.

(** ** Serving a queue *)
Definition release_cmd (k c : string) (t : Z) : option Command :=
  Some {| GetCmd := Some (ReleaseLock k c t) |}.

(** [n] times, whoever holds [k] releases it with its own token. *)
Fixpoint drain (n : nat) (f : FSM) (k : string) : FSM :=
  match n with
  | O => f
  | S n' =>
      match locks f !! k with
      | None => f
      | Some lk => drain n' (Apply f (release_cmd k (lk_holder lk) (lk_token lk))).1 k
      end
  end.

Section serve.
Lemma release_handover f k lk :
  wf f → locks f !! k = Some lk →
  abs (Apply f (release_cmd k (lk_holder lk) (lk_token lk))).1 = micro (a_bump (abs f)) (MHandover k).
Proof.
  intros Hwf Hk. rewrite Apply_abs //. cbn [release_cmd a_apply plan].
  assert (fenced (a_bump (abs f)) k (lk_holder lk) (lk_token lk) = true) as ->; [|done].
  by rewrite /fenced /= Hk bool_decide_eq_true_2 // Z.eqb_refl.
Qed.

Lemma drain_serves i f k lk w :
  wf f → locks f !! k = Some lk → lk_queue lk !! i = Some w → holds (drain (S i) f k) (w_clientID w) k.
Proof.
  revert f lk. induction i as [|i IH]; intros f lk Hwf Hk Hw;
    (destruct (lk_queue lk) as [|w0 q] eqn:Hq; [done|]);
    pose proof (release_handover f k lk Hwf Hk) as E; cbn [drain]; rewrite Hk;
    set (g := (Apply f _).1) in *;
    assert (wf g) as Hg by (by apply Apply_wf);
    assert (∃ lk', locks g !! k = Some lk' ∧ lk_holder lk' = w_clientID w0 ∧ lk_queue lk' = q)
      as (lk' & Hk' & Hh' & Hq')
      by (change (locks g) with (a_locks (abs g)); rewrite E /= Hk Hq /= lookup_insert_eq; eauto).
  - simplify_eq/=. by exists lk'.
  - apply (IH g lk'); [done|done|]. by rewrite Hq'.
Qed.
End serve.

(** ** Answers *)
Section answers.
Lemma acquire_granted f k c v try :
  wf f → r_Outcome (acquire f k c v try).2 = OUTCOME_GRANTED →
  ∃ lk, locks (acquire f k c v try).1 !! k = Some lk ∧ lk_holder lk = c ∧
    r_FencingToken (acquire f k c v try).2 = lk_token lk ∧ r_Value (acquire f k c v try).2 = lk_value lk.
Proof.
  intros Hwf. rewrite /acquire. destruct (leases f !! c) as [ls|] eqn:Hls; [|done].
  pose proof (le_id _ _ _ _ _ _ (wfx_leases _ _ _ _ Hwf _ _ Hls)) as Eid.
  assert (∀ v, ∃ lk, locks (grant f k ls v).1 !! k = Some lk ∧ lk_holder lk = c ∧
    r_FencingToken (grant f k ls v).2 = lk_token lk ∧ r_Value (grant f k ls v).2 = lk_value lk) as Hgrant.
  { intros v'. rewrite /grant. cbn [fst snd]. rewrite locks_emit /= lookup_insert_eq. eexists. split; [done|].
    by rewrite Eid. }
  destruct (locks f !! k) as [lk|] eqn:Hk; [|by intros _; apply Hgrant].
  case_bool_decide; [by intros _; apply Hgrant|]. case_bool_decide; [|by repeat case_match].
  intros _. by exists lk.
Qed.

(** A waiter's reported position is its place in the queue. *)
Lemma queuePosFrom_spec i q c :
  c ∈ w_clientID <$> q → ∃ q1 w q2, q = q1 ++ w :: q2 ∧ w_clientID w = c ∧ (c ∉ w_clientID <$> q1) ∧
    queuePosFrom i q c = u32 (i + Z.of_nat (length q1) + 1).
Proof.
  revert i. induction q as [|w q IH]; intros i; [by intros ?%elem_of_nil|]. rewrite fmap_cons. cbn [queuePosFrom].
  case_bool_decide as Hw; intros [Hc|Hc]%elem_of_cons; try done.
  - exists [], w, q. split_and!; [done|done|apply not_elem_of_nil|]. f_equal. simpl. lia.
  - exists [], w, q. split_and!; [done|done|apply not_elem_of_nil|]. f_equal. simpl. lia.
  - destruct (IH (i + 1) Hc) as (q1 & w' & q2 & -> & Hw' & Hn & ->).
    exists (w :: q1), w', q2. split_and!; [done|done|rewrite fmap_cons; set_solver|]. f_equal. simpl. lia.
Qed.
Lemma length_entriesFrom i q : length (entriesFrom i q) = length q.
Proof. revert i. induction q; intros i; simpl; auto. Qed.

Lemma lookup_entriesFrom i q1 w q2 :
  entriesFrom i (q1 ++ w :: q2) !! length q1 =
    Some {| wi_ClientID := w_clientID w; wi_Seq := w_seq w; wi_Position := u32 (i + Z.of_nat (length q1) + 1) |}.
Proof.
  revert i. induction q1 as [|x q1 IH]; intros i; cbn [entriesFrom app length lookup list_lookup].
  - do 3 f_equal. lia.
  - rewrite IH. do 3 f_equal. lia.
Qed.

(** Asking again for a key one waits on reports the queue position. *)
Lemma acquire_again f k c v lk :
  wf f → locks f !! k = Some lk → c ∈ queue_ids lk →
  (acquire f k c v false).2 = resultPosition f OUTCOME_QUEUED k (queuePos lk c).
Proof.
  intros Hwf Hk Hc. destruct (wfx_locks _ _ _ _ Hwf _ _ Hk) as [_ Hne _ Hlease _ Hnq].
  destruct (Hlease c Hc) as [ls Hls]. rewrite /acquire Hls Hk.
  rewrite bool_decide_eq_false_2 // bool_decide_eq_false_2; [by intros <-|].
  rewrite bool_decide_eq_true_2 //. eapply le_waiting; [by eapply wfx_leases|]. left. by exists lk.
Qed.
End answers.

(** ** Queries *)
Section queries.
Lemma elem_of_dueFrom f now ids id :
  id ∈ dueFrom f now ids ↔ id ∈ ids ∧ ∃ ls, leases f !! id = Some ls ∧ ls_expireAt ls ≤ now.
Proof.
  induction ids as [|x ids IH]; cbn [dueFrom]; [rewrite elem_of_nil; naive_solver|].
  destruct (leases f !! x) as [ls|] eqn:Hx; [case_match eqn:Ht|]; rewrite ?elem_of_cons IH;
    rewrite ->?Z.leb_le, ?Z.leb_gt in *; naive_solver lia.
Qed.

Lemma dueFrom_sublist f now ids : dueFrom f now ids `sublist_of` ids.
Proof. induction ids as [|x ids IH]; cbn [dueFrom]; [done|]. repeat case_match; by constructor. Qed.

Lemma elem_of_dueLeases f now id :
  id ∈ dueLeases f now ↔ ∃ ls, leases f !! id = Some ls ∧ ls_expireAt ls ≤ now.
Proof. rewrite elem_of_dueFrom elem_of_sortedKeys. naive_solver. Qed.

Definition summary_of (n : string) (lk : lock) : LockSummary :=
  {| lsum_Name := n; lsum_Held := true; lsum_Holder := lk_holder lk; lsum_Token := lk_token lk;
     lsum_HasValue := bool_decide (is_Some (lk_value lk)); lsum_QueueDepth := queueDepth lk |}.

Lemma elem_of_listFrom f p ns s :
  wf f →
  s ∈ listFrom f p ns ↔
    ∃ n lk, n ∈ ns ∧ locks f !! n = Some lk ∧ Keypath.HasPrefix p n = true ∧ s = summary_of n lk.
Proof.
  intros Hwf. induction ns as [|x ns IH]; cbn [listFrom]; [rewrite elem_of_nil; set_solver|].
  destruct (locks f !! x) as [lk|] eqn:Hx; [|rewrite IH; set_solver].
  rewrite bool_decide_eq_false_2 /=; [eapply lo_holder, wfx_locks; done|].
  destruct (Keypath.HasPrefix p x) eqn:Hp; cbn [negb]; rewrite ?elem_of_cons IH /summary_of;
    setoid_rewrite elem_of_cons; clear IH; naive_solver congruence.
Qed.

Lemma listFrom_names f p ns : lsum_Name <$> listFrom f p ns `sublist_of` ns.
Proof. induction ns as [|x ns IH]; cbn [listFrom]; [done|]. repeat case_match; by constructor. Qed.
End queries.
