(* ===== verification/Server.v ===== *)
(** * The client-facing services

    internal/server/server.go and election.go: the Locker and Election handlers
    and the Session stream, over the cluster interface, the session manager, the
    router and the policy.  A handler takes the node's sessions and the cluster
    and returns them with its response; the clock and the end of a call's context
    are arguments.

    A blocked call waits on its hub subscription.  [NextEvent] is [sub.Next] for
    a subscription made when the node's replica of the shard was in state [from];
    [WatcherLaws] states what [Watch] and the replica's notifier give: an event of
    that key that describes the lock as the replica had it at some moment since
    the subscription.  The replica may be behind what is committed, and so may the
    event. *)
From stdpp Require Import pretty.
From Stdlib Require Import Ascii.
From S2P Require Import Prelude GoStrings Wire Errors Keypath Authz Gate Fsm FsmWire FsmInv FsmSpec FsmTrace Consensus Router Cluster Session FsmContract.

Local Open Scope string_scope.
Local Open Scope list_scope.
Local Open Scope Z_scope.

(** ** Waiting on the hub *)
Class Watcher (W : Type) := NextEvent : W → Z → string → FSM → W * result Event error.

(** The cluster and the node's replica move on. *)
Definition onward {W} `{Cluster W} (w w' : W) : Prop :=
  ∀ s, moved (shard w s) (shard w' s) ∧ moved (replica w s) (replica w' s).

Class WatcherLaws W `{ClusterLaws W, Watcher W} := {
  next_moves w sh k from : valid w → valid (NextEvent w sh k from).1 ∧ onward w (NextEvent w sh k from).1;
  next_describes w sh k from w' e : valid w → moved from (replica w sh) → NextEvent w sh k from = (w', Ok e) →
    ev_Key e = k ∧ ∃ f, moved from f ∧ moved f (replica w' sh) ∧ describes e (locks f !! k)
}.

(** ** Configuration and messages *)
Record Config := {
  cfg_Router : Router;
  cfg_DefaultTTL : Z;
  cfg_MinTTL : Z;
  cfg_MaxTTL : Z;
  cfg_Authorizer : Authorizer
}.

Record LockRequest := { lq_Name : string; lq_ClientId : string; lq_WaitDeadlineUnixNano : Z }.
Record CampaignRequest := { cq_Name : string; cq_ClientId : string; cq_Value : gobytes; cq_WaitDeadlineUnixNano : Z }.

(** [LockResponse], and [CampaignResponse] with its own field names. *)
Record LockResponse := { lr_Acquired : bool; lr_LockKey : string; lr_FencingToken : Z; lr_Revision : Z }.
Record TryLockResponse := {
  tr_Acquired : bool; tr_LockKey : string; tr_FencingToken : Z; tr_Revision : Z; tr_CurrentHolder : string }.
Record StatusResponse := {
  sr_Held : bool; sr_HolderClientId : string; sr_FencingToken : Z; sr_QueueDepth : Z; sr_Revision : Z }.
Record LeaderResponse := {
  le_HasLeader : bool; le_LeaderClientId : string; le_FencingToken : Z; le_Value : gobytes; le_Revision : Z }.

Definition READ_MODE_STALE : Z := 2.
Definition READ_MODE_LINEARIZABLE : Z := 1.

Definition outcomeNames : list string :=
  ["OUTCOME_UNKNOWN"; "OUTCOME_GRANTED"; "OUTCOME_QUEUED"; "OUTCOME_NOT_ACQUIRED"; "OUTCOME_RELEASED";
   "OUTCOME_NOT_HOLDER"; "OUTCOME_STALE_TOKEN"; "OUTCOME_NO_LEASE"; "OUTCOME_LEASE_GRANTED"; "OUTCOME_LEASE_RENEWED";
   "OUTCOME_LEASE_REVOKED"; "OUTCOME_LEASE_EXPIRED"; "OUTCOME_VALUE_UPDATED"; "OUTCOME_NOT_FOUND"; "OUTCOME_NOOP"].
Definition outcomeString (o : Z) : string :=
  match (if o <? 0 then None else outcomeNames !! Z.to_nat o) with Some n => n | None => pretty o end.

(** ** Times *)
Definition Second : Z := 1000 * Millisecond.
Definition boundedWaitGrace : Z := 500 * Millisecond.

(** [clampTTL]: durations are 64-bit nanoseconds, and the product wraps. *)
Definition clampTTL (c : Config) (reqMS : Z) : Z :=
  let ttl := i64 (reqMS * Millisecond) in
  Z.quot (if reqMS <=? 0 then cfg_DefaultTTL c
          else if ttl <? cfg_MinTTL c then cfg_MinTTL c
          else if cfg_MaxTTL c <? ttl then cfg_MaxTTL c else ttl) Millisecond.

(** [boundedWait]: the instant the wait ends, [None] when it is unbounded. *)
Definition boundedWait (d now : Z) : option Z :=
  if d <=? 0 then None
  else
    let grace := Z.quot (i64 (d - now)) 2 in
    let grace := if boundedWaitGrace <? grace then boundedWaitGrace else grace in
    let grace := if grace <? 0 then 0 else grace in
    Some (d - grace).

(** ** The handlers *)
Section handlers.
Context {W : Type} `{Cluster W} `{!Watcher W}.
Context (Quote : string → string) (describe : KeyError → string).
Context (cfg : Config).

(** [propose]: the raw error of the cluster, unlike the session manager's. *)
Definition propose (w : W) (shardID : Z) (c : Command) : W * result pbResult error :=
  let '(w1, r) := Propose w shardID (MarshalCommand c) in
  match r with
  | Err e => (w1, Err e)
  | Ok rb =>
      match UnmarshalResult rb with
      | Err e => (w1, Err (Wrapping ("server: unmarshal result: " +:+ message (wireError e)) [wireError e]))
      | Ok res => (w1, Ok res)
      end
  end.

Definition requireKeyPath (key : string) : option error :=
  match Keypath.Validate key with
  | Err e => Some (E CatRequest TypeInvalidKeyPath (Some (Text ("invalid key path: " +:+ describe e))))
  | Ok _ => None
  end.

Definition requireKeyAndClient (key clientID : string) : option error :=
  if bool_decide (clientID = "") then Some (E CatRequest TypeMissingClientID (Some (Text "client_id is required")))
  else requireKeyPath key.

Definition authorize (ctx : Gate.Context) (key : string) (op : Op) : option error :=
  let identity := (IdentityFromContext ctx).1 in
  match Authorize (cfg_Authorizer cfg) identity key op with
  | Err _ => Some (E CatPermission TypeUnauthorizedKey
      (Some (Text ("client " +:+ Quote identity +:+ " is not authorized for key " +:+ Quote key))))
  | Ok _ => None
  end.

Definition grpcErr (err : error) : error :=
  if (FromError err).2 then err else E CatUnavailable TypeBackend (Some err).

Definition sessionErr (err : error) : error :=
  if Is (message ErrNoSession) err then
    E CatPrecondition TypeNoSession (Some (Text "no open session for client; open a KeepAlive stream first"))
  else grpcErr err.

Definition noLiveLease (clientID : string) : error :=
  E CatPrecondition TypeNoLiveLease (Some (Text ("client " +:+ Quote clientID +:+ " has no live lease"))).
Definition unexpected (op : string) (o : Z) : error :=
  E CatInternal TypeUnexpectedOutcome (Some (Text (op +:+ ": unexpected outcome " +:+ outcomeString o))).
Definition staleToken : error := E CatPrecondition TypeStaleFencingToken (Some (Text "stale fencing token")).

(** [Router.Shard] of a router made by [NewRouter], which always has shards. *)
Definition shardOf (key : string) : Z := default 0 (Shard (cfg_Router cfg) key).

Definition readStatus (w : W) (shardID : Z) (name : string) (mode : Z) : W * result Fsm.Status error :=
  let '(w1, r) :=
    if mode =? READ_MODE_STALE then (w, StaleRead w shardID (StatusQuery name)) else ReadAt w shardID (StatusQuery name) in
  (w1, match r with
       | Err e => Err e
       | Ok (AStatus st) => Ok st
       | Ok _ => Err (Text "unexpected read result")
       end).

(** [holdsLock] and [holdsLeadership]. *)
Definition holdsLock (w : W) (shardID : Z) (name clientID : string) : W * result (option LockResponse) error :=
  let '(w1, r) := readStatus w shardID name READ_MODE_LINEARIZABLE in
  (w1, match r with
       | Err e => Err e
       | Ok st =>
           if st_Held st && bool_decide (st_Holder st = clientID) then
             Ok (Some {| lr_Acquired := true; lr_LockKey := name; lr_FencingToken := st_Token st; lr_Revision := st_Revision st |})
           else Ok None
       end).

(** [cancelWait]: attempts are proposed until one succeeds.  [n] is how many its
    timeout leaves room for, at most three. *)
Fixpoint cancelAttempts (n : nat) (w : W) (name clientID : string) (shardID : Z) : W :=
  match n with
  | O => w
  | S n => let '(w1, r) := propose w shardID (cmd.Cancel name clientID) in
           match r with Ok _ => w1 | Err _ => cancelAttempts n w1 name clientID shardID end
  end.
Definition cancelWait (n : nat) : W → string → string → Z → W := cancelAttempts (n `min` 3).

(** [waitForLock] and [waitForLeadership], at most [n] rounds of the loop; [None]
    if it has not returned by then.  [bounded] is whether the request has a wait
    deadline, [alive] whether the call's context is alive when the wait fails. *)
Fixpoint waitForLock (n tries : nat) (w : W) (shardID : Z) (name clientID : string) (from : FSM) (bounded alive : bool) :
    W * option (result LockResponse error) :=
  match n with
  | O => (w, None)
  | S n =>
      let '(w1, r) := NextEvent w shardID name from in
      match r with
      | Err err =>
          let '(w2, held) := holdsLock w1 shardID name clientID in
          match held with
          | Ok (Some h) => (w2, Some (Ok h))
          | _ =>
              let w3 := cancelWait tries w2 name clientID shardID in
              if bounded && alive then
                (w3, Some (Ok {| lr_Acquired := false; lr_LockKey := name; lr_FencingToken := 0; lr_Revision := 0 |}))
              else (w3, Some (Err (grpcErr err)))
          end
      | Ok e =>
          if bool_decide (ev_Holder e = clientID) then
            (w1, Some (Ok {| lr_Acquired := true; lr_LockKey := ev_Key e;
                             lr_FencingToken := ev_Token e; lr_Revision := ev_Revision e |}))
          else
            let '(w2, held) := holdsLock w1 shardID name clientID in
            match held with
            | Ok (Some h) => (w2, Some (Ok h))
            | _ => waitForLock n tries w2 shardID name clientID from bounded alive
            end
      end
  end.

(** What [Lock] and [Campaign] share: check, lease, subscribe, propose, wait. *)
Definition contend (op : string) (c : Command) (n tries : nat) (ctx : Gate.Context) (now : Z) (alive : bool) (m : Manager)
    (w : W) (name clientID : string) (deadline : Z) : Manager * W * option (result LockResponse error) :=
  match requireKeyAndClient name clientID with
  | Some e => (m, w, Some (Err e))
  | None =>
  match authorize ctx name Write with
  | Some e => (m, w, Some (Err e))
  | None =>
      let shardID := shardOf name in
      let '(m1, w1, r) := EnsureLease m w clientID shardID now in
      match r with
      | Some e => (m1, w1, Some (Err (sessionErr e)))
      | None =>
          let from := replica w1 shardID in
          let '(w2, r) := propose w1 shardID c in
          match r with
          | Err e => (m1, w2, Some (Err (grpcErr e)))
          | Ok res =>
              let o := pr_Outcome res in
              if o =? outcomeNumber OUTCOME_GRANTED then
                (m1, w2, Some (Ok {| lr_Acquired := true; lr_LockKey := pr_LockKey res;
                                     lr_FencingToken := pr_FencingToken res; lr_Revision := pr_Revision res |}))
              else if o =? outcomeNumber OUTCOME_NO_LEASE then (m1, w2, Some (Err (noLiveLease clientID)))
              else if o =? outcomeNumber OUTCOME_QUEUED then
                let '(w3, r) := waitForLock n tries w2 shardID name clientID from (0 <? deadline) alive in (m1, w3, r)
              else (m1, w2, Some (Err (unexpected op o)))
          end
      end
  end end.

Definition Lock (n tries : nat) (ctx : Gate.Context) (now : Z) (alive : bool) (m : Manager) (w : W) (req : LockRequest) :
    Manager * W * option (result LockResponse error) :=
  contend "lock" (cmd.Acquire (lq_Name req) (lq_ClientId req) false) n tries ctx now alive m w
    (lq_Name req) (lq_ClientId req) (lq_WaitDeadlineUnixNano req).

Definition Campaign (n tries : nat) (ctx : Gate.Context) (now : Z) (alive : bool) (m : Manager) (w : W)
    (req : CampaignRequest) : Manager * W * option (result LockResponse error) :=
  contend "campaign" (cmd.Campaign (cq_Name req) (cq_ClientId req) (cq_Value req)) n tries ctx now alive m w
    (cq_Name req) (cq_ClientId req) (cq_WaitDeadlineUnixNano req).

Definition TryLock (ctx : Gate.Context) (now : Z) (m : Manager) (w : W) (name clientID : string) :
    Manager * W * result TryLockResponse error :=
  match requireKeyAndClient name clientID with
  | Some e => (m, w, Err e)
  | None =>
  match authorize ctx name Write with
  | Some e => (m, w, Err e)
  | None =>
      let shardID := shardOf name in
      let '(m1, w1, r) := EnsureLease m w clientID shardID now in
      match r with
      | Some e => (m1, w1, Err (sessionErr e))
      | None =>
          let '(w2, r) := propose w1 shardID (cmd.Acquire name clientID true) in
          (m1, w2,
           match r with
           | Err e => Err (grpcErr e)
           | Ok res =>
               let o := pr_Outcome res in
               if o =? outcomeNumber OUTCOME_GRANTED then
                 Ok {| tr_Acquired := true; tr_LockKey := pr_LockKey res; tr_FencingToken := pr_FencingToken res;
                       tr_Revision := pr_Revision res; tr_CurrentHolder := "" |}
               else if o =? outcomeNumber OUTCOME_NOT_ACQUIRED then
                 Ok {| tr_Acquired := false; tr_LockKey := pr_LockKey res; tr_FencingToken := 0;
                       tr_Revision := pr_Revision res; tr_CurrentHolder := pr_CurrentHolder res |}
               else if o =? outcomeNumber OUTCOME_NO_LEASE then Err (noLiveLease clientID)
               else Err (unexpected "try-lock" o)
           end)
      end
  end end.

(** What [Unlock], [Proclaim] and [Resign] share: the holder's commands, with the
    outcome that is success and the error of a caller that is not the holder. *)
Definition holderCall (op : string) (c : Command) (done : Outcome) (notHolder : error) (ctx : Gate.Context) (w : W)
    (name clientID : string) : W * result Z error :=
  match requireKeyAndClient name clientID with
  | Some e => (w, Err e)
  | None =>
  match authorize ctx name Write with
  | Some e => (w, Err e)
  | None =>
      let '(w1, r) := propose w (shardOf name) c in
      (w1, match r with
           | Err e => Err (grpcErr e)
           | Ok res =>
               let o := pr_Outcome res in
               if o =? outcomeNumber done then Ok (pr_Revision res)
               else if o =? outcomeNumber OUTCOME_STALE_TOKEN then Err staleToken
               else if o =? outcomeNumber OUTCOME_NOT_HOLDER then Err notHolder
               else Err (unexpected op o)
           end)
  end end.

Definition Unlock (ctx : Gate.Context) (w : W) (key clientID : string) (token : Z) : W * result Z error :=
  holderCall "unlock" (cmd.Release key clientID token) OUTCOME_RELEASED
    (E CatPrecondition TypeNotLockHolder (Some (Text "client does not hold this lock"))) ctx w key clientID.

Definition notLeader : error := E CatPrecondition TypeNotLeader (Some (Text "client is not the leader")).

Definition Proclaim (ctx : Gate.Context) (w : W) (name clientID : string) (token : Z) (value : gobytes) :
    W * result Z error :=
  holderCall "proclaim" (cmd.Proclaim name clientID token value) OUTCOME_VALUE_UPDATED notLeader ctx w name clientID.

Definition Resign (ctx : Gate.Context) (w : W) (name clientID : string) (token : Z) : W * result Z error :=
  holderCall "resign" (cmd.Resign name clientID token) OUTCOME_RELEASED notLeader ctx w name clientID.

(** What [Status] and [Leader] share. *)
Definition readCall (ctx : Gate.Context) (w : W) (name : string) (mode : Z) : W * result Fsm.Status error :=
  match requireKeyPath name with
  | Some e => (w, Err e)
  | None =>
  match authorize ctx name Read with
  | Some e => (w, Err e)
  | None =>
      let '(w1, r) := readStatus w (shardOf name) name mode in
      (w1, match r with Err e => Err (grpcErr e) | Ok st => Ok st end)
  end end.

Definition Status (ctx : Gate.Context) (w : W) (name : string) (mode : Z) : W * result StatusResponse error :=
  let '(w1, r) := readCall ctx w name mode in
  (w1, match r with
       | Err e => Err e
       | Ok st => Ok {| sr_Held := st_Held st; sr_HolderClientId := st_Holder st; sr_FencingToken := st_Token st;
                        sr_QueueDepth := st_QueueDepth st; sr_Revision := st_Revision st |}
       end).

Definition Leader (ctx : Gate.Context) (w : W) (name : string) (mode : Z) : W * result LeaderResponse error :=
  let '(w1, r) := readCall ctx w name mode in
  (w1, match r with
       | Err e => Err e
       | Ok st => Ok {| le_HasLeader := st_Held st; le_LeaderClientId := st_Holder st; le_FencingToken := st_Token st;
                        le_Value := st_Value st; le_Revision := st_Revision st |}
       end).

(** [Observe]: the events sent, and the error the stream ends with, [None] while
    it runs.  [sends] has the outcomes of the successive [stream.Send] calls. *)
Definition statusToLeaderEvent (st : Fsm.Status) : LeaderResponse :=
  {| le_HasLeader := st_Held st; le_LeaderClientId := st_Holder st; le_FencingToken := st_Token st;
     le_Value := st_Value st; le_Revision := st_Revision st |}.
Definition eventToLeaderEvent (e : Event) : LeaderResponse :=
  {| le_HasLeader := negb (bool_decide (ev_Holder e = "")); le_LeaderClientId := ev_Holder e; le_FencingToken := ev_Token e;
     le_Value := ev_Value e; le_Revision := ev_Revision e |}.

Fixpoint observeLoop (w : W) (shardID : Z) (name : string) (from : FSM) (sends : list (option error)) :
    W * list LeaderResponse * option (option error) :=
  match sends with
  | [] => (w, [], None)
  | out :: sends =>
      let '(w1, r) := NextEvent w shardID name from in
      match r with
      | Err _ => (w1, [], Some None)
      | Ok e =>
          match out with
          | Some err => (w1, [], Some (Some err))
          | None => let '(w2, evs, end_) := observeLoop w1 shardID name from sends in
                    (w2, eventToLeaderEvent e :: evs, end_)
          end
      end
  end.

Definition Observe (ctx : Gate.Context) (w : W) (name : string) (sends : list (option error)) :
    W * list LeaderResponse * option (option error) :=
  match requireKeyPath name with
  | Some e => (w, [], Some (Some e))
  | None =>
  match authorize ctx name Read with
  | Some e => (w, [], Some (Some e))
  | None =>
      let shardID := shardOf name in
      let from := replica w shardID in
      let '(w1, r) := readStatus w shardID name READ_MODE_LINEARIZABLE in
      match r, sends with
      | Err e, _ => (w1, [], Some (Some (grpcErr e)))
      | Ok _, [] => (w1, [], None)
      | Ok _, Some err :: _ => (w1, [], Some (Some err))
      | Ok st, None :: sends =>
          let '(w2, evs, end_) := observeLoop w1 shardID name from sends in (w2, statusToLeaderEvent st :: evs, end_)
      end
  end end.

(** *** The session stream *)
Record KeepAliveRequest := { kq_ClientId : string; kq_TtlMs : Z }.
Record KeepAliveResponse := { kr_ClientId : string; kr_TtlMs : Z; kr_DeadlineUnixNano : Z }.

Inductive Received := Req (req : KeepAliveRequest) | EOF | RecvErr (err : error).

(** What one round of the stream's loop meets: the message, the clock, a fresh
    client id, the order in which the round's tasks run, and [stream.Send]. *)
Record Round := {
  rd_recv : Received; rd_now : Z; rd_uuid : string; rd_order : list Z; rd_send : option error }.

(** [recoverSession], its tasks in the given order. *)
Definition recoverOne (clientID : string) (st : Manager * W) (shardID : Z) : Manager * W :=
  let '(m, w) := st in
  let '(w1, r) := ReadAt w shardID (LeaseQuery clientID) in
  match r with
  | Ok (ALease info) => if li_Exists info then ((Attach m clientID shardID).1, w1) else (m, w1)
  | _ => (m, w1)
  end.
Definition recoverSession (m : Manager) (w : W) (clientID : string) (order : list Z) : Manager * W :=
  foldl (recoverOne clientID) (m, w) order.

(** [KeepAlive]: the responses sent and the error the stream ends with, [None]
    while it runs. *)
Fixpoint KeepAlive (clientID : string) (ttlMS : Z) (m : Manager) (w : W) (rounds : list Round) :
    Manager * W * list KeepAliveResponse * option (option error) :=
  match rounds with
  | [] => (m, w, [], None)
  | rd :: rounds =>
      match rd_recv rd with
      | EOF =>
          if bool_decide (clientID = "") then (m, w, [], Some None)
          else let '(m1, w1) := CloseSession m w clientID (rd_order rd) in (m1, w1, [], Some None)
      | RecvErr err => (m, w, [], Some (Some err))
      | Req req =>
          let '(id, ttl, m1, w1, r) :=
            if bool_decide (clientID = "") then
              let reconnect := negb (bool_decide (kq_ClientId req = "")) in
              let id := if reconnect then kq_ClientId req else rd_uuid rd in
              let ttl := clampTTL cfg (kq_TtlMs req) in
              let m1 := Open m id ttl in
              let '(m2, w2) := if reconnect then recoverSession m1 w id (rd_order rd) else (m1, w) in
              (id, ttl, m2, w2, Ok (i64 (rd_now rd + i64 (ttl * Millisecond))))
            else
              let '(m1, w1, r) := Session.KeepAlive m w clientID (rd_now rd) (rd_order rd) in (clientID, ttlMS, m1, w1, r) in
          match r with
          | Err e => (m1, w1, [], Some (Some (grpcErr e)))
          | Ok deadline =>
              match rd_send rd with
              | Some err => (m1, w1, [], Some (Some err))
              | None =>
                  let '(m2, w2, rs, end_) := KeepAlive id ttl m1 w1 rounds in
                  (m2, w2, {| kr_ClientId := id; kr_TtlMs := ttl; kr_DeadlineUnixNano := deadline |} :: rs, end_)
              end
          end
      end
  end.
End handlers.

(** ** What the handlers promise *)
Section spec.
Context {W : Type} `{ClusterLaws W} `{!Watcher W} `{!WatcherLaws W}.
Context (Quote : string → string) (describe : KeyError → string).
Context (cfg : Config).
Implicit Types (m : Manager) (w : W).

#[export] Instance onward_preorder : PreOrder (onward (W := W)).
Proof.
  split; [done|]. intros x y z H1 H2 s. destruct (H1 s), (H2 s). split; by etransitivity.
Qed.

Lemma propose_onward w sh c w' r :
  valid w → serves (W := W) sh → proposal c → propose w sh (command_of c) = (w', r) →
  valid w' ∧ onward w w' ∧
  ∀ res, r = Ok res →
    ∃ f, moved (shard w sh) f ∧ moved (apply f c) (shard w' sh) ∧ res = pbOf (answer f c).
Proof.
  intros Hv Hsv Hc. rewrite /propose. destruct (propose_moves w sh c Hv Hsv Hc) as [Hv' Hm].
  pose proof (replica_proposes w sh c Hv Hsv Hc) as Hr. rewrite /encode in Hv', Hm, Hr.
  assert (onward w (Propose w sh (MarshalCommand (command_of c))).1) as Ho by done.
  destruct (Propose w sh (MarshalCommand (command_of c))) as [w1 [rb|e]] eqn:E; cbn [fst] in *.
  - destruct (propose_commits w sh c w1 rb Hv Hsv Hc E) as (f & H1 & H2 & H3). rewrite H3. intros [= <- <-].
    split_and!; [done|done|]. intros res [= <-]. by exists f.
  - by intros [= <- <-].
Qed.

Lemma ensure_onward m w id sh now m' w' r :
  valid w → serves (W := W) sh → (∀ s, m !! id = Some s → proposal (LeaseGrant id (ss_ttlMS s) now)) →
  EnsureLease m w id sh now = (m', w', r) → valid w' ∧ onward w w'.
Proof.
  intros Hv Hsv Hc. rewrite /EnsureLease. destruct (m !! id) as [s|]; [|by intros [= _ <- _]].
  case_bool_decide; [by intros [= _ <- _]|]. specialize (Hc s eq_refl).
  change (cmd.Grant id (ss_ttlMS s) now) with (command_of (LeaseGrant id (ss_ttlMS s) now)).
  destruct (Session.propose w sh _) as [w1 r1] eqn:E. destruct (propose_spec _ _ _ _ _ Hv Hsv Hc E) as (Hv1 & Hm1 & _).
  assert (w1 = (Propose w sh (encode (LeaseGrant id (ss_ttlMS s) now))).1) as Ew.
  { move: E. rewrite /Session.propose /encode. destruct (Propose w sh _) as [? []]; [|by intros [= <- _]].
    by case_match; intros [= <- _]. }
  assert (onward w w1) as Ho.
  { intros s'. split; [apply Hm1|]. rewrite Ew. by apply replica_proposes. }
  by destruct r1; intros [= _ <- _].
Qed.

(** Client [c] holds [k] with token [t]. *)
Definition holds (f : FSM) (k c : string) (t : Z) : Prop :=
  ∃ lk, locks f !! k = Some lk ∧ lk_holder lk = c ∧ lk_token lk = t.

Lemma read_onward w sh k mode w' r :
  valid w → readStatus w sh k mode = (w', r) → valid w' ∧ onward w w'.
Proof.
  intros Hv. rewrite /readStatus. destruct (mode =? READ_MODE_STALE); [by intros [= <- _]|].
  destruct (read_moves w sh (StatusQuery k) Hv) as [Hv' Hm]. pose proof (replica_reads w sh (StatusQuery k) Hv) as Hr.
  destruct (ReadAt w sh (StatusQuery k)) as [w1 r1]. by intros [= <- _].
Qed.

Lemma holdsLock_spec w sh k c w' r :
  valid w → c ≠ "" → holdsLock w sh k c = (w', r) →
  valid w' ∧ onward w w' ∧
  ∀ h, r = Ok (Some h) → lr_Acquired h = true ∧ lr_LockKey h = k ∧
    ∃ f, moved (shard w sh) f ∧ moved f (shard w' sh) ∧ holds f k c (lr_FencingToken h).
Proof.
  intros Hv Hne. rewrite /holdsLock. destruct (readStatus w sh k READ_MODE_LINEARIZABLE) as [w1 r1] eqn:E.
  destruct (read_onward _ _ _ _ _ _ Hv E) as [Hv1 Ho1]. intros [= <- <-]. split_and!; [done|done|]. intros h.
  move: E. rewrite /readStatus. cbn [Z.eqb READ_MODE_LINEARIZABLE READ_MODE_STALE].
  destruct (ReadAt w sh (StatusQuery k)) as [w2 r2] eqn:E. cbn. intros [= <- <-].
  destruct r2 as [a|]; [|done]. destruct a as [st| | | |]; try done.
  destruct (st_Held st) eqn:Hh; [|done]. cbn. case_bool_decide as Hc; [|done]. intros [= <-]. cbn. split_and!; [done|done|].
  destruct (read_answers _ _ _ _ _ Hv E) as (f & H1 & H2 & H3). exists f. split_and!; [done|done|].
  cbn in H3. injection H3 as <-. move: Hh Hc. rewrite /status. destruct (locks f !! k) as [lk|] eqn:Hk; [|done].
  case_bool_decide; [done|]. cbn. intros _ Hc. rewrite /holds. by exists lk.
Qed.

Lemma cancel_onward n w k c sh :
  valid w → serves (W := W) sh → proposal (CancelWait k c) → valid (cancelWait n w k c sh) ∧ onward w (cancelWait n w k c sh).
Proof.
  rewrite /cancelWait. generalize (n `min` 3)%nat. clear n. intros n Hv Hsv Hc. revert w Hv.
  induction n as [|n IH]; intros w Hv; [done|]. cbn [cancelAttempts].
  change (cmd.Cancel k c) with (command_of (CancelWait k c)).
  destruct (propose w sh _) as [w1 [res|e]] eqn:E; destruct (propose_onward _ _ _ _ _ Hv Hsv Hc E) as (Hv1 & Ho1 & _); [done|].
  destruct (IH w1 Hv1) as [Hv2 Ho2]. split; [done|]. by etransitivity.
Qed.

(** A granted acquisition. *)
Lemma granted_holds f c k id :
  wf f → (∃ try, c = AcquireLock k id try) ∨ (∃ v, c = Fsm.Campaign k id v) →
  pr_Outcome (pbOf (answer f c)) = outcomeNumber OUTCOME_GRANTED →
  pr_LockKey (pbOf (answer f c)) = k ∧ holds (apply f c) k id (pr_FencingToken (pbOf (answer f c))).
Proof.
  intros Hwf Hc Ho.
  assert (∃ v try, dispatch (incr_revision f) (normCmd c) = acquire (incr_revision f) k id v try) as (v & try & E).
  { destruct Hc as [[try ->]|[v ->]]; by do 2 eexists. }
  assert (r_Outcome (answer f c) = OUTCOME_GRANTED) as Hg by (move: Ho; rewrite /pbOf /=; by destruct (r_Outcome _)).
  rewrite /holds /pbOf /=. rewrite /answer /apply in Hg |- *. rewrite E in Hg |- *.
  destruct (acquire_granted _ _ _ _ _ (incr_revision_wf _ Hwf) Hg) as (lk & H1 & H2 & H3 & _).
  split; [|by exists lk]. clear. rewrite /acquire. destruct (leases _ !! id); [|done]. destruct (locks _ !! k); [|done].
  by repeat case_bool_decide; try destruct try.
Qed.

Lemma wait_spec n tries w sh k c from bounded alive w' resp :
  valid w → c ≠ "" → proposal (CancelWait k c) → moved from (replica w sh) →
  waitForLock n tries w sh k c from bounded alive = (w', Some (Ok resp)) → lr_Acquired resp = true →
  lr_LockKey resp = k ∧ ∃ f, moved from f ∧ moved f (shard w' sh) ∧ holds f k c (lr_FencingToken resp).
Proof.
  intros Hv Hne Hc. revert w Hv. induction n as [|n IH]; intros w Hv Hfrom; [done|]. cbn [waitForLock].
  destruct (next_moves w sh k from Hv) as [Hv1 Ho1].
  destruct (NextEvent w sh k from) as [w1 r] eqn:E. cbn [fst] in *.
  destruct (holdsLock w1 sh k c) as [w2 held] eqn:E2. destruct (holdsLock_spec _ _ _ _ _ _ Hv1 Hne E2) as (Hv2 & Ho2 & Hh).
  assert (moved from (shard w1 sh)) as Hs1.
  { etransitivity; [exact Hfrom|]. etransitivity; [apply Ho1|]. by apply replica_follows. }
  assert (∀ h, held = Ok (Some h) → lr_LockKey h = k ∧
    ∃ f, moved from f ∧ moved f (shard w2 sh) ∧ holds f k c (lr_FencingToken h)) as Hheld.
  { intros h ->. destruct (Hh h eq_refl) as (_ & Hk & f & H1 & H2 & H3). split; [done|]. exists f.
    split_and!; [by etransitivity|done|done]. }
  assert (moved from (replica w2 sh)) as Hfrom2.
  { etransitivity; [exact Hfrom|]. etransitivity; [apply Ho1|]. apply Ho2. }
  destruct r as [e|err].
  - case_bool_decide as He.
    + intros [= <- <-] _. cbn. destruct (next_describes _ _ _ _ _ _ Hv Hfrom E) as (Hk & f & H1 & H2 & Hd).
      split; [done|]. exists f. split_and!; [done|by etransitivity; [|apply replica_follows]|].
      rewrite /holds. destruct (locks f !! k) as [lk|]; destruct Hd as (Hd1 & Hd2 & _); [by exists lk; split_and!; congruence|].
      by rewrite Hd1 in He.
    + destruct held as [[h|]|]; [intros [= <- <-] _; by apply Hheld| |]; by apply IH.
  - destruct held as [[h|]|]; [intros [= <- <-] _; by apply Hheld| |]; by destruct (bounded && alive); intros [= <- <-].
Qed.

(** The commands a call may propose can be encoded. *)
Definition requestable (m : Manager) (k c : string) (now : Z) : Prop :=
  (∀ try, proposal (AcquireLock k c try)) ∧ proposal (CancelWait k c) ∧
  ∀ s, m !! c = Some s → proposal (LeaseGrant c (ss_ttlMS s) now).

Lemma contend_spec op cm n tries ctx now alive m w k c d m' w' resp :
  valid w → serves (W := W) (shardOf cfg k) → requestable m k c now → proposal cm → (∃ try, cm = AcquireLock k c try) ∨ (∃ v, cm = Fsm.Campaign k c v) →
  contend Quote describe cfg op (command_of cm) n tries ctx now alive m w k c d = (m', w', Some (Ok resp)) →
  lr_Acquired resp = true →
  lr_LockKey resp = k ∧ ∃ f, moved (replica w (shardOf cfg k)) f ∧ moved f (shard w' (shardOf cfg k)) ∧
    holds f k c (lr_FencingToken resp).
Proof.
  intros Hv Hsv (_ & Hcan & Hlease) Hcm Hform. rewrite /contend. destruct (requireKeyAndClient _ k c) as [e|] eqn:Hreq; [done|].
  assert (c ≠ "") as Hne by (rewrite /requireKeyAndClient in Hreq; by case_bool_decide).
  destruct (authorize _ _ _ k Write) as [e|]; [done|].
  set (sh := shardOf cfg k). destruct (EnsureLease m w c sh now) as [[m1 w1] [e|]] eqn:E; [done|].
  destruct (ensure_onward _ _ _ _ _ _ _ _ Hv Hsv Hlease E) as [Hv1 Ho1].
  destruct (propose w1 sh (command_of cm)) as [w2 [res|e]] eqn:Ep; [|done].
  destruct (propose_onward _ _ _ _ _ Hv1 Hsv Hcm Ep) as (Hv2 & Ho2 & Hres). destruct (Hres res eq_refl) as (f & H1 & H2 & ->).
  assert (moved (replica w sh) (replica w1 sh)) as Hr by apply Ho1.
  destruct (Z.eqb_spec (pr_Outcome (pbOf (answer f cm))) (outcomeNumber OUTCOME_GRANTED)) as [Hg|_].
  - intros [= <- <- <-] _. cbn [lr_LockKey lr_FencingToken].
    destruct (valid_shard w1 sh Hv1) as [Hwf Hst]. destruct (moved_ok _ _ H1 Hwf Hst) as [Hwf' _].
    destruct (granted_holds f cm k c Hwf' Hform Hg) as [Hk Hh]. split; [done|]. exists (apply f cm). split_and!; [|done|done].
    etransitivity; [exact Hr|]. etransitivity; [by apply replica_follows|]. etransitivity; [exact H1|]. by apply moved_apply.
  - case_match; [done|]. case_match; [|done].
    destruct (waitForLock n tries w2 sh k c (replica w1 sh) (0 <? d) alive) as [w3 r3] eqn:Ew. intros [= <- <- ->] Hacq.
    apply wait_spec in Ew as (Hk & g & G1 & G2 & G3); [|done|done|done|apply Ho2|done]. split; [done|].
    exists g. split_and!; [by etransitivity|done|done].
Qed.

(** C26: a lock reported as acquired was held.  When [Lock] or [Campaign] reports
    success, the caller held the key with the token it is given in a state the
    shard had between what the node's replica knew when the call began and the
    end of the call, whichever of the three ways the handler learned of it; when
    [TryLock] does, in a state the shard had during the call. *)
Theorem acquired_means_held ctx now m w k c :
  valid w → serves (W := W) (shardOf cfg k) → requestable m k c now →
  (∀ n tries alive d m' w' resp,
     Lock Quote describe cfg n tries ctx now alive m w
       {| lq_Name := k; lq_ClientId := c; lq_WaitDeadlineUnixNano := d |} = (m', w', Some (Ok resp)) →
     lr_Acquired resp = true →
     lr_LockKey resp = k ∧ ∃ f, moved (replica w (shardOf cfg k)) f ∧ moved f (shard w' (shardOf cfg k)) ∧
       holds f k c (lr_FencingToken resp)) ∧
  (∀ n tries alive v d m' w' resp, proposal (Fsm.Campaign k c v) →
     Campaign Quote describe cfg n tries ctx now alive m w
       {| cq_Name := k; cq_ClientId := c; cq_Value := v; cq_WaitDeadlineUnixNano := d |} = (m', w', Some (Ok resp)) →
     lr_Acquired resp = true →
     lr_LockKey resp = k ∧ ∃ f, moved (replica w (shardOf cfg k)) f ∧ moved f (shard w' (shardOf cfg k)) ∧
       holds f k c (lr_FencingToken resp)) ∧
  (∀ m' w' resp, TryLock Quote describe cfg ctx now m w k c = (m', w', Ok resp) → tr_Acquired resp = true →
     tr_LockKey resp = k ∧ ∃ f, moved (shard w (shardOf cfg k)) f ∧ moved f (shard w' (shardOf cfg k)) ∧
       holds f k c (tr_FencingToken resp)).
Proof.
  intros Hv Hsv Hreq. split_and!.
  - intros n tries alive d m' w' resp. apply contend_spec with (cm := AcquireLock k c false); [done|done|done|apply Hreq|eauto].
  - intros n tries alive v d m' w' resp Hc. apply contend_spec with (cm := Fsm.Campaign k c v); [done|done|done|done|eauto].
  - intros m' w' resp. rewrite /TryLock. destruct (requireKeyAndClient _ k c); [done|].
    destruct (authorize _ _ _ k Write); [done|]. set (sh := shardOf cfg k). destruct Hreq as (Hacq & _ & Hlease).
    destruct (EnsureLease m w c sh now) as [[m1 w1] [e|]] eqn:E; [done|].
    destruct (ensure_onward _ _ _ _ _ _ _ _ Hv Hsv Hlease E) as [Hv1 Ho1].
    change (cmd.Acquire k c true) with (command_of (AcquireLock k c true)).
    destruct (propose w1 sh _) as [w2 [res|e]] eqn:Ep; [|done].
    destruct (propose_onward _ _ _ _ _ Hv1 Hsv (Hacq true) Ep) as (_ & _ & Hres).
    destruct (Hres res eq_refl) as (f & H1 & H2 & ->).
    destruct (Z.eqb_spec (pr_Outcome (pbOf (answer f (AcquireLock k c true)))) (outcomeNumber OUTCOME_GRANTED)) as [Hg|_].
    + intros [= <- <- <-] _. cbn [tr_LockKey tr_FencingToken].
      destruct (valid_shard w1 sh Hv1) as [Hwf Hst]. destruct (moved_ok _ _ H1 Hwf Hst) as [Hwf' _].
      destruct (granted_holds f _ k c Hwf' (or_introl (ex_intro _ true eq_refl)) Hg) as [Hk Hh]. split; [done|].
      exists (apply f (AcquireLock k c true)). split_and!; [|done|done].
      etransitivity; [apply Ho1|]. etransitivity; [exact H1|]. by apply moved_apply.
    + case_match; [by intros [= <- <- <-]|]. by case_match.
Qed.

End spec.

(** What refuses a call does not depend on the cluster. *)
Section refusals.
Context {W : Type} `{Cluster W} `{!Watcher W}.
Context (Quote : string → string) (describe : KeyError → string).
Context (cfg : Config).

(** The codes of the checks. *)
Lemma text_code cat t msg : statusCode (Some (E cat t (Some (Text msg)))) = Code cat.
Proof. by destruct (E_fresh cat t (Text msg) eq_refl) as (o & -> & _). Qed.

Lemma path_code k err :
  requireKeyPath describe k = Some err → statusCode (Some err) ∈ [codes.InvalidArgument; codes.PermissionDenied].
Proof. rewrite /requireKeyPath. destruct (Keypath.Validate k); [done|]. intros [= <-]. rewrite text_code. set_solver. Qed.

Lemma required_code k c err :
  requireKeyAndClient describe k c = Some err → statusCode (Some err) ∈ [codes.InvalidArgument; codes.PermissionDenied].
Proof.
  rewrite /requireKeyAndClient. case_bool_decide; [|apply path_code]. intros <-%(inj Some). rewrite text_code. set_solver.
Qed.

Lemma authorize_refuses k ctx op :
  Authorize (cfg_Authorizer cfg) (IdentityFromContext ctx).1 k op ≠ Ok tt →
  ∃ err, statusCode (Some err) ∈ [codes.InvalidArgument; codes.PermissionDenied] ∧ authorize Quote cfg ctx k op = Some err.
Proof.
  intros Hne. rewrite /authorize. destruct (Authorize _ _ k op) as [[]|]; [done|]. eexists. split; [|done].
  rewrite text_code. set_solver.
Qed.

(** C39: a call that is refused changes nothing.  A call without a client id,
    for a key that is not canonical, or by a caller the policy does not let write
    the key, fails with InvalidArgument or PermissionDenied in every handler that
    writes, and neither the sessions nor the cluster are touched; a caller the
    policy does not let read the key learns nothing of it either. *)
Theorem denied_calls_change_nothing ctx now m w k c :
  (c = "" ∨ Keypath.Validate k ≠ Ok tt ∨ Authorize (cfg_Authorizer cfg) (IdentityFromContext ctx).1 k Write ≠ Ok tt →
   ∃ err, statusCode (Some err) ∈ [codes.InvalidArgument; codes.PermissionDenied] ∧
     (∀ n tries alive d, Lock Quote describe cfg n tries ctx now alive m w
        {| lq_Name := k; lq_ClientId := c; lq_WaitDeadlineUnixNano := d |} = (m, w, Some (Err err))) ∧
     (∀ n tries alive v d, Campaign Quote describe cfg n tries ctx now alive m w
        {| cq_Name := k; cq_ClientId := c; cq_Value := v; cq_WaitDeadlineUnixNano := d |} = (m, w, Some (Err err))) ∧
     TryLock Quote describe cfg ctx now m w k c = (m, w, Err err) ∧
     (∀ t, Unlock Quote describe cfg ctx w k c t = (w, Err err)) ∧
     (∀ t v, Proclaim Quote describe cfg ctx w k c t v = (w, Err err)) ∧
     (∀ t, Resign Quote describe cfg ctx w k c t = (w, Err err))) ∧
  (Keypath.Validate k ≠ Ok tt ∨ Authorize (cfg_Authorizer cfg) (IdentityFromContext ctx).1 k Read ≠ Ok tt →
   ∃ err, statusCode (Some err) ∈ [codes.InvalidArgument; codes.PermissionDenied] ∧
     (∀ mode, Status Quote describe cfg ctx w k mode = (w, Err err)) ∧
     (∀ mode, Leader Quote describe cfg ctx w k mode = (w, Err err)) ∧
     (∀ sends, Observe Quote describe cfg ctx w k sends = (w, [], Some (Some err)))).
Proof.
  split; intros Hbad.
  - assert (∃ err, statusCode (Some err) ∈ [codes.InvalidArgument; codes.PermissionDenied] ∧
      (requireKeyAndClient describe k c = Some err ∨
       requireKeyAndClient describe k c = None ∧ authorize Quote cfg ctx k Write = Some err)) as (err & Hcode & Hor).
    { destruct (requireKeyAndClient describe k c) as [err|] eqn:E.
      - exists err. split; [by eapply required_code|by left].
      - destruct (authorize_refuses k ctx Write) as (err & Hcode & Ha); [|by exists err; auto].
        move: E. rewrite /requireKeyAndClient /requireKeyPath. case_bool_decide; [done|].
        destruct (Keypath.Validate k) as [[]|]; [|done]. naive_solver. }
    exists err. split; [exact Hcode|].
    rewrite /Lock /Campaign /TryLock /Unlock /Proclaim /Resign /contend /holderCall. cbn [lq_Name lq_ClientId cq_Name cq_ClientId].
    by destruct Hor as [-> |[-> ->]].
  - assert (∃ err, statusCode (Some err) ∈ [codes.InvalidArgument; codes.PermissionDenied] ∧
      (requireKeyPath describe k = Some err ∨
       requireKeyPath describe k = None ∧ authorize Quote cfg ctx k Read = Some err)) as (err & Hcode & Hor).
    { destruct (requireKeyPath describe k) as [err|] eqn:E.
      - exists err. split; [by eapply path_code|by left].
      - destruct (authorize_refuses k ctx Read) as (err & Hcode & Ha); [|by exists err; auto].
        move: E. rewrite /requireKeyPath. destruct (Keypath.Validate k) as [[]|]; [|done]. naive_solver. }
    exists err. split; [exact Hcode|]. rewrite /Status /Leader /Observe /readCall. by destruct Hor as [-> |[-> ->]].
Qed.
End refusals.

(** ** Waiting on the cluster in memory

    Each event is the lock as the replica has it after its next step. *)
Definition sim_catch_up (w : Sim) (sh : Z) : Sim :=
  {| sim_shards := sim_shards w; sim_past := <[sh := tail (sim_history w sh)]> (sim_past w); sim_script := sim_script w |}.

Definition sim_event (f : FSM) (k : string) : Event :=
  match locks f !! k with
  | Some lk => {| ev_Key := k; ev_Holder := lk_holder lk; ev_Token := lk_token lk; ev_Value := lk_value lk;
                  ev_Revision := revision f |}
  | None => {| ev_Key := k; ev_Holder := ""; ev_Token := 0; ev_Value := None; ev_Revision := revision f |}
  end.

#[export] Instance Sim_watcher : Watcher Sim := λ w sh k from,
  let '(w1, fail) := sim_next w in
  if fail || bool_decide (sim_history w1 sh = []) then (w1, Err (Text "context deadline exceeded"))
  else (sim_catch_up w1 sh, Ok (sim_event (sim_replica (sim_catch_up w1 sh) sh) k)).

Section sim.
Lemma catch_up_history w sh s :
  sim_history (sim_catch_up w sh) s = if decide (sh = s) then tail (sim_history w s) else sim_history w s.
Proof. rewrite {1}/sim_history /= lookup_insert. by case_decide; subst. Qed.

Lemma catch_up_ok w sh :
  sim_valid w → sim_valid (sim_catch_up w sh) ∧ onward w (sim_catch_up w sh).
Proof.
  intros [Hsh Hp Hsc]. assert (∀ s, sim_shard (sim_catch_up w sh) s = sim_shard w s) as Es by done. split; [split|].
  - exact Hsh.
  - intros s. specialize (Hp s). rewrite Es catch_up_history. case_decide; [|done].
    destruct (sim_history w s); [done|]. by inversion Hp.
  - exact Hsc.
  - intros s. split; [done|]. cbn [replica Sim_cluster]. rewrite /sim_replica Es catch_up_history. case_decide; [|done].
    specialize (Hp s). destruct (sim_history w s) as [|f [|g h]]; [done| |]; cbn in *.
    + apply StronglySorted_cons in Hp as [Hp _]. by apply Forall_cons in Hp as [? _].
    + apply StronglySorted_cons in Hp as [Hp _]. by apply Forall_cons in Hp as [? _].
Qed.

Lemma sim_event_describes f k : describes (sim_event f k) (locks f !! k).
Proof. rewrite /sim_event. by destruct (locks f !! k). Qed.

#[export] Instance Sim_watcher_laws : WatcherLaws Sim.
Proof.
  split; rewrite /NextEvent /Sim_watcher.
  - intros w sh k from Hv. destruct (sim_next_ok w Hv) as (Hv1 & Hm1 & Hr1). destruct (sim_next w) as [w1 fail]. cbn [fst] in *.
    assert (onward w w1) as Ho. { intros s. split; [apply Hm1|]. cbn. by rewrite Hr1. }
    destruct (fail || _); [done|]. cbn [fst]. destruct (catch_up_ok w1 sh Hv1) as [Hv2 Ho2]. split; [done|]. by etransitivity.
  - intros w sh k from w' e Hv Hfrom. destruct (sim_next_ok w Hv) as (Hv1 & Hm1 & Hr1).
    destruct (sim_next w) as [w1 fail]. cbn [fst] in *. destruct (fail || _); [done|]. intros [= <- <-].
    destruct (catch_up_ok w1 sh Hv1) as [_ Ho2]. split; [by rewrite /sim_event; case_match|].
    exists (sim_replica (sim_catch_up w1 sh) sh). split_and!; [|done|apply sim_event_describes].
    etransitivity; [exact Hfrom|]. cbn [replica Sim_cluster]. rewrite -(Hr1 sh). apply Ho2.
Qed.
End sim.

(** ** Witnesses and what the handlers do not promise *)
Definition demo_quote (s : string) : string := s.
Definition demo_describe (e : KeyError) : string := "bad key".
Definition demo_config : Config :=
  {| cfg_Router := {| shards := [1] |}; cfg_DefaultTTL := 30 * Second; cfg_MinTTL := Second; cfg_MaxTTL := 300 * Second;
     cfg_Authorizer := AllowAll |}.
Definition demo_ctx : Gate.Context :=
  {| ctx_md := None; ctx_identity := None; ctx_peer := None |}.

Definition demo_lock (m : Manager) (w : Sim) (d : Z) : Manager * Sim * option (result LockResponse error) :=
  Lock demo_quote demo_describe demo_config 10 3 demo_ctx 0 true m w
    {| lq_Name := "/team/x"; lq_ClientId := "a"; lq_WaitDeadlineUnixNano := d |}.

Definition demo_sessions : Manager := Open NewManager "a" 1000.

Lemma demo_requestable : requestable demo_sessions "/team/x" "a" 0.
Proof.
  split_and!.
  - intros [|]; (split; [done|split; by vm_compute]).
  - split; [done|split; by vm_compute].
  - intros s. rewrite /demo_sessions /Open lookup_insert_eq. intros [= <-]. split; [done|split; by vm_compute].
Qed.

Lemma acquired_means_held_witness :
  ∃ f, moved f (shard (demo_lock demo_sessions demo_world 0).1.2 1) ∧ holds f "/team/x" "a" 1.
Proof.
  destruct (acquired_means_held demo_quote demo_describe demo_config demo_ctx 0 demo_sessions demo_world "/team/x" "a")
    as [HLock _]; [exact demo_valid|exact I|exact demo_requestable|].
  destruct (HLock 10%nat 3%nat true 0 (demo_lock demo_sessions demo_world 0).1.1 (demo_lock demo_sessions demo_world 0).1.2
    {| lr_Acquired := true; lr_LockKey := "/team/x"; lr_FencingToken := 1; lr_Revision := 2 |}) as (_ & f & _ & H2 & H3).
  - by vm_compute.
  - done.
  - exists f. split; [exact H2|exact H3].
Defined.

(** A caller that gives up is left holding the lock.  "b" holds the key and
    releases it between the read that confirms "a" does not hold it and the
    cancellation of "a"'s wait: the release promotes "a", the cancellation finds
    nothing to cancel, and the call reports that the lock was not acquired. *)
Definition demo_stranding : Sim :=
  {| sim_shards := ∅; sim_past := ∅;
     sim_script := [([(1, LeaseGrant "b" 1000 0); (1, AcquireLock "/team/x" "b" false)], false); ([], false);
                    ([], true); ([], false); ([(1, ReleaseLock "/team/x" "b" 1)], false)] |}.

Example given_up_but_held :
  let '(_, w, r) := demo_lock demo_sessions demo_stranding 1 in
  r = Some (Ok {| lr_Acquired := false; lr_LockKey := "/team/x"; lr_FencingToken := 0; lr_Revision := 0 |}) ∧
  (lk_holder <$> locks (shard w 1) !! "/team/x") = Some "a".
Proof. by vm_compute. Qed.

(** A queued caller takes an old acquisition of its own for a new one.  The
    node's replica has not applied "a"'s first acquisition when "a", which has
    released the key in the meantime, asks for it again and is queued behind "b";
    the event of the first acquisition then answers the second call. *)
Definition demo_leased : FSM := apply (apply (New None) (LeaseGrant "a" 1000 0)) (LeaseGrant "b" 1000 0).
Definition demo_behind : Sim :=
  sim_commits {| sim_shards := {[1 := demo_leased]}; sim_past := ∅; sim_script := [] |}
    [(1, AcquireLock "/team/x" "a" false); (1, ReleaseLock "/team/x" "a" 1); (1, AcquireLock "/team/x" "b" false)].
Definition demo_attached : Manager := (Attach demo_sessions "a" 1).1.

Example acquired_from_old_event :
  let '(_, w, r) := demo_lock demo_attached demo_behind 0 in
  r = Some (Ok {| lr_Acquired := true; lr_LockKey := "/team/x"; lr_FencingToken := 1; lr_Revision := 3 |}) ∧
  (lk_holder <$> locks (shard w 1) !! "/team/x") = Some "b".
Proof. by vm_compute. Qed.

(** A very large requested time to live is cut to the smallest one. *)
Example clamp_overflow : clampTTL demo_config (2 ^ 43) = 300000 ∧ clampTTL demo_config 9223372036855 = 1000.
Proof. by vm_compute. Qed.

(** A stream that breaks, rather than being closed, keeps its session and lease. *)
Example broken_stream_keeps_lease (err : error) :
  let rd r := {| rd_recv := r; rd_now := 0; rd_uuid := ""; rd_order := [1]; rd_send := None |} in
  let '(m, w, _, end_) := KeepAlive demo_config "a" 1000 demo_ensured.1.1 demo_ensured.1.2 [rd (RecvErr err)] in
  end_ = Some (Some err) ∧ is_Some (m !! "a") ∧ lease_of (shard w 1) "a" = Some (1000, 1000000000).
Proof. cbn [KeepAlive rd_recv]. split; [done|]. split; [by vm_compute; eexists|by vm_compute]. Qed.
