(* ===== verification/FsmTheorems.v ===== *)
(** * Correctness of the shard state machine

    The theorems about internal/raft/fsm: every log of commands, applied to a
    fresh state machine, leaves it well formed and in the state the lock-service
    contract prescribes, with fencing tokens, queues, events, snapshots and
    queries that keep their promises. *)
From S2P Require Import Prelude GoStrings Keypath Fsm FsmInv FsmSpec FsmTrace FsmStore FsmContract.

Local Open Scope string_scope.
Local Open Scope list_scope.
Local Open Scope Z_scope.

(** A log for the instances below: two clients, one key, a handover and a
    resignation. *)
Definition command (c : Cmd) : option Command := Some {| GetCmd := Some c |}.

Definition demo : list (option Command) :=
  command <$> [LeaseGrant "a" 1000 0; LeaseGrant "b" 1000 0; LeaseGrant "c" 1000 0;
               AcquireLock "/team/x" "a" false; Campaign "/team/x" "b" (Some "addr-b");
               AcquireLock "/team/x" "c" false].

Lemma demo_ok : Forall command_ok demo.
Proof. by repeat constructor. Qed.

(** Every command log from a fresh state machine ends in a well-formed state:
    each lock has a holder with a live lease that is not queued, its waiters are
    distinct and have live leases, and the held and waiting sets of every lease
    are exactly the keys it holds and waits on.
    C18: indexes and locks agree after any log. *)
Theorem reachable_wf nt cmds : Forall command_ok cmds → wf (run (New nt) cmds).
Proof. apply run_wf, wf_New. Qed.

Lemma reachable_wf_witness : wf (run (New (Some [])) demo).
Proof. apply reachable_wf. by repeat constructor. Defined.

(** C1: the state machine refines the lock-service contract.  After any log the
    state is the one the contract computes with whole-table scans and seven
    atomic transitions, and the next command is answered with the outcome the
    contract prescribes. *)
Theorem run_refines nt cmds c :
  Forall command_ok cmds →
  let f := run (New nt) cmds in
  let a := a_run (abs (New nt)) cmds in
  abs f = a ∧
  abs (Apply f (command c)).1 = a_apply a (command c) ∧
  ∃ r, (Apply f (command c)).2 = Ok r ∧ r_Outcome r = outcome_of (a_bump a) c.
Proof.
  intros Hok f a. pose proof (run_wf (New nt) cmds (wf_New nt) Hok) as Hwf.
  assert (abs f = a) as E by by apply run_abs; [apply wf_New|].
  split; [done|]. split; [by rewrite -E -Apply_abs|].
  destruct (dispatch_refines (incr_revision f) c) as [_ Ho]; [by apply incr_revision_wf|].
  eexists. split; [apply Apply_answer|]. by rewrite Ho -E.
Qed.

Lemma run_refines_witness :
  ∃ r, (Apply (run (New None) demo) (command (ReleaseLock "/team/x" "a" 1))).2 = Ok r ∧
       r_Outcome r = OUTCOME_RELEASED.
Proof.
  destruct (run_refines None demo (ReleaseLock "/team/x" "a" 1)) as (_ & _ & r & Hr & Ho);
    [by repeat constructor|].
  exists r. split; [exact Hr|]. rewrite Ho. vm_compute. reflexivity.
Defined.

(** C15: fencing.  In the events of any log of fewer than 2^63 commands, of two
    events of one key that announce an owner the later carries the larger token
    unless both announce the same acquisition, and a token identifies one key
    and one owner across the whole shard. *)
Theorem fencing cmds :
  Z.of_nat (length cmds) < 2 ^ 63 → Forall command_ok cmds →
  ∃ log, notifier (run (New (Some [])) cmds) = Some log ∧
    StronglySorted succeeds log ∧
    (∀ e1 e2, e1 ∈ log → e2 ∈ log → held_event e1 → held_event e2 → ev_Token e1 = ev_Token e2 →
       ev_Key e1 = ev_Key e2 ∧ ev_Holder e1 = ev_Holder e2).
Proof.
  intros Hn Hok.
  assert (inv 0 (run (New (Some [])) cmds)) as [_ [_ Hl] _ _].
  { apply inv_run; [done| |done]. apply inv_New; [lia|by right]. }
  destruct (run_notifier (New (Some [])) cmds) as [log Hlog]; [apply wf_New|done|by eexists|].
  exists log. simpl in Hl. rewrite Hlog in Hl. destruct Hl. done.
Qed.

Lemma fencing_witness :
  ∃ log, notifier (run (New (Some [])) demo) = Some log ∧ StronglySorted succeeds log.
Proof.
  destruct (fencing demo) as (log & H & Hs & _); [by vm_compute|by repeat constructor|].
  by exists log.
Defined.

(** C16: a stale token stays stale.  Once a client and token are not the current
    owner and token of a key, no later log brings them back: releasing or
    publishing with them is refused for ever and leaves every lock as it was. *)
Theorem stale_token_refused pre post k c t v :
  Z.of_nat (length (pre ++ post)) < 2 ^ 63 → Forall command_ok (pre ++ post) →
  let f := run (New None) pre in
  let g := run f post in
  fenced (abs f) k c t = false → t ≤ seq f →
  ∀ cmd, cmd = ReleaseLock k c t ∨ cmd = Resign k c t ∨ cmd = Proclaim k c t v →
  ∃ r, (Apply g (command cmd)).2 = Ok r ∧
    (r_Outcome r = OUTCOME_STALE_TOKEN ∨ r_Outcome r = OUTCOME_NOT_HOLDER) ∧
    locks (Apply g (command cmd)).1 = locks g.
Proof.
  intros Hn Hok f g Hf Ht cmd Hcmd. rewrite length_app in Hn. apply Forall_app in Hok as [Hok1 Hok2].
  assert (inv (Z.of_nat (length post) + 0) f) as Hi.
  { apply inv_run; [lia| |done]. apply inv_New; [lia|by left]. }
  pose proof (run_wf f post (inv_wf _ _ Hi) Hok2) as Hwf. fold g in Hwf.
  assert (fenced (abs g) k c t = false) as Hg.
  { destruct (fenced (abs g) k c t) eqn:E; [|done].
    destruct (run_fenced post f 0 k c t) as [?|?]; try done; [congruence|lia]. }
  pose proof (Apply_abs g (command cmd) Hwf) as Ea.
  destruct (dispatch_refines (incr_revision g) cmd) as [_ Ho]; [by apply incr_revision_wf|].
  change (fenced (a_bump (abs g)) k c t = false) in Hg. change (abs (incr_revision g)) with (a_bump (abs g)) in Ho.
  assert (locks (Apply g (command cmd)).1 = locks g) as El.
  { change (a_locks (abs (Apply g (command cmd)).1) = a_locks (abs g)). rewrite Ea.
    destruct Hcmd as [-> |[-> | ->]]; by rewrite /= Hg. }
  eexists. split_and!; [apply Apply_answer| |done]. rewrite Ho. destruct Hcmd as [-> |[-> | ->]]; rewrite /= Hg; case_match; auto.
Qed.

Lemma stale_token_refused_witness :
  ∃ r, (Apply (run (run (New None) (demo ++ [command (ReleaseLock "/team/x" "a" 1)]))
                   [command (AcquireLock "/team/x" "a" false)])
              (command (Proclaim "/team/x" "a" 1 (Some "late")))).2 = Ok r ∧
       (r_Outcome r = OUTCOME_STALE_TOKEN ∨ r_Outcome r = OUTCOME_NOT_HOLDER).
Proof.
  destruct (stale_token_refused (demo ++ [command (ReleaseLock "/team/x" "a" 1)])
    [command (AcquireLock "/team/x" "a" false)] "/team/x" "a" 1 (Some "late")) with
    (cmd := Proclaim "/team/x" "a" 1 (Some "late")) as (r & Hr & Ho & _);
    [by vm_compute|by repeat constructor|by vm_compute|by vm_compute|by right; right|].
  exists r. split; [exact Hr|exact Ho].
Defined.

(** C22: watchers see the current owner.  After any log of fewer than 2^63
    commands the last event published for a key carries the holder, token and
    value of its lock, or announces that it is free; a key without events has
    never been owned.  Event revisions never decrease. *)
Theorem events_describe_locks cmds :
  Z.of_nat (length cmds) < 2 ^ 63 → Forall command_ok cmds →
  let f := run (New (Some [])) cmds in
  ∃ log, notifier f = Some log ∧
    StronglySorted (λ e1 e2, ev_Revision e1 ≤ ev_Revision e2) log ∧
    ∀ k, match last_event k log with
         | Some e => describes e (locks f !! k)
         | None => locks f !! k = None
         end.
Proof.
  intros Hn Hok f. assert (inv 0 f) as [_ [_ Hl] _ _].
  { apply inv_run; [done| |done]. apply inv_New; [lia|by right]. }
  destruct (run_notifier (New (Some [])) cmds) as [log Hlog]; [apply wf_New|done|by eexists|].
  exists log. simpl in Hl. fold f in Hlog. rewrite Hlog in Hl. destruct Hl. done.
Qed.

Lemma events_describe_locks_witness :
  ∃ log, notifier (run (New (Some [])) demo) = Some log ∧
    match last_event "/team/x" log with
    | Some e => describes e (locks (run (New (Some [])) demo) !! "/team/x")
    | None => locks (run (New (Some [])) demo) !! "/team/x" = None
    end.
Proof.
  destruct (events_describe_locks demo) as (log & H & _ & Hk); [by vm_compute|by repeat constructor|].
  exists log. split; [exact H|]. apply Hk.
Defined.

(** counters do not wrap.  After any log of fewer than 2^63 commands the
    token counter and the revision are below 2^64 and have only grown, and every
    lock has a token that was counted and a queue in strictly increasing
    enqueue order. *)
Theorem counters_bounded pre post nt :
  Z.of_nat (length (pre ++ post)) < 2 ^ 63 → Forall command_ok (pre ++ post) → nt = None ∨ nt = Some [] →
  let f := run (New nt) pre in
  let g := run f post in
  0 ≤ seq f ≤ seq g ∧ seq g < 2 ^ 64 ∧ 0 ≤ revision g < 2 ^ 64 ∧
  ∀ k lk, locks g !! k = Some lk →
    0 < lk_token lk ≤ seq g ∧ StronglySorted (λ w1 w2, w_seq w1 < w_seq w2) (lk_queue lk).
Proof.
  intros Hn Hok Hnt f g. rewrite length_app in Hn. apply Forall_app in Hok as [Hok1 Hok2].
  assert (inv (Z.of_nat (length post) + 0) f) as Hi.
  { apply inv_run; [lia| |done]. apply inv_New; [lia|done]. }
  assert (inv 0 g) as [_ [[_ Ho] _] Hr Hp] by by apply inv_run.
  pose proof (potential_seq (abs g)). simpl in *.
  pose proof (run_seq post f 0 ltac:(lia) Hi Hok2) as Hs. destruct Hi as [_ [[Hs0 _] _] _ _]. simpl in Hs0.
  split_and!; [done|done|lia|lia|lia|]. intros k lk Hk. by destruct (Ho k lk Hk).
Qed.

Lemma counters_bounded_witness :
  seq (run (run (New None) demo) [command (LeaseRevoke "a")]) < 2 ^ 64.
Proof.
  destruct (counters_bounded demo [command (LeaseRevoke "a")] None) as (_ & H & _);
    [by vm_compute|by repeat constructor|by left|exact H].
Defined.

(** C20: nobody is overtaken.  While a client keeps waiting on a key, a client
    that neither held the key nor waited ahead of it does not come to hold the
    key. *)
Theorem no_overtaking nt pre post k c d lk l1 l2 :
  Forall command_ok (pre ++ post) →
  let f := run (New nt) pre in
  locks f !! k = Some lk → queue_ids lk = l1 ++ c :: l2 → lk_holder lk ≠ d → d ∉ l1 →
  (∀ ps, ps `prefix_of` post → waits (run f ps) c k) →
  ¬ holds (run f post) d k.
Proof.
  intros [Hok1 Hok2]%Forall_app f Hk Hq Hh Hd Hwait.
  pose proof (run_wf (New nt) pre (wf_New nt) Hok1) as Hwf.
  destruct (wfx_locks _ _ _ _ Hwf _ _ Hk) as [_ _ _ _ Hnd _].
  rewrite Hq in Hnd. apply NoDup_app in Hnd as (_ & Hc1 & [Hc2 _]%NoDup_cons).
  destruct (run_behind post f k c d) as (lk' & _ & _ & Hk' & _ & _ & _ & Hh' & _); [done|done| |done|].
  - exists lk, l1, l2. split_and!; try done. intros Hin. apply (Hc1 c Hin). by left.
  - intros (lk'' & Hk'' & Hd''). simpl in *. naive_solver.
Qed.

Lemma no_overtaking_witness :
  ¬ holds (run (run (New None) demo) [command (AcquireLock "/team/x" "c" false)]) "c" "/team/x".
Proof.
  eapply (no_overtaking None demo _ "/team/x" "b" "c" _ []);
    [by repeat constructor|by vm_compute|by vm_compute|by vm_compute|by apply not_elem_of_nil|].
  intros ps Hps. destruct (prefix_singleton _ _ Hps) as [-> | ->];
    (eexists; split; [by vm_compute|by left]).
Defined.

(** C21: waiters are served.  The client at place [i] of the queue (from 0) holds
    the key after [i+1] releases by its successive holders. *)
Theorem waiters_are_served nt cmds k lk i w :
  Forall command_ok cmds →
  locks (run (New nt) cmds) !! k = Some lk → lk_queue lk !! i = Some w →
  holds (drain (S i) (run (New nt) cmds) k) (w_clientID w) k.
Proof. intros Hok. apply drain_serves, run_wf; [apply wf_New|done]. Qed.

Lemma waiters_are_served_witness : holds (drain 2 (run (New None) demo) "/team/x") "c" "/team/x".
Proof.
  eapply (waiters_are_served None demo "/team/x" _ 1 {| w_clientID := "c"; w_seq := 3; w_value := None |});
    [by repeat constructor|by vm_compute|by vm_compute].
Defined.

(** C17: the end of a lease.  Revoking a lease, or expiring it at or after its
    deadline, removes it and no other lease; every key the client held goes to
    its first waiter under a fresh token or is freed, the client leaves every
    queue it waited in, and no other lock changes. *)
Theorem lease_end nt cmds c ls cmd :
  Z.of_nat (length cmds) < 2 ^ 63 - 1 → Forall command_ok cmds → nt = None ∨ nt = Some [] →
  let f := run (New nt) cmds in
  leases f !! c = Some ls →
  cmd = LeaseRevoke c ∨ (∃ now, cmd = LeaseExpire c now ∧ ls_expireAt ls ≤ now) →
  let g := (Apply f (command cmd)).1 in
  abs_lease <$> leases g = delete c (abs_lease <$> leases f) ∧
  (∀ k, ¬ holds g c k ∧ ¬ waits g c k) ∧
  ∀ k, (holds f c k → handed_over (locks f !! k) (locks g !! k) ∧
          ∀ lk, locks g !! k = Some lk → seq f < lk_token lk) ∧
       (waits f c k → left_by c (locks f !! k) (locks g !! k)) ∧
       (¬ holds f c k → ¬ waits f c k → locks g !! k = locks f !! k).
Proof.
  intros Hn Hok Hnt f Hls Hcmd g.
  assert (inv (0 + 1) f) as Hi.
  { apply inv_run; [lia| |done]. apply inv_New; [lia|done]. }
  pose proof (inv_wf _ _ Hi) as Hwf.
  assert (wf g) as Hwg.
  { apply Apply_wf; [done|]. by destruct Hcmd as [->|(? & -> & _)]. }
  destruct (drop_plan_spec (incr_revision f) c (incr_revision_wf f Hwf)) as [Hd Hk].
  rewrite -(lease_end_abs f c ls cmd Hwf Hls Hcmd) in Hd, Hk. split; [done|].
  assert (leases g !! c = None) as Hnone.
  { apply (f_equal (lookup c)) in Hd. rewrite lookup_delete_eq lookup_abs_lease in Hd. by apply fmap_None in Hd. }
  pose proof (leaseless_owns_nothing g c Hwg Hnone) as Hgone. split; [done|].
  intros k. split; [|apply Hk]. intros Hold. split; [by apply (Hk k)|]. intros lk Hlk.
  destruct (step_fenced 0 f (command cmd) k (lk_holder lk) (lk_token lk)) as [Hf|Hf]; [done|done| | |done].
  - fold g. by rewrite /fenced /= Hlk bool_decide_eq_true_2 // Z.eqb_refl.
  - destruct Hold as (lk0 & Hk0 & Hh0). rewrite /fenced /= Hk0 in Hf.
    apply andb_true_iff in Hf as [Hf%bool_decide_eq_true _].
    destruct (proj1 (Hgone k)). exists lk. split; [done|congruence].
Qed.

Lemma lease_end_witness :
  ¬ holds (Apply (run (New None) demo) (command (LeaseExpire "a" 1000000000))).1 "a" "/team/x".
Proof.
  destruct (lease_end None demo "a" {| ls_clientID := "a"; ls_ttlMS := 1000; ls_expireAt := 1000000000;
      ls_held := {["/team/x"]}; ls_waiting := ∅ |} (LeaseExpire "a" 1000000000)) as (_ & H & _);
    [by vm_compute|by repeat constructor|by left|by vm_compute|right; by exists 1000000000|].
  apply H.
Defined.

(** A renewed lease survives its old deadline.  After a keepalive stamped
    [now], an expiry stamped before [now] plus the lease's TTL changes neither
    locks nor leases and is answered with a no-op, as long as that deadline fits
    in 64 bits. *)
Theorem renewed_lease_survives nt cmds c ls now later :
  Forall command_ok cmds →
  let f := run (New nt) cmds in
  leases f !! c = Some ls →
  0 ≤ ls_ttlMS ls → 0 ≤ now → now + ls_ttlMS ls * Millisecond < 2 ^ 63 →
  later < now + ls_ttlMS ls * Millisecond →
  let g := run f [command (LeaseKeepAlive c now)] in
  (∃ r, (Apply f (command (LeaseKeepAlive c now))).2 = Ok r ∧ r_Outcome r = OUTCOME_LEASE_RENEWED ∧
        r_LeaseDeadline r = now + ls_ttlMS ls * Millisecond) ∧
  (∃ r, (Apply g (command (LeaseExpire c later))).2 = Ok r ∧ r_Outcome r = OUTCOME_NOOP) ∧
  locks (Apply g (command (LeaseExpire c later))).1 = locks f ∧
  leases (Apply g (command (LeaseExpire c later))).1 = leases g.
Proof.
  intros Hok f Hls Httl Hnow Hfit Hlater g.
  assert (leaseDeadline now (ls_ttlMS ls) = now + ls_ttlMS ls * Millisecond) as Ed.
  { rewrite /leaseDeadline /Millisecond in Hfit |- *. rewrite !i64_small /in_i64; lia. }
  assert (leases g = <[c := {| ls_clientID := ls_clientID ls; ls_ttlMS := ls_ttlMS ls;
    ls_expireAt := leaseDeadline now (ls_ttlMS ls); ls_held := ls_held ls; ls_waiting := ls_waiting ls |}]> (leases f)
    ∧ locks g = locks f) as [Elg Elk].
  { rewrite /g. cbn [run foldl]. rewrite /command Apply_Some. cbn [dispatch]. by rewrite /leaseKeepAlive /= Hls. }
  rewrite /command !Apply_Some !Apply_answer. cbn [dispatch].
  rewrite /leaseKeepAlive /leaseExpire /= Hls /= Elg lookup_insert_eq /= Ed.
  destruct (Z.ltb_spec later (now + ls_ttlMS ls * Millisecond)) as [_|?]; [|lia].
  simpl. split_and!; [by eauto|by eauto|exact Elk|by rewrite ?Elg ?Ed].
Qed.

Lemma renewed_lease_survives_witness :
  locks (Apply (run (run (New None) demo) [command (LeaseKeepAlive "a" 900000000)])
               (command (LeaseExpire "a" 1000000000))).1 = locks (run (New None) demo).
Proof.
  destruct (renewed_lease_survives None demo "a" {| ls_clientID := "a"; ls_ttlMS := 1000;
      ls_expireAt := 1000000000; ls_held := {["/team/x"]}; ls_waiting := ∅ |} 900000000 1000000000)
    as (_ & _ & H & _); [by repeat constructor|by vm_compute|done|done|done|done|exact H].
Defined.

(** A grant is real.  When an acquire, try-lock or campaign is answered with
    "granted", the client holds the key in the new state under exactly the
    token and value of the answer. *)
Theorem granted_answer nt cmds k c v cmd r :
  Forall command_ok cmds →
  let f := run (New nt) cmds in
  cmd = Campaign k c v ∨ (∃ try, cmd = AcquireLock k c try) →
  (Apply f (command cmd)).2 = Ok r → r_Outcome r = OUTCOME_GRANTED →
  ∃ lk, locks (Apply f (command cmd)).1 !! k = Some lk ∧ lk_holder lk = c ∧
        r_FencingToken r = lk_token lk ∧ r_Value r = lk_value lk.
Proof.
  intros Hok f Hcmd. pose proof (run_wf (New nt) cmds (wf_New nt) Hok) as Hwf.
  rewrite /command Apply_Some Apply_answer. intros [= <-].
  destruct Hcmd as [->|(try & ->)]; apply acquire_granted; by apply incr_revision_wf.
Qed.

Lemma granted_answer_witness :
  ∃ lk, locks (Apply (run (New None) demo) (command (Campaign "/team/y" "b" (Some "v")))).1 !! "/team/y" = Some lk ∧
        lk_holder lk = "b" ∧ 4 = lk_token lk ∧ Some "v" = lk_value lk.
Proof.
  eapply (granted_answer None demo "/team/y" "b" (Some "v") (Campaign "/team/y" "b" (Some "v"))
    {| r_Outcome := OUTCOME_GRANTED; r_Revision := 7; r_FencingToken := 4; r_LockKey := "/team/y";
       r_QueuePosition := 0; r_CurrentHolder := ""; r_LeaseDeadline := 0; r_Value := Some "v" |});
    [by repeat constructor|by left|by vm_compute|done].
Defined.

(** C19: snapshot and restore round trip.  Restoring the snapshot of any reachable
    state into any state machine, in whatever order the runtime ranges over the
    rebuilt lock map, gives back that state, with the notifier of the machine it
    is restored into. *)
Theorem snapshot_restore nt cmds g order :
  Forall command_ok cmds →
  let f := run (New nt) cmds in
  order ≡ₚ (map_to_list (restoreLocks (snapshot f))).*2 →
  RestoreInOrder g (snapshot f) order = with_notifier f (notifier g).
Proof.
  intros Hok f Ho. rewrite (RestoreInOrder_perm g _ _ _ Ho). apply Restore_snapshot, run_wf; [apply wf_New|done].
Qed.

Lemma snapshot_restore_witness :
  RestoreInOrder (New None) (snapshot (run (New (Some [])) demo)) (map_to_list (locks (run (New None) demo))).*2 =
    run (New None) demo.
Proof.
  rewrite (snapshot_restore (Some []) demo (New None)); [by repeat constructor|by vm_compute|].
  vm_compute. reflexivity.
Defined.

(** Replicas agree.  A replica that restores a snapshot of the leader and
    replays the rest of the log answers every command and query exactly as one
    that applied the whole log, whatever notifiers the two have. *)
Theorem replicas_agree nt nt' pre post c q :
  Forall command_ok pre →
  let behind := run (Restore (New nt') (snapshot (run (New nt) pre))) post in
  let full := run (New nt) (pre ++ post) in
  same behind full ∧ (Apply behind c).2 = (Apply full c).2 ∧ query behind q = query full q ∧
  snapshot behind = snapshot full.
Proof.
  intros Hok behind full.
  assert (same behind full) as Hs.
  { rewrite /behind /full Restore_snapshot ?run_app; [by apply run_wf; [apply wf_New|]|].
    by rewrite (same_with_notifier (run (New nt) pre)). }
  split_and!; [done|apply (Apply_same _ _ Hs c c eq_refl)|by apply query_same|by apply snapshot_same].
Qed.

Lemma replicas_agree_witness :
  query (run (Restore (New None) (snapshot (run (New (Some [])) demo))) [command (LeaseRevoke "a")])
        (StatusQuery "/team/x") =
  query (run (New (Some [])) (demo ++ [command (LeaseRevoke "a")])) (StatusQuery "/team/x").
Proof.
  destruct (replicas_agree (Some []) None demo [command (LeaseRevoke "a")] None (StatusQuery "/team/x"))
    as (_ & _ & H & _); [by repeat constructor|exact H].
Defined.

(** The expiry scan is exact.  The due-leases query returns, in ascending
    order without repetition, exactly the clients whose expiry at that time is
    carried out. *)
Theorem due_leases_exact nt cmds now :
  Forall command_ok cmds →
  let f := run (New nt) cmds in
  StronglySorted String.le (dueLeases f now) ∧ NoDup (dueLeases f now) ∧
  ∀ c, c ∈ dueLeases f now ↔
    ∃ r, (Apply f (command (LeaseExpire c now))).2 = Ok r ∧ r_Outcome r = OUTCOME_LEASE_EXPIRED.
Proof.
  intros Hok f. split_and!.
  - eapply StronglySorted_sublist; [apply dueFrom_sublist|apply sortedSet_sorted].
  - eapply sublist_NoDup; [apply (NoDup_sortedKeys (leases f))|apply dueFrom_sublist].
  - intros c. rewrite elem_of_dueLeases /command Apply_answer. cbn [dispatch]. rewrite /leaseExpire /=.
    destruct (leases f !! c) as [ls|]; [|naive_solver].
    destruct (Z.ltb_spec now (ls_expireAt ls)); split.
    + intros (ls' & ? & ?). simplify_eq. lia.
    + intros (r & [= <-] & ?). done.
    + intros _. by eexists.
    + intros _. by exists ls.
Qed.

Lemma due_leases_exact_witness : "b" ∈ dueLeases (run (New None) demo) 2000000000.
Proof.
  destruct (due_leases_exact None demo 2000000000) as (_ & _ & H); [by repeat constructor|].
  apply H. eexists. split; by vm_compute.
Defined.

(** The listing is exact.  Listing a prefix returns, in ascending order of
    name without repetition, one summary for exactly the held keys that lie at
    or below the prefix on a path-segment boundary. *)
Theorem list_locks_exact nt cmds p :
  Forall command_ok cmds →
  let f := run (New nt) cmds in
  let out := lsums_Locks (listLocks f p) in
  StronglySorted String.le (lsum_Name <$> out) ∧ NoDup (lsum_Name <$> out) ∧
  ∀ s, s ∈ out ↔ ∃ n lk, locks f !! n = Some lk ∧ Keypath.HasPrefix p n = true ∧ s = summary_of n lk.
Proof.
  intros Hok f out. pose proof (run_wf (New nt) cmds (wf_New nt) Hok) as Hwf. split_and!.
  - eapply StronglySorted_sublist; [apply listFrom_names|apply sortedSet_sorted].
  - eapply sublist_NoDup; [apply (NoDup_sortedKeys (locks f))|apply listFrom_names].
  - intros s. rewrite /out /= elem_of_listFrom //. setoid_rewrite elem_of_sortedKeys. naive_solver.
Qed.

Lemma list_locks_exact_witness :
  NoDup (lsum_Name <$> lsums_Locks (listLocks (run (New None) demo) "/team")).
Proof.
  destruct (list_locks_exact None demo "/team") as (_ & H & _); [by repeat constructor|exact H].
Defined.

(** Queue positions agree.  For a key with fewer than 2^32 waiters, the
    position a client is told when it asks again for a key it waits on is the
    position the waiters query lists it under, counted from 1, and the queue
    depth of the status query is the number of entries. *)
Theorem queue_positions_agree nt cmds k lk c :
  Forall command_ok cmds →
  let f := run (New nt) cmds in
  locks f !! k = Some lk → Z.of_nat (length (lk_queue lk)) < 2 ^ 32 → c ∈ queue_ids lk →
  ∃ i e r, ws_Entries (waiters f k) !! i = Some e ∧ wi_ClientID e = c ∧
    wi_Position e = Z.of_nat i + 1 ∧
    (Apply f (command (AcquireLock k c false))).2 = Ok r ∧
    r_Outcome r = OUTCOME_QUEUED ∧ r_QueuePosition r = wi_Position e ∧
    st_QueueDepth (status f k) = Z.of_nat (length (ws_Entries (waiters f k))).
Proof.
  intros Hok f Hk Hlen Hc. pose proof (run_wf (New nt) cmds (wf_New nt) Hok) as Hwf.
  destruct (queuePosFrom_spec 0 (lk_queue lk) c Hc) as (q1 & w & q2 & Eq & Hw & _ & Epos).
  assert (u32 (0 + Z.of_nat (length q1) + 1) = Z.of_nat (length q1) + 1) as E32.
  { rewrite Eq length_app /= in Hlen. rewrite u32_small; lia. }
  rewrite /waiters /status Hk bool_decide_eq_false_2; [by destruct (wfx_locks _ _ _ _ Hwf _ _ Hk)|].
  rewrite /command Apply_answer. cbn [dispatch].
  rewrite (acquire_again _ k c None lk (incr_revision_wf f Hwf) Hk Hc).
  eexists (length q1), _, _. cbn [ws_Entries st_QueueDepth r_Outcome r_QueuePosition]. split_and!;
    [rewrite Eq; apply lookup_entriesFrom|done|by rewrite /= E32|done|done|done|].
  rewrite /queueDepth length_entriesFrom u32_small; lia.
Qed.

Lemma queue_positions_agree_witness :
  ∃ i e, ws_Entries (waiters (run (New None) demo) "/team/x") !! i = Some e ∧ wi_ClientID e = "c" ∧
    wi_Position e = Z.of_nat i + 1.
Proof.
  edestruct (queue_positions_agree None demo "/team/x") with (c := "c")
    as (i & e & _ & H1 & H2 & H3 & _); [by repeat constructor|by vm_compute|by vm_compute| |].
  - right. left.
  - exists i, e. split; [exact H1|]. split; [exact H2|exact H3].
Defined.
