(* ===== verification/Raftpb.v ===== *)
(** * Messages, entries and snapshots of the Raft library

    internal/dragonboat/raftpb: the data the Raft nodes exchange and store, and
    the predicates and sizes raft.go computes of them.  Numbers are uint64 kept
    as [Z].  Fields of a snapshot that only describe its files on disk are kept
    as far as the protocol copies or clears them. *)
From S2P Require Import Prelude.
From Stdlib Require Import Ascii.

Local Open Scope Z_scope.

(** ** raft.pb.go *)
Inductive MessageType :=
| LocalTick | Election | LeaderHeartbeat | ConfigChangeEvent | NoOP | Ping | Pong | Propose | SnapshotStatus
| Unreachable | CheckQuorum | BatchedReadIndex | Replicate | ReplicateResp | RequestVote | RequestVoteResp
| InstallSnapshot | Heartbeat | HeartbeatResp | ReadIndex | ReadIndexResp | Quiesce | SnapshotReceived
| LeaderTransfer | TimeoutNow | RateLimit.

#[export] Instance MessageType_eq_dec : EqDecision MessageType.
Proof. solve_decision. Defined.

Inductive EntryType := ApplicationEntry | ConfigChangeEntry | EncodedEntry | MetadataEntry.

#[export] Instance EntryType_eq_dec : EqDecision EntryType.
Proof. solve_decision. Defined.

Inductive ConfigChangeType := AddNode | RemoveNode | AddObserver | AddWitness.

#[export] Instance ConfigChangeType_eq_dec : EqDecision ConfigChangeType.
Proof. solve_decision. Defined.

Record Entry := {
  e_Term : Z;
  e_Index : Z;
  e_Type : EntryType;
  e_Key : Z;
  e_ClientID : Z;
  e_SeriesID : Z;
  e_RespondedTo : Z;
  e_Cmd : list ascii
}.

#[export] Instance Entry_eta : Eta Entry := λ e,
  Build_Entry (e_Term e) (e_Index e) (e_Type e) (e_Key e) (e_ClientID e) (e_SeriesID e) (e_RespondedTo e) (e_Cmd e).

#[export] Instance Entry_eq_dec : EqDecision Entry.
Proof. solve_decision. Defined.

(** [pb.Entry{}] *)
Definition noEntry : Entry :=
  {| e_Term := 0; e_Index := 0; e_Type := ApplicationEntry; e_Key := 0; e_ClientID := 0; e_SeriesID := 0;
     e_RespondedTo := 0; e_Cmd := [] |}.

Record State := { ps_Term : Z; ps_Vote : Z; ps_Commit : Z }.

#[export] Instance State_eq_dec : EqDecision State.
Proof. solve_decision. Defined.

Record Membership := {
  mb_ConfigChangeId : Z;
  mb_Addresses : gmap Z string;
  mb_Removed : gmap Z bool;
  mb_Observers : gmap Z string;
  mb_Witnesses : gmap Z string
}.

#[export] Instance Membership_eta : Eta Membership := λ m,
  Build_Membership (mb_ConfigChangeId m) (mb_Addresses m) (mb_Removed m) (mb_Observers m) (mb_Witnesses m).

#[export] Instance Membership_eq_dec : EqDecision Membership.
Proof. solve_decision. Defined.

Definition noMembership : Membership :=
  {| mb_ConfigChangeId := 0; mb_Addresses := ∅; mb_Removed := ∅; mb_Observers := ∅; mb_Witnesses := ∅ |}.

Record SnapshotFile := { sf_Filepath : string; sf_FileSize : Z; sf_FileId : Z; sf_Metadata : list ascii }.

#[export] Instance SnapshotFile_eq_dec : EqDecision SnapshotFile.
Proof. solve_decision. Defined.

Record Snapshot := {
  ss_Filepath : string;
  ss_FileSize : Z;
  ss_Index : Z;
  ss_Term : Z;
  ss_Membership : Membership;
  ss_Files : list SnapshotFile;
  ss_Checksum : list ascii;
  ss_Dummy : bool;
  ss_ClusterId : Z;
  ss_Type : Z;
  ss_Imported : bool;
  ss_OnDiskIndex : Z;
  ss_Witness : bool
}.

#[export] Instance Snapshot_eta : Eta Snapshot := λ s,
  Build_Snapshot (ss_Filepath s) (ss_FileSize s) (ss_Index s) (ss_Term s) (ss_Membership s) (ss_Files s)
    (ss_Checksum s) (ss_Dummy s) (ss_ClusterId s) (ss_Type s) (ss_Imported s) (ss_OnDiskIndex s) (ss_Witness s).

#[export] Instance Snapshot_eq_dec : EqDecision Snapshot.
Proof. solve_decision. Defined.

Definition noSnapshot : Snapshot :=
  {| ss_Filepath := ""; ss_FileSize := 0; ss_Index := 0; ss_Term := 0; ss_Membership := noMembership; ss_Files := [];
     ss_Checksum := []; ss_Dummy := false; ss_ClusterId := 0; ss_Type := 0; ss_Imported := false;
     ss_OnDiskIndex := 0; ss_Witness := false |}.

Record Message := {
  m_Type : MessageType;
  m_To : Z;
  m_From : Z;
  m_ClusterId : Z;
  m_Term : Z;
  m_LogTerm : Z;
  m_LogIndex : Z;
  m_Commit : Z;
  m_Reject : bool;
  m_Hint : Z;
  m_Entries : list Entry;
  m_Snapshot : Snapshot;
  m_HintHigh : Z
}.

#[export] Instance Message_eta : Eta Message := λ m,
  Build_Message (m_Type m) (m_To m) (m_From m) (m_ClusterId m) (m_Term m) (m_LogTerm m) (m_LogIndex m) (m_Commit m)
    (m_Reject m) (m_Hint m) (m_Entries m) (m_Snapshot m) (m_HintHigh m).

#[export] Instance Message_eq_dec : EqDecision Message.
Proof. solve_decision. Defined.

(** [pb.Message{Type: t}] *)
Definition msg (t : MessageType) : Message :=
  {| m_Type := t; m_To := 0; m_From := 0; m_ClusterId := 0; m_Term := 0; m_LogTerm := 0; m_LogIndex := 0; m_Commit := 0;
     m_Reject := false; m_Hint := 0; m_Entries := []; m_Snapshot := noSnapshot; m_HintHigh := 0 |}.

(** ** raft.go *)
Record SystemCtx := { sc_Low : Z; sc_High : Z }.

#[export] Instance SystemCtx_eq_dec : EqDecision SystemCtx.
Proof. solve_decision. Defined.
#[export] Instance SystemCtx_countable : Countable SystemCtx.
Proof.
  refine (inj_countable' (λ c, (sc_Low c, sc_High c)) (λ p, {| sc_Low := p.1; sc_High := p.2 |}) _). by intros [].
Defined.

Definition zeroCtx : SystemCtx := {| sc_Low := 0; sc_High := 0 |}.

Record ReadyToRead := { rr_Index : Z; rr_SystemCtx : SystemCtx }.

Record UpdateCommit := {
  uc_Processed : Z;
  uc_LastApplied : Z;
  uc_StableLogTo : Z;
  uc_StableLogTerm : Z;
  uc_StableSnapshotTo : Z;
  uc_ReadyToRead : Z
}.

Definition emptyState : State := {| ps_Term := 0; ps_Vote := 0; ps_Commit := 0 |}.

Definition IsStateEqual (a b : State) : bool :=
  (ps_Term a =? ps_Term b) && (ps_Vote a =? ps_Vote b) && (ps_Commit a =? ps_Commit b).
Definition IsEmptyState (st : State) : bool := IsStateEqual st emptyState.
Definition IsEmptySnapshot (s : Snapshot) : bool := ss_Index s =? 0.

Definition NoNode : Z := 0.
Definition NoLeader : Z := 0.

(** [Entry.SizeUpperLimit] is an int, the sums are uint64. *)
Definition EntryNonCmdFieldsSize : Z := 16 * 8.
Definition SizeUpperLimit (e : Entry) : Z := EntryNonCmdFieldsSize + Z.of_nat (length (e_Cmd e)).

Definition GetEntrySliceSize (ents : list Entry) : Z :=
  foldl (λ sz e, u64 (sz + u64 (SizeUpperLimit e))) 0 ents.

(** [unsafe.Sizeof(pb.Entry{})]: seven words and a slice header. *)
Definition entryStructSize : Z := 80.
Definition GetEntrySliceInMemSize (ents : list Entry) : Z :=
  foldl (λ sz e, u64 (u64 (sz + Z.of_nat (length (e_Cmd e))) + entryStructSize)) 0 ents.

Definition CanDrop (m : Message) : bool :=
  negb (bool_decide (m_Type m = InstallSnapshot)) && negb (bool_decide (m_Type m = Unreachable)) &&
  negb (bool_decide (m_Type m = SnapshotStatus)).

Section lemmas.
Lemma IsStateEqual_spec a b : IsStateEqual a b = true ↔ a = b.
Proof.
  rewrite /IsStateEqual !andb_true_iff !Z.eqb_eq. destruct a, b; simpl. naive_solver.
Qed.
End lemmas.
