(* ===== verification/RaftLog.v ===== *)
(** * The log of a Raft node

    internal/dragonboat/internal/raft/logentry.go, inmemory.go and entryutils.go,
    with the rate limiter of internal/dragonboat/internal/server/rate.go.  A
    function that can panic returns an [option], [None] being the panic.  The
    limiter is one object shared by the node and its log; it is kept in the
    in-memory log.  The capacity of the entry slice, and [shrunk] which only
    drives its reallocation, are not part of the state.

    The stored part of the log is seen through the [ILogDB] interface, a record
    of the answers it gives. *)
From S2P Require Import Prelude Raftpb.
From Stdlib Require Import Ascii.

Local Open Scope Z_scope.

(** ** rate.go *)
Record followerState := { fs_tick : Z; fs_inMemLogSize : Z }.

Record RateLimiter := {
  rl_tick : Z;
  rl_tickLimited : Z;
  rl_size : Z;
  rl_maxSize : Z;
  rl_followerSizes : gmap Z followerState;
  rl_limited : bool
}.
#[export] Instance RateLimiter_eta : Eta RateLimiter := λ r,
  Build_RateLimiter (rl_tick r) (rl_tickLimited r) (rl_size r) (rl_maxSize r) (rl_followerSizes r) (rl_limited r).

Module rate.
Definition gcTick : Z := 3.
Definition ChangeTickThreashold : Z := 10.

Definition NewInMemRateLimiter (maxSize : Z) : RateLimiter :=
  {| rl_tick := 1; rl_tickLimited := 0; rl_size := 0; rl_maxSize := maxSize; rl_followerSizes := ∅; rl_limited := false |}.

Definition Enabled (r : RateLimiter) : bool := (0 <? rl_maxSize r) && negb (rl_maxSize r =? 2 ^ 64 - 1).
Definition Tick (r : RateLimiter) : RateLimiter := r <| rl_tick ::= λ t, u64 (t + 1) |>.
Definition Increase (r : RateLimiter) (sz : Z) : RateLimiter := r <| rl_size ::= λ s, u64 (s + sz) |>.
(** Adding the complement of [sz - 1]. *)
Definition Decrease (r : RateLimiter) (sz : Z) : RateLimiter := r <| rl_size ::= λ s, u64 (s + (2 ^ 64 - 1 - u64 (sz - 1))) |>.
Definition Set_ (r : RateLimiter) (sz : Z) : RateLimiter := r <| rl_size := sz |>.
Definition Get (r : RateLimiter) : Z := rl_size r.
Definition Reset (r : RateLimiter) : RateLimiter := r <| rl_followerSizes := ∅ |>.
Definition SetFollowerState (r : RateLimiter) (nodeID sz : Z) : RateLimiter :=
  r <| rl_followerSizes ::= <[nodeID := {| fs_tick := rl_tick r; fs_inMemLogSize := sz |}]> |>.

Definition stale (r : RateLimiter) (v : followerState) : bool := gcTick <? u64 (rl_tick r - fs_tick v).
Definition gc (r : RateLimiter) : RateLimiter :=
  r <| rl_followerSizes ::= filter (λ p, stale r p.2 = false) |>.

(** [gc] changes nothing when no follower is stale, and is called otherwise. *)
Definition limitedByInMemSize (r : RateLimiter) : RateLimiter * bool :=
  if negb (Enabled r) then (r, false)
  else
    let fresh := filter (λ p, stale r p.2 = false) (rl_followerSizes r) in
    let m := map_fold (λ _ v m, if m <? fs_inMemLogSize v then fs_inMemLogSize v else m) 0 fresh in
    let m := if m <? Get r then Get r else m in
    (gc r, if negb (rl_limited r) then rl_maxSize r <? m else Z.quot (u64 (rl_maxSize r * 7)) 10 <=? m).

Definition RateLimited (r : RateLimiter) : RateLimiter * bool :=
  let '(r1, limited) := limitedByInMemSize r in
  let r2 :=
    if negb (Bool.eqb limited (rl_limited r1)) &&
       ((rl_tickLimited r1 =? 0) || (ChangeTickThreashold <? u64 (rl_tick r1 - rl_tickLimited r1)))
    then r1 <| rl_limited := limited |> <| rl_tickLimited := rl_tick r1 |>
    else r1 in
  (r2, rl_limited r2).
End rate.

(** ** entryutils.go *)
Definition countConfigChange (entries : list Entry) : Z :=
  Z.of_nat (length (filter (λ e, e_Type e = ConfigChangeEntry) entries)).

(** The panics on a hole and on a decreasing term. *)
Definition checkEntriesToAppend (ents toAppend : list Entry) : option unit :=
  match last ents, head toAppend with
  | Some l, Some f =>
      if negb (u64 (e_Index l + 1) =? e_Index f) then None else if e_Term f <? e_Term l then None else Some tt
  | _, _ => Some tt
  end.

Fixpoint limitFrom (total limit : Z) (ents : list Entry) : list Entry :=
  match ents with
  | [] => []
  | e :: ents => if limit <? total + SizeUpperLimit e then [] else e :: limitFrom (total + SizeUpperLimit e) limit ents
  end.
Definition limitSize (ents : list Entry) (limit : Z) : list Entry :=
  match ents with
  | [] => []
  | e :: ents => e :: limitFrom (SizeUpperLimit e) limit ents
  end.

Definition isLocalMessageType (t : MessageType) : bool :=
  match t with
  | Election | LeaderHeartbeat | Unreachable | SnapshotStatus | CheckQuorum | LocalTick | BatchedReadIndex => true
  | _ => false
  end.
Definition isResponseMessageType (t : MessageType) : bool :=
  match t with
  | ReplicateResp | RequestVoteResp | HeartbeatResp | ReadIndexResp | Unreachable | SnapshotStatus | LeaderTransfer => true
  | _ => false
  end.

(** ** The stored log *)
Inductive LogError := ErrCompacted | ErrUnavailable | ErrSnapshotOutOfDate | OtherLogError.

#[export] Instance LogError_eq_dec : EqDecision LogError.
Proof. solve_decision. Defined.

(** What the [ILogDB] methods the protocol calls return. *)
Record LogDB := {
  GetRange : Z * Z;
  NodeState : State * Membership;
  TermOf : Z → result Z LogError;
  EntriesOf : Z → Z → Z → result (list Entry) LogError;
  SnapshotOf : Snapshot
}.

(** ** inmemory.go *)
Record inMemory := {
  im_snapshot : option Snapshot;
  im_entries : list Entry;
  im_markerIndex : Z;
  im_appliedToIndex : Z;
  im_appliedToTerm : Z;
  im_savedTo : Z;
  im_rl : RateLimiter
}.
#[export] Instance inMemory_eta : Eta inMemory := λ i,
  Build_inMemory (im_snapshot i) (im_entries i) (im_markerIndex i) (im_appliedToIndex i) (im_appliedToTerm i)
    (im_savedTo i) (im_rl i).

Module inmem.
Definition newInMemory (lastIndex : Z) (rl : RateLimiter) : inMemory :=
  {| im_snapshot := None; im_entries := []; im_markerIndex := u64 (lastIndex + 1); im_appliedToIndex := 0;
     im_appliedToTerm := 0; im_savedTo := lastIndex; im_rl := rl |}.

Definition len (im : inMemory) : Z := Z.of_nat (length (im_entries im)).

Definition checkMarkerIndex (im : inMemory) : option unit :=
  match head (im_entries im) with
  | Some e => if e_Index e =? im_markerIndex im then Some tt else None
  | None => Some tt
  end.

(** A Go slice expression [s[low:high]]; the panics of its bounds. *)
Definition slice {A} (l : list A) (low high : Z) : option (list A) :=
  if (0 <=? low) && (low <=? high) && (high <=? Z.of_nat (length l)) then
    Some (take (Z.to_nat (high - low)) (drop (Z.to_nat low) l))
  else None.

(** An index expression [s[i]]. *)
Definition index {A} (l : list A) (i : Z) : option A := if i <? 0 then None else l !! Z.to_nat i.

Definition getEntries (im : inMemory) (low high : Z) : option (list Entry) :=
  let upperBound := u64 (im_markerIndex im + len im) in
  if (high <? low) || (low <? im_markerIndex im) then None
  else if upperBound <? high then None
  else slice (im_entries im) (low - im_markerIndex im) (high - im_markerIndex im).

Definition getSnapshotIndex (im : inMemory) : option Z := ss_Index <$> im_snapshot im.

Definition getLastIndex (im : inMemory) : option Z :=
  match last (im_entries im) with Some e => Some (e_Index e) | None => getSnapshotIndex im end.

(** [getTerm]: the outer [None] is a panic, the inner one the result false. *)
Definition getTerm (im : inMemory) (i : Z) : option (option Z) :=
  if (0 <? i) && (i =? im_appliedToIndex im) then
    if im_appliedToTerm im =? 0 then None else Some (Some (im_appliedToTerm im))
  else if i <? im_markerIndex im then
    Some match im_snapshot im with
         | Some ss => if ss_Index ss =? i then Some (ss_Term ss) else None
         | None => None
         end
  else
    match getLastIndex im with
    | Some lastIndex =>
        if i <=? lastIndex then
          match index (im_entries im) (u64 (i - im_markerIndex im)) with
          | Some e => Some (Some (e_Term e))
          | None => None
          end
        else Some None
    | None => Some None
    end.

Definition entriesToSave (im : inMemory) : option (list Entry) :=
  let off := u64 (u64 (im_savedTo im + 1) - im_markerIndex im) in
  if len im <? off then Some [] else slice (im_entries im) off (len im).

Definition savedLogTo (im : inMemory) (i term : Z) : option inMemory :=
  if i <? im_markerIndex im then Some im
  else match last (im_entries im) with
       | None => Some im
       | Some l =>
           if e_Index l <? i then Some im
           else match index (im_entries im) (i - im_markerIndex im) with
                | None => None
                | Some e => if negb (term =? e_Term e) then Some im else Some (im <| im_savedTo := i |>)
                end
       end.

Definition rateLimited (im : inMemory) : bool := rate.Enabled (im_rl im).

Definition limit (f : RateLimiter → RateLimiter) (im : inMemory) : inMemory :=
  if rateLimited im then im <| im_rl ::= f |> else im.

Definition appliedLogTo (im : inMemory) (i : Z) : option inMemory :=
  if i <? im_markerIndex im then Some im
  else match last (im_entries im) with
       | None => Some im
       | Some l =>
           if e_Index l <? i then Some im
           else
             e ← index (im_entries im) (i - im_markerIndex im);
             if negb (e_Index e =? i) then None
             else
               let newMarkerIndex := u64 (i + 1) in
               applied ← slice (im_entries im) 0 (u64 (newMarkerIndex - im_markerIndex im));
               rest ← slice (im_entries im) (u64 (newMarkerIndex - im_markerIndex im)) (len im);
               let im1 := im <| im_appliedToIndex := e_Index e |> <| im_appliedToTerm := e_Term e |>
                             <| im_entries := rest |> <| im_markerIndex := newMarkerIndex |> in
               _ ← checkMarkerIndex im1;
               Some (limit (λ rl, rate.Decrease rl (GetEntrySliceInMemSize applied)) im1)
       end.

Definition savedSnapshotTo (im : inMemory) (i : Z) : inMemory :=
  match getSnapshotIndex im with
  | Some idx => if idx =? i then im <| im_snapshot := None |> else im
  | None => im
  end.

Definition commitUpdate (im : inMemory) (cu : UpdateCommit) : option inMemory :=
  im1 ← (if 0 <? uc_StableLogTo cu then savedLogTo im (uc_StableLogTo cu) (uc_StableLogTerm cu) else Some im);
  Some (if 0 <? uc_StableSnapshotTo cu then savedSnapshotTo im1 (uc_StableSnapshotTo cu) else im1).

Definition merge (im : inMemory) (ents : list Entry) : option inMemory :=
  first ← head ents;
  let firstNewIndex := e_Index first in
  im1 ←
    (if firstNewIndex =? u64 (im_markerIndex im + len im) then
       _ ← checkEntriesToAppend (im_entries im) ents;
       Some (limit (λ rl, rate.Increase rl (GetEntrySliceInMemSize ents)) (im <| im_entries := im_entries im ++ ents |>))
     else if firstNewIndex <=? im_markerIndex im then
       Some (limit (λ rl, rate.Set_ rl (GetEntrySliceInMemSize ents))
         (im <| im_markerIndex := firstNewIndex |> <| im_entries := ents |> <| im_savedTo := u64 (firstNewIndex - 1) |>))
     else
       existing ← getEntries im (im_markerIndex im) firstNewIndex;
       _ ← checkEntriesToAppend existing ents;
       Some (limit (λ rl, rate.Set_ rl (u64 (GetEntrySliceInMemSize ents + GetEntrySliceInMemSize existing)))
         (im <| im_entries := existing ++ ents |> <| im_savedTo ::= λ s, Z.min s (u64 (firstNewIndex - 1)) |>)));
  _ ← checkMarkerIndex im1;
  Some im1.

Definition restore (im : inMemory) (ss : Snapshot) : inMemory :=
  limit (λ rl, rate.Set_ rl 0)
    (im <| im_snapshot := Some ss |> <| im_markerIndex := u64 (ss_Index ss + 1) |> <| im_appliedToIndex := ss_Index ss |>
        <| im_appliedToTerm := ss_Term ss |> <| im_entries := [] |> <| im_savedTo := ss_Index ss |>).
End inmem.

(** ** logentry.go *)
Record entryLog := {
  el_logdb : LogDB;
  el_inmem : inMemory;
  el_committed : Z;
  el_processed : Z
}.
#[export] Instance entryLog_eta : Eta entryLog := λ l,
  Build_entryLog (el_logdb l) (el_inmem l) (el_committed l) (el_processed l).

Definition newEntryLog (logdb : LogDB) (rl : RateLimiter) : entryLog :=
  let '(firstIndex, lastIndex) := GetRange logdb in
  {| el_logdb := logdb; el_inmem := inmem.newInMemory lastIndex rl; el_committed := u64 (firstIndex - 1);
     el_processed := u64 (firstIndex - 1) |}.

Definition firstIndex (l : entryLog) : Z :=
  match inmem.getSnapshotIndex (el_inmem l) with Some i => u64 (i + 1) | None => (GetRange (el_logdb l)).1 end.

Definition lastIndex (l : entryLog) : Z :=
  match inmem.getLastIndex (el_inmem l) with Some i => i | None => (GetRange (el_logdb l)).2 end.

Definition termEntryRange (l : entryLog) : Z * Z := (u64 (firstIndex l - 1), lastIndex l).

Definition entryRange (l : entryLog) : option (Z * Z) :=
  match im_snapshot (el_inmem l), im_entries (el_inmem l) with
  | Some _, [] => None
  | _, _ => Some (firstIndex l, lastIndex l)
  end.

(** [term]: [None] is a panic. *)
Definition term (l : entryLog) (i : Z) : option (result Z LogError) :=
  let '(first, last) := termEntryRange l in
  if (i <? first) || (last <? i) then Some (Ok 0)
  else
    t ← inmem.getTerm (el_inmem l) i;
    match t with
    | Some t => Some (Ok t)
    | None =>
        match TermOf (el_logdb l) i with
        | Ok t => Some (Ok t)
        | Err ErrCompacted => Some (Err ErrCompacted)
        | Err ErrUnavailable => Some (Err ErrUnavailable)
        | Err _ => None
        end
    end.

Definition lastTerm (l : entryLog) : option Z :=
  t ← term l (lastIndex l);
  match t with Ok t => Some t | Err _ => None end.

Definition checkBound (l : entryLog) (low high : Z) : option (result unit LogError) :=
  if high <? low then None
  else match entryRange l with
       | None => Some (Err ErrCompacted)
       | Some (first, last) =>
           if low <? first then Some (Err ErrCompacted) else if u64 (last + 1) <? high then None else Some (Ok tt)
       end.

(** [getEntriesFromLogDB]: the entries and whether to go on in memory. *)
Definition getEntriesFromLogDB (l : entryLog) (low high maxSize : Z) : option (result (list Entry * bool) LogError) :=
  if im_markerIndex (el_inmem l) <=? low then Some (Ok ([], true))
  else
    let upperBound := Z.min high (im_markerIndex (el_inmem l)) in
    match EntriesOf (el_logdb l) low upperBound maxSize with
    | Err ErrCompacted => Some (Err ErrCompacted)
    | Err _ => None
    | Ok ents =>
        let n := Z.of_nat (length ents) in
        if upperBound - low <? n then None else Some (Ok (ents, n =? upperBound - low))
    end.

Definition getEntriesFromInMem (l : entryLog) (ents : list Entry) (low high : Z) : option (list Entry) :=
  if high <=? im_markerIndex (el_inmem l) then Some ents
  else
    let lowerBound := Z.max low (im_markerIndex (el_inmem l)) in
    inm ← inmem.getEntries (el_inmem l) lowerBound high;
    match inm, ents with
    | [], _ => Some ents
    | _, [] => Some inm
    | _, _ => _ ← checkEntriesToAppend ents inm; Some (ents ++ inm)
    end.

Definition getUncommittedEntries (l : entryLog) : option (list Entry) :=
  let lastIndex := u64 (im_markerIndex (el_inmem l) + inmem.len (el_inmem l)) in
  getEntriesFromInMem l [] (u64 (el_committed l + 1)) lastIndex.

Definition getEntries (l : entryLog) (low high maxSize : Z) : option (result (list Entry) LogError) :=
  b ← checkBound l low high;
  match b with
  | Err e => Some (Err e)
  | Ok _ =>
      if low =? high then Some (Ok [])
      else
        d ← getEntriesFromLogDB l low high maxSize;
        match d with
        | Err e => Some (Err e)
        | Ok (ents, checkInMem) =>
            if negb checkInMem then Some (Ok ents)
            else ents ← getEntriesFromInMem l ents low high; Some (Ok (limitSize ents maxSize))
        end
  end.

Definition entries (l : entryLog) (start maxSize : Z) : option (result (list Entry) LogError) :=
  if lastIndex l <? start then Some (Ok []) else getEntries l start (u64 (lastIndex l + 1)) maxSize.

Definition snapshot (l : entryLog) : Snapshot :=
  match im_snapshot (el_inmem l) with Some ss => ss | None => SnapshotOf (el_logdb l) end.

Definition firstNotAppliedIndex (l : entryLog) : Z := Z.max (u64 (el_processed l + 1)) (firstIndex l).
Definition toApplyIndexLimit (l : entryLog) : Z := u64 (el_committed l + 1).
Definition hasEntriesToApply (l : entryLog) : bool := firstNotAppliedIndex l <? toApplyIndexLimit l.
Definition hasMoreEntriesToApply (l : entryLog) (appliedTo : Z) : bool := appliedTo <? el_committed l.

Definition getEntriesToApply (l : entryLog) (limit : Z) : option (list Entry) :=
  if hasEntriesToApply l then
    r ← getEntries l (firstNotAppliedIndex l) (toApplyIndexLimit l) limit;
    match r with Ok ents => Some ents | Err _ => None end
  else Some [].

Definition entriesToSave (l : entryLog) : option (list Entry) := inmem.entriesToSave (el_inmem l).

Definition matchTerm (l : entryLog) (i t : Z) : option bool :=
  r ← term l i;
  Some match r with Ok lt => lt =? t | Err _ => false end.

Fixpoint getConflictIndex (l : entryLog) (ents : list Entry) : option Z :=
  match ents with
  | [] => Some 0
  | e :: ents =>
      b ← matchTerm l (e_Index e) (e_Term e);
      if (b : bool) then getConflictIndex l ents else Some (e_Index e)
  end.

Definition append (l : entryLog) (ents : list Entry) : option entryLog :=
  match head ents with
  | None => Some l
  | Some e =>
      if e_Index e <=? el_committed l then None
      else im ← inmem.merge (el_inmem l) ents; Some (l <| el_inmem := im |>)
  end.

(** [tryAppend]: its boolean result is not used by any caller. *)
Definition tryAppend (l : entryLog) (i : Z) (ents : list Entry) : option entryLog :=
  conflictIndex ← getConflictIndex l ents;
  if conflictIndex =? 0 then Some l
  else if conflictIndex <=? el_committed l then None
  else
    rest ← inmem.slice ents (u64 (conflictIndex - i - 1)) (Z.of_nat (length ents));
    append l rest.

Definition commitTo (l : entryLog) (i : Z) : option entryLog :=
  if i <=? el_committed l then Some l
  else if lastIndex l <? i then None
  else Some (l <| el_committed := i |>).

Definition commitUpdate (l : entryLog) (cu : UpdateCommit) : option entryLog :=
  im ← inmem.commitUpdate (el_inmem l) cu;
  let l1 := l <| el_inmem := im |> in
  l2 ← (if 0 <? uc_Processed cu then
          if (uc_Processed cu <? el_processed l1) || (el_committed l1 <? uc_Processed cu) then None
          else Some (l1 <| el_processed := uc_Processed cu |>)
        else Some l1);
  if 0 <? uc_LastApplied cu then
    if el_committed l2 <? uc_LastApplied cu then None
    else if el_processed l2 <? uc_LastApplied cu then None
    else im ← inmem.appliedLogTo (el_inmem l2) (uc_LastApplied cu); Some (l2 <| el_inmem := im |>)
  else Some l2.

Definition upToDate (l : entryLog) (i t : Z) : option bool :=
  r ← term l (lastIndex l);
  match r with
  | Err _ => None
  | Ok lastTerm => Some (if lastTerm <=? t then if lastTerm <? t then true else lastIndex l <=? i else false)
  end.

Definition tryCommit (l : entryLog) (i t : Z) : option (entryLog * bool) :=
  if i <=? el_committed l then Some (l, false)
  else
    r ← term l i;
    lterm ← match r with Ok lt => Some lt | Err ErrCompacted => Some 0 | Err _ => None end;
    if lterm =? t then l ← commitTo l i; Some (l, true) else Some (l, false).

Definition restore (l : entryLog) (s : Snapshot) : entryLog :=
  l <| el_inmem ::= λ im, inmem.restore im s |> <| el_committed := ss_Index s |> <| el_processed := ss_Index s |>.
