(* ===== verification/LogReader.v ===== *)
(** * The stored log of a Raft node

    internal/dragonboat/internal/logdb: [LogReader] (logreader.go) and, below it,
    the records of one node in the plain format (plain.go, db.go).  The key-value
    store is a map; the keys of different nodes never meet, so one node's records
    are modelled.  A panic inside the store is the error [OtherLogError], which
    every caller turns into a panic. *)
From S2P Require Import Prelude Raftpb RaftLog.
From Stdlib Require Import Ascii.

Local Open Scope Z_scope.

(** ** The records of a node *)
Record Store := {
  st_entries : gmap Z Entry;
  st_maxIndex : option Z;
  st_state : option State;
  st_snapshots : gmap Z Snapshot
}.
#[export] Instance Store_eta : Eta Store := λ s,
  Build_Store (st_entries s) (st_maxIndex s) (st_state s) (st_snapshots s).

Definition emptyStore : Store := {| st_entries := ∅; st_maxIndex := None; st_state := None; st_snapshots := ∅ |}.

(** [record]: each entry under its index; the largest index. *)
Definition record (s : Store) (ents : list Entry) : Store * Z :=
  foldl (λ p e, (p.1 <| st_entries ::= <[e_Index e := e]> |>, if p.2 <? e_Index e then e_Index e else p.2)) (s, 0) ents.

(** An update of one node as [saveRaftState] writes it: the state unless it is
    empty, the snapshot with the index it ends at, the entries. *)
Definition saveRaftState (s : Store) (st : State) (ss : Snapshot) (ents : list Entry) : option Store :=
  let s := if IsEmptyState st then s else s <| st_state := Some st |> in
  s ← (if IsEmptySnapshot ss then Some s
       else
         _ ← match last ents with Some l => if e_Index l <? ss_Index ss then None else Some tt | None => Some tt end;
         Some (s <| st_snapshots ::= <[ss_Index ss := ss]> |> <| st_maxIndex := Some (ss_Index ss) |>));
  Some (match ents with
        | [] => s
        | _ => let '(s, mi) := record s ents in if 0 <? mi then s <| st_maxIndex := Some mi |> else s
        end).

Definition getEntry (s : Store) (i : Z) : result Entry LogError :=
  match st_entries s !! i with Some e => Ok e | None => Err OtherLogError end.

(** The loop of [iterate] over the keys from [expected], [n] at most. *)
Fixpoint iterateFrom (n : nat) (s : Store) (expected size maxSize : Z) : list Entry * Z :=
  match n with
  | O => ([], size)
  | S n =>
      match st_entries s !! expected with
      | Some e =>
          if negb (e_Index e =? expected) then ([], size)
          else
            let size := u64 (size + SizeUpperLimit e) in
            if maxSize <? size then ([e], size)
            else let '(es, size) := iterateFrom n s (expected + 1) size maxSize in (e :: es, size)
      | None => ([], size)
      end
  end.

Definition iterate (s : Store) (maxIndex low high maxSize : Z) : result (list Entry * Z) LogError :=
  if (u64 (low + 1) =? high) && (low <=? maxIndex) then
    match getEntry s low with Ok e => Ok ([e], SizeUpperLimit e) | Err e => Err e end
  else
    let high := if u64 (maxIndex + 1) <? high then u64 (maxIndex + 1) else high in
    Ok (iterateFrom (Z.to_nat (high - low)) s low 0 maxSize).

Definition IterateEntries (s : Store) (low high maxSize : Z) : result (list Entry * Z) LogError :=
  match st_maxIndex s with
  | None => Ok ([], 0)
  | Some maxIndex => iterate s maxIndex low high maxSize
  end.

(** [getRange]: the first stored index from the snapshot on, and the number of
    entries; the panic when there are none although the index says so. *)
Definition getRange (s : Store) (snapshotIndex : Z) : option (Z * Z) :=
  match st_maxIndex s with
  | None => Some (snapshotIndex, 0)
  | Some maxIndex =>
      if snapshotIndex =? maxIndex then Some (snapshotIndex, 0)
      else
        let ks := filter (λ k, snapshotIndex ≤ k ≤ maxIndex) ((map_to_list (st_entries s)).*1) in
        match merge_sort Z.le ks with
        | [] => if maxIndex =? 0 then Some (0, 0) else None
        | k :: _ => e ← st_entries s !! k; Some (e_Index e, if 0 <? e_Index e then u64 (maxIndex - e_Index e + 1) else 0)
        end
  end.

(** [ReadRaftState]; the inner [None] is [ErrNoSavedLog]. *)
Definition ReadRaftState (s : Store) (snapshotIndex : Z) : option (option (State * Z * Z)) :=
  '(first, length) ← getRange s snapshotIndex;
  Some (st ← st_state s; Some (st, first, length)).

Definition GetMostRecentSnapshot (s : Store) : Snapshot :=
  match last (merge_sort Z.le (map_to_list (st_snapshots s)).*1) with
  | Some k => default noSnapshot (st_snapshots s !! k)
  | None => noSnapshot
  end.

(** ** logreader.go *)
Record LogReader := {
  lr_store : Store;
  lr_state : State;
  lr_snapshot : Snapshot;
  lr_markerIndex : Z;
  lr_markerTerm : Z;
  lr_length : Z
}.
#[export] Instance LogReader_eta : Eta LogReader := λ l,
  Build_LogReader (lr_store l) (lr_state l) (lr_snapshot l) (lr_markerIndex l) (lr_markerTerm l) (lr_length l).

Definition NewLogReader (s : Store) : LogReader :=
  {| lr_store := s; lr_state := emptyState; lr_snapshot := noSnapshot; lr_markerIndex := 0; lr_markerTerm := 0;
     lr_length := 1 |}.

Module reader.
Definition firstIndex (lr : LogReader) : Z := u64 (lr_markerIndex lr + 1).
Definition lastIndex (lr : LogReader) : Z := u64 (lr_markerIndex lr + lr_length lr - 1).

Definition maxEntrySliceSize : Z := 4 * 1024 * 1024.
Definition maxEntries : Z := Z.quot maxEntrySliceSize entryStructSize.

Definition entriesLocked (lr : LogReader) (low high maxSize : Z) : result (list Entry * Z) LogError :=
  if high <? low then Err OtherLogError
  else if low <=? lr_markerIndex lr then Err ErrCompacted
  else if u64 (lastIndex lr + 1) <? high then Err ErrUnavailable
  else
    let high := if maxEntries <? high - low then u64 (low + maxEntries) else high in
    match IterateEntries (lr_store lr) low high maxSize with
    | Err e => Err e
    | Ok (ents, size) =>
        if (Z.of_nat (length ents) =? high - low) || (maxSize <? size) then Ok (ents, size)
        else match head ents, last ents with
             | Some f, Some l =>
                 if low <? e_Index f then Err ErrCompacted
                 else if lastIndex lr <=? u64 (e_Index l + 1) then Err ErrUnavailable else Err OtherLogError
             | _, _ => Err ErrUnavailable
             end
    end.

Definition Entries (lr : LogReader) (low high maxSize : Z) : result (list Entry) LogError :=
  match entriesLocked lr low high maxSize with
  | Err e => Err e
  | Ok (ents, size) =>
      let n := length ents in
      if (0 <? maxSize) && (maxSize <? size) && bool_decide (1 < n)%nat then Ok (take (n - 1) ents)
      else if (maxSize =? 0) && (maxSize <? size) && bool_decide (1 < n)%nat then Ok (take 1 ents)
      else Ok ents
  end.

Definition Term (lr : LogReader) (i : Z) : result Z LogError :=
  if i =? lr_markerIndex lr then Ok (lr_markerTerm lr)
  else match entriesLocked lr i (u64 (i + 1)) 0 with
       | Err e => Err e
       | Ok (ents, _) => match ents with e :: _ => Ok (e_Term e) | [] => Ok 0 end
       end.

Definition GetRange (lr : LogReader) : Z * Z := (firstIndex lr, lastIndex lr).
Definition NodeState (lr : LogReader) : State * Membership := (lr_state lr, ss_Membership (lr_snapshot lr)).

Definition ApplySnapshot (lr : LogReader) (ss : Snapshot) : LogReader * option LogError :=
  if ss_Index ss <=? ss_Index (lr_snapshot lr) then (lr, Some ErrSnapshotOutOfDate)
  else (lr <| lr_snapshot := ss |> <| lr_markerIndex := ss_Index ss |> <| lr_markerTerm := ss_Term ss |> <| lr_length := 1 |>,
        None).

Definition CreateSnapshot (lr : LogReader) (ss : Snapshot) : LogReader * option LogError :=
  if ss_Index ss <=? ss_Index (lr_snapshot lr) then (lr, Some ErrSnapshotOutOfDate)
  else (lr <| lr_snapshot := ss |>, None).

Definition SetRange (lr : LogReader) (first length : Z) : option LogReader :=
  if length =? 0 then Some lr
  else
    let first0 := firstIndex lr in
    let last := u64 (first + length - 1) in
    if last <? first0 then Some lr
    else
      let '(first, length) := if first <? first0 then (first0, u64 (length - (first0 - first))) else (first, length) in
      let offset := u64 (first - lr_markerIndex lr) in
      if offset <? lr_length lr then Some (lr <| lr_length := u64 (offset + length) |>)
      else if lr_length lr =? offset then Some (lr <| lr_length := u64 (lr_length lr + length) |>)
      else None.

Definition Append (lr : LogReader) (ents : list Entry) : option LogReader :=
  match head ents, last ents with
  | Some f, Some l =>
      if negb (u64 (e_Index f + Z.of_nat (length ents) - 1) =? e_Index l) then None
      else SetRange lr (e_Index f) (Z.of_nat (length ents))
  | _, _ => Some lr
  end.

Definition SetState (lr : LogReader) (s : State) : LogReader := lr <| lr_state := s |>.

Definition Compact (lr : LogReader) (i : Z) : LogReader * option LogError :=
  if i <? lr_markerIndex lr then (lr, Some ErrCompacted)
  else if lastIndex lr <? i then (lr, Some ErrUnavailable)
  else match Term lr i with
       | Err e => (lr, Some e)
       | Ok t =>
           (lr <| lr_length ::= λ n, u64 (n - (i - lr_markerIndex lr)) |> <| lr_markerIndex := i |> <| lr_markerTerm := t |>,
            None)
       end.

(** [LogReader] is the [raft.ILogDB] of the node. *)
Definition logdb (lr : LogReader) : LogDB :=
  {| RaftLog.GetRange := GetRange lr; RaftLog.NodeState := NodeState lr; TermOf := Term lr; EntriesOf := Entries lr;
     SnapshotOf := lr_snapshot lr |}.
End reader.
