(* ===== verification/Raft.v ===== *)
(** * The Raft protocol

    internal/dragonboat/internal/raft/raft.go, remote.go and readindex.go: the
    state of a node and the handlers of every message in every state.  A function
    that can panic returns an [option], [None] being the panic.  A [*remote] is
    named by the map that holds it and its key, so that what a handler does
    through the pointer is seen by the rest of the node.

    What the Go runtime chooses is the environment: the random election timeouts,
    and the order in which a map is ranged over where messages are sent from the
    loop.  [r_draws] counts the choices made, so that every choice is free.

    Left out: log lines, the reallocation of the in-memory log on ticks, the
    scratch array of [tryCommit] which is overwritten before every use, and the
    hook [hasNotAppliedConfigChange] that only tests set. *)
From S2P Require Import Prelude Raftpb RaftLog.
From Stdlib Require Import Ascii.

Local Open Scope Z_scope.

Class RaftEnv := {
  rand : nat → Z;
  range : nat → list Z → list Z;
  range_perm n l : range n l ≡ₚ l;
  maxEntrySize : Z   (* [settings.Soft.MaxEntrySize], which maxEntriesToApplySize is too *)
}.

(** ** remote.go *)
Inductive remoteStateType := remoteRetry | remoteWait | remoteReplicate | remoteSnapshot.

#[export] Instance remoteStateType_eq_dec : EqDecision remoteStateType.
Proof. solve_decision. Defined.

Record snapshotAck := { sa_ctick : Z; sa_rejected : bool }.

Record remote := {
  rm_match : Z;
  rm_next : Z;
  rm_snapshotIndex : Z;
  rm_state : remoteStateType;
  rm_active : bool;
  rm_delayed : snapshotAck
}.
#[export] Instance remote_eta : Eta remote := λ r,
  Build_remote (rm_match r) (rm_next r) (rm_snapshotIndex r) (rm_state r) (rm_active r) (rm_delayed r).

Definition newRemote (match_ next : Z) : remote :=
  {| rm_match := match_; rm_next := next; rm_snapshotIndex := 0; rm_state := remoteRetry; rm_active := false;
     rm_delayed := {| sa_ctick := 0; sa_rejected := false |} |}.

Module rem.
(** [snapshotAck.tick] *)
Definition ackTick (a : snapshotAck) : snapshotAck * bool :=
  if 0 <? sa_ctick a then
    ({| sa_ctick := sa_ctick a - 1; sa_rejected := sa_rejected a |}, sa_ctick a - 1 =? 0)
  else (a, false).

Definition clearSnapshotAck (r : remote) : remote := r <| rm_delayed := {| sa_ctick := 0; sa_rejected := false |} |>.

Definition setSnapshotAck (r : remote) (tick : Z) (rejected : bool) : option remote :=
  match rm_state r with
  | remoteSnapshot => Some (r <| rm_delayed := {| sa_ctick := tick; sa_rejected := rejected |} |>)
  | _ => None
  end.

Definition reset (r : remote) : remote := r <| rm_snapshotIndex := 0 |>.

Definition becomeRetry (r : remote) : remote :=
  let next :=
    match rm_state r with
    | remoteSnapshot => Z.max (u64 (rm_match r + 1)) (u64 (rm_snapshotIndex r + 1))
    | _ => u64 (rm_match r + 1)
    end in
  (reset (r <| rm_next := next |>)) <| rm_state := remoteRetry |>.

Definition retryToWait (r : remote) : remote :=
  match rm_state r with remoteRetry => r <| rm_state := remoteWait |> | _ => r end.
Definition waitToRetry (r : remote) : remote :=
  match rm_state r with remoteWait => r <| rm_state := remoteRetry |> | _ => r end.

Definition becomeWait (r : remote) : remote := retryToWait (becomeRetry (clearSnapshotAck r)).

Definition becomeReplicate (r : remote) : remote :=
  (reset (r <| rm_next := u64 (rm_match r + 1) |>)) <| rm_state := remoteReplicate |>.

Definition becomeSnapshot (r : remote) (index : Z) : remote :=
  (reset r) <| rm_snapshotIndex := index |> <| rm_state := remoteSnapshot |>.

Definition clearPendingSnapshot (r : remote) : remote := r <| rm_snapshotIndex := 0 |>.

Definition tryUpdate (r : remote) (index : Z) : remote * bool :=
  let r := if rm_next r <? u64 (index + 1) then r <| rm_next := u64 (index + 1) |> else r in
  if rm_match r <? index then ((waitToRetry r) <| rm_match := index |>, true) else (r, false).

Definition progress (r : remote) (lastIndex : Z) : option remote :=
  match rm_state r with
  | remoteReplicate => Some (r <| rm_next := u64 (lastIndex + 1) |>)
  | remoteRetry => Some (retryToWait r)
  | _ => None
  end.

Definition respondedTo (r : remote) : remote :=
  match rm_state r with
  | remoteRetry => becomeReplicate r
  | remoteSnapshot => if rm_snapshotIndex r <=? rm_match r then becomeRetry r else r
  | _ => r
  end.

Definition decreaseTo (r : remote) (rejected last : Z) : remote * bool :=
  match rm_state r with
  | remoteReplicate => if rejected <=? rm_match r then (r, false) else (r <| rm_next := u64 (rm_match r + 1) |>, true)
  | _ =>
      if negb (u64 (rm_next r - 1) =? rejected) then (r, false)
      else ((waitToRetry r) <| rm_next := Z.max 1 (Z.min rejected (u64 (last + 1))) |>, true)
  end.

Definition isPaused (r : remote) : bool :=
  match rm_state r with remoteRetry | remoteReplicate => false | remoteWait | remoteSnapshot => true end.
End rem.

(** ** readindex.go *)
Record readStatus := { rs_index : Z; rs_from : Z; rs_ctx : SystemCtx; rs_confirmed : gset Z }.

Record readIndex := { ri_pending : gmap SystemCtx readStatus; ri_queue : list SystemCtx }.

Definition newReadIndex : readIndex := {| ri_pending := ∅; ri_queue := [] |}.

Definition peepCtx (r : readIndex) : option SystemCtx := last (ri_queue r).
Definition hasPendingRequest (r : readIndex) : bool := negb (bool_decide (ri_queue r = [])).

Definition addRequest (r : readIndex) (index : Z) (ctx : SystemCtx) (from : Z) : option readIndex :=
  match ri_pending r !! ctx with
  | Some _ => Some r
  | None =>
      _ ← match peepCtx r with
          | None => Some tt
          | Some c => p ← ri_pending r !! c; if index <? rs_index p then None else Some tt
          end;
      Some {| ri_pending := <[ctx := {| rs_index := index; rs_from := from; rs_ctx := ctx; rs_confirmed := ∅ |}]> (ri_pending r);
              ri_queue := ri_queue r ++ [ctx] |}
  end.

(** The loop of [confirm]: the requests up to [ctx] and the rest of the queue;
    the inner [None] when [ctx] is not in the queue. *)
Fixpoint confirmLoop (pending : gmap SystemCtx readStatus) (ctx : SystemCtx) (cs : list readStatus) (q : list SystemCtx) :
    option (option (list readStatus * list SystemCtx)) :=
  match q with
  | [] => Some None
  | pctx :: q =>
      s ← pending !! pctx;
      let cs := cs ++ [s] in
      if bool_decide (pctx = ctx) then
        if forallb (λ v, rs_index v <=? rs_index s) cs then
          Some (Some ((λ v, {| rs_index := rs_index s; rs_from := rs_from v; rs_ctx := rs_ctx v;
                               rs_confirmed := rs_confirmed v |}) <$> cs, q))
        else None
      else confirmLoop pending ctx cs q
  end.

Definition confirm (r : readIndex) (ctx : SystemCtx) (from quorum : Z) : option (readIndex * list readStatus) :=
  match ri_pending r !! ctx with
  | None => Some (r, [])
  | Some p =>
      let p := {| rs_index := rs_index p; rs_from := rs_from p; rs_ctx := rs_ctx p; rs_confirmed := rs_confirmed p ∪ {[from]} |} in
      let pending := <[ctx := p]> (ri_pending r) in
      let r := {| ri_pending := pending; ri_queue := ri_queue r |} in
      if Z.of_nat (size (rs_confirmed p)) + 1 <? quorum then Some (r, [])
      else
        done ← confirmLoop pending ctx [] (ri_queue r);
        match done with
        | None => Some (r, [])
        | Some (cs, q) =>
            let pending := foldl (λ m v, delete (rs_ctx v) m) pending cs in
            if bool_decide (length q = size pending) then Some ({| ri_pending := pending; ri_queue := q |}, cs) else None
        end
  end.

(** ** The state of a node *)
Inductive NodeRole := follower | candidate | leader | observer | witness.

#[export] Instance NodeRole_eq_dec : EqDecision NodeRole.
Proof. solve_decision. Defined.

(** Calls of the [IRaftEventListener]. *)
Inductive RaftEvent :=
| LeaderUpdated (ClusterID NodeID LeaderID Term : Z)
| CampaignLaunched (ClusterID NodeID Term : Z)
| CampaignSkipped (ClusterID NodeID Term : Z)
| SnapshotRejected (ClusterID NodeID From Index Term : Z)
| ReplicationRejected (ClusterID NodeID From Index Term : Z)
| ProposalDropped (ClusterID NodeID : Z) (Entries : list Entry)
| ReadIndexDropped (ClusterID NodeID : Z).

(** [server.LeaderInfo] *)
Record LeaderInfo := { in_LeaderID : Z; in_Term : Z }.

Record raft := {
  r_applied : Z;
  r_nodeID : Z;
  r_clusterID : Z;
  r_term : Z;
  r_vote : Z;
  r_log : entryLog;
  r_remotes : gmap Z remote;
  r_observers : gmap Z remote;
  r_witnesses : gmap Z remote;
  r_state : NodeRole;
  r_votes : gmap Z bool;
  r_msgs : list Message;
  r_leaderID : Z;
  r_leaderTransferTarget : Z;
  r_isLeaderTransferTarget : bool;
  r_pendingConfigChange : bool;
  r_readIndex : readIndex;
  r_readyToRead : list ReadyToRead;
  r_droppedEntries : list Entry;
  r_droppedReadIndexes : list SystemCtx;
  r_quiesce : bool;
  r_checkQuorum : bool;
  r_snapshotting : bool;
  r_tickCount : Z;
  r_electionTick : Z;
  r_heartbeatTick : Z;
  r_heartbeatTimeout : Z;
  r_electionTimeout : Z;
  r_randomizedElectionTimeout : Z;
  r_events : option (list RaftEvent);
  r_prevLeader : LeaderInfo;
  r_draws : nat
}.
#[export] Instance raft_eta : Eta raft := λ r,
  Build_raft (r_applied r) (r_nodeID r) (r_clusterID r) (r_term r) (r_vote r) (r_log r) (r_remotes r) (r_observers r)
    (r_witnesses r) (r_state r) (r_votes r) (r_msgs r) (r_leaderID r) (r_leaderTransferTarget r)
    (r_isLeaderTransferTarget r) (r_pendingConfigChange r) (r_readIndex r) (r_readyToRead r) (r_droppedEntries r)
    (r_droppedReadIndexes r) (r_quiesce r) (r_checkQuorum r) (r_snapshotting r) (r_tickCount r) (r_electionTick r)
    (r_heartbeatTick r) (r_heartbeatTimeout r) (r_electionTimeout r) (r_randomizedElectionTimeout r) (r_events r)
    (r_prevLeader r) (r_draws r).

(** [r.rl], the limiter shared with the in-memory log. *)
Definition r_rl (r : raft) : RateLimiter := im_rl (el_inmem (r_log r)).
Definition set_rl (r : raft) (rl : RateLimiter) : raft :=
  r <| r_log ::= λ l, l <| el_inmem ::= λ im, im <| im_rl := rl |> |> |>.

(** The map a [*remote] is in. *)
Inductive kind := KRemote | KObserver | KWitness.

Definition members (r : raft) (k : kind) : gmap Z remote :=
  match k with KRemote => r_remotes r | KObserver => r_observers r | KWitness => r_witnesses r end.
Definition set_members (r : raft) (k : kind) (m : gmap Z remote) : raft :=
  match k with
  | KRemote => r <| r_remotes := m |> | KObserver => r <| r_observers := m |> | KWitness => r <| r_witnesses := m |>
  end.
Definition put_remote (r : raft) (k : kind) (id : Z) (rp : remote) : raft := set_members r k (<[id := rp]> (members r k)).

(** The lookup of [lw] and [sendReplicateMessage]. *)
Definition find_remote (r : raft) (id : Z) : option (kind * remote) :=
  match r_remotes r !! id with
  | Some rp => Some (KRemote, rp)
  | None => match r_observers r !! id with
            | Some rp => Some (KObserver, rp)
            | None => match r_witnesses r !! id with Some rp => Some (KWitness, rp) | None => None end
            end
  end.

Definition keys {A} (m : gmap Z A) : list Z := (map_to_list m).*1.
Definition emit_event (r : raft) (e : RaftEvent) : raft := r <| r_events ::= fmap (λ es, es ++ [e]) |>.

Section raft.
Context `{RaftEnv}.

(** A range over a map, in the order the runtime chooses. *)
Definition rangeKeys (r : raft) (ids : list Z) : list Z * raft :=
  (range (r_draws r) ids, r <| r_draws ::= S |>).

(** ** Simple predicates *)
Definition isCandidate (r : raft) : bool := bool_decide (r_state r = candidate).
Definition isLeader (r : raft) : bool := bool_decide (r_state r = leader).
Definition isObserver (r : raft) : bool := bool_decide (r_state r = observer).
Definition isWitness (r : raft) : bool := bool_decide (r_state r = witness).
Definition mustBeLeader (r : raft) : option unit := if isLeader r then Some tt else None.

Definition setLeaderID (r : raft) (leaderID : Z) : raft :=
  let r := r <| r_leaderID := leaderID |> in
  match r_events r with
  | None => r
  | Some _ =>
      if ((r_term r =? 0) && (leaderID =? NoLeader)) || negb (leaderID =? in_LeaderID (r_prevLeader r))
         || negb (r_term r =? in_Term (r_prevLeader r))
      then emit_event (r <| r_prevLeader := {| in_LeaderID := leaderID; in_Term := r_term r |} |>)
             (LeaderUpdated (r_clusterID r) (r_nodeID r) leaderID (r_term r))
      else r
  end.

Definition leaderTransfering (r : raft) : bool := negb (r_leaderTransferTarget r =? NoNode) && isLeader r.
Definition abortLeaderTransfer (r : raft) : raft := r <| r_leaderTransferTarget := NoNode |>.
Definition numVotingMembers (r : raft) : Z := Z.of_nat (size (r_remotes r) + size (r_witnesses r)).
Definition quorum (r : raft) : Z := numVotingMembers r / 2 + 1.
Definition isSingleNodeQuorum (r : raft) : bool := quorum r =? 1.
Definition nodes (r : raft) : list Z := keys (r_remotes r) ++ keys (r_observers r) ++ keys (r_witnesses r).

(** [votingMembers]: a witness hides a remote of the same id. *)
Definition votingMembers (r : raft) : gmap Z remote := r_witnesses r ∪ r_remotes r.

(** [leaderHasQuorum] counts the members heard of and forgets they were. *)
Definition heardOf (r : raft) (id : Z) (rp : remote) : bool := (id =? r_nodeID r) || rm_active rp.
Definition forget (r : raft) (m : gmap Z remote) (only : Z → bool) : gmap Z remote :=
  map_imap (λ id rp, Some (if only id && heardOf r id rp then rp <| rm_active := false |> else rp)) m.
Definition leaderHasQuorum (r : raft) : raft * bool :=
  let c := Z.of_nat (size (filter (λ p, heardOf r p.1 p.2 = true) (votingMembers r))) in
  (r <| r_remotes := forget r (r_remotes r) (λ id, negb (bool_decide (is_Some (r_witnesses r !! id)))) |>
     <| r_witnesses := forget r (r_witnesses r) (λ _, true) |>,
   quorum r <=? c).

Definition raftState (r : raft) : State :=
  {| ps_Term := r_term r; ps_Vote := r_vote r; ps_Commit := el_committed (r_log r) |}.

Definition loadState (r : raft) (st : State) : option raft :=
  if (ps_Commit st <? el_committed (r_log r)) || (lastIndex (r_log r) <? ps_Commit st) then None
  else Some (r <| r_log ::= λ l, l <| el_committed := ps_Commit st |> |> <| r_term := ps_Term st |> <| r_vote := ps_Vote st |>).

Definition selfRemoved (r : raft) : bool :=
  if isObserver r then negb (bool_decide (is_Some (r_observers r !! r_nodeID r)))
  else if isWitness r then negb (bool_decide (is_Some (r_witnesses r !! r_nodeID r)))
  else negb (bool_decide (is_Some (r_remotes r !! r_nodeID r))).

Definition clearPendingConfigChange (r : raft) : raft := r <| r_pendingConfigChange := false |>.
Definition setPendingConfigChange (r : raft) : raft := r <| r_pendingConfigChange := true |>.
Definition addReadyToRead (r : raft) (index : Z) (ctx : SystemCtx) : raft :=
  r <| r_readyToRead ::= λ l, l ++ [{| rr_Index := index; rr_SystemCtx := ctx |}] |>.

(** ** Sending *)
Definition isRequestMessage (t : MessageType) : bool :=
  match t with Propose | ReadIndex | LeaderTransfer => true | _ => false end.
Definition isLeaderMessage (t : MessageType) : bool :=
  match t with Replicate | InstallSnapshot | Heartbeat | TimeoutNow | ReadIndexResp => true | _ => false end.

Definition finalizeMessageTerm (r : raft) (m : Message) : option Message :=
  if (m_Term m =? 0) && bool_decide (m_Type m = RequestVote) then None
  else if (0 <? m_Term m) && negb (bool_decide (m_Type m = RequestVote)) then None
  else Some (if isRequestMessage (m_Type m) then m else m <| m_Term := r_term r |>).

Definition send (r : raft) (m : Message) : option raft :=
  m ← finalizeMessageTerm r (m <| m_From := r_nodeID r |>);
  Some (r <| r_msgs ::= λ ms, ms ++ [m] |>).

(** [max(inmemSz-notCommitedSz, 0)] on unsigned numbers. *)
Definition sendRateLimitMessage (r : raft) : option raft :=
  if isLeader r then None
  else if r_leaderID r =? NoLeader then Some r
  else if negb (rate.Enabled (r_rl r)) then Some r
  else
    let '(rl, limited) := rate.RateLimited (r_rl r) in
    let r := set_rl r rl in
    mv ← (if limited : bool then
            ents ← getUncommittedEntries (r_log r);
            Some (Z.max (u64 (rate.Get (r_rl r) - GetEntrySliceSize ents)) 0)
          else Some 0);
    send r ((msg RateLimit) <| m_To := r_leaderID r |> <| m_Hint := mv |>).

Definition makeWitnessSnapshot (s : Snapshot) : Snapshot :=
  s <| ss_Filepath := "" |> <| ss_FileSize := 0 |> <| ss_Files := [] |> <| ss_Witness := true |> <| ss_Dummy := false |>.

Definition makeInstallSnapshotMessage (r : raft) (to : Z) : option (Message * Z) :=
  let s := snapshot (r_log r) in
  if IsEmptySnapshot s then None
  else
    let s := if bool_decide (is_Some (r_witnesses r !! to)) then makeWitnessSnapshot s else s in
    Some ((msg InstallSnapshot) <| m_To := to |> <| m_Snapshot := s |>, ss_Index s).

Definition makeMetadataEntries (ents : list Entry) : list Entry :=
  (λ e, match e_Type e with
        | ConfigChangeEntry => e
        | _ => noEntry <| e_Type := MetadataEntry |> <| e_Index := e_Index e |> <| e_Term := e_Term e |>
        end) <$> ents.

Definition makeReplicateMessage (r : raft) (to next maxSize : Z) : option (result Message LogError) :=
  t ← RaftLog.term (r_log r) (u64 (next - 1));
  match t with
  | Err e => Some (Err e)
  | Ok term =>
      ents ← entries (r_log r) next maxSize;
      match ents with
      | Err e => Some (Err e)
      | Ok ents =>
          _ ← match last ents with
              | Some l => if e_Index l =? u64 (next - 1 + Z.of_nat (length ents)) then Some tt else None
              | None => Some tt
              end;
          let ents := if bool_decide (is_Some (r_witnesses r !! to)) then makeMetadataEntries ents else ents in
          Some (Ok ((msg Replicate) <| m_To := to |> <| m_LogIndex := u64 (next - 1) |> <| m_LogTerm := term |>
                      <| m_Entries := ents |> <| m_Commit := el_committed (r_log r) |>))
      end
  end.

Definition sendReplicateMessage (r : raft) (to : Z) : option raft :=
  '(k, rp) ← find_remote r to;
  if rem.isPaused rp then Some r
  else
    m ← makeReplicateMessage r to (rm_next rp) maxEntrySize;
    match m with
    | Err _ =>
        if negb (rm_active rp) then Some r
        else
          '(m, index) ← makeInstallSnapshotMessage r to;
          send (put_remote r k to (rem.becomeSnapshot rp index)) m
    | Ok m =>
        r ← match last (m_Entries m) with
            | Some l => rp ← rem.progress rp (e_Index l); Some (put_remote r k to rp)
            | None => Some r
            end;
        send r m
    end.

(** A loop that sends to each of a list of nodes. *)
Fixpoint each (f : raft → Z → option raft) (r : raft) (ids : list Z) : option raft :=
  match ids with
  | [] => Some r
  | id :: ids => r ← f r id; each f r ids
  end.

Definition broadcastReplicateMessage (r : raft) : option raft :=
  _ ← mustBeLeader r;
  if bool_decide (is_Some (r_observers r !! r_nodeID r)) then None
  else
    let '(ids, r) := rangeKeys r (nodes r) in
    each (λ r nid, if nid =? r_nodeID r then Some r else sendReplicateMessage r nid) r ids.

Definition sendHeartbeatMessage (r : raft) (to : Z) (hint : SystemCtx) (match_ : Z) : option raft :=
  send r ((msg Heartbeat) <| m_To := to |> <| m_Commit := Z.min match_ (el_committed (r_log r)) |>
            <| m_Hint := sc_Low hint |> <| m_HintHigh := sc_High hint |>).

Definition broadcastHeartbeatMessageWithHint (r : raft) (ctx : SystemCtx) : option raft :=
  let '(ids, r) := rangeKeys r (keys (votingMembers r)) in
  r ← each (λ r id,
        if id =? r_nodeID r then Some r
        else rm ← votingMembers r !! id; sendHeartbeatMessage r id ctx (rm_match rm)) r ids;
  if bool_decide (ctx = zeroCtx) then
    let '(ids, r) := rangeKeys r (keys (r_observers r)) in
    each (λ r id, rm ← r_observers r !! id; sendHeartbeatMessage r id zeroCtx (rm_match rm)) r ids
  else Some r.

Definition broadcastHeartbeatMessage (r : raft) : option raft :=
  _ ← mustBeLeader r;
  broadcastHeartbeatMessageWithHint r (default zeroCtx (peepCtx (r_readIndex r))).

Definition sendTimeoutNowMessage (r : raft) (nodeID : Z) : option raft :=
  send r ((msg TimeoutNow) <| m_To := nodeID |>).

(** ** Log append and commit *)

(** [sortMatchValues], unrolled for three members. *)
Definition sortMatchValues (l : list Z) : list Z :=
  match l with
  | [a; b; c] =>
      let '(a, b) := if b <? a then (b, a) else (a, b) in
      let '(b, c) := if c <? b then (c, b) else (b, c) in
      let '(a, b) := if b <? a then (b, a) else (a, b) in
      [a; b; c]
  | [_] => l
  | _ => merge_sort Z.le l
  end.

Definition matchValues (r : raft) : list Z :=
  (rm_match <$> (map_to_list (r_remotes r)).*2) ++ (rm_match <$> (map_to_list (r_witnesses r)).*2).

Definition tryCommit (r : raft) : option (raft * bool) :=
  _ ← mustBeLeader r;
  q ← inmem.index (sortMatchValues (matchValues r)) (numVotingMembers r - quorum r);
  '(l, b) ← RaftLog.tryCommit (r_log r) q (r_term r);
  Some (r <| r_log := l |>, b).

(** Entries numbered on from [index], all with one term. *)
Fixpoint stamp (t index : Z) (ents : list Entry) : list Entry :=
  match ents with
  | [] => []
  | e :: ents => e <| e_Term := t |> <| e_Index := u64 index |> :: stamp t (index + 1) ents
  end.

Definition appendEntries (r : raft) (ents : list Entry) : option raft :=
  l ← RaftLog.append (r_log r) (stamp (r_term r) (lastIndex (r_log r) + 1) ents);
  let r := r <| r_log := l |> in
  self ← r_remotes r !! r_nodeID r;
  let r := put_remote r KRemote (r_nodeID r) (rem.tryUpdate self (lastIndex (r_log r))).1 in
  if isSingleNodeQuorum r then '(r, _) ← tryCommit r; Some r else Some r.

(** ** State transitions *)
Definition setRandomizedElectionTimeout (r : raft) : option raft :=
  if r_electionTimeout r =? 0 then None
  else Some (r <| r_randomizedElectionTimeout := u64 (r_electionTimeout r + u64 (rand (r_draws r)) mod r_electionTimeout r) |>
               <| r_draws ::= S |>).

(** [resetRemotes], [resetObservers] and [resetWitnesses]. *)
Definition resetMembers (r : raft) (m : gmap Z remote) : gmap Z remote :=
  map_imap (λ id _, Some (newRemote (if id =? r_nodeID r then lastIndex (r_log r) else 0) (u64 (lastIndex (r_log r) + 1)))) m.

Definition reset (r : raft) (term : Z) (resetElectionTimeout : bool) : option raft :=
  let r := if r_term r =? term then r else r <| r_term := term |> <| r_vote := NoLeader |> in
  let r := if rate.Enabled (r_rl r) then set_rl r (rate.Reset (r_rl r)) else r in
  r ← (if resetElectionTimeout then setRandomizedElectionTimeout (r <| r_electionTick := 0 |>) else Some r);
  let r := r <| r_votes := ∅ |> <| r_heartbeatTick := 0 |> <| r_readIndex := newReadIndex |> in
  let r := abortLeaderTransfer (clearPendingConfigChange r) in
  Some (r <| r_remotes := resetMembers r (r_remotes r) |> <| r_observers := resetMembers r (r_observers r) |>
          <| r_witnesses := resetMembers r (r_witnesses r) |>).

Definition toFollowerState (r : raft) (term leaderID : Z) (resetElectionTimeout : bool) : option raft :=
  if isWitness r then None
  else r ← reset (r <| r_state := follower |>) term resetElectionTimeout; Some (setLeaderID r leaderID).
Definition becomeFollower (r : raft) (term leaderID : Z) : option raft := toFollowerState r term leaderID true.
Definition becomeFollowerKE (r : raft) (term leaderID : Z) : option raft := toFollowerState r term leaderID false.

Definition becomeObserver (r : raft) (term leaderID : Z) : option raft :=
  if negb (isObserver r) then None else r ← reset r term true; Some (setLeaderID r leaderID).
Definition becomeWitness (r : raft) (term leaderID : Z) : option raft :=
  if negb (isWitness r) then None else r ← reset r term true; Some (setLeaderID r leaderID).

Definition becomeCandidate (r : raft) : option raft :=
  if isLeader r || isObserver r || isWitness r then None
  else
    r ← reset (r <| r_state := candidate |>) (u64 (r_term r + 1)) true;
    Some ((setLeaderID r NoLeader) <| r_vote := r_nodeID r |>).

(** The loop of [getPendingConfigChangeCount]: each round reads at least one
    entry, so the number of entries left bounds the rounds. *)
Fixpoint countPending (n : nat) (l : entryLog) (idx count : Z) : option Z :=
  match n with
  | O => None
  | S n =>
      r ← entries l idx maxEntrySize;
      match r with
      | Err _ => None
      | Ok ents =>
          match last ents with
          | None => Some count
          | Some e => countPending n l (u64 (e_Index e + 1)) (count + countConfigChange ents)
          end
      end
  end.
Definition getPendingConfigChangeCount (r : raft) : option Z :=
  let idx := u64 (el_committed (r_log r) + 1) in
  countPending (S (S (Z.to_nat (lastIndex (r_log r) - idx)))) (r_log r) idx 0.

Definition preLeaderPromotionHandleConfigChange (r : raft) : option raft :=
  n ← getPendingConfigChangeCount r;
  if 1 <? n then None else if n =? 1 then Some (setPendingConfigChange r) else Some r.

Definition becomeLeader (r : raft) : option raft :=
  if negb (isLeader r) && negb (isCandidate r) then None
  else
    r ← reset (r <| r_state := leader |>) (r_term r) true;
    r ← preLeaderPromotionHandleConfigChange (setLeaderID r (r_nodeID r));
    appendEntries r [noEntry].

(** ** Elections *)
Definition handleVoteResp (r : raft) (from : Z) (rejected : bool) : raft * Z :=
  let r := match r_votes r !! from with Some _ => r | None => r <| r_votes ::= <[from := negb rejected]> |> end in
  (r, Z.of_nat (size (filter (λ p, p.2 = true) (r_votes r)))).

Definition campaign (r : raft) : option raft :=
  r ← becomeCandidate r;
  let term := r_term r in
  let r := emit_event r (CampaignLaunched (r_clusterID r) (r_nodeID r) term) in
  let '(r, _) := handleVoteResp r (r_nodeID r) false in
  if isSingleNodeQuorum r then becomeLeader r
  else
    let hint := if r_isLeaderTransferTarget r then r_nodeID r else 0 in
    let r := r <| r_isLeaderTransferTarget := false |> in
    let '(ids, r) := rangeKeys r (keys (votingMembers r)) in
    each (λ r k,
      if k =? r_nodeID r then Some r
      else
        lt ← lastTerm (r_log r);
        send r ((msg RequestVote) <| m_Term := term |> <| m_To := k |> <| m_LogIndex := lastIndex (r_log r) |>
                  <| m_LogTerm := lt |> <| m_Hint := hint |>)) r ids.

(** ** Membership *)
Definition setMember (r : raft) (k : kind) (nodeID match_ next : Z) : raft := put_remote r k nodeID (newRemote match_ next).

Definition addNode (r : raft) (nodeID : Z) : option raft :=
  let r := clearPendingConfigChange r in
  if (nodeID =? r_nodeID r) && isWitness r then None
  else match r_remotes r !! nodeID with
       | Some _ => Some r
       | None =>
           match r_observers r !! nodeID with
           | Some rp =>
               let r := r <| r_observers ::= delete nodeID |> <| r_remotes ::= <[nodeID := rp]> |> in
               if nodeID =? r_nodeID r then becomeFollower r (r_term r) (r_leaderID r) else Some r
           | None =>
               match r_witnesses r !! nodeID with
               | Some _ => None
               | None => Some (setMember r KRemote nodeID 0 (u64 (lastIndex (r_log r) + 1)))
               end
           end
       end.

Definition addObserver (r : raft) (nodeID : Z) : option raft :=
  let r := clearPendingConfigChange r in
  if (nodeID =? r_nodeID r) && negb (isObserver r) then None
  else match r_observers r !! nodeID with
       | Some _ => Some r
       | None => Some (setMember r KObserver nodeID 0 (u64 (lastIndex (r_log r) + 1)))
       end.

Definition addWitness (r : raft) (nodeID : Z) : option raft :=
  let r := clearPendingConfigChange r in
  if (nodeID =? r_nodeID r) && negb (isWitness r) then None
  else match r_witnesses r !! nodeID with
       | Some _ => Some r
       | None => Some (setMember r KWitness nodeID 0 (u64 (lastIndex (r_log r) + 1)))
       end.

Definition removeNode (r : raft) (nodeID : Z) : option raft :=
  let r := r <| r_remotes ::= delete nodeID |> <| r_observers ::= delete nodeID |> <| r_witnesses ::= delete nodeID |> in
  let r := clearPendingConfigChange r in
  r ← (if (r_nodeID r =? nodeID) && isLeader r then becomeFollower r (r_term r) NoLeader else Some r);
  let r := if leaderTransfering r && (r_leaderTransferTarget r =? nodeID) then abortLeaderTransfer r else r in
  if isLeader r && (0 <? numVotingMembers r) then
    '(r, b) ← tryCommit r;
    if (b : bool) then broadcastReplicateMessage r else Some r
  else Some r.

(** [restore]: whether the snapshot replaces the log. *)
Definition restore (r : raft) (ss : Snapshot) : option (raft * bool) :=
  if ss_Index ss <=? el_committed (r_log r) then Some (r, false)
  else if negb (isObserver r) && bool_decide (is_Some (mb_Observers (ss_Membership ss) !! r_nodeID r)) then None
  else if negb (isWitness r) && bool_decide (is_Some (mb_Witnesses (ss_Membership ss) !! r_nodeID r)) then None
  else
    b ← matchTerm (r_log r) (ss_Index ss) (ss_Term ss);
    if (b : bool) then l ← commitTo (r_log r) (ss_Index ss); Some (r <| r_log := l |>, false)
    else Some (r <| r_log ::= λ l, RaftLog.restore l ss |>, true).

(** The members of a snapshot, with the progress of a node that has just started. *)
Definition restoreMember (k : kind) (r : raft) (id : Z) : raft :=
  let next := u64 (lastIndex (r_log r) + 1) in
  setMember r k id (if id =? r_nodeID r then u64 (next - 1) else 0) next.

Definition restoreRemotes (r : raft) (ss : Snapshot) : option raft :=
  let r := r <| r_remotes := ∅ |> in
  let '(ids, r) := rangeKeys r (keys (mb_Addresses (ss_Membership ss))) in
  r ← each (λ r id,
        r ← (if (id =? r_nodeID r) && isObserver r then becomeFollower r (r_term r) (r_leaderID r) else Some r);
        if bool_decide (is_Some (r_witnesses r !! id)) then None else Some (restoreMember KRemote r id)) r ids;
  r ← (if selfRemoved r && isLeader r then becomeFollower r (r_term r) NoLeader else Some r);
  let r := foldl (restoreMember KObserver) (r <| r_observers := ∅ |>) (keys (mb_Observers (ss_Membership ss))) in
  let r := foldl (restoreMember KWitness) (r <| r_witnesses := ∅ |>) (keys (mb_Witnesses (ss_Membership ss))) in
  Some r.

(** ** Handlers shared by several states *)
Definition handleHeartbeatMessage (r : raft) (m : Message) : option raft :=
  l ← commitTo (r_log r) (m_Commit m);
  send (r <| r_log := l |>)
    ((msg HeartbeatResp) <| m_To := m_From m |> <| m_Hint := m_Hint m |> <| m_HintHigh := m_HintHigh m |>).

Definition handleInstallSnapshotMessage (r : raft) (m : Message) : option raft :=
  '(r, restored) ← restore r (m_Snapshot m);
  let resp := (msg ReplicateResp) <| m_To := m_From m |> in
  if (restored : bool) then send r (resp <| m_LogIndex := lastIndex (r_log r) |>)
  else
    send (emit_event r (SnapshotRejected (r_clusterID r) (r_nodeID r) (m_From m) (ss_Index (m_Snapshot m)) (ss_Term (m_Snapshot m))))
      (resp <| m_LogIndex := el_committed (r_log r) |>).

Definition handleReplicateMessage (r : raft) (m : Message) : option raft :=
  let resp := (msg ReplicateResp) <| m_To := m_From m |> in
  if m_LogIndex m <? el_committed (r_log r) then send r (resp <| m_LogIndex := el_committed (r_log r) |>)
  else
    b ← matchTerm (r_log r) (m_LogIndex m) (m_LogTerm m);
    if (b : bool) then
      l ← tryAppend (r_log r) (m_LogIndex m) (m_Entries m);
      let lastIdx := u64 (m_LogIndex m + Z.of_nat (length (m_Entries m))) in
      l ← commitTo l (Z.min lastIdx (m_Commit m));
      send (r <| r_log := l |>) (resp <| m_LogIndex := lastIdx |>)
    else
      send (emit_event r (ReplicationRejected (r_clusterID r) (r_nodeID r) (m_From m) (m_LogIndex m) (m_LogTerm m)))
        (resp <| m_Reject := true |> <| m_LogIndex := m_LogIndex m |> <| m_Hint := lastIndex (r_log r) |>).

Definition reportDroppedConfigChange (r : raft) (e : Entry) : raft := r <| r_droppedEntries ::= λ l, l ++ [e] |>.
Definition reportDroppedProposal (r : raft) (m : Message) : raft :=
  emit_event (r <| r_droppedEntries ::= λ l, l ++ m_Entries m |>) (ProposalDropped (r_clusterID r) (r_nodeID r) (m_Entries m)).
Definition ctxOf (m : Message) : SystemCtx := {| sc_Low := m_Hint m; sc_High := m_HintHigh m |}.
Definition reportDroppedReadIndex (r : raft) (m : Message) : raft :=
  emit_event (r <| r_droppedReadIndexes ::= λ l, l ++ [ctxOf m] |>) (ReadIndexDropped (r_clusterID r) (r_nodeID r)).

Definition hasConfigChangeToApply (r : raft) : bool := r_applied r <? el_committed (r_log r).
Definition canGrantVote (r : raft) (m : Message) : bool :=
  (r_vote r =? NoNode) || (r_vote r =? m_From m) || (r_term r <? m_Term m).

Definition handleNodeElection (r : raft) (m : Message) : option raft :=
  if isLeader r then Some r
  else if hasConfigChangeToApply r then Some (emit_event r (CampaignSkipped (r_clusterID r) (r_nodeID r) (r_term r)))
  else campaign r.

Definition handleNodeRequestVote (r : raft) (m : Message) : option raft :=
  let resp := (msg RequestVoteResp) <| m_To := m_From m |> in
  isUpToDate ← upToDate (r_log r) (m_LogIndex m) (m_LogTerm m);
  if canGrantVote r m && isUpToDate then send (r <| r_electionTick := 0 |> <| r_vote := m_From m |>) resp
  else send r (resp <| m_Reject := true |>).

(** The conversion of [HintHigh] to a [ConfigChangeType] keeps its low 32 bits. *)
Definition configChangeType (hintHigh : Z) : option ConfigChangeType :=
  match u32 hintHigh with 0 => Some AddNode | 1 => Some RemoveNode | 2 => Some AddObserver | 3 => Some AddWitness | _ => None end.

Definition handleNodeConfigChange (r : raft) (m : Message) : option raft :=
  if m_Reject m then Some (clearPendingConfigChange r)
  else
    cctype ← configChangeType (m_HintHigh m);
    match cctype with
    | AddNode => addNode r (m_Hint m)
    | RemoveNode => removeNode r (m_Hint m)
    | AddObserver => addObserver r (m_Hint m)
    | AddWitness => addWitness r (m_Hint m)
    end.

Definition handleRestoreRemote (r : raft) (m : Message) : option raft := restoreRemotes r (m_Snapshot m).

(** ** The leader's handlers *)
Definition handleLeaderHeartbeat (r : raft) (m : Message) : option raft := broadcastHeartbeatMessage r.

Definition handleLeaderCheckQuorum (r : raft) (m : Message) : option raft :=
  _ ← mustBeLeader r;
  let '(r, b) := leaderHasQuorum r in
  if (b : bool) then Some r else becomeFollower r (r_term r) NoLeader.

(** The loop of [handleLeaderPropose]: a second pending change becomes an empty
    entry. *)
Fixpoint proposeEntries (r : raft) (ents : list Entry) : raft * list Entry :=
  match ents with
  | [] => (r, [])
  | e :: ents =>
      let '(r, e) :=
        match e_Type e with
        | ConfigChangeEntry =>
            if r_pendingConfigChange r then (setPendingConfigChange (reportDroppedConfigChange r e), noEntry)
            else (setPendingConfigChange r, e)
        | _ => (r, e)
        end in
      let '(r, ents) := proposeEntries r ents in (r, e :: ents)
  end.

Definition handleLeaderPropose (r : raft) (m : Message) : option raft :=
  _ ← mustBeLeader r;
  if leaderTransfering r then Some (reportDroppedProposal r m)
  else
    let '(r, ents) := proposeEntries r (m_Entries m) in
    r ← appendEntries r ents;
    broadcastReplicateMessage r.

Definition hasCommittedEntryAtCurrentTerm (r : raft) : option bool :=
  if r_term r =? 0 then None
  else
    t ← RaftLog.term (r_log r) (el_committed (r_log r));
    match t with
    | Ok t => Some (t =? r_term r)
    | Err ErrCompacted => Some (0 =? r_term r)
    | Err _ => None
    end.

Definition handleLeaderReadIndex (r : raft) (m : Message) : option raft :=
  _ ← mustBeLeader r;
  let ctx := ctxOf m in
  if bool_decide (is_Some (r_witnesses r !! m_From m)) then Some r
  else if negb (isSingleNodeQuorum r) then
    b ← hasCommittedEntryAtCurrentTerm r;
    if negb b then Some (reportDroppedReadIndex r m)
    else
      ri ← addRequest (r_readIndex r) (el_committed (r_log r)) ctx (m_From m);
      broadcastHeartbeatMessageWithHint (r <| r_readIndex := ri |>) ctx
  else
    let r := addReadyToRead r (el_committed (r_log r)) ctx in
    if negb (m_From m =? r_nodeID r) && bool_decide (is_Some (r_observers r !! m_From m)) then
      send r ((msg ReadIndexResp) <| m_To := m_From m |> <| m_LogIndex := el_committed (r_log r) |>
                <| m_Hint := m_Hint m |> <| m_HintHigh := m_HintHigh m |> <| m_Commit := m_Commit m |>)
    else Some r.

Definition enterRetryState (rp : remote) : remote :=
  match rm_state rp with remoteReplicate => rem.becomeRetry rp | _ => rp end.

Definition handleLeaderReplicateResp (r : raft) (m : Message) (k : kind) (rp : remote) : option raft :=
  _ ← mustBeLeader r;
  let rp := rp <| rm_active := true |> in
  if negb (m_Reject m) then
    let paused := rem.isPaused rp in
    let '(rp, updated) := rem.tryUpdate rp (m_LogIndex m) in
    if (updated : bool) then
      let rp := rem.respondedTo rp in
      '(r, committed) ← tryCommit (put_remote r k (m_From m) rp);
      r ← (if (committed : bool) then broadcastReplicateMessage r
           else if paused then sendReplicateMessage r (m_From m) else Some r);
      rp ← members r k !! m_From m;
      if leaderTransfering r && (m_From m =? r_leaderTransferTarget r) && (lastIndex (r_log r) =? rm_match rp)
      then sendTimeoutNowMessage r (r_leaderTransferTarget r) else Some r
    else Some (put_remote r k (m_From m) rp)
  else
    let '(rp, decreased) := rem.decreaseTo rp (m_LogIndex m) (m_Hint m) in
    if (decreased : bool) then sendReplicateMessage (put_remote r k (m_From m) (enterRetryState rp)) (m_From m)
    else Some (put_remote r k (m_From m) rp).

(** What a confirmed read becomes. *)
Definition confirmRead (m : Message) (r : raft) (s : readStatus) : option raft :=
  if (rs_from s =? NoNode) || (rs_from s =? r_nodeID r) then Some (addReadyToRead r (rs_index s) (rs_ctx s))
  else send r ((msg ReadIndexResp) <| m_To := rs_from s |> <| m_LogIndex := rs_index s |>
                 <| m_Hint := m_Hint m |> <| m_HintHigh := m_HintHigh m |>).
Fixpoint confirmReads (m : Message) (r : raft) (ss : list readStatus) : option raft :=
  match ss with
  | [] => Some r
  | s :: ss => r ← confirmRead m r s; confirmReads m r ss
  end.
Definition handleReadIndexLeaderConfirmation (r : raft) (m : Message) : option raft :=
  '(ri, ris) ← confirm (r_readIndex r) (ctxOf m) (m_From m) (quorum r);
  confirmReads m (r <| r_readIndex := ri |>) ris.

Definition handleLeaderHeartbeatResp (r : raft) (m : Message) (k : kind) (rp : remote) : option raft :=
  _ ← mustBeLeader r;
  let rp := rem.waitToRetry (rp <| rm_active := true |>) in
  let r := put_remote r k (m_From m) rp in
  r ← (if rm_match rp <? lastIndex (r_log r) then sendReplicateMessage r (m_From m) else Some r);
  if negb (m_Hint m =? 0) then handleReadIndexLeaderConfirmation r m else Some r.

Definition handleLeaderTransfer (r : raft) (m : Message) : option raft :=
  _ ← mustBeLeader r;
  let target := m_Hint m in
  if target =? NoNode then None
  else if leaderTransfering r then Some r
  else if r_nodeID r =? target then Some r
  else match r_remotes r !! target with
       | None => Some r
       | Some rp =>
           let r := r <| r_leaderTransferTarget := target |> <| r_electionTick := 0 |> in
           if rm_match rp =? lastIndex (r_log r) then sendTimeoutNowMessage r target else Some r
       end.

Definition handleLeaderSnapshotStatus (r : raft) (m : Message) (k : kind) (rp : remote) : option raft :=
  match rm_state rp with
  | remoteSnapshot =>
      if m_Hint m =? 0 then
        let rp := if m_Reject m then rem.clearPendingSnapshot rp else rp in
        Some (put_remote r k (m_From m) (rem.becomeWait rp))
      else
        rp ← rem.setSnapshotAck rp (m_Hint m) (m_Reject m);
        Some ((put_remote r k (m_From m) rp) <| r_snapshotting := true |>)
  | _ => Some r
  end.

Definition handleLeaderUnreachable (r : raft) (m : Message) (k : kind) (rp : remote) : option raft :=
  Some (put_remote r k (m_From m) (enterRetryState rp)).

Definition handleLeaderRateLimit (r : raft) (m : Message) : option raft :=
  if rate.Enabled (r_rl r) then Some (set_rl r (rate.SetFollowerState (r_rl r) (m_From m) (m_Hint m))) else Some r.

(** ** The followers' handlers; observers and witnesses share them *)
Definition leaderIsAvailable (r : raft) : raft := r <| r_electionTick := 0 |>.

Definition handleFollowerPropose (r : raft) (m : Message) : option raft :=
  if r_leaderID r =? NoLeader then Some (reportDroppedProposal r m) else send r (m <| m_To := r_leaderID r |>).
Definition handleFollowerReplicate (r : raft) (m : Message) : option raft :=
  handleReplicateMessage (setLeaderID (leaderIsAvailable r) (m_From m)) m.
Definition handleFollowerHeartbeat (r : raft) (m : Message) : option raft :=
  handleHeartbeatMessage (setLeaderID (leaderIsAvailable r) (m_From m)) m.
Definition handleFollowerReadIndex (r : raft) (m : Message) : option raft :=
  if r_leaderID r =? NoLeader then Some (reportDroppedReadIndex r m) else send r (m <| m_To := r_leaderID r |>).
Definition handleFollowerLeaderTransfer (r : raft) (m : Message) : option raft :=
  if r_leaderID r =? NoLeader then Some r else send r (m <| m_To := r_leaderID r |>).
Definition handleFollowerReadIndexResp (r : raft) (m : Message) : option raft :=
  Some (addReadyToRead (setLeaderID (leaderIsAvailable r) (m_From m)) (m_LogIndex m) (ctxOf m)).
Definition handleFollowerInstallSnapshot (r : raft) (m : Message) : option raft :=
  handleInstallSnapshotMessage (setLeaderID (leaderIsAvailable r) (m_From m)) m.

(** ** The candidate's handlers *)
Definition handleCandidatePropose (r : raft) (m : Message) : option raft := Some (reportDroppedProposal r m).
(** The context is reported dropped twice. *)
Definition handleCandidateReadIndex (r : raft) (m : Message) : option raft :=
  Some ((reportDroppedReadIndex r m) <| r_droppedReadIndexes ::= λ l, l ++ [ctxOf m] |>).
Definition handleCandidateReplicate (r : raft) (m : Message) : option raft :=
  r ← becomeFollower r (r_term r) (m_From m); handleReplicateMessage r m.
Definition handleCandidateInstallSnapshot (r : raft) (m : Message) : option raft :=
  r ← becomeFollower r (r_term r) (m_From m); handleInstallSnapshotMessage r m.
Definition handleCandidateHeartbeat (r : raft) (m : Message) : option raft :=
  r ← becomeFollower r (r_term r) (m_From m); handleHeartbeatMessage r m.

Definition handleCandidateRequestVoteResp (r : raft) (m : Message) : option raft :=
  if bool_decide (is_Some (r_observers r !! m_From m)) then Some r
  else
    let '(r, count) := handleVoteResp r (m_From m) (m_Reject m) in
    if count =? quorum r then r ← becomeLeader r; broadcastReplicateMessage r
    else if Z.of_nat (size (r_votes r)) - count =? quorum r then becomeFollower r (r_term r) NoLeader
    else Some r.

(** ** Ticks

    [inner] is the [Handle] that the ticks call. *)
Section ticks.
Context (inner : raft → Message → option raft).

Definition timeForElection (r : raft) : bool := r_randomizedElectionTimeout r <=? r_electionTick r.
Definition timeForHearbeat (r : raft) : bool := r_heartbeatTimeout r <=? r_heartbeatTick r.
Definition timeForCheckQuorum (r : raft) : bool := r_electionTimeout r <=? r_electionTick r.
Definition timeToAbortLeaderTransfer (r : raft) : bool := leaderTransfering r && (r_electionTimeout r <=? r_electionTick r).
Definition timeForRateLimitCheck (r : raft) : option bool :=
  if r_electionTimeout r =? 0 then None else Some (r_tickCount r mod r_electionTimeout r =? 0).

Definition local (r : raft) (t : MessageType) : Message := (msg t) <| m_From := r_nodeID r |>.

Definition nonLeaderTick (r : raft) : option raft :=
  if isLeader r then None
  else
    let r := r <| r_electionTick ::= λ t, u64 (t + 1) |> in
    check ← timeForRateLimitCheck r;
    r ← (if check && rate.Enabled (r_rl r) then sendRateLimitMessage (set_rl r (rate.Tick (r_rl r))) else Some r);
    if isObserver r || isWitness r then Some r
    else if negb (selfRemoved r) && timeForElection r then
      let r := r <| r_electionTick := 0 |> in inner r (local r Election)
    else Some r.

(** One member of [checkPendingSnapshotAck]. *)
Definition checkAck (k : kind) (r : raft) (from : Z) : option raft :=
  rp ← members r k !! from;
  match rm_state rp with
  | remoteSnapshot =>
      let '(ack, due) := rem.ackTick (rm_delayed rp) in
      let r := put_remote r k from (rp <| rm_delayed := ack |>) in
      if (due : bool) then
        r ← inner r ((msg SnapshotStatus) <| m_From := from |> <| m_Reject := sa_rejected ack |>);
        rp ← members r k !! from;
        Some (put_remote r k from (rem.clearSnapshotAck rp))
      else Some (r <| r_snapshotting := true |>)
  | _ => Some r
  end.
Definition checkAcks (k : kind) (r : raft) : option raft :=
  let '(ids, r) := rangeKeys r (keys (members r k)) in each (checkAck k) r ids.
Definition checkPendingSnapshotAck (r : raft) : option raft :=
  if isLeader r && r_snapshotting r then
    r ← checkAcks KRemote (r <| r_snapshotting := false |>);
    r ← checkAcks KObserver r;
    checkAcks KWitness r
  else Some r.

Definition leaderTick (r : raft) : option raft :=
  _ ← mustBeLeader r;
  let r := r <| r_electionTick ::= λ t, u64 (t + 1) |> in
  check ← timeForRateLimitCheck r;
  let r := if check && rate.Enabled (r_rl r) then set_rl r (rate.Tick (r_rl r)) else r in
  let abort := timeToAbortLeaderTransfer r in
  r ← (if timeForCheckQuorum r then
         let r := r <| r_electionTick := 0 |> in
         if r_checkQuorum r then inner r (local r CheckQuorum) else Some r
       else Some r);
  let r := if abort then abortLeaderTransfer r else r in
  let r := r <| r_heartbeatTick ::= λ t, u64 (t + 1) |> in
  r ← (if timeForHearbeat r then
         let r := r <| r_heartbeatTick := 0 |> in inner r (local r LeaderHeartbeat)
       else Some r);
  checkPendingSnapshotAck r.

Definition tick (r : raft) : option raft :=
  let r := r <| r_quiesce := false |> <| r_tickCount ::= λ t, u64 (t + 1) |> in
  if isLeader r then leaderTick r else nonLeaderTick r.

Definition quiescedTick (r : raft) : raft := r <| r_quiesce := true |> <| r_electionTick ::= λ t, u64 (t + 1) |>.

Definition handleLocalTick (r : raft) (m : Message) : option raft :=
  if m_Reject m then Some (quiescedTick r) else tick r.

Definition handleFollowerTimeoutNow (r : raft) (m : Message) : option raft :=
  let r := r <| r_electionTick := r_randomizedElectionTimeout r |> <| r_isLeaderTransferTarget := true |> in
  r ← tick r;
  Some (r <| r_isLeaderTransferTarget := false |>).

(** ** Dispatch *)
Definition lw (f : raft → Message → kind → remote → option raft) (r : raft) (m : Message) : option raft :=
  match find_remote r (m_From m) with Some (k, rp) => f r m k rp | None => Some r end.

(** [defaultHandle] with the table of [initializeHandlerMap]. *)
Definition defaultHandle (r : raft) (m : Message) : option raft :=
  match r_state r, m_Type m with
  | candidate, Heartbeat => handleCandidateHeartbeat r m
  | candidate, Propose => handleCandidatePropose r m
  | candidate, ReadIndex => handleCandidateReadIndex r m
  | candidate, Replicate => handleCandidateReplicate r m
  | candidate, InstallSnapshot => handleCandidateInstallSnapshot r m
  | candidate, RequestVoteResp => handleCandidateRequestVoteResp r m
  | (candidate | follower | leader), Election => handleNodeElection r m
  | (candidate | follower | leader | witness), RequestVote => handleNodeRequestVote r m
  | _, ConfigChangeEvent => handleNodeConfigChange r m
  | _, LocalTick => handleLocalTick r m
  | _, SnapshotReceived => handleRestoreRemote r m
  | (follower | observer), Propose => handleFollowerPropose r m
  | (follower | observer | witness), Replicate => handleFollowerReplicate r m
  | (follower | observer | witness), Heartbeat => handleFollowerHeartbeat r m
  | (follower | observer), ReadIndex => handleFollowerReadIndex r m
  | follower, LeaderTransfer => handleFollowerLeaderTransfer r m
  | (follower | observer), ReadIndexResp => handleFollowerReadIndexResp r m
  | (follower | observer | witness), InstallSnapshot => handleFollowerInstallSnapshot r m
  | follower, TimeoutNow => handleFollowerTimeoutNow r m
  | leader, LeaderHeartbeat => handleLeaderHeartbeat r m
  | leader, CheckQuorum => handleLeaderCheckQuorum r m
  | leader, Propose => handleLeaderPropose r m
  | leader, ReadIndex => handleLeaderReadIndex r m
  | leader, ReplicateResp => lw handleLeaderReplicateResp r m
  | leader, HeartbeatResp => lw handleLeaderHeartbeatResp r m
  | leader, SnapshotStatus => lw handleLeaderSnapshotStatus r m
  | leader, Unreachable => lw handleLeaderUnreachable r m
  | leader, LeaderTransfer => handleLeaderTransfer r m
  | leader, RateLimit => handleLeaderRateLimit r m
  | _, _ => Some r
  end.

Definition dropRequestVoteFromHighTermNode (r : raft) (m : Message) : option bool :=
  if negb (bool_decide (m_Type m = RequestVote)) || negb (r_checkQuorum r) || (m_Term m <=? r_term r) then Some false
  else if m_Hint m =? m_From m then Some false
  else if isLeader r && negb (r_quiesce r) && (r_electionTimeout r <=? r_electionTick r) then None
  else Some (negb (r_leaderID r =? NoLeader) && (r_electionTick r <? r_electionTimeout r)).

(** [onMessageTermNotMatched]: whether to ignore the message. *)
Definition onMessageTermNotMatched (r : raft) (m : Message) : option (raft * bool) :=
  if (m_Term m =? 0) || (m_Term m =? r_term r) then Some (r, false)
  else
    drop ← dropRequestVoteFromHighTermNode r m;
    if (drop : bool) then Some (r, true)
    else if r_term r <? m_Term m then
      let leaderID := if isLeaderMessage (m_Type m) then m_From m else NoLeader in
      r ← (if isObserver r then becomeObserver r (m_Term m) leaderID
           else if isWitness r then becomeWitness r (m_Term m) leaderID
           else if bool_decide (m_Type m = RequestVote) then becomeFollowerKE r (m_Term m) leaderID
           else becomeFollower r (m_Term m) leaderID);
      Some (r, false)
    else if isLeaderMessage (m_Type m) && r_checkQuorum r then
      r ← send r ((msg NoOP) <| m_To := m_From m |>); Some (r, true)
    else Some (r, true).

Definition HandleWith (r : raft) (m : Message) : option raft :=
  '(r, ignored) ← onMessageTermNotMatched r m;
  if (ignored : bool) then Some r
  else if negb (m_Term m =? 0) && negb (r_term r =? m_Term m) then None
  else defaultHandle r m.
End ticks.

(** [Handle]: a tick, local or forced by [TimeoutNow], calls [Handle] again with a
    local message, and those never tick. *)
Definition Handle (r : raft) (m : Message) : option raft := HandleWith (HandleWith (λ _ _, None)) r m.

(** ** Construction *)
Record Config := {
  c_ClusterID : Z; c_NodeID : Z; c_ElectionRTT : Z; c_HeartbeatRTT : Z; c_CheckQuorum : bool; c_MaxInMemLogSize : Z;
  c_SnapshotEntries : Z; c_SnapshotCompressionType : Z; c_EntryCompressionType : Z; c_IsObserver : bool; c_IsWitness : bool }.

Definition NoCompression : Z := 0.
Definition Snappy : Z := 1.

(** [Config.Validate]: whether it returns nil. *)
Definition ValidateConfig (c : Config) : bool :=
  negb (c_NodeID c =? 0) && negb (c_HeartbeatRTT c =? 0) && negb (c_ElectionRTT c =? 0) &&
  negb (c_ElectionRTT c <=? u64 (2 * c_HeartbeatRTT c)) &&
  negb ((0 <? c_MaxInMemLogSize c) && (c_MaxInMemLogSize c <? EntryNonCmdFieldsSize + 1)) &&
  ((c_SnapshotCompressionType c =? Snappy) || (c_SnapshotCompressionType c =? NoCompression)) &&
  ((c_EntryCompressionType c =? Snappy) || (c_EntryCompressionType c =? NoCompression)) &&
  negb (c_IsWitness c && (0 <? c_SnapshotEntries c)) && negb (c_IsWitness c && c_IsObserver c).

Definition newRaft (c : Config) (logdb : LogDB) : option raft :=
  _ ← (if ValidateConfig c then Some tt else None);
  let '(st, mb) := NodeState logdb in
  let ones {A} (m : gmap Z A) : gmap Z remote := (λ _, newRemote 0 1) <$> m in
  let r := {|
    r_applied := 0; r_nodeID := c_NodeID c; r_clusterID := c_ClusterID c; r_term := 0; r_vote := 0;
    r_log := newEntryLog logdb (rate.NewInMemRateLimiter (c_MaxInMemLogSize c));
    r_remotes := ones (mb_Addresses mb); r_observers := ones (mb_Observers mb); r_witnesses := ones (mb_Witnesses mb);
    r_state := follower; r_votes := ∅; r_msgs := []; r_leaderID := NoLeader; r_leaderTransferTarget := 0;
    r_isLeaderTransferTarget := false; r_pendingConfigChange := false; r_readIndex := newReadIndex; r_readyToRead := [];
    r_droppedEntries := []; r_droppedReadIndexes := []; r_quiesce := false; r_checkQuorum := c_CheckQuorum c;
    r_snapshotting := false; r_tickCount := 0; r_electionTick := 0; r_heartbeatTick := 0;
    r_heartbeatTimeout := c_HeartbeatRTT c; r_electionTimeout := c_ElectionRTT c; r_randomizedElectionTimeout := 0;
    r_events := None; r_prevLeader := {| in_LeaderID := 0; in_Term := 0 |}; r_draws := 0 |} in
  r ← (if IsEmptyState st then Some r else loadState r st);
  if c_IsObserver c then becomeObserver (r <| r_state := observer |>) (r_term r) NoLeader
  else if c_IsWitness c then becomeWitness (r <| r_state := witness |>) (r_term r) NoLeader
  else becomeFollower r (r_term r) NoLeader.
End raft.
