(* ===== verification/RaftPeer.v ===== *)
(** * The Raft core as a node sees it

    internal/dragonboat/internal/raft/peer.go: what a node asks of its Raft core,
    and the updates it takes from it. *)
From S2P Require Import Prelude GoStrings Wire Raftpb RaftLog Raft.
From Stdlib Require Import Ascii.

Local Open Scope Z_scope.

Record Peer := { p_raft : raft; p_prevState : State }.
#[export] Instance Peer_eta : Eta Peer := λ p, Build_Peer (p_raft p) (p_prevState p).

Record PeerAddress := { pa_NodeID : Z; pa_Address : string }.

(** [Type] is an int32, which need not be one of the named kinds. *)
Record ConfigChange := {
  cc_ConfigChangeId : Z; cc_Type : Z; cc_NodeID : Z; cc_Address : string; cc_Initialize : bool }.

Definition ccTypeNumber (t : ConfigChangeType) : Z :=
  match t with AddNode => 0 | RemoveNode => 1 | AddObserver => 2 | AddWitness => 3 end.

Definition MarshalConfigChange (cc : ConfigChange) : list ascii :=
  marshal [(1, WVarint (cc_ConfigChangeId cc)); (2, WVarint (u64 (cc_Type cc))); (3, WVarint (cc_NodeID cc));
           (4, WBytes (bytes_of (cc_Address cc))); (5, WVarint (if cc_Initialize cc then 1 else 0))].

Definition noConfigChange : ConfigChange :=
  {| cc_ConfigChangeId := 0; cc_Type := 0; cc_NodeID := 0; cc_Address := ""; cc_Initialize := false |}.
#[export] Instance ConfigChange_eta : Eta ConfigChange := λ c,
  Build_ConfigChange (cc_ConfigChangeId c) (cc_Type c) (cc_NodeID c) (cc_Address c) (cc_Initialize c).

Definition schemaConfigChange : schema ConfigChange := fields
  [u64f (λ c n, c <| cc_ConfigChangeId := n |>); i32f (λ c n, c <| cc_Type := n |>); u64f (λ c n, c <| cc_NodeID := n |>);
   str (λ c s, c <| cc_Address := s |>); boolf (λ c b, c <| cc_Initialize := b |>)].
Definition UnmarshalConfigChange (b : list ascii) : result ConfigChange WireError := unmarshal schemaConfigChange noConfigChange b.

Record Update := {
  ud_ClusterID : Z;
  ud_NodeID : Z;
  ud_State : State;
  ud_FastApply : bool;
  ud_EntriesToSave : list Entry;
  ud_CommittedEntries : list Entry;
  ud_MoreCommittedEntries : bool;
  ud_Snapshot : Snapshot;
  ud_ReadyToReads : list ReadyToRead;
  ud_Messages : list Message;
  ud_LastApplied : Z;
  ud_UpdateCommit : UpdateCommit;
  ud_DroppedEntries : list Entry;
  ud_DroppedReadIndexes : list SystemCtx
}.
#[export] Instance Update_eta : Eta Update := λ u,
  Build_Update (ud_ClusterID u) (ud_NodeID u) (ud_State u) (ud_FastApply u) (ud_EntriesToSave u) (ud_CommittedEntries u)
    (ud_MoreCommittedEntries u) (ud_Snapshot u) (ud_ReadyToReads u) (ud_Messages u) (ud_LastApplied u) (ud_UpdateCommit u)
    (ud_DroppedEntries u) (ud_DroppedReadIndexes u).

Section peer.
Context `{RaftEnv}.

(** ** Starting *)
Definition checkLaunchRequest (c : Config) (addresses : list PeerAddress) (initial newNode : bool) : option unit :=
  if c_NodeID c =? 0 then None
  else if initial && newNode && bool_decide (addresses = []) then None
  else if bool_decide (NoDup (pa_Address <$> addresses)) then Some tt else None.

(** The configuration entries a new cluster begins with. *)
Definition bootstrapEntries (addresses : list PeerAddress) : list Entry :=
  imap (λ i pa, noEntry <| e_Type := ConfigChangeEntry |> <| e_Term := 1 |> <| e_Index := Z.of_nat i + 1 |>
                  <| e_Cmd := MarshalConfigChange {| cc_ConfigChangeId := 0; cc_Type := ccTypeNumber AddNode; cc_NodeID := pa_NodeID pa;
                                                     cc_Address := pa_Address pa; cc_Initialize := true |} |>) addresses.

#[local] Instance pa_le_dec : RelDecision (λ a b, pa_NodeID a ≤ pa_NodeID b).
Proof. intros a b. apply _. Defined.

Definition bootstrap (r : raft) (addresses : list PeerAddress) : option raft :=
  let addresses := merge_sort (λ a b, pa_NodeID a ≤ pa_NodeID b) addresses in
  let ents := bootstrapEntries addresses in
  l ← append (r_log r) ents;
  let r := r <| r_log := l <| el_committed := Z.of_nat (length ents) |> |> in
  each addNode r (pa_NodeID <$> addresses).

Definition Launch (c : Config) (logdb : LogDB) (events : bool) (addresses : list PeerAddress) (initial newNode : bool) :
    option Peer :=
  _ ← checkLaunchRequest c addresses initial newNode;
  r ← newRaft c logdb;
  let r := r <| r_events := if events then Some [] else None |> in
  let lastIndex := (GetRange logdb).2 in
  r ← (if newNode && negb (c_IsObserver c) && negb (c_IsWitness c) then becomeFollower r 1 NoLeader else Some r);
  r ← (if initial && newNode then bootstrap r addresses else Some r);
  Some {| p_raft := r; p_prevState := if lastIndex =? 0 then emptyState else raftState r |}.

(** ** Requests *)
Definition handle (p : Peer) (m : Message) : option Peer := r ← Raft.Handle (p_raft p) m; Some (p <| p_raft := r |>).

Definition Tick (p : Peer) : option Peer := handle p (msg LocalTick).
Definition QuiescedTick (p : Peer) : option Peer := handle p ((msg LocalTick) <| m_Reject := true |>).
Definition RequestLeaderTransfer (p : Peer) (target : Z) : option Peer :=
  handle p ((msg LeaderTransfer) <| m_To := r_nodeID (p_raft p) |> <| m_Hint := target |>).
Definition ProposeEntries (p : Peer) (ents : list Entry) : option Peer :=
  handle p ((msg Propose) <| m_From := r_nodeID (p_raft p) |> <| m_Entries := ents |>).
Definition ProposeConfigChange (p : Peer) (cc : ConfigChange) (key : Z) : option Peer :=
  handle p ((msg Propose) <| m_Entries :=
    [noEntry <| e_Type := ConfigChangeEntry |> <| e_Cmd := MarshalConfigChange cc |> <| e_Key := key |>] |>).
Definition ApplyConfigChange (p : Peer) (cc : ConfigChange) : option Peer :=
  if cc_NodeID cc =? NoLeader then Some (p <| p_raft ::= clearPendingConfigChange |>)
  else handle p ((msg ConfigChangeEvent) <| m_Hint := cc_NodeID cc |> <| m_HintHigh := u64 (cc_Type cc) |>).
Definition RejectConfigChange (p : Peer) : option Peer := handle p ((msg ConfigChangeEvent) <| m_Reject := true |>).
Definition RestoreRemotes (p : Peer) (ss : Snapshot) : option Peer := handle p ((msg SnapshotReceived) <| m_Snapshot := ss |>).
Definition ReportUnreachableNode (p : Peer) (nodeID : Z) : option Peer := handle p ((msg Unreachable) <| m_From := nodeID |>).
Definition ReportSnapshotStatus (p : Peer) (nodeID : Z) (reject : bool) : option Peer :=
  handle p ((msg SnapshotStatus) <| m_From := nodeID |> <| m_Reject := reject |>).
Definition ReadIndexRequest (p : Peer) (ctx : SystemCtx) : option Peer :=
  handle p ((msg ReadIndex) <| m_Hint := sc_Low ctx |> <| m_HintHigh := sc_High ctx |>).
(** [RateLimited]: the limiter notices the time. *)
Definition PeerRateLimited (p : Peer) : Peer := p <| p_raft ::= λ r, set_rl r (rate.RateLimited (r_rl r)).1 |>.
Definition HasEntryToApply (p : Peer) : bool := hasEntriesToApply (r_log (p_raft p)).
Definition NotifyRaftLastApplied (p : Peer) (lastApplied : Z) : Peer := p <| p_raft ::= λ r, r <| r_applied := lastApplied |> |>.

(** [Peer.Handle]: a response counts only from a member. *)
Definition Handle (p : Peer) (m : Message) : option Peer :=
  if isLocalMessageType (m_Type m) then None
  else if bool_decide (is_Some (r_remotes (p_raft p) !! m_From m)) || bool_decide (is_Some (r_observers (p_raft p) !! m_From m))
          || bool_decide (is_Some (r_witnesses (p_raft p) !! m_From m)) || negb (isResponseMessageType (m_Type m))
  then handle p m else Some p.

(** ** Updates *)
Definition noCommit : UpdateCommit :=
  {| uc_Processed := 0; uc_LastApplied := 0; uc_StableLogTo := 0; uc_StableLogTerm := 0; uc_StableSnapshotTo := 0;
     uc_ReadyToRead := 0 |}.

Definition getUpdate (p : Peer) (moreToApply : bool) (lastApplied : Z) : option Update :=
  let r := p_raft p in
  save ← entriesToSave (r_log r);
  committed ← (if moreToApply then getEntriesToApply (r_log r) maxEntrySize else Some []);
  let pst := raftState r in
  Some {|
    ud_ClusterID := r_clusterID r; ud_NodeID := r_nodeID r;
    ud_State := if IsStateEqual pst (p_prevState p) then emptyState else pst;
    ud_FastApply := true; ud_EntriesToSave := save; ud_CommittedEntries := committed;
    ud_MoreCommittedEntries := match last committed with Some e => hasMoreEntriesToApply (r_log r) (e_Index e) | None => false end;
    ud_Snapshot := default noSnapshot (im_snapshot (el_inmem (r_log r)));
    ud_ReadyToReads := r_readyToRead r;
    ud_Messages := (λ m, m <| m_ClusterId := r_clusterID r |>) <$> r_msgs r;
    ud_LastApplied := lastApplied; ud_UpdateCommit := noCommit;
    ud_DroppedEntries := r_droppedEntries r; ud_DroppedReadIndexes := r_droppedReadIndexes r |}.

(** The panics of [validateUpdate]. *)
Definition validateUpdate (ud : Update) : option unit :=
  _ ← match last (ud_CommittedEntries ud) with
      | Some l => if (0 <? ps_Commit (ud_State ud)) && (ps_Commit (ud_State ud) <? e_Index l) then None else Some tt
      | None => Some tt
      end;
  match last (ud_CommittedEntries ud), last (ud_EntriesToSave ud) with
  | Some a, Some s => if e_Index s <? e_Index a then None else Some tt
  | _, _ => Some tt
  end.

Definition setFastApply (ud : Update) : Update :=
  ud <| ud_FastApply :=
    if negb (IsEmptySnapshot (ud_Snapshot ud)) then false
    else match last (ud_CommittedEntries ud), head (ud_EntriesToSave ud), last (ud_EntriesToSave ud) with
         | Some a, Some f, Some l => negb ((e_Index f <=? e_Index a) && (e_Index a <=? e_Index l))
         | _, _, _ => true
         end |>.

Definition getUpdateCommit (ud : Update) : UpdateCommit :=
  let processed := match last (ud_CommittedEntries ud) with Some e => e_Index e | None => 0 end in
  let stable := match last (ud_EntriesToSave ud) with Some e => (e_Index e, e_Term e) | None => (0, 0) end in
  let ss := if IsEmptySnapshot (ud_Snapshot ud) then 0 else ss_Index (ud_Snapshot ud) in
  {| uc_Processed := if IsEmptySnapshot (ud_Snapshot ud) then processed else Z.max processed ss;
     uc_LastApplied := ud_LastApplied ud; uc_StableLogTo := stable.1; uc_StableLogTerm := stable.2;
     uc_StableSnapshotTo := ss; uc_ReadyToRead := Z.of_nat (length (ud_ReadyToReads ud)) |}.

Definition GetUpdate (p : Peer) (moreToApply : bool) (lastApplied : Z) : option Update :=
  ud ← getUpdate p moreToApply lastApplied;
  _ ← validateUpdate ud;
  let ud := setFastApply ud in
  Some (ud <| ud_UpdateCommit := getUpdateCommit ud |>).

Definition HasUpdate (p : Peer) (moreToApply : bool) : option bool :=
  let r := p_raft p in
  save ← entriesToSave (r_log r);
  Some (negb (bool_decide (save = [])) || negb (bool_decide (r_msgs r = [])) || (moreToApply && hasEntriesToApply (r_log r)) ||
        (negb (IsEmptyState (raftState r)) && negb (IsStateEqual (raftState r) (p_prevState p))) ||
        match im_snapshot (el_inmem (r_log r)) with Some ss => negb (IsEmptySnapshot ss) | None => false end ||
        match r_readyToRead r, r_droppedEntries r, r_droppedReadIndexes r with [], [], [] => false | _, _, _ => true end).

Definition Commit (p : Peer) (ud : Update) : option Peer :=
  let r := (p_raft p) <| r_msgs := [] |> <| r_droppedEntries := [] |> <| r_droppedReadIndexes := [] |> in
  let r := if 0 <? uc_ReadyToRead (ud_UpdateCommit ud) then r <| r_readyToRead := [] |> else r in
  l ← commitUpdate (r_log r) (ud_UpdateCommit ud);
  Some {| p_raft := r <| r_log := l |>; p_prevState := if IsEmptyState (ud_State ud) then p_prevState p else ud_State ud |}.
End peer.
