(* ===== verification/RaftNode.v ===== *)
(** * A Raft node and its storage

    The cycle in which a node host drives a peer (internal/dragonboat/node.go and
    [processSteps] of engine.go): handle what has arrived, take the update, store
    it, send the messages, commit the update; with the node's idle mode
    (quiesce.go) and what it hands to the state machine. *)
From S2P Require Import Prelude Raftpb RaftLog LogReader Raft RaftPeer.
From Stdlib Require Import Ascii.

Local Open Scope Z_scope.

(** ** quiesce.go *)
Record quiesceState := {
  qs_currentTick : Z; qs_electionTick : Z; qs_quiescedSince : Z; qs_idleSince : Z; qs_exitQuiesceTick : Z;
  qs_enabled : bool; qs_newQuiesceStateFlag : bool }.
#[export] Instance quiesceState_eta : Eta quiesceState := λ q,
  Build_quiesceState (qs_currentTick q) (qs_electionTick q) (qs_quiescedSince q) (qs_idleSince q) (qs_exitQuiesceTick q)
    (qs_enabled q) (qs_newQuiesceStateFlag q).

Module quiesce.
Definition quiesced (q : quiesceState) : bool := qs_enabled q && (0 <? qs_quiescedSince q).
Definition threshold (q : quiesceState) : Z := u64 (qs_electionTick q * 10).

Definition enterQuiesce (q : quiesceState) : quiesceState :=
  q <| qs_quiescedSince := qs_currentTick q |> <| qs_idleSince := qs_currentTick q |> <| qs_newQuiesceStateFlag := true |>.
Definition exitQuiesce (q : quiesceState) : quiesceState :=
  q <| qs_quiescedSince := 0 |> <| qs_exitQuiesceTick := qs_currentTick q |>.

Definition tick (q : quiesceState) : quiesceState :=
  if negb (qs_enabled q) then q
  else
    let th := threshold q in
    let q := q <| qs_currentTick ::= λ t, u64 (t + 1) |> in
    if negb (quiesced q) && (th <? u64 (qs_currentTick q - qs_idleSince q)) then enterQuiesce q else q.

Definition newToQuiesce (q : quiesceState) : bool :=
  quiesced q && (u64 (qs_currentTick q - qs_quiescedSince q) <? qs_electionTick q).
Definition justExitedQuiesce (q : quiesceState) : bool :=
  negb (quiesced q) && (u64 (qs_currentTick q - qs_exitQuiesceTick q) <? threshold q).

Definition record (q : quiesceState) (t : MessageType) : quiesceState :=
  if negb (qs_enabled q) then q
  else if match t with Heartbeat | HeartbeatResp => negb (quiesced q) || newToQuiesce q | _ => false end then q
  else
    let q := q <| qs_idleSince := qs_currentTick q |> in
    if quiesced q then exitQuiesce q else q.

Definition tryEnterQuiesce (q : quiesceState) : quiesceState :=
  if justExitedQuiesce q then q else if negb (quiesced q) then enterQuiesce q else q.
End quiesce.

(** ** The node *)

(** [pushed] is the index up to which the state machine has been handed entries. *)
Record Node := {
  nd_peer : Peer; nd_reader : LogReader; nd_qs : quiesceState;
  nd_confirmedIndex : Z; nd_appliedIndex : Z; nd_pushedIndex : Z; nd_ssIndex : Z }.
#[export] Instance Node_eta : Eta Node := λ n,
  Build_Node (nd_peer n) (nd_reader n) (nd_qs n) (nd_confirmedIndex n) (nd_appliedIndex n) (nd_pushedIndex n) (nd_ssIndex n).

(** What the state machine is handed: [rsm.Task]. *)
Inductive Task := TaskEntries (ents : list Entry) | TaskRecover (index : Z).

(** What a node finds in its queues when it is stepped: the index its state machine
    has applied up to, a batch of reads, the messages and ticks, and whether
    recovery keeps the state machine busy, a configuration change, proposals, a
    leadership transfer, whether there was a snapshot request or a compaction, and
    whether the state machine's queue takes more entries; and the members to tell of
    quiescence. *)
Record Events := {
  ev_lastApplied : Z; ev_read : option SystemCtx; ev_messages : list Message; ev_busy : bool;
  ev_configChange : option (ConfigChange * Z); ev_proposals : list Entry; ev_transfer : option Z;
  ev_snapshot : bool; ev_compaction : bool; ev_moreToApply : bool; ev_addresses : list Z }.

Section node.
Context `{RaftEnv}.

(** The peer reads the log reader it was launched with. *)
Definition sync (n : Node) : Node :=
  n <| nd_peer ::= λ p, p <| p_raft ::= λ r, r <| r_log ::= λ l, l <| el_logdb := reader.logdb (nd_reader n) |> |> |> |>.

Definition updateAppliedIndex (n : Node) (lastApplied : Z) : Node :=
  n <| nd_appliedIndex := lastApplied |> <| nd_peer ::= λ p, NotifyRaftLastApplied p lastApplied |>.

(** [on_peer f]: the peer does [f]; [None] is its panic. *)
Definition on_peer (f : Peer → option Peer) (n : Node) : option Node := p ← f (nd_peer n); Some (n <| nd_peer := p |>).
Definition recording (t : MessageType) (n : Node) : Node := n <| nd_qs ::= λ q, quiesce.record q t |>.

Definition tickNode (n : Node) : option Node :=
  let n := n <| nd_qs ::= quiesce.tick |> in
  on_peer (if quiesce.quiesced (nd_qs n) then QuiescedTick else Tick) n.

Definition recordMessage (n : Node) (m : Message) : Node :=
  match m_Type m with
  | Heartbeat | HeartbeatResp => recording (if 0 <? m_Hint m then ReadIndex else m_Type m) n
  | t => recording t n
  end.

(** [handleMessage], and [Peer.Handle] for the messages it leaves. *)
Definition handleMessage (n : Node) (m : Message) : option Node :=
  match m_Type m with
  | LocalTick => tickNode n
  | Quiesce => Some (n <| nd_qs ::= quiesce.tryEnterQuiesce |>)
  | SnapshotStatus => on_peer (λ p, ReportSnapshotStatus p (m_From m) (m_Reject m)) n
  | Unreachable => on_peer (λ p, ReportUnreachableNode p (m_From m)) n
  | _ => on_peer (λ p, Handle p m) (recordMessage n m)
  end.

Fixpoint handleReceivedMessages (busy : bool) (n : Node) (ms : list Message) : option Node :=
  match ms with
  | [] => Some n
  | m :: ms =>
      n ← (if bool_decide (m_Type m = Replicate) && busy then Some n else handleMessage n m);
      handleReceivedMessages busy n ms
  end.

(** [handleEvents]: the node, and whether there was anything to do. *)
Definition handleEvents (n : Node) (ev : Events) : option (Node * bool) :=
  let n := updateAppliedIndex n (ev_lastApplied ev) in
  let hasEvent := negb (ev_lastApplied ev =? nd_confirmedIndex n) || HasEntryToApply (nd_peer n) in
  n ← match ev_read ev with
      | Some ctx => on_peer (λ p, ReadIndexRequest p ctx) (recording ReadIndex n)
      | None => Some n
      end;
  n ← handleReceivedMessages (ev_busy ev) n (ev_messages ev);
  n ← match ev_configChange ev with
      | Some (cc, key) => on_peer (λ p, ProposeConfigChange p cc key) (recording ConfigChangeEvent n)
      | None => Some n
      end;
  let n := n <| nd_peer ::= PeerRateLimited |> in
  n ← match ev_proposals ev with [] => Some n | ents => on_peer (λ p, ProposeEntries p ents) n end;
  n ← match ev_transfer ev with Some target => on_peer (λ p, RequestLeaderTransfer p target) n | None => Some n end;
  Some (n, hasEvent || bool_decide (is_Some (ev_read ev)) || negb (bool_decide (ev_messages ev = [])) ||
           bool_decide (is_Some (ev_configChange ev)) || negb (bool_decide (ev_proposals ev = [])) ||
           bool_decide (is_Some (ev_transfer ev)) || ev_snapshot ev || ev_compaction ev).

(** [sendEnterQuiesceMessages]. *)
Definition enterQuiesceMessages (n : Node) (addresses : list Z) : list Message :=
  let r := p_raft (nd_peer n) in
  (λ to, (msg Quiesce) <| m_From := r_nodeID r |> <| m_To := to |> <| m_ClusterId := r_clusterID r |>)
    <$> filter (λ to, to ≠ r_nodeID r) addresses.

Definition getNodeUpdate (n : Node) (moreEntries compaction : bool) : option (Node * option Update) :=
  has ← HasUpdate (nd_peer n) moreEntries;
  if has || negb (nd_confirmedIndex n =? nd_appliedIndex n) || compaction then
    if nd_appliedIndex n <? nd_confirmedIndex n then None
    else
      ud ← GetUpdate (nd_peer n) moreEntries (nd_appliedIndex n);
      Some (n <| nd_confirmedIndex := nd_appliedIndex n |>, Some ud)
  else Some (n, None).

(** [stepNode]: the node, the quiescence messages sent and the update. *)
Definition stepNode (n : Node) (ev : Events) : option (Node * list Message * option Update) :=
  '(n, hasEvent) ← handleEvents n ev;
  if (hasEvent : bool) then
    let fresh := qs_newQuiesceStateFlag (nd_qs n) in
    let n := n <| nd_qs ::= λ q, q <| qs_newQuiesceStateFlag := false |> |> in
    '(n, ud) ← getNodeUpdate n (ev_moreToApply ev) (ev_compaction ev);
    Some (n, if fresh then enterQuiesceMessages n (ev_addresses ev) else [], ud)
  else Some (n, [], None).

(** ** What an update is used for *)
Definition isFreeOrderMessage (m : Message) : bool := match m_Type m with Replicate | Ping => true | _ => false end.

(** [entriesToApply]: the entries past [pushed]; [None] is the panic on a hole or on
    entries that are too old. *)
Definition entriesToApply (n : Node) (ents : list Entry) : option (list Entry) :=
  match head ents, last ents with
  | Some f, Some l =>
      if e_Index l <? nd_pushedIndex n then None
      else if u64 (nd_pushedIndex n + 1) <? e_Index f then None
      else
        let skip := u64 (nd_pushedIndex n - e_Index f + 1) in
        Some (if skip <? Z.of_nat (length ents) then drop (Z.to_nat skip) ents else [])
  | _, _ => Some []
  end.

Definition pushEntries (n : Node) (ents : list Entry) : Node * list Task :=
  match last ents with None => (n, []) | Some l => (n <| nd_pushedIndex := e_Index l |>, [TaskEntries ents]) end.

Definition pushSnapshot (n : Node) (ss : Snapshot) (applied : Z) : option (Node * list Task) :=
  if IsEmptySnapshot ss then Some (n, [])
  else if (ss_Index ss <? nd_pushedIndex n) || (ss_Index ss <? nd_ssIndex n) || (ss_Index ss <? applied) then None
  else Some (n <| nd_ssIndex := ss_Index ss |> <| nd_pushedIndex := ss_Index ss |>, [TaskRecover (ss_Index ss)]).

(** [applySnapshotAndUpdate] of one update: [processSnapshot], [applyRaftUpdates]. *)
Definition applySnapshotAndUpdate (n : Node) (ud : Update) : option (Node * list Task) :=
  let n := if IsEmptySnapshot (ud_Snapshot ud) then n else n <| nd_reader ::= λ lr, (reader.ApplySnapshot lr (ud_Snapshot ud)).1 |> in
  '(n, t1) ← pushSnapshot n (ud_Snapshot ud) (ud_LastApplied ud);
  ents ← entriesToApply n (ud_CommittedEntries ud);
  let '(n, t2) := pushEntries n ents in
  Some (n, t1 ++ t2).

Definition SaveRaftState (n : Node) (ud : Update) : option Node :=
  s ← saveRaftState (lr_store (nd_reader n)) (ud_State ud) (ud_Snapshot ud) (ud_EntriesToSave ud);
  Some (n <| nd_reader ::= λ lr, lr <| lr_store := s |> |>).

(** [processRaftUpdate]: the log reader learns of the entries; the messages that had
    to wait for the storage are sent. *)
Definition processRaftUpdate (n : Node) (ud : Update) : option Node :=
  lr ← reader.Append (nd_reader n) (ud_EntriesToSave ud);
  Some (n <| nd_reader := lr |>).

Definition commitRaftUpdate (n : Node) (ud : Update) : option Node := on_peer (λ p, Commit p ud) (sync n).

(** One round of [processSteps] for a node: the node, the messages sent and what the
    state machine is handed. *)
Definition processSteps (n : Node) (ev : Events) : option (Node * list Message * list Task) :=
  '(n, quiet, ud) ← stepNode n ev;
  match ud with
  | None => Some (n, quiet, [])
  | Some ud =>
      '(n, t1) ← (if ud_FastApply ud then applySnapshotAndUpdate n ud else Some (n, []));
      n ← SaveRaftState n ud;
      '(n, t2) ← (if ud_FastApply ud then Some (n, []) else applySnapshotAndUpdate n ud);
      n ← processRaftUpdate n ud;
      n ← commitRaftUpdate n ud;
      Some (n, quiet ++ filter (λ m, isFreeOrderMessage m = true) (ud_Messages ud) ++
                       filter (λ m, isFreeOrderMessage m = false) (ud_Messages ud), t1 ++ t2)
  end.

(** ** What the state machine asks of the node *)
Definition ApplyConfigChangeNode (n : Node) (isWitness : bool) (cc : ConfigChange) (rejected : bool) : option Node :=
  n ← (if rejected then Some n else on_peer (λ p, ApplyConfigChange p cc) n);
  if negb isWitness && rejected then on_peer RejectConfigChange n else Some n.

Definition RestoreRemotesNode (n : Node) (ss : Snapshot) : option Node :=
  if mb_ConfigChangeId (ss_Membership ss) =? 0 then None else on_peer (λ p, RestoreRemotes p ss) n.

(** ** Starting *)

(** [replayLog] and [startRaft] of a node whose process starts on its records. *)
Definition replayLog (s : Store) : option (LogReader * bool) :=
  let ss := GetMostRecentSnapshot s in
  let lr := NewLogReader s in
  let lr := if 0 <? ss_Index ss then (reader.ApplySnapshot lr ss).1 else lr in
  rs ← ReadRaftState s (ss_Index ss);
  match rs with
  | None => Some (lr, true)
  | Some (st, first, count) =>
      let hasRaftState := negb (IsEmptyState st) in
      let lr := if hasRaftState then reader.SetState lr st else lr in
      lr ← reader.SetRange lr first count;
      Some (lr, negb ((0 <? ss_Index ss) || (0 <? count) || hasRaftState))
  end.

(** [setInitialStatus] gives the index the state machine starts from. *)
Definition startRaft (c : Config) (quiesceEnabled : bool) (s : Store) (events : bool) (peers : list PeerAddress)
    (initial : bool) (index : Z) : option Node :=
  '(lr, newNode) ← replayLog s;
  p ← Launch c (reader.logdb lr) events peers initial newNode;
  Some {| nd_peer := p; nd_reader := lr;
          nd_qs := {| qs_currentTick := 0; qs_electionTick := u64 (c_ElectionRTT c * 2); qs_quiescedSince := 0; qs_idleSince := 0;
                      qs_exitQuiesceTick := 0; qs_enabled := quiesceEnabled; qs_newQuiesceStateFlag := false |};
          nd_confirmedIndex := 0; nd_appliedIndex := 0; nd_pushedIndex := index; nd_ssIndex := index |}.
End node.
