(* ===== verification/RaftQuiet.v ===== *)
(** * What leaves elections alone

    Most of what a Raft node does on a message touches neither its term, its vote,
    its role nor its members.  [quiet] says so of two states of a node, and of the
    messages in between; it is a preorder, so that a handler has the property when
    its steps do. *)
From S2P Require Import Prelude Raftpb RaftLog Raft.
From Stdlib Require Import Ascii.

Local Open Scope Z_scope.

(** A message that asks for no vote and gives none, and changes no membership. *)
Definition plain (t : MessageType) : Prop :=
  match t with RequestVote | RequestVoteResp | ConfigChangeEvent | SnapshotReceived => False | _ => True end.

(** What a node [n] may send besides votes and requests of its own. *)
Definition unvoting (n : Z) (m : Message) : Prop :=
  m_From m = n ∧ (plain (m_Type m) ∨ (m_Type m = RequestVoteResp ∧ m_Reject m = true)).

Record quiet (r r' : raft) : Prop := {
  q_id : r_nodeID r' = r_nodeID r;
  q_term : r_term r' = r_term r;
  q_vote : r_vote r' = r_vote r;
  q_state : r_state r' = r_state r;
  q_votes : r_votes r' = r_votes r;
  q_remotes : dom (r_remotes r') = dom (r_remotes r);
  q_observers : dom (r_observers r') = dom (r_observers r);
  q_witnesses : dom (r_witnesses r') = dom (r_witnesses r);
  q_applied : r_applied r' = r_applied r;
  q_committed : el_committed (r_log r) ≤ el_committed (r_log r');
  q_msgs : ∃ new, r_msgs r' = r_msgs r ++ new ∧ Forall (unvoting (r_nodeID r)) new
}.

Create HintDb quiet discriminated.

#[export] Instance quiet_preorder : PreOrder quiet.
Proof.
  split.
  - intros r. split; try done. exists []. by rewrite app_nil_r.
  - intros r1 r2 r3 [] []. split; try congruence; [lia|].
    destruct q_msgs0 as (n1 & E1 & F1), q_msgs1 as (n2 & E2 & F2). exists (n1 ++ n2).
    split; [by rewrite E2 E1 assoc_L|]. apply Forall_app. split; [done|].
    eapply Forall_impl; [exact F2|]. by rewrite q_id0.
Qed.

(** A field elections do not look at. *)
Ltac quiet_field := split; [done..|exists []; by rewrite app_nil_r].

(** Takes a handler apart into its steps: [H : x ≫= k = Some r']. *)
Ltac unbind H :=
  repeat lazymatch type of H with mbind _ _ = Some _ => apply bind_Some in H as (? & ? & H); cbv beta in H end.

(** All branches of a handler. *)
Ltac steps H :=
  cbv beta iota in H;
  lazymatch type of H with
  | Some _ = Some _ => injection H; clear H; intros; subst
  | None = Some _ => discriminate H
  | mbind _ _ = Some _ => let H' := fresh "S" in apply bind_Some in H as (? & H' & H); steps H'; steps H
  | match ?x with _ => _ end = Some _ => let E := fresh "E" in destruct x eqn:E; steps H
  | _ => idtac
  end.

(** *** The committed index never goes back *)
Create HintDb committed discriminated.
#[export] Hint Extern 1 (_ ≤ _) => reflexivity : committed.

Lemma commitTo_le l i l' : commitTo l i = Some l' → el_committed l ≤ el_committed l'.
Proof.
  rewrite /commitTo. intros Hc. destruct (Z.leb_spec i (el_committed l)); [by injection Hc as <-|].
  destruct (lastIndex l <? i); [done|]. injection Hc as <-. proj_simpl. lia.
Qed.
Lemma append_le l ents l' : append l ents = Some l' → el_committed l ≤ el_committed l'.
Proof. rewrite /append. intros Hc. steps Hc; done. Qed.
Lemma tryAppend_le l i ents l' : tryAppend l i ents = Some l' → el_committed l ≤ el_committed l'.
Proof. rewrite /tryAppend. intros Hc. steps Hc; [done|]. by eapply append_le. Qed.
Lemma tryCommit_le l i t l' b : RaftLog.tryCommit l i t = Some (l', b) → el_committed l ≤ el_committed l'.
Proof. rewrite /RaftLog.tryCommit. intros Hc. steps Hc; try done; by eapply commitTo_le. Qed.
#[export] Hint Resolve commitTo_le append_le tryAppend_le tryCommit_le : committed.
#[export] Hint Extern 3 (_ ≤ _) => (etransitivity; [|eapply commitTo_le; eassumption]) : committed.

Lemma restore_le l ss : (ss_Index ss <=? el_committed l) = false → el_committed l ≤ el_committed (RaftLog.restore l ss).
Proof. intros Hi%Z.leb_gt. rewrite /RaftLog.restore. proj_simpl. lia. Qed.
#[export] Hint Resolve restore_le : committed.

Lemma quiet_log r f : el_committed (r_log r) ≤ el_committed (f (r_log r)) → quiet r (r <| r_log ::= f |>).
Proof. intros Hl. split; [done..|exists []; by rewrite app_nil_r]. Qed.

(** Follows the steps back from the last state to the first. *)
Ltac quiet_back :=
  lazymatch goal with
  | |- quiet ?a ?a => reflexivity
  | |- quiet _ (upd r_log _ ?x) => transitivity x; [|apply quiet_log; solve [eauto with committed]]; quiet_back
  | |- quiet _ (upd _ _ ?x) => transitivity x; [|quiet_field]; quiet_back
  | |- quiet _ ?b => first [reflexivity | etransitivity; [|solve [eauto with quiet]]; quiet_back]
  end.

Section quiet.
Context `{RaftEnv}.
Implicit Types r : raft.

Lemma quiet_put r k id rp : is_Some (members r k !! id) → quiet r (put_remote r k id rp).
Proof.
  intros Hs. destruct k; (split; [done..| | | |done|done|exists []; by rewrite app_nil_r]); cbn; try done;
    rewrite /put_remote /set_members; proj_simpl; rewrite dom_insert_L; apply elem_of_dom in Hs; set_solver.
Qed.
Lemma quiet_event r e : quiet r (emit_event r e).
Proof. quiet_field. Qed.
Lemma quiet_rl r rl : quiet r (set_rl r rl).
Proof. quiet_field. Qed.
Lemma quiet_leader r l : quiet r (setLeaderID r l).
Proof.
  rewrite /setLeaderID. destruct (r_events _) as [es|]; [|quiet_field]. destruct (_ || _ || _); quiet_field.
Qed.

Lemma find_remote_Some r id k rp : find_remote r id = Some (k, rp) → members r k !! id = Some rp.
Proof. rewrite /find_remote. intros Hf. repeat case_match; simplify_eq; done. Qed.

(** Anything but a vote or a request for votes. *)
Lemma send_quiet r m r' :
  send r m = Some r' → plain (m_Type m) ∨ (m_Type m = RequestVoteResp ∧ m_Reject m = true) → quiet r r'.
Proof.
  rewrite /send. intros (x & Hf & [= <-])%bind_Some Hg. split; [done..|].
  exists [x]. split; [done|]. apply Forall_singleton. move: Hf. rewrite /finalizeMessageTerm. proj_simpl. intros Hf.
  repeat case_match; simplify_eq; by split.
Qed.
Lemma send_plain r m r' : send r m = Some r' → plain (m_Type m) → quiet r r'.
Proof. intros Hs Hp. eapply send_quiet; [exact Hs|by left]. Qed.
Hint Extern 4 (quiet _ _) => (eapply send_plain; [eassumption|done]) : quiet.

Lemma each_quiet_term f t r ids r' :
  (∀ r id r', r_term r = t → f r id = Some r' → quiet r r') → r_term r = t → each f r ids = Some r' → quiet r r'.
Proof.
  intros Hf. revert r. induction ids as [|id ids IH]; intros r Ht; cbn [each]; [by intros [= <-]|].
  intros (r1 & H1 & H2)%bind_Some. pose proof (Hf _ _ _ Ht H1) as Hq. etransitivity; [exact Hq|].
  eapply IH; [|exact H2]. by rewrite (q_term _ _ Hq).
Qed.
Lemma each_quiet f r ids r' :
  (∀ r id r', f r id = Some r' → quiet r r') → each f r ids = Some r' → quiet r r'.
Proof. intros Hf. apply (each_quiet_term _ (r_term r)); [|done]. intros r1 id r2 _. apply Hf. Qed.

Hint Resolve quiet_put quiet_event quiet_rl quiet_leader : quiet.

Lemma commit_quiet r r' b : tryCommit r = Some (r', b) → quiet r r'.
Proof. rewrite /tryCommit. intros Hc. unbind Hc. destruct x1 as [l b']. injection Hc as <- <-. quiet_back. Qed.
Hint Resolve commit_quiet : quiet.

Lemma append_quiet r ents r' : appendEntries r ents = Some r' → quiet r r'.
Proof.
  rewrite /appendEntries. intros Hc. unbind Hc. set (r1 := put_remote _ _ _ _) in Hc.
  assert (quiet r r1) as Hq. { etransitivity; [apply (quiet_log r (λ _, x)); by eapply append_le|]. apply quiet_put. by eexists. }
  destruct (isSingleNodeQuorum r1).
  - unbind Hc. destruct x1. injection Hc as <-. etransitivity; [exact Hq|]. by eapply commit_quiet.
  - by injection Hc as <-.
Qed.
Hint Resolve append_quiet : quiet.

Lemma replicate_quiet r to r' : sendReplicateMessage r to = Some r' → quiet r r'.
Proof.
  rewrite /sendReplicateMessage. intros ([k rp] & Hf & Hc)%bind_Some. apply find_remote_Some in Hf.
  destruct (rem.isPaused rp); [by injection Hc as <-|]. apply bind_Some in Hc as ([m|e] & Hm & Hc).
  - apply bind_Some in Hc as (r1 & H1 & Hc). assert (quiet r r1) as Hq.
    { destruct (last (m_Entries m)); [|by injection H1 as <-]. unbind H1. injection H1 as <-. apply quiet_put. by eexists. }
    etransitivity; [exact Hq|]. move: Hm. rewrite /makeReplicateMessage. intros Hm. unbind Hm.
    destruct x as [t|]; [|done]. unbind Hm. destruct x as [es|]; [|done]. unbind Hm. injection Hm as <-.
    by eapply send_plain.
  - destruct (negb (rm_active rp)); [by injection Hc as <-|]. unbind Hc. destruct x as [m i].
    etransitivity; [apply quiet_put; by eexists|]. move: H0. rewrite /makeInstallSnapshotMessage.
    destruct (IsEmptySnapshot _); [done|]. intros [= <- <-]. by eapply send_plain.
Qed.
Hint Resolve replicate_quiet : quiet.

Lemma broadcast_quiet r r' : broadcastReplicateMessage r = Some r' → quiet r r'.
Proof.
  rewrite /broadcastReplicateMessage. intros (_ & _ & Hc)%bind_Some. case_bool_decide; [done|]. cbn [rangeKeys] in Hc.
  etransitivity; [|eapply each_quiet; [|exact Hc]]; [quiet_field|]. intros r1 id r2. cbv beta.
  destruct (id =? r_nodeID r1); [by intros [= <-]|apply replicate_quiet].
Qed.
Hint Resolve broadcast_quiet : quiet.

Lemma heartbeat_quiet r to hint i r' : sendHeartbeatMessage r to hint i = Some r' → quiet r r'.
Proof. intros Hs. by eapply send_plain. Qed.

Lemma hint_quiet r ctx r' : broadcastHeartbeatMessageWithHint r ctx = Some r' → quiet r r'.
Proof.
  rewrite /broadcastHeartbeatMessageWithHint. cbn [rangeKeys]. intros (r1 & H1 & Hc)%bind_Some. transitivity r1.
  - etransitivity; [|eapply each_quiet; [|exact H1]]; [quiet_field|]. intros r2 id r3. cbv beta.
    destruct (id =? r_nodeID r2); [by intros [= <-]|]. intros Hs. unbind Hs. by eapply heartbeat_quiet.
  - case_bool_decide; [|by injection Hc as <-]. etransitivity; [|eapply each_quiet; [|exact Hc]]; [quiet_field|].
    intros r2 id r3. cbv beta. intros Hs. unbind Hs. by eapply heartbeat_quiet.
Qed.
Hint Resolve hint_quiet : quiet.

Lemma timeout_now_quiet r to r' : sendTimeoutNowMessage r to = Some r' → quiet r r'.
Proof. intros Hs. by eapply send_plain. Qed.
Hint Resolve timeout_now_quiet : quiet.

(** *** Handlers that leave elections alone *)
Lemma rate_quiet r r' : sendRateLimitMessage r = Some r' → quiet r r'.
Proof.
  rewrite /sendRateLimitMessage. intros Hs. destruct (isLeader r); [done|]. destruct (_ =? _); [by injection Hs as <-|].
  destruct (negb _); [by injection Hs as <-|]. destruct (rate.RateLimited _) as [rl b]. unbind Hs. quiet_back.
Qed.
Hint Resolve rate_quiet : quiet.

Lemma heartbeat_message_quiet r m r' : handleHeartbeatMessage r m = Some r' → quiet r r'.
Proof. rewrite /handleHeartbeatMessage. intros Hs. unbind Hs. quiet_back. Qed.
Hint Resolve heartbeat_message_quiet : quiet.

Lemma restore_quiet r ss r' b : restore r ss = Some (r', b) → quiet r r'.
Proof. rewrite /restore. intros Hs. steps Hs; quiet_back. Qed.
Hint Resolve restore_quiet : quiet.

Lemma snapshot_message_quiet r m r' : handleInstallSnapshotMessage r m = Some r' → quiet r r'.
Proof. rewrite /handleInstallSnapshotMessage. intros Hs. steps Hs; quiet_back. Qed.
Hint Resolve snapshot_message_quiet : quiet.

Lemma replicate_message_quiet r m r' : handleReplicateMessage r m = Some r' → quiet r r'.
Proof. rewrite /handleReplicateMessage. intros Hs. steps Hs; quiet_back. Qed.
Hint Resolve replicate_message_quiet : quiet.

Lemma dropped_proposal_quiet r m : quiet r (reportDroppedProposal r m).
Proof. quiet_field. Qed.
Lemma dropped_read_quiet r m : quiet r (reportDroppedReadIndex r m).
Proof. quiet_field. Qed.
Lemma ready_quiet r i c : quiet r (addReadyToRead r i c).
Proof. quiet_field. Qed.
Lemma available_quiet r : quiet r (leaderIsAvailable r).
Proof. quiet_field. Qed.
Hint Resolve dropped_proposal_quiet dropped_read_quiet ready_quiet available_quiet : quiet.

Lemma dom_forget r rs only : dom (forget r rs only) = dom rs.
Proof. apply set_eq. intros i. rewrite !elem_of_dom /forget map_lookup_imap. destruct (rs !! i); cbn; split; intros [? ?]; by eauto. Qed.

Lemma has_quorum_quiet r r' b : leaderHasQuorum r = (r', b) → quiet r r'.
Proof.
  rewrite /leaderHasQuorum. intros [= <- <-]. split; try done; [proj_simpl; apply dom_forget..|].
  exists []. by rewrite app_nil_r.
Qed.
Hint Resolve has_quorum_quiet : quiet.

Lemma propose_entries_quiet ents : ∀ r r' es, proposeEntries r ents = (r', es) → quiet r r'.
Proof.
  induction ents as [|e ents IH]; intros r r' es; cbn [proposeEntries]; [by intros [= <- <-]|].
  destruct (e_Type e); try destruct (r_pendingConfigChange r);
    destruct (proposeEntries _ ents) as [r2 es2] eqn:E2; intros [= <- <-]; (etransitivity; [|exact (IH _ _ _ E2)]); quiet_field.
Qed.
Hint Resolve propose_entries_quiet : quiet.

Lemma leader_propose_quiet r m r' : handleLeaderPropose r m = Some r' → quiet r r'.
Proof. rewrite /handleLeaderPropose. intros Hs. steps Hs; quiet_back. Qed.
Lemma leader_read_quiet r m r' : handleLeaderReadIndex r m = Some r' → quiet r r'.
Proof. rewrite /handleLeaderReadIndex. intros Hs. steps Hs; quiet_back. Qed.
Lemma leader_replicate_resp_quiet r m k rp r' :
  members r k !! m_From m = Some rp → handleLeaderReplicateResp r m k rp = Some r' → quiet r r'.
Proof.
  intros Hm. rewrite /handleLeaderReplicateResp. intros Hs. assert (is_Some (members r k !! m_From m)) by by eexists.
  steps Hs; quiet_back.
Qed.

Lemma confirm_reads_quiet m ss : ∀ r r', confirmReads m r ss = Some r' → quiet r r'.
Proof.
  induction ss as [|s ss IH]; intros r r'; cbn [confirmReads]; [by intros [= <-]|].
  intros (r1 & H1 & H2)%bind_Some. etransitivity; [|exact (IH _ _ H2)]. move: H1. rewrite /confirmRead. intros Hs. steps Hs; quiet_back.
Qed.
Hint Resolve confirm_reads_quiet : quiet.

Lemma confirmation_quiet r m r' : handleReadIndexLeaderConfirmation r m = Some r' → quiet r r'.
Proof. rewrite /handleReadIndexLeaderConfirmation. intros Hs. steps Hs; quiet_back. Qed.
Hint Resolve confirmation_quiet : quiet.

Lemma leader_heartbeat_resp_quiet r m k rp r' :
  members r k !! m_From m = Some rp → handleLeaderHeartbeatResp r m k rp = Some r' → quiet r r'.
Proof.
  intros Hm. rewrite /handleLeaderHeartbeatResp. intros Hs. assert (is_Some (members r k !! m_From m)) by by eexists.
  steps Hs; quiet_back.
Qed.
Lemma leader_snapshot_status_quiet r m k rp r' :
  members r k !! m_From m = Some rp → handleLeaderSnapshotStatus r m k rp = Some r' → quiet r r'.
Proof.
  intros Hm. rewrite /handleLeaderSnapshotStatus. intros Hs. assert (is_Some (members r k !! m_From m)) by by eexists.
  steps Hs; quiet_back.
Qed.
Lemma leader_unreachable_quiet r m k rp r' :
  members r k !! m_From m = Some rp → handleLeaderUnreachable r m k rp = Some r' → quiet r r'.
Proof. intros Hm [= <-]. apply quiet_put. by eexists. Qed.
Lemma leader_transfer_quiet r m r' : handleLeaderTransfer r m = Some r' → quiet r r'.
Proof. rewrite /handleLeaderTransfer. intros Hs. steps Hs; quiet_back. Qed.
Lemma leader_rate_quiet r m r' : handleLeaderRateLimit r m = Some r' → quiet r r'.
Proof. rewrite /handleLeaderRateLimit. intros Hs. steps Hs; quiet_back. Qed.
Lemma leader_heartbeat_quiet r m r' : handleLeaderHeartbeat r m = Some r' → quiet r r'.
Proof. rewrite /handleLeaderHeartbeat /broadcastHeartbeatMessage. intros Hs. steps Hs; quiet_back. Qed.

Lemma follower_replicate_quiet r m r' : handleFollowerReplicate r m = Some r' → quiet r r'.
Proof. rewrite /handleFollowerReplicate. intros Hs. quiet_back. Qed.
Lemma follower_heartbeat_quiet r m r' : handleFollowerHeartbeat r m = Some r' → quiet r r'.
Proof. rewrite /handleFollowerHeartbeat. intros Hs. quiet_back. Qed.
Lemma follower_snapshot_quiet r m r' : handleFollowerInstallSnapshot r m = Some r' → quiet r r'.
Proof. rewrite /handleFollowerInstallSnapshot. intros Hs. quiet_back. Qed.
Lemma follower_read_resp_quiet r m r' : handleFollowerReadIndexResp r m = Some r' → quiet r r'.
Proof. rewrite /handleFollowerReadIndexResp. intros Hs. steps Hs. quiet_back. Qed.
Lemma candidate_read_quiet r m r' : handleCandidateReadIndex r m = Some r' → quiet r r'.
Proof. rewrite /handleCandidateReadIndex. intros Hs. steps Hs. quiet_back. Qed.

(** A request passed on to the leader. *)
Lemma forward_quiet (b : bool) r r0 m r' :
  (if b then Some r0 else send r (m <| m_To := r_leaderID r |>)) = Some r' → quiet r r0 →
  plain (m_Type m) → quiet r r'.
Proof. destruct b; [by intros [= <-]|]. intros Hs _ Hp. by eapply send_plain. Qed.
End quiet.

#[export] Hint Resolve quiet_put quiet_event quiet_rl quiet_leader commit_quiet append_quiet replicate_quiet
  broadcast_quiet hint_quiet timeout_now_quiet rate_quiet heartbeat_message_quiet restore_quiet snapshot_message_quiet
  replicate_message_quiet dropped_proposal_quiet dropped_read_quiet ready_quiet available_quiet has_quorum_quiet
  propose_entries_quiet confirm_reads_quiet confirmation_quiet leader_propose_quiet leader_read_quiet
  leader_replicate_resp_quiet leader_heartbeat_resp_quiet leader_snapshot_status_quiet leader_unreachable_quiet
  leader_transfer_quiet leader_rate_quiet leader_heartbeat_quiet follower_replicate_quiet follower_heartbeat_quiet
  follower_snapshot_quiet follower_read_resp_quiet candidate_read_quiet : quiet.
#[export] Hint Extern 4 (quiet _ _) => (eapply send_plain; [eassumption|done]) : quiet.

(** ** Members *)
(** Members put back one by one. *)
Lemma restore_fold k ids : ∀ r, ∃ ms,
  foldl (restoreMember k) r ids = set_members r k ms ∧ dom ms = dom (members r k) ∪ list_to_set ids.
Proof.
  induction ids as [|id ids IH]; intros r; cbn [foldl].
  - exists (members r k). split; [by destruct k, r|set_solver].
  - destruct (IH (restoreMember k r id)) as (ms & -> & Hd). exists ms. split; [by destruct k|].
    rewrite Hd /restoreMember /setMember /put_remote. destruct k; cbn [members set_members]; proj_simpl; rewrite dom_insert_L; set_solver.
Qed.

Lemma keys_dom {A} (rs : gmap Z A) ids : ids ≡ₚ keys rs → list_to_set ids = dom rs.
Proof.
  intros Hp. apply set_eq. intros i. rewrite elem_of_list_to_set Hp /keys elem_of_dom list_elem_of_fmap. split.
  - intros ([j x] & -> & Hj%elem_of_map_to_list). by exists x.
  - intros [x Hx]. exists (i, x). split; [done|]. by apply elem_of_map_to_list.
Qed.
