(* ===== verification/RaftElection.v ===== *)
(** * Elections

    What a node has voted for, and who supports it.  [sound] is an invariant of
    one node, relative to the votes [B v c t] that other nodes are known to have
    given (v to c in term t) and the requests [asked c t] known to have been made;
    [H] is what the node itself has voted for.  Handling a message keeps it. *)
From S2P Require Import Prelude Raftpb RaftLog Raft RaftQuiet.
From Stdlib Require Import Ascii.

Local Open Scope Z_scope.

(** A vote given. *)
Definition granted (m : Message) : Prop := m_Type m = RequestVoteResp ∧ m_Reject m = false.

(** In the running for a term. *)
Definition standing (r : raft) : Prop := r_state r = candidate ∨ r_state r = leader.

Definition extends (H H' : Z → Z → Prop) : Prop := ∀ t c, H t c → H' t c.
#[export] Instance extends_preorder : PreOrder extends.
Proof. split; [intros H t c; done|intros H1 H2 H3 H12 H23 t c Hc; by apply H23, H12]. Qed.

(** What a node [n] that has voted for [H] may send. *)
Definition fits (H asked : Z → Z → Prop) (n : Z) (x : Message) : Prop :=
  m_From x = n ∧
  match m_Type x with
  | ConfigChangeEvent | SnapshotReceived => False
  | RequestVote => H (m_Term x) n
  | RequestVoteResp => m_Reject x = false → H (m_Term x) (m_To x) ∧ asked (m_To x) (m_Term x)
  | _ => True
  end.

Section members.
Context (R W : gset Z).

Definition majority : Z := Z.of_nat (size R + size W) / 2 + 1.

(** Every configuration change of the cluster has been applied. *)
Definition complete (r : raft) : Prop := dom (r_remotes r) = R ∧ dom (r_witnesses r) = W.

(** A node's role follows from the members. *)
Definition role_ok (r : raft) : Prop :=
  r_nodeID r ≠ NoNode ∧
  match r_state r with observer => r_nodeID r ∉ R ∪ W | witness => r_nodeID r ∈ W | _ => r_nodeID r ∈ R end.

(** Until all changes are applied, the applied index is behind the committed one. *)
Definition host_ok (r : raft) : Prop := complete r ∨ r_applied r < el_committed (r_log r).

Lemma complete_quorum r : complete r → quorum r = majority.
Proof. intros [H1 H2]. by rewrite /quorum /numVotingMembers -!size_dom H1 H2. Qed.
End members.

Section election.
Context `{Env : RaftEnv} (R W : gset Z) (B : Z → Z → Z → Prop) (asked : Z → Z → Prop).
Implicit Types (m x : Message) (r : raft) (H : Z → Z → Prop).

Definition supports (r : raft) (v : Z) : Prop := v = r_nodeID r ∨ (v ∈ R ∪ W ∧ B v (r_nodeID r) (r_term r)).

Record sound H r : Prop := {
  s_role : role_ok R W r;
  s_term : 0 ≤ r_term r;
  s_remotes : dom (r_remotes r) ⊆ R;
  s_witnesses : dom (r_witnesses r) ⊆ W;
  s_host : host_ok R W r;
  s_full : standing r → complete R W r;
  s_once : ∀ t c c', H t c → H t c' → c = c';
  s_cover : ∀ t c, H t c → c ≠ NoNode ∧ 0 < t ∧ (t < r_term r ∨ (t = r_term r ∧ r_vote r = c));
  s_chain : ∀ t c, H t c → c = r_nodeID r ∨ asked c t;
  s_msgs : Forall (fits H asked (r_nodeID r)) (r_msgs r);
  s_self : standing r → r_vote r = r_nodeID r ∧ H (r_term r) (r_nodeID r);
  s_votes : ∀ v, r_state r = candidate → r_votes r !! v = Some true → supports r v;
  s_lead : r_state r = leader → ∃ Q : gset Z, Q ⊆ R ∪ W ∧ majority R W ≤ Z.of_nat (size Q) ∧ ∀ v, v ∈ Q → supports r v
}.

Definition keeps (r r' : raft) : Prop :=
  ∀ H, sound H r → ∃ H', (extends H H' ∧ r_nodeID r' = r_nodeID r) ∧ sound H' r'.

#[export] Instance keeps_preorder : PreOrder keeps.
Proof.
  split.
  - intros r H Hs. exists H. by split.
  - intros r1 r2 r3 H12 H23 H Hs. destruct (H12 H Hs) as (H' & [He Ei] & Hs'). destruct (H23 H' Hs') as (H'' & [He' Ei'] & Hs'').
    exists H''. split; [split; [by transitivity H'|congruence]|done].
Qed.

Lemma unvoting_fits H n x : unvoting n x → fits H asked n x.
Proof.
  rewrite /unvoting /fits. intros [Hf Ht]. split; [done|].
  destruct Ht as [Hp|[-> ->]]; [|done]. by destruct (m_Type x).
Qed.

Lemma quiet_keeps r r' : quiet r r' → keeps r r'.
Proof.
  intros [] H Hs. destruct Hs. exists H. split; [done|]. destruct q_msgs as (new & Em & Fm).
  split; rewrite /standing /supports /role_ok /host_ok /complete ?q_id ?q_state ?q_term ?q_vote ?q_votes ?q_remotes ?q_witnesses ?q_applied //.
  - destruct s_host0 as [?|?]; [by left|right; lia].
  - rewrite Em. apply Forall_app. split; [done|]. eapply Forall_impl; [exact Fm|]. intros x. apply unvoting_fits.
Qed.

(** ** Changes of term and role *)
Record resets (r : raft) (t : Z) (r' : raft) : Prop := {
  rs_id : r_nodeID r' = r_nodeID r;
  rs_term : r_term r' = t;
  rs_vote : r_vote r' = if r_term r =? t then r_vote r else NoNode;
  rs_state : r_state r' = r_state r;
  rs_votes : r_votes r' = ∅;
  rs_remotes : dom (r_remotes r') = dom (r_remotes r);
  rs_observers : dom (r_observers r') = dom (r_observers r);
  rs_witnesses : dom (r_witnesses r') = dom (r_witnesses r);
  rs_applied : r_applied r' = r_applied r;
  rs_committed : el_committed (r_log r') = el_committed (r_log r);
  rs_msgs : r_msgs r' = r_msgs r
}.

Lemma dom_resetMembers r (rs : gmap Z remote) : dom (resetMembers r rs) = dom rs.
Proof. apply set_eq. intros i. rewrite !elem_of_dom /resetMembers map_lookup_imap. destruct (rs !! i); cbn; split; intros [? ?]; by eauto. Qed.

Lemma resets_members r t r1 rs os ws :
  resets r t r1 → dom rs = dom (r_remotes r1) → dom os = dom (r_observers r1) → dom ws = dom (r_witnesses r1) →
  resets r t (r1 <| r_remotes := rs |> <| r_observers := os |> <| r_witnesses := ws |>).
Proof. intros [] Hr Ho Hw. split; proj_simpl; congruence. Qed.

Lemma resets_votes r t r1 i :
  r_nodeID r1 = r_nodeID r → r_term r1 = t → r_vote r1 = (if r_term r =? t then r_vote r else NoNode) →
  r_state r1 = r_state r → dom (r_remotes r1) = dom (r_remotes r) → dom (r_observers r1) = dom (r_observers r) →
  dom (r_witnesses r1) = dom (r_witnesses r) → r_applied r1 = r_applied r → el_committed (r_log r1) = el_committed (r_log r) → r_msgs r1 = r_msgs r →
  resets r t (abortLeaderTransfer (clearPendingConfigChange
    (r1 <| r_votes := ∅ |> <| r_heartbeatTick := 0 |> <| r_readIndex := i |>))).
Proof. intros. split; rewrite /abortLeaderTransfer /clearPendingConfigChange; proj_simpl; congruence. Qed.

(** The first steps of [reset]. *)
Lemma reset_term r t (r1 := if r_term r =? t then r else r <| r_term := t |> <| r_vote := NoLeader |>) :
  r_nodeID r1 = r_nodeID r ∧ r_term r1 = t ∧ r_vote r1 = (if r_term r =? t then r_vote r else NoNode) ∧
  r_state r1 = r_state r ∧ r_remotes r1 = r_remotes r ∧ r_observers r1 = r_observers r ∧ r_witnesses r1 = r_witnesses r ∧
  r_applied r1 = r_applied r ∧  r_log r1 = r_log r ∧ r_msgs r1 = r_msgs r.
Proof. rewrite /r1. by destruct (Z.eqb_spec (r_term r) t). Qed.

(** Fields that [reset] leaves to itself. *)
Definition same_node (r r' : raft) : Prop :=
  r_nodeID r' = r_nodeID r ∧ r_term r' = r_term r ∧ r_vote r' = r_vote r ∧ r_state r' = r_state r ∧
  r_remotes r' = r_remotes r ∧ r_observers r' = r_observers r ∧ r_witnesses r' = r_witnesses r ∧ r_applied r' = r_applied r ∧
  el_committed (r_log r') = el_committed (r_log r) ∧ r_msgs r' = r_msgs r.

Lemma reset_rl r : same_node r (if rate.Enabled (r_rl r) then set_rl r (rate.Reset (r_rl r)) else r).
Proof. by destruct (rate.Enabled (r_rl r)). Qed.

Lemma reset_timeout (b : bool) r r' :
  (if b then setRandomizedElectionTimeout (r <| r_electionTick := 0 |>) else Some r) = Some r' → same_node r r'.
Proof.
  destruct b; [|by intros [= <-]]. rewrite /setRandomizedElectionTimeout. proj_simpl.
  destruct (r_electionTimeout r =? 0); [done|]. by intros [= <-].
Qed.

Lemma reset_spec r t b r' : reset r t b = Some r' → resets r t r'.
Proof.
  pose proof (reset_term r t) as H1. rewrite /reset. cbv zeta in H1. revert H1. set (r1 := if r_term r =? t then r else _).
  intros H1 Hr. pose proof (reset_rl r1) as H2. revert H2 Hr. set (r2 := if rate.Enabled _ then _ else r1). intros H2 Hr.
  apply bind_Some in Hr as (r3 & H3%reset_timeout & <-%(inj Some)). clearbody r2 r1.
  destruct H1 as (? & ? & ? & ? & ? & ? & ? & ? & El & ?), H2 as (? & ? & ? & ? & ? & ? & ? & ? & ? & ?),
    H3 as (? & ? & ? & ? & ? & ? & ? & ? & ? & ?).
  apply resets_members; try apply dom_resetMembers. apply resets_votes; congruence.
Qed.

(** Stepping to a term that is not older, in a role that does not stand. *)
Lemma resets_keeps r r0 t r1 :
  quiet r (r0 <| r_state := r_state r |>) → r_msgs r0 = r_msgs r → r_term r ≤ t → resets r0 t r1 → ¬ standing r0 →
  (role_ok R W r → role_ok R W r0) → keeps r r1.
Proof.
  intros [] Em Ht [] Hst Hrole. proj_simpl_in q_id.  intros H Hs. destruct Hs. exists H. split; [split; [done|congruence]|].
  proj_simpl_in q_term. proj_simpl_in q_vote. proj_simpl_in q_remotes.
  proj_simpl_in q_witnesses. proj_simpl_in q_applied. proj_simpl_in q_committed.
  assert (¬ standing r1) as Hst1 by (by rewrite /standing rs_state0).
  split; try done; try by intros.
  - specialize (Hrole s_role0). by rewrite /role_ok rs_id0 rs_state0.
  - lia.
  - by rewrite rs_remotes0 q_remotes.
  - by rewrite rs_witnesses0 q_witnesses.
  - rewrite /host_ok /complete rs_remotes0 rs_witnesses0 rs_applied0 rs_committed0 q_remotes q_witnesses q_applied.
    destruct s_host0; [by left|right; lia].
  - intros t0 c Hc. destruct (s_cover0 _ _ Hc) as (? & ? & Hor). split_and!; [done|done|].
    rewrite rs_term0 rs_vote0 q_term q_vote. destruct (Z.eqb_spec (r_term r) t) as [E|E]; [|left; lia].
    destruct Hor as [?|[??]]; [left; lia|right; split; [lia|done]].
  - by rewrite rs_id0 q_id.
  - by rewrite rs_msgs0 Em rs_id0 q_id.
  - intros v Hx. destruct Hst1. by left.
  - intros Hx. destruct Hst1. by right.
Qed.

Lemma follower_keeps r t l b r' :
  toFollowerState r t l b = Some r' → r_term r ≤ t → r_state r ≠ observer → keeps r r'.
Proof.
  rewrite /toFollowerState /isWitness. case_bool_decide as Hw; [done|]. intros (r1 & H1 & [= <-])%bind_Some Ht Ho.
  apply reset_spec in H1. transitivity r1; [|apply quiet_keeps, quiet_leader].
  eapply (resets_keeps r (r <| r_state := follower |>)); [|done|exact Ht|exact H1|by intros [?|?]|]; [quiet_field|].
  rewrite /role_ok. proj_simpl. intros [? Hr]. split; [done|]. by destruct (r_state r).
Qed.

Lemma observer_keeps r t l r' : becomeObserver r t l = Some r' → r_term r ≤ t → keeps r r'.
Proof.
  rewrite /becomeObserver /isObserver. case_bool_decide as Ho; [|done]. intros (r1 & H1 & [= <-])%bind_Some Ht.
  apply reset_spec in H1. transitivity r1; [|apply quiet_keeps, quiet_leader].
  eapply (resets_keeps r r); [|done|exact Ht|exact H1|by intros [?|?]; congruence|done]. quiet_field.
Qed.

Lemma witness_keeps r t l r' : becomeWitness r t l = Some r' → r_term r ≤ t → keeps r r'.
Proof.
  rewrite /becomeWitness /isWitness. case_bool_decide as Ho; [|done]. intros (r1 & H1 & [= <-])%bind_Some Ht.
  apply reset_spec in H1. transitivity r1; [|apply quiet_keeps, quiet_leader].
  eapply (resets_keeps r r); [|done|exact Ht|exact H1|by intros [?|?]; congruence|done]. quiet_field.
Qed.

(** The term can grow: no wrap at 64 bits. *)
Definition room (r : raft) : Prop := in_u64 (r_term r) ∧ r_term r ≠ 2 ^ 64 - 1.

Definition vote_for (H : Z → Z → Prop) (t c : Z) : Z → Z → Prop := λ t' c', H t' c' ∨ (t' = t ∧ c' = c).

Lemma fits_extends H H' n x : extends H H' → fits H asked n x → fits H' asked n x.
Proof. intros He [Hf Hm]. split; [done|]. destruct (m_Type x); auto. intros Hr. destruct (Hm Hr). auto. Qed.

(** A candidate has a fresh term, its own vote and no other. *)
Lemma candidate_keeps r r' :
  becomeCandidate r = Some r' → room r → hasConfigChangeToApply r = false →
  keeps r r' ∧ r_state r' = candidate ∧ r_votes r' = ∅.
Proof.
  rewrite /becomeCandidate. intros Hc [Hu Hmax] Ha. destruct (isLeader r || isObserver r || isWitness r) eqn:Hs; [done|].
  unbind Hc. rename x into r1. revert select (reset _ _ _ = _). intros H1%reset_spec. injection Hc as <-.
  rewrite u64_small in H1; [zlia|]. destruct H1, (quiet_leader r1 NoLeader) as [].
  proj_simpl_in rs_state0. proj_simpl_in rs_id0. proj_simpl_in rs_remotes0. proj_simpl_in rs_applied0.
  proj_simpl_in rs_witnesses0. proj_simpl_in rs_msgs0. proj_simpl_in rs_committed0. destruct q_msgs as (new & E & F).
  split; [|split; proj_simpl; congruence]. intros H Hr. destruct Hr. exists (vote_for H (r_term r + 1) (r_nodeID r)).
  assert (extends H (vote_for H (r_term r + 1) (r_nodeID r))) as He by (intros t c ?; by left). split; [split; [done|proj_simpl; congruence]|].
  apply Z.ltb_ge in Ha. assert (complete R W r) as Hf by (destruct s_host0; [done|lia]). destruct s_role0 as [Hid Hrole].
  assert (complete R W ((setLeaderID r1 NoLeader) <| r_vote := r_nodeID r1 |>)) as Hf'.
  { rewrite /complete. proj_simpl. destruct Hf. split; congruence. }
  split; proj_simpl; try (by intros; congruence).
  - rewrite /role_ok. proj_simpl. rewrite q_id rs_id0 q_state rs_state0. split; [done|]. move: Hs Hrole. rewrite /isLeader /isObserver /isWitness.
    repeat case_bool_decide; try done. by destruct (r_state r).
  - rewrite q_term rs_term0. lia.
  - by rewrite q_remotes rs_remotes0.
  - by rewrite q_witnesses rs_witnesses0.
  - by left.
  - intros t c c' [H1|[-> ->]] [H2|[E2 ->]]; [by eapply s_once0| | |done].
    + apply s_cover0 in H1 as (_ & _ & ?). lia.
    + apply s_cover0 in H2 as (_ & _ & ?). lia.
  - intros t c [Hc|[-> ->]].
    + destruct (s_cover0 _ _ Hc) as (? & ? & ?). split_and!; [done|done|]. left. lia.
    + split_and!; [done|lia|]. right. split; congruence.
  - intros t c [Hc|[-> ->]]; [|left; congruence]. destruct (s_chain0 _ _ Hc) as [->|?]; [left; congruence|by right].
  - rewrite E rs_msgs0 q_id rs_id0. apply Forall_app. split.
    + eapply Forall_impl; [exact s_msgs0|]. intros x. by apply fits_extends.
    + eapply Forall_impl; [exact F|]. intros x. rewrite rs_id0. apply unvoting_fits.
  - intros _. split; [congruence|]. right. split; congruence.
  - intros v _. rewrite q_votes rs_votes0. done.
Qed.

(** The nodes that have voted for a candidate. *)
Definition yes (r : raft) : gmap Z bool := filter (λ p, p.2 = true) (r_votes r).

Lemma elem_of_yes r v : v ∈ dom (yes r) ↔ r_votes r !! v = Some true.
Proof.
  rewrite elem_of_dom /yes. split.
  - intros [b [Hb E]%map_lookup_filter_Some]. cbn in E. by subst.
  - intros Hv. exists true. by apply map_lookup_filter_Some.
Qed.

(** A candidate that a quorum voted for leads its term. *)
Lemma leader_keeps r r' :
  becomeLeader r = Some r' → r_state r = candidate → quorum r ≤ Z.of_nat (size (yes r)) → keeps r r'.
Proof.
  rewrite /becomeLeader /isLeader /isCandidate. intros Hl Hs HQ.
  rewrite (bool_decide_eq_true_2 (r_state r = candidate)) // andb_false_r in Hl.
  apply bind_Some in Hl as (r1 & H1%reset_spec & Hl). cbv beta in Hl. apply bind_Some in Hl as (r2 & H2 & Hl). proj_simpl_in H1.
  transitivity r1; [|apply quiet_keeps].
  2: { etransitivity; [apply quiet_leader|]. etransitivity; [|by eapply append_quiet].
       move: H2. rewrite /preLeaderPromotionHandleConfigChange. intros H2. steps H2; [quiet_field|done]. }
  destruct H1. proj_simpl_in rs_vote0. rewrite Z.eqb_refl in rs_vote0. proj_simpl_in rs_id0.
  intros H Hr. destruct Hr. exists H. split; [done|]. proj_simpl_in rs_state0. proj_simpl_in rs_remotes0. proj_simpl_in rs_witnesses0.
  proj_simpl_in rs_msgs0. proj_simpl_in rs_applied0. proj_simpl_in rs_committed0.
  destruct (s_self0 (or_introl Hs)) as [Hv HH]. pose proof (s_full0 (or_introl Hs)) as Hf.
  split; rewrite /role_ok /host_ok /complete /supports ?rs_id0 ?rs_term0 ?rs_vote0 ?rs_state0 ?rs_remotes0 ?rs_witnesses0
    ?rs_applied0 ?rs_committed0 ?rs_msgs0 //; try by intros.
  - rewrite /role_ok Hs in s_role0. done.
  - intros _. exists (dom (yes r)). split_and!.
    + intros v Hv'%elem_of_yes. destruct (s_votes0 v Hs Hv') as [->|[??]]; [|done].
      rewrite /role_ok Hs in s_role0. set_solver.
    + by rewrite size_dom -(complete_quorum R W r).
    + intros v Hv'%elem_of_yes. exact (s_votes0 v Hs Hv').
Qed.

Lemma vote_keeps r from rejected r' c :
  handleVoteResp r from rejected = (r', c) → r_state r = candidate → (rejected = false → supports r from) →
  keeps r r' ∧ r_state r' = candidate ∧ c = Z.of_nat (size (yes r')) ∧
  (rejected = false → r_votes r !! from = None → 1 ≤ c).
Proof.
  rewrite /handleVoteResp. intros [= Hr Hc] Hs Hf. rewrite Hr in Hc.
  assert (quiet r (r' <| r_votes := r_votes r |>) ∧ r_msgs r' = r_msgs r ∧ supports r' = supports r ∧ r_state r' = candidate ∧
    ∀ v, r_votes r' !! v = Some true → r_votes r !! v = Some true ∨ (v = from ∧ rejected = false)) as (Q & Em & Es & Hs' & Hv).
  { subst r'. destruct (r_votes r !! from) eqn:E; (split_and!; [quiet_field|done|done|done|]); [by left|].
    intros v. proj_simpl. destruct (decide (v = from)) as [->|Hne];
      [rewrite lookup_insert_eq; intros [= Hn]; right; by destruct rejected|rewrite lookup_insert_ne //; by left]. }
  split_and!; [|done|done|].
  - intros H Hx. apply (quiet_keeps _ _ Q) in Hx as (H' & [He Ei] & Hx). destruct Hx. exists H'. split; [done|].
    split; try done. intros v Hst Hvv. destruct (Hv v Hvv) as [Hold|[-> Hrej]]; [exact (s_votes0 v Hst Hold)|rewrite Es; by apply Hf].
  - intros Hrej Hn. assert (from ∈ dom (yes r')) as Hin.
    { apply elem_of_yes. subst r' rejected. rewrite Hn. proj_simpl. by rewrite lookup_insert_eq. }
    apply elem_of_dom in Hin as [b Hb]. rewrite -Hc -/(yes r'). destruct (size (yes r')) eqn:E0; [|lia].
    apply map_size_empty_iff in E0. by rewrite E0 in Hb.
Qed.

(** Sending one more message of the node's own. *)
Lemma send_keeps r x r' :
  r' = r <| r_msgs ::= λ ms, ms ++ [x] |> → (∀ H, sound H r → fits H asked (r_nodeID r) x) → keeps r r'.
Proof.
  intros -> Hx H Hs. pose proof (Hx H Hs). destruct Hs. exists H. split; [done|]. split; try done.
  proj_simpl. apply Forall_app. split; [done|]. by apply Forall_singleton.
Qed.

Definition vote_request (r : raft) (k i lt hint : Z) : Message :=
  (msg RequestVote) <| m_Term := r_term r |> <| m_To := k |> <| m_LogIndex := i |> <| m_LogTerm := lt |> <| m_Hint := hint |>.

Lemma request_keeps r k i lt hint r' :
  send r (vote_request r k i lt hint) = Some r' → standing r →
  keeps r r' ∧ r_state r' = r_state r ∧ r_term r' = r_term r.
Proof.
  rewrite /send. intros (x & Hf & [= <-])%bind_Some Hs. split; [|done].
  eapply send_keeps; [done|]. intros H Hx. move: Hf. rewrite /finalizeMessageTerm /vote_request. proj_simpl. cbn [msg m_Type].
  rewrite (bool_decide_eq_true_2 (RequestVote = RequestVote)) // andb_true_r andb_false_r.
  destruct (r_term r =? 0); [done|]. intros [= <-]. split; [done|]. exact (proj2 (s_self _ _ Hx Hs)).
Qed.

Lemma requests_keeps r t hint ids r' :
  each (λ r k, if k =? r_nodeID r then Some r
               else lt ← lastTerm (r_log r); send r ((msg RequestVote) <| m_Term := t |> <| m_To := k |>
                      <| m_LogIndex := lastIndex (r_log r) |> <| m_LogTerm := lt |> <| m_Hint := hint |>)) r ids = Some r' →
  r_term r = t → standing r → keeps r r'.
Proof.
  revert r. induction ids as [|k ids IH]; intros r; cbn [each]; [by intros [= <-]|].
  intros (r1 & H1 & H2)%bind_Some Ht Hs. destruct (k =? r_nodeID r).
  - injection H1 as <-. by apply IH.
  - apply bind_Some in H1 as (lt & _ & H1). rewrite -Ht in H1. apply request_keeps in H1 as (K & E1 & E2); [|done].
    etransitivity; [exact K|]. apply IH; [done|congruence|by rewrite /standing E1].
Qed.

Lemma campaign_keeps r r' :
  campaign r = Some r' → room r → hasConfigChangeToApply r = false → keeps r r'.
Proof.
  rewrite /campaign. intros Hc Hr Ha. apply bind_Some in Hc as (r1 & H1 & Hc). cbv beta in Hc.
  apply candidate_keeps in H1 as (K1 & S1 & V1); [|done|done]. etransitivity; [exact K1|]. clear K1 Hr Ha.
  set (e := CampaignLaunched _ _ _) in Hc. set (r2 := emit_event r1 e) in Hc. set (t := r_term r1) in Hc.
  assert (quiet r1 r2 ∧ r_state r2 = candidate ∧ r_votes r2 = ∅ ∧ r_term r2 = t) as (Q2 & S2 & V2 & T2)
    by (split_and!; [apply quiet_event|done..]).
  clearbody r2 t. etransitivity; [apply quiet_keeps, Q2|]. clear Q2.
  destruct (handleVoteResp r2 _ _) as [r3 c] eqn:E3. assert (r_term r3 = t) as T3.
  { move: E3. rewrite /handleVoteResp V2. by intros [= <- _]. }
  apply vote_keeps in E3 as (K3 & S3 & Hc3 & Hone); [|done|by left]. etransitivity; [exact K3|].
  destruct (isSingleNodeQuorum r3) eqn:E.
  - eapply leader_keeps; [exact Hc|exact S3|]. apply Z.eqb_eq in E. rewrite V2 in Hone. specialize (Hone eq_refl eq_refl). lia.
  - cbn [rangeKeys] in Hc. apply requests_keeps in Hc; [|done|by left]. etransitivity; [|exact Hc]. apply quiet_keeps. quiet_field.
Qed.

Lemma election_keeps r m r' : handleNodeElection r m = Some r' → room r → keeps r r'.
Proof.
  rewrite /handleNodeElection. intros Hc Hr. destruct (isLeader r); [by injection Hc as <-|].
  destruct (hasConfigChangeToApply r) eqn:Ha; [injection Hc as <-; apply quiet_keeps, quiet_event|by apply campaign_keeps].
Qed.

(** Giving a vote: it was free, or given to the same node before. *)
Lemma give_vote_keeps r n r' :
  r_vote r = NoNode ∨ r_vote r = n → n ≠ NoNode → r_term r ≠ 0 → asked n (r_term r) →
  send (r <| r_electionTick := 0 |> <| r_vote := n |>) ((msg RequestVoteResp) <| m_To := n |>) = Some r' → keeps r r'.
Proof.
  intros Hv Hn Ht Ha. rewrite /send /finalizeMessageTerm. proj_simpl. cbn [mbind option_bind].
  rewrite (bool_decide_eq_false_2 (RequestVoteResp = RequestVote)) //. cbn. intros [= <-] H Hs. destruct Hs.
  exists (vote_for H (r_term r) n). assert (extends H (vote_for H (r_term r) n)) as He by (intros t c ?; by left). split; [done|].
  assert (∀ c, H (r_term r) c → c = n) as Hsame.
  { intros c Hc. destruct (s_cover0 _ _ Hc) as (? & _ & [?|[_ E]]); [lia|]. destruct Hv; congruence. }
  split; try done; proj_simpl.
  - intros t c c' [H1|[-> ->]] [H2|[E2 ->]]; [by eapply s_once0|subst; by apply Hsame|symmetry; by apply Hsame|done].
  - intros t c [Hc|[-> ->]]; [|split_and!; [done|lia|by right]].
    destruct (s_cover0 _ _ Hc) as (? & ? & [?|[-> ?]]); split_and!; try done; [by left|]. right. split; [done|]. symmetry. by apply Hsame.
  - intros t c [Hc|[-> ->]]; [by apply s_chain0|by right].
  - apply Forall_app. split; [eapply Forall_impl; [exact s_msgs0|]; intros x; by apply fits_extends|].
    apply Forall_singleton. split; [done|]. cbn. intros _. split; [by right|done].
  - intros Hst. destruct (s_self0 Hst) as [Hs Hh]. split; [|by left]. symmetry. by apply Hsame.
Qed.

Lemma request_vote_keeps m r r' :
  handleNodeRequestVote r m = Some r' → r_term r = m_Term m → m_From m ≠ NoNode → m_Term m ≠ 0 → asked (m_From m) (m_Term m) →
  keeps r r'.
Proof.
  rewrite /handleNodeRequestVote. intros Hs Ht Hf H0 Ha. apply bind_Some in Hs as (b & _ & Hs). cbv beta in Hs.
  destruct (canGrantVote r m && b) eqn:E.
  - apply andb_true_iff in E as [E _]. rewrite /canGrantVote in E.
    eapply give_vote_keeps; [|exact Hf|congruence|by rewrite Ht|exact Hs].
    apply orb_true_iff in E as [[E%Z.eqb_eq|E%Z.eqb_eq]%orb_true_iff|E%Z.ltb_lt]; [by left|by right|lia].
  - apply quiet_keeps. eapply send_quiet; [exact Hs|by right].
Qed.

Lemma vote_resp_keeps m r r' :
  handleCandidateRequestVoteResp r m = Some r' → r_state r = candidate →
  (m_Reject m = false → r_term r = m_Term m ∧ (m_From m ∈ dom (r_observers r) ∨ m_From m ∈ R ∪ W) ∧ B (m_From m) (r_nodeID r) (m_Term m)) →
  keeps r r'.
Proof.
  rewrite /handleCandidateRequestVoteResp. intros Hs Hc Hm. case_bool_decide as Ho; [by injection Hs as <-|].
  destruct (handleVoteResp r (m_From m) (m_Reject m)) as [r1 c] eqn:E. apply vote_keeps in E as (K1 & S1 & Cn & _); [|done|].
  - etransitivity; [exact K1|]. destruct (c =? quorum r1) eqn:Eq.
    + apply bind_Some in Hs as (r2 & H2 & Hs). etransitivity; [|by eapply quiet_keeps, broadcast_quiet].
      eapply leader_keeps; [exact H2|exact S1|]. apply Z.eqb_eq in Eq. lia.
    + destruct (_ - c =? quorum r1); [|by injection Hs as <-]. eapply follower_keeps; [exact Hs|lia|congruence].
  - intros Hr. destruct (Hm Hr) as (Ht & [Hin|Hin] & Hb); [by apply elem_of_dom in Hin|]. right. by rewrite Ht.
Qed.

(** ** Membership *)
Definition same_but_members (r r' : raft) : Prop :=
  r_nodeID r' = r_nodeID r ∧ r_term r' = r_term r ∧ r_vote r' = r_vote r ∧ r_state r' = r_state r ∧
  r_votes r' = r_votes r ∧ r_applied r' = r_applied r ∧ el_committed (r_log r') = el_committed (r_log r) ∧ r_msgs r' = r_msgs r.

Lemma members_keeps r r' :
  same_but_members r r' →
  (dom (r_remotes r) ⊆ R → dom (r_remotes r) ⊆ dom (r_remotes r') ⊆ R) →
  (dom (r_witnesses r) ⊆ W → dom (r_witnesses r) ⊆ dom (r_witnesses r') ⊆ W) → keeps r r'.
Proof.
  intros (Ei & Et & Ev & Es & Evs & Ea & Ec & Em) Hr Hw H Hs. destruct Hs. exists H. split; [done|].
  destruct (Hr s_remotes0) as [Hr1 Hr2], (Hw s_witnesses0) as [Hw1 Hw2].
  assert (complete R W r → complete R W r') as Hf by (rewrite /complete; intros [? ?]; set_solver).
  split; rewrite /standing /supports /role_ok /host_ok ?Ei ?Et ?Ev ?Es ?Evs ?Ea ?Ec ?Em //; [|by auto].
  destruct s_host0; [left; auto|by right].
Qed.

Lemma set_member_keeps r k id mt nx :
  match k with KRemote => id ∈ R | KWitness => id ∈ W | KObserver => True end → keeps r (setMember r k id mt nx).
Proof.
  intros Hid. apply members_keeps; [by destruct k| |]; destruct k; rewrite /setMember /put_remote /set_members; proj_simpl;
    rewrite ?dom_insert_L; set_solver.
Qed.

Lemma add_node_keeps r id r' : addNode r id = Some r' → id ∈ R → id ∉ dom (r_observers r) → keeps r r'.
Proof.
  rewrite /addNode. set (r1 := clearPendingConfigChange r). intros Hs Hid Ho.
  transitivity r1; [apply quiet_keeps; quiet_field|].
  assert (r_observers r1 !! id = None) as Eo by by apply not_elem_of_dom. clearbody r1. rewrite Eo in Hs.
  steps Hs; [done|]. by apply (set_member_keeps _ KRemote).
Qed.

Lemma add_observer_keeps r id r' : addObserver r id = Some r' → keeps r r'.
Proof.
  rewrite /addObserver. set (r1 := clearPendingConfigChange r). intros Hs. transitivity r1; [apply quiet_keeps; quiet_field|].
  clearbody r1. steps Hs; [done|]. by apply (set_member_keeps _ KObserver).
Qed.

Lemma add_witness_keeps r id r' : addWitness r id = Some r' → id ∈ W → keeps r r'.
Proof.
  rewrite /addWitness. set (r1 := clearPendingConfigChange r). intros Hs Hid. transitivity r1; [apply quiet_keeps; quiet_field|].
  clearbody r1. steps Hs; [done|]. by apply (set_member_keeps _ KWitness).
Qed.

Lemma remove_node_keeps r id r' : removeNode r id = Some r' → id ∉ R ∪ W → keeps r r'.
Proof.
  rewrite /removeNode. set (r1 := clearPendingConfigChange _). intros Hs Hid. transitivity r1.
  { apply members_keeps; [done| |]; rewrite /r1 /clearPendingConfigChange; proj_simpl; rewrite dom_delete_L; set_solver. }
  clearbody r1. apply bind_Some in Hs as (r2 & H2 & Hs). cbv beta in Hs. transitivity r2.
  { destruct ((r_nodeID r1 =? id) && isLeader r1) eqn:E; [|by injection H2 as <-].
    apply andb_true_iff in E as [_ E%bool_decide_eq_true_1]. eapply follower_keeps; [exact H2|lia|by rewrite E]. }
  apply quiet_keeps. set (r3 := if _ && _ then abortLeaderTransfer r2 else r2) in Hs.
  assert (quiet r2 r3) as Q by (rewrite /r3; by destruct (leaderTransfering r2 && _); [quiet_field|]). clearbody r3.
  etransitivity; [exact Q|]. steps Hs; quiet_back.
Qed.

Lemma restore_each ids : ∀ r r',
  (∀ id, id ∈ ids → id = r_nodeID r → r_state r ≠ observer) →
  each (λ r id,
        r ← (if (id =? r_nodeID r) && isObserver r then becomeFollower r (r_term r) (r_leaderID r) else Some r);
        if bool_decide (is_Some (r_witnesses r !! id)) then None else Some (restoreMember KRemote r id)) r ids = Some r' →
  r' = foldl (restoreMember KRemote) r ids.
Proof.
  induction ids as [|id ids IH]; intros r r' Ho; cbn [each foldl]; [by intros [= <-]|].
  intros (r1 & H1 & H2)%bind_Some. assert (r1 = restoreMember KRemote r id) as ->.
  { assert ((id =? r_nodeID r) && isObserver r = false) as Eo.
    { destruct (Z.eqb_spec id (r_nodeID r)) as [E|]; [|done]. apply bool_decide_eq_false_2. apply (Ho id); set_solver. }
    rewrite Eo in H1. cbn [mbind option_bind] in H1. case_bool_decide; congruence. }
  eapply IH; [|exact H2]. intros i Hi. rewrite /restoreMember /setMember /put_remote. proj_simpl. apply Ho. set_solver.
Qed.

Lemma restored_keeps r k ids :
  match k with KRemote => list_to_set ids = R | KWitness => list_to_set ids = W | KObserver => True end →
  keeps r (foldl (restoreMember k) (set_members r k ∅) ids).
Proof.
  intros Hid. destruct (restore_fold k ids (set_members r k ∅)) as (ms & -> & Hd).
  apply members_keeps; [by destruct k| |]; destruct k; cbn [members set_members] in Hd |- *; proj_simpl; proj_simpl_in Hd; set_solver.
Qed.

Lemma restore_remotes_keeps r ss r' :
  restoreRemotes r ss = Some r' → dom (mb_Addresses (ss_Membership ss)) = R → dom (mb_Witnesses (ss_Membership ss)) = W → keeps r r'.
Proof.
  rewrite /restoreRemotes. cbn [rangeKeys]. intros Hs HR HW. apply bind_Some in Hs as (r1 & H1 & Hs). cbv beta in Hs.
  set (ids := range _ _) in H1. assert (list_to_set ids = R) as Hids.
  { rewrite -HR. apply keys_dom. apply range_perm. }
  intros H Hx. apply restore_each in H1.
  2: { intros id Hid -> Ho. proj_simpl_in Ho. proj_simpl_in Hid. destruct Hx. destruct s_role0 as [_ Hrole]. rewrite Ho in Hrole. set_solver. }
  revert H Hx. change (keeps r r'). transitivity r1.
  { transitivity (r <| r_draws ::= S |>); [apply quiet_keeps; quiet_field|]. subst r1.
    exact (restored_keeps (r <| r_draws ::= S |>) KRemote ids Hids). }
  clear H1. apply bind_Some in Hs as (r2 & H2 & Hs). transitivity r2.
  { destruct (selfRemoved r1 && isLeader r1) eqn:E; [|by injection H2 as <-].
    apply andb_true_iff in E as [_ E%bool_decide_eq_true_1]. eapply follower_keeps; [exact H2|lia|by rewrite E]. }
  injection Hs as <-. etransitivity; [exact (restored_keeps r2 KObserver (keys (mb_Observers (ss_Membership ss))) I)|].
  apply (restored_keeps _ KWitness). by rewrite -HW; apply keys_dom.
Qed.

(** ** Ticks and dispatch *)

(** What the ticks hand to [Handle]. *)
Definition tick_message (m : Message) : Prop :=
  m_Term m = 0 ∧ match m_Type m with Election | CheckQuorum | LeaderHeartbeat | SnapshotStatus => True | _ => False end.

(** What makes a node campaign. *)
Definition may_campaign (m : Message) : Prop :=
  match m_Type m with LocalTick | TimeoutNow | Election => True | _ => False end.

(** What a message must be, as far as elections go: a vote or a request for one
    was really given or made, and the members stay within the cluster's. *)
Definition input_ok (r : raft) (m : Message) : Prop :=
  match m_Type m with
  | ConfigChangeEvent =>
      m_Reject m = true ∨
      match configChangeType (m_HintHigh m) with
      | Some AddNode => m_Hint m ∈ R ∧ m_Hint m ∉ dom (r_observers r)
      | Some AddWitness => m_Hint m ∈ W
      | Some RemoveNode => m_Hint m ∉ R ∪ W
      | _ => True
      end
  | SnapshotReceived =>
      dom (mb_Addresses (ss_Membership (m_Snapshot m))) = R ∧ dom (mb_Witnesses (ss_Membership (m_Snapshot m))) = W
  | RequestVote => m_Term m ≠ 0 ∧ m_From m ≠ NoNode ∧ asked (m_From m) (m_Term m)
  | RequestVoteResp =>
      m_Reject m = false →
      m_Term m ≠ 0 ∧ (m_From m ∈ dom (r_observers r) ∨ m_From m ∈ R ∪ W) ∧ B (m_From m) (r_nodeID r) (m_Term m)
  | _ => True
  end.

Lemma input_ok_same r r' m :
  r_nodeID r' = r_nodeID r → dom (r_observers r') = dom (r_observers r) → input_ok r m → input_ok r' m.
Proof. rewrite /input_ok. intros -> ->. done. Qed.

Lemma config_change_keeps r m r' :
  handleNodeConfigChange r m = Some r' → m_Type m = ConfigChangeEvent → input_ok r m → keeps r r'.
Proof.
  rewrite /handleNodeConfigChange /input_ok. intros Hs -> Hi. destruct (m_Reject m); [injection Hs as <-; apply quiet_keeps; quiet_field|].
  destruct Hi as [?|Hi]; [done|]. apply bind_Some in Hs as (c & Hc & Hs). rewrite Hc in Hi. destruct c.
  - destruct Hi. by eapply add_node_keeps.
  - by eapply remove_node_keeps.
  - by eapply add_observer_keeps.
  - by eapply add_witness_keeps.
Qed.

Section dispatch.
Context (inner : raft → Message → option raft).
Hypothesis inner_ok : ∀ m' r r', inner r m' = Some r' → tick_message m' → (m_Type m' = Election → room r) → keeps r r'.

Lemma room_quiet r r' : quiet r r' → room r → room r'.
Proof. intros []. by rewrite /room q_term. Qed.

Lemma nonleader_tick_keeps r r' : nonLeaderTick inner r = Some r' → room r → keeps r r'.
Proof.
  rewrite /nonLeaderTick. intros Hs Hr. destruct (isLeader r); [done|]. apply bind_Some in Hs as (b & _ & Hs). cbv beta in Hs.
  apply bind_Some in Hs as (r1 & H1 & Hs). assert (quiet r r1) as Q1 by (steps H1; quiet_back).
  etransitivity; [apply quiet_keeps, Q1|]. apply (room_quiet _ _ Q1) in Hr.
  destruct (isObserver r1 || isWitness r1); [by injection Hs as <-|].
  destruct (negb (selfRemoved r1) && timeForElection r1); [|by injection Hs as <-].
  etransitivity; [apply quiet_keeps; by transitivity (r1 <| r_electionTick := 0 |>); [quiet_field|]|].
  eapply inner_ok; [exact Hs|done|]. intros _. by eapply room_quiet; [|exact Hr]; quiet_field.
Qed.

Lemma check_ack_keeps k r from r' : checkAck inner k r from = Some r' → keeps r r'.
Proof.
  rewrite /checkAck. intros Hs. apply bind_Some in Hs as (rp & Hrp & Hs). cbv beta in Hs.
  destruct (rm_state rp); try by injection Hs as <-. destruct (rem.ackTick (rm_delayed rp)) as [ack due].
  set (r1 := put_remote _ _ _ _) in Hs. assert (quiet r r1) as Q1 by (apply quiet_put; by eexists). clearbody r1.
  etransitivity; [apply quiet_keeps, Q1|]. destruct due; [|injection Hs as <-; apply quiet_keeps; quiet_field].
  apply bind_Some in Hs as (r2 & H2 & Hs). cbv beta in Hs. apply bind_Some in Hs as (rp2 & Hrp2 & Hs).
  injection Hs as <-. etransitivity; [|apply quiet_keeps, quiet_put; by eexists]. by eapply inner_ok; [exact H2| |].
Qed.

Lemma check_acks_keeps k r r' : checkAcks inner k r = Some r' → keeps r r'.
Proof.
  rewrite /checkAcks. cbn [rangeKeys]. intros Hs. etransitivity; [apply quiet_keeps; by transitivity (r <| r_draws ::= S |>); [quiet_field|]|].
  revert Hs. generalize (r <| r_draws ::= S |>). generalize (range (r_draws r) (keys (members r k))).
  intros ids. induction ids as [|id ids IH]; intros r0; cbn [each]; [by intros [= <-]|].
  intros (r1 & H1 & H2)%bind_Some. etransitivity; [by eapply check_ack_keeps|by apply IH].
Qed.

Lemma leader_tick_keeps r r' : leaderTick inner r = Some r' → keeps r r'.
Proof.
  rewrite /leaderTick. intros Hs. apply bind_Some in Hs as (_ & _ & Hs). cbv beta zeta in Hs.
  apply bind_Some in Hs as (b & _ & Hs). cbv beta in Hs.
  set (r0 := if b && _ then _ else _) in Hs. assert (quiet r r0) as Q0 by (rewrite /r0; destruct (b && _); quiet_back).
  clearbody r0. etransitivity; [apply quiet_keeps, Q0|].
  apply bind_Some in Hs as (r1 & H1 & Hs). cbv beta in Hs. transitivity r1.
  { steps H1; [|apply quiet_keeps; quiet_field|done].
    etransitivity; [apply quiet_keeps; by transitivity (r0 <| r_electionTick := 0 |>); [quiet_field|]|]. by eapply inner_ok. }
  set (r2 := upd r_heartbeatTick _ _) in Hs.
  assert (quiet r1 r2) as Q2 by (rewrite /r2; destruct (timeToAbortLeaderTransfer r0); quiet_field).
  clearbody r2. etransitivity; [apply quiet_keeps, Q2|]. apply bind_Some in Hs as (r3 & H3 & Hs). transitivity r3.
  { steps H3; [|done]. etransitivity; [apply quiet_keeps; by transitivity (r2 <| r_heartbeatTick := 0 |>); [quiet_field|]|].
    by eapply inner_ok. }
  move: Hs. rewrite /checkPendingSnapshotAck. destruct (isLeader r3 && r_snapshotting r3); [|by intros [= <-]].
  intros (r4 & H4 & (r5 & H5 & H6)%bind_Some)%bind_Some.
  transitivity (r3 <| r_snapshotting := false |>); [apply quiet_keeps; quiet_field|].
  transitivity r4; [by eapply check_acks_keeps|]. transitivity r5; by eapply check_acks_keeps.
Qed.

Lemma tick_keeps r r' : tick inner r = Some r' → room r → keeps r r'.
Proof.
  rewrite /tick. set (r0 := upd r_tickCount _ _). intros Hs Hr. assert (quiet r r0) as Q0 by quiet_field. clearbody r0.
  etransitivity; [apply quiet_keeps, Q0|]. apply (room_quiet _ _ Q0) in Hr.
  destruct (isLeader r0); [by apply leader_tick_keeps|by apply nonleader_tick_keeps].
Qed.

Lemma lw_quiet f r m r' :
  (∀ k rp, members r k !! m_From m = Some rp → f r m k rp = Some r' → quiet r r') → lw f r m = Some r' → quiet r r'.
Proof.
  rewrite /lw. intros Hf. destruct (find_remote r (m_From m)) as [[k rp]|] eqn:E; [|by intros [= <-]].
  apply Hf. by apply find_remote_Some.
Qed.

(** Leaving the candidate's role for a leader's message. *)
Lemma step_down_keeps r l f r' :
  (r ← becomeFollower r (r_term r) l; f r) = Some r' → r_state r ≠ observer →
  (∀ r1, f r1 = Some r' → quiet r1 r') → keeps r r'.
Proof.
  intros Hs Ho Hf. apply bind_Some in Hs as (r1 & H1 & Hs). etransitivity; [|by apply quiet_keeps, Hf].
  by eapply follower_keeps; [exact H1|lia|].
Qed.

Lemma timeout_keeps m r r' : handleFollowerTimeoutNow inner r m = Some r' → room r → keeps r r'.
Proof.
  rewrite /handleFollowerTimeoutNow. set (r0 := upd r_isLeaderTransferTarget _ _). intros (r1 & H1 & [= <-])%bind_Some Hr.
  assert (quiet r r0) as Q0 by quiet_field. clearbody r0. etransitivity; [apply quiet_keeps, Q0|]. transitivity r1.
  - apply tick_keeps; [done|by eapply room_quiet].
  - apply quiet_keeps. quiet_field.
Qed.

Lemma check_quorum_keeps m r r' : handleLeaderCheckQuorum r m = Some r' → r_state r ≠ observer → keeps r r'.
Proof.
  rewrite /handleLeaderCheckQuorum. intros (_ & _ & Hs)%bind_Some Ho. destruct (leaderHasQuorum r) as [r1 b] eqn:E.
  apply has_quorum_quiet in E. etransitivity; [apply quiet_keeps, E|]. destruct b; [by injection Hs as <-|].
  eapply follower_keeps; [exact Hs|lia|]. by rewrite (q_state _ _ E).
Qed.

Lemma default_keeps m r r' :
  defaultHandle inner r m = Some r' → input_ok r m → (m_Term m ≠ 0 → r_term r = m_Term m) →
  (may_campaign m → room r) → keeps r r'.
Proof.
  rewrite /defaultHandle /input_ok /may_campaign. intros Hs Hi Ht Hr. pose proof Hi as Hi'. destruct (m_Type m) eqn:Em.
  all: destruct (r_state r) eqn:Es; cbv beta iota in Hs.
  all: try by injection Hs as <-.
  all: try by (apply quiet_keeps; eauto with quiet).
  all: lazymatch type of Hs with
    | handleLocalTick _ _ _ = _ => move: Hs; rewrite /handleLocalTick; destruct (m_Reject m);
        [intros [= <-]; apply quiet_keeps; quiet_field|intros Hs; by apply tick_keeps; [|apply Hr]]
    | handleFollowerTimeoutNow _ _ _ = _ => eapply timeout_keeps; [exact Hs|by apply Hr]
    | handleNodeElection _ _ = _ => eapply election_keeps; [exact Hs|by apply Hr]
    | handleNodeRequestVote _ _ = _ => destruct Hi as (? & ? & ?); eapply request_vote_keeps; [exact Hs|by auto..]
    | handleCandidateRequestVoteResp _ _ = _ => eapply vote_resp_keeps; [exact Hs|exact Es|]; intros Hrej; destruct (Hi Hrej) as (? & ? & ?); by auto
    | handleLeaderCheckQuorum _ _ = _ => eapply check_quorum_keeps; [exact Hs|by rewrite Es]
    | handleNodeConfigChange _ _ = _ => eapply config_change_keeps; [exact Hs|exact Em|by rewrite /input_ok Em]
    | handleRestoreRemote _ _ = _ => destruct Hi; by eapply restore_remotes_keeps
    | handleCandidatePropose _ _ = _ => injection Hs as <-; apply quiet_keeps, dropped_proposal_quiet
    | lw _ _ _ = _ => apply quiet_keeps; eapply lw_quiet; [|exact Hs]; intros; eauto with quiet
    | _ => first
        [apply quiet_keeps; (eapply forward_quiet; [exact Hs|first [reflexivity|eauto with quiet]|by rewrite Em])
        |eapply step_down_keeps; [exact Hs|by rewrite Es|intros; cbv beta in *; eauto with quiet]]
    end.
Qed.

Lemma reset_frame r r0 t b r1 l :
  reset r0 t b = Some r1 → r_nodeID r0 = r_nodeID r → r_observers r0 = r_observers r →
  r_nodeID (setLeaderID r1 l) = r_nodeID r ∧ dom (r_observers (setLeaderID r1 l)) = dom (r_observers r).
Proof. intros []%reset_spec Hi Ho. destruct (quiet_leader r1 l). split; congruence. Qed.

(** The new term of a message, in each role. *)
Lemma new_term_keeps m r l r' :
  (if isObserver r then becomeObserver r (m_Term m) l
   else if isWitness r then becomeWitness r (m_Term m) l
   else if bool_decide (m_Type m = RequestVote) then becomeFollowerKE r (m_Term m) l
   else becomeFollower r (m_Term m) l) = Some r' → r_term r ≤ m_Term m →
  keeps r r' ∧ r_nodeID r' = r_nodeID r ∧ dom (r_observers r') = dom (r_observers r).
Proof.
  intros H1 Hle. split.
  - rewrite /isObserver /isWitness in H1. case_bool_decide; [by eapply observer_keeps|].
    case_bool_decide; [by eapply witness_keeps|]. case_bool_decide; by eapply follower_keeps.
  - rewrite /becomeObserver /becomeWitness /becomeFollowerKE /becomeFollower /toFollowerState in H1.
    steps H1; by eapply reset_frame.
Qed.

Lemma term_keeps m r r' b :
  onMessageTermNotMatched r m = Some (r', b) →
  keeps r r' ∧ (m_Term m = 0 → r' = r) ∧ r_nodeID r' = r_nodeID r ∧ dom (r_observers r') = dom (r_observers r).
Proof.
  rewrite /onMessageTermNotMatched. destruct (m_Term m =? 0) eqn:E0; [by intros [= <- <-]|]. apply Z.eqb_neq in E0.
  intros Hs. cbn [orb] in Hs. destruct (m_Term m =? r_term r); [by injection Hs as <- <-|].
  apply bind_Some in Hs as (d & Hd & Hs). cbv beta in Hs. destruct d; [by injection Hs as <- <-|].
  destruct (Z.ltb_spec (r_term r) (m_Term m)) as [Hlt|Hge].
  - apply bind_Some in Hs as (r1 & H1 & [= <- <-]). apply new_term_keeps in H1 as (? & ? & ?); [|lia]. done.
  - destruct (isLeaderMessage (m_Type m) && r_checkQuorum r); [|by injection Hs as <- <-].
    apply bind_Some in Hs as (r1 & H1 & [= <- <-]). assert (quiet r r1) as Q by eauto with quiet.
    split_and!; [by apply quiet_keeps|done|by destruct Q..].
Qed.

Lemma handle_with_keeps m r r' :
  HandleWith inner r m = Some r' → input_ok r m →
  (may_campaign m → room r ∧ (m_Term m ≠ 0 → in_u64 (m_Term m) ∧ m_Term m ≠ 2 ^ 64 - 1)) → keeps r r'.
Proof.
  rewrite /HandleWith. intros ([r1 b] & H1 & Hs)%bind_Some Hi Hr. cbv beta iota in Hs.
  apply term_keeps in H1 as (K1 & E1 & Ei & Eo). etransitivity; [exact K1|]. destruct b; [by injection Hs as <-|].
  destruct (negb (m_Term m =? 0) && negb (r_term r1 =? m_Term m)) eqn:E; [done|].
  assert (m_Term m ≠ 0 → r_term r1 = m_Term m) as Ht.
  { intros Ht. apply andb_false_iff in E as [E%negb_false_iff%Z.eqb_eq|E%negb_false_iff%Z.eqb_eq]; done. }
  apply (default_keeps m); [done|by eapply input_ok_same|done|]. intros Hm. destruct (Hr Hm) as [Hr0 Hr1].
  destruct (Z.eq_dec (m_Term m) 0) as [E0|E0]; [by rewrite (E1 E0)|]. rewrite /room (Ht E0). by apply Hr1.
Qed.
End dispatch.

(** What a tick hands on does not tick again: the second level is never asked. *)
Lemma tick_message_keeps m r r' :
  HandleWith (λ _ _, None) r m = Some r' → tick_message m → (m_Type m = Election → room r) → keeps r r'.
Proof.
  intros Hs [H0 Hm] Hr. eapply (handle_with_keeps (λ _ _, None)); [done|exact Hs| |].
  - rewrite /input_ok. by destruct (m_Type m).
  - rewrite /may_campaign H0. intros Hc. split; [|done]. apply Hr. by destruct (m_Type m).
Qed.

Lemma handle_keeps m r r' :
  Handle r m = Some r' → input_ok r m →
  (may_campaign m → room r ∧ (m_Term m ≠ 0 → in_u64 (m_Term m) ∧ m_Term m ≠ 2 ^ 64 - 1)) → keeps r r'.
Proof. intros Hs Hi Hr. eapply handle_with_keeps; [|exact Hs|done|done]. intros; by eapply tick_message_keeps. Qed.
End election.
