(* ===== verification/RaftCluster.v ===== *)
(** * A Raft cluster

    Nodes with their storage, and every message that was ever sent: messages may be
    lost, duplicated and reordered, and nodes crash and restart from what they have
    stored.  The steps are the calls that a node's step worker (node.go,
    [processSteps] of engine.go), its state machine and its process make; between
    the update of a node and its storage the node may crash.  At most one node
    leads a term. *)
From S2P Require Import Prelude Raftpb RaftLog LogReader Raft RaftPeer RaftNode RaftQuiet RaftElection.
From Stdlib Require Import Ascii.
From stdpp Require Import relations.

Local Open Scope Z_scope.

(** ** Steps *)

(** A node and the update it is processing, with whether that has been stored. *)
Record Member := { nm_node : Node; nm_pending : option (Update * bool) }.
#[export] Instance Member_eta : Eta Member := λ m, Build_Member (nm_node m) (nm_pending m).

Record World := { w_nodes : gmap Z Member; w_net : list Message }.
#[export] Instance World_eta : Eta World := λ w, Build_World (w_nodes w) (w_net w).

(** What the step worker asks of the peer: what has arrived, and the requests of the
    process. *)
Inductive Request :=
| RMessage (m : Message) | RTick | RQuiescedTick | RRead (ctx : SystemCtx) | RConfigChange (cc : ConfigChange) (key : Z)
| RPropose (ents : list Entry) | RTransfer (target : Z) | RUnreachable (id : Z) | RSnapshotStatus (id : Z) (reject : bool)
| RRateLimited.

Inductive Action :=
| ARequest (q : Request)
| AApplied (lastApplied : Z)
| AUpdate (more : bool)
| ASend (m : Message)
| ASave
| ACommit
| AQuiesce (to : Z)
| AConfigChange (isWitness : bool) (cc : ConfigChange) (rejected : bool)
| ARestore (ss : Snapshot)
| ACrash (c : Config) (quiesceEnabled events : bool) (peers : list PeerAddress) (initial : bool) (index : Z).

Definition nd_raft (n : Node) : raft := p_raft (nd_peer n).

#[export] Instance room_dec r : Decision (room r).
Proof. rewrite /room /in_u64. apply _. Defined.
#[export] Instance complete_dec R W r : Decision (complete R W r).
Proof. rewrite /complete. apply _. Defined.
#[export] Instance host_ok_dec R W r : Decision (host_ok R W r).
Proof. rewrite /host_ok. apply _. Defined.
#[export] Instance role_ok_dec R W r : Decision (role_ok R W r).
Proof. rewrite /role_ok. destruct (r_state r); apply _. Defined.

Section cluster.
Context `{Env : RaftEnv} (R W : gset Z).

Definition request (p : Peer) (q : Request) : option Peer :=
  match q with
  | RMessage m => Handle p m
  | RTick => Tick p
  | RQuiescedTick => QuiescedTick p
  | RRead ctx => ReadIndexRequest p ctx
  | RConfigChange cc key => ProposeConfigChange p cc key
  | RPropose ents => ProposeEntries p ents
  | RTransfer target => RequestLeaderTransfer p target
  | RUnreachable id => ReportUnreachableNode p id
  | RSnapshotStatus id reject => ReportSnapshotStatus p id reject
  | RRateLimited => Some (PeerRateLimited p)
  end.

(** Terms stay below the largest 64-bit number. *)
Definition bounded (t : Z) : bool := bool_decide (0 ≤ t < 2 ^ 64 - 1).

(** A message is one that was sent to the node. *)
Definition arrived (w : World) (i : Z) (q : Request) : bool :=
  match q with
  | RMessage m => bool_decide (m ∈ w_net w) && (m_To m =? i) && bounded (m_Term m)
  | _ => true
  end.

(** The members a configuration change or a snapshot leaves are the cluster's. *)
Definition change_ok (r : raft) (cc : ConfigChange) : bool :=
  match configChangeType (u64 (cc_Type cc)) with
  | Some AddNode => bool_decide (cc_NodeID cc ∈ R) && negb (bool_decide (cc_NodeID cc ∈ dom (r_observers r)))
  | Some AddWitness => bool_decide (cc_NodeID cc ∈ W)
  | Some RemoveNode => negb (bool_decide (cc_NodeID cc ∈ R ∪ W))
  | _ => true
  end.
Definition snapshot_ok (ss : Snapshot) : bool :=
  bool_decide (dom (mb_Addresses (ss_Membership ss)) = R) && bool_decide (dom (mb_Witnesses (ss_Membership ss)) = W).
Definition started_ok (i : Z) (c : Config) (n : Node) : bool :=
  let r := nd_raft n in
  (c_NodeID c =? i) && bool_decide (role_ok R W r) && bool_decide (dom (r_remotes r) ⊆ R) &&
  bool_decide (dom (r_witnesses r) ⊆ W) && bool_decide (host_ok R W r) && bounded (r_term r).

Definition guard (b : bool) : option unit := if b then Some tt else None.

Definition act (w : World) (i : Z) (mb : Member) (a : Action) : option (Member * list Message) :=
  let n := nm_node mb in
  match a, nm_pending mb with
  | ARequest q, None =>
      _ ← guard (bool_decide (room (nd_raft n)) && arrived w i q);
      n ← on_peer (λ p, request p q) n;
      Some (mb <| nm_node := n |>, [])
  | AApplied lastApplied, None =>
      let n := updateAppliedIndex n lastApplied in
      _ ← guard (bool_decide (host_ok R W (nd_raft n)));
      Some (mb <| nm_node := n |>, [])
  | AUpdate more, None =>
      ud ← GetUpdate (nd_peer n) more (nd_appliedIndex n);
      Some (mb <| nm_pending := Some (ud, false) |>, [])
  | ASend m, Some (ud, stored) =>
      _ ← guard (bool_decide (m ∈ ud_Messages ud) && (stored || isFreeOrderMessage m));
      Some (mb, [m])
  | ASave, Some (ud, false) =>
      n ← SaveRaftState n ud;
      let n := n <| nd_reader ::= λ lr, if IsEmptySnapshot (ud_Snapshot ud) then lr else (reader.ApplySnapshot lr (ud_Snapshot ud)).1 |> in
      n ← processRaftUpdate n ud;
      Some (mb <| nm_node := sync n |> <| nm_pending := Some (ud, true) |>, [])
  | ACommit, Some (ud, true) =>
      n ← commitRaftUpdate n ud;
      Some (mb <| nm_node := n |> <| nm_pending := None |>, [])
  | AQuiesce to, _ => Some (mb, enterQuiesceMessages n [to])
  | AConfigChange isWitness cc rejected, _ =>
      _ ← guard (rejected || change_ok (nd_raft n) cc);
      n ← ApplyConfigChangeNode n isWitness cc rejected;
      Some (mb <| nm_node := n |>, [])
  | ARestore ss, _ =>
      _ ← guard (snapshot_ok ss);
      n ← RestoreRemotesNode n ss;
      Some (mb <| nm_node := n |>, [])
  | ACrash c quiesceEnabled events peers initial index, _ =>
      n ← startRaft c quiesceEnabled (lr_store (nd_reader n)) events peers initial index;
      _ ← guard (started_ok i c n);
      Some ({| nm_node := n; nm_pending := None |}, [])
  | _, _ => None
  end.

Definition exec (w : World) (a : Z * Action) : option World :=
  mb ← w_nodes w !! a.1;
  '(mb, ms) ← act w a.1 mb a.2;
  Some (w <| w_nodes ::= <[a.1 := mb]> |> <| w_net ::= λ net, net ++ ms |>).

Definition step (w w' : World) : Prop := ∃ a, exec w a = Some w'.

Fixpoint run (w : World) (l : list (Z * Action)) : option World :=
  match l with
  | [] => Some w
  | a :: l => w ← exec w a; run w l
  end.

Lemma run_steps w l w' : run w l = Some w' → rtc step w w'.
Proof.
  revert w. induction l as [|a l IH]; intros w; cbn [run]; [by intros [= <-]|].
  intros (w1 & H1 & H2)%bind_Some. eapply rtc_l; [by exists a|by apply IH].
Qed.

(** Nodes that have just been started, on any storage. *)
Definition initial (w : World) : Prop :=
  w_net w = [] ∧ ∀ i mb, w_nodes w !! i = Some mb → nm_pending mb = None ∧
    ∃ c qe s ev peers ini index, startRaft c qe s ev peers ini index = Some (nm_node mb) ∧ started_ok i c (nm_node mb) = true.

Definition leads (w : World) (i t : Z) : Prop :=
  ∃ mb, w_nodes w !! i = Some mb ∧ r_state (nd_raft (nm_node mb)) = leader ∧ r_term (nd_raft (nm_node mb)) = t.
End cluster.

(** ** Votes that are remembered *)

(** A node in term [T] with vote [V] can only have voted for [c] in [t] if: *)
Definition covers (T V t c : Z) : Prop := c ≠ NoNode ∧ 0 < t ∧ (t < T ∨ (t = T ∧ V = c)).
Definition rcovers (r : raft) : Z → Z → Prop := covers (r_term r) (r_vote r).
Definition scovers (st : State) : Z → Z → Prop := covers (ps_Term st) (ps_Vote st).
Definition stored (n : Node) : State := default emptyState (st_state (lr_store (nd_reader n))).

Lemma IsEmptyState_spec st : IsEmptyState st = true ↔ st = emptyState.
Proof.
  rewrite /IsEmptyState /IsStateEqual. destruct st as [t v c]. cbn. rewrite !andb_true_iff !Z.eqb_eq. split.
  - by intros [[-> ->] ->].
  - by intros [= -> -> ->].
Qed.

Lemma scovers_empty t c : ¬ scovers emptyState t c.
Proof. intros (? & ? & [?|[? ?]]); cbn in *; lia. Qed.

(** ** Starting *)
Section start.
Context `{Env : RaftEnv}.

(** Fields that starting leaves as the constructor set them. *)
Definition idle (i T V : Z) (r : raft) : Prop :=
  r_nodeID r = i ∧ r_term r = T ∧ r_vote r = V ∧ r_msgs r = [] ∧ ¬ standing r.

Lemma setLeaderID_msgs r l : r_msgs (setLeaderID r l) = r_msgs r.
Proof. rewrite /setLeaderID. proj_simpl. destruct (r_events r); [|done]. by destruct (_ || _ || _). Qed.

Lemma idle_resets i T V r0 t r1 l :
  resets r0 t r1 → idle i T V r0 → idle i t (if T =? t then V else NoNode) (setLeaderID r1 l).
Proof.
  intros [] (Hi & Ht & Hv & Hm & Hs). destruct (quiet_leader r1 l).
  split_and!; [congruence|congruence|by rewrite q_vote rs_vote Ht Hv|rewrite setLeaderID_msgs; congruence|].
  rewrite /standing q_state rs_state. exact Hs.
Qed.

Lemma idle_follower i T V r t l b r' :
  toFollowerState r t l b = Some r' → idle i T V r → idle i t (if T =? t then V else NoNode) r'.
Proof.
  rewrite /toFollowerState. destruct (isWitness r); [done|]. intros (r1 & H1%reset_spec & [= <-])%bind_Some (Hi & Ht & Hv & Hm & Hs).
  eapply idle_resets; [exact H1|]. split_and!; [done..|]. by intros [?|?].
Qed.

Lemma idle_same_follower i T V r l r' : becomeFollower r (r_term r) l = Some r' → idle i T V r → idle i T V r'.
Proof.
  intros Hs Hi. pose proof Hi as (_ & Ht & _). eapply idle_follower in Hs; [|exact Hi]. by rewrite Ht Z.eqb_refl in Hs.
Qed.

Lemma new_raft_idle c db r :
  newRaft c db = Some r → idle (c_NodeID c) (ps_Term (NodeState db).1) (ps_Vote (NodeState db).1) r.
Proof.
  rewrite /newRaft. intros (_ & _ & Hr)%bind_Some. destruct (NodeState db) as [st mb]. cbn [fst]. cbv zeta in Hr.
  set (r0 := Build_raft _ _ _ _ _ _ _ _ _ _ _ _ _ _ _ _ _ _ _ _ _ _ _ _ _ _ _ _ _ _ _ _) in Hr.
  assert (r_nodeID r0 = c_NodeID c ∧ r_term r0 = 0 ∧ r_vote r0 = 0 ∧ r_msgs r0 = [] ∧ r_state r0 = follower) as (E1 & E2 & E3 & E4 & E5) by done.
  clearbody r0. apply bind_Some in Hr as (r1 & H1 & Hr). cbv beta in Hr.
  assert (idle (c_NodeID c) (ps_Term st) (ps_Vote st) r1 ∧ r_state r1 = follower) as [Hi Hs].
  { destruct (IsEmptyState st) eqn:Ee.
    - injection H1 as <-. apply IsEmptyState_spec in Ee as ->. split; [|done]. split_and!; [done..|]. rewrite /standing E5. by intros [?|?].
    - move: H1. rewrite /loadState. destruct (_ || _); [done|]. intros [= <-]. split; [|done]. split_and!; [done..|].
      rewrite /standing. proj_simpl. rewrite E5. by intros [?|?]. }
  pose proof Hi as (I1 & I2 & I3 & I4 & I5).
  destruct (c_IsObserver c); [|destruct (c_IsWitness c)].
  - move: Hr. rewrite /becomeObserver. destruct (negb _); [done|]. intros (r2 & H2%reset_spec & [= <-])%bind_Some.
    eapply (idle_resets _ (ps_Term st) (ps_Vote st)) in H2; [|split_and!; [done..|by intros [?|?]]].
    rewrite I2 Z.eqb_refl in H2. exact H2.
  - move: Hr. rewrite /becomeWitness. destruct (negb _); [done|]. intros (r2 & H2%reset_spec & [= <-])%bind_Some.
    eapply (idle_resets _ (ps_Term st) (ps_Vote st)) in H2; [|split_and!; [done..|by intros [?|?]]].
    rewrite I2 Z.eqb_refl in H2. exact H2.
  - by eapply idle_same_follower.
Qed.

Lemma add_nodes_idle i T V ids : ∀ r r', each addNode r ids = Some r' → idle i T V r → idle i T V r'.
Proof.
  induction ids as [|id ids IH]; intros r r'; cbn [each]; [by intros [= <-]|].
  intros (r1 & H1 & H2)%bind_Some Hi. apply (IH _ _ H2). clear IH H2. move: H1. rewrite /addNode.
  set (r0 := clearPendingConfigChange r). assert (idle i T V r0) as Hi0 by exact Hi. clearbody r0. intros Hs.
  steps Hs; try exact Hi0. eapply idle_same_follower in Hs; [exact Hs|exact Hi0].
Qed.

Lemma launch_idle c db ev pas initial newNode p :
  Launch c db ev pas initial newNode = Some p → (newNode = true → (NodeState db).1 = emptyState) →
  ∃ T, idle (c_NodeID c) T (ps_Vote (NodeState db).1) (p_raft p) ∧
    (T = ps_Term (NodeState db).1 ∨ (T = 1 ∧ (NodeState db).1 = emptyState)) ∧
    (p_prevState p = emptyState ∨ p_prevState p = raftState (p_raft p)).
Proof.
  rewrite /Launch. intros (_ & _ & (r & Hi%new_raft_idle & Hs)%bind_Some)%bind_Some Hn. cbv beta in Hs.
  set (r0 := upd r_events _ r) in Hs. assert (idle (c_NodeID c) (ps_Term (NodeState db).1) (ps_Vote (NodeState db).1) r0) as Hi0 by exact Hi.
  clearbody r0. apply bind_Some in Hs as (r1 & H1 & (r2 & H2 & [= <-])%bind_Some). cbn [p_raft p_prevState].
  assert (∃ T, idle (c_NodeID c) T (ps_Vote (NodeState db).1) r1 ∧
    (T = ps_Term (NodeState db).1 ∨ (T = 1 ∧ (NodeState db).1 = emptyState))) as (T & Hi1 & HT).
  { destruct (newNode && negb (c_IsObserver c) && negb (c_IsWitness c)) eqn:E; [|injection H1 as <-; eauto].
    apply andb_true_iff in E as [[E _]%andb_true_iff _]. specialize (Hn E). rewrite Hn in Hi0 |- *.
    eapply idle_follower in H1; [|exact Hi0]. exists 1. split; [exact H1|by right]. }
  exists T. split_and!; [|done|by destruct (_ =? 0); [left|right]].
  destruct (initial && newNode); [|by injection H2 as <-].
  move: H2. rewrite /bootstrap. intros (l & _ & H2)%bind_Some. eapply add_nodes_idle; [exact H2|exact Hi1].
Qed.

Lemma replay_state s lr newNode :
  replayLog s = Some (lr, newNode) →
  lr_store lr = s ∧ lr_state lr = default emptyState (st_state s) ∧ (newNode = true → lr_state lr = emptyState).
Proof.
  rewrite /replayLog. set (lr0 := if 0 <? _ then _ else _).
  assert (lr_store lr0 = s ∧ lr_state lr0 = emptyState) as [E1 E2].
  { rewrite /lr0 /reader.ApplySnapshot. destruct (0 <? _); [|done]. by destruct (_ <=? _). }
  clearbody lr0. intros (rs & Hr & Hs)%bind_Some. move: Hr. rewrite /ReadRaftState. intros ([f len] & _ & [= <-])%bind_Some.
  destruct (st_state s) as [st|]; cbn [mbind option_bind default] in Hs |- *; [|by injection Hs as <- <-].
  apply bind_Some in Hs as (lr1 & H1 & [= <- <-]).
  assert (lr_store lr1 = s ∧ lr_state lr1 = st) as [F1 F2].
  { assert (∀ l l', reader.SetRange l f len = Some l' → lr_store l' = lr_store l ∧ lr_state l' = lr_state l) as Hset.
    { intros l l'. rewrite /reader.SetRange. intros Hx. steps Hx; done. }
    apply Hset in H1 as [-> ->]. destruct (IsEmptyState st) eqn:Ee; cbn [negb].
    - apply IsEmptyState_spec in Ee as ->. done.
    - split; [done|]. done. }
  split_and!; [done|done|]. intros Hn. rewrite F2. apply negb_true_iff in Hn.
  apply orb_false_iff in Hn as [_ Hn%negb_false_iff]. by apply IsEmptyState_spec.
Qed.

(** A node starts with what it has stored. *)
Lemma start_spec c qe s ev pas initial index n :
  startRaft c qe s ev pas initial index = Some n →
  r_nodeID (nd_raft n) = c_NodeID c ∧ r_msgs (nd_raft n) = [] ∧ ¬ standing (nd_raft n) ∧ lr_store (nd_reader n) = s ∧
  (∀ t v, rcovers (nd_raft n) t v ↔ scovers (stored n) t v) ∧
  (∀ t v, scovers (p_prevState (nd_peer n)) t v → scovers (stored n) t v).
Proof.
  rewrite /startRaft /stored /nd_raft. intros ([lr newNode] & Hr & (p & Hp & [= <-])%bind_Some)%bind_Some.
  cbn [nd_peer nd_reader]. apply replay_state in Hr as (E1 & E2 & E3).
  apply launch_idle in Hp as (T & (I1 & I2 & I3 & I4 & I5) & HT & Hprev); [|exact E3].
  rewrite E1. change ((NodeState (reader.logdb lr)).1) with (lr_state lr) in *. rewrite E2 in E3 I3 HT.
  set (st := default emptyState (st_state s)) in *. clearbody st.
  assert (∀ t v, rcovers (p_raft p) t v ↔ scovers st t v) as Hc.
  { intros t v. rewrite /rcovers I2 I3. destruct HT as [->|[-> ->]]; [done|]. split; [|by intros ?%scovers_empty].
    intros (Hv & Ht & [?|[? ?]]); cbn in *; [lia|]. by destruct Hv. }
  split_and!; try done. intros t v. destruct Hprev as [->| ->]; [by intros ?%scovers_empty|]. by intros ?%Hc.
Qed.
End start.

(** ** Membership changes keep term and vote *)
Section frame.
Context `{Env : RaftEnv}.

Definition same_ballot (r r' : raft) : Prop := r_term r' = r_term r ∧ r_vote r' = r_vote r.

#[local] Instance same_ballot_preorder : PreOrder same_ballot.
Proof. split; [done|]. intros r1 r2 r3 [? ?] [? ?]. split; congruence. Qed.

Lemma quiet_same r r' : quiet r r' → same_ballot r r'.
Proof. intros []. done. Qed.

Lemma follower_same r l r' : becomeFollower r (r_term r) l = Some r' → same_ballot r r'.
Proof.
  rewrite /becomeFollower /toFollowerState. destruct (isWitness r); [done|]. intros (r1 & []%reset_spec & [= <-])%bind_Some.
  proj_simpl_in rs_vote. rewrite Z.eqb_refl in rs_vote. destruct (quiet_leader r1 l). split; congruence.
Qed.

Lemma set_members_same r k ms : same_ballot r (set_members r k ms).
Proof. by destruct k. Qed.

Lemma config_change_same r m r' : handleNodeConfigChange r m = Some r' → same_ballot r r'.
Proof.
  rewrite /handleNodeConfigChange. destruct (m_Reject m); [by intros [= <-]|]. intros (c & _ & Hs)%bind_Some. destruct c.
  - move: Hs. rewrite /addNode. intros Hs. steps Hs; try done. by apply follower_same in Hs.
  - move: Hs. rewrite /removeNode. set (r1 := clearPendingConfigChange _). intros (r2 & H2 & Hs)%bind_Some. cbv beta in Hs.
    transitivity r1; [done|]. clearbody r1.
    assert (same_ballot r1 r2) by (destruct (_ && _); [by apply follower_same in H2|by injection H2 as <-]).
    transitivity r2; [done|]. set (r3 := if _ && _ then abortLeaderTransfer r2 else r2) in Hs.
    assert (same_ballot r2 r3) by (by rewrite /r3; destruct (leaderTransfering r2 && _)). clearbody r3.
    transitivity r3; [done|]. apply quiet_same. steps Hs; quiet_back.
  - move: Hs. rewrite /addObserver. intros Hs. steps Hs; done.
  - move: Hs. rewrite /addWitness. intros Hs. steps Hs; done.
Qed.

Lemma restore_fold_same k ids r : same_ballot r (foldl (restoreMember k) r ids).
Proof.
  revert r. induction ids as [|id ids IH]; intros r; cbn [foldl]; [done|]. etransitivity; [|apply IH]. apply set_members_same.
Qed.

Lemma restore_remotes_same r ss r' : restoreRemotes r ss = Some r' → same_ballot r r'.
Proof.
  rewrite /restoreRemotes. cbn [rangeKeys]. intros (r1 & H1 & (r2 & H2 & [= <-])%bind_Some)%bind_Some. transitivity r1.
  { transitivity ((r <| r_remotes := ∅ |>) <| r_draws ::= S |>); [done|]. revert H1. generalize (range (r_draws (r <| r_remotes := ∅ |>))
      (keys (mb_Addresses (ss_Membership ss)))). generalize ((r <| r_remotes := ∅ |>) <| r_draws ::= S |>).
    intros r0 ids. revert r0. induction ids as [|id ids IH]; intros r0; cbn [each]; [by intros [= <-]|].
    intros (r3 & H3 & H4)%bind_Some. transitivity r3; [|by apply IH]. apply bind_Some in H3 as (r4 & H4' & H5). transitivity r4.
    - steps H4'; [by apply follower_same in H4'|done].
    - case_bool_decide; [done|]. by injection H5 as <-. }
  transitivity r2. { steps H2; [by apply follower_same in H2|done]. }
  etransitivity; [|apply restore_fold_same]. etransitivity; [|exact (set_members_same _ KWitness ∅)].
  etransitivity; [|apply restore_fold_same]. exact (set_members_same _ KObserver ∅).
Qed.

(** A message without a term goes to its handler. *)
Lemma handle_local r m : m_Term m = 0 → Raft.Handle r m = defaultHandle (HandleWith (λ _ _, None)) r m.
Proof. intros E. by rewrite /Raft.Handle {1}/HandleWith /onMessageTermNotMatched E. Qed.

Lemma members_same r m r' :
  Raft.Handle r m = Some r' → m_Term m = 0 → m_Type m = ConfigChangeEvent ∨ m_Type m = SnapshotReceived → same_ballot r r'.
Proof.
  intros Hs E0 Ht. rewrite handle_local // in Hs. move: Hs. rewrite /defaultHandle.
  destruct Ht as [-> | ->]; destruct (r_state r); first [apply config_change_same|apply restore_remotes_same].
Qed.
End frame.

(** ** The invariant *)
Section safety.
Context `{Env : RaftEnv} (R W : gset Z).
Implicit Types (B : Z → Z → Z → Prop) (H : Z → Z → Prop) (r : raft) (x : Message).

(** A request for votes is for the node's own vote: *)
Definition asks B : Z → Z → Prop := λ c t, B c c t.

(** A message that is in the network. *)
Definition sent_ok B x : Prop :=
  match m_Type x with
  | ConfigChangeEvent | SnapshotReceived => False
  | RequestVote => m_Term x ≠ 0 ∧ m_From x ≠ NoNode ∧ asks B (m_From x) (m_Term x)
  | RequestVoteResp => m_Reject x = false → m_Term x ≠ 0 ∧ B (m_From x) (m_To x) (m_Term x)
  | _ => True
  end.

Definition pending_ok B H (i : Z) (mb : Member) : Prop :=
  match nm_pending mb with
  | None => True
  | Some (ud, false) =>
      Forall (fits H (asks B) i) (ud_Messages ud) ∧
      ∀ t c, rcovers (nd_raft (nm_node mb)) t c →
        scovers (if IsEmptyState (ud_State ud) then stored (nm_node mb) else ud_State ud) t c
  | Some (ud, true) =>
      Forall (fits (λ t c, B i c t) (asks B) i) (ud_Messages ud) ∧
      (IsEmptyState (ud_State ud) = false → ∀ t c, scovers (ud_State ud) t c → scovers (stored (nm_node mb)) t c)
  end.

Record member_ok B (i : Z) (mb : Member) : Prop := {
  k_id : r_nodeID (nd_raft (nm_node mb)) = i;
  k_sound : ∃ H, sound R W B (asks B) H (nd_raft (nm_node mb)) ∧ (∀ t c, B i c t → H t c) ∧ pending_ok B H i mb;
  k_stored : ∀ t c, B i c t → scovers (stored (nm_node mb)) t c;
  k_prev : (∀ ud, nm_pending mb = Some (ud, true) → IsEmptyState (ud_State ud) = true) →
    ∀ t c, scovers (p_prevState (nd_peer (nm_node mb))) t c → scovers (stored (nm_node mb)) t c
}.

Record safe B (w : World) : Prop := {
  f_once : ∀ v c c' t, B v c t → B v c' t → c = c';
  f_chain : ∀ v c t, B v c t → B c c t;
  f_net : Forall (sent_ok B) (w_net w);
  f_nodes : ∀ i mb, w_nodes w !! i = Some mb → member_ok B i mb
}.

Definition grows B B' : Prop := ∀ v c t, B v c t → B' v c t.
#[local] Instance grows_preorder : PreOrder grows.
Proof. split; [intros B v c t; done|intros B1 B2 B3 H12 H23 v c t Hc; by apply H23, H12]. Qed.

Lemma fits_mono B B' H n x : grows B B' → fits H (asks B) n x → fits H (asks B') n x.
Proof. intros Hg [Hf Hm]. split; [done|]. destruct (m_Type x); auto. intros Hr. destruct (Hm Hr). split; [done|]. by apply Hg. Qed.

Lemma sound_mono B B' H r : grows B B' → sound R W B (asks B) H r → sound R W B' (asks B') H r.
Proof.
  intros Hg []. assert (∀ v, supports R W B r v → supports R W B' r v) as Hs by (intros v [?|[??]]; [by left|right; auto]).
  split; try done.
  - intros t c Hc. destruct (s_chain _ _ Hc); [by left|right; by apply Hg].
  - eapply Forall_impl; [exact s_msgs|]. intros x. by apply fits_mono.
  - auto.
  - intros Hl. destruct (s_lead Hl) as (Q & ? & ? & ?). exists Q. auto.
Qed.

Lemma sent_mono B B' x : grows B B' → sent_ok B x → sent_ok B' x.
Proof.
  intros Hg. rewrite /sent_ok. destruct (m_Type x); try done.
  - intros (? & ? & ?). split_and!; [done..|]. by apply Hg.
  - intros Hr Hx. destruct (Hr Hx). split; [done|]. by apply Hg.
Qed.

(** The votes of the other nodes do not matter to what a node has stored. *)
Lemma member_mono B B' i mb :
  grows B B' → (∀ c t, B' i c t → B i c t) → member_ok B i mb → member_ok B' i mb.
Proof.
  intros Hg Hi []. split; try done; [|auto].
  destruct k_sound0 as (H & Hs & Hsub & Hp). exists H. split_and!; [by eapply sound_mono|auto|].
  move: Hp. rewrite /pending_ok. destruct (nm_pending mb) as [[ud [|]]|]; [| |done].
  - intros [Hf ?]. split; [|done]. eapply Forall_impl; [exact Hf|]. intros x Hx%(fits_mono B B'); [|done].
    eapply fits_extends; [|exact Hx]. intros t c. apply Hg.
  - intros [Hf ?]. split; [|done]. eapply Forall_impl; [exact Hf|]. intros x. by apply fits_mono.
Qed.

(** A step of one node that remembers no new vote. *)
Lemma safe_same B w i mb mb' ms :
  safe B w → w_nodes w !! i = Some mb → member_ok B i mb' → Forall (sent_ok B) ms →
  safe B (w <| w_nodes ::= <[i := mb']> |> <| w_net ::= λ net, net ++ ms |>).
Proof.
  intros [] Hi Hmb Hms. split; try done; proj_simpl.
  - by apply Forall_app.
  - intros j mj. destruct (decide (i = j)) as [<-|Hne]; [rewrite lookup_insert_eq|rewrite lookup_insert_ne //; apply f_nodes0].
    by intros [= <-].
Qed.

(** The peer moves on; while an update is pending, only its members change. *)
Lemma advance B i mb p' (n := nm_node mb) :
  member_ok B i mb → keeps R W B (asks B) (nd_raft n) (p_raft p') → p_prevState p' = p_prevState (nd_peer n) →
  nm_pending mb = None ∨ same_ballot (nd_raft n) (p_raft p') →
  member_ok B i (mb <| nm_node := n <| nd_peer := p' |> |>).
Proof.
  intros [] Hk Hp Hor. destruct k_sound0 as (H & Hs & Hsub & Hpend). destruct (Hk H Hs) as (H' & [He Ei] & Hs').
  split; [exact (eq_trans Ei k_id0)| |done|].
  - exists H'. split_and!; [exact Hs'|auto|]. move: Hpend. rewrite /pending_ok. proj_simpl.
    destruct Hor as [->|[Et Ev]]; [done|]. destruct (nm_pending mb) as [[ud [|]]|]; [done| |done].
    intros [Hf Hc]. split; [eapply Forall_impl; [exact Hf|]; intros x; by apply fits_extends|].
    intros t c. rewrite /rcovers /nd_raft. proj_simpl. rewrite Et Ev. apply Hc.
  - intros Hu t c. change (scovers (p_prevState p') t c → scovers (stored n) t c). rewrite Hp. by apply k_prev0.
Qed.

Lemma handle_peer p m p' : handle p m = Some p' → Raft.Handle (p_raft p) m = Some (p_raft p') ∧ p_prevState p' = p_prevState p.
Proof. rewrite /handle. by intros (r & Hr & [= <-])%bind_Some. Qed.

Lemma local_keeps B p m p' :
  handle p m = Some p' → room (p_raft p) → m_Term m = 0 →
  match m_Type m with ConfigChangeEvent | SnapshotReceived | RequestVote | RequestVoteResp => False | _ => True end →
  keeps R W B (asks B) (p_raft p) (p_raft p') ∧ p_prevState p' = p_prevState p.
Proof.
  intros [Hh Hp]%handle_peer Hr H0 Ht. split; [|done]. eapply handle_keeps; [exact Hh| |done].
  rewrite /input_ok. by destruct (m_Type m).
Qed.

Lemma bounded_spec t : bounded t = true → 0 ≤ t < 2 ^ 64 - 1.
Proof. apply bool_decide_eq_true_1. Qed.

(** A message from the network. *)
Lemma message_keeps B p m p' :
  Handle p m = Some p' → room (p_raft p) → sent_ok B m → r_nodeID (p_raft p) = m_To m → bounded (m_Term m) = true →
  dom (r_remotes (p_raft p)) ⊆ R → dom (r_witnesses (p_raft p)) ⊆ W →
  keeps R W B (asks B) (p_raft p) (p_raft p') ∧ p_prevState p' = p_prevState p.
Proof.
  rewrite /Handle. intros Hs Hr Hm Hto Hb%bounded_spec HR HW. destruct (isLocalMessageType (m_Type m)) eqn:El; [done|].
  destruct (_ || _ || _ || _) eqn:E; [|injection Hs as <-; split; [reflexivity|done]].
  apply handle_peer in Hs as [Hh Hp]. split; [|done]. eapply handle_keeps; [exact Hh| |].
  - rewrite /input_ok. rewrite /sent_ok in Hm. destruct (m_Type m) eqn:Et; try done. intros Hrej. destruct (Hm Hrej) as [? Hb'].
    split_and!; [done| |by rewrite Hto]. cbn [isResponseMessageType] in E.
    repeat (apply orb_true_iff in E as [E|E]); try (apply bool_decide_eq_true_1 in E; apply elem_of_dom in E); [set_solver|by left|set_solver|done].
  - intros _. split; [done|]. intros _. rewrite /in_u64. lia.
Qed.

Lemma request_member_keeps B w i p q p' H :
  request p q = Some p' → arrived w i q = true → room (p_raft p) → Forall (sent_ok B) (w_net w) → r_nodeID (p_raft p) = i →
  sound R W B (asks B) H (p_raft p) → keeps R W B (asks B) (p_raft p) (p_raft p') ∧ p_prevState p' = p_prevState p.
Proof.
  intros Hq Ha Hr Hn Hi []. destruct q; cbn [request] in Hq; try (by eapply local_keeps).
  - cbn [arrived] in Ha. apply andb_true_iff in Ha as [[Hin%bool_decide_eq_true_1 Hto%Z.eqb_eq]%andb_true_iff Hb].
    eapply message_keeps; [exact Hq|done| |congruence|done..]. rewrite Forall_forall in Hn. by apply Hn.
  - injection Hq as <-. split; [|done]. apply quiet_keeps. apply quiet_rl.
Qed.

Lemma guard_Some b u : guard b = Some u → b = true.
Proof. by destruct b. Qed.

Lemma act_request B w i mb q mb' ms :
  safe B w → w_nodes w !! i = Some mb → act R W w i mb (ARequest q) = Some (mb', ms) → member_ok B i mb' ∧ ms = [].
Proof.
  intros Hw Hi. cbn [act]. destruct (nm_pending mb) eqn:Ep; [done|].
  intros (u & [Hr%bool_decide_eq_true_1 Ha]%guard_Some%andb_true_iff & Hs)%bind_Some. cbv beta in Hs.
  apply bind_Some in Hs as (n & (p & Hp & [= <-])%bind_Some & [= <- <-]). split; [|done].
  pose proof (f_nodes _ _ Hw _ _ Hi) as Hmb. destruct (k_sound _ _ _ Hmb) as (H & Hs & _ & _).
  eapply request_member_keeps in Hp as [Hk Hprev]; [|exact Ha|exact Hr|exact (f_net _ _ Hw)|exact (k_id _ _ _ Hmb)|exact Hs].
  apply advance; [done..|by left].
Qed.

Lemma act_applied B w i mb la mb' ms :
  safe B w → w_nodes w !! i = Some mb → act R W w i mb (AApplied la) = Some (mb', ms) → member_ok B i mb' ∧ ms = [].
Proof.
  intros Hw Hi. cbn [act]. destruct (nm_pending mb) eqn:Ep; [done|].
  intros (u & Hh%guard_Some%bool_decide_eq_true_1 & [= <- <-])%bind_Some. split; [|done].
  destruct (f_nodes _ _ Hw _ _ Hi). destruct k_sound0 as (H & Hs & Hsub & _).
  split; [done| |done|done]. exists H. split_and!; [|done|by rewrite /pending_ok; proj_simpl; rewrite Ep].
  destruct Hs. by split.
Qed.

(** What an update saves is what the node is in. *)
Lemma update_ok B H i n ud more la :
  GetUpdate (nd_peer n) more la = Some ud → sound R W B (asks B) H (nd_raft n) → r_nodeID (nd_raft n) = i →
  (∀ t c, scovers (p_prevState (nd_peer n)) t c → scovers (stored n) t c) →
  Forall (fits H (asks B) i) (ud_Messages ud) ∧
  ∀ t c, rcovers (nd_raft n) t c → scovers (if IsEmptyState (ud_State ud) then stored n else ud_State ud) t c.
Proof.
  rewrite /GetUpdate. intros Hg Hs Hi Hprev. apply bind_Some in Hg as (ud0 & H0 & (_ & _ & [= <-])%bind_Some).
  move: H0. rewrite /getUpdate. intros (sv & _ & (cm & _ & [= <-])%bind_Some)%bind_Some. rewrite /setFastApply. proj_simpl.
  cbn [ud_Messages ud_State]. split.
  - destruct Hs. rewrite -Hi. apply Forall_fmap. eapply Forall_impl; [exact s_msgs|]. intros x Hx. exact Hx.
  - intros t c Hc. change (rcovers (nd_raft n)) with (scovers (raftState (nd_raft n))) in Hc.
    destruct (IsStateEqual _ (p_prevState (nd_peer n))) eqn:E.
    + apply IsStateEqual_spec in E. rewrite (proj2 (IsEmptyState_spec emptyState)) //. apply Hprev. by rewrite -E.
    + destruct (IsEmptyState _) eqn:E0; [|done]. apply IsEmptyState_spec in E0. rewrite /nd_raft E0 in Hc. by apply scovers_empty in Hc.
Qed.

Lemma act_update B w i mb more mb' ms :
  safe B w → w_nodes w !! i = Some mb → act R W w i mb (AUpdate more) = Some (mb', ms) → member_ok B i mb' ∧ ms = [].
Proof.
  intros Hw Hi. cbn [act]. destruct (nm_pending mb) eqn:Ep; [done|]. intros (ud & Hg & [= <- <-])%bind_Some. split; [|done].
  destruct (f_nodes _ _ Hw _ _ Hi). destruct k_sound0 as (H & Hs & Hsub & _).
  assert (∀ t c, scovers (p_prevState (nd_peer (nm_node mb))) t c → scovers (stored (nm_node mb)) t c) as Hprev
    by (apply k_prev0; by rewrite Ep).
  split; [done| |done|done]. exists H. split_and!; [done|done|]. rewrite /pending_ok. proj_simpl. by eapply update_ok.
Qed.

Lemma safe_positive B w i mb : safe B w → w_nodes w !! i = Some mb → ∀ c t, B i c t → c ≠ NoNode ∧ t ≠ 0.
Proof.
  intros Hw Hi c t Hb. destruct (k_stored _ _ _ (f_nodes _ _ Hw _ _ Hi) _ _ Hb) as (? & ? & _). split; [done|lia].
Qed.

Lemma act_send B w i mb m mb' ms :
  safe B w → w_nodes w !! i = Some mb → act R W w i mb (ASend m) = Some (mb', ms) → member_ok B i mb' ∧ Forall (sent_ok B) ms.
Proof.
  intros Hw Hi. cbn [act]. destruct (nm_pending mb) as [[ud st]|] eqn:Ep; [|done].
  intros (u & [Hin%bool_decide_eq_true_1 Hst]%guard_Some%andb_true_iff & [= <- <-])%bind_Some.
  pose proof (f_nodes _ _ Hw _ _ Hi) as Hmb. split; [done|]. apply Forall_singleton.
  destruct (k_sound _ _ _ Hmb) as (H & _ & _ & Hp). rewrite /pending_ok Ep in Hp.
  destruct st; destruct Hp as [Hf _]; rewrite Forall_forall in Hf; destruct (Hf m Hin) as [E Hm].
  - rewrite /sent_ok. pose proof (safe_positive _ _ _ _ Hw Hi) as Hpos. destruct (m_Type m); try done; rewrite E.
    + destruct (Hpos _ _ Hm). done.
    + intros Hr. destruct (Hm Hr) as [Hb _]. destruct (Hpos _ _ Hb). done.
  - rewrite /isFreeOrderMessage in Hst. rewrite /sent_ok. by destruct (m_Type m).
Qed.

(** Saving touches the records only. *)
Lemma append_store lr ents lr' : reader.Append lr ents = Some lr' → lr_store lr' = lr_store lr.
Proof.
  assert (∀ f len l l', reader.SetRange l f len = Some l' → lr_store l' = lr_store l) as Hset.
  { intros f len l l'. rewrite /reader.SetRange. intros Hx. steps Hx; done. }
  rewrite /reader.Append. intros Hl. steps Hl; [|done..]. by eapply Hset.
Qed.

Lemma record_state s ents s' mi : record s ents = (s', mi) → st_state s' = st_state s.
Proof.
  rewrite /record. change s with (s, 0).1 at 2. generalize (s, 0). induction ents as [|e ents IH]; intros [a b]; cbn [foldl].
  - by intros [= -> ->].
  - intros Hr%IH. done.
Qed.

Lemma save_state s st ss ents s' :
  saveRaftState s st ss ents = Some s' → st_state s' = if IsEmptyState st then st_state s else Some st.
Proof.
  rewrite /saveRaftState. set (s0 := if IsEmptyState _ then _ else _).
  assert (st_state s0 = if IsEmptyState st then st_state s else Some st) as <- by (rewrite /s0; by destruct (IsEmptyState st)).
  clearbody s0. intros (s1 & H1 & <-%(inj Some))%bind_Some. assert (st_state s1 = st_state s0) as <- by (steps H1; done).
  destruct ents as [|e ents]; [done|]. destruct (record s1 (e :: ents)) as [s2 mi] eqn:E. rewrite -(record_state _ _ _ _ E).
  by destruct (0 <? mi).
Qed.

Lemma save_frame n ud n1 n2 :
  SaveRaftState n ud = Some n1 →
  processRaftUpdate (n1 <| nd_reader ::= λ lr, if IsEmptySnapshot (ud_Snapshot ud) then lr else (reader.ApplySnapshot lr (ud_Snapshot ud)).1 |>) ud = Some n2 →
  nd_peer n2 = nd_peer n ∧ stored n2 = if IsEmptyState (ud_State ud) then stored n else ud_State ud.
Proof.
  rewrite /SaveRaftState /processRaftUpdate. intros (s & Hs & [= <-])%bind_Some (lr & Hl & [= <-])%bind_Some. split; [done|].
  rewrite /stored. proj_simpl. proj_simpl_in Hl. apply append_store in Hl. apply save_state in Hs.
  assert (lr_store lr = s) as ->.
  { rewrite Hl. destruct (IsEmptySnapshot _); [done|]. rewrite /reader.ApplySnapshot. by destruct (_ <=? _). }
  rewrite Hs. by destruct (IsEmptyState (ud_State ud)).
Qed.

Lemma act_save B w i mb mb' ms :
  safe B w → w_nodes w !! i = Some mb → act R W w i mb ASave = Some (mb', ms) →
  ms = [] ∧ ∃ B', grows B B' ∧ safe B' (w <| w_nodes ::= <[i := mb']> |>).
Proof.
  intros Hw Hi. cbn [act]. destruct (nm_pending mb) as [[ud [|]]|] eqn:Ep; [done| |done].
  intros (n1 & H1 & (n2 & H2 & [= <- <-])%bind_Some)%bind_Some. split; [done|].
  destruct (save_frame _ _ _ _ H1 H2) as [Epeer Est]. clear H1 H2.
  destruct (f_nodes _ _ Hw _ _ Hi). destruct k_sound0 as (H & Hs & Hsub & Hp). rewrite /pending_ok Ep in Hp. destruct Hp as [Hf Hc].
  set (B' := λ v c t, B v c t ∨ (v = i ∧ H t c)). assert (grows B B') as Hg by (intros v c t ?; by left).
  assert (∀ c t, B' i c t → H t c) as HB by (intros c t [Hb|[_ Hb]]; auto).
  exists B'. split; [done|]. destruct Hw. split.
  - intros v c c' t Hb Hb'. destruct (decide (v = i)) as [->|Hne]; [by eapply (s_once _ _ _ _ _ _ Hs); apply HB|].
    destruct Hb as [Hb|[? _]], Hb' as [Hb'|[? _]]; [by eapply f_once0|done..].
  - intros v c t [Hb|[-> Hb]]; [left; by eapply f_chain0|].
    destruct (s_chain _ _ _ _ _ _ Hs _ _ Hb) as [->|Ha]; [|by left]. right. by split.
  - eapply Forall_impl; [exact f_net0|]. intros x. by apply sent_mono.
  - intros j mj. proj_simpl. destruct (decide (i = j)) as [<-|Hne].
    2: { rewrite lookup_insert_ne //. intros Hj. apply (member_mono B); [done| |by apply f_nodes0]. intros c t [?|[? _]]; [done|congruence]. }
    rewrite lookup_insert_eq. intros [= <-].
    assert (∀ t c, H t c → scovers (stored n2) t c) as Hnew.
    { intros t c Ht. rewrite Est. apply Hc. destruct (s_cover _ _ _ _ _ _ Hs _ _ Ht) as (? & ? & ?). by split. }
    assert (sound R W B' (asks B') H (nd_raft (sync n2))) as Hs'.
    { apply (sound_mono B); [done|]. rewrite /nd_raft /sync. proj_simpl. rewrite Epeer. destruct Hs. by split. }
    split; [change (r_nodeID (p_raft (nd_peer n2)) = i); by rewrite Epeer| | |].
    + exists H. split_and!; [exact Hs'|by intros t c; apply HB|]. rewrite /pending_ok. proj_simpl. split.
      * eapply Forall_impl; [exact Hf|]. intros x Hx%(fits_mono B B'); [|done]. eapply fits_extends; [|exact Hx]. intros t c. by right.
      * intros Ee t c. change (stored (sync n2)) with (stored n2). by rewrite Est Ee.
    + intros t c Hb%HB. by apply Hnew.
    + proj_simpl. intros Hu t c. specialize (Hu ud eq_refl). change (nd_peer (sync n2)) with (nd_peer (sync n2)).
      change (p_prevState (nd_peer (sync n2))) with (p_prevState (nd_peer n2)). rewrite Epeer.
      change (stored (sync n2)) with (stored n2). rewrite Est Hu. apply k_prev0. rewrite Ep. by intros ? [= ?].
Qed.

Lemma commit_update_committed l cu l' : RaftLog.commitUpdate l cu = Some l' → el_committed l' = el_committed l.
Proof. rewrite /RaftLog.commitUpdate. intros Hc. steps Hc; done. Qed.

Lemma commit_frame p ud p' :
  Commit p ud = Some p' →
  p_prevState p' = (if IsEmptyState (ud_State ud) then p_prevState p else ud_State ud) ∧
  ∃ l, quiet ((p_raft p) <| r_msgs := [] |>) ((p_raft p') <| r_log := l |>) ∧ r_msgs (p_raft p') = [] ∧
    el_committed (r_log (p_raft p')) = el_committed (r_log (p_raft p)).
Proof.
  rewrite /Commit. set (r1 := if 0 <? _ then _ else _).
  assert (quiet ((p_raft p) <| r_msgs := [] |>) r1 ∧ r_msgs r1 = [] ∧ r_log r1 = r_log (p_raft p)) as (Q & E & El)
    by (rewrite /r1; destruct (0 <? _); (split; [quiet_field|done])).
  clearbody r1. intros (l & Hl & [= <-])%bind_Some. split; [done|]. cbn [p_raft]. exists (r_log r1). split_and!; [|done|].
  - transitivity r1; [done|]. destruct r1. split; [done..|]. exists []. by rewrite app_nil_r.
  - proj_simpl. by rewrite (commit_update_committed _ _ _ Hl) El.
Qed.

Lemma commit_keeps B p ud p' : Commit p ud = Some p' → keeps R W B (asks B) (p_raft p) (p_raft p') ∧ same_ballot (p_raft p) (p_raft p').
Proof.
  intros (_ & l & Q & Em & Ec)%commit_frame. destruct Q. proj_simpl_in q_id. proj_simpl_in q_term. proj_simpl_in q_vote.
  proj_simpl_in q_state. proj_simpl_in q_votes. proj_simpl_in q_remotes. proj_simpl_in q_witnesses. proj_simpl_in q_applied.
  split; [|done]. intros H Hs. destruct Hs. exists H. split; [done|].
  split; rewrite /standing /supports /role_ok /host_ok /complete ?q_id ?q_state ?q_term ?q_vote ?q_votes ?q_remotes ?q_witnesses ?q_applied ?Ec ?Em //.
Qed.

Lemma act_commit B w i mb mb' ms :
  safe B w → w_nodes w !! i = Some mb → act R W w i mb ACommit = Some (mb', ms) → member_ok B i mb' ∧ ms = [].
Proof.
  intros Hw Hi. cbn [act]. destruct (nm_pending mb) as [[ud [|]]|] eqn:Ep; [|done|done].
  intros (n & (p & Hp & [= <-])%bind_Some & [= <- <-])%bind_Some. split; [|done].
  destruct (commit_frame _ _ _ Hp) as [Eprev _]. apply (commit_keeps B) in Hp as [Hk _].
  destruct (f_nodes _ _ Hw _ _ Hi). destruct k_sound0 as (H & Hs & Hsub & Hpend). rewrite /pending_ok Ep in Hpend. destruct Hpend as [_ Hst].
  assert (sound R W B (asks B) H (nd_raft (sync (nm_node mb)))) as Hs1 by (destruct Hs; by split).
  destruct (Hk H Hs1) as (H' & [He Ei] & Hs'). split; [exact (eq_trans Ei k_id0)| |done|].
  - exists H'. split_and!; [exact Hs'|auto|]. by rewrite /pending_ok.
  - intros _ t c. change (scovers (p_prevState p) t c → scovers (stored (nm_node mb)) t c). rewrite Eprev.
    destruct (IsEmptyState (ud_State ud)) eqn:Ee; [|by apply Hst]. apply k_prev0. rewrite Ep. by intros ? [= <-].
Qed.

Lemma members_op B i mb m p' (n := nm_node mb) :
  member_ok B i mb → handle (nd_peer n) m = Some p' → m_Term m = 0 → m_Type m = ConfigChangeEvent ∨ m_Type m = SnapshotReceived →
  input_ok R W B (asks B) (nd_raft n) m → member_ok B i (mb <| nm_node := n <| nd_peer := p' |> |>).
Proof.
  intros Hmb [Hh Hp]%handle_peer H0 Ht Hi. apply advance; [done| |done|right; by eapply members_same].
  eapply handle_keeps; [exact Hh|exact Hi|]. rewrite /may_campaign. by destruct Ht as [-> | ->].
Qed.

Lemma apply_change_ok B i mb cc n' :
  member_ok B i mb → on_peer (λ p, ApplyConfigChange p cc) (nm_node mb) = Some n' → change_ok R W (nd_raft (nm_node mb)) cc = true →
  member_ok B i (mb <| nm_node := n' |>).
Proof.
  intros Hmb (p & Hp & [= <-])%bind_Some Hc. move: Hp. rewrite /ApplyConfigChange. destruct (cc_NodeID cc =? NoLeader).
  - intros [= <-]. apply advance; [done| |done|by right]. apply quiet_keeps. quiet_field.
  - intros Hp. eapply members_op; [done|exact Hp|done|by left|]. rewrite /input_ok. cbn [m_Type]. right. proj_simpl.
    move: Hc. rewrite /change_ok. destruct (configChangeType (u64 (cc_Type cc))) as [[]|]; try done.
    + intros [H1%bool_decide_eq_true_1 H2%negb_true_iff%bool_decide_eq_false_1]%andb_true_iff. done.
    + by intros H1%negb_true_iff%bool_decide_eq_false_1.
    + by intros H1%bool_decide_eq_true_1.
Qed.

Lemma reject_change_ok B i mb n' :
  member_ok B i mb → on_peer RejectConfigChange (nm_node mb) = Some n' → member_ok B i (mb <| nm_node := n' |>).
Proof. intros Hmb (p & Hp & [= <-])%bind_Some. eapply members_op; [done|exact Hp|done|by left|]. rewrite /input_ok. cbn. by left. Qed.

Lemma act_config B w i mb isW cc rej mb' ms :
  safe B w → w_nodes w !! i = Some mb → act R W w i mb (AConfigChange isW cc rej) = Some (mb', ms) → member_ok B i mb' ∧ ms = [].
Proof.
  intros Hw Hi Ha. assert (∃ u n', guard (rej || change_ok R W (nd_raft (nm_node mb)) cc) = Some u ∧
    ApplyConfigChangeNode (nm_node mb) isW cc rej = Some n' ∧ mb' = mb <| nm_node := n' |> ∧ ms = []) as (u & n' & Hg & Hn & -> & ->).
  { cbn [act] in Ha. destruct (nm_pending mb); apply bind_Some in Ha as (u & Hu & (n' & Hn & [= <- <-])%bind_Some); eauto 10. }
  clear Ha. split; [|done]. apply guard_Some in Hg. pose proof (f_nodes _ _ Hw _ _ Hi) as Hmb. move: Hn. rewrite /ApplyConfigChangeNode.
  intros (n1 & H1 & H2)%bind_Some. destruct rej.
  - injection H1 as <-. destruct (negb isW && true); [by eapply reject_change_ok|injection H2 as <-; by destruct mb].
  - rewrite andb_false_r in H2. injection H2 as <-. by eapply apply_change_ok.
Qed.

Lemma act_restore B w i mb ss mb' ms :
  safe B w → w_nodes w !! i = Some mb → act R W w i mb (ARestore ss) = Some (mb', ms) → member_ok B i mb' ∧ ms = [].
Proof.
  intros Hw Hi Ha. assert (∃ u n', guard (snapshot_ok R W ss) = Some u ∧ RestoreRemotesNode (nm_node mb) ss = Some n' ∧
    mb' = mb <| nm_node := n' |> ∧ ms = []) as (u & n' & Hg & Hn & -> & ->).
  { cbn [act] in Ha. destruct (nm_pending mb); apply bind_Some in Ha as (u & Hu & (n' & Hn & [= <- <-])%bind_Some); eauto 10. }
  clear Ha. split; [|done]. apply guard_Some, andb_true_iff in Hg as [HR%bool_decide_eq_true_1 HW%bool_decide_eq_true_1].
  move: Hn. rewrite /RestoreRemotesNode. destruct (_ =? 0); [done|]. intros (p & Hp & [= <-])%bind_Some.
  eapply members_op; [exact (f_nodes _ _ Hw _ _ Hi)|exact Hp|done|by right|done].
Qed.

(** A node that has just started remembers what it has stored. *)
Lemma started_member B i c qe s ev pas ini index n :
  startRaft c qe s ev pas ini index = Some n → started_ok R W i c n = true →
  (∀ c t, B i c t → scovers (default emptyState (st_state s)) t c) →
  (∀ v c c' t, B v c t → B v c' t → c = c') → (∀ v c t, B v c t → B c c t) →
  member_ok B i {| nm_node := n; nm_pending := None |}.
Proof.
  intros (Ei & Em & Est & Es & Hc & Hprev)%start_spec Hok HB Honce Hchain. rewrite /started_ok in Hok.
  repeat (apply andb_true_iff in Hok as [Hok ?]). revert select (bounded _ = true). intros Hb%bounded_spec.
  repeat match goal with E : bool_decide _ = true |- _ => apply bool_decide_eq_true_1 in E end. apply Z.eqb_eq in Hok.
  assert (stored n = default emptyState (st_state s)) as Est' by by rewrite /stored Es.
  rewrite -Est' in HB. split; cbn [nm_node nm_pending]; [congruence| |auto|auto]. exists (λ t c, B i c t).
  split_and!; [|done|done]. split; try done; cbn beta.
  - lia.
  - intros t v v'. apply Honce.
  - intros t v Hv. apply HB in Hv. by apply Hc in Hv.
  - intros t v Hv. right. by eapply Hchain.
  - by rewrite Em.
  - intros v Hs. destruct Est. by left.
  - intros Hs. destruct Est. by right.
Qed.

Lemma act_crash B w i mb c qe ev pas ini index mb' ms :
  safe B w → w_nodes w !! i = Some mb → act R W w i mb (ACrash c qe ev pas ini index) = Some (mb', ms) → member_ok B i mb' ∧ ms = [].
Proof.
  intros Hw Hi Ha. assert (∃ n' u, startRaft c qe (lr_store (nd_reader (nm_node mb))) ev pas ini index = Some n' ∧
    guard (started_ok R W i c n') = Some u ∧ mb' = {| nm_node := n'; nm_pending := None |} ∧ ms = []) as (n' & u & Hn & Hg & -> & ->).
  { cbn [act] in Ha. destruct (nm_pending mb); apply bind_Some in Ha as (n' & Hn & (u & Hu & [= <- <-])%bind_Some); eauto 10. }
  split; [|done]. apply guard_Some in Hg. destruct Hw. eapply started_member; [exact Hn|exact Hg| |done|done].
  intros v t. apply (k_stored _ _ _ (f_nodes0 _ _ Hi)).
Qed.

Lemma act_quiesce B w i mb to mb' ms :
  safe B w → w_nodes w !! i = Some mb → act R W w i mb (AQuiesce to) = Some (mb', ms) → member_ok B i mb' ∧ Forall (sent_ok B) ms.
Proof.
  intros Hw Hi Ha. assert (mb' = mb ∧ ms = enterQuiesceMessages (nm_node mb) [to]) as [-> ->].
  { cbn [act] in Ha. destruct (nm_pending mb); by injection Ha as <- <-. }
  split; [exact (f_nodes _ _ Hw _ _ Hi)|]. rewrite /enterQuiesceMessages. apply Forall_fmap, Forall_forall. by intros x _.
Qed.

Lemma safe_step B w w' : safe B w → step R W w w' → ∃ B', grows B B' ∧ safe B' w'.
Proof.
  intros Hw ([i a] & (mb & Hi & ([mb' ms] & Ha & [= <-])%bind_Some)%bind_Some). cbn [fst snd] in *.
  assert (grows B B) as Hrefl by reflexivity.
  assert (member_ok B i mb' ∧ Forall (sent_ok B) ms →
    ∃ B', grows B B' ∧ safe B' (w <| w_nodes ::= <[i := mb']> |> <| w_net ::= λ net, net ++ ms |>)) as Hdone.
  { intros [Hmb Hms]. exists B. split; [done|]. by eapply safe_same. }
  assert (member_ok B i mb' ∧ ms = [] → member_ok B i mb' ∧ Forall (sent_ok B) ms) as Hquiet by (by intros [? ->]).
  destruct a.
  - by eapply Hdone, Hquiet, act_request.
  - by eapply Hdone, Hquiet, act_applied.
  - by eapply Hdone, Hquiet, act_update.
  - by eapply Hdone, act_send.
  - destruct (act_save _ _ _ _ _ _ Hw Hi Ha) as (-> & B' & Hg & Hs). exists B'. split; [done|]. destruct Hs. split; try done.
    proj_simpl. by rewrite app_nil_r.
  - by eapply Hdone, Hquiet, act_commit.
  - by eapply Hdone, act_quiesce.
  - by eapply Hdone, Hquiet, act_config.
  - by eapply Hdone, Hquiet, act_restore.
  - by eapply Hdone, Hquiet, act_crash.
Qed.

Lemma safe_steps B w w' : safe B w → rtc (step R W) w w' → ∃ B', grows B B' ∧ safe B' w'.
Proof.
  intros Hw Hr. revert B Hw. induction Hr as [w|w1 w2 w3 H12 _ IH]; intros B Hw; [exists B; by split|].
  destruct (safe_step _ _ _ Hw H12) as (B' & Hg & Hs). destruct (IH _ Hs) as (B'' & Hg' & Hs'). exists B''. split; [by transitivity B'|done].
Qed.

Lemma safe_initial w : initial R W w → safe (λ _ _ _, False) w.
Proof.
  intros [Hn Hi]. split; try done; [by rewrite Hn|]. intros i mb Hmb.
  destruct (Hi i mb Hmb) as (Hp & c & qe & s & ev & pas & ini & index & Hs & Hok).
  destruct mb as [n pend]. cbn in *. subst pend. by eapply started_member.
Qed.

(** Two majorities share a node. *)
Lemma majorities_meet (Q1 Q2 : gset Z) :
  Q1 ⊆ R ∪ W → Q2 ⊆ R ∪ W → majority R W ≤ Z.of_nat (size Q1) → majority R W ≤ Z.of_nat (size Q2) → ∃ v, v ∈ Q1 ∧ v ∈ Q2.
Proof.
  intros H1 H2 S1 S2. destruct (decide (Q1 ∩ Q2 = ∅)) as [Hd|Hd]; [exfalso|apply set_choose_L in Hd as [v Hv]; exists v; set_solver].
  assert (size (Q1 ∪ Q2) ≤ size (R ∪ W))%nat as Hle by (apply subseteq_size; set_solver).
  rewrite size_union in Hle; [set_solver|]. pose proof (size_union_alt R W) as Hu.
  assert (size (W ∖ R) ≤ size W)%nat by (apply subseteq_size; set_solver). rewrite /majority in S1 S2. zlia.
Qed.

Lemma only_one (Q : gset Z) i : Q ∖ {[i]} = ∅ → Q = ∅ ∨ Q = {[i]}.
Proof.
  intros He. assert (∀ v, v ∈ Q → v = i) as Hone.
  { intros v Hv. destruct (decide (v = i)); [done|]. assert (v ∈ Q ∖ {[i]}) as Hx by set_solver. rewrite He in Hx. set_solver. }
  destruct (decide (i ∈ Q)); [right|left]; apply set_eq; intros v; split; set_solver.
Qed.

(** A leader that is not alone has votes of others, so it has asked for them. *)
Lemma leader_asked B w i t :
  safe B w → leads w i t → ∃ Q : gset Z, Q ⊆ R ∪ W ∧ majority R W ≤ Z.of_nat (size Q) ∧ i ∈ R ∪ W ∧
    (∀ v, v ∈ Q → v = i ∨ B v i t) ∧ (Q = {[i]} ∨ B i i t).
Proof.
  intros Hw (mb & Hi & Hl & Ht). destruct (f_nodes _ _ Hw _ _ Hi). destruct k_sound0 as (H & Hs & _ & _). destruct Hs.
  destruct (s_lead Hl) as (Q & HQ & Hm & Hsup). exists Q. rewrite /supports k_id0 Ht in Hsup.
  destruct s_role as [_ Hrole]. rewrite Hl k_id0 in Hrole. split_and!; [done|done|set_solver| |].
  - intros v Hv. destruct (Hsup v Hv) as [?|[_ ?]]; auto.
  - destruct (decide (Q ∖ {[i]} = ∅)) as [He|He].
    + left. destruct (only_one _ _ He) as [->|?]; [|done]. rewrite size_empty /majority in Hm. zlia.
    + right. apply set_choose_L in He as [v Hv]. apply elem_of_difference in Hv as [Hv Hne].
      destruct (Hsup v Hv) as [->|[_ Hb]]; [by destruct Hne; apply elem_of_singleton|]. by eapply f_chain.
Qed.
End safety.
