(* ===== verification/RaftTheorems.v ===== *)
(** * What holds of the Raft core

    The properties of the cluster (RaftCluster.v), of the log and of the node's
    cycle, with a cluster of three nodes on which they are exercised. *)
From S2P Require Import Prelude Raftpb RaftLog LogReader Raft RaftPeer RaftNode RaftQuiet RaftElection RaftCluster.
From Stdlib Require Import Ascii.
From stdpp Require Import relations.

Local Open Scope Z_scope.

(** ** A cluster of three *)
#[local] Program Instance demo_env : RaftEnv := {| rand := λ _, 0; range := λ _ l, l; maxEntrySize := 1000000 |}.
Next Obligation. done. Qed.

Definition demo_config (i : Z) : Config :=
  {| c_ClusterID := 7; c_NodeID := i; c_ElectionRTT := 3; c_HeartbeatRTT := 1; c_CheckQuorum := true; c_MaxInMemLogSize := 0;
     c_SnapshotEntries := 0; c_SnapshotCompressionType := 0; c_EntryCompressionType := 0; c_IsObserver := false; c_IsWitness := false |}.
Definition demo_peers : list PeerAddress :=
  [{| pa_NodeID := 1; pa_Address := "a" |}; {| pa_NodeID := 2; pa_Address := "b" |}; {| pa_NodeID := 3; pa_Address := "c" |}].
Definition demo_node (i : Z) : option Node := startRaft (demo_config i) false emptyStore false demo_peers true 0.
Definition demo_members : gset Z := {[1; 2; 3]}.

Definition no_world : World := {| w_nodes := ∅; w_net := [] |}.
Definition demo_world : World :=
  default no_world (n1 ← demo_node 1; n2 ← demo_node 2; n3 ← demo_node 3;
    let m n := {| nm_node := n; nm_pending := None |} in
    Some {| w_nodes := {[1 := m n1; 2 := m n2; 3 := m n3]}; w_net := [] |}).

Definition demo_request : Message :=
  (msg RequestVote) <| m_To := 2 |> <| m_From := 1 |> <| m_ClusterId := 7 |> <| m_Term := 2 |> <| m_LogTerm := 1 |> <| m_LogIndex := 3 |>.
Definition demo_vote : Message := (msg RequestVoteResp) <| m_To := 1 |> <| m_From := 2 |> <| m_ClusterId := 7 |> <| m_Term := 2 |>.

(** Node 1 times out and asks node 2, which votes for it; node 1 leads. *)
Definition demo_election : list (Z * Action) :=
  [(1, AApplied 3); (1, ARequest RTick); (1, ARequest RTick); (1, ARequest RTick); (1, AUpdate true); (1, ASave);
   (1, ASend demo_request); (1, ACommit);
   (2, AApplied 3); (2, ARequest (RMessage demo_request)); (2, AUpdate true); (2, ASave); (2, ASend demo_vote); (2, ACommit);
   (1, ARequest (RMessage demo_vote))].
(** Node 2 crashes and comes back with the log it had stored. *)
Definition demo_crash : list (Z * Action) := [(2, ACrash (demo_config 2) false false demo_peers true 0)].

Definition demo_led : World := default no_world (run demo_members ∅ demo_world demo_election).
Definition demo_later : World := default no_world (run demo_members ∅ demo_led demo_crash).

(** Checks that evaluate to a boolean. *)
Definition succeeds {A} (x : option A) : bool := match x with Some _ => true | None => false end.
Definition holds_at {A} (P : A → bool) (x : option A) : bool := match x with Some a => P a | None => false end.
Definition leading (w : World) (i t : Z) : bool :=
  holds_at (λ mb, bool_decide (r_state (nd_raft (nm_node mb)) = leader) && (r_term (nd_raft (nm_node mb)) =? t)) (w_nodes w !! i).

Lemma succeeds_default {A} (x : option A) (d : A) : succeeds x = true → x = Some (default d x).
Proof. by destruct x. Qed.
Lemma holds_at_spec {A} (P : A → bool) (x : option A) : holds_at P x = true → ∃ a, x = Some a ∧ P a = true.
Proof. destruct x as [a|]; [|done]. intros Hp. by exists a. Qed.
Lemma leading_spec w i t : leading w i t = true → leads w i t.
Proof.
  intros (mb & Hi & [Hs%bool_decide_eq_true_1 Ht%Z.eqb_eq]%andb_true_iff)%holds_at_spec. by exists mb.
Qed.

Lemma demo_started i : (i =? 1) || (i =? 2) || (i =? 3) = true →
  ∃ n, demo_node i = Some n ∧ started_ok demo_members ∅ i (demo_config i) n = true.
Proof.
  intros Hi. apply holds_at_spec. apply orb_true_iff in Hi as [[->%Z.eqb_eq| ->%Z.eqb_eq]%orb_true_iff| ->%Z.eqb_eq]; vm_compute; reflexivity.
Qed.

Lemma demo_initial : initial demo_members ∅ demo_world.
Proof.
  destruct (demo_started 1) as (n1 & E1 & H1); [done|]. destruct (demo_started 2) as (n2 & E2 & H2); [done|].
  destruct (demo_started 3) as (n3 & E3 & H3); [done|]. rewrite /demo_world E1 E2 E3. cbn [mbind option_bind default].
  split; [done|]. cbn [w_nodes]. intros i mb.
  rewrite !lookup_insert_Some. intros [[<- <-]|[_ [[<- <-]|[_ [[<- <-]|[_ ?]]]]]]; [..|done];
    (split; [done|]); repeat eexists; eassumption.
Qed.

Section elections.
Context `{Env : RaftEnv} (R W : gset Z).

Lemma single_member i j : majority R W ≤ 1 → i ∈ R ∪ W → j ∈ R ∪ W → i = j.
Proof.
  intros Hm Hi Hj. assert (size (R ∪ W) ≤ 1)%nat as Hs.
  { pose proof (size_union_alt R W) as Hu. assert (size (W ∖ R) ≤ size W)%nat by (apply subseteq_size; set_solver).
    rewrite /majority in Hm. zlia. }
  destruct (decide (i = j)) as [|Hne]; [done|]. assert (size ({[i; j]} : gset Z) ≤ size (R ∪ W))%nat as Hle by (apply subseteq_size; set_solver).
  rewrite size_union in Hle; [set_solver|]. rewrite !size_singleton in Hle. lia.
Qed.
End elections.

(** C2: at most one node leads a term: if node [i] leads term [t] at some point of a
    run, and node [j] leads the same term then or later, they are the same node.
    Messages may be lost, duplicated and reordered, and nodes may crash, also
    between deciding and storing, and restart from their storage; the members are
    the nodes of [R] and [W] throughout, and no term reaches 2^64 - 1. *)
Theorem one_leader_per_term `{RaftEnv} (R W : gset Z) w0 w w' i j t :
  initial R W w0 → rtc (step R W) w0 w → rtc (step R W) w w' → leads w i t → leads w' j t → i = j.
Proof.
  intros H0 H01 H12 Hi Hj. destruct (safe_steps R W _ _ _ (safe_initial R W _ H0) H01) as (B & _ & Hw).
  destruct (safe_steps R W _ _ _ Hw H12) as (B' & Hg & Hw').
  destruct (leader_asked R W _ _ _ _ Hw Hi) as (Q1 & HQ1 & M1 & I1 & S1 & A1).
  destruct (leader_asked R W _ _ _ _ Hw' Hj) as (Q2 & HQ2 & M2 & I2 & S2 & A2).
  destruct (majorities_meet R W Q1 Q2) as (v & Hv1 & Hv2); [done..|].
  assert (∀ u, B' u i t → B' u j t → i = j) as Honce by (intros u; apply (f_once _ _ _ _ Hw')).
  destruct (S1 v Hv1) as [E1|B1], (S2 v Hv2) as [E2|B2]; [congruence| | |].
  - subst v. destruct A1 as [-> |A1]; [rewrite size_singleton in M1; by eapply single_member|]. eapply Honce; [by apply Hg|done].
  - subst v. destruct A2 as [-> |A2]; [rewrite size_singleton in M2; by eapply single_member|]. eapply Honce; [by apply Hg|done].
  - eapply Honce; [by apply Hg|done].
Qed.

Lemma one_leader_per_term_witness : leads demo_led 1 2 ∧ leads demo_later 1 2 ∧ (1 : Z) = 1.
Proof.
  assert (leads demo_led 1 2) as H1 by (apply leading_spec; vm_compute; reflexivity).
  assert (leads demo_later 1 2) as H2 by (apply leading_spec; vm_compute; reflexivity).
  split; [exact H1|]. split; [exact H2|].
  apply (one_leader_per_term demo_members ∅ demo_world demo_led demo_later 1 1 2); [exact demo_initial| | |exact H1|exact H2].
  - apply (run_steps _ _ _ demo_election), succeeds_default. vm_compute. reflexivity.
  - apply (run_steps _ _ _ demo_crash), succeeds_default. vm_compute. reflexivity.
Defined.

(** C3: a node votes once in a term: two votes it has ever sent in one term are for
    the same candidate, also when it crashed and restarted between them. *)
Theorem votes_once `{RaftEnv} (R W : gset Z) w0 w x y :
  initial R W w0 → rtc (step R W) w0 w → x ∈ w_net w → y ∈ w_net w → granted x → granted y →
  m_From x = m_From y → m_Term x = m_Term y → m_To x = m_To y.
Proof.
  intros H0 H01 Hx Hy [Tx Rx] [Ty Ry] Ef Et. destruct (safe_steps R W _ _ _ (safe_initial R W _ H0) H01) as (B & _ & Hw).
  pose proof (f_net _ _ _ _ Hw) as Hn. rewrite Forall_forall in Hn. pose proof (Hn x Hx) as Ox. pose proof (Hn y Hy) as Oy.
  rewrite /sent_ok Tx in Ox. rewrite /sent_ok Ty in Oy. destruct (Ox Rx) as [_ Bx], (Oy Ry) as [_ By].
  rewrite Ef Et in Bx. by eapply (f_once _ _ _ _ Hw).
Qed.

Lemma votes_once_witness : demo_vote ∈ w_net demo_led ∧ m_To demo_vote = m_To demo_vote.
Proof.
  assert (demo_vote ∈ w_net demo_led) as Hin by (apply (bool_decide_unpack _); vm_compute; exact I).
  split; [exact Hin|].
  apply (votes_once demo_members ∅ demo_world demo_led demo_vote demo_vote);
    [exact demo_initial| |exact Hin|exact Hin|split; reflexivity|split; reflexivity|reflexivity|reflexivity].
  apply (run_steps _ _ _ demo_election), succeeds_default. vm_compute. reflexivity.
Defined.

(** ** The recursion of [Handle]

    A tick, and a timeout forced by the leader, call [Handle] again. *)
Section recursion.
Context `{Env : RaftEnv}.
Implicit Types (f g : raft → Message → option raft).

(** What a tick hands on is handled without a further call. *)
Lemma inner_unused f g r m : tick_message m → HandleWith f r m = HandleWith g r m.
Proof.
  intros [H0 Hm]. rewrite /HandleWith. destruct (onMessageTermNotMatched r m) as [[r1 b]|]; [|done]. cbn [mbind option_bind].
  destruct b; [done|]. destruct (_ && _); [done|]. rewrite /defaultHandle.
  destruct (m_Type m); try (by destruct Hm); destruct (r_state r1); reflexivity.
Qed.

Lemma bind_ext {A B} (x : option A) (f g : A → option B) : (∀ a, f a = g a) → x ≫= f = x ≫= g.
Proof. intros E. destruct x; [apply E|done]. Qed.

Lemma each_ext (h k : raft → Z → option raft) r ids : (∀ r id, h r id = k r id) → each h r ids = each k r ids.
Proof. intros E. revert r. induction ids as [|id ids IH]; intros r; cbn [each]; [done|]. rewrite E. apply bind_ext, IH. Qed.

(** Only what ticks hand on reaches the inner call. *)
Lemma tick_ext f g r : (∀ r m, tick_message m → f r m = g r m) → tick f r = tick g r.
Proof.
  intros E. rewrite /tick. set (r0 := upd r_tickCount _ _). destruct (isLeader r0).
  - rewrite /leaderTick. apply bind_ext. intros _. apply bind_ext. intros b.
    assert (∀ k r, checkAcks f k r = checkAcks g k r) as Ea.
    { intros k r1. rewrite /checkAcks. cbn [rangeKeys]. apply each_ext. intros r2 id. rewrite /checkAck. apply bind_ext. intros rp.
      destruct (rm_state rp); try done. destruct (rem.ackTick _) as [ack [|]]; [|done]. by rewrite E. }
    match goal with |- mbind ?k1 ?x1 = mbind ?k2 ?x2 => assert (x1 = x2) as -> end.
    { destruct (timeForCheckQuorum _); [|done]. destruct (r_checkQuorum _); [|done]. by apply E. }
    apply bind_ext. intros r1. match goal with |- mbind ?k1 ?x1 = mbind ?k2 ?x2 => assert (x1 = x2) as -> end.
    { destruct (timeForHearbeat _); [|done]. by apply E. }
    apply bind_ext. intros r2. rewrite /checkPendingSnapshotAck. destruct (_ && _); [|done].
    rewrite Ea. apply bind_ext. intros r3. rewrite Ea. apply bind_ext. intros r4. apply Ea.
  - rewrite /nonLeaderTick. destruct (isLeader r0); [done|]. apply bind_ext. intros b. apply bind_ext. intros r1.
    destruct (_ || _); [done|]. destruct (_ && _); [|done]. by apply E.
Qed.

Lemma handle_ext f g r m : (∀ r m, tick_message m → f r m = g r m) → HandleWith f r m = HandleWith g r m.
Proof.
  intros E. rewrite /HandleWith. apply bind_ext. intros [r1 b]. destruct b; [done|]. destruct (_ && _); [done|].
  assert (∀ r, tick f r = tick g r) as Et by (intros; by apply tick_ext).
  assert (handleLocalTick f r1 m = handleLocalTick g r1 m) as El by (rewrite /handleLocalTick; destruct (m_Reject m); [done|apply Et]).
  assert (handleFollowerTimeoutNow f r1 m = handleFollowerTimeoutNow g r1 m) as En by by rewrite /handleFollowerTimeoutNow Et.
  rewrite /defaultHandle. destruct (r_state r1), (m_Type m); cbv beta iota;
    lazymatch goal with
    | |- handleLocalTick _ _ _ = _ => exact El
    | |- handleFollowerTimeoutNow _ _ _ = _ => exact En
    | |- _ => reflexivity
    end.
Qed.
End recursion.

(** [Handle] terminates: the recursion through ticks is two calls deep.  [Handle]
    is a solution of the recursive definition in the source (the dispatch whose ticks
    call [Handle]), it is the only one, and unfolding the definition twice, from
    anything, already gives it. *)
Theorem handle_terminates `{RaftEnv} :
  (∀ r m, Raft.Handle r m = HandleWith Raft.Handle r m) ∧
  (∀ h, (∀ r m, h r m = HandleWith h r m) → ∀ r m, h r m = Raft.Handle r m) ∧
  (∀ n h r m, Nat.iter (2 + n) HandleWith h r m = Raft.Handle r m).
Proof.
  assert (∀ f r m, HandleWith (HandleWith f) r m = Raft.Handle r m) as H2.
  { intros f r m. apply handle_ext. intros r1 m1 Hm. by apply inner_unused. }
  split_and!.
  - intros r m. symmetry. apply H2.
  - intros h Hh r m. rewrite Hh -(H2 h). apply handle_ext. intros r1 m1 _. apply Hh.
  - intros n h r m. apply H2.
Qed.

(** ** A rate limit report that wraps

    A follower that is told of ten entries without payload counts 80 bytes for each
    of them in memory and 128 as not committed; the difference it reports to the
    leader, meant to stop at 0, is an unsigned number close to 2^64. *)
Definition demo_entry (i : Z) : Entry := {| e_Term := 2; e_Index := i; e_Type := ApplicationEntry; e_Key := 0; e_ClientID := 0;
  e_SeriesID := 0; e_RespondedTo := 0; e_Cmd := [] |}.
Definition demo_replicate : Message :=
  (msg Replicate) <| m_To := 2 |> <| m_From := 1 |> <| m_ClusterId := 7 |> <| m_Term := 2 |> <| m_LogTerm := 1 |>
    <| m_LogIndex := 3 |> <| m_Commit := 3 |> <| m_Entries := demo_entry <$> seqZ 4 10 |>.
Definition demo_limited (i : Z) : Config :=
  {| c_ClusterID := 7; c_NodeID := i; c_ElectionRTT := 3; c_HeartbeatRTT := 1; c_CheckQuorum := true; c_MaxInMemLogSize := 200;
     c_SnapshotEntries := 0; c_SnapshotCompressionType := 0; c_EntryCompressionType := 0; c_IsObserver := false; c_IsWitness := false |}.
Definition demo_report : option Z :=
  n ← startRaft (demo_limited 2) false emptyStore false demo_peers true 0;
  r ← Raft.Handle (nd_raft n) demo_replicate;
  r ← sendRateLimitMessage r;
  m_Hint <$> last (r_msgs r).

Example rate_limit_wraps : holds_at (λ mv, 2 ^ 64 - 1000 <? mv) demo_report = true.
Proof. vm_compute. reflexivity. Qed.

(** A read that a candidate drops is recorded twice. *)
Example candidate_drops_twice `{RaftEnv} r m :
  r_droppedReadIndexes <$> handleCandidateReadIndex r m =
  Some (r_droppedReadIndexes r ++ [ctxOf m; ctxOf m]).
Proof. exact (f_equal Some (eq_sym (app_assoc (r_droppedReadIndexes r) [ctxOf m] [ctxOf m]))). Qed.
