(* ===== verification/RsmMembers.v ===== *)
(** * Members of a Raft group

    internal/dragonboat/internal/rsm/membership.go: which configuration changes a
    replica accepts and what they do to its members.  Every replica decides on its
    own, from the log; the accepted changes move one voter at a time, so that
    majorities before and after a change meet.

    [foldRune] stands for Unicode simple case folding ([unicode.SimpleFold] through
    [strings.EqualFold]): it maps a rune to the representative of its class. *)
From S2P Require Import Prelude GoStrings GoText Raftpb RaftLog Raft RaftPeer RaftNode RaftQuiet RaftElection RaftCluster RaftTheorems.
From stdpp Require Import fin_maps.

Local Open Scope Z_scope.

(** The identifiers [clusterID] and [nodeID] only appear in log lines. *)
Record membership := { ms_ordered : bool; ms_members : Membership }.
#[export] Instance membership_eta : Eta membership := λ m, Build_membership (ms_ordered m) (ms_members m).

Definition newMembership (ordered : bool) : membership := {| ms_ordered := ordered; ms_members := noMembership |}.

(** [deepCopyMembership] sets every entry of [Removed] to true. *)
Definition deepCopyMembership (m : Membership) : Membership := m <| mb_Removed ::= fmap (λ _, true) |>.

Definition setMembers (m : membership) (n : Membership) : membership := m <| ms_members := deepCopyMembership n |>.
Definition getMembers (m : membership) : Membership := deepCopyMembership (ms_members m).
Definition isEmpty (m : membership) : bool := bool_decide (mb_Addresses (ms_members m) = ∅).

Section membership.
Context (foldRune : Z → Z).

Definition EqualFold (s t : string) : bool := bool_decide (foldRune <$> (runes s) = foldRune <$> (runes t)).
Definition addressEqual (a b : string) : bool := EqualFold (TrimSpace a) (TrimSpace b).

(** ** The reasons for refusing a change *)
Definition isType (cc : ConfigChange) (t : ConfigChangeType) : bool := cc_Type cc =? ccTypeNumber t.
Definition has {A} (k : Z) (m : gmap Z A) : bool := bool_decide (is_Some (m !! k)).
Definition addresses_clash (m : gmap Z string) (a : string) : bool :=
  existsb (λ p, addressEqual p.2 a) (map_to_list m).

Implicit Types (m : membership) (cc : ConfigChange).

Definition isUpToDate m cc : bool :=
  negb (ms_ordered m) || cc_Initialize cc || (mb_ConfigChangeId (ms_members m) =? cc_ConfigChangeId cc).
Definition isAdd cc : bool := isType cc AddNode || isType cc AddObserver || isType cc AddWitness.
Definition isAddRemovedNode m cc : bool := isAdd cc && has (cc_NodeID cc) (mb_Removed (ms_members m)).
Definition isPromoteObserver m cc : bool :=
  isType cc AddNode && match mb_Observers (ms_members m) !! cc_NodeID cc with
                   | Some oa => addressEqual oa (cc_Address cc) | None => false end.
Definition isInvalidObserverPromotion m cc : bool :=
  isType cc AddNode && match mb_Observers (ms_members m) !! cc_NodeID cc with
                   | Some oa => negb (addressEqual oa (cc_Address cc)) | None => false end.
Definition isAddExistingMember m cc : bool :=
  let ms := ms_members m in
  if isType cc AddNode && has (cc_NodeID cc) (mb_Addresses ms) then true
  else if isType cc AddObserver && has (cc_NodeID cc) (mb_Observers ms) then true
  else if isType cc AddWitness && has (cc_NodeID cc) (mb_Witnesses ms) then true
  else if isPromoteObserver m cc then false
  else isAdd cc && (addresses_clash (mb_Addresses ms) (cc_Address cc) || addresses_clash (mb_Observers ms) (cc_Address cc) ||
                    addresses_clash (mb_Witnesses ms) (cc_Address cc)).
Definition isAddNodeAsObserver m cc : bool := isType cc AddObserver && has (cc_NodeID cc) (mb_Addresses (ms_members m)).
Definition isAddNodeAsWitness m cc : bool := isType cc AddWitness && has (cc_NodeID cc) (mb_Addresses (ms_members m)).
Definition isAddWitnessAsObserver m cc : bool := isType cc AddObserver && has (cc_NodeID cc) (mb_Witnesses (ms_members m)).
Definition isAddWitnessAsNode m cc : bool := isType cc AddNode && has (cc_NodeID cc) (mb_Witnesses (ms_members m)).
Definition isAddObserverAsWitness m cc : bool := isType cc AddWitness && has (cc_NodeID cc) (mb_Observers (ms_members m)).
Definition isDeleteOnlyNode m cc : bool :=
  isType cc RemoveNode && bool_decide (size (mb_Addresses (ms_members m)) = 1%nat) && has (cc_NodeID cc) (mb_Addresses (ms_members m)).

(** ** Applying a change; [None] is a panic *)
Definition applyChange (ms : Membership) (cc : ConfigChange) (index : Z) : option Membership :=
  let ms := ms <| mb_ConfigChangeId := index |> in
  let id := cc_NodeID cc in
  if isType cc AddNode then
    if has id (mb_Witnesses ms) then None
    else Some (ms <| mb_Observers ::= delete id |> <| mb_Addresses ::= <[id := cc_Address cc]> |>)
  else if isType cc AddObserver then
    if has id (mb_Addresses ms) then None else Some (ms <| mb_Observers ::= <[id := cc_Address cc]> |>)
  else if isType cc AddWitness then
    if has id (mb_Addresses ms) || has id (mb_Observers ms) then None
    else Some (ms <| mb_Witnesses ::= <[id := cc_Address cc]> |>)
  else if isType cc RemoveNode then
    Some (ms <| mb_Addresses ::= delete id |> <| mb_Observers ::= delete id |> <| mb_Witnesses ::= delete id |>
             <| mb_Removed ::= <[id := true]> |>)
  else None.

Definition acceptable m cc : bool :=
  isUpToDate m cc && negb (isAddRemovedNode m cc) && negb (isAddExistingMember m cc) && negb (isAddNodeAsObserver m cc) &&
  negb (isAddNodeAsWitness m cc) && negb (isAddWitnessAsNode m cc) && negb (isAddWitnessAsObserver m cc) &&
  negb (isAddObserverAsWitness m cc) && negb (isDeleteOnlyNode m cc) && negb (isInvalidObserverPromotion m cc).

Definition handleConfigChange m cc (index : Z) : option (membership * bool) :=
  if acceptable m cc then
    ms ← applyChange (ms_members m) cc index;
    Some (m <| ms_members := ms |>, true)
  else Some (m, false).
End membership.

(** ** What the members look like

    A node has one role, a removed node has none, and no two members share an
    address. *)
Definition everyone (ms : Membership) : gmap Z string := mb_Addresses ms ∪ mb_Observers ms ∪ mb_Witnesses ms.
Definition voters (ms : Membership) : gset Z := dom (mb_Addresses ms) ∪ dom (mb_Witnesses ms).

Record members_wf (foldRune : Z → Z) (ms : Membership) : Prop := {
  mw_nodes_observers : mb_Addresses ms ##ₘ mb_Observers ms;
  mw_nodes_witnesses : mb_Addresses ms ##ₘ mb_Witnesses ms;
  mw_observers_witnesses : mb_Observers ms ##ₘ mb_Witnesses ms;
  mw_removed : ∀ i, is_Some (mb_Removed ms !! i) → everyone ms !! i = None;
  mw_addresses : ∀ i j a b, everyone ms !! i = Some a → everyone ms !! j = Some b → addressEqual foldRune a b = true → i = j
}.

(** The replica's log of configuration changes, each with the index of its entry. *)
Fixpoint changes (foldRune : Z → Z) (m : membership) (log : list (ConfigChange * Z)) : option membership :=
  match log with
  | [] => Some m
  | (cc, index) :: log => '(m, _) ← handleConfigChange foldRune m cc index; changes foldRune m log
  end.

Definition known (cc : ConfigChange) : Prop := ∃ t, cc_Type cc = ccTypeNumber t.

(** ** Majorities *)
Definition majority_of (Q V : gset Z) : Prop := Q ⊆ V ∧ (size V < 2 * size Q)%nat.

(** Majorities of two sets meet when the sets differ in one element at most. *)
Lemma majorities_near (V V' Q Q' : gset Z) x :
  V ∖ {[x]} = V' ∖ {[x]} → majority_of Q V → majority_of Q' V' → Q ∩ Q' ≠ ∅.
Proof.
  intros HV [HQ Hq] [HQ' Hq'] Hd. assert (Q ## Q') as Hdj by set_solver.
  pose proof (size_union Q Q' Hdj) as Hu.
  assert (size (Q ∪ Q') ≤ size (V ∪ V'))%nat as Hle by (apply subseteq_size; set_solver).
  assert (size (V ∖ {[x]} : gset Z) ≤ size V)%nat by (apply subseteq_size; set_solver).
  assert (size (V' ∖ {[x]} : gset Z) ≤ size V')%nat by (apply subseteq_size; set_solver).
  destruct (decide (x ∈ V)) as [Hx|Hx], (decide (x ∈ V')) as [Hx'|Hx'].
  - assert (V ∪ V' = V) as E by (apply set_eq; intros y; destruct (decide (y = x)); set_solver). rewrite E in Hle. 
    assert (V = V') as <- by (apply set_eq; intros y; destruct (decide (y = x)); set_solver). lia.
  - assert (V ∪ V' = V) as E by (apply set_eq; intros y; destruct (decide (y = x)); set_solver). rewrite E in Hle.
    assert (V' = V ∖ {[x]}) as -> by set_solver. rewrite size_difference in Hq' |- *; [set_solver|].
    rewrite size_singleton in Hq'. lia.
  - assert (V ∪ V' = V') as E by (apply set_eq; intros y; destruct (decide (y = x)); set_solver). rewrite E in Hle.
    assert (V = V' ∖ {[x]}) as -> by set_solver. rewrite size_difference in Hq |- *; [set_solver|].
    rewrite size_singleton in Hq. lia.
  - assert (V = V') as <- by (apply set_eq; intros y; destruct (decide (y = x)); set_solver).
    assert (V ∪ V = V) as E by set_solver. rewrite E in Hle. lia.
Qed.

Lemma everyone_Some ms i a :
  everyone ms !! i = Some a → mb_Addresses ms !! i = Some a ∨ mb_Observers ms !! i = Some a ∨ mb_Witnesses ms !! i = Some a.
Proof. rewrite /everyone !lookup_union_Some_raw. naive_solver. Qed.
Lemma everyone_None ms i :
  everyone ms !! i = None ↔ mb_Addresses ms !! i = None ∧ mb_Observers ms !! i = None ∧ mb_Witnesses ms !! i = None.
Proof. rewrite /everyone !lookup_union_None. naive_solver. Qed.

Section invariant.
Context (foldRune : Z → Z).
Implicit Types (m : membership) (ms : Membership) (cc : ConfigChange).
#[local] Abbreviation addressEqual := (addressEqual foldRune).

Lemma addressEqual_spec a b :
  addressEqual a b = true ↔ foldRune <$> runes (TrimSpace a) = foldRune <$> runes (TrimSpace b).
Proof. apply bool_decide_eq_true. Qed.
Lemma addressEqual_sym a b : addressEqual a b = true → addressEqual b a = true.
Proof. rewrite !addressEqual_spec. congruence. Qed.
Lemma addressEqual_trans a b c : addressEqual a b = true → addressEqual b c = true → addressEqual a c = true.
Proof. rewrite !addressEqual_spec. congruence. Qed.

Lemma has_true {A} k (m : gmap Z A) : has k m = true ↔ is_Some (m !! k).
Proof. apply bool_decide_eq_true. Qed.
Lemma has_false {A} k (m : gmap Z A) : has k m = false ↔ m !! k = None.
Proof. rewrite /has bool_decide_eq_false eq_None_not_Some. done. Qed.

Lemma no_clash (m : gmap Z string) a i b :
  addresses_clash foldRune m a = false → m !! i = Some b → addressEqual b a = true → False.
Proof.
  rewrite /addresses_clash -not_true_iff_false existsb_exists. intros Hn Hi Heq. apply Hn. exists (i, b). split; [|done].
  by apply list_elem_of_In, elem_of_map_to_list.
Qed.

(** What an accepted change of each kind has established. *)
Definition fresh_address ms a : Prop := ∀ i b, everyone ms !! i = Some b → addressEqual b a = true → False.

Lemma clash_fresh ms a :
  addresses_clash foldRune (mb_Addresses ms) a || addresses_clash foldRune (mb_Observers ms) a ||
  addresses_clash foldRune (mb_Witnesses ms) a = false → fresh_address ms a.
Proof. intros [[H1 H2]%orb_false_iff H3]%orb_false_iff i b Hi Hb. apply everyone_Some in Hi as [Hi|[Hi|Hi]]; eauto using no_clash. Qed.

Inductive accepted ms cc : Prop :=
| accept_node :
    isType cc AddNode = true → everyone ms !! cc_NodeID cc = None → mb_Removed ms !! cc_NodeID cc = None →
    fresh_address ms (cc_Address cc) → accepted ms cc
| accept_promotion oa :
    isType cc AddNode = true → mb_Observers ms !! cc_NodeID cc = Some oa → addressEqual oa (cc_Address cc) = true →
    mb_Addresses ms !! cc_NodeID cc = None → mb_Witnesses ms !! cc_NodeID cc = None →
    mb_Removed ms !! cc_NodeID cc = None → accepted ms cc
| accept_observer :
    isType cc AddObserver = true → everyone ms !! cc_NodeID cc = None → mb_Removed ms !! cc_NodeID cc = None →
    fresh_address ms (cc_Address cc) → accepted ms cc
| accept_witness :
    isType cc AddWitness = true → everyone ms !! cc_NodeID cc = None → mb_Removed ms !! cc_NodeID cc = None →
    fresh_address ms (cc_Address cc) → accepted ms cc
| accept_removal :
    isType cc RemoveNode = true → (mb_Addresses ms ≠ ∅ → delete (cc_NodeID cc) (mb_Addresses ms) ≠ ∅) → accepted ms cc.

Lemma isType_inj cc t u : isType cc t = true → isType cc u = bool_decide (t = u).
Proof. rewrite /isType. intros ->%Z.eqb_eq. by destruct t, u. Qed.

Lemma accept_spec m cc : known cc → acceptable foldRune m cc = true → accepted (ms_members m) cc.
Proof.
  intros [t Ht] Ha. assert (isType cc t = true) as Hk by by apply Z.eqb_eq.
  move: Ha. rewrite /acceptable /isAddRemovedNode /isAddExistingMember /isAddNodeAsObserver /isAddNodeAsWitness /isAddWitnessAsNode
    /isAddWitnessAsObserver /isAddObserverAsWitness /isDeleteOnlyNode /isInvalidObserverPromotion /isPromoteObserver /isAdd
    !(isType_inj _ _ _ Hk) !andb_true_iff !negb_true_iff.
  intros [[[[[[[[[_ Hrem] Hex] Hno] Hnw] Hwn] Hwo] How] Hdel] Hinv].
  destruct t; cbn in Hrem, Hex, Hno, Hnw, Hwn, Hwo, How, Hdel, Hinv.
  - apply has_false in Hrem, Hwn. destruct (has _ _) eqn:Hn in Hex; [done|]. apply has_false in Hn.
    destruct (mb_Observers (ms_members m) !! cc_NodeID cc) as [oa|] eqn:Ho.
    + apply (accept_promotion _ _ oa); try done. by apply negb_false_iff.
    + apply accept_node; [done|by apply everyone_None|done|by apply clash_fresh].
  - apply accept_removal; [done|]. intros Hne Hd. apply andb_false_iff in Hdel as [Hs%bool_decide_eq_false|Hn%has_false].
    + apply Hs. destruct (mb_Addresses (ms_members m) !! cc_NodeID cc) as [a|] eqn:E.
      * assert (is_Some (mb_Addresses (ms_members m) !! cc_NodeID cc)) as Hs' by by exists a.
        pose proof (map_size_delete_Some _ _ Hs') as Hz. rewrite Hd map_size_empty in Hz.
        apply map_size_ne_0_lookup_2 in Hs'. lia.
      * rewrite delete_id // in Hd.
    + by rewrite delete_id in Hd.
  - apply has_false in Hrem, Hno, Hwo. destruct (has _ (mb_Observers _)) eqn:Hn; [done|]. apply has_false in Hn.
    apply accept_observer; [done|by apply everyone_None|done|by apply clash_fresh].
  - apply has_false in Hrem, Hnw, How. destruct (has _ (mb_Witnesses _)) eqn:Hn; [done|]. apply has_false in Hn.
    apply accept_witness; [done|by apply everyone_None|done|by apply clash_fresh].
Qed.

(** What a change leaves, kind by kind; an accepted one is applied without a panic. *)
Definition changed ms cc (index : Z) (t : ConfigChangeType) : Membership :=
  let ms1 := ms <| mb_ConfigChangeId := index |> in
  match t with
  | AddNode => ms1 <| mb_Observers ::= delete (cc_NodeID cc) |> <| mb_Addresses ::= <[cc_NodeID cc := cc_Address cc]> |>
  | AddObserver => ms1 <| mb_Observers ::= <[cc_NodeID cc := cc_Address cc]> |>
  | AddWitness => ms1 <| mb_Witnesses ::= <[cc_NodeID cc := cc_Address cc]> |>
  | RemoveNode => ms1 <| mb_Addresses ::= delete (cc_NodeID cc) |> <| mb_Observers ::= delete (cc_NodeID cc) |>
                      <| mb_Witnesses ::= delete (cc_NodeID cc) |> <| mb_Removed ::= <[cc_NodeID cc := true]> |>
  end.

Lemma accepted_applies ms cc index t :
  isType cc t = true → accepted ms cc → applyChange ms cc index = Some (changed ms cc index t).
Proof.
  intros Ht Ha. rewrite /applyChange. proj_simpl.
  destruct Ha as [Ht' Hn _ _|oa Ht' _ _ _ Hw _|Ht' Hn _ _|Ht' Hn _ _|Ht' _];
    rewrite (isType_inj _ _ _ Ht) in Ht'; apply bool_decide_eq_true in Ht' as ->; rewrite !(isType_inj _ _ _ Ht);
    try apply everyone_None in Hn as (H1 & H2 & H3); cbn [bool_decide decide_rel ConfigChangeType_eq_dec];
    rewrite ?(proj2 (has_false _ _) H1) ?(proj2 (has_false _ _) H2) ?(proj2 (has_false _ _) H3) ?(proj2 (has_false _ _) Hw); done.
Qed.

Lemma addresses_insert (E : gmap Z string) id a :
  (∀ i j x y, E !! i = Some x → E !! j = Some y → addressEqual x y = true → i = j) →
  (∀ i x, i ≠ id → E !! i = Some x → addressEqual x a = true → False) →
  ∀ i j x y, <[id := a]> E !! i = Some x → <[id := a]> E !! j = Some y → addressEqual x y = true → i = j.
Proof.
  intros HE Hf i j x y. rewrite !lookup_insert_Some. intros [[<- <-]|[Hi Hx]] [[<- <-]|[Hj Hy]] Heq; try done.
  - exfalso. eapply Hf; [|exact Hy|by apply addressEqual_sym]. done.
  - exfalso. eapply Hf; [|exact Hx|done]. done.
  - eauto.
Qed.

(** The members after adding one that was not there, or after a promotion. *)
Lemma wf_added ms ms' id a :
  members_wf foldRune ms → everyone ms' = <[id := a]> (everyone ms) → mb_Removed ms' = mb_Removed ms → mb_Removed ms !! id = None →
  (∀ i x, i ≠ id → everyone ms !! i = Some x → addressEqual x a = true → False) →
  mb_Addresses ms' ##ₘ mb_Observers ms' → mb_Addresses ms' ##ₘ mb_Witnesses ms' → mb_Observers ms' ##ₘ mb_Witnesses ms' →
  members_wf foldRune ms'.
Proof.
  intros [_ _ _ Hr Ha] He Hr' Hn Hf ???. split; [done..| |]; rewrite He.
  - rewrite Hr'. intros i Hi. apply lookup_insert_None. split; [by apply Hr|]. intros <-. rewrite Hn in Hi. by destruct Hi.
  - by apply addresses_insert.
Qed.

Lemma accepted_wf ms cc index t :
  members_wf foldRune ms → isType cc t = true → accepted ms cc → members_wf foldRune (changed ms cc index t).
Proof.
  intros Hwf Ht Hacc. pose proof Hwf as [H1 H2 H3 Hr Ha].
  destruct Hacc as [Ht' Hn Hm Hf|oa Ht' Ho Heq Hna Hnw Hm|Ht' Hn Hm Hf|Ht' Hn Hm Hf|Ht' _];
    rewrite (isType_inj _ _ _ Ht) in Ht'; apply bool_decide_eq_true in Ht' as ->;
    try apply everyone_None in Hn as (N1 & N2 & N3); rewrite /changed;
    try (apply (wf_added ms _ (cc_NodeID cc) (cc_Address cc)); [done| |done|done| | | |]; rewrite /everyone; proj_simpl;
         [|try by intros; eapply Hf|..]).
  - rewrite (delete_id (mb_Observers ms)) // !insert_union_l //.
  - apply map_disjoint_insert_l. rewrite lookup_delete_eq. split; [done|]. by apply map_disjoint_delete_r.
  - by apply map_disjoint_insert_l.
  - by apply map_disjoint_delete_l.
  - apply map_eq. intros i. destruct (decide (i = cc_NodeID cc)) as [->|Hne].
    + by rewrite !lookup_union !lookup_insert_eq lookup_delete_eq Hnw.
    + by rewrite !(lookup_union, lookup_insert_ne, lookup_delete_ne).
  - intros i x Hne Hx Hxa. apply Hne. eapply (Ha i _ x oa); [exact Hx| |].
    + rewrite /everyone !lookup_union Hna Ho Hnw. done.
    + eapply addressEqual_trans; [exact Hxa|]. by apply addressEqual_sym.
  - apply map_disjoint_insert_l. rewrite lookup_delete_eq. split; [done|]. by apply map_disjoint_delete_r.
  - by apply map_disjoint_insert_l.
  - by apply map_disjoint_delete_l.
  - rewrite -insert_union_r // !insert_union_l //.
  - by apply map_disjoint_insert_r.
  - done.
  - by apply map_disjoint_insert_l.
  - rewrite insert_union_r //. by apply lookup_union_None.
  - done.
  - by apply map_disjoint_insert_r.
  - by apply map_disjoint_insert_r.
  - split; proj_simpl.
    + by apply map_disjoint_delete_l, map_disjoint_delete_r.
    + by apply map_disjoint_delete_l, map_disjoint_delete_r.
    + by apply map_disjoint_delete_l, map_disjoint_delete_r.
    + intros i. rewrite /everyone. proj_simpl. rewrite -!delete_union lookup_insert_is_Some lookup_delete_None. naive_solver.
    + rewrite /everyone. proj_simpl. rewrite -!delete_union. intros i j a b [_ Hi]%lookup_delete_Some [_ Hj]%lookup_delete_Some. eauto.
Qed.

Lemma handle_changed m cc index :
  known cc → ∃ t, isType cc t = true ∧
    handleConfigChange foldRune m cc index =
      Some (if acceptable foldRune m cc then (m <| ms_members := changed (ms_members m) cc index t |>, true) else (m, false)).
Proof.
  intros Hk. pose proof Hk as [t Ht]. exists t. split; [by apply Z.eqb_eq|]. rewrite /handleConfigChange.
  destruct (acceptable foldRune m cc) eqn:Ha; [|done]. rewrite (accepted_applies _ _ _ t); [by apply Z.eqb_eq|by apply accept_spec|done].
Qed.

Lemma handle_wf m cc index : known cc → members_wf foldRune (ms_members m) →
  ∃ m' b, handleConfigChange foldRune m cc index = Some (m', b) ∧ members_wf foldRune (ms_members m') ∧
    dom (mb_Removed (ms_members m)) ⊆ dom (mb_Removed (ms_members m')) ∧
    (mb_Addresses (ms_members m) ≠ ∅ → mb_Addresses (ms_members m') ≠ ∅).
Proof.
  intros Hk Hwf. destruct (handle_changed m cc index Hk) as (t & Ht & ->). destruct (acceptable foldRune m cc) eqn:Ha; [|by exists m, false].
  apply accept_spec in Ha; [|done]. do 2 eexists. split_and!; [done|by apply accepted_wf| |]; rewrite /changed; proj_simpl.
  - destruct t; proj_simpl; set_solver.
  - intros Hne. destruct t; proj_simpl; try done; [apply insert_non_empty|].
    destruct Ha as [Ht'|oa Ht'|Ht'|Ht'|_ Hd]; try (by rewrite (isType_inj _ _ _ Ht) in Ht'). by apply Hd.
Qed.

Lemma changes_wf log : ∀ m, Forall (known ∘ fst) log → members_wf foldRune (ms_members m) →
  ∃ m', changes foldRune m log = Some m' ∧ members_wf foldRune (ms_members m') ∧
    dom (mb_Removed (ms_members m)) ⊆ dom (mb_Removed (ms_members m')) ∧
    (mb_Addresses (ms_members m) ≠ ∅ → mb_Addresses (ms_members m') ≠ ∅).
Proof.
  induction log as [|[cc index] log IH]; intros m Hk Hwf; cbn [changes]; [by exists m|].
  apply Forall_cons in Hk as [Hk Hks]. destruct (handle_wf m cc index Hk Hwf) as (m1 & b & -> & Hwf1 & Hr1 & Hn1).
  destruct (IH m1 Hks Hwf1) as (m2 & H2 & Hwf2 & Hr2 & Hn2). exists m2. split_and!; [done|done|set_solver|auto].
Qed.

Lemma changes_app log1 log2 m :
  changes foldRune m (log1 ++ log2) = m1 ← changes foldRune m log1; changes foldRune m1 log2.
Proof.
  revert m. induction log1 as [|[cc index] log1 IH]; intros m; cbn [changes app]; [done|].
  destruct (handleConfigChange foldRune m cc index) as [[m1 b]|]; [|done]. apply IH.
Qed.

Lemma newMembership_wf ordered : members_wf foldRune (ms_members (newMembership ordered)).
Proof. split; cbn; try apply map_disjoint_empty_l; try apply map_disjoint_empty_r; done. Qed.

Lemma voters_changed ms cc index t : isType cc t = true → accepted ms cc →
  voters ms ∖ {[cc_NodeID cc]} = voters (changed ms cc index t) ∖ {[cc_NodeID cc]}.
Proof.
  intros Ht Ha. rewrite /voters /changed. destruct t; proj_simpl; rewrite ?dom_insert_L ?dom_delete_L; set_solver.
Qed.
End invariant.

(** ** Agreement with the Raft core

    The core keeps the progress of every member it knows of; the replica's members
    are the ones it should know of. *)
Definition agree (ms : Membership) (r : raft) : Prop :=
  dom (r_remotes r) = dom (mb_Addresses ms) ∧ dom (r_observers r) = dom (mb_Observers ms) ∧
  dom (r_witnesses r) = dom (mb_Witnesses ms).

(** ** Decisions

    The members as one map from nodes to roles, and which changes of it are allowed. *)
Inductive role := RoleNode (addr : string) | RoleObserver (addr : string) | RoleWitness (addr : string) | RoleRemoved.

Definition roleOf (ms : Membership) (i : Z) : option role :=
  match mb_Addresses ms !! i, mb_Observers ms !! i, mb_Witnesses ms !! i, mb_Removed ms !! i with
  | Some a, _, _, _ => Some (RoleNode a)
  | None, Some a, _, _ => Some (RoleObserver a)
  | None, None, Some a, _ => Some (RoleWitness a)
  | None, None, None, Some _ => Some RoleRemoved
  | None, None, None, None => None
  end.
Definition newRole (t : ConfigChangeType) (addr : string) : role :=
  match t with AddNode => RoleNode addr | AddObserver => RoleObserver addr | AddWitness => RoleWitness addr | RemoveNode => RoleRemoved end.
Definition addressOf (r : role) : option string :=
  match r with RoleNode a | RoleObserver a | RoleWitness a => Some a | RoleRemoved => None end.

Section decisions.
Context (foldRune : Z → Z).

(** A node that never was a member may join in any role, at an address that no member has;
    an observer may become a node at its own address; and any node may be removed, except
    the last one that is a full member. *)
Definition allowed (ms : Membership) (id : Z) (addr : string) (t : ConfigChangeType) : Prop :=
  let free := ∀ i r a, roleOf ms i = Some r → addressOf r = Some a → addressEqual foldRune a addr = false in
  match t with
  | AddNode => (roleOf ms id = None ∧ free) ∨ (∃ a, roleOf ms id = Some (RoleObserver a) ∧ addressEqual foldRune a addr = true)
  | AddObserver | AddWitness => roleOf ms id = None ∧ free
  | RemoveNode => (∃ a, roleOf ms id = Some (RoleNode a)) → ∃ i a, i ≠ id ∧ roleOf ms i = Some (RoleNode a)
  end.

Lemma roleOf_None ms i : roleOf ms i = None ↔ everyone ms !! i = None ∧ mb_Removed ms !! i = None.
Proof. rewrite everyone_None /roleOf. repeat case_match; naive_solver. Qed.
Lemma roleOf_Node ms i a : roleOf ms i = Some (RoleNode a) ↔ mb_Addresses ms !! i = Some a.
Proof. rewrite /roleOf. repeat case_match; naive_solver. Qed.
Lemma roleOf_Observer ms i a : members_wf foldRune ms → roleOf ms i = Some (RoleObserver a) ↔ mb_Observers ms !! i = Some a.
Proof.
  intros Hwf. pose proof (mw_nodes_observers _ _ Hwf i) as Hd. rewrite /roleOf.
  destruct (mb_Addresses ms !! i), (mb_Observers ms !! i); cbn in Hd; [done|naive_solver|naive_solver|]. repeat case_match; naive_solver.
Qed.
Lemma roleOf_address ms i a : everyone ms !! i = Some a ↔ ∃ r, roleOf ms i = Some r ∧ addressOf r = Some a.
Proof.
  rewrite /everyone !lookup_union /roleOf. destruct (mb_Addresses ms !! i), (mb_Observers ms !! i), (mb_Witnesses ms !! i), (mb_Removed ms !! i);
    cbn; naive_solver.
Qed.
Lemma fresh_roles ms addr : fresh_address foldRune ms addr ↔
  ∀ i r a, roleOf ms i = Some r → addressOf r = Some a → addressEqual foldRune a addr = false.
Proof.
  rewrite /fresh_address. split.
  - intros Hf i r a Hr Ha. apply not_true_iff_false. intros He. refine (Hf i a _ He). apply roleOf_address. by exists r.
  - intros Hf i a (r & Hr & Ha)%roleOf_address. by rewrite (Hf i r a Hr Ha).
Qed.
Lemma fresh_clash ms a : fresh_address foldRune ms a → members_wf foldRune ms →
  addresses_clash foldRune (mb_Addresses ms) a || addresses_clash foldRune (mb_Observers ms) a || addresses_clash foldRune (mb_Witnesses ms) a = false.
Proof.
  intros Hf [H1 H2 H3 _ _]. rewrite !orb_false_iff. split_and!; apply not_true_iff_false; rewrite /addresses_clash existsb_exists;
    intros ([i b] & Hi%list_elem_of_In%elem_of_map_to_list & Hb); apply (Hf i b); try done; rewrite /everyone.
  - by apply lookup_union_Some_l, lookup_union_Some_l.
  - by apply lookup_union_Some_l, lookup_union_Some_r.
  - apply lookup_union_Some_r; [|done]. by apply map_disjoint_union_l.
Qed.

Lemma only_node ms id : (size (mb_Addresses ms) = 1%nat ∧ is_Some (mb_Addresses ms !! id)) ↔
  (∃ a, roleOf ms id = Some (RoleNode a)) ∧ ¬ ∃ i a, i ≠ id ∧ roleOf ms i = Some (RoleNode a).
Proof.
  setoid_rewrite roleOf_Node. split.
  - intros [Hs [a Ha]]. split; [by exists a|]. intros (i & b & Hne & Hi).
    assert (delete id (mb_Addresses ms) = ∅) as Hd.
    { apply map_size_empty_inv. rewrite map_size_delete_Some; [by exists a|]. by rewrite Hs. }
    assert (delete id (mb_Addresses ms) !! i = Some b) as Hi' by by rewrite lookup_delete_ne. by rewrite Hd in Hi'.
  - intros [[a Ha] Hn]. split; [|by exists a]. assert (mb_Addresses ms = {[id := a]}) as ->; [|by rewrite map_size_singleton].
    apply map_eq. intros i. destruct (decide (i = id)) as [->|Hne]; [by rewrite lookup_singleton_eq|]. rewrite lookup_singleton_ne //.
    destruct (mb_Addresses ms !! i) as [b|] eqn:E; [|done]. destruct Hn. by exists i, b.
Qed.

Lemma acceptable_allowed m cc t : isType cc t = true → members_wf foldRune (ms_members m) →
  acceptable foldRune m cc = true ↔ isUpToDate m cc = true ∧ allowed (ms_members m) (cc_NodeID cc) (cc_Address cc) t.
Proof.
  intros Ht Hwf. split.
  - intros Ha. assert (known cc) as Hk by (exists t; by apply Z.eqb_eq). split.
    { rewrite /acceptable !andb_true_iff in Ha. apply Ha. }
    destruct (accept_spec foldRune m cc Hk Ha) as [Ht' Hn Hr Hf|oa Ht' Ho He Hna Hnw Hr|Ht' Hn Hr Hf|Ht' Hn Hr Hf|Ht' Hd];
      rewrite (isType_inj _ _ _ Ht) in Ht'; apply bool_decide_eq_true in Ht' as ->; rewrite /allowed; cbn zeta.
    + left. rewrite roleOf_None -fresh_roles. done.
    + right. exists oa. by rewrite roleOf_Observer.
    + by rewrite roleOf_None -fresh_roles.
    + by rewrite roleOf_None -fresh_roles.
    + intros [a Hid%roleOf_Node]. assert (mb_Addresses (ms_members m) ≠ ∅) as Hne by (intros E; by rewrite E in Hid).
      apply map_choose in Hd as (i & b & [Hi Hb]%lookup_delete_Some); [|done]. exists i, b. split; [done|by apply roleOf_Node].
  - intros [Hu Hal]. rewrite /acceptable Hu /isAddRemovedNode /isAddExistingMember /isAddNodeAsObserver /isAddNodeAsWitness /isAddWitnessAsNode
      /isAddWitnessAsObserver /isAddObserverAsWitness /isDeleteOnlyNode /isInvalidObserverPromotion /isPromoteObserver /isAdd !(isType_inj _ _ _ Ht).
    destruct t; cbn [allowed] in Hal; cbv zeta in Hal; cbn -[addressEqual has addresses_clash].
    + destruct Hal as [[[Hn Hr]%roleOf_None Hf%fresh_roles]|(a & Ho%roleOf_Observer & He)]; [| |done].
      * pose proof (fresh_clash _ _ Hf Hwf) as Hc. apply everyone_None in Hn as (N1 & N2 & N3).
        rewrite !(proj2 (has_false _ _)) // N2. cbn. by rewrite Hc.
      * assert (everyone (ms_members m) !! cc_NodeID cc = Some a) as Hev by (apply roleOf_address; exists (RoleObserver a); by rewrite roleOf_Observer).
        assert (mb_Addresses (ms_members m) !! cc_NodeID cc = None) as N1.
        { apply (map_disjoint_Some_r _ _ _ _ (mw_nodes_observers _ _ Hwf) Ho). }
        assert (mb_Witnesses (ms_members m) !! cc_NodeID cc = None) as N3.
        { apply (map_disjoint_Some_l _ _ _ _ (mw_observers_witnesses _ _ Hwf) Ho). }
        assert (mb_Removed (ms_members m) !! cc_NodeID cc = None) as N4.
        { apply eq_None_not_Some. intros Hr%(mw_removed _ _ Hwf). by rewrite Hr in Hev. }
        by rewrite (proj2 (has_false _ _) N1) (proj2 (has_false _ _) N3) (proj2 (has_false _ _) N4) Ho He.
    + destruct (has (cc_NodeID cc) (mb_Addresses (ms_members m))) eqn:E2, (bool_decide (size (mb_Addresses (ms_members m)) = 1%nat)) eqn:E1; try done.
      apply bool_decide_eq_true in E1. apply has_true in E2. destruct (proj1 (only_node _ _) (conj E1 E2)) as [Hid Hno]. by destruct (Hno (Hal Hid)).
    + destruct Hal as [[Hn Hr]%roleOf_None Hf%fresh_roles]. pose proof (fresh_clash _ _ Hf Hwf) as Hc. apply everyone_None in Hn as (N1 & N2 & N3).
      rewrite !(proj2 (has_false _ _)) //. cbn. by rewrite Hc.
    + destruct Hal as [[Hn Hr]%roleOf_None Hf%fresh_roles]. pose proof (fresh_clash _ _ Hf Hwf) as Hc. apply everyone_None in Hn as (N1 & N2 & N3).
      rewrite !(proj2 (has_false _ _)) //. cbn. by rewrite Hc.
Qed.

(** The roles after an accepted change. *)
Lemma changed_roles ms cc index t i : members_wf foldRune ms → isType cc t = true → accepted foldRune ms cc →
  roleOf (changed ms cc index t) i = if decide (i = cc_NodeID cc) then Some (newRole t (cc_Address cc)) else roleOf ms i.
Proof.
  intros Hwf Ht Ha. rewrite /roleOf /changed. case_decide as Hi; [subst i|destruct t; proj_simpl; by rewrite ?lookup_insert_ne ?lookup_delete_ne].
  destruct Ha as [Ht' Hn Hr Hf|oa Ht' Ho He Hna Hnw Hr|Ht' Hn Hr Hf|Ht' Hn Hr Hf|Ht' Hd];
    rewrite (isType_inj _ _ _ Ht) in Ht'; apply bool_decide_eq_true in Ht' as ->; proj_simpl;
    try apply everyone_None in Hn as (N1 & N2 & N3); rewrite ?lookup_insert_eq ?lookup_delete_eq ?N1 ?N2 ?N3 //.
Qed.
End decisions.

Section agreement.
Context `{RaftEnv} (foldRune : Z → Z).
Implicit Types (ms : Membership) (r : raft).

Lemma agree_quiet ms r r' : quiet r r' → agree ms r → agree ms r'.
Proof. intros [] (? & ? & ?). split_and!; congruence. Qed.

Lemma agree_follower ms r t l r' : becomeFollower r t l = Some r' → agree ms r → agree ms r'.
Proof.
  rewrite /becomeFollower /toFollowerState. destruct (isWitness r); [done|]. intros (r1 & []%reset_spec & [= <-])%bind_Some.
  proj_simpl_in rs_remotes. proj_simpl_in rs_observers. proj_simpl_in rs_witnesses.
  intros (? & ? & ?). eapply agree_quiet; [apply quiet_leader|]. split_and!; congruence.
Qed.

Lemma agree_add_node ms cc index r r' :
  accepted foldRune ms cc → isType cc AddNode = true → agree ms r → addNode r (cc_NodeID cc) = Some r' →
  agree (changed ms cc index AddNode) r'.
Proof.
  intros Ha Ht Hag. rewrite /addNode. set (r1 := clearPendingConfigChange r). assert (agree ms r1) as (Hr & Ho & Hw) by done. clearbody r1.
  assert (r_remotes r1 !! cc_NodeID cc = None) as ->.
  { apply not_elem_of_dom. rewrite Hr not_elem_of_dom.
    destruct Ha as [_ Hn|oa|Ht' Hn|Ht' Hn|Ht']; [by apply everyone_None in Hn as (? & ? & ?)|done|
      by rewrite (isType_inj _ _ _ Ht) in Ht'..]. }
  intros Hs. destruct (_ && isWitness r1); [done|]. destruct (r_observers r1 !! cc_NodeID cc) as [rp|] eqn:Eo.
  - set (r2 := upd r_remotes _ _) in Hs. assert (agree (changed ms cc index AddNode) r2) as Hag2.
    { rewrite /changed /r2. split_and!; proj_simpl; [rewrite !dom_insert_L; set_solver|rewrite !dom_delete_L; set_solver|done]. }
    clearbody r2. destruct (_ =? _); [by eapply agree_follower|by injection Hs as <-].
  - destruct (r_witnesses r1 !! cc_NodeID cc) as [rp|]; [done|]. injection Hs as <-.
    apply not_elem_of_dom in Eo. rewrite /changed /setMember /put_remote /set_members.
    split_and!; proj_simpl; [rewrite !dom_insert_L; set_solver|rewrite dom_delete_L; set_solver|done].
Qed.

Lemma agree_remove_node ms cc index r r' :
  agree ms r → removeNode r (cc_NodeID cc) = Some r' → agree (changed ms cc index RemoveNode) r'.
Proof.
  intros (Hr & Ho & Hw). rewrite /removeNode. set (r1 := clearPendingConfigChange _). intros Hs.
  assert (agree (changed ms cc index RemoveNode) r1) as Hag.
  { rewrite /changed /r1 /clearPendingConfigChange. split_and!; proj_simpl; rewrite !dom_delete_L; set_solver. }
  clearbody r1. apply bind_Some in Hs as (r2 & H2 & Hs). cbv beta in Hs.
  assert (agree (changed ms cc index RemoveNode) r2) as Hag2.
  { destruct (_ && isLeader r1); [by eapply agree_follower|by injection H2 as <-]. }
  set (r3 := if _ && _ then abortLeaderTransfer r2 else r2) in Hs.
  assert (agree (changed ms cc index RemoveNode) r3) as Hag3 by (by rewrite /r3; destruct (leaderTransfering r2 && _)). clearbody r3.
  eapply agree_quiet; [|exact Hag3]. steps Hs; quiet_back.
Qed.

Lemma agree_add_observer ms cc index r r' :
  agree ms r → addObserver r (cc_NodeID cc) = Some r' → agree (changed ms cc index AddObserver) r'.
Proof.
  intros (Hr & Ho & Hw). rewrite /addObserver. intros Hs. steps Hs; rewrite /changed /setMember /put_remote /set_members;
    (split_and!; proj_simpl; [done| |done]; rewrite ?dom_insert_L); try apply elem_of_dom_2 in E0; set_solver.
Qed.

Lemma agree_add_witness ms cc index r r' :
  agree ms r → addWitness r (cc_NodeID cc) = Some r' → agree (changed ms cc index AddWitness) r'.
Proof.
  intros (Hr & Ho & Hw). rewrite /addWitness. intros Hs. steps Hs; rewrite /changed /setMember /put_remote /set_members;
    (split_and!; proj_simpl; [done|done|]; rewrite ?dom_insert_L); try apply elem_of_dom_2 in E0; set_solver.
Qed.

Lemma agree_change ms cc index t r m r' :
  isType cc t = true → accepted foldRune ms cc → agree ms r → m_Reject m = false → m_Hint m = cc_NodeID cc →
  configChangeType (m_HintHigh m) = Some t → handleNodeConfigChange r m = Some r' → agree (changed ms cc index t) r'.
Proof.
  intros Ht Ha Hag Hrej Hid Hty. rewrite /handleNodeConfigChange Hrej Hty Hid. cbn [mbind option_bind].
  destruct t; eauto using agree_add_node, agree_remove_node, agree_add_observer, agree_add_witness.
Qed.

Lemma configChangeType_number t : configChangeType (u64 (ccTypeNumber t)) = Some t.
Proof. by destruct t. Qed.

Lemma config_event r m : m_Type m = ConfigChangeEvent → m_Term m = 0 → Raft.Handle r m = handleNodeConfigChange r m.
Proof. intros Ht H0. rewrite handle_local // /defaultHandle Ht. by destruct (r_state r). Qed.

Lemma restore_event r m : m_Type m = SnapshotReceived → m_Term m = 0 → Raft.Handle r m = restoreRemotes r (m_Snapshot m).
Proof. intros Ht H0. rewrite handle_local // /defaultHandle Ht. by destruct (r_state r). Qed.

(** A snapshot's members replace the ones the core had. *)
Lemma restore_each_members ids : ∀ r r',
  each (λ r id,
        r ← (if (id =? r_nodeID r) && isObserver r then becomeFollower r (r_term r) (r_leaderID r) else Some r);
        if bool_decide (is_Some (r_witnesses r !! id)) then None else Some (restoreMember KRemote r id)) r ids = Some r' →
  dom (r_remotes r') = dom (r_remotes r) ∪ list_to_set ids.
Proof.
  induction ids as [|id ids IH]; intros r r'; cbn [each]; [intros [= <-]; set_solver|].
  intros (r1 & (r2 & H2 & H3)%bind_Some & ->%IH)%bind_Some. assert (dom (r_remotes r2) = dom (r_remotes r)) as E2.
  { destruct (_ && isObserver r); [|by injection H2 as <-]. move: H2. rewrite /becomeFollower /toFollowerState.
    destruct (isWitness r); [done|]. intros (r3 & []%reset_spec & [= <-])%bind_Some. proj_simpl_in rs_remotes.
    by rewrite (q_remotes _ _ (quiet_leader _ _)). }
  case_bool_decide; [done|]. injection H3 as <-. rewrite /restoreMember /setMember /put_remote /set_members. proj_simpl.
  rewrite dom_insert_L E2. set_solver.
Qed.

Lemma agree_restore r ss r' : restoreRemotes r ss = Some r' → agree (ss_Membership ss) r'.
Proof.
  rewrite /restoreRemotes. cbn [rangeKeys]. intros Hs. apply bind_Some in Hs as (r1 & H1%restore_each_members & Hs). cbv beta in Hs.
  proj_simpl_in H1. rewrite (keys_dom (mb_Addresses (ss_Membership ss))) in H1; [apply range_perm|].
  apply bind_Some in Hs as (r2 & H2 & Hs). assert (dom (r_remotes r2) = dom (mb_Addresses (ss_Membership ss))) as E2.
  { destruct (_ && isLeader r1); [|injection H2 as <-; set_solver]. move: H2. rewrite /becomeFollower /toFollowerState.
    destruct (isWitness r1); [done|]. intros (r3 & []%reset_spec & [= <-])%bind_Some. proj_simpl_in rs_remotes.
    rewrite (q_remotes _ _ (quiet_leader _ _)). set_solver. }
  injection Hs as <-.
  destruct (restore_fold KObserver (keys (mb_Observers (ss_Membership ss))) (r2 <| r_observers := ∅ |>)) as (os & -> & Ho).
  destruct (restore_fold KWitness (keys (mb_Witnesses (ss_Membership ss))) ((set_members (r2 <| r_observers := ∅ |>) KObserver os) <| r_witnesses := ∅ |>))
    as (ws & -> & Hw). cbn [members set_members] in Ho, Hw. proj_simpl_in Ho. proj_simpl_in Hw.
  rewrite (keys_dom _ _ (reflexivity _)) in Ho. rewrite (keys_dom _ _ (reflexivity _)) in Hw.
  split_and!; cbn [set_members]; proj_simpl; set_solver.
Qed.

Lemma agree_voters ms r : members_wf foldRune ms → agree ms r → numVotingMembers r = Z.of_nat (size (voters ms)).
Proof.
  intros [_ Hd _ _ _] (Hr & _ & Hw). rewrite /numVotingMembers /voters size_union.
  - by apply map_disjoint_dom.
  - by rewrite -Hr -Hw !size_dom.
Qed.

(** C14: the Raft core follows the replica's members.  When they agree, and the
    replica decides on a configuration change and tells the node, they agree again,
    and the core's quorum is a majority of the replica's voters; when the node
    restores a snapshot, the core has exactly the snapshot's members. *)
Theorem raft_members_agree m n cc index m' accepted isWitness n' :
  known cc → cc_NodeID cc ≠ NoLeader → members_wf foldRune (ms_members m) → agree (ms_members m) (nd_raft n) →
  handleConfigChange foldRune m cc index = Some (m', accepted) →
  ApplyConfigChangeNode n isWitness cc (negb accepted) = Some n' →
  agree (ms_members m') (nd_raft n') ∧ quorum (nd_raft n') = Z.of_nat (size (voters (ms_members m'))) / 2 + 1 ∧
  ∀ ss n'', RestoreRemotesNode n' ss = Some n'' → agree (ss_Membership ss) (nd_raft n'').
Proof.
  intros Hk Hid Hwf Hag Hh Ha. destruct (handle_wf foldRune m cc index Hk Hwf) as (m1 & b & E & Hwf' & _).
  rewrite Hh in E. injection E as <- <-.
  assert (agree (ms_members m') (nd_raft n')) as Hag'.
  { destruct (handle_changed foldRune m cc index Hk) as (t & Ht & Eh). rewrite Hh in Eh. injection Eh as Eh. move: Ha.
    rewrite /ApplyConfigChangeNode. destruct (acceptable foldRune m cc) eqn:Eacc; injection Eh as -> ->; cbn [negb].
    - rewrite andb_false_r. intros (n1 & (p & Hp & [= <-])%bind_Some & [= <-])%bind_Some. move: Hp. rewrite /ApplyConfigChange.
      destruct (Z.eqb_spec (cc_NodeID cc) NoLeader); [done|]. intros [Hp _]%handle_peer. rewrite config_event // in Hp.
      rewrite /nd_raft. proj_simpl. refine (agree_change _ _ _ _ _ _ _ Ht _ Hag _ _ _ Hp); [by apply accept_spec|done|done|].
      proj_simpl. apply Z.eqb_eq in Ht as ->. apply configChangeType_number.
    - intros (n1 & [= <-] & Hn)%bind_Some. destruct isWitness; cbn [negb andb] in Hn; [by injection Hn as <-|].
      apply bind_Some in Hn as (p & [Hp _]%handle_peer & [= <-]). rewrite config_event // /handleNodeConfigChange in Hp. proj_simpl_in Hp.
      injection Hp as Hp. rewrite /nd_raft. proj_simpl. by rewrite -Hp. }
  split_and!; [done|by rewrite /quorum (agree_voters _ _ Hwf' Hag')|].
  intros ss n''. rewrite /RestoreRemotesNode. destruct (_ =? 0); [done|]. intros (p & [Hp _]%handle_peer & [= <-])%bind_Some.
  rewrite restore_event // in Hp. by apply agree_restore in Hp.
Qed.
End agreement.

(** C12: the members of a replica.  Whatever configuration changes its log has, the
    replica applies them without a panic; a node has one role, no two members share
    an address, a node that was removed is never a member again, and the last
    replica is never removed. *)
Theorem members_invariant foldRune ordered log1 log2 :
  Forall (known ∘ fst) (log1 ++ log2) →
  ∃ m1 m2, changes foldRune (newMembership ordered) log1 = Some m1 ∧
    changes foldRune (newMembership ordered) (log1 ++ log2) = Some m2 ∧ members_wf foldRune (ms_members m2) ∧
    (∀ i, is_Some (mb_Removed (ms_members m1) !! i) → everyone (ms_members m2) !! i = None) ∧
    (mb_Addresses (ms_members m1) ≠ ∅ → mb_Addresses (ms_members m2) ≠ ∅).
Proof.
  intros [Hk1 Hk2]%Forall_app. destruct (changes_wf foldRune log1 _ Hk1 (newMembership_wf _ ordered)) as (m1 & H1 & Hwf1 & _).
  destruct (changes_wf foldRune log2 m1 Hk2 Hwf1) as (m2 & H2 & Hwf2 & Hr & Hn). exists m1, m2.
  split_and!; [done|by rewrite changes_app H1|done| |done].
  intros i Hi%elem_of_dom. apply (mw_removed _ _ Hwf2). apply elem_of_dom. set_solver.
Qed.

(** C13: configuration changes are decided by the roles of the nodes.  On well-formed members,
    a change is handled without a panic, and it is accepted exactly when it is in order (where
    order is asked for, it names the change before it) and allowed: a new node joins at an address
    that no member has, an observer becomes a full member at its own address, or a node other
    than the last full member leaves.  An accepted change gives that node its new role and no
    other node another one, and is recorded as the last change; a rejected one changes nothing.
    Either way, a majority of the voters before it and one of those after it have a node in
    common. *)
Theorem changes_decided foldRune m cc index t :
  cc_Type cc = ccTypeNumber t → members_wf foldRune (ms_members m) →
  ∃ m' ok, handleConfigChange foldRune m cc index = Some (m', ok) ∧
    (ok = true ↔ (ms_ordered m = false ∨ cc_Initialize cc = true ∨ mb_ConfigChangeId (ms_members m) = cc_ConfigChangeId cc) ∧
                 allowed foldRune (ms_members m) (cc_NodeID cc) (cc_Address cc) t) ∧
    (if ok then ms_ordered m' = ms_ordered m ∧ mb_ConfigChangeId (ms_members m') = index ∧
       ∀ i, roleOf (ms_members m') i = if decide (i = cc_NodeID cc) then Some (newRole t (cc_Address cc)) else roleOf (ms_members m) i
     else m' = m) ∧
    ∀ Q Q', majority_of Q (voters (ms_members m)) → majority_of Q' (voters (ms_members m')) → Q ∩ Q' ≠ ∅.
Proof.
  intros Hc Hwf. assert (known cc) as Hk by by exists t. assert (isType cc t = true) as Ht by by apply Z.eqb_eq.
  destruct (handle_changed foldRune m cc index Hk) as (t' & Ht' & ->). rewrite (isType_inj _ _ _ Ht) in Ht'. apply bool_decide_eq_true in Ht' as <-.
  pose proof (acceptable_allowed foldRune m cc t Ht Hwf) as Hiff. rewrite /isUpToDate !orb_true_iff negb_true_iff Z.eqb_eq in Hiff.
  destruct (acceptable foldRune m cc) eqn:Ha; do 2 eexists; (split; [done|]); (split; [rewrite Hiff; tauto|]).
  - apply accept_spec in Ha; [|done]. split; [split_and!; [done|by destruct t|]|].
    + intros i. proj_simpl. by apply (changed_roles foldRune).
    + intros Q Q'. apply majorities_near with (cc_NodeID cc). proj_simpl. by apply (voters_changed foldRune).
  - split; [done|]. intros Q Q'. by apply majorities_near with (cc_NodeID cc).
Qed.

(** ** A group of two that grows *)
Definition demo_fold (r : Z) : Z := if (65 <=? r) && (r <=? 90) then r + 32 else r.
Definition demo_add (id : Z) (addr : string) : ConfigChange :=
  {| cc_ConfigChangeId := 0; cc_Type := ccTypeNumber AddNode; cc_NodeID := id; cc_Address := addr; cc_Initialize := true |}.
Definition demo_remove (id : Z) : ConfigChange :=
  {| cc_ConfigChangeId := 0; cc_Type := ccTypeNumber RemoveNode; cc_NodeID := id; cc_Address := ""; cc_Initialize := true |}.
Definition demo_changes : list (ConfigChange * Z) := [(demo_add 1 "a:1", 1); (demo_add 2 "b:1", 2); (demo_add 3 " A:1", 3); (demo_remove 2, 4)].
Definition demo_group : membership := default (newMembership false) (changes demo_fold (newMembership false) demo_changes).

Lemma members_invariant_witness :
  ∃ m1 m2, changes demo_fold (newMembership false) demo_changes = Some m1 ∧
    changes demo_fold (newMembership false) (demo_changes ++ [(demo_add 2 "b:1", 5)]) = Some m2 ∧
    everyone (ms_members m2) !! 2 = None ∧ mb_Addresses (ms_members m2) ≠ ∅.
Proof.
  destruct (members_invariant demo_fold false demo_changes [(demo_add 2 "b:1", 5)]) as (m1 & m2 & H1 & H2 & _ & Hr & Hn).
  { repeat constructor; first [by exists AddNode|by exists RemoveNode]. }
  exists m1, m2. assert (m1 = demo_group) as -> by (apply (inj Some); rewrite -H1; by vm_compute).
  split_and!; [done|done|apply Hr; by vm_compute; eexists|apply Hn; by vm_compute].
Defined.

Definition demo_grown : membership :=
  default demo_group (fst <$> handleConfigChange demo_fold demo_group (demo_add 4 "d:1") 5).
Lemma demo_grows : handleConfigChange demo_fold demo_group (demo_add 4 "d:1") 5 = Some (demo_grown, true).
Proof. by vm_compute. Qed.

Lemma changes_decided_witness :
  roleOf (ms_members demo_grown) 4 = Some (RoleNode "d:1") ∧ ({[1]} : gset Z) ∩ {[1; 4]} ≠ ∅.
Proof.
  destruct (changes_decided demo_fold demo_group (demo_add 4 "d:1") 5 AddNode) as (m' & ok & E & _ & Hok & Hq); [done| |].
  { destruct (changes_wf demo_fold demo_changes (newMembership false)) as (m & Em & Hm & _);
      [repeat constructor; first [by exists AddNode|by exists RemoveNode]|apply newMembership_wf|].
    rewrite /demo_group Em. exact Hm. }
  rewrite demo_grows in E. injection E as <- <-. split; [by destruct Hok as (_ & _ & ->)|].
  apply Hq; (split; [|apply Nat.ltb_lt; by vm_compute]); apply (bool_decide_unpack _); by vm_compute.
Defined.

(** Node 1 of the cluster of three, and its replica, learn of a fourth node. *)
Definition demo_three : membership :=
  default (newMembership false)
    (changes demo_fold (newMembership false) [(demo_add 1 "a:1", 1); (demo_add 2 "b:1", 2); (demo_add 3 "c:1", 3)]).
Definition demo_four : membership := default demo_three (fst <$> handleConfigChange demo_fold demo_three (demo_add 4 "d:1") 5).

Definition agrees (ms : Membership) (n : Node) : bool :=
  bool_decide (dom (r_remotes (nd_raft n)) = dom (mb_Addresses ms)) && bool_decide (dom (r_observers (nd_raft n)) = dom (mb_Observers ms)) &&
  bool_decide (dom (r_witnesses (nd_raft n)) = dom (mb_Witnesses ms)).
Lemma agrees_spec ms n : agrees ms n = true → agree ms (nd_raft n).
Proof. rewrite /agrees !andb_true_iff !bool_decide_eq_true. intros [[? ?] ?]. done. Qed.

Lemma demo_three_wf : members_wf demo_fold (ms_members demo_three).
Proof.
  destruct (changes_wf demo_fold [(demo_add 1 "a:1", 1); (demo_add 2 "b:1", 2); (demo_add 3 "c:1", 3)] _
    ltac:(repeat constructor; by exists AddNode) (newMembership_wf demo_fold false)) as (m & Hm & Hwf & _).
  by assert (m = demo_three) as <- by (rewrite /demo_three Hm; done).
Qed.

Lemma raft_members_agree_witness :
  ∃ n n', demo_node 1 = Some n ∧ @ApplyConfigChangeNode demo_env n false (demo_add 4 "d:1") false = Some n' ∧
    agree (ms_members demo_four) (nd_raft n').
Proof.
  destruct (holds_at_spec (λ n, agrees (ms_members demo_three) n &&
    succeeds (@ApplyConfigChangeNode demo_env n false (demo_add 4 "d:1") false)) (demo_node 1)) as (n & Hn & [Hag Hs]%andb_true_iff);
    [by vm_compute|]. apply (succeeds_default _ n) in Hs. exists n. eexists. split_and!; [exact Hn|exact Hs|].
  refine (proj1 (raft_members_agree (H := demo_env) demo_fold demo_three n (demo_add 4 "d:1") 5 demo_four true false _ _ _ _ _ _ Hs));
    [by exists AddNode|done|exact demo_three_wf|by apply agrees_spec|by vm_compute].
Defined.
