(* ===== verification/GoJson.v ===== *)
(** * JSON and base64: the parts of [encoding/json] and [encoding/base64] the
    sources use

    A document is a tree of objects, strings, unsigned numbers and nulls, which is
    what [json.Marshal] writes for the sessions of a replica.  The reader takes white
    space anywhere a document may have it; strings with escapes and numbers with a
    sign, fraction or exponent, which never occur in such documents, are not read. *)
From S2P Require Import Prelude GoStrings Wire.
From Stdlib Require Import Ascii.

Local Open Scope Z_scope.

Abbreviation bytes := (list ascii).

(** ** Decimal numbers *)
Definition isDigit (c : ascii) : bool := (48 <=? byte_val c) && (byte_val c <=? 57).

Fixpoint digits (fuel : nat) (n : Z) : bytes :=
  match fuel with
  | O => []
  | S f => if n <? 10 then [byte (48 + n)] else digits f (n / 10) ++ [byte (48 + n mod 10)]
  end.

(** [strconv.FormatUint]: a 64-bit number has at most twenty digits. *)
Definition decimal (n : Z) : bytes := digits 20 n.

Fixpoint readDigits (acc : Z) (l : bytes) : Z * bytes :=
  match l with
  | c :: l' => if isDigit c then readDigits (acc * 10 + (byte_val c - 48)) l' else (acc, l)
  | [] => (acc, [])
  end.

(** [strconv.ParseUint] of a whole string, base 10, 64 bits. *)
Definition ParseUint (l : bytes) : option Z :=
  match l with
  | [] => None
  | _ => let '(n, rest) := readDigits 0 l in if bool_decide (rest = []) && (n <? 2 ^ 64) then Some n else None
  end.

(** ** Base64, standard encoding with padding *)
Definition b64char (i : Z) : ascii :=
  if i <? 26 then byte (65 + i) else if i <? 52 then byte (97 + (i - 26)) else if i <? 62 then byte (48 + (i - 52))
  else if i =? 62 then byte 43 else byte 47.
Definition b64index (c : ascii) : option Z :=
  let b := byte_val c in
  if (65 <=? b) && (b <=? 90) then Some (b - 65) else if (97 <=? b) && (b <=? 122) then Some (b - 71)
  else if (48 <=? b) && (b <=? 57) then Some (b + 4) else if b =? 43 then Some 62 else if b =? 47 then Some 63 else None.
Definition pad : ascii := byte 61.

Fixpoint EncodeBase64 (l : bytes) : bytes :=
  match l with
  | a :: b :: c :: l' =>
      let '(x, y, z) := (byte_val a, byte_val b, byte_val c) in
      b64char (x / 4) :: b64char (x mod 4 * 16 + y / 16) :: b64char (y mod 16 * 4 + z / 64) :: b64char (z mod 64) :: EncodeBase64 l'
  | [a; b] =>
      let '(x, y) := (byte_val a, byte_val b) in
      [b64char (x / 4); b64char (x mod 4 * 16 + y / 16); b64char (y mod 16 * 4); pad]
  | [a] => let x := byte_val a in [b64char (x / 4); b64char (x mod 4 * 16); pad; pad]
  | [] => []
  end.

Fixpoint DecodeBase64 (l : bytes) : option bytes :=
  match l with
  | [] => Some []
  | p :: q :: r :: s :: l' =>
      i ← b64index p; j ← b64index q;
      let a := byte (i * 4 + j / 16) in
      if bool_decide (s = pad ∧ l' = []) then
        if bool_decide (r = pad) then Some [a]
        else k ← b64index r; Some [a; byte (j mod 16 * 16 + k / 4)]
      else
        k ← b64index r; m ← b64index s; rest ← DecodeBase64 l';
        Some (a :: byte (j mod 16 * 16 + k / 4) :: byte (k mod 4 * 64 + m) :: rest)
  | _ => None
  end.

(** ** Documents *)
Inductive json := JNull | JNum (n : Z) | JStr (s : bytes) | JObj (fields : list (bytes * json)).

Definition lit (s : string) : bytes := bytes_of s.
Definition dquote : ascii := byte 34.
Definition quoted (s : bytes) : bytes := [dquote] ++ s ++ [dquote].

Definition comma_separated (ls : list bytes) : bytes :=
  match ls with [] => [] | l :: ls => l ++ concat ((λ l, [","%char] ++ l) <$> ls) end.

Fixpoint print (j : json) : bytes :=
  match j with
  | JNull => lit "null"
  | JNum n => decimal n
  | JStr s => quoted s
  | JObj fs => ["{"%char] ++ comma_separated (map (λ p, quoted p.1 ++ [":"%char] ++ print p.2) fs) ++ ["}"%char]
  end.

Definition isWhite (c : ascii) : bool :=
  (byte_val c =? 32) || (byte_val c =? 9) || (byte_val c =? 10) || (byte_val c =? 13).
Fixpoint skipWhite (l : bytes) : bytes :=
  match l with c :: l' => if isWhite c then skipWhite l' else l | [] => [] end.

(** A byte a string literal has as it is. *)
Definition plainChar (c : ascii) : bool :=
  (32 <=? byte_val c) && negb (byte_val c =? 34) && negb (byte_val c =? 92).
Fixpoint readString (l : bytes) : option (bytes * bytes) :=
  match l with
  | c :: l' =>
      if Ascii.eqb c dquote then Some ([], l')
      else if plainChar c then '(s, rest) ← readString l'; Some (c :: s, rest) else None
  | [] => None
  end.
Definition readQuoted (l : bytes) : option (bytes * bytes) :=
  match l with c :: l' => if Ascii.eqb c dquote then readString l' else None | [] => None end.

(** The next byte is [c]. *)
Definition expect (c : ascii) (l : bytes) : option bytes :=
  match l with x :: l' => if Ascii.eqb x c then Some l' else None | [] => None end.

Fixpoint readMembers (value : bytes → option (json * bytes)) (fuel : nat) (l : bytes) : option (list (bytes * json) * bytes) :=
  match fuel with
  | O => None
  | S f =>
      '(k, l) ← readQuoted (skipWhite l);
      l ← expect ":" (skipWhite l);
      '(v, l) ← value l;
      match expect "," (skipWhite l) with
      | Some l => '(ms, l) ← readMembers value f l; Some ((k, v) :: ms, l)
      | None => l ← expect "}" (skipWhite l); Some ([(k, v)], l)
      end
  end.

Definition dropPrefix (p l : bytes) : option bytes := if bool_decide (take (length p) l = p) then Some (drop (length p) l) else None.

(** [depth] bounds the nesting of objects. *)
Fixpoint readValue (depth : nat) (l : bytes) : option (json * bytes) :=
  match depth with
  | O => None
  | S d =>
      match skipWhite l with
      | [] => None
      | (c :: l') as l =>
          if Ascii.eqb c dquote then '(s, rest) ← readString l'; Some (JStr s, rest)
          else if Ascii.eqb c "{" then
            match expect "}" (skipWhite l') with
            | Some rest => Some (JObj [], rest)
            | None => '(ms, rest) ← readMembers (readValue d) (length l') l'; Some (JObj ms, rest)
            end
          else if Ascii.eqb c "n" then rest ← dropPrefix (lit "null") l; Some (JNull, rest)
          else if isDigit c then
            let '(n, rest) := readDigits 0 l in
            if Ascii.eqb c "0" && negb (bool_decide (rest = l')) then None else Some (JNum n, rest)
          else None
      end
  end.

Definition parse (l : bytes) : option json :=
  '(j, rest) ← readValue (S (length l)) l; if bool_decide (skipWhite rest = []) then Some j else None.

Section numbers.
Lemma isDigit_byte d : 0 ≤ d < 10 → isDigit (byte (48 + d)) = true.
Proof. intros Hd. rewrite /isDigit byte_val_byte; lia. Qed.

Lemma digits_not_nil f n : digits (S f) n ≠ [].
Proof. cbn [digits]. destruct (n <? 10); [done|]. by destruct (digits f (n / 10)). Qed.

Lemma readDigits_app acc l1 l2 :
  Forall (λ c, isDigit c = true) l1 → readDigits acc (l1 ++ l2) = readDigits (readDigits acc l1).1 l2.
Proof.
  intros Hl. revert acc. induction Hl as [|c l1 Hc Hl IH]; intros acc; [done|]. cbn [readDigits app]. rewrite Hc. apply IH.
Qed.

Lemma digits_digits f n : 0 ≤ n → Forall (λ c, isDigit c = true) (digits f n).
Proof.
  revert n. induction f as [|f IH]; intros n Hn; cbn [digits]; [by constructor|]. destruct (Z.ltb_spec n 10).
  - apply Forall_singleton, isDigit_byte. lia.
  - apply Forall_app. split; [apply IH; by apply Z.div_pos|]. apply Forall_singleton, isDigit_byte. by apply Z.mod_pos_bound.
Qed.

Lemma readDigits_digits f n : 0 ≤ n < 10 ^ Z.of_nat f → (readDigits 0 (digits f n)).1 = n.
Proof.
  revert n. induction f as [|f IH]; intros n Hn; cbn [digits]; [cbn in *; lia|].
  destruct (Z.ltb_spec n 10).
  - cbn [readDigits]. rewrite isDigit_byte; [lia|]. rewrite byte_val_byte; cbn; lia.
  - rewrite Nat2Z.inj_succ Z.pow_succ_r in Hn; [lia|].
    rewrite readDigits_app; [apply digits_digits, Z.div_pos; lia|].
    rewrite IH; [split; [apply Z.div_pos; lia|apply Z.div_lt_upper_bound; lia]|].
    pose proof (Z.mod_pos_bound n 10 ltac:(lia)). cbn [readDigits].
    rewrite isDigit_byte; [done|]. rewrite byte_val_byte; [lia|]. cbn [fst]. rewrite {3}(Z.div_mod n 10); lia.
Qed.

(** What follows a number does not continue it. *)
Definition ends (rest : bytes) : Prop := match rest with c :: _ => isDigit c = false | [] => True end.

Lemma readDigits_decimal n rest : in_u64 n → ends rest → readDigits 0 (decimal n ++ rest) = (n, rest).
Proof.
  intros Hn He. rewrite readDigits_app; [apply digits_digits; zlia|]. rewrite readDigits_digits.
  - change (10 ^ Z.of_nat 20) with 100000000000000000000. zlia.
  - destruct rest as [|c rest]; [done|]. cbn in He |- *. by rewrite He.
Qed.

Lemma ParseUint_decimal n : in_u64 n → ParseUint (decimal n) = Some n.
Proof.
  intros Hn. rewrite /ParseUint. destruct (decimal n) eqn:E; [by apply digits_not_nil in E|]. rewrite -E.
  rewrite -(app_nil_r (decimal n)) readDigits_decimal //. rewrite bool_decide_true //=. destruct (Z.ltb_spec n (2 ^ 64)); [done|zlia].
Qed.

Lemma decimal_inj n m : in_u64 n → in_u64 m → decimal n = decimal m → n = m.
Proof. intros Hn Hm E. apply (inj Some). by rewrite -(ParseUint_decimal n) // E ParseUint_decimal. Qed.

(** A number is written without a leading zero. *)
Lemma digits_head f n c l : 0 ≤ n < 10 ^ Z.of_nat f → digits f n = c :: l → c = "0"%char → l = [].
Proof.
  revert n l. induction f as [|f IH]; intros n l Hn; cbn [digits]; [done|]. destruct (Z.ltb_spec n 10); [by intros [= _ <-]|].
  rewrite Nat2Z.inj_succ Z.pow_succ_r in Hn; [lia|].
  assert (1 ≤ n / 10) by (apply Z.div_le_lower_bound; lia). assert (n / 10 < 10 ^ Z.of_nat f) by (apply Z.div_lt_upper_bound; lia).
  destruct (digits f (n / 10)) as [|d ds] eqn:E; cbn [app].
  - destruct f as [|f]; [cbn in *; lia|]. by apply digits_not_nil in E.
  - intros [= -> <-] ->. exfalso. assert (ds = []) as -> by (refine (IH (n / 10) ds _ E eq_refl); lia).
    pose proof (readDigits_digits f (n / 10) ltac:(lia)) as Hv. rewrite E in Hv. change (0 = n / 10) in Hv. lia.
Qed.
End numbers.

Section base64.
Lemma b64index_char i : 0 ≤ i < 64 → b64index (b64char i) = Some i.
Proof.
  intros Hi. assert (Forall (λ i, b64index (b64char i) = Some i) (seqZ 0 64)) as Hall.
  { apply (bool_decide_unpack _). by vm_compute. }
  eapply Forall_forall in Hall; [exact Hall|]. by apply elem_of_seqZ.
Qed.
Lemma b64char_pad i : 0 ≤ i < 64 → b64char i ≠ pad.
Proof. intros Hi E. pose proof (b64index_char i Hi) as Hx. by rewrite E in Hx. Qed.

Lemma byte_val_range c : 0 ≤ byte_val c < 256.
Proof. pose proof (N_ascii_bounded c). lia. Qed.
Lemma byte_byte_val c : byte (byte_val c) = c.
Proof. by rewrite /byte N2Z.id ascii_N_embedding. Qed.

Lemma byte_eq x c : x = byte_val c → byte x = c.
Proof. intros ->. apply byte_byte_val. Qed.

Lemma EncodeBase64_not_nil l : l ≠ [] → EncodeBase64 l ≠ [].
Proof. by destruct l as [|? [|? [|? ?]]]. Qed.

Ltac b64 := first [lia | Z.to_euclidean_division_equations; lia].

Lemma DecodeBase64_Encode l : DecodeBase64 (EncodeBase64 l) = Some l.
Proof.
  induction l as [l IH] using (induction_ltof1 _ (@length ascii)). unfold ltof in IH.
  destruct l as [|a [|b [|c l]]]; [done| | |]; pose proof (byte_val_range a); try pose proof (byte_val_range b); try pose proof (byte_val_range c);
    cbn [EncodeBase64 DecodeBase64].
  - rewrite !b64index_char; [b64..|]. cbn [mbind option_bind]. rewrite !bool_decide_true //. repeat f_equal; apply byte_eq; b64.
  - rewrite !b64index_char; [b64..|]. cbn [mbind option_bind]. rewrite bool_decide_true // bool_decide_false; [apply b64char_pad; b64|].
    repeat f_equal; apply byte_eq; b64.
  - rewrite !b64index_char; [b64..|]. cbn [mbind option_bind]. rewrite bool_decide_false; [intros [E _]; move: E; apply b64char_pad; b64|].
    rewrite IH; [cbn; lia|]. cbn [mbind option_bind]. repeat f_equal; apply byte_eq; b64.
Qed.
End base64.

(** ** Reading what was written *)
Fixpoint height (j : json) : nat :=
  match j with JObj fs => S (foldr Nat.max 0%nat (map (λ p, height p.2) fs)) | _ => 1%nat end.

Definition plain_bytes (s : bytes) : Prop := Forall (λ c, plainChar c = true) s.

(** Documents the writer produces: 64-bit numbers and strings without escapes. *)
Fixpoint document (j : json) : Prop :=
  match j with
  | JNull => True
  | JNum n => in_u64 n
  | JStr s => plain_bytes s
  | JObj fs => foldr and True (map (λ p, plain_bytes p.1 ∧ document p.2) fs)
  end.

Section documents.
Lemma readString_plain s rest : plain_bytes s → readString (s ++ [dquote] ++ rest) = Some (s, rest).
Proof.
  induction 1 as [|c s Hc Hs IH]; [done|]. cbn [app readString].
  destruct (Ascii.eqb_spec c dquote) as [->|]; [done|]. by rewrite Hc IH.
Qed.

Lemma print_head j : document j → ∃ c l, print j = c :: l ∧ isWhite c = false ∧ c ≠ "}"%char.
Proof.
  destruct j as [|n|s|fs]; intros Hd; [by repeat eexists..| |by repeat eexists|by repeat eexists].
  destruct (decimal n) as [|c l] eqn:E; [by apply digits_not_nil in E|]. exists c, l. split; [done|].
  assert (isDigit c = true) as Hc. { pose proof (digits_digits 20 n ltac:(cbn in Hd; zlia)) as Hds. rewrite /decimal in E. rewrite E in Hds. by inversion Hds. }
  rewrite /isDigit in Hc. split; [rewrite /isWhite; lia|]. intros ->. by vm_compute in Hc.
Qed.

Lemma skipWhite_cons c l : isWhite c = false → skipWhite (c :: l) = c :: l.
Proof. intros Hc. cbn. by rewrite Hc. Qed.
Lemma skipWhite_print j rest : document j → skipWhite (print j ++ rest) = print j ++ rest.
Proof. intros Hd. destruct (print_head j Hd) as (c & l & -> & Hc & _). by apply skipWhite_cons. Qed.

Lemma comma_cons l m ls : comma_separated (l :: m :: ls) = l ++ [","%char] ++ comma_separated (m :: ls).
Proof. done. Qed.

Lemma expect_eq c l : expect c (c :: l) = Some l.
Proof. by rewrite /expect Ascii.eqb_refl. Qed.

Lemma dropPrefix_app p rest : dropPrefix p (p ++ rest) = Some rest.
Proof. by rewrite /dropPrefix take_app_length drop_app_length bool_decide_true. Qed.

Lemma readMembers_print value fuel fs rest :
  fs ≠ [] → (length fs ≤ fuel)%nat → Forall (λ p, plain_bytes p.1 ∧ document p.2) fs →
  (∀ p rest, p ∈ fs → ends rest → value (print p.2 ++ rest) = Some (p.2, rest)) →
  readMembers value fuel (comma_separated (map (λ p, quoted p.1 ++ [":"%char] ++ print p.2) fs) ++ ["}"%char] ++ rest) = Some (fs, rest).
Proof.
  intros Hne Hf Hfs Hv. revert fuel Hf Hne. induction fs as [|[k v] fs IH]; intros fuel Hf Hne; [done|].
  destruct fuel as [|fuel]; [cbn in Hf; lia|]. apply Forall_cons in Hfs as [[Hk Hd] Hfs]. cbn [fst snd] in Hk, Hd.
  assert (∀ tail, readMembers value (S fuel) ((quoted k ++ [":"%char] ++ print v) ++ tail) =
    '(v, l) ← value (print v ++ tail);
    match expect "," (skipWhite l) with
    | Some l => '(ms, l) ← readMembers value fuel l; Some ((k, v) :: ms, l)
    | None => l ← expect "}" (skipWhite l); Some ([(k, v)], l)
    end) as Hstep.
  { intros tail. cbn [readMembers]. rewrite /quoted -!app_assoc. cbn [app]. rewrite skipWhite_cons //. cbn [readQuoted].
    rewrite Ascii.eqb_refl (readString_plain k (":"%char :: _)) //. }
  destruct fs as [|p fs]; cbn [map].
  - cbn [comma_separated fmap list_fmap concat]. rewrite app_nil_r Hstep (Hv (k, v)); [by left|done|]. done.
  - rewrite comma_cons -app_assoc Hstep (Hv (k, v)); [by left|done|]. cbn [mbind option_bind]. rewrite -app_assoc. cbn [app].
    rewrite skipWhite_cons // expect_eq. change ((λ p, quoted p.1 ++ ":"%char :: print p.2) p :: map (λ p, quoted p.1 ++ ":"%char :: print p.2) fs)
      with (map (λ p, quoted p.1 ++ [":"%char] ++ print p.2) (p :: fs)).
    rewrite (IH Hfs); [|cbn in Hf |- *; lia|done|done]. intros; apply Hv; [by right|done].
Qed.

Lemma comma_length fs : (length fs ≤ length (comma_separated (map (λ p, quoted p.1 ++ [":"%char] ++ print p.2) fs)))%nat.
Proof.
  induction fs as [|p fs IH]; [done|]. destruct fs as [|q fs]; cbn [map] in *.
  - cbn [comma_separated fmap list_fmap concat]. rewrite app_nil_r /quoted. cbn. lia.
  - rewrite comma_cons. revert IH. generalize (comma_separated ((quoted q.1 ++ [":"%char] ++ print q.2) ::
      map (λ p, quoted p.1 ++ [":"%char] ++ print p.2) fs)). intros c IH. rewrite !length_app. cbn [length] in *. lia.
Qed.

Lemma height_field (fs : list (bytes * json)) p : p ∈ fs → (height p.2 ≤ foldr Nat.max 0%nat (map (λ p, height p.2) fs))%nat.
Proof. induction 1 as [p fs|p q fs Hin IH]; cbn; lia. Qed.

Lemma json_nested_ind (P : json → Prop) :
  P JNull → (∀ n, P (JNum n)) → (∀ s, P (JStr s)) → (∀ fs, Forall (λ p, P p.2) fs → P (JObj fs)) → ∀ j, P j.
Proof.
  intros H1 H2 H3 H4. fix IH 1. intros [|n|s|fs]; [done|done|done|]. apply H4. induction fs as [|[k v] fs IHfs]; constructor; [apply IH|exact IHfs].
Qed.

Lemma comma_elem l ls : l ∈ ls → (length l ≤ length (comma_separated ls))%nat.
Proof.
  intros Hin. destruct ls as [|m ls]; [by apply not_elem_of_nil in Hin|]. cbn [comma_separated]. rewrite length_app.
  apply elem_of_cons in Hin as [->|Hin]; [lia|]. assert (length l ≤ length (concat ((λ l, [","%char] ++ l) <$> ls)))%nat; [|lia].
  induction Hin as [l ls|l x ls Hin IH]; rewrite fmap_cons; cbn [concat]; rewrite !length_app; cbn [length]; lia.
Qed.

Lemma height_print j : (height j ≤ S (length (print j)))%nat.
Proof.
  induction j as [| | |fs IH] using json_nested_ind; cbn [height print]; try lia. rewrite !length_app. cbn [length].
  assert (foldr Nat.max 0%nat (map (λ p, height p.2) fs) ≤ length (comma_separated (map (λ p, quoted p.1 ++ [":"%char] ++ print p.2) fs)))%nat; [|lia].
  assert (∀ n, Forall (λ h, h ≤ n)%nat (map (λ p, height p.2) fs) → foldr Nat.max 0%nat (map (λ p, height p.2) fs) ≤ n)%nat as Hmax.
  { intros n. induction 1; cbn; lia. }
  apply Hmax, Forall_forall. intros h (p & -> & Hp)%list_elem_of_fmap. eapply Forall_forall in IH; [|exact Hp].
  pose proof (comma_elem (quoted p.1 ++ [":"%char] ++ print p.2) (map (λ p, quoted p.1 ++ [":"%char] ++ print p.2) fs)
    (list_elem_of_fmap_2 (λ p, quoted p.1 ++ [":"%char] ++ print p.2) _ _ Hp)) as Hl.
  rewrite /quoted in Hl. rewrite !length_app in Hl. cbn in *. lia.
Qed.

Lemma readValue_print d j rest : (height j ≤ d)%nat → document j → ends rest → readValue d (print j ++ rest) = Some (j, rest).
Proof.
  revert j rest. induction d as [|d IH]; intros j rest Hh Hd He; [by destruct j; cbn in Hh; lia|].
  cbn [readValue]. rewrite skipWhite_print //. destruct j as [|n|s|fs]; cbn [print].
  - change ((rest' ← dropPrefix (lit "null") (lit "null" ++ rest); Some (JNull, rest')) = Some (JNull, rest)). by rewrite dropPrefix_app.
  - cbn in Hd. destruct (decimal n) as [|c l] eqn:E; [by apply digits_not_nil in E|]. cbn [app].
    assert (isDigit c = true) as Hc.
    { pose proof (digits_digits 20 n ltac:(zlia)) as Hds. rewrite /decimal in E. rewrite E in Hds. by inversion Hds. }
    assert (∀ d, isDigit d = false → Ascii.eqb c d = false) as Hneq.
    { intros x Hx. destruct (Ascii.eqb_spec c x) as [->|]; [congruence|done]. }
    rewrite (Hneq dquote) // (Hneq "{"%char) // (Hneq "n"%char) // Hc.
    change (c :: l ++ rest) with ((c :: l) ++ rest). rewrite -E readDigits_decimal //.
    destruct (Ascii.eqb_spec c "0") as [->|]; [|done]. cbn [andb].
    rewrite (digits_head 20 n "0" l) //. { change (10 ^ Z.of_nat 20) with 100000000000000000000. zlia. }
    by rewrite bool_decide_true.
  - rewrite /quoted -!app_assoc. cbn [app]. rewrite Ascii.eqb_refl. rewrite (readString_plain s) //.
  - cbn [app]. cbn [document] in Hd. destruct fs as [|p fs]; [done|].
    assert (Forall (λ p, plain_bytes p.1 ∧ document p.2) (p :: fs)) as Hfs.
    { revert Hd. generalize (p :: fs). intros l. induction l as [|q l IHl]; [by constructor|]. cbn. intros [? ?]. by constructor; [|apply IHl]. }
    assert (∃ l, comma_separated (map (λ p, quoted p.1 ++ [":"%char] ++ print p.2) (p :: fs)) = dquote :: l) as [l Hl].
    { cbn [map comma_separated]. rewrite /quoted -!app_assoc. cbn [app]. by eexists. }
    change (Ascii.eqb "{" dquote) with false. change (Ascii.eqb "{" "{") with true. cbv iota. rewrite -app_assoc.
    rewrite {1}Hl. cbn [app]. rewrite skipWhite_cons //. change (expect "}" (dquote :: l ++ "}"%char :: rest)) with (@None bytes). cbv iota.
    rewrite (readMembers_print (readValue d) _ (p :: fs) rest); [done| |done| |done].
    + rewrite length_app. etransitivity; [apply (comma_length (p :: fs))|]. apply Nat.le_add_r.
    + intros q rest' Hq He'. apply IH; [|by eapply Forall_forall in Hfs as [_ ?]|done]. cbn [height] in Hh.
      pose proof (height_field (p :: fs) q Hq). lia.
Qed.

(** Reading a document that was written gives it back. *)
Lemma parse_print j : document j → parse (print j) = Some j.
Proof.
  intros Hd. rewrite /parse -(app_nil_r (print j)) readValue_print //. rewrite app_nil_r. pose proof (height_print j). lia.
Qed.
End documents.
