(* ===== verification/RsmSession.v ===== *)
(** * Client sessions of a replica

    internal/dragonboat/internal/rsm: session.go, lrusession.go and
    sessionmanager.go.  A session remembers the results a client has not confirmed,
    so that a command that is proposed again is answered and not applied again.
    Sessions are kept in a cache that evicts the least recently used one
    (vendor/github.com/lni/goutils/cache, an ordered tree and a linked list): the tree
    is a map and the list is [lru_order], least recently used first.

    A [*Session] that the manager hands out stays in the cache; what is done through
    the pointer is stored under its key. *)
From S2P Require Import Prelude GoStrings Wire GoJson.
From Stdlib Require Import Ascii.

Local Open Scope Z_scope.

(** [sm.Result]; [Data] may be nil. *)
Record Result := { res_Value : Z; res_Data : option bytes }.
Definition noResult : Result := {| res_Value := 0; res_Data := None |}.
#[export] Instance Result_eta : Eta Result := λ r, Build_Result (res_Value r) (res_Data r).
#[export] Instance Result_eq_dec : EqDecision Result.
Proof. solve_decision. Defined.
Definition isEmptyResult (r : Result) : bool := bool_decide (res_Data r = None) && (res_Value r =? 0).

(** ** session.go *)
Record Session := { se_ClientID : Z; se_RespondedUpTo : Z; se_History : gmap Z Result }.
#[export] Instance Session_eta : Eta Session := λ s, Build_Session (se_ClientID s) (se_RespondedUpTo s) (se_History s).
#[export] Instance Session_eq_dec : EqDecision Session.
Proof. solve_decision. Defined.

Definition newSession (id : Z) : Session := {| se_ClientID := id; se_RespondedUpTo := 0; se_History := ∅ |}.
Definition getResponse (s : Session) (id : Z) : option Result := se_History s !! id.
Definition hasResponded (s : Session) (id : Z) : bool := id <=? se_RespondedUpTo s.

(** [None] is the panic on a duplicate. *)
Definition addResponse (s : Session) (id : Z) (r : Result) : option Session :=
  match se_History s !! id with
  | None => Some (s <| se_History ::= <[id := r]> |>)
  | Some _ => None
  end.

Definition clearTo (s : Session) (to : Z) : Session :=
  if to <=? se_RespondedUpTo s then s
  else if to =? u64 (se_RespondedUpTo s + 1) then s <| se_History ::= delete to |> <| se_RespondedUpTo := to |>
  else s <| se_RespondedUpTo := to |> <| se_History ::= filter (λ p, to < p.1) |>.

(** *** Encoding

    [json.Marshal] writes the keys of a map in the order of their decimal strings. *)
Definition keyString (p : Z * Result) : string := string_of (decimal p.1).
#[local] Instance keyString_dec : RelDecision (λ p q, String.le (keyString p) (keyString q)).
Proof. intros p q. apply _. Defined.
Definition sortedHistory (h : gmap Z Result) : list (Z * Result) :=
  merge_sort (λ p q, String.le (keyString p) (keyString q)) (map_to_list h).

Definition resultJson (r : Result) : json :=
  JObj [(lit "Value", JNum (res_Value r)); (lit "Data", match res_Data r with Some d => JStr (EncodeBase64 d) | None => JNull end)].
Definition sessionJson (s : Session) : json :=
  JObj [(lit "ClientID", JNum (se_ClientID s)); (lit "RespondedUpTo", JNum (se_RespondedUpTo s));
        (lit "History", JObj ((λ p, (decimal p.1, resultJson p.2)) <$> sortedHistory (se_History s)))].
Definition MarshalSession (s : Session) : bytes := print (sessionJson s).

(** Decoding: fields in any order, unknown ones ignored, a null leaves a field alone.
    Names are compared exactly and a null history is refused (Go also takes names in
    another case, and a null as a nil map; no writer here produces either). *)
Definition fold_fields {M} (set : M → bytes → json → option M) (m : M) (fs : list (bytes * json)) : option M :=
  foldl (λ acc p, m ← acc; set m p.1 p.2) (Some m) fs.

Definition asUint (old : Z) (j : json) : option Z :=
  match j with JNum n => if n <? 2 ^ 64 then Some n else None | JNull => Some old | _ => None end.

Definition setResult (r : Result) (k : bytes) (j : json) : option Result :=
  if bool_decide (k = lit "Value") then n ← asUint (res_Value r) j; Some (r <| res_Value := n |>)
  else if bool_decide (k = lit "Data") then
    match j with
    | JNull => Some (r <| res_Data := None |>)
    | JStr s => d ← DecodeBase64 s; Some (r <| res_Data := Some d |>)
    | _ => None
    end
  else Some r.
Definition decodeResult (j : json) : option Result :=
  match j with JObj fs => fold_fields setResult noResult fs | JNull => Some noResult | _ => None end.

Definition setHistory {A} (dec : json → option A) (h : gmap Z A) (k : bytes) (j : json) : option (gmap Z A) :=
  id ← ParseUint k; v ← dec j; Some (<[id := v]> h).

Definition setSession (dec : json → option Result) (s : Session) (k : bytes) (j : json) : option Session :=
  if bool_decide (k = lit "ClientID") then n ← asUint (se_ClientID s) j; Some (s <| se_ClientID := n |>)
  else if bool_decide (k = lit "RespondedUpTo") then n ← asUint (se_RespondedUpTo s) j; Some (s <| se_RespondedUpTo := n |>)
  else if bool_decide (k = lit "History") then
    match j with
    | JObj fs => h ← fold_fields (setHistory dec) (se_History s) fs; Some (s <| se_History := h |>)
    | _ => None
    end
  else Some s.

(** [json.Unmarshal] into a new session; in the first format a result was its value. *)
Definition decodeV1 (j : json) : option Result := n ← asUint 0 j; Some {| res_Value := n; res_Data := None |}.
Definition UnmarshalSession (dec : json → option Result) (l : bytes) : option Session :=
  j ← parse l; match j with JObj fs => fold_fields (setSession dec) (newSession 0) fs | JNull => Some (newSession 0) | _ => None end.

(** *** Streams *)
Fixpoint le_bytes (n : nat) (v : Z) : bytes :=
  match n with O => [] | S n => byte (v mod 256) :: le_bytes n (v / 256) end.
Fixpoint le_val (l : bytes) : Z := match l with [] => 0 | c :: l => byte_val c + 256 * le_val l end.
Definition PutUint64 (v : Z) : bytes := le_bytes 8 v.

Inductive ReadError := EOF | ErrUnexpectedEOF.
#[export] Instance ReadError_eq_dec : EqDecision ReadError.
Proof. solve_decision. Defined.

(** [io.ReadFull] of [n] bytes. *)
Definition ReadFull (n : Z) (l : bytes) : result (bytes * bytes) ReadError :=
  if n <=? Z.of_nat (length l) then Ok (take (Z.to_nat n) l, drop (Z.to_nat n) l)
  else Err (if bool_decide (l = []) then EOF else ErrUnexpectedEOF).

Definition saveSession (s : Session) : bytes :=
  let data := MarshalSession s in PutUint64 (Z.of_nat (length data)) ++ data.

Inductive SSVersion := V1 | V2.

(** [None] is a panic: the document is not a session. *)
Definition recoverFromSnapshot (v : SSVersion) (l : bytes) : option (result (Session * bytes) ReadError) :=
  match ReadFull 8 l with
  | Err e => Some (Err e)
  | Ok (lenbuf, l) =>
      match ReadFull (le_val lenbuf) l with
      | Err e => Some (Err e)
      | Ok (data, rest) =>
          s ← UnmarshalSession (match v with V1 => decodeV1 | V2 => decodeResult end) data;
          Some (Ok (s, rest))
      end
  end.

(** ** The cache, lrusession.go *)
Record lrusession := { lru_size : Z; lru_order : list Z; lru_sessions : gmap Z Session }.
#[export] Instance lrusession_eta : Eta lrusession := λ l, Build_lrusession (lru_size l) (lru_order l) (lru_sessions l).

Definition LRUMaxSessionCount : Z := 4096.

Definition GetEmptyLRUSession : bytes := PutUint64 LRUMaxSessionCount ++ PutUint64 0.

Definition newLRUSession (size : Z) : option lrusession :=
  if size =? 0 then None else Some {| lru_size := size; lru_order := []; lru_sessions := ∅ |}.

(** [access]: the entry becomes the most recently used one. *)
Definition touch (k : Z) (order : list Z) : list Z := filter (λ x, x ≠ k) order ++ [k].

Definition getSession (rec : lrusession) (k : Z) : lrusession * option Session :=
  match lru_sessions rec !! k with
  | Some s => (rec <| lru_order ::= touch k |>, Some s)
  | None => (rec, None)
  end.

(** [evict]: the least recently used entry goes while there are too many. *)
Definition evict (rec : lrusession) : lrusession * bool :=
  match lru_order rec with
  | k :: order =>
      if lru_size rec <? Z.of_nat (size (lru_sessions rec)) then
        (rec <| lru_order := order |> <| lru_sessions ::= delete k |>, true)
      else (rec, false)
  | [] => (rec, false)
  end.
Fixpoint evictAll (fuel : nat) (rec : lrusession) : lrusession :=
  match fuel with O => rec | S f => let '(rec, more) := evict rec in if (more : bool) then evictAll f rec else rec end.

Definition addSession (rec : lrusession) (k : Z) (s : Session) : lrusession :=
  match lru_sessions rec !! k with
  | Some _ => rec <| lru_order ::= touch k |> <| lru_sessions ::= <[k := s]> |>
  | None =>
      let rec := rec <| lru_order ::= λ o, o ++ [k] |> <| lru_sessions ::= <[k := s]> |> in
      evictAll (length (lru_order rec)) rec
  end.

Definition delSession (rec : lrusession) (k : Z) : lrusession :=
  match lru_sessions rec !! k with
  | Some _ => rec <| lru_order ::= filter (λ x, x ≠ k) |> <| lru_sessions ::= delete k |>
  | None => rec
  end.

(** What is done to a session through its pointer. *)
Definition putSession (rec : lrusession) (k : Z) (s : Session) : lrusession := rec <| lru_sessions ::= <[k := s]> |>.

(** [save]: the sessions from the least recently used one on; each is looked up,
    which moves it to the end.  [None] is the panic on a missing one. *)
Fixpoint saveSessionsFrom (rec : lrusession) (ids : list Z) : option (lrusession * bytes) :=
  match ids with
  | [] => Some (rec, [])
  | k :: ids =>
      let '(rec, s) := getSession rec k in
      s ← s;
      '(rec, out) ← saveSessionsFrom rec ids;
      Some (rec, saveSession s ++ out)
  end.
Definition saveLRU (rec : lrusession) : option (lrusession * bytes) :=
  '(rec', out) ← saveSessionsFrom rec (lru_order rec);
  Some (rec', PutUint64 (lru_size rec) ++ PutUint64 (Z.of_nat (length (lru_order rec))) ++ out).

(** A session takes at least eight bytes, so the bytes left bound the rounds. *)
Fixpoint loadSessionsFrom (fuel : nat) (v : SSVersion) (total : Z) (l : bytes) : option (result (list Session * bytes) ReadError) :=
  if total =? 0 then Some (Ok ([], l))
  else
    r ← recoverFromSnapshot v l;
    match r with
    | Err e => Some (Err e)
    | Ok (s, l) =>
        match fuel with
        | O => None
        | S f =>
            rs ← loadSessionsFrom f v (total - 1) l;
            Some (match rs with Ok (ss, l) => Ok (s :: ss, l) | Err e => Err e end)
        end
    end.
Definition loadLRU (rec : lrusession) (v : SSVersion) (l : bytes) : option (lrusession * result bytes ReadError) :=
  match ReadFull 8 l with
  | Err e => Some (rec, Err e)
  | Ok (sizebuf, l) =>
      match ReadFull 8 l with
      | Err e => Some (rec, Err e)
      | Ok (totalbuf, l) =>
          r ← loadSessionsFrom (length l) v (le_val totalbuf) l;
          match r with
          | Err e => Some (rec, Err e)
          | Ok (ss, rest) =>
              new ← newLRUSession (le_val sizebuf);
              Some (foldl (λ rec s, addSession rec (se_ClientID s) s) new ss, Ok rest)
          end
      end
  end.

(** ** sessionmanager.go; [None] is the panic on a session under a wrong key *)
Definition NewSessionManager : lrusession := {| lru_size := LRUMaxSessionCount; lru_order := []; lru_sessions := ∅ |}.

Definition ClientRegistered (rec : lrusession) (clientID : Z) : option (lrusession * option Session) :=
  let '(rec, s) := getSession rec clientID in
  match s with
  | Some s => if negb (se_ClientID s =? clientID) then None else Some (rec, Some s)
  | None => Some (rec, None)
  end.
Definition RegisterClientID (rec : lrusession) (clientID : Z) : option (lrusession * Result) :=
  '(rec, s) ← ClientRegistered rec clientID;
  match s with
  | Some _ => Some (rec, noResult)
  | None => Some (addSession rec clientID (newSession clientID), noResult <| res_Value := clientID |>)
  end.
Definition UnregisterClientID (rec : lrusession) (clientID : Z) : option (lrusession * Result) :=
  '(rec, s) ← ClientRegistered rec clientID;
  match s with
  | Some _ => Some (delSession rec clientID, noResult <| res_Value := clientID |>)
  | None => Some (rec, noResult)
  end.

(** [UpdateRequired]: the result, whether it was responded before, and whether the
    update is required. *)
Definition UpdateRequired (s : Session) (seriesID : Z) : Result * bool * bool :=
  if hasResponded s seriesID then (noResult, true, false)
  else match getResponse s seriesID with
       | Some r => (r, false, false)
       | None => (noResult, false, true)
       end.

(** ** Reading a stream that was written *)
Section streams.
Lemma length_le_bytes n v : length (le_bytes n v) = n.
Proof. revert v. induction n as [|n IH]; intros v; cbn; [done|]. by rewrite IH. Qed.
Lemma le_val_bytes n v : 0 ≤ v < 256 ^ Z.of_nat n → le_val (le_bytes n v) = v.
Proof.
  revert v. induction n as [|n IH]; intros v Hv; [cbn in *; lia|]. rewrite Nat2Z.inj_succ Z.pow_succ_r in Hv; [lia|].
  cbn [le_bytes le_val]. pose proof (Z.mod_pos_bound v 256 ltac:(lia)). rewrite byte_val_byte; [lia|].
  rewrite IH; [split; [apply Z.div_pos; lia|apply Z.div_lt_upper_bound; lia]|]. rewrite {3}(Z.div_mod v 256); lia.
Qed.
Lemma le_val_PutUint64 v : in_u64 v → le_val (PutUint64 v) = v.
Proof. intros Hv. apply le_val_bytes. change (256 ^ Z.of_nat 8) with (2 ^ 64). done. Qed.

Lemma ReadFull_app n a b : Z.of_nat (length a) = n → ReadFull n (a ++ b) = Ok (a, b).
Proof.
  intros <-. rewrite /ReadFull length_app. destruct (Z.leb_spec (Z.of_nat (length a)) (Z.of_nat (length a + length b))); [|lia].
  by rewrite Nat2Z.id take_app_length drop_app_length.
Qed.
Lemma ReadFull_PutUint64 v b : ReadFull 8 (PutUint64 v ++ b) = Ok (PutUint64 v, b).
Proof. apply ReadFull_app. by rewrite length_le_bytes. Qed.
End streams.

(** ** Sessions over the wire *)
Record session_ok (s : Session) : Prop := {
  so_client : in_u64 (se_ClientID s);
  so_responded : in_u64 (se_RespondedUpTo s);
  so_history : map_Forall (λ k r, in_u64 k ∧ in_u64 (res_Value r) ∧ se_RespondedUpTo s < k) (se_History s)
}.

Section encoding.
Implicit Types (s : Session) (r : Result).

Lemma plain_lit c : (∀ x, x ∈ c → plainChar x = true) → plain_bytes c.
Proof. intros Hc. by apply Forall_forall. Qed.
Lemma plain_digits n : 0 ≤ n → plain_bytes (decimal n).
Proof.
  intros Hn. eapply Forall_impl; [by apply digits_digits|]. intros c. rewrite /isDigit /plainChar. lia.
Qed.
Lemma plain_base64 d : plain_bytes (EncodeBase64 d).
Proof.
  assert (∀ i, 0 ≤ i < 64 → plainChar (b64char i) = true) as Hc.
  { intros i Hi. assert (Forall (λ i, plainChar (b64char i) = true) (seqZ 0 64)) as Hall by (apply (bool_decide_unpack _); by vm_compute).
    eapply Forall_forall in Hall; [exact Hall|]. by apply elem_of_seqZ. }
  induction d as [d IH] using (induction_ltof1 _ (@length ascii)). unfold ltof in IH.
  destruct d as [|a [|b [|c d]]]; [by constructor| | |]; pose proof (byte_val_range a); try pose proof (byte_val_range b);
    try pose proof (byte_val_range c); cbn [EncodeBase64]; repeat (constructor; [try done; apply Hc; first [lia|Z.to_euclidean_division_equations; lia]|]);
    try by constructor. apply IH. cbn. lia.
Qed.

Lemma result_document r : in_u64 (res_Value r) → document (resultJson r).
Proof.
  intros Hr. cbn. split_and!; try done; try (apply (bool_decide_unpack _); by vm_compute).
  destruct (res_Data r); [apply plain_base64|done].
Qed.

Lemma decodeResult_json r : in_u64 (res_Value r) → decodeResult (resultJson r) = Some r.
Proof.
  intros Hr. destruct r as [v d]. rewrite /decodeResult /resultJson /fold_fields. cbn [foldl fst snd].
  assert (asUint 0 (JNum v) = Some v) as Ev.
  { cbn. destruct (Z.ltb_spec v (2 ^ 64)); [done|]. cbn in Hr. zlia. }
  assert (setResult noResult (lit "Value") (JNum v) = Some (noResult <| res_Value := v |>)) as E1.
  { rewrite /setResult bool_decide_true // . cbn [res_Value noResult]. by rewrite Ev. }
  cbn [res_Value res_Data mbind option_bind]. rewrite E1. cbn [mbind option_bind].
  rewrite /setResult bool_decide_false // bool_decide_true //. destruct d as [d|]; [|done].
  by rewrite DecodeBase64_Encode.
Qed.
Lemma history_perm (h : gmap Z Result) : sortedHistory h ≡ₚ map_to_list h.
Proof. apply merge_sort_Permutation. Qed.
Lemma history_elem (h : gmap Z Result) p : p ∈ sortedHistory h ↔ h !! p.1 = Some p.2.
Proof. rewrite history_perm. destruct p. apply elem_of_map_to_list. Qed.

Lemma document_fields fs : Forall (λ p, plain_bytes p.1 ∧ document p.2) fs → document (JObj fs).
Proof. induction 1 as [|p fs Hp Hfs IH]; [done|]. by split. Qed.

Lemma session_document s : session_ok s → document (sessionJson s).
Proof.
  intros [Hc Hr Hh]. cbn. split_and!; try done; try (apply (bool_decide_unpack _); by vm_compute).
  apply document_fields, Forall_forall. intros ? ([k r] & -> & Hkr)%list_elem_of_fmap. apply history_elem in Hkr.
  destruct (Hh k r Hkr) as (Hk & Hv & _). split; [apply plain_digits; cbn; zlia|]. by apply result_document.
Qed.

Lemma fold_history h l :
  Forall (λ p : Z * Result, in_u64 p.1 ∧ in_u64 (res_Value p.2)) l →
  fold_fields (setHistory decodeResult) h ((λ p, (decimal p.1, resultJson p.2)) <$> l) = Some (foldl (λ h p, <[p.1 := p.2]> h) h l).
Proof.
  rewrite /fold_fields. intros Hl. revert h. induction Hl as [|[k r] l [Hk Hr] Hl IH]; intros h; [done|].
  rewrite fmap_cons. cbn [foldl fst snd mbind option_bind]. rewrite {2}/setHistory ParseUint_decimal //.
  cbn [mbind option_bind]. rewrite decodeResult_json //. apply IH.
Qed.

Lemma foldl_insert {A} (h : gmap Z A) l : foldl (λ h p, <[p.1 := p.2]> h) h l = list_to_map (reverse l) ∪ h.
Proof.
  revert h. induction l as [|[k r] l IH]; intros h; [by rewrite left_id_L|]. cbn [foldl fst snd].
  rewrite IH reverse_cons list_to_map_app -map_union_assoc. f_equal. by rewrite -insert_union_l left_id_L.
Qed.

Lemma history_map h : list_to_map (reverse (sortedHistory h)) = h.
Proof.
  rewrite -{2}(list_to_map_to_list h). apply list_to_map_proper; rewrite reverse_Permutation; [|apply history_perm].
  rewrite history_perm. apply NoDup_fst_map_to_list.
Qed.

Lemma Unmarshal_Marshal s : session_ok s → UnmarshalSession decodeResult (MarshalSession s) = Some s.
Proof.
  intros Hs. rewrite /UnmarshalSession /MarshalSession parse_print; [by apply session_document|].
  destruct Hs as [Hc Hr Hh], s as [c u h]. cbn in Hc, Hr, Hh. cbn [mbind option_bind].
  assert (∀ old n, in_u64 n → asUint old (JNum n) = Some n) as Hu.
  { intros old n Hn. cbn. destruct (Z.ltb_spec n (2 ^ 64)); [done|zlia]. }
  assert (∀ s n, in_u64 n → setSession decodeResult s (lit "ClientID") (JNum n) = Some (s <| se_ClientID := n |>)) as E1.
  { intros s n Hn. by rewrite /setSession bool_decide_true // Hu. }
  assert (∀ s n, in_u64 n → setSession decodeResult s (lit "RespondedUpTo") (JNum n) = Some (s <| se_RespondedUpTo := n |>)) as E2.
  { intros s n Hn. by rewrite /setSession bool_decide_false // bool_decide_true // Hu. }
  rewrite /sessionJson /fold_fields. cbn [foldl fst snd se_ClientID se_RespondedUpTo se_History mbind option_bind].
  rewrite E1 //. cbn [mbind option_bind]. rewrite E2 //. cbn [mbind option_bind].
  rewrite /setSession 2?bool_decide_false // bool_decide_true // fold_history.
  - apply Forall_forall. intros [k r] Hkr%history_elem. destruct (Hh k r Hkr) as (? & ? & _). done.
  - cbn [mbind option_bind]. proj_simpl. rewrite foldl_insert history_map. cbn. by rewrite right_id_L.
Qed.

Lemma recover_save s rest :
  session_ok s → in_u64 (Z.of_nat (length (MarshalSession s))) → recoverFromSnapshot V2 (saveSession s ++ rest) = Some (Ok (s, rest)).
Proof.
  intros Hs Hl. rewrite /recoverFromSnapshot /saveSession -app_assoc ReadFull_PutUint64 le_val_PutUint64 // ReadFull_app //.
  by rewrite Unmarshal_Marshal.
Qed.
End encoding.

(** ** The invariant of the cache *)
Record lru_wf (rec : lrusession) : Prop := {
  lw_size : in_u64 (lru_size rec) ∧ 0 < lru_size rec;
  lw_nodup : NoDup (lru_order rec);
  lw_dom k : k ∈ lru_order rec ↔ is_Some (lru_sessions rec !! k);
  lw_full : Z.of_nat (size (lru_sessions rec)) ≤ lru_size rec;
  lw_keys : map_Forall (λ k s, se_ClientID s = k ∧ session_ok s) (lru_sessions rec)
}.

Section cache.
Implicit Types (rec : lrusession) (s : Session) (k : Z).

Lemma empty_lru_wf size : in_u64 size ∧ 0 < size → lru_wf {| lru_size := size; lru_order := []; lru_sessions := ∅ |}.
Proof.
  intros Hs. constructor; cbn; [done|by apply NoDup_nil| |rewrite map_size_empty; lia|apply map_Forall_empty].
  intros k. rewrite elem_of_nil lookup_empty. split; [done|by intros [? ?]].
Qed.
Lemma NewSessionManager_wf : lru_wf NewSessionManager.
Proof. apply empty_lru_wf. rewrite /LRUMaxSessionCount. split; zlia. Qed.

Lemma touch_perm k o : NoDup o → k ∈ o → touch k o ≡ₚ o.
Proof.
  rewrite /touch. intros Hnd (l1 & l2 & ->)%list_elem_of_split. apply NoDup_app in Hnd as (Hnd1 & Hd & Hnd2).
  apply NoDup_cons in Hnd2 as [Hk Hnd2].
  assert (∀ l : list Z, k ∉ l → filter (λ x, x ≠ k) l = l) as Hf.
  { intros l Hl. induction l as [|x l IH]; [done|]. apply not_elem_of_cons in Hl as [? ?]. rewrite filter_cons_True; [done|]. by rewrite IH. }
  rewrite filter_app filter_cons_False; [naive_solver|]. rewrite (Hf l1); [|rewrite (Hf l2) //].
  - intros Hk1. by apply (Hd k Hk1); left.
  - by rewrite Permutation_app_comm /= Permutation_middle.
Qed.
Lemma touch_head k o : NoDup (k :: o) → touch k (k :: o) = o ++ [k].
Proof.
  intros [Hk _]%NoDup_cons. rewrite /touch filter_cons_False; [naive_solver|]. f_equal.
  induction o as [|x o IH]; [done|]. apply not_elem_of_cons in Hk as [? ?]. rewrite filter_cons_True; [done|]. by rewrite IH.
Qed.

(** The sizes of the list and of the map agree. *)
Lemma lru_length rec : lru_wf rec → length (lru_order rec) = size (lru_sessions rec).
Proof.
  intros Hw. rewrite -(size_dom (lru_sessions rec)) -(size_list_to_set (C := gset Z)); [by destruct Hw|]. f_equal.
  apply set_eq. intros k. rewrite elem_of_list_to_set elem_of_dom. by destruct Hw.
Qed.

Lemma touch_wf rec k : lru_wf rec → is_Some (lru_sessions rec !! k) → lru_wf (rec <| lru_order ::= touch k |>).
Proof.
  intros [Hs Hn Hd Hf Hk] Hin. apply Hd in Hin as Hin'. pose proof (touch_perm k _ Hn Hin') as Hp.
  constructor; proj_simpl; try done; [by rewrite Hp|]. intros x. by rewrite Hp Hd.
Qed.
Lemma getSession_wf rec k : lru_wf rec → lru_wf (getSession rec k).1.
Proof. intros Hw. rewrite /getSession. destruct (lru_sessions rec !! k) eqn:E; [|done]. by apply touch_wf. Qed.
Lemma putSession_wf rec k s : lru_wf rec → is_Some (lru_sessions rec !! k) → se_ClientID s = k → session_ok s → lru_wf (putSession rec k s).
Proof.
  intros [Hs Hn Hd Hf Hk] Hin Hc Hok. constructor; proj_simpl; try done.
  - intros x. rewrite Hd lookup_insert_is_Some. destruct (decide (k = x)); naive_solver.
  - rewrite map_size_insert. destruct Hin as [? ->]. done.
  - by apply map_Forall_insert_2.
Qed.

Lemma delSession_wf rec k : lru_wf rec → lru_wf (delSession rec k).
Proof.
  rewrite /delSession. intros [Hs Hn Hd Hf Hk]. destruct (lru_sessions rec !! k) eqn:E; [|by constructor]. constructor; proj_simpl; try done.
  - by apply NoDup_filter.
  - intros x. rewrite list_elem_of_filter Hd lookup_delete_is_Some. naive_solver.
  - rewrite map_size_delete E. lia.
  - by apply map_Forall_delete.
Qed.

(** Adding a session: below the capacity nothing else changes, at the capacity the
    least recently used session goes. *)
Definition added rec k s : lrusession :=
  let rec' := rec <| lru_order ::= λ o, o ++ [k] |> <| lru_sessions ::= <[k := s]> |> in
  if Z.of_nat (size (lru_sessions rec)) <? lru_size rec then rec'
  else match lru_order rec with
       | x :: o => rec' <| lru_order := o ++ [k] |> <| lru_sessions := <[k := s]> (delete x (lru_sessions rec)) |>
       | [] => rec'
       end.

Lemma evictAll_done fuel rec : Z.of_nat (size (lru_sessions rec)) ≤ lru_size rec → evictAll fuel rec = rec.
Proof.
  intros H. destruct fuel as [|f]; [done|]. cbn. rewrite /evict. destruct (lru_order rec); [done|].
  by destruct (Z.ltb_spec (lru_size rec) (Z.of_nat (size (lru_sessions rec)))); [lia|].
Qed.

Lemma addSession_new rec k s : lru_wf rec → lru_sessions rec !! k = None → addSession rec k s = added rec k s.
Proof.
  intros Hw Hk. rewrite /addSession Hk /added. pose proof (lru_length rec Hw) as Hl. destruct Hw as [Hs Hn Hd Hf Hks].
  assert (size (<[k := s]> (lru_sessions rec)) = S (size (lru_sessions rec))) as Hsz by (rewrite map_size_insert Hk; done).
  destruct (Z.ltb_spec (Z.of_nat (size (lru_sessions rec))) (lru_size rec)).
  { apply evictAll_done. proj_simpl. rewrite Hsz. lia. }
  destruct (lru_order rec) as [|x o] eqn:Eo; [cbn in Hl; lia|]. assert (x ≠ k).
  { intros ->. assert (is_Some (lru_sessions rec !! k)) as [? ?]; [|congruence]. apply Hd. by left. }
  proj_simpl. rewrite length_app Nat.add_1_r. cbn [evictAll]. rewrite {1}/evict. proj_simpl.
  rewrite Eo. cbn [app]. rewrite Hsz. destruct (Z.ltb_spec (lru_size rec) (Z.of_nat (S (size (lru_sessions rec))))); [|lia].
  rewrite evictAll_done.
  - proj_simpl. rewrite map_size_delete lookup_insert_ne // Hsz. assert (is_Some (lru_sessions rec !! x)) as [? ->] by (apply Hd; by left). cbn. lia.
  - destruct rec as [sz od ss]. cbn in *. subst od. rewrite /upd /=. f_equal. by rewrite delete_insert_ne.
Qed.

Lemma added_wf rec k s : lru_wf rec → lru_sessions rec !! k = None → se_ClientID s = k → session_ok s → lru_wf (added rec k s).
Proof.
  intros Hw Hk Hc Hok. pose proof (lru_length rec Hw) as Hl. destruct Hw as [Hs Hn Hd Hf Hks]. rewrite /added.
  assert (k ∉ lru_order rec) as Hkin. { rewrite Hd Hk. by intros [? ?]. }
  destruct (Z.ltb_spec (Z.of_nat (size (lru_sessions rec))) (lru_size rec)).
  - constructor; proj_simpl; try done.
    + apply NoDup_app. split_and!; [done| |apply NoDup_singleton]. intros x Hx ->%list_elem_of_singleton. done.
    + intros x. rewrite elem_of_app list_elem_of_singleton Hd lookup_insert_is_Some. destruct (decide (k = x)); naive_solver.
    + rewrite map_size_insert Hk. lia.
    + by apply map_Forall_insert_2.
  - destruct (lru_order rec) as [|x o] eqn:Eo; [cbn in Hl; lia|]. apply not_elem_of_cons in Hkin as [Hkx Hko].
    apply NoDup_cons in Hn as [Hx Hn]. constructor; proj_simpl; try done.
    + apply NoDup_app. split_and!; [done| |apply NoDup_singleton]. intros y Hy ->%list_elem_of_singleton. done.
    + intros y. rewrite elem_of_app list_elem_of_singleton lookup_insert_is_Some lookup_delete_is_Some -Hd elem_of_cons.
      destruct (decide (k = y)), (decide (x = y)); naive_solver.
    + rewrite map_size_insert lookup_delete_ne // Hk map_size_delete. assert (is_Some (lru_sessions rec !! x)) as [? ->] by (apply Hd; by left).
      cbn in Hl. cbn. lia.
    + by apply map_Forall_insert_2, map_Forall_delete.
Qed.
Lemma addSession_wf rec k s : lru_wf rec → se_ClientID s = k → session_ok s → lru_wf (addSession rec k s).
Proof.
  intros Hw Hc Hs. destruct (lru_sessions rec !! k) eqn:E.
  - rewrite /addSession E. apply (putSession_wf (rec <| lru_order ::= touch k |>)); [by apply touch_wf|by proj_simpl; eauto|done|done].
  - rewrite addSession_new //. by apply added_wf.
Qed.

Lemma newSession_ok k : in_u64 k → session_ok (newSession k).
Proof. intros Hk. constructor; cbn; [done|zlia|apply map_Forall_empty]. Qed.

Lemma ClientRegistered_get rec k : lru_wf rec → ClientRegistered rec k = Some (getSession rec k).
Proof.
  intros Hw. rewrite /ClientRegistered /getSession. destruct (lru_sessions rec !! k) as [s|] eqn:E; [|done].
  destruct (lw_keys _ Hw k s E) as [-> _]. by rewrite Z.eqb_refl.
Qed.

(** Registering and unregistering never panic, keep the invariant, and answer with the
    client id exactly when they change the set of registered clients. *)
Lemma RegisterClientID_spec rec k : lru_wf rec → in_u64 k →
  ∃ rec' r, RegisterClientID rec k = Some (rec', r) ∧ lru_wf rec' ∧
    (if decide (is_Some (lru_sessions rec !! k)) then r = noResult ∧ lru_sessions rec' = lru_sessions rec
     else res_Value r = k ∧ lru_sessions rec' = lru_sessions (added rec k (newSession k))).
Proof.
  intros Hw Hk. rewrite /RegisterClientID ClientRegistered_get //. pose proof (getSession_wf rec k Hw) as Hg. revert Hg.
  rewrite /getSession. destruct (lru_sessions rec !! k) as [s|] eqn:E; intros Hg; cbn [mbind option_bind].
  - do 2 eexists. split_and!; [done|done|]. done.
  - do 2 eexists. split_and!; [done|apply addSession_wf; [done|done|by apply newSession_ok]|].
    split; [by proj_simpl|]. by rewrite addSession_new.
Qed.
Lemma UnregisterClientID_spec rec k : lru_wf rec →
  ∃ rec' r, UnregisterClientID rec k = Some (rec', r) ∧ lru_wf rec' ∧ lru_sessions rec' = delete k (lru_sessions rec) ∧
    res_Value r = if decide (is_Some (lru_sessions rec !! k)) then k else 0.
Proof.
  intros Hw. rewrite /UnregisterClientID ClientRegistered_get //. pose proof (getSession_wf rec k Hw) as Hg. revert Hg.
  rewrite /getSession. destruct (lru_sessions rec !! k) as [s|] eqn:E; intros Hg; cbn [mbind option_bind].
  - do 2 eexists. split_and!; [done|by apply delSession_wf| |done]. rewrite /delSession. proj_simpl. by rewrite E.
  - do 2 eexists. split_and!; [done|done| |done]. by rewrite delete_id.
Qed.

(** [clearTo], whichever way it takes, forgets exactly the confirmed results. *)
Lemma clearTo_filter s to : session_ok s → in_u64 to →
  clearTo s to = if to <=? se_RespondedUpTo s then s
                 else s <| se_RespondedUpTo := to |> <| se_History := filter (λ p, to < p.1) (se_History s) |>.
Proof.
  intros [Hc Hr Hh] Hto. rewrite /clearTo. destruct (Z.leb_spec to (se_RespondedUpTo s)) as [|Hlt]; [done|].
  rewrite u64_small; [zlia|]. destruct (Z.eqb_spec to (se_RespondedUpTo s + 1)) as [E|]; [|done].
  destruct s as [c u h]. cbn in *. rewrite /upd /=. f_equal. apply map_eq. intros k. apply option_eq. intros r.
  rewrite lookup_delete_Some map_lookup_filter_Some /=. split; intros [? ?]; [|split; [lia|done]].
  destruct (Hh k r) as (_ & _ & ?); [done|]. split; [done|lia].
Qed.
Lemma clearTo_ok s to : session_ok s → in_u64 to → session_ok (clearTo s to).
Proof.
  intros Hs Hto. rewrite clearTo_filter //. destruct (Z.leb_spec to (se_RespondedUpTo s)); [done|].
  destruct Hs as [Hc Hr Hh]. constructor; proj_simpl; try done. intros k r (Hk & ?)%map_lookup_filter_Some. by destruct (Hh k r Hk) as (? & ? & _).
Qed.
End cache.

(** ** Saving and loading the cache *)
Section snapshots.
Implicit Types (rec : lrusession) (s : Session).

(** The sessions of the cache from the least recently used one on. *)
Definition listed rec (ids : list Z) : list Session := omap (λ k, lru_sessions rec !! k) ids.

Lemma save_from rec ids done :
  NoDup (ids ++ done) → lru_order rec = ids ++ done → Forall (λ k, is_Some (lru_sessions rec !! k)) ids →
  saveSessionsFrom rec ids = Some (rec <| lru_order := done ++ ids |>, concat (saveSession <$> listed rec ids)).
Proof.
  intros Hn Ho Hids. revert rec done Hn Ho Hids. induction ids as [|k ids IH]; intros rec done Hn Ho Hids.
  { cbn [app] in Ho. destruct rec. cbn in Ho |- *. subst. by rewrite /upd /= app_nil_r. }
  apply Forall_cons in Hids as [[s Hk] Hids]. cbn [saveSessionsFrom]. rewrite /getSession Hk. cbn [mbind option_bind].
  rewrite (IH _ (done ++ [k])); proj_simpl.
  - cbn [app] in Hn. rewrite app_assoc. rewrite (Permutation_app_comm _ [k]). done.
  - by rewrite Ho touch_head // -app_assoc.
  - done.
  - cbn [mbind option_bind]. rewrite /listed. cbn [omap list_omap]. rewrite Hk. cbn [fmap list_fmap concat]. rewrite -app_assoc. done.
Qed.

Lemma saveLRU_spec rec : lru_wf rec →
  saveLRU rec = Some (rec, PutUint64 (lru_size rec) ++ PutUint64 (Z.of_nat (length (lru_order rec))) ++
                           concat (saveSession <$> listed rec (lru_order rec))).
Proof.
  intros [Hs Hn Hd Hf Hk]. rewrite /saveLRU (save_from rec _ []); rewrite ?app_nil_r //.
  - apply Forall_forall. intros k. apply Hd.
  - cbn [mbind option_bind]. destruct rec. done.
Qed.

Lemma load_from fuel (ss : list Session) rest :
  (length ss ≤ fuel)%nat → Forall (λ s, session_ok s ∧ in_u64 (Z.of_nat (length (MarshalSession s)))) ss →
  loadSessionsFrom fuel V2 (Z.of_nat (length ss)) (concat (saveSession <$> ss) ++ rest) = Some (Ok (ss, rest)).
Proof.
  intros Hf Hss. revert fuel Hf. induction Hss as [|s ss [Hs Hl] Hss IH]; intros fuel Hf; [by destruct fuel|].
  destruct fuel as [|fuel]; [cbn in Hf; lia|]. cbn [fmap list_fmap concat]. cbn [loadSessionsFrom].
  destruct (Z.eqb_spec (Z.of_nat (length (s :: ss))) 0); [cbn in *; lia|].
  rewrite -app_assoc recover_save //. cbn [mbind option_bind].
  replace (Z.of_nat (length (s :: ss)) - 1) with (Z.of_nat (length ss)) by (cbn; lia). rewrite IH; [cbn in Hf; lia|done].
Qed.

(** Adding the sessions to a cache that has room puts them in the list in order. *)
Lemma add_listed rec ss :
  lru_wf rec → NoDup (lru_order rec ++ (se_ClientID <$> ss)) → Forall session_ok ss →
  Z.of_nat (length (lru_order rec ++ (se_ClientID <$> ss))) ≤ lru_size rec →
  foldl (λ rec s, addSession rec (se_ClientID s) s) rec ss =
    rec <| lru_order ::= λ o, o ++ (se_ClientID <$> ss) |>
        <| lru_sessions ::= λ m, list_to_map (reverse ((λ s, (se_ClientID s, s)) <$> ss)) ∪ m |>.
Proof.
  intros Hw Hn Hss Hl. revert rec Hw Hn Hl. induction Hss as [|s ss Hs Hss IH]; intros rec Hw Hn Hl.
  { destruct rec. rewrite /upd /= app_nil_r left_id_L. done. }
  cbn [foldl]. rewrite fmap_cons in Hn, Hl |- *.
  assert (lru_sessions rec !! se_ClientID s = None) as Hnone.
  { destruct (lru_sessions rec !! se_ClientID s) eqn:E; [|done]. apply NoDup_app in Hn as (_ & Hd & _). exfalso.
    eapply (Hd (se_ClientID s)); [apply (lw_dom _ Hw); eauto|by left]. }
  assert (addSession rec (se_ClientID s) s = rec <| lru_order ::= λ o, o ++ [se_ClientID s] |> <| lru_sessions ::= <[se_ClientID s := s]> |>) as E.
  { rewrite addSession_new // /added. pose proof (lru_length rec Hw). rewrite length_app /= in Hl.
    by destruct (Z.ltb_spec (Z.of_nat (size (lru_sessions rec))) (lru_size rec)); [|lia]. }
  rewrite IH.
  - by apply addSession_wf.
  - rewrite E. proj_simpl. by rewrite -app_assoc.
  - rewrite E. proj_simpl. by rewrite -app_assoc.
  - rewrite E. destruct rec as [sz od m]. rewrite /upd /= -app_assoc reverse_cons list_to_map_app. f_equal.
    rewrite -map_union_assoc. f_equal. by rewrite -insert_union_l left_id_L.
Qed.
End snapshots.

Section round_trip.
Implicit Types (rec : lrusession) (s : Session).

Lemma listed_ids rec ids :
  map_Forall (λ k s, se_ClientID s = k ∧ session_ok s) (lru_sessions rec) → Forall (λ k, is_Some (lru_sessions rec !! k)) ids →
  se_ClientID <$> listed rec ids = ids ∧ Forall session_ok (listed rec ids) ∧
  ((λ s, (se_ClientID s, s)) <$> listed rec ids).*1 = ids.
Proof.
  intros Hk. induction 1 as [|k ids [s Hs] Hids (IH1 & IH2 & IH3)]; [done|]. rewrite /listed. cbn [omap list_omap]. rewrite Hs.
  destruct (Hk k s Hs) as [<- Hok]. rewrite !fmap_cons. cbn [fst]. rewrite /listed in IH1, IH2, IH3. by rewrite IH1 IH3; split_and!; [|constructor|].
Qed.

Lemma listed_map rec : lru_wf rec → list_to_map (reverse ((λ s, (se_ClientID s, s)) <$> listed rec (lru_order rec))) = lru_sessions rec.
Proof.
  intros Hw. destruct (listed_ids rec (lru_order rec)) as (Hids & _ & H1); [apply Hw|apply Forall_forall; intros k; apply Hw|].
  apply map_eq. intros k. apply option_eq. intros s. rewrite -elem_of_list_to_map.
  - rewrite fmap_reverse reverse_Permutation H1. apply Hw.
  - rewrite elem_of_reverse list_elem_of_fmap. rewrite /listed. setoid_rewrite list_elem_of_omap. split.
    + intros (s' & [= -> ->] & k' & Hk' & E). by destruct (lw_keys _ Hw _ _ E) as [<- _] in E.
    + intros E. destruct (lw_keys _ Hw _ _ E) as [Hc _]. exists s. split; [by rewrite Hc|]. exists k. split; [apply (lw_dom _ Hw); eauto|done].
Qed.

Lemma saved_length (ss : list Session) : (length ss ≤ length (concat (saveSession <$> ss)))%nat.
Proof.
  induction ss as [|s ss IH]; [done|]. rewrite fmap_cons. cbn [concat length]. rewrite length_app {1}/saveSession length_app length_le_bytes. lia.
Qed.

Lemma loadLRU_spec size (ss : list Session) rec0 rest :
  in_u64 size ∧ 0 < size → in_u64 (Z.of_nat (length ss)) →
  Forall (λ s, session_ok s ∧ in_u64 (Z.of_nat (length (MarshalSession s)))) ss →
  loadLRU rec0 V2 (PutUint64 size ++ PutUint64 (Z.of_nat (length ss)) ++ concat (saveSession <$> ss) ++ rest) =
    Some (foldl (λ rec s, addSession rec (se_ClientID s) s) {| lru_size := size; lru_order := []; lru_sessions := ∅ |} ss, Ok rest).
Proof.
  intros [Hs Hpos] Hn Hss. rewrite /loadLRU ReadFull_PutUint64 ReadFull_PutUint64 !le_val_PutUint64 // load_from //.
  - rewrite length_app. pose proof (saved_length ss). lia.
  - cbn [mbind option_bind]. rewrite /newLRUSession. by destruct (Z.eqb_spec size 0); [lia|].
Qed.

Lemma saved_loads rec :
  lru_wf rec → map_Forall (λ _ s, in_u64 (Z.of_nat (length (MarshalSession s)))) (lru_sessions rec) →
  ∃ out, saveLRU rec = Some (rec, out) ∧ ∀ rec0 rest, loadLRU rec0 V2 (out ++ rest) = Some (rec, Ok rest).
Proof.
  intros Hw Hfits. rewrite saveLRU_spec //. eexists. split; [done|]. intros rec0 rest. rewrite -!app_assoc.
  destruct (listed_ids rec (lru_order rec)) as (Hids & Hok & _); [apply Hw|apply Forall_forall; intros k; apply Hw|].
  assert (length (lru_order rec) = length (listed rec (lru_order rec))) as Hl by (by rewrite -{1}Hids length_fmap).
  pose proof (lru_length rec Hw) as Hsz. pose proof (listed_map rec Hw) as Hmap. pose proof (lw_size _ Hw) as [Hs Hpos].
  pose proof (lw_full _ Hw) as Hfull. rewrite Hl loadLRU_spec; [done|zlia| |].
  - apply Forall_forall. intros s Hin. split; [by eapply Forall_forall in Hok|].
    apply list_elem_of_omap in Hin as (k & _ & E). by apply (Hfits k).
  - do 2 f_equal. rewrite add_listed; cbn [lru_order lru_size app]; [|by rewrite Hids; apply Hw|done|rewrite length_fmap; lia|].
    + by apply empty_lru_wf.
    + destruct rec as [sz od m]. rewrite /upd /= right_id_L. cbn [lru_order lru_sessions] in Hids, Hmap. by rewrite Hids Hmap.
Qed.

(** Saving the session cache neither fails nor changes it, and loading what was
    saved gives the same cache: every session with its unconfirmed results, the
    capacity, and the order in which sessions are evicted. *)
Theorem sessions_survive rec :
  lru_wf rec → map_Forall (λ _ s, in_u64 (Z.of_nat (length (MarshalSession s)))) (lru_sessions rec) →
  ∃ out, saveLRU rec = Some (rec, out) ∧ ∀ rec0 rest, loadLRU rec0 V2 (out ++ rest) = Some (rec, Ok rest).
Proof. apply saved_loads. Qed.
End round_trip.

(** A client with a result it has not confirmed, and one without. *)
Definition demo_cache : lrusession :=
  {| lru_size := 4096; lru_order := [9; 7];
     lru_sessions := <[7 := {| se_ClientID := 7; se_RespondedUpTo := 3; se_History := <[4 := {| res_Value := 1; res_Data := Some (lit "ok") |}]> ∅ |}]>
                     (<[9 := newSession 9]> ∅) |}.
Lemma demo_cache_wf : lru_wf demo_cache.
Proof.
  constructor; cbn [demo_cache lru_size lru_order lru_sessions]; [split; zlia|apply (bool_decide_unpack _); by vm_compute| |by vm_compute|].
  - intros k. rewrite !elem_of_cons elem_of_nil !lookup_insert_is_Some lookup_empty.
    destruct (decide (7 = k)), (decide (9 = k)); split; naive_solver eauto using is_Some_None.
  - apply map_Forall_insert_2; [|apply map_Forall_insert_2; [|apply map_Forall_empty]].
    + split; [done|]. constructor; cbn; [zlia|zlia|]. apply map_Forall_insert_2; [cbn; split_and!; zlia|apply map_Forall_empty].
    + split; [done|]. apply newSession_ok. zlia.
Qed.
Lemma sessions_survive_witness : ∃ out, saveLRU demo_cache = Some (demo_cache, out) ∧ ∀ rec0 rest, loadLRU rec0 V2 (out ++ rest) = Some (demo_cache, Ok rest).
Proof. apply sessions_survive; [apply demo_cache_wf|]. apply (bool_decide_unpack _). by vm_compute. Defined.
