(* ===== verification/RsmMachine.v ===== *)
(** * Managed state machines

    internal/dragonboat/internal/rsm: encoded.go, adapter.go, managed.go, offload.go
    and taskqueue.go, with the predicates of raftpb/raft.go that tell the kinds of
    entries apart (client/session.go has the reserved numbers).

    [None] is a panic.  What a user's state machine does is an argument: [UserSM],
    [UserConcurrentSM] and [UserOnDiskSM] are the interfaces of the package
    statemachine, [E] the errors and [X] the snapshot contexts of the user.  A machine
    writes its snapshot to a writer and is handed the rest of a reader: both are byte
    strings here.  External files of a snapshot are not modelled. *)
From S2P Require Import Prelude GoStrings Wire Raftpb GoJson RsmSession.
From Stdlib Require Import Ascii.

Local Open Scope Z_scope.

(** ** client/session.go *)
Definition NotSessionManagedClientID : Z := 0.
Definition NoOPSeriesID : Z := 0.
Definition SeriesIDForRegister : Z := 2 ^ 64 - 1 - 1.
Definition SeriesIDForUnregister : Z := 2 ^ 64 - 1.
Definition SeriesIDFirstProposal : Z := 1.

(** ** Kinds of entries, raftpb/raft.go *)
Section entries.
Implicit Types (e : Entry).

Definition IsConfigChange e : bool := bool_decide (e_Type e = ConfigChangeEntry).
Definition IsSessionManaged e : bool :=
  if IsConfigChange e then false else if e_ClientID e =? NotSessionManagedClientID then false else true.
Definition IsEmpty e : bool :=
  if IsConfigChange e then false else if IsSessionManaged e then false else bool_decide (e_Cmd e = []).
Definition IsNoOPSession e : bool := e_SeriesID e =? NoOPSeriesID.
Definition IsNewSessionRequest e : bool :=
  negb (IsConfigChange e) && bool_decide (e_Cmd e = []) && negb (e_ClientID e =? NotSessionManagedClientID) &&
  (e_SeriesID e =? SeriesIDForRegister).
Definition IsEndOfSessionRequest e : bool :=
  negb (IsConfigChange e) && bool_decide (e_Cmd e = []) && negb (e_ClientID e =? NotSessionManagedClientID) &&
  (e_SeriesID e =? SeriesIDForUnregister).
Definition IsUpdateEntry e : bool :=
  negb (IsConfigChange e) && IsSessionManaged e && negb (IsNewSessionRequest e) && negb (IsEndOfSessionRequest e).
Definition IsProposal e : bool :=
  bool_decide (e_Type e = ApplicationEntry) || bool_decide (e_Type e = EncodedEntry) || bool_decide (e_Type e = MetadataEntry).
End entries.

(** ** Payloads, encoded.go

    The Snappy block format comes from a library: a codec whose blocks begin with
    the length of the payload. *)
Class Snappy := {
  snappyEncode : bytes → bytes;
  snappyDecode : bytes → option bytes
}.

(** [binary.Uvarint]: the value and the number of bytes read, (0, 0) when the bytes
    end early and (0, -n) when the value does not fit 64 bits. *)
Fixpoint uvarintFrom (i x s : Z) (l : bytes) : Z * Z :=
  match l with
  | [] => (0, 0)
  | b :: l =>
      if i =? 10 then (0, - (i + 1))
      else if byte_val b <? 128 then
        if (i =? 9) && (1 <? byte_val b) then (0, - (i + 1))
        else (Z.lor x (u64 (Z.shiftl (byte_val b) s)), i + 1)
      else uvarintFrom (i + 1) (Z.lor x (u64 (Z.shiftl (Z.land (byte_val b) 127) s))) (s + 7) l
  end.
Definition Uvarint (l : bytes) : Z * Z := uvarintFrom 0 0 0 l.

Inductive CompressionType := NoCompression | SnappyCompression.
#[export] Instance CompressionType_eq_dec : EqDecision CompressionType.
Proof. solve_decision. Defined.

Definition EEV0 : Z := 0.
Definition EENoCompression : Z := 0.
Definition EESnappy : Z := 2.
Definition EENoSession : Z := 0.
Definition EEHasSession : Z := 1.

(** [dio.MaxBlockLen] *)
Definition MaxBlockLen (ct : CompressionType) : Z :=
  match ct with SnappyCompression => 6 * (4294967295 - 32) / 7 | NoCompression => 2 ^ 64 - 1 end.

Definition getEncodedHeader (version cf : Z) (session : bool) : Z :=
  Z.lor (Z.lor (Z.lor 0 version) cf) (if session then EEHasSession else EENoSession).
Definition parseEncodedHeader (cmd : bytes) : option (Z * Z * bool) :=
  header ← head cmd;
  let h := byte_val header in
  Some (Z.land h (Z.shiftl 15 4), Z.land h (Z.shiftl 7 1), Z.land h 1 =? 1).

Section payloads.
Context `{Snappy}.

Definition getEncoded (ct : CompressionType) (cmd : bytes) : option bytes :=
  match ct with
  | NoCompression => Some (byte (getEncodedHeader EEV0 EENoCompression false) :: cmd)
  | SnappyCompression =>
      if MaxBlockLen SnappyCompression <? Z.of_nat (length cmd) then None
      else Some (byte (getEncodedHeader EEV0 EESnappy false) :: snappyEncode cmd)
  end.
Definition GetEncoded (ct : CompressionType) (cmd : bytes) : option bytes :=
  if bool_decide (cmd = []) then None else getEncoded ct cmd.

Definition getDecodedPayload (cmd : bytes) : option bytes :=
  h ← parseEncodedHeader cmd;
  let '(ver, ct, hasSession) := (h : Z * Z * bool) in
  if negb (ver =? EEV0) then None
  else if hasSession then None
  else if ct =? EENoCompression then Some (drop 1 cmd)
  else if ct =? EESnappy then
    let '(sz, offset) := Uvarint (drop 1 cmd) in
    if sz =? 0 then None
    else if offset =? 0 then None
    else
      r ← snappyDecode (drop 1 cmd);
      if Z.of_nat (length r) =? sz then Some r else None
  else None.

Definition GetPayload (e : Entry) : option bytes :=
  if bool_decide (e_Type e = ApplicationEntry) || bool_decide (e_Type e = ConfigChangeEntry) then Some (e_Cmd e)
  else if bool_decide (e_Type e = EncodedEntry) then getDecodedPayload (e_Cmd e)
  else None.
End payloads.

(** ** Adapters, adapter.go *)
Record SmEntry := { sme_Index : Z; sme_Cmd : bytes; sme_Result : Result }.
#[export] Instance SmEntry_eta : Eta SmEntry := λ e, Build_SmEntry (sme_Index e) (sme_Cmd e) (sme_Result e).

(** Errors of the optional operations and of the lookups; [UserError] is what the
    user's machine returned. *)
Inductive SmError (E : Type) := ErrNotImplemented | ErrClusterClosed | UserError (e : E).
Arguments ErrNotImplemented {E}.
Arguments ErrClusterClosed {E}.
Arguments UserError {E} _.

Definition user {A E} (r : result A E) : result A (SmError E) := match r with Ok a => Ok a | Err e => Err (UserError e) end.

(** [Q] and [A] are the queries and answers of [Lookup]. *)
Record IStateMachine (M E X Q A : Type) := {
  ism_Open : M → option (M * result Z E);
  ism_Update : M → list SmEntry → option (M * result (list SmEntry) E);
  ism_Lookup : M → Q → option (result A (SmError E));
  ism_NALookup : M → bytes → option (result bytes (SmError E));
  ism_Sync : M → option (M * option E);
  ism_Prepare : M → option (M * result X E);
  ism_Save : M → option X → option (M * result bytes E);
  ism_Recover : M → bytes → option (M * option E);
  ism_GetHash : M → option (result Z (SmError E));
  ism_Concurrent : bool;
  ism_OnDisk : bool;
  ism_Type : Z
}.
Arguments ism_Open {M E X Q A} _.
Arguments ism_Update {M E X Q A} _.
Arguments ism_Lookup {M E X Q A} _.
Arguments ism_NALookup {M E X Q A} _.
Arguments ism_Sync {M E X Q A} _.
Arguments ism_Prepare {M E X Q A} _.
Arguments ism_Save {M E X Q A} _.
Arguments ism_Recover {M E X Q A} _.
Arguments ism_GetHash {M E X Q A} _.
Arguments ism_Concurrent {M E X Q A} _.
Arguments ism_OnDisk {M E X Q A} _.
Arguments ism_Type {M E X Q A} _.

(** What all machines of users have; the hash and the lookup over bytes are
    implemented or not. *)
Record UserReads (M E Q A : Type) := {
  us_Lookup : M → Q → result A E;
  us_h : option (M → result Z E);
  us_na : option (M → bytes → result bytes E);
  us_RecoverFromSnapshot : M → bytes → M * option E
}.
Arguments us_Lookup {M E Q A} _.
Arguments us_h {M E Q A} _.
Arguments us_na {M E Q A} _.
Arguments us_RecoverFromSnapshot {M E Q A} _.

Record UserSM (M E Q A : Type) := {
  usm_reads : UserReads M E Q A;
  usm_Update : M → bytes → M * result Result E;
  usm_SaveSnapshot : M → M * result bytes E
}.
Arguments usm_reads {M E Q A} _.
Arguments usm_Update {M E Q A} _.
Arguments usm_SaveSnapshot {M E Q A} _.

Record UserConcurrentSM (M E X Q A : Type) := {
  ucsm_reads : UserReads M E Q A;
  ucsm_Update : M → list SmEntry → M * result (list SmEntry) E;
  ucsm_PrepareSnapshot : M → M * result X E;
  ucsm_SaveSnapshot : M → option X → M * result bytes E
}.
Arguments ucsm_reads {M E X Q A} _.
Arguments ucsm_Update {M E X Q A} _.
Arguments ucsm_PrepareSnapshot {M E X Q A} _.
Arguments ucsm_SaveSnapshot {M E X Q A} _.

Record UserOnDiskSM (M E X Q A : Type) := {
  uodsm_machine : UserConcurrentSM M E X Q A;
  uodsm_Open : M → M * result Z E;
  uodsm_Sync : M → M * option E
}.
Arguments uodsm_machine {M E X Q A} _.
Arguments uodsm_Open {M E X Q A} _.
Arguments uodsm_Sync {M E X Q A} _.

Definition RegularStateMachine : Z := 1.
Definition ConcurrentStateMachineType : Z := 2.
Definition OnDiskStateMachineType : Z := 3.

Section adapters.
Context {M E X Q A : Type}.

Definition optional {B} (o : option (M → result B E)) (m : M) : result B (SmError E) :=
  match o with None => Err ErrNotImplemented | Some f => user (f m) end.
Definition naLookup (u : UserReads M E Q A) (m : M) (q : bytes) : result bytes (SmError E) :=
  match us_na u with None => Err ErrNotImplemented | Some f => user (f m q) end.

(** The entry's result is assigned before the error is looked at. *)
Definition NewInMemStateMachine (u : UserSM M E Q A) : IStateMachine M E X Q A := {|
  ism_Open _ := None;
  ism_Update m ents :=
    match ents with
    | [e] => let '(m, r) := usm_Update u m (sme_Cmd e) in
             Some (m, match r with Ok r => Ok [e <| sme_Result := r |>] | Err x => Err x end)
    | _ => None
    end;
  ism_Lookup m q := Some (user (us_Lookup (usm_reads u) m q));
  ism_NALookup m q := Some (naLookup (usm_reads u) m q);
  ism_Sync _ := None;
  ism_Prepare _ := None;
  ism_Save m ctx := match ctx with Some _ => None | None => Some (usm_SaveSnapshot u m) end;
  ism_Recover m r := Some (us_RecoverFromSnapshot (usm_reads u) m r);
  ism_GetHash m := Some (optional (us_h (usm_reads u)) m);
  ism_Concurrent := false; ism_OnDisk := false; ism_Type := RegularStateMachine |}.

Definition NewConcurrentStateMachine (u : UserConcurrentSM M E X Q A) : IStateMachine M E X Q A := {|
  ism_Open _ := None;
  ism_Update m ents := Some (ucsm_Update u m ents);
  ism_Lookup m q := Some (user (us_Lookup (ucsm_reads u) m q));
  ism_NALookup m q := Some (naLookup (ucsm_reads u) m q);
  ism_Sync _ := None;
  ism_Prepare m := Some (ucsm_PrepareSnapshot u m);
  ism_Save m ctx := Some (ucsm_SaveSnapshot u m ctx);
  ism_Recover m r := Some (us_RecoverFromSnapshot (ucsm_reads u) m r);
  ism_GetHash m := Some (optional (us_h (ucsm_reads u)) m);
  ism_Concurrent := true; ism_OnDisk := false; ism_Type := ConcurrentStateMachineType |}.

(** The flag says whether the machine was opened.  Unlike the other adapters this one
    calls [NALookup] without asking whether the machine has it. *)
Definition keep {B} (opened : bool) (r : M * B) : option ((M * bool) * B) := Some ((r.1, opened), r.2).
Definition ensureOpened {B} (m : M * bool) (f : M → M * B) : option ((M * bool) * B) :=
  if m.2 then keep true (f m.1) else None.
Definition NewOnDiskStateMachine (u : UserOnDiskSM M E X Q A) : IStateMachine (M * bool) E X Q A :=
  let c := uodsm_machine u in {|
  ism_Open (m : M * bool) := if m.2 then None else keep true (uodsm_Open u m.1);
  ism_Update (m : M * bool) ents := ensureOpened m (λ m, ucsm_Update c m ents);
  ism_Lookup (m : M * bool) q := if m.2 then Some (user (us_Lookup (ucsm_reads c) m.1 q)) else None;
  ism_NALookup (m : M * bool) q := if m.2 then f ← us_na (ucsm_reads c); Some (user (f m.1 q)) else None;
  ism_Sync (m : M * bool) := ensureOpened m (uodsm_Sync u);
  ism_Prepare (m : M * bool) := ensureOpened m (ucsm_PrepareSnapshot c);
  ism_Save (m : M * bool) ctx := ensureOpened m (λ m, ucsm_SaveSnapshot c m ctx);
  ism_Recover (m : M * bool) r := ensureOpened m (λ m, us_RecoverFromSnapshot (ucsm_reads c) m r);
  ism_GetHash (m : M * bool) := if m.2 then Some (optional (us_h (ucsm_reads c)) m.1) else None;
  ism_Concurrent := true; ism_OnDisk := true; ism_Type := OnDiskStateMachineType |}.
End adapters.

(** ** NativeSM, managed.go and offload.go *)
Record NativeSM (M : Type) := {
  ns_sm : M;
  ns_witness : bool;
  ns_loadedCount : Z;
  ns_destroyed : bool
}.
Arguments ns_sm {M} _.
Arguments ns_witness {M} _.
Arguments ns_loadedCount {M} _.
Arguments ns_destroyed {M} _.
Arguments Build_NativeSM {M} _ _ _ _.
#[export] Instance NativeSM_eta {M} : Eta (NativeSM M) := λ n,
  Build_NativeSM (ns_sm n) (ns_witness n) (ns_loadedCount n) (ns_destroyed n).

(** What a snapshot request asks for, from statemachine.go. *)
Inductive SSReqType := Periodic | UserRequested | Exported | Streaming.
#[export] Instance SSReqType_eq_dec : EqDecision SSReqType.
Proof. solve_decision. Defined.
Record SSRequest := {
  sq_Type : SSReqType;
  sq_Key : Z;
  sq_Path : string;
  sq_OverrideCompaction : bool;
  sq_CompactionOverhead : Z
}.
Definition isExported (r : SSRequest) : bool := bool_decide (sq_Type r = Exported).
Definition isStreaming (r : SSRequest) : bool := bool_decide (sq_Type r = Streaming).

Section native.
Context {M E X Q A : Type} (I : IStateMachine M E X Q A).
Implicit Types (n : NativeSM M).

Definition NewNativeSM (m : M) (witness : bool) : NativeSM M :=
  {| ns_sm := m; ns_witness := witness; ns_loadedCount := 0; ns_destroyed := false |}.

Definition lift {B} n (r : option (M * B)) : option (NativeSM M * B) := '(m, b) ← r; Some (n <| ns_sm := m |>, b).

Definition NativeOpen n : option (NativeSM M * result Z E) := lift n (ism_Open I (ns_sm n)).
Definition Offloaded n : NativeSM M * bool :=
  let n := n <| ns_loadedCount ::= λ c, u64 (c + (2 ^ 64 - 1)) |> in (n, ns_loadedCount n =? 0).
Definition Loaded n : NativeSM M := n <| ns_loadedCount ::= λ c, u64 (c + 1) |>.

(** [Close]; closing the channel a second time panics. *)
Definition NativeClose n (err : option E) : option (NativeSM M * option E) :=
  match err with
  | Some e => Some (n, Some e)
  | None => if ns_destroyed n then None else Some (n <| ns_destroyed := true |>, None)
  end.

Definition NativeUpdate n (e : SmEntry) : option (NativeSM M * result Result E) :=
  '(n, r) ← lift n (ism_Update I (ns_sm n) [e]);
  match r with
  | Err x => Some (n, Err x)
  | Ok [e] => Some (n, Ok (sme_Result e))
  | Ok _ => None
  end.
Definition BatchedUpdate n (ents : list SmEntry) : option (NativeSM M * result (list SmEntry) E) :=
  '(n, r) ← lift n (ism_Update I (ns_sm n) ents);
  match r with
  | Err x => Some (n, Err x)
  | Ok results => if bool_decide (length results = length ents) then Some (n, Ok results) else None
  end.

Definition NativeLookup n (q : Q) : option (result A (SmError E)) :=
  if ns_destroyed n then Some (Err ErrClusterClosed) else ism_Lookup I (ns_sm n) q.
Definition ConcurrentLookup n (q : Q) : option (result A (SmError E)) := ism_Lookup I (ns_sm n) q.
Definition NativeNALookup n (q : bytes) : option (result bytes (SmError E)) :=
  if ns_destroyed n then Some (Err ErrClusterClosed) else ism_NALookup I (ns_sm n) q.
Definition NAConcurrentLookup n (q : bytes) : option (result bytes (SmError E)) := ism_NALookup I (ns_sm n) q.
Definition NativeSync n : option (NativeSM M * option E) := lift n (ism_Sync I (ns_sm n)).
Definition NativePrepare n : option (NativeSM M * result X E) := lift n (ism_Prepare I (ns_sm n)).
Definition NativeGetHash n : option (result Z (SmError E)) := ism_GetHash I (ns_sm n).

(** [save]: the sessions, then what the machine writes. *)
Definition nativeSave n (ctx : option X) (session : bytes) : option (NativeSM M * result bytes E) :=
  '(n, r) ← lift n (ism_Save I (ns_sm n) ctx);
  Some (n, match r with Ok payload => Ok (session ++ payload) | Err e => Err e end).
Definition saveDummy n (session : bytes) : option bytes :=
  if negb (ns_witness n) && negb (ism_OnDisk I) then None else Some session.
Definition NativeSave n (req : SSRequest) (ctx : option X) (session : bytes) : option (NativeSM M * result (bool * bytes) E) :=
  if ns_witness n || (ism_OnDisk I && negb (isExported req)) then
    out ← saveDummy n session; Some (n, Ok (true, out))
  else
    '(n, r) ← nativeSave n ctx session;
    Some (n, match r with Ok out => Ok (false, out) | Err e => Err e end).

Definition NativeStream n (ctx : option X) : option (NativeSM M * result bytes E) := nativeSave n ctx GetEmptyLRUSession.
Definition NativeRecover n (r : bytes) : option (NativeSM M * option E) := lift n (ism_Recover I (ns_sm n) r).
End native.

(** ** Tasks and their queue, taskqueue.go *)
Record Task := {
  t_Index : Z;
  t_Recover : bool;
  t_Initial : bool;
  t_Save : bool;
  t_Stream : bool;
  t_PeriodicSync : bool;
  t_NewNode : bool;
  t_SSRequest : SSRequest;
  t_Entries : list Entry
}.
#[export] Instance Task_eta : Eta Task := λ t,
  Build_Task (t_Index t) (t_Recover t) (t_Initial t) (t_Save t) (t_Stream t) (t_PeriodicSync t) (t_NewNode t) (t_SSRequest t) (t_Entries t).
Definition noSSRequest : SSRequest :=
  {| sq_Type := Periodic; sq_Key := 0; sq_Path := ""; sq_OverrideCompaction := false; sq_CompactionOverhead := 0 |}.
Definition emptyTask : Task :=
  {| t_Index := 0; t_Recover := false; t_Initial := false; t_Save := false; t_Stream := false; t_PeriodicSync := false;
     t_NewNode := false; t_SSRequest := noSSRequest; t_Entries := [] |}.

Definition IsSnapshotTask (t : Task) : bool := t_Recover t || t_Save t || t_Stream t.
(** [None] is the panic on a task that is both. *)
Definition isSyncTask (t : Task) : option bool :=
  if t_PeriodicSync t && IsSnapshotTask t then None else Some (t_PeriodicSync t).

Definition initialTaskQueueCap : Z := 24.
Definition taskQueueBusyCap : Z := 64.

Record TaskQueue := { tq_tasks : list Task; tq_next : Z; tq_cap : Z }.
#[export] Instance TaskQueue_eta : Eta TaskQueue := λ q, Build_TaskQueue (tq_tasks q) (tq_next q) (tq_cap q).
Definition NewTaskQueue : TaskQueue := {| tq_tasks := []; tq_next := 0; tq_cap := initialTaskQueueCap |}.

Section queue.
(** The capacity the runtime gives a slice that is full. *)
Context (grow : Z → Z).
Implicit Types (q : TaskQueue).

Definition queueSize q : Z := u64 (Z.of_nat (length (tq_tasks q)) - tq_next q).
Definition MoreEntryToApply q : bool := queueSize q <? taskQueueBusyCap.
Definition TaskChanBusy q : bool := taskQueueBusyCap <? u64 (queueSize q * 2).

Definition Add q (t : Task) : TaskQueue :=
  q <| tq_tasks ::= λ l, l ++ [t] |>
    <| tq_cap ::= λ c, if c <? Z.of_nat (length (tq_tasks q)) + 1 then grow c else c |>.
Definition GetAll q : TaskQueue * list Task := (NewTaskQueue, tq_tasks q).

Definition resize q : TaskQueue :=
  if initialTaskQueueCap * 2 <? tq_cap q then
    if queueSize q <? initialTaskQueueCap then
      {| tq_tasks := drop (Z.to_nat (tq_next q)) (tq_tasks q); tq_next := 0; tq_cap := queueSize q |}
    else q
  else q.

Definition Get q : TaskQueue * option Task :=
  if tq_next q <? Z.of_nat (length (tq_tasks q)) then
    let t := default emptyTask (tq_tasks q !! Z.to_nat (tq_next q)) in
    (resize (q <| tq_tasks ::= <[Z.to_nat (tq_next q) := emptyTask]> |> <| tq_next ::= λ n, u64 (n + 1) |>), Some t)
  else (resize q, None).
End queue.

(** ** The queue is first in, first out *)
Definition pending (q : TaskQueue) : list Task := drop (Z.to_nat (tq_next q)) (tq_tasks q).
Definition queue_wf (q : TaskQueue) : Prop := 0 ≤ tq_next q ≤ Z.of_nat (length (tq_tasks q)) ∧ Z.of_nat (length (tq_tasks q)) < 2 ^ 63.

Section fifo.
Implicit Types (q : TaskQueue).

Lemma queueSize_pending q : queue_wf q → queueSize q = Z.of_nat (length (pending q)).
Proof. rewrite /queue_wf /queueSize /pending length_drop. intros Hq. rewrite u64_small; zlia. Qed.
Lemma resize_pending q : queue_wf q → queue_wf (resize q) ∧ pending (resize q) = pending q.
Proof.
  intros Hq. rewrite /resize. destruct (_ <? tq_cap q); [|done]. destruct (queueSize q <? _); [|done].
  rewrite /queue_wf /pending. cbn [tq_next tq_tasks]. rewrite drop_0. split; [|done]. rewrite length_drop. rewrite /queue_wf in Hq. lia.
Qed.
Lemma Add_pending grow q t : queue_wf q → Z.of_nat (length (tq_tasks q)) + 1 < 2 ^ 63 → queue_wf (Add grow q t) ∧ pending (Add grow q t) = pending q ++ [t].
Proof.
  rewrite /queue_wf /pending /Add. proj_simpl. intros Hq Hl. rewrite length_app. cbn [length]. split; [lia|]. rewrite drop_app_le //. lia.
Qed.
Lemma Get_pending q : queue_wf q →
  ∃ q', Get q = (q', head (pending q)) ∧ queue_wf q' ∧ pending q' = tail (pending q).
Proof.
  intros Hq. pose proof Hq as Hq'. rewrite /queue_wf in Hq'. rewrite /Get. destruct (Z.ltb_spec (tq_next q) (Z.of_nat (length (tq_tasks q)))) as [Hlt|Hge].
  - destruct (lookup_lt_is_Some_2 (tq_tasks q) (Z.to_nat (tq_next q))) as [t Ht]; [lia|]. rewrite Ht. cbn [default].
    set (q1 := q <| tq_tasks ::= _ |> <| tq_next ::= _ |>). assert (pending q = t :: drop (S (Z.to_nat (tq_next q))) (tq_tasks q)) as Hp by (by apply drop_S).
    assert (queue_wf q1) as Hw1 by (rewrite /queue_wf /q1; proj_simpl; rewrite length_insert u64_small; zlia).
    destruct (resize_pending q1 Hw1) as [Hw Hp1]. exists (resize q1). rewrite Hp. split_and!; [done|done|]. rewrite Hp1 /pending /q1. proj_simpl.
    rewrite u64_small; [zlia|]. replace (Z.to_nat (tq_next q + 1)) with (S (Z.to_nat (tq_next q))) by lia. cbn [tail]. rewrite drop_insert_lt //. lia.
  - assert (pending q = []) as Hp by (rewrite /pending drop_ge //; lia). destruct (resize_pending q Hq) as [Hw Hp1]. exists (resize q). rewrite Hp. split_and!; [done|done|].
    by rewrite Hp1 Hp.
Qed.
End fifo.
