(* ===== verification/SnapshotIo.v ===== *)
(** * Snapshot files

    internal/dragonboat/internal/rsm: rwv.go and snapshotio.go.  A snapshot file is a
    header of 1024 bytes, the payload in blocks that each end with a checksum, and a
    tail with the length of the blocks and a magic number.  Modelled are the block
    writer and reader, the header, the validators of received chunks and the shrunk
    form of a file.

    A [hash.Hash] is the bytes written to it since it was reset; its sum is computed
    by [crc32], the CRC of hash/crc32.  A file is its contents; writing and reading a
    file as such do not fail here, what comes after a block writer is a sink that may.
    [None] is a panic. *)
From S2P Require Import Prelude GoStrings Wire GoJson RsmSession.
From Stdlib Require Import Ascii.

Local Open Scope Z_scope.

(** ** hash/crc32 with the IEEE polynomial *)
Definition crcBit (c : Z) : Z := if Z.odd c then Z.lxor (Z.shiftr c 1) 3988292384 else Z.shiftr c 1.
Definition crcByte (c : Z) (b : ascii) : Z := Nat.iter 8 crcBit (Z.lxor c (byte_val b)).
Definition crc32 (l : bytes) : Z := Z.lxor (foldl crcByte 4294967295 l) 4294967295.

(** [Sum(nil)]: the checksum in four bytes, the most significant first. *)
Definition Sum (l : bytes) : bytes := reverse (le_bytes 4 (crc32 l)).

(** ** Sizes and magic numbers *)
Definition HeaderSize : Z := 1024.
Definition tailSize : Z := 16.
Definition checksumSize : Z := 4.
Definition snapshotBlockSize : Z := 2 * 1024 * 1024.
Definition writerMagicNumber : bytes := byte <$> [63; 91; 203; 241; 250; 186; 129; 159].

Definition zeros (n : nat) : bytes := replicate n (byte 0).

(** [block[:len-4]] and [block[len-4:]] agree. *)
Definition validateBlock (block : bytes) : bool :=
  let n := (length block - Z.to_nat checksumSize)%nat in
  if Z.of_nat (length block) <=? checksumSize then false
  else bool_decide (drop n block = Sum (take n block)).

(** [getChecksumedBlockSize]; the quotient is rounded up in floating point, exact for
    the sizes files have. *)
Definition getChecksumedBlockSize (sz blockSize : Z) : Z :=
  u64 (u64 ((sz + blockSize - 1) / blockSize * checksumSize) + sz).
Definition getV2PayloadSize (sz blockSize : Z) : Z := u64 (getChecksumedBlockSize sz blockSize + tailSize).

(** ** Block writer *)
Record BlockWriter (S : Type) := {
  bw_h : bytes;
  bw_fh : bytes;
  bw_block : bytes;
  bw_sink : S;
  bw_nextStop : Z;
  bw_written : Z;
  bw_total : Z;
  bw_flushed : bool
}.
Arguments bw_h {S} _.
Arguments bw_fh {S} _.
Arguments bw_block {S} _.
Arguments bw_sink {S} _.
Arguments bw_nextStop {S} _.
Arguments bw_written {S} _.
Arguments bw_total {S} _.
Arguments bw_flushed {S} _.
Arguments Build_BlockWriter {S} _ _ _ _ _ _ _ _.
#[export] Instance BlockWriter_eta {S} : Eta (BlockWriter S) := λ b,
  Build_BlockWriter (bw_h b) (bw_fh b) (bw_block b) (bw_sink b) (bw_nextStop b) (bw_written b) (bw_total b) (bw_flushed b).

Section writer.
Context {S Er : Type} (blockSize : Z) (onNewBlock : S → bytes → bytes → S * option Er).
Implicit Types (bw : BlockWriter S).

Definition newBlockWriter (s : S) : BlockWriter S :=
  {| bw_h := []; bw_fh := []; bw_block := []; bw_sink := s; bw_nextStop := blockSize; bw_written := 0; bw_total := 0;
     bw_flushed := false |}.

Definition processNewBlock bw (data crc : bytes) : BlockWriter S * option Er :=
  let '(s, err) := onNewBlock (bw_sink bw) data crc in
  (bw <| bw_fh ::= λ h, h ++ crc |> <| bw_sink := s |>, err).

(** A round of the loop of [Write] takes at least one byte. *)
Fixpoint writeLoop (fuel : nat) bw (bs : bytes) (totalN : Z) : BlockWriter S * Z * option Er :=
  match fuel, bs with
  | _, [] | O, _ => (bw, totalN, None)
  | Datatypes.S fuel, _ =>
      let l := Z.min (u64 (bw_nextStop bw - bw_written bw)) (Z.of_nat (length bs)) in
      let data := take (Z.to_nat l) bs in
      let bw := bw <| bw_block ::= λ b, b ++ data |> <| bw_h ::= λ h, h ++ data |> <| bw_written ::= λ w, u64 (w + l) |> in
      let rest := drop (Z.to_nat l) bs in
      if bw_written bw =? bw_nextStop bw then
        let bw := bw <| bw_total ::= λ t, u64 (t + u64 (Z.of_nat (length (bw_block bw)) + checksumSize)) |> in
        let '(bw, err) := processNewBlock bw (bw_block bw) (Sum (bw_h bw)) in
        match err with
        | Some e => (bw, totalN, Some e)
        | None =>
            let bw := bw <| bw_nextStop ::= λ n, u64 (n + blockSize) |> <| bw_h := [] |> <| bw_block := [] |> in
            writeLoop fuel bw rest (u64 (totalN + l))
        end
      else writeLoop fuel bw rest (u64 (totalN + l))
  end.
Definition BlockWrite bw (bs : bytes) : option (BlockWriter S * Z * option Er) :=
  if bw_flushed bw then None else Some (writeLoop (length bs) bw bs 0).

Definition BlockClose bw : option (BlockWriter S * option Er) :=
  if bw_flushed bw then None
  else
    let bw := bw <| bw_flushed := true |> in
    let '(bw, err) :=
      if bool_decide (bw_block bw = []) then (bw, None)
      else
        let bw := bw <| bw_total ::= λ t, u64 (t + u64 (Z.of_nat (length (bw_block bw)) + checksumSize)) |> in
        processNewBlock bw (bw_block bw) (Sum (bw_h bw)) in
    match err with
    | Some e => Some (bw, Some e)
    | None => Some (processNewBlock bw (PutUint64 (bw_total bw) ++ writerMagicNumber) [])
    end.

Definition GetPayloadChecksum bw : option bytes := if bw_flushed bw then Some (Sum (bw_fh bw)) else None.

(** What a user of the writer does: a number of writes, then close. *)
Fixpoint writeAll bw (ws : list bytes) : option (BlockWriter S * option Er) :=
  match ws with
  | [] => BlockClose bw
  | w :: ws =>
      r ← BlockWrite bw w;
      let '(bw, _, err) := (r : BlockWriter S * Z * option Er) in
      match err with Some e => Some (bw, Some e) | None => writeAll bw ws end
  end.
End writer.

(** The sink of [newV2Writer] appends to a file. *)
Definition onBlock (file : bytes) (data crc : bytes) : bytes * option Empty_set := (file ++ data ++ crc, None).

(** ** Block reader *)
Definition CRC32IEEE : Z := 0.

Record blockReader := { br_r : bytes; br_t : Z; br_block : bytes }.
#[export] Instance blockReader_eta : Eta blockReader := λ b, Build_blockReader (br_r b) (br_t b) (br_block b).

Section reader.
Context (blockSize : Z).
Implicit Types (br : blockReader).

Definition newBlockReader (r : bytes) (t : Z) : blockReader := {| br_r := r; br_t := t; br_block := [] |}.

(** [readBlock]: at the end of the input the buffer stays as it was made, all zeros. *)
Definition readBlock br : option (blockReader * option ReadError) :=
  let n := Z.to_nat (blockSize + checksumSize) in
  match br_r br with
  | [] => Some (br <| br_block := zeros n |>, Some EOF)
  | _ =>
      let block := take n (br_r br) in
      if negb (br_t br =? CRC32IEEE) then None
      else if validateBlock block then
        Some (br <| br_r ::= drop n |> <| br_block := take (length block - Z.to_nat checksumSize) block |>, None)
      else None
  end.

(** The loop of [Read]: a block that was read is not empty. *)
Fixpoint readLoop (fuel : nat) br (want : nat) (data : bytes) : option (blockReader * bytes * option ReadError) :=
  if (length data <? want)%nat then
    match fuel with
    | O => None
    | Datatypes.S fuel =>
        r ← readBlock br;
        match r with
        | (br, Some e) => Some (br, data, Some e)
        | (br, None) =>
            let toRead := Nat.min (want - length data) (length (br_block br)) in
            readLoop fuel (br <| br_block ::= drop toRead |>) want (data ++ take toRead (br_block br))
        end
    end
  else Some (br, data, None).
Definition Read br (want : nat) : option (blockReader * bytes * option ReadError) :=
  if (want <=? length (br_block br))%nat then Some (br <| br_block ::= drop want |>, take want (br_block br), None)
  else readLoop (Datatypes.S (length (br_r br))) br want (br_block br).

(** [io.ReadFull] over the reader, which fills the buffer or fails. *)
Definition BlockReadFull br (n : nat) : option (blockReader * result bytes ReadError) :=
  if (n =? 0)%nat then Some (br, Ok [])
  else
    r ← Read br n;
    let '(br, data, err) := (r : blockReader * bytes * option ReadError) in
    Some (br, match err with
              | None => Ok data
              | Some _ => Err (if bool_decide (data = []) then EOF else ErrUnexpectedEOF)
              end).
End reader.

(** ** The header of a snapshot file *)
Record SnapshotHeader := {
  sh_SessionSize : Z;
  sh_DataStoreSize : Z;
  sh_UnreliableTime : Z;
  sh_GitVersion : string;
  sh_HeaderChecksum : option bytes;
  sh_PayloadChecksum : option bytes;
  sh_ChecksumType : Z;
  sh_Version : Z;
  sh_CompressionType : Z
}.
#[export] Instance SnapshotHeader_eta : Eta SnapshotHeader := λ h,
  Build_SnapshotHeader (sh_SessionSize h) (sh_DataStoreSize h) (sh_UnreliableTime h) (sh_GitVersion h) (sh_HeaderChecksum h)
    (sh_PayloadChecksum h) (sh_ChecksumType h) (sh_Version h) (sh_CompressionType h).
Definition noHeader : SnapshotHeader :=
  {| sh_SessionSize := 0; sh_DataStoreSize := 0; sh_UnreliableTime := 0; sh_GitVersion := ""; sh_HeaderChecksum := None;
     sh_PayloadChecksum := None; sh_ChecksumType := 0; sh_Version := 0; sh_CompressionType := 0 |}.

Definition optionalBytes (num : Z) (b : option bytes) : list (Z * wval) := match b with Some b => [(num, WBytes b)] | None => [] end.
Definition MarshalHeader (h : SnapshotHeader) : bytes :=
  marshal ([(1, WVarint (sh_SessionSize h)); (2, WVarint (sh_DataStoreSize h)); (3, WVarint (sh_UnreliableTime h));
            (4, WBytes (bytes_of (sh_GitVersion h)))] ++ optionalBytes 5 (sh_HeaderChecksum h) ++ optionalBytes 6 (sh_PayloadChecksum h) ++
           [(7, WVarint (u64 (sh_ChecksumType h))); (8, WVarint (sh_Version h)); (9, WVarint (u64 (sh_CompressionType h)))]).
Definition schemaHeader : schema SnapshotHeader := fields
  [u64f (λ h n, h <| sh_SessionSize := n |>); u64f (λ h n, h <| sh_DataStoreSize := n |>); u64f (λ h n, h <| sh_UnreliableTime := n |>);
   str (λ h s, h <| sh_GitVersion := s |>); FBytes (λ h b, Ok (h <| sh_HeaderChecksum := Some b |>));
   FBytes (λ h b, Ok (h <| sh_PayloadChecksum := Some b |>)); i32f (λ h n, h <| sh_ChecksumType := n |>);
   u64f (λ h n, h <| sh_Version := n |>); i32f (λ h n, h <| sh_CompressionType := n |>)].
Definition UnmarshalHeader (b : bytes) : result SnapshotHeader WireError := unmarshal schemaHeader noHeader b.

Definition versionNumber (v : SSVersion) : Z := match v with V1 => 1 | V2 => 2 end.
Definition toVersion (n : Z) : option SSVersion := if n =? 1 then Some V1 else if n =? 2 then Some V2 else None.

(** [WriteAt] within the file. *)
Definition writeAt (file : bytes) (off : nat) (data : bytes) : bytes := take off file ++ data ++ drop (off + length data) file.

(** [saveHeader]: the checksum of the header goes into the header, and nothing into
    the four bytes after it. *)
Definition headerFor (now : Z) (checksum : bytes) (v : SSVersion) (ct : Z) : SnapshotHeader :=
  let sh := {| sh_SessionSize := 0; sh_DataStoreSize := 0; sh_UnreliableTime := now; sh_GitVersion := ""; sh_HeaderChecksum := None;
               sh_PayloadChecksum := Some checksum; sh_ChecksumType := CRC32IEEE; sh_Version := versionNumber v; sh_CompressionType := ct |} in
  sh <| sh_HeaderChecksum := Some (Sum (MarshalHeader sh)) |>.
Definition saveHeader (file : bytes) (now : Z) (checksum : bytes) (v : SSVersion) (ct : Z) : option bytes :=
  let data := MarshalHeader (headerFor now checksum v ct) in
  if HeaderSize - 8 <? Z.of_nat (length data) then None
  else Some (writeAt (writeAt file 0 (PutUint64 (Z.of_nat (length data)))) 8 data).

(** ** Snapshot writer: a file in the current format, written by [ws] and closed, and
    the checksum of its payload *)
Definition SnapshotWrite (blockSize now ct : Z) (ws : list bytes) : option (bytes * bytes) :=
  r ← writeAll blockSize onBlock (newBlockWriter blockSize (zeros (Z.to_nat HeaderSize))) ws;
  let bw := (r : BlockWriter bytes * option Empty_set).1 in
  checksum ← GetPayloadChecksum bw;
  file ← saveHeader (bw_sink bw) now checksum V2 ct;
  Some (file, checksum).

(** ** Snapshot reader *)
Inductive IVReader := V1Reader (r hashed : bytes) | V2Reader (br : blockReader).
Record SnapshotReader := { sr_header : SnapshotHeader; sr_r : IVReader }.

Definition fourZeroBytes : bytes := zeros 4.
Definition validateHeader (header crc : bytes) : bool :=
  if bool_decide (crc = fourZeroBytes) then true else bool_decide (Sum header = crc).

Definition bind_read {A B} (r : result A ReadError) (f : A → option (result B ReadError)) : option (result B ReadError) :=
  match r with Ok a => f a | Err e => Some (Err e) end.

Definition GetHeader (file : bytes) : option (result SnapshotReader ReadError) :=
  bind_read (ReadFull 8 file) (λ '(lenbuf, r),
    let sz := le_val lenbuf in
    if HeaderSize - 8 <? sz then None
    else bind_read (ReadFull sz r) (λ '(data, r),
      match UnmarshalHeader data with
      | Err _ => None
      | Ok header =>
          bind_read (ReadFull 4 r) (λ '(crc, r),
            if negb (validateHeader data crc) then None
            else if HeaderSize - 8 - 4 <? sz then None
            else bind_read (ReadFull (HeaderSize - 8 - sz - 4) r) (λ '(_, r),
              v ← toVersion (sh_Version header);
              Some (Ok {| sr_header := header;
                          sr_r := match v with
                                  | V1 => V1Reader r []
                                  | V2 => V2Reader (newBlockReader (take (Z.to_nat (Z.of_nat (length file) - HeaderSize - tailSize)) r)
                                                                   (sh_ChecksumType header))
                                  end |})))
      end)).

Section files.
Context (blockSize : Z).

(** [io.ReadFull] over a snapshot reader. *)
Definition SnapshotReadFull (r : IVReader) (n : nat) : option (IVReader * result bytes ReadError) :=
  match r with
  | V1Reader r hashed =>
      let data := take n r in
      Some (V1Reader (drop n r) (hashed ++ data),
            if (n <=? length r)%nat then Ok data else Err (if bool_decide (r = []) then EOF else ErrUnexpectedEOF))
  | V2Reader br => '(br, res) ← BlockReadFull blockSize br n; Some (V2Reader br, res)
  end.

(** [ValidatePayload]: files of the second format have their blocks checked while
    they are read. *)
Definition ValidatePayload (sr : SnapshotReader) : option unit :=
  match sr_r sr with
  | V1Reader _ hashed => if bool_decide (Some (Sum hashed) = sh_PayloadChecksum (sr_header sr)) then Some tt else None
  | V2Reader _ => Some tt
  end.

Definition IsShrunkSnapshotFile (file : bytes) : option (result bool ReadError) :=
  h ← GetHeader file;
  bind_read h (λ sr,
    '(r, sz) ← SnapshotReadFull (sr_r sr) 8;
    bind_read sz (λ _,
      '(r, sz) ← SnapshotReadFull r 8;
      bind_read sz (λ sz,
        if negb (le_val sz =? 0) then Some (Ok false)
        else '(r, one) ← SnapshotReadFull r 1;
             Some (match one with Ok _ => Ok false | Err _ => Ok true end)))).

(** [ShrinkSnapshot]: the file in its shrunk form. *)
Definition ShrinkSnapshot (now : Z) (file : bytes) : option (result bytes ReadError) :=
  h ← GetHeader file;
  bind_read h (λ _, '(new, _) ← SnapshotWrite blockSize now 0 [GetEmptyLRUSession]; Some (Ok new)).

(** ** Validators of received chunks *)
Inductive IVValidator := V1Validator (header : SnapshotHeader) (h : bytes) | V2Validator (block : bytes) (total : Z).

(** A chunk has no capacity beyond its length here, so that a slice past its end panics. *)
Definition getHeaderFromFirstChunk (data : bytes) : option (option (bytes * bytes)) :=
  if Z.of_nat (length data) <? HeaderSize then None
  else
    let sz := le_val (take 8 data) in
    if HeaderSize - 8 <? sz then Some None
    else
      let n := Z.to_nat sz in
      if (length data <? 12 + n)%nat then None
      else Some (Some (take n (drop 8 data), take 4 (drop (8 + n) data))).

Definition getVersionedValidator (header : SnapshotHeader) : option (option IVValidator) :=
  match toVersion (sh_Version header) with
  | Some V1 => if sh_ChecksumType header =? CRC32IEEE then Some (Some (V1Validator header [])) else None
  | Some V2 => Some (if sh_ChecksumType header =? CRC32IEEE then Some (V2Validator [] 0) else None)
  | None => Some None
  end.

Definition framedSize : nat := Z.to_nat (blockSize + checksumSize).

(** The loop of [v2validator.AddChunk]: blocks are checked while two are there. *)
Fixpoint checkFull (fuel : nat) (block : bytes) : bytes * bool :=
  match fuel with
  | O => (block, true)
  | Datatypes.S fuel =>
      if (2 * framedSize <=? length block)%nat then
        if validateBlock (take framedSize block) then checkFull fuel (drop framedSize block)
        else (drop framedSize block, false)
      else (block, true)
  end.
(** The loop of [v2validator.Validate]. *)
Fixpoint checkRest (fuel : nat) (block : bytes) : bytes * bool :=
  match fuel with
  | O => (block, true)
  | Datatypes.S fuel =>
      if (framedSize <? length block)%nat then
        if validateBlock (take framedSize block) then checkRest fuel (drop framedSize block)
        else (drop framedSize block, false)
      else (block, true)
  end.

Definition AddChunkV (v : IVValidator) (data : bytes) (chunkID : Z) : IVValidator * bool :=
  let p := if chunkID =? 0 then drop (Z.to_nat HeaderSize) data else data in
  match v with
  | V1Validator header h => (V1Validator header (h ++ p), true)
  | V2Validator block total =>
      let block := block ++ p in
      let '(block, ok) := checkFull (length block) block in
      (V2Validator block (total + Z.of_nat (length p)), ok)
  end.

Definition validateMagicSize (tail : bytes) (total : Z) : bool :=
  if bool_decide (drop 8 tail = writerMagicNumber) then le_val (take 8 tail) =? u64 (u64 total - tailSize) else false.
Definition ValidateV (v : IVValidator) : bool :=
  match v with
  | V1Validator header h => bool_decide (Some (Sum h) = sh_PayloadChecksum header)
  | V2Validator block total =>
      if Z.of_nat (length block) <? tailSize then false
      else
        let n := (length block - Z.to_nat tailSize)%nat in
        if negb (validateMagicSize (drop n block) total) then false
        else
          let '(block, ok) := checkRest (length block) (take n block) in
          if (ok : bool) then bool_decide (block = []) || validateBlock block else false
  end.

Definition AddChunk (v : option IVValidator) (data : bytes) (chunkID : Z) : option (option IVValidator * bool) :=
  if chunkID =? 0 then
    h ← getHeaderFromFirstChunk data;
    match h with
    | None => Some (v, false)
    | Some (header, crc) =>
        if bool_decide (v ≠ None) then Some (v, false)
        else if negb (validateHeader header crc) then Some (v, false)
        else match UnmarshalHeader header with
             | Err _ => None
             | Ok rec =>
                 nv ← getVersionedValidator rec;
                 match nv with
                 | None => Some (None, false)
                 | Some nv => let '(nv, ok) := AddChunkV nv data chunkID in Some (Some nv, ok)
                 end
             end
    end
  else
    match v with
    | None => Some (None, false)
    | Some nv => let '(nv, ok) := AddChunkV nv data chunkID in Some (Some nv, ok)
    end.
Definition ValidateChunks (v : option IVValidator) : bool := match v with None => false | Some v => ValidateV v end.

(** A whole file arrives in chunks: [i] counts them. *)
Fixpoint addChunks (v : option IVValidator) (i : Z) (chunks : list bytes) : option (option IVValidator * bool) :=
  match chunks with
  | [] => Some (v, true)
  | c :: chunks =>
      '(v, ok) ← AddChunk v c i;
      if (ok : bool) then addChunks v (i + 1) chunks else Some (v, false)
  end.
End files.
