(* ===== verification/SnapshotFile.v ===== *)
(** * What snapshot files guarantee

    Theorems about SnapshotIo: a file that was written passes the validator however it
    is cut into chunks, a file that passes the validator can be read to its end, and
    reading gives the bytes that were written, however they were cut into writes. *)
From S2P Require Import Prelude GoStrings Wire GoJson RsmSession SnapshotIo.
From Stdlib Require Import Ascii.

Local Open Scope Z_scope.

(** CRC-32 of the check string of the standard. *)
Example crc32_check : crc32 (lit "123456789") = 3421780262.
Proof. by vm_compute. Qed.

(** ** Frames *)
Definition frame (b : bytes) : bytes := b ++ Sum b.

Section checksums.
Implicit Types (b : bytes).
Lemma length_Sum l : length (Sum l) = 4%nat.
Proof. by rewrite /Sum length_reverse length_le_bytes. Qed.
Lemma length_frame b : length (frame b) = (length b + 4)%nat.
Proof. by rewrite /frame length_app length_Sum. Qed.
Lemma validate_frame b : b ≠ [] → validateBlock (frame b) = true.
Proof.
  intros Hb. rewrite /validateBlock length_frame. change (Z.to_nat checksumSize) with 4%nat. rewrite Nat.add_sub.
  destruct (Z.leb_spec (Z.of_nat (length b + 4)) checksumSize).
  - destruct b; [done|]. rewrite /checksumSize in H. cbn in H. lia.
  - rewrite /frame take_app_length drop_app_length. by apply bool_decide_true.
Qed.
Lemma validate_inv b : validateBlock b = true → ∃ p, b = frame p ∧ p ≠ [] ∧ length b = (length p + 4)%nat.
Proof.
  rewrite /validateBlock. change (Z.to_nat checksumSize) with 4%nat. destruct (Z.leb_spec (Z.of_nat (length b)) checksumSize) as [|Hl]; [done|].
  rewrite /checksumSize in Hl. intros E%bool_decide_eq_true_1. exists (take (length b - 4) b). rewrite length_take. split_and!.
  - by rewrite /frame -E take_drop.
  - intros Ht. apply (f_equal length) in Ht. rewrite length_take in Ht. cbn in Ht. lia.
  - lia.
Qed.
End checksums.

Section frames.
Context (blockSize : nat) (Hpos : (0 < blockSize)%nat).
Implicit Types (p q b : bytes).

(** The payload in blocks, and the blocks with their checksums. *)
Fixpoint blocks (fuel : nat) p : list bytes :=
  match fuel, p with
  | O, _ | _, [] => []
  | S fuel, _ => take blockSize p :: blocks fuel (drop blockSize p)
  end.
Definition framed p : bytes := concat (frame <$> blocks (length p) p).

Lemma blocks_fuel f g p : (length p ≤ f)%nat → (length p ≤ g)%nat → blocks f p = blocks g p.
Proof.
  revert g p. induction f as [|f IH]; intros g p Hf Hg; [destruct p; [by destruct g|cbn in Hf; lia]|].
  destruct g as [|g]; [destruct p; [done|cbn in Hg; lia]|]. destruct p as [|c p]; [done|]. cbn [blocks]. f_equal.
  apply IH; rewrite length_drop; cbn [length] in *; lia.
Qed.
Lemma framed_cons p : p ≠ [] → framed p = frame (take blockSize p) ++ framed (drop blockSize p).
Proof.
  intros Hp. rewrite /framed. destruct p as [|c p]; [done|]. cbn [length blocks]. rewrite fmap_cons. cbn [concat]. do 3 f_equal.
  apply blocks_fuel; rewrite length_drop; cbn [length]; lia.
Qed.
Lemma framed_nil : framed [] = [].
Proof. done. Qed.

(** Full blocks before the rest. *)
Lemma framed_blocks bl p : Forall (λ b, length b = blockSize) bl → framed (concat bl ++ p) = concat (frame <$> bl) ++ framed p.
Proof.
  induction 1 as [|b bl Hb Hbl IH]; [done|]. cbn [concat]. rewrite fmap_cons. cbn [concat]. rewrite -app_assoc framed_cons.
  - intros E. apply (f_equal length) in E. rewrite length_app in E. cbn in E. lia.
  - rewrite take_app_length' // drop_app_length' // IH. by rewrite -app_assoc.
Qed.
Lemma framed_single b : b ≠ [] → (length b ≤ blockSize)%nat → framed b = frame b.
Proof. intros Hb Hl. by rewrite framed_cons // take_ge // drop_ge // framed_nil app_nil_r. Qed.

(** The first frame of a framed payload, whether or not it is the last. *)
Lemma framed_take p : p ≠ [] → take (blockSize + 4) (framed p) = frame (take blockSize p) ∧ drop (blockSize + 4) (framed p) = framed (drop blockSize p).
Proof.
  intros Hp. rewrite framed_cons //. destruct (Nat.le_gt_cases blockSize (length p)) as [Hl|Hl].
  - assert ((blockSize + 4)%nat = length (frame (take blockSize p))) as -> by (rewrite length_frame length_take; lia).
    by rewrite take_app_length drop_app_length.
  - rewrite (drop_ge p); [lia|]. rewrite framed_nil app_nil_r take_ge; [rewrite length_frame length_take; lia|].
    rewrite drop_ge //. rewrite length_frame length_take. lia.
Qed.
Lemma length_framed_le p : (length p ≤ length (framed p))%nat.
Proof.
  induction p as [p IH] using (induction_ltof1 _ (@length ascii)). unfold ltof in IH. destruct (decide (p = [])) as [->|Hp]; [done|].
  rewrite framed_cons // length_app length_frame length_take. destruct (Nat.le_gt_cases (length p) blockSize); [lia|].
  pose proof (IH (drop blockSize p)) as Hd. rewrite length_drop in Hd. lia.
Qed.
Lemma framed_short p : (length (framed p) ≤ blockSize + 4)%nat → (length p ≤ blockSize)%nat.
Proof.
  intros Hl. destruct (Nat.le_gt_cases (length p) blockSize) as [|Hgt]; [done|]. exfalso.
  rewrite framed_cons in Hl; [by intros ->; cbn in Hgt; lia|]. rewrite length_app length_frame length_take in Hl.
  pose proof (length_framed_le (drop blockSize p)) as Hd. rewrite length_drop in Hd. lia.
Qed.
Lemma framed_long p : (blockSize + 4 < length (framed p))%nat → (blockSize < length p)%nat.
Proof.
  intros Hl. destruct (Nat.le_gt_cases (length p) blockSize) as [Hle|]; [|done]. exfalso.
  destruct (decide (p = [])) as [->|Hp]; [cbn in Hl; lia|]. rewrite framed_single // length_frame in Hl. lia.
Qed.
End frames.

(** ** Writing *)
Section writing.
Context (blockSize : Z) (Hbs : 0 < blockSize < 2 ^ 60).
Notation n := (Z.to_nat blockSize).
Implicit Types (bw : BlockWriter bytes).

(** The writer after the full blocks [bl] and the beginning [b] of the next one. *)
Record writer_at (file : bytes) (bl : list bytes) (b : bytes) bw : Prop := {
  wa_full : Forall (λ b, length b = n) bl;
  wa_part : (length b < n)%nat;
  wa_block : bw_block bw = b;
  wa_h : bw_h bw = b;
  wa_fh : bw_fh bw = concat (Sum <$> bl);
  wa_sink : bw_sink bw = file ++ concat (frame <$> bl);
  wa_written : bw_written bw = Z.of_nat (length (concat bl ++ b));
  wa_next : bw_nextStop bw = Z.of_nat (length (concat bl)) + blockSize;
  wa_total : bw_total bw = Z.of_nat (length (concat (frame <$> bl)));
  wa_flushed : bw_flushed bw = false
}.

Lemma length_frames bl : (length (concat (frame <$> bl)) = length (concat bl) + 4 * length bl)%nat.
Proof. induction bl as [|b bl IH]; [done|]. rewrite fmap_cons. cbn [concat length]. rewrite (length_app (frame b)) (length_app b) length_frame IH. lia. Qed.
Lemma length_full bl : Forall (λ b : bytes, length b = n) bl → (length bl ≤ length (concat bl))%nat.
Proof. induction 1 as [|b bl Hb Hbl IH]; [done|]. cbn [concat length]. rewrite length_app Hb. lia. Qed.

Lemma new_writer_at file : writer_at file [] [] (newBlockWriter blockSize file).
Proof. constructor; cbn; try done; [lia|by rewrite app_nil_r]. Qed.

(** What a round of the loop does: it fills the block or takes all there is. *)
Lemma round_fills file bl b bw bs : writer_at file bl b bw → bs ≠ [] → (n ≤ length b + length bs)%nat →
  Z.of_nat (length (concat bl ++ b ++ bs)) < 2 ^ 60 →
  ∃ bw', writer_at file (bl ++ [b ++ take (n - length b) bs]) [] bw' ∧
    ∀ fuel N, writeLoop blockSize onBlock (S fuel) bw bs N =
      writeLoop blockSize onBlock fuel bw' (drop (n - length b) bs) (u64 (N + Z.of_nat (n - length b))).
Proof.
  intros Hw Hne Hge Hsm. destruct Hw. rewrite length_app in wa_written0. pose proof (length_full bl wa_full0) as Hfull.
  pose proof (length_frames bl) as Hfr. rewrite !length_app in Hsm.
  set (data := take (n - length b) bs). assert (length data = n - length b)%nat as Hd by (rewrite length_take; lia).
  eexists. split; cycle 1.
  - intros fuel N. cbn [writeLoop]. destruct bs as [|c bs']; [done|]. set (bs := c :: bs') in *.
    assert (Z.min (u64 (bw_nextStop bw - bw_written bw)) (Z.of_nat (length bs)) = Z.of_nat (n - length b)) as ->.
    { rewrite wa_written0 wa_next0 u64_small; zlia. }
    rewrite Nat2Z.id. fold data. proj_simpl. rewrite wa_written0 wa_next0 u64_small; [zlia|].
    destruct (Z.eqb_spec (Z.of_nat (length (concat bl) + length b) + Z.of_nat (n - length b)) (Z.of_nat (length (concat bl)) + blockSize)); [|lia].
    rewrite /processNewBlock /onBlock. proj_simpl. cbv beta iota. reflexivity.
  - constructor; proj_simpl; rewrite ?wa_block0 ?wa_h0 ?wa_fh0 ?wa_sink0 ?wa_total0 ?wa_next0 ?wa_written0 ?fmap_app ?concat_app /=.
    + apply Forall_app. split; [done|]. constructor; [|done]. rewrite length_app. lia.
    + lia.
    + done.
    + done.
    + by rewrite ?app_nil_r.
    + by rewrite /frame ?app_nil_r -?app_assoc.
    + rewrite ?app_nil_r !length_app u64_small; zlia.
    + rewrite ?app_nil_r !length_app u64_small; zlia.
    + rewrite ?app_nil_r !length_app !length_Sum Hfr /checksumSize. rewrite (u64_small (_ + 4)); [zlia|]. rewrite u64_small; zlia.
    + done.
Qed.

Lemma round_takes file bl b bw bs : writer_at file bl b bw → bs ≠ [] → (length b + length bs < n)%nat →
  Z.of_nat (length (concat bl ++ b ++ bs)) < 2 ^ 60 →
  ∃ bw', writer_at file bl (b ++ bs) bw' ∧
    ∀ fuel N, writeLoop blockSize onBlock (S fuel) bw bs N = (bw', u64 (N + Z.of_nat (length bs)), None).
Proof.
  intros Hw Hne Hlt Hsm. destruct Hw. rewrite length_app in wa_written0. rewrite !length_app in Hsm.
  eexists. split; cycle 1.
  - intros fuel N. cbn [writeLoop]. destruct bs as [|c bs']; [done|]. set (bs := c :: bs') in *.
    assert (Z.min (u64 (bw_nextStop bw - bw_written bw)) (Z.of_nat (length bs)) = Z.of_nat (length bs)) as ->.
    { rewrite wa_written0 wa_next0 u64_small; zlia. }
    rewrite Nat2Z.id firstn_all drop_all. proj_simpl. rewrite wa_written0 wa_next0 u64_small; [zlia|].
    destruct (Z.eqb_spec (Z.of_nat (length (concat bl) + length b) + Z.of_nat (length bs)) (Z.of_nat (length (concat bl)) + blockSize)); [lia|].
    destruct fuel; reflexivity.
  - constructor; proj_simpl; rewrite ?wa_block0 ?wa_h0 //; [rewrite length_app; lia|].
    rewrite wa_written0 !length_app u64_small; zlia.
Qed.

Lemma writeLoop_at file bl b bw bs fuel N :
  writer_at file bl b bw → (length bs ≤ fuel)%nat → Z.of_nat (length (concat bl ++ b ++ bs)) < 2 ^ 60 →
  ∃ bl' b' bw' N', writeLoop blockSize onBlock fuel bw bs N = (bw', N', None) ∧ writer_at file bl' b' bw' ∧
    concat bl' ++ b' = concat bl ++ b ++ bs.
Proof.
  revert bl b bw bs N. induction fuel as [|fuel IH]; intros bl b bw bs N Hw Hf Hsm.
  { destruct bs; [|cbn in Hf; lia]. exists bl, b, bw, N. by rewrite app_nil_r. }
  destruct (decide (bs = [])) as [->|Hne]; [exists bl, b, bw, N; by rewrite app_nil_r|]. pose proof (wa_part _ _ _ _ Hw) as Hp.
  destruct (Nat.le_gt_cases n (length b + length bs)) as [Hge|Hlt].
  - destruct (round_fills file bl b bw bs Hw Hne Hge Hsm) as (bw' & Hw' & E). rewrite E. clear E.
    assert (concat (bl ++ [b ++ take (n - length b) bs]) ++ drop (n - length b) bs = concat bl ++ b ++ bs) as Hcat.
    { rewrite concat_app. cbn [concat]. by rewrite app_nil_r -!app_assoc take_drop. }
    destruct (IH _ _ bw' (drop (n - length b) bs) (u64 (N + Z.of_nat (n - length b))) Hw') as (bl' & b' & bw'' & N' & E & Hw'' & Hc).
    + rewrite length_drop. lia.
    + by rewrite Hcat.
    + exists bl', b', bw'', N'. split_and!; [done|done|]. by rewrite Hc.
  - destruct (round_takes file bl b bw bs Hw Hne Hlt Hsm) as (bw' & Hw' & E). exists bl, (b ++ bs), bw', (u64 (N + Z.of_nat (length bs))). done.
Qed.

(** The bytes after the header of a file with payload [p]. *)
Definition tailOf (p : bytes) : bytes := PutUint64 (Z.of_nat (length (framed n p))) ++ writerMagicNumber.

Lemma close_at file bl b bw : writer_at file bl b bw → Z.of_nat (length (concat bl ++ b)) < 2 ^ 60 →
  ∃ bw', BlockClose onBlock bw = Some (bw', None) ∧ bw_sink bw' = file ++ framed n (concat bl ++ b) ++ tailOf (concat bl ++ b) ∧
    bw_flushed bw' = true.
Proof.
  intros [] Hsm. rewrite length_app in Hsm. pose proof (length_full bl wa_full0) as Hfull. pose proof (length_frames bl) as Hfr.
  rewrite /tailOf framed_blocks //; [lia|]. rewrite /BlockClose wa_flushed0. proj_simpl. rewrite wa_block0.
  destruct (decide (b = [])) as [->|Hb].
  - rewrite bool_decide_true //. eexists. split; [done|]. proj_simpl. rewrite wa_sink0 wa_total0 framed_nil !app_nil_r. by rewrite -!app_assoc.
  - rewrite bool_decide_false //. eexists. split; [done|]. proj_simpl. rewrite wa_sink0 wa_total0 wa_h0 framed_single //; [lia|lia|].
    rewrite app_nil_r -!app_assoc. split; [|done]. do 3 f_equal. rewrite (length_app (concat (frame <$> bl))) length_frame Hfr /checksumSize.
    rewrite (u64_small (_ + 4)); [zlia|]. rewrite u64_small; [zlia|]. do 3 f_equal. lia.
Qed.

Lemma writeAll_at file bl b bw ws : writer_at file bl b bw → Z.of_nat (length (concat bl ++ b ++ concat ws)) < 2 ^ 60 →
  ∃ bw', writeAll blockSize onBlock bw ws = Some (bw', None) ∧
    bw_sink bw' = file ++ framed n (concat bl ++ b ++ concat ws) ++ tailOf (concat bl ++ b ++ concat ws) ∧ bw_flushed bw' = true.
Proof.
  revert bl b bw. induction ws as [|w ws IH]; intros bl b bw Hw Hsm.
  - cbn [concat writeAll] in *. rewrite app_nil_r in Hsm |- *. by apply close_at.
  - cbn [concat writeAll] in *. rewrite /BlockWrite (wa_flushed _ _ _ _ Hw).
    destruct (writeLoop_at file bl b bw w (length w) 0 Hw) as (bl' & b' & bw' & N' & E & Hw' & Hc); [done|rewrite !length_app in Hsm |- *; lia|].
    cbn [mbind option_bind]. rewrite E. destruct (IH bl' b' bw' Hw') as (bw'' & E' & Hs & Hfl).
    + by rewrite (app_assoc (concat bl')) Hc -!app_assoc.
    + exists bw''. rewrite (app_assoc (concat bl')) Hc -!app_assoc in Hs. done.
Qed.
End writing.

(** ** Reading *)
Section reading.
Context (blockSize : Z) (Hbs : 0 < blockSize).
Notation n := (Z.to_nat blockSize).
Implicit Types (br : blockReader) (p q : bytes).

(** The reader has the bytes [p] before it. *)
Definition reads_as br p : Prop := br_t br = CRC32IEEE ∧ ∃ q, br_r br = framed n q ∧ p = br_block br ++ q.

Lemma readBlock_framed br q : br_t br = CRC32IEEE → br_r br = framed n q → q ≠ [] →
  readBlock blockSize br = Some (br <| br_r := framed n (drop n q) |> <| br_block := take n q |>, None).
Proof.
  intros Ht Hr Hq. rewrite /readBlock. destruct (framed_take n ltac:(lia) q Hq) as [Etake Edrop].
  assert (Z.to_nat (blockSize + checksumSize) = (n + 4)%nat) as -> by (rewrite /checksumSize; lia).
  destruct (br_r br) as [|c r] eqn:Er.
  { exfalso. apply (f_equal length) in Hr. pose proof (length_framed_le n ltac:(lia) q). destruct q; [done|]. cbn in *. lia. }
  rewrite -Er in Hr |- *. clear Er c r. rewrite Ht. change (negb (CRC32IEEE =? CRC32IEEE)) with false. cbv iota. rewrite Hr Etake validate_frame.
  - intros E. apply (f_equal length) in E. rewrite length_take in E. destruct q; [done|]. cbn in E. lia.
  - rewrite length_frame Nat.add_sub take_app_length. destruct br as [r t b]. cbn in Hr. subst r. by rewrite /upd /= Edrop.
Qed.

Lemma readLoop_framed fuel br q want data :
  br_t br = CRC32IEEE → br_r br = framed n q → (length q < fuel)%nat →
  (length data ≤ want ≤ length data + length q)%nat → (want = length data → reads_as br q) →
  ∃ br', readLoop blockSize fuel br want data = Some (br', take want (data ++ q), None) ∧ reads_as br' (drop want (data ++ q)).
Proof.
  revert br q data. induction fuel as [|fuel IH]; intros br q data Ht Hr Hf Hw Hdone; [lia|]. cbn [readLoop].
  destruct (Nat.ltb_spec (length data) want) as [Hlt|Hge].
  - assert (q ≠ []) as Hq by (intros ->; cbn in Hw; lia). rewrite (readBlock_framed br q) //. cbn [mbind option_bind]. proj_simpl.
    set (k := Nat.min (want - length data) (length (take n q))).
    assert (k ≤ length q)%nat by (rewrite /k length_take; lia). assert (k ≤ n)%nat by (rewrite /k length_take; lia).
    assert (take k (take n q) = take k q) as -> by (rewrite take_take Nat.min_l //).
    assert (data ++ q = (data ++ take k q) ++ drop k q) as E by (rewrite -app_assoc take_drop //).
    destruct (decide (want = length data + k)%nat) as [Heq|Hmore].
    + exists (br <| br_r := framed n (drop n q) |> <| br_block := drop k (take n q) |>).
      assert (want = length (data ++ take k q)) as Hl by (rewrite length_app length_take; lia). rewrite Hl.
      rewrite E take_app_length drop_app_length. split.
      * destruct fuel; cbn [readLoop]; [|by rewrite Nat.ltb_irrefl]. by rewrite Nat.ltb_irrefl.
      * split; [done|]. exists (drop n q). split; [done|]. proj_simpl. rewrite -{1}(take_drop n q) drop_app_le //. rewrite length_take. lia.
    + assert (k = length (take n q)) as Hk by (rewrite /k in Hmore |- *; lia). assert (take k q = take n q) as Etk.
      { rewrite Hk length_take. destruct (Nat.le_gt_cases n (length q)); [by rewrite Nat.min_l|]. rewrite Nat.min_r; [lia|]. by rewrite !take_ge; [lia|lia|]. }
      assert (drop k q = drop n q) as Edk.
      { rewrite Hk length_take. destruct (Nat.le_gt_cases n (length q)); [by rewrite Nat.min_l|]. rewrite Nat.min_r; [lia|]. by rewrite !drop_ge; [lia|lia|]. }
      rewrite E Edk. apply IH; proj_simpl; try done.
      * rewrite length_drop. assert (length q ≠ 0)%nat by (by intros ?%length_zero_iff_nil). lia.
      * rewrite length_app length_take length_drop. rewrite length_take in Hk. lia.
      * rewrite length_app length_take. lia.
  - assert (want = length data) as -> by lia. rewrite take_app_length drop_app_length. eauto.
Qed.

Lemma Read_framed br p want : reads_as br p → (want ≤ length p)%nat →
  ∃ br', Read blockSize br want = Some (br', take want p, None) ∧ reads_as br' (drop want p).
Proof.
  intros (Ht & q & Hr & ->) Hw. rewrite /Read. destruct (Nat.leb_spec want (length (br_block br))) as [Hle|Hgt].
  - eexists. rewrite take_app_le // drop_app_le //. split; [done|]. split; [done|]. by exists q.
  - rewrite length_app in Hw. apply readLoop_framed; try done; [|lia|lia].
    pose proof (length_framed_le n ltac:(lia) q). rewrite Hr. lia.
Qed.

(** Past the end a read gives what is left and the end of the file. *)
Lemma readLoop_end fuel br q want data :
  br_t br = CRC32IEEE → br_r br = framed n q → (length q < fuel)%nat → (length data + length q < want)%nat →
  ∃ br', readLoop blockSize fuel br want data = Some (br', data ++ q, Some EOF).
Proof.
  revert br q data. induction fuel as [|fuel IH]; intros br q data Ht Hr Hf Hw; [lia|]. cbn [readLoop].
  destruct (Nat.ltb_spec (length data) want) as [_|?]; [|lia]. destruct (decide (q = [])) as [->|Hq].
  - rewrite /readBlock Hr framed_nil app_nil_r. by eexists.
  - rewrite (readBlock_framed br q) //. cbn [mbind option_bind]. proj_simpl. rewrite Nat.min_r; [rewrite length_take; lia|]. rewrite firstn_all.
    destruct (IH (br <| br_r := framed n (drop n q) |> <| br_block := take n q |> <| br_block ::= drop (length (take n q)) |>) (drop n q) (data ++ take n q))
      as [br' E]; proj_simpl; try done.
    + rewrite length_drop. assert (length q ≠ 0)%nat by (by intros ?%length_zero_iff_nil). lia.
    + rewrite length_app length_take length_drop. lia.
    + exists br'. by rewrite -app_assoc take_drop in E.
Qed.
Lemma Read_end br p want : reads_as br p → (length p < want)%nat → ∃ br', Read blockSize br want = Some (br', p, Some EOF).
Proof.
  intros (Ht & q & Hr & ->) Hw. rewrite length_app in Hw. rewrite /Read. destruct (Nat.leb_spec want (length (br_block br))) as [Hle|Hgt]; [lia|].
  apply readLoop_end; try done. pose proof (length_framed_le n ltac:(lia) q). rewrite Hr. lia.
Qed.

(** Filling a buffer over the blocks is filling it over the payload. *)
Lemma BlockReadFull_framed br p k : reads_as br p →
  ∃ br' r, BlockReadFull blockSize br k = Some (br', r) ∧
    match ReadFull (Z.of_nat k) p with
    | Ok (data, rest) => r = Ok data ∧ reads_as br' rest
    | Err e => r = Err e
    end.
Proof.
  intros Hr. rewrite /BlockReadFull /ReadFull. destruct (Nat.eqb_spec k 0) as [->|Hk].
  - destruct (Z.leb_spec (Z.of_nat 0) (Z.of_nat (length p))); [|lia]. cbn. by exists br, (Ok []).
  - destruct (Z.leb_spec (Z.of_nat k) (Z.of_nat (length p))).
    + destruct (Read_framed br p k Hr) as (br' & E & Hr'); [lia|]. rewrite E Nat2Z.id. cbn. eauto.
    + destruct (Read_end br p k Hr) as (br' & E); [lia|]. rewrite E. cbn. eauto.
Qed.
End reading.

(** ** Validating *)
Section validating.
Context (blockSize : Z) (Hbs : 12 < blockSize < 2 ^ 60).
Notation n := (Z.to_nat blockSize).
Implicit Types (p q block body : bytes).

Lemma framedSize_eq : framedSize blockSize = (n + 4)%nat.
Proof. rewrite /framedSize /checksumSize. lia. Qed.

(** Full blocks pass the loops, which stop at the blocks they leave for later. *)
Lemma checkFull_passes fuel block more q tail : block ++ more = framed n q ++ tail → length tail = 16%nat → (length block ≤ fuel)%nat →
  ∃ q' block', checkFull blockSize fuel block = (block', true) ∧ block' ++ more = framed n q' ++ tail.
Proof.
  intros E Ht. revert block q E. induction fuel as [|fuel IH]; intros block q E Hf; cbn [checkFull].
  { by exists q, block. }
  rewrite framedSize_eq. destruct (Nat.leb_spec (2 * (n + 4)) (length block)) as [Hl|_]; [|by exists q, block].
  assert (n < length q)%nat as Hq.
  { apply framed_long; [lia|]. apply (f_equal length) in E. rewrite !length_app Ht in E. lia. }
  assert (q ≠ []) as Hne by (by intros ->; cbn in Hq; lia).
  assert (take (n + 4) block = frame (take n q)) as Etake.
  { transitivity (take (n + 4) (block ++ more)); [by rewrite take_app_le; [lia|]|]. rewrite E take_app_le.
    - rewrite framed_cons //; [lia|]. rewrite length_app length_frame length_take. lia.
    - by apply framed_take; [lia|]. }
  assert (drop (n + 4) block ++ more = framed n (drop n q) ++ tail) as Edrop.
  { rewrite -drop_app_le; [lia|]. rewrite E drop_app_le.
    - rewrite framed_cons //; [lia|]. rewrite length_app length_frame length_take. lia.
    - f_equal. by apply framed_take; [lia|]. }
  rewrite Etake validate_frame. { intros Ez. apply (f_equal length) in Ez. rewrite length_take in Ez. cbn in Ez. lia. }
  apply (IH _ _ Edrop). rewrite length_drop. lia.
Qed.

Lemma checkRest_passes fuel q : (length (framed n q) ≤ fuel)%nat →
  ∃ q', checkRest blockSize fuel (framed n q) = (framed n q', true) ∧ (length q' ≤ n)%nat.
Proof.
  revert q. induction fuel as [|fuel IH]; intros q Hf; cbn [checkRest].
  { exists q. split; [done|]. apply framed_short; lia. }
  rewrite framedSize_eq. destruct (Nat.ltb_spec (n + 4) (length (framed n q))) as [Hl|Hl].
  - apply framed_long in Hl as Hq; [|lia]. assert (q ≠ []) as Hne by (by intros ->; cbn in Hq; lia).
    destruct (framed_take n ltac:(lia) q Hne) as [-> ->]. rewrite validate_frame.
    { intros Ez. apply (f_equal length) in Ez. rewrite length_take in Ez. cbn in Ez. lia. }
    apply IH. rewrite framed_cons // in Hf; [lia|]. rewrite length_app length_frame in Hf. lia.
  - exists q. split; [done|]. apply framed_short; lia.
Qed.

(** What the loops let pass is a sequence of frames of full blocks. *)
Lemma checkFull_frames fuel block block' : checkFull blockSize fuel block = (block', true) →
  ∃ bl, Forall (λ b, length b = n) bl ∧ block = concat (frame <$> bl) ++ block'.
Proof.
  revert block. induction fuel as [|fuel IH]; intros block; cbn [checkFull]; [intros [= <-]; by exists []|]. rewrite framedSize_eq.
  destruct (Nat.leb_spec (2 * (n + 4)) (length block)) as [Hl|_]; [|intros [= <-]; by exists []].
  destruct (validateBlock (take (n + 4) block)) eqn:Ev; [|done]. intros (bl & Hbl & E)%IH. destruct (validate_inv _ Ev) as (b & Eb & _ & Hlen).
  rewrite length_take Nat.min_l in Hlen; [lia|]. exists (b :: bl). split; [constructor; [lia|done]|].
  rewrite fmap_cons. cbn [concat]. by rewrite -app_assoc -E -Eb take_drop.
Qed.
Lemma checkRest_frames fuel block block' : checkRest blockSize fuel block = (block', true) →
  ∃ bl, Forall (λ b, length b = n) bl ∧ block = concat (frame <$> bl) ++ block' ∧ ((length block ≤ fuel)%nat → (length block' ≤ n + 4)%nat).
Proof.
  revert block. induction fuel as [|fuel IH]; intros block; cbn [checkRest]; [intros [= <-]; exists []; split_and!; [done|done|lia]|]. rewrite framedSize_eq.
  destruct (Nat.ltb_spec (n + 4) (length block)) as [Hl|Hl]; [|intros [= <-]; exists []; split_and!; [done|done|lia]].
  destruct (validateBlock (take (n + 4) block)) eqn:Ev; [|done]. intros (bl & Hbl & E & Hs)%IH. destruct (validate_inv _ Ev) as (b & Eb & _ & Hlen).
  rewrite length_take Nat.min_l in Hlen; [lia|]. exists (b :: bl). split_and!; [constructor; [lia|done]| |].
  - rewrite fmap_cons. cbn [concat]. by rewrite -app_assoc -E -Eb take_drop.
  - intros Hf. apply Hs. rewrite length_drop. lia.
Qed.

Lemma length_tailOf p : length (tailOf blockSize p) = 16%nat.
Proof. by rewrite /tailOf length_app length_le_bytes. Qed.

(** The chunks after the first one, however the rest of the file is cut. *)
Lemma chunks_pass chunks i block total q tail :
  0 < i → block ++ concat chunks = framed n q ++ tail → length tail = 16%nat →
  ∃ q', addChunks blockSize (Some (V2Validator block total)) i chunks =
    Some (Some (V2Validator (framed n q' ++ tail) (total + Z.of_nat (length (concat chunks)))), true).
Proof.
  intros Hi E Ht. revert i Hi block total q E. induction chunks as [|c chunks IH]; intros i Hi block total q E.
  { exists q. cbn [concat] in E |- *. rewrite app_nil_r in E. cbn. by rewrite E Z.add_0_r. }
  cbn [addChunks concat] in *. rewrite /AddChunk. destruct (Z.eqb_spec i 0); [lia|]. rewrite /AddChunkV. destruct (Z.eqb_spec i 0); [lia|].
  rewrite app_assoc in E. destruct (checkFull_passes (length (block ++ c)) _ _ _ _ E Ht) as (q' & block' & -> & E'); [done|].
  cbn [mbind option_bind]. destruct (IH (i + 1) ltac:(lia) block' (total + Z.of_nat (length c)) q' E') as [q'' ->]. exists q''.
  rewrite length_app. do 4 f_equal. lia.
Qed.
Lemma chunks_frames chunks i block total v :
  0 < i → addChunks blockSize (Some (V2Validator block total)) i chunks = Some (v, true) →
  ∃ bl block', Forall (λ b, length b = n) bl ∧ block ++ concat chunks = concat (frame <$> bl) ++ block' ∧
    v = Some (V2Validator block' (total + Z.of_nat (length (concat chunks)))).
Proof.
  intros Hi. revert i Hi block total. induction chunks as [|c chunks IH]; intros i Hi block total.
  { cbn. intros [= <-]. exists [], block. rewrite app_nil_r Z.add_0_r. by split_and!. }
  cbn [addChunks concat]. rewrite /AddChunk. destruct (Z.eqb_spec i 0); [lia|]. rewrite /AddChunkV. destruct (Z.eqb_spec i 0); [lia|].
  destruct (checkFull blockSize (length (block ++ c)) (block ++ c)) as [block1 ok] eqn:E1. cbn [mbind option_bind]. destruct ok; [|done].
  intros (bl & block' & Hbl & E & ->)%IH; [|lia]. destruct (checkFull_frames _ _ _ E1) as (bl1 & Hbl1 & Eb).
  exists (bl1 ++ bl), block'. split_and!; [by apply Forall_app|by rewrite app_assoc Eb -app_assoc E fmap_app concat_app -app_assoc|].
  rewrite length_app. do 2 f_equal. lia.
Qed.

Lemma le_bytes_val l : le_bytes (length l) (le_val l) = l.
Proof.
  induction l as [|c l IH]; [done|]. cbn [length le_bytes le_val]. pose proof (byte_val_range c).
  assert ((byte_val c + 256 * le_val l) mod 256 = byte_val c) as ->.
  { rewrite Z.add_comm Z.mul_comm Z.add_comm Z.mod_add //. by apply Z.mod_small. }
  assert ((byte_val c + 256 * le_val l) / 256 = le_val l) as ->.
  { rewrite Z.mul_comm Z.div_add // Z.div_small //. }
  by rewrite IH byte_byte_val.
Qed.

Lemma magic_exact tail (m : Z) : length tail = 16%nat → 16 ≤ m < 2 ^ 62 →
  validateMagicSize tail m = true ↔ tail = PutUint64 (m - 16) ++ writerMagicNumber.
Proof.
  intros Hl Hm. rewrite /validateMagicSize /tailSize (u64_small m); [zlia|]. rewrite u64_small; [zlia|]. split.
  - case_bool_decide as Hd; [|done]. intros E%Z.eqb_eq. rewrite -(take_drop 8 tail) Hd. f_equal. rewrite /PutUint64 -E.
    assert (8 = length (take 8 tail))%nat as E8 by (rewrite length_take Hl; done). by rewrite {2}E8 le_bytes_val.
  - intros ->. rewrite take_app_length' ?drop_app_length' ?length_le_bytes //. rewrite bool_decide_true // le_val_PutUint64; [zlia|]. apply Z.eqb_refl.
Qed.

(** Blocks followed by one that is valid or empty are a framed payload. *)
Lemma frames_framed bl block : Forall (λ b, length b = n) bl → (length block ≤ n + 4)%nat →
  bool_decide (block = []) || validateBlock block = true → ∃ p, concat (frame <$> bl) ++ block = framed n p.
Proof.
  intros Hbl Hl. case_bool_decide as Hb; cbn [orb].
  - subst block. intros _. exists (concat bl ++ []). by rewrite framed_blocks //; lia.
  - intros (b & -> & Hne & Hlen)%validate_inv. exists (concat bl ++ b). rewrite framed_blocks //; [lia|]. rewrite framed_single //; lia.
Qed.

(** The first chunk has a header of the current format. *)
Definition v2_header (c : bytes) : Prop :=
  ∃ header crc rec, getHeaderFromFirstChunk c = Some (Some (header, crc)) ∧ validateHeader header crc = true ∧
    UnmarshalHeader header = Ok rec ∧ toVersion (sh_Version rec) = Some V2 ∧ sh_ChecksumType rec = CRC32IEEE.

Lemma first_chunk c : v2_header c →
  AddChunk blockSize None c 0 =
    let p := drop (Z.to_nat HeaderSize) c in
    let '(block, ok) := checkFull blockSize (length p) p in Some (Some (V2Validator block (Z.of_nat (length p))), ok).
Proof.
  intros (header & crc & rec & E1 & E2 & E3 & E4 & E5). rewrite /AddChunk E1. cbn [Z.eqb mbind option_bind]. rewrite bool_decide_false; [naive_solver|].
  rewrite E2 E3 /getVersionedValidator E4 E5. cbn [negb mbind option_bind Z.eqb CRC32IEEE]. rewrite /AddChunkV. cbn [app Z.add].
  cbn zeta. destruct (checkFull _ _ _). done.
Qed.

Definition accepted (chunks : list bytes) : option bool :=
  '(v, ok) ← addChunks blockSize None 0 chunks; Some (ok && ValidateChunks blockSize v).

Lemma validate_tail q tail total p' : length tail = 16%nat → framed n p' ++ tail = framed n p' ++ tailOf blockSize p' →
  total = Z.of_nat (length (framed n p')) + 16 → total < 2 ^ 62 →
  ValidateV blockSize (V2Validator (framed n q ++ tail) total) = true.
Proof.
  intros Ht E%app_inv_head -> Hb. rewrite /ValidateV length_app Ht. destruct (Z.ltb_spec (Z.of_nat (length (framed n q) + 16)) tailSize) as [H|_].
  { rewrite /tailSize in H. lia. }
  change (Z.to_nat tailSize) with 16%nat. rewrite Nat.add_sub drop_app_length take_app_length.
  assert (validateMagicSize tail (Z.of_nat (length (framed n p')) + 16) = true) as ->.
  { apply magic_exact; [done|lia|]. rewrite E /tailOf. do 2 f_equal. lia. }
  destruct (checkRest_passes (length (framed n q) + 16) q) as (q' & -> & Hq'); [lia|]. cbn [negb].
  destruct (decide (q' = [])) as [->|Hne]; [done|]. rewrite framed_single //; [lia|]. by rewrite validate_frame // orb_true_r.
Qed.

Lemma body_split c cs : v2_header c → drop (Z.to_nat HeaderSize) (concat (c :: cs)) = drop (Z.to_nat HeaderSize) c ++ concat cs.
Proof.
  intros (header & crc & rec & E1 & _). cbn [concat]. rewrite drop_app_le //. rewrite /getHeaderFromFirstChunk in E1.
  destruct (Z.ltb_spec (Z.of_nat (length c)) HeaderSize); [done|]. rewrite /HeaderSize in H |- *. lia.
Qed.

Lemma accepts_written c cs p : v2_header c → Z.of_nat (length (drop (Z.to_nat HeaderSize) (concat (c :: cs)))) < 2 ^ 62 →
  drop (Z.to_nat HeaderSize) (concat (c :: cs)) = framed n p ++ tailOf blockSize p → accepted (c :: cs) = Some true.
Proof.
  intros Hc. rewrite body_split //. intros Hsz E. rewrite /accepted. cbn [addChunks]. rewrite first_chunk //. cbn zeta.
  pose proof (length_tailOf p) as Ht. destruct (checkFull_passes (length (drop (Z.to_nat HeaderSize) c)) _ _ _ _ E Ht) as (q' & block' & -> & E'); [done|].
  cbn [mbind option_bind]. destruct (chunks_pass cs (0 + 1) block' (Z.of_nat (length (drop (Z.to_nat HeaderSize) c))) q' _ ltac:(lia) E' Ht) as [q'' ->].
  cbn [mbind option_bind andb]. f_equal. cbn [ValidateChunks]. assert (length (drop (Z.to_nat HeaderSize) c ++ concat cs) = length (framed n p) + 16)%nat as Hlen.
  { by rewrite E length_app Ht. }
  rewrite length_app in Hlen, Hsz. eapply (validate_tail _ _ _ p); [done|done|lia|lia].
Qed.

Lemma accepted_written c cs : v2_header c → Z.of_nat (length (drop (Z.to_nat HeaderSize) (concat (c :: cs)))) < 2 ^ 62 →
  accepted (c :: cs) = Some true → ∃ p, drop (Z.to_nat HeaderSize) (concat (c :: cs)) = framed n p ++ tailOf blockSize p.
Proof.
  intros Hc. rewrite body_split //. intros Hsz. rewrite /accepted. cbn [addChunks]. rewrite first_chunk //. cbn zeta.
  destruct (checkFull blockSize _ _) as [block ok] eqn:E1. cbn [mbind option_bind]. destruct ok; [|done].
  destruct (addChunks blockSize _ (0 + 1) cs) as [[v ok]|] eqn:E2; [|done]. cbn [mbind option_bind]. destruct ok; [|done]. cbn [andb]. intros [= Hv].
  destruct (checkFull_frames _ _ _ E1) as (bl1 & Hbl1 & Eb1). destruct (chunks_frames cs (0 + 1) _ _ _ ltac:(lia) E2) as (bl2 & block' & Hbl2 & Eb2 & ->).
  cbn [ValidateChunks ValidateV] in Hv. destruct (Z.ltb_spec (Z.of_nat (length block')) tailSize) as [|Hl]; [done|]. rewrite /tailSize in Hl.
  change (Z.to_nat tailSize) with 16%nat in Hv. set (k := (length block' - 16)%nat) in Hv.
  destruct (validateMagicSize (drop k block') _) eqn:Em; [|done]. cbn [negb] in Hv.
  destruct (checkRest blockSize (length block') (take k block')) as [last ok] eqn:E3. destruct ok; [|done].
  destruct (checkRest_frames _ _ _ E3) as (bl3 & Hbl3 & Eb3 & Hlast).
  destruct (frames_framed ((bl1 ++ bl2) ++ bl3) last) as [p Ep]; [by repeat apply Forall_app_2|apply Hlast; rewrite length_take; lia|done|].
  assert (drop (Z.to_nat HeaderSize) c ++ concat cs = framed n p ++ drop k block') as Ebody.
  { rewrite -Ep Eb1 -app_assoc Eb2 !fmap_app !concat_app -!app_assoc. do 2 f_equal. by rewrite app_assoc -Eb3 take_drop. }
  exists p. rewrite Ebody. f_equal. assert (length (drop k block') = 16%nat) as Hk by (rewrite length_drop /k; lia).
  pose proof (f_equal length Ebody) as Hlen. rewrite !length_app Hk in Hlen. rewrite length_app in Hsz.
  apply magic_exact in Em; [|done|lia]. rewrite Em /tailOf. do 2 f_equal. lia.
Qed.

(** C9: a file with a header of the current format, received in chunks cut anywhere
    after its header, is accepted exactly when what follows the header is some payload
    in blocks with their checksums and the tail with its length and magic number. *)
Theorem validator_exact c cs :
  v2_header c → Z.of_nat (length (drop (Z.to_nat HeaderSize) (concat (c :: cs)))) < 2 ^ 62 →
  accepted (c :: cs) = Some true ↔ ∃ p, drop (Z.to_nat HeaderSize) (concat (c :: cs)) = framed n p ++ tailOf blockSize p.
Proof. intros Hc Hsz. split; [by apply accepted_written|]. intros [p E]. by eapply accepts_written. Qed.
End validating.

(** ** The header *)
Definition header_ok (h : SnapshotHeader) : Prop :=
  in_u64 (sh_SessionSize h) ∧ in_u64 (sh_DataStoreSize h) ∧ in_u64 (sh_UnreliableTime h) ∧ in_u64 (sh_Version h) ∧
  0 ≤ sh_ChecksumType h < 2 ^ 31 ∧ 0 ≤ sh_CompressionType h < 2 ^ 31.

Section headers.
Implicit Types (h : SnapshotHeader).

Lemma i32_u64 z : 0 ≤ z < 2 ^ 31 → i32 (u64 z) = z.
Proof. intros Hz. rewrite u64_small; [zlia|]. rewrite /i32 Z.mod_small; lia. Qed.

Lemma Unmarshal_Marshal_header h : header_ok h → small (MarshalHeader h) → UnmarshalHeader (MarshalHeader h) = Ok h.
Proof.
  intros (H1 & H2 & H3 & H4 & H5 & H6) Hs. rewrite /UnmarshalHeader /MarshalHeader unmarshal_marshal_fits //.
  - destruct h as [a b c d [e|] [f|] g i j]; cbn in *;
      repeat (constructor; [split; [cbn; lia|try done; try apply u64_range]|]); constructor.
  - destruct h as [a b c d [e|] [f|] g i j]; cbn [optionalBytes sh_HeaderChecksum sh_PayloadChecksum app]; read_raw; cbn in *; rewrite string_of_bytes !i32_u64 //.
Qed.

Lemma length_encodeFrom f v : (length (encodeVarintFrom f v) ≤ S f)%nat.
Proof. revert v. induction f as [|f IH]; intros v; cbn; [lia|]. case_match; cbn; [|lia]. specialize (IH (Z.shiftr v 7)). lia. Qed.
Lemma length_EncodeVarint v : (length (EncodeVarint v) ≤ 10)%nat.
Proof. exact (length_encodeFrom 9 v). Qed.
Lemma length_marshal_le fs : (length (marshal fs) ≤ foldr (λ f k, match f.2 with WVarint _ => 20 | WBytes b => 20 + length b end + k) 0 fs)%nat.
Proof.
  Transparent marshal. rewrite /marshal. Opaque marshal. induction fs as [|[num [v|b]] fs IH]; [done|..]; rewrite !fmap_cons; cbn [concat foldr fst snd];
    rewrite length_app; cbn [encodeField]; rewrite !length_app.
  - pose proof (length_EncodeVarint (num * 8)). pose proof (length_EncodeVarint v). lia.
  - pose proof (length_EncodeVarint (num * 8 + 2)). pose proof (length_EncodeVarint (Z.of_nat (length b))). lia.
Qed.

(** A header the writer makes takes less than 200 bytes. *)
Lemma header_small now checksum v ct : length checksum = 4%nat → (length (MarshalHeader (headerFor now checksum v ct)) ≤ 200)%nat.
Proof.
  intros Hc. rewrite /MarshalHeader. etransitivity; [apply length_marshal_le|]. rewrite /headerFor. set (sum := Sum _).
  assert (length sum = 4%nat) by apply length_Sum. clearbody sum. cbn zeta. proj_simpl. cbn. lia.
Qed.
Lemma headerFor_ok now checksum v ct : in_u64 now → 0 ≤ ct < 2 ^ 31 → header_ok (headerFor now checksum v ct).
Proof. intros Hn Hc. rewrite /header_ok /headerFor /CRC32IEEE. cbn zeta. proj_simpl. destruct v; cbn; split_and!; zlia. Qed.
End headers.

(** ** Whole files *)
Section files.
Context (blockSize : Z) (Hbs : 12 < blockSize < 2 ^ 60).
Notation n := (Z.to_nat blockSize).
Implicit Types (p file : bytes).

(** The first 1024 bytes of a file. *)
Definition headerBytes (data : bytes) : bytes :=
  PutUint64 (Z.of_nat (length data)) ++ data ++ zeros (1016 - length data).
Lemma length_headerBytes data : (length data ≤ 1016)%nat → length (headerBytes data) = 1024%nat.
Proof. intros Hl. rewrite /headerBytes !length_app length_le_bytes /zeros length_replicate. lia. Qed.

Lemma writeAt_header data rest : (length data ≤ 1016)%nat →
  writeAt (writeAt (zeros 1024 ++ rest) 0 (PutUint64 (Z.of_nat (length data)))) 8 data = headerBytes data ++ rest.
Proof.
  intros Hl. rewrite /writeAt /headerBytes. cbn [take]. rewrite !app_nil_l length_le_bytes.
  rewrite (take_app_length' (PutUint64 _)); [by rewrite length_le_bytes|]. rewrite -!app_assoc. f_equal. f_equal.
  rewrite drop_app_ge ?length_le_bytes; [lia|]. rewrite drop_drop. replace (8 + (8 + length data - 8))%nat with (8 + length data)%nat by lia.
  rewrite /zeros drop_app_le ?length_replicate; [lia|]. rewrite drop_replicate. do 2 f_equal. lia.
Qed.

Lemma SnapshotWrite_file now ct ws : in_u64 now → 0 ≤ ct < 2 ^ 31 → Z.of_nat (length (concat ws)) < 2 ^ 60 →
  ∃ checksum, length checksum = 4%nat ∧
    SnapshotWrite blockSize now ct ws =
      Some (headerBytes (MarshalHeader (headerFor now checksum V2 ct)) ++ framed n (concat ws) ++ tailOf blockSize (concat ws), checksum).
Proof.
  intros Hnow Hct Hsz. rewrite /SnapshotWrite. change (Z.to_nat HeaderSize) with 1024%nat.
  destruct (writeAll_at blockSize ltac:(lia) (zeros 1024) [] [] _ ws (new_writer_at blockSize ltac:(lia) (zeros 1024))) as (bw & -> & Hs & Hfl); [done|].
  cbn [mbind option_bind fst]. rewrite /GetPayloadChecksum Hfl. cbn [mbind option_bind]. set (checksum := Sum (bw_fh bw)).
  assert (length checksum = 4%nat) as Hc by apply length_Sum. clearbody checksum. exists checksum. split; [done|].
  pose proof (header_small now checksum V2 ct Hc) as Hh. rewrite /saveHeader. cbn zeta.
  destruct (Z.ltb_spec (HeaderSize - 8) (Z.of_nat (length (MarshalHeader (headerFor now checksum V2 ct))))) as [H|_]; [rewrite /HeaderSize in H; lia|].
  rewrite Hs. cbn [concat app]. rewrite writeAt_header //. lia.
Qed.

(** The header is read back, and the reader stands at the payload. *)
Lemma GetHeader_file now checksum ct p : in_u64 now → 0 ≤ ct < 2 ^ 31 → length checksum = 4%nat →
  let h := headerFor now checksum V2 ct in
  GetHeader (headerBytes (MarshalHeader h) ++ framed n p ++ tailOf blockSize p) =
    Some (Ok {| sr_header := h; sr_r := V2Reader (newBlockReader (framed n p) CRC32IEEE) |}).
Proof.
  intros Hnow Hct Hc h. pose proof (header_small now checksum V2 ct Hc) as Hl. fold h in Hl.
  pose proof (headerFor_ok now checksum V2 ct Hnow Hct) as Hok. fold h in Hok.
  assert (sh_Version h = 2 ∧ sh_ChecksumType h = CRC32IEEE) as [Hv Ht] by done. clearbody h. clear Hc.
  assert (UnmarshalHeader (MarshalHeader h) = Ok h) as Hu by (apply Unmarshal_Marshal_header; [done|lia]). revert Hl Hu.
  generalize (MarshalHeader h). intros data Hl Hu.
  assert (length (headerBytes data ++ framed n p ++ tailOf blockSize p) = 1024 + (length (framed n p) + 16))%nat as Hlen.
  { rewrite (length_app (headerBytes _)) (length_app (framed n p)) length_headerBytes; [lia|]. by rewrite length_tailOf. }
  rewrite /GetHeader Hlen {1}/headerBytes -!app_assoc ReadFull_PutUint64. cbn [bind_read]. rewrite le_val_PutUint64; [zlia|].
  rewrite /HeaderSize. destruct (Z.ltb_spec (1024 - 8) (Z.of_nat (length data))); [lia|].
  rewrite ReadFull_app //. cbn [bind_read]. rewrite Hu.
  assert (zeros (1016 - length data) = fourZeroBytes ++ zeros (1012 - length data)) as ->.
  { rewrite /fourZeroBytes /zeros -replicate_add. f_equal. lia. }
  rewrite -app_assoc ReadFull_app //. cbn [bind_read]. rewrite /validateHeader bool_decide_true //. cbn [negb].
  destruct (Z.ltb_spec (1024 - 8 - 4) (Z.of_nat (length data))); [lia|].
  rewrite ReadFull_app; [rewrite /zeros length_replicate; lia|]. cbn [bind_read]. rewrite Hv Ht. cbn [toVersion Z.eqb mbind option_bind].
  do 5 f_equal. rewrite /tailSize take_app_length' //. lia.
Qed.

(** A client that fills buffers of the sizes [ks], over a snapshot reader and over
    the payload itself; it stops at the first failure. *)
Fixpoint readMany (r : IVReader) (ks : list nat) : option (list (result bytes ReadError)) :=
  match ks with
  | [] => Some []
  | k :: ks =>
      '(r, res) ← SnapshotReadFull blockSize r k;
      match res with
      | Ok data => rest ← readMany r ks; Some (Ok data :: rest)
      | Err e => Some [Err e]
      end
  end.
Fixpoint readList (p : bytes) (ks : list nat) : list (result bytes ReadError) :=
  match ks with
  | [] => []
  | k :: ks =>
      match ReadFull (Z.of_nat k) p with
      | Ok (data, p) => Ok data :: readList p ks
      | Err e => [Err e]
      end
  end.

Lemma readMany_framed br p ks : reads_as blockSize br p → readMany (V2Reader br) ks = Some (readList p ks).
Proof.
  revert br p. induction ks as [|k ks IH]; intros br p Hr; [done|]. cbn [readMany readList SnapshotReadFull].
  destruct (BlockReadFull_framed blockSize ltac:(lia) br p k Hr) as (br' & r & -> & Hm). cbn [mbind option_bind].
  destruct (ReadFull (Z.of_nat k) p) as [[data rest]|e].
  - destruct Hm as [-> Hr']. by rewrite (IH br' rest).
  - by rewrite Hm.
Qed.

Lemma first_chunk_header now checksum ct c rest more : in_u64 now → 0 ≤ ct < 2 ^ 31 → length checksum = 4%nat →
  c ++ more = headerBytes (MarshalHeader (headerFor now checksum V2 ct)) ++ rest → (1024 ≤ length c)%nat → v2_header c.
Proof.
  intros Hnow Hct Hc. pose proof (header_small now checksum V2 ct Hc) as Hl. pose proof (headerFor_ok now checksum V2 ct Hnow Hct) as Hok.
  set (h := headerFor now checksum V2 ct) in *. assert (sh_Version h = 2 ∧ sh_ChecksumType h = CRC32IEEE) as [Hv Ht] by done. clearbody h.
  assert (UnmarshalHeader (MarshalHeader h) = Ok h) as Hu by (apply Unmarshal_Marshal_header; [done|lia]). revert Hl Hu.
  generalize (MarshalHeader h). intros data Hl Hu E Hlc.
  assert (∀ k l, (k ≤ 1024)%nat → take l (drop k c) = take l (drop k (c ++ more)) ∨ (1024 < k + l)%nat) as Hpre.
  { intros k l Hk. destruct (Nat.le_gt_cases (k + l) 1024); [left|by right]. rewrite drop_app_le; [lia|]. rewrite take_app_le //. rewrite length_drop. lia. }
  assert (Z.of_nat (length data) < 2 ^ 64) by lia. exists data, fourZeroBytes, h.
  assert (getHeaderFromFirstChunk c = Some (Some (data, fourZeroBytes))) as ->; [|split_and!; rewrite ?Hv //].
  rewrite /getHeaderFromFirstChunk /HeaderSize. destruct (Z.ltb_spec (Z.of_nat (length c)) 1024); [lia|].
  assert (zeros (1016 - length data) = fourZeroBytes ++ zeros (1012 - length data)) as Hz.
  { rewrite /fourZeroBytes /zeros -replicate_add. f_equal. lia. }
  assert (take 8 c = PutUint64 (Z.of_nat (length data))) as ->.
  { destruct (Hpre 0%nat 8%nat) as [Hp|?]; [lia| |lia]. rewrite drop_0 in Hp. rewrite Hp E drop_0 /headerBytes -app_assoc take_app_length' //. }
  rewrite le_val_PutUint64; [zlia|]. destruct (Z.ltb_spec (1024 - 8) (Z.of_nat (length data))); [lia|]. rewrite Nat2Z.id.
  destruct (Nat.ltb_spec (length c) (12 + length data)); [lia|]. do 3 f_equal.
  - destruct (Hpre 8%nat (length data)) as [->|?]; [lia| |lia]. rewrite E /headerBytes -!app_assoc drop_app_length'; [by rewrite length_le_bytes|].
    by rewrite take_app_length.
  - destruct (Hpre (8 + length data)%nat 4%nat) as [->|?]; [lia| |lia].
    rewrite E /headerBytes Hz -!app_assoc app_assoc drop_app_length'; [by rewrite length_app length_le_bytes|]. by rewrite take_app_length'.
Qed.

(** C10: whatever is written to a snapshot file, in whatever pieces, is what its reader
    gives back, in whatever pieces it is asked for; and the file passes the validator
    in whatever chunks it arrives, if the first one has the whole header. *)
Theorem snapshot_file_round_trip now ct ws :
  in_u64 now → 0 ≤ ct < 2 ^ 31 → Z.of_nat (length (concat ws)) < 2 ^ 60 →
  ∃ file checksum sr, SnapshotWrite blockSize now ct ws = Some (file, checksum) ∧ GetHeader file = Some (Ok sr) ∧ sh_CompressionType (sr_header sr) = ct ∧
    (∀ ks, readMany (sr_r sr) ks = Some (readList (concat ws) ks)) ∧
    (∀ c cs, concat (c :: cs) = file → (1024 ≤ length c)%nat → Z.of_nat (length file) < 2 ^ 62 → accepted blockSize (c :: cs) = Some true).
Proof.
  intros Hnow Hct Hsz. destruct (SnapshotWrite_file now ct ws Hnow Hct Hsz) as (checksum & Hc & Hw). do 3 eexists.
  split_and!; [exact Hw|by apply GetHeader_file|done| |].
  - intros ks. cbn [sr_r]. apply readMany_framed. split; [done|]. by exists (concat ws).
  - intros c cs E Hlc Hlen. pose proof (header_small now checksum V2 ct Hc) as Hl.
    assert (drop (Z.to_nat HeaderSize) (concat (c :: cs)) = framed n (concat ws) ++ tailOf blockSize (concat ws)) as Eb.
    { rewrite E drop_app_length' // length_headerBytes //. lia. }
    eapply (accepts_written blockSize Hbs); [by eapply first_chunk_header|rewrite -E length_drop in Hlen |- *; lia|exact Eb].
Qed.
End files.

(** Two writes, blocks of 16 bytes. *)
Lemma snapshot_file_round_trip_witness :
  ∃ file checksum sr, SnapshotWrite 16 5 0 [lit "the quick brown "; lit "fox"] = Some (file, checksum) ∧ GetHeader file = Some (Ok sr) ∧ sh_CompressionType (sr_header sr) = 0 ∧
    (∀ ks, readMany 16 (sr_r sr) ks = Some (readList (concat [lit "the quick brown "; lit "fox"]) ks)) ∧
    (∀ c cs, concat (c :: cs) = file → (1024 ≤ length c)%nat → Z.of_nat (length file) < 2 ^ 62 → accepted 16 (c :: cs) = Some true).
Proof. apply snapshot_file_round_trip; [lia|zlia|lia|by vm_compute]. Defined.

Definition demo_file : bytes := default [] (fst <$> SnapshotWrite 16 5 0 [lit "the quick brown "; lit "fox"]).
Lemma demo_file_header : v2_header (take 1030 demo_file).
Proof.
  do 3 eexists. split_and!; [vm_compute; reflexivity|by vm_compute|vm_compute; reflexivity|by vm_compute|by vm_compute].
Qed.
Lemma validator_exact_witness :
  accepted 16 [take 1030 demo_file; drop 1030 demo_file] = Some true ↔
    ∃ p, drop (Z.to_nat HeaderSize) (concat [take 1030 demo_file; drop 1030 demo_file]) = framed (Z.to_nat 16) p ++ tailOf 16 p.
Proof. apply (validator_exact 16 ltac:(lia)); [apply demo_file_header|by vm_compute]. Defined.

(** A read after the end of the file has been reported gives zeros and no error. *)
Example zeros_after_end :
  let first := Read 16 (newBlockReader (framed 16 (lit "ab")) CRC32IEEE) 3 in
  (λ r, (r.1.2, r.2)) <$> first = Some (lit "ab", Some EOF) ∧
  (λ r, (r.1.2, r.2)) <$> (first ≫= λ r, Read 16 r.1.1 3) = Some (zeros 3, None).
Proof. split; by vm_compute. Qed.
