(* ===== verification/Snapshotter.v ===== *)
(** * The snapshots of a node on disk

    internal/dragonboat/snapshotter.go with the directories of
    internal/server/snapshotenv.go and the snapshot records of internal/logdb/db.go.
    A snapshot is written to a temporary directory, which is renamed when it is
    complete; a flag file marks a renamed directory whose record is not written yet,
    and [processOrphans] clears up after a crash.

    A disk is its snapshot directories, by root, and the records of the node.  The
    operations of the file system succeed and are durable when they return; a crash
    falls between two of them, so operations that matter for crashes give the disks
    they pass through.  Flag files are written in full before their directory is
    renamed and are modelled by the snapshot they carry.  The Snappy stream format is
    an argument.  [None] is a panic. *)
From S2P Require Import Prelude GoStrings Wire GoJson Raftpb RaftLog LogReader RsmSession RsmMachine SnapshotIo.
From Stdlib Require Import Ascii.

Local Open Scope Z_scope.

(** ** Directories *)
Record SSDir := {
  sd_file : option bytes;
  sd_shrunk : option bytes;
  sd_metadata : option Snapshot;
  sd_flag : option Snapshot
}.
#[export] Instance SSDir_eta : Eta SSDir := λ d, Build_SSDir (sd_file d) (sd_shrunk d) (sd_metadata d) (sd_flag d).
#[export] Instance SSDir_eq_dec : EqDecision SSDir.
Proof. solve_decision. Defined.
Definition emptyDir : SSDir := {| sd_file := None; sd_shrunk := None; sd_metadata := None; sd_flag := None |}.

(** Temporary directories carry the index and the node the snapshot comes from. *)
Record Root := { rt_final : gmap Z SSDir; rt_generating : gmap (Z * Z) SSDir; rt_receiving : gmap (Z * Z) SSDir }.
#[export] Instance Root_eta : Eta Root := λ r, Build_Root (rt_final r) (rt_generating r) (rt_receiving r).
Definition emptyRoot : Root := {| rt_final := ∅; rt_generating := ∅; rt_receiving := ∅ |}.

Record Disk := { dk_roots : gmap string Root; dk_log : Store }.
#[export] Instance Disk_eta : Eta Disk := λ d, Build_Disk (dk_roots d) (dk_log d).

Definition rootOf (d : Disk) (dir : string) : Root := default emptyRoot (dk_roots d !! dir).
Definition onRoot (dir : string) (f : Root → Root) (d : Disk) : Disk := d <| dk_roots ::= <[dir := f (rootOf d dir)]> |>.

(** ** snapshotenv.go *)
Inductive Mode := SnapshotMode | ReceivingMode.

Definition hexDigit (n : Z) : ascii := byte (if n <? 10 then 48 + n else 55 + n).
Fixpoint hex (k : nat) (n : Z) : bytes := match k with O => [] | S k => hex k (n / 16) ++ [hexDigit (n mod 16)] end.
Definition getDirName (index : Z) : string := "snapshot-" ++ string_of (hex 16 index).
Definition getFilename (index : Z) : string := "snapshot-" ++ string_of (hex 16 index) ++ ".gbsnap".

Record SSEnv := { env_index : Z; env_rootDir : string; env_from : Z; env_mode : Mode }.
Definition NewSSEnv (dir : string) (index from : Z) (mode : Mode) : SSEnv :=
  {| env_index := index; env_rootDir := dir; env_from := from; env_mode := mode |}.
Definition GetFilepath (e : SSEnv) : string :=
  (env_rootDir e ++ "/" ++ getDirName (env_index e) ++ "/" ++ getFilename (env_index e))%string.

Section env.
Implicit Types (e : SSEnv) (d : Disk).

Definition tempDirs (m : Mode) (r : Root) : gmap (Z * Z) SSDir := match m with SnapshotMode => rt_generating r | ReceivingMode => rt_receiving r end.
Definition onTemp e (f : gmap (Z * Z) SSDir → gmap (Z * Z) SSDir) (r : Root) : Root :=
  match env_mode e with SnapshotMode => r <| rt_generating ::= f |> | ReceivingMode => r <| rt_receiving ::= f |> end.
Definition tempKey e : Z * Z := (env_index e, env_from e).
Definition tempDir e d : option SSDir := tempDirs (env_mode e) (rootOf d (env_rootDir e)) !! tempKey e.
Definition finalDir e d : option SSDir := rt_final (rootOf d (env_rootDir e)) !! env_index e.

(** An existing directory is kept. *)
Definition CreateTempDir e d : Disk :=
  onRoot (env_rootDir e) (onTemp e (λ m, <[tempKey e := default emptyDir (m !! tempKey e)]> m)) d.
Definition RemoveTempDir e d : Disk := onRoot (env_rootDir e) (onTemp e (delete (tempKey e))) d.
Definition RemoveFinalDir e d : Disk := onRoot (env_rootDir e) (λ r, r <| rt_final ::= delete (env_index e) |>) d.
Definition finalDirExists e d : bool := bool_decide (is_Some (finalDir e d)).
Definition inTemp e (f : SSDir → SSDir) d : Disk := onRoot (env_rootDir e) (onTemp e (alter f (tempKey e))) d.
Definition SaveSSMetadata e (ss : Snapshot) d : Disk := inTemp e (λ sd, sd <| sd_metadata := Some ss |>) d.
Definition createFlagFile e (ss : Snapshot) d : Disk := inTemp e (λ sd, sd <| sd_flag := Some ss |>) d.
Definition renameToFinalDir e d : Disk :=
  onRoot (env_rootDir e) (λ r,
    match tempDirs (env_mode e) r !! tempKey e with
    | Some sd => onTemp e (delete (tempKey e)) r <| rt_final ::= <[env_index e := sd]> |>
    | None => r
    end) d.
Definition HasFlagFile e d : bool := match finalDir e d with Some sd => bool_decide (is_Some (sd_flag sd)) | None => false end.
Definition RemoveFlagFile e d : Disk :=
  onRoot (env_rootDir e) (λ r, r <| rt_final ::= alter (λ sd, sd <| sd_flag := None |>) (env_index e) |>) d.
End env.

(** ** Snapshot records, db.go *)
Definition ListSnapshots (s : Store) (index : Z) : list Snapshot :=
  omap (λ k, st_snapshots s !! k) (merge_sort Z.le (filter (λ k, k ≤ index) (map_to_list (st_snapshots s)).*1)).
Definition SaveSnapshots (ss : Snapshot) (d : Disk) : Disk :=
  if 0 <? ss_Index ss then d <| dk_log ::= λ s, s <| st_snapshots ::= <[ss_Index ss := ss]> |> |> else d.
Definition DeleteSnapshot (index : Z) (d : Disk) : Disk := d <| dk_log ::= λ s, s <| st_snapshots ::= delete index |> |>.

(** ** snapshotter.go *)
Record SSMeta (X : Type) := {
  sx_From : Z;
  sx_Index : Z;
  sx_Term : Z;
  sx_OnDiskIndex : Z;
  sx_Request : SSRequest;
  sx_Membership : Membership;
  sx_Type : Z;
  sx_Session : bytes;
  sx_Ctx : option X;
  sx_CompressionType : Z
}.
Arguments sx_From {X} _.
Arguments sx_Index {X} _.
Arguments sx_Term {X} _.
Arguments sx_OnDiskIndex {X} _.
Arguments sx_Request {X} _.
Arguments sx_Membership {X} _.
Arguments sx_Type {X} _.
Arguments sx_Session {X} _.
Arguments sx_Ctx {X} _.
Arguments sx_CompressionType {X} _.
Arguments Build_SSMeta {X} _ _ _ _ _ _ _ _ _ _.

Record snapshotter := { sn_dir : string; sn_clusterID : Z; sn_nodeID : Z }.

Inductive SnapError (E : Type) :=
| ErrNoSnapshot | errSnapshotOutOfDate | ErrNotExist | SnapRead (e : ReadError) | SnapUser (e : E).
Arguments ErrNoSnapshot {E}.
Arguments errSnapshotOutOfDate {E}.
Arguments ErrNotExist {E}.
Arguments SnapRead {E} _.
Arguments SnapUser {E} _.

Definition NoCompressionNumber : Z := 0.
Definition SnappyNumber : Z := 1.
Definition compressionType (n : Z) : option CompressionType :=
  if n =? NoCompressionNumber then Some NoCompression else if n =? SnappyNumber then Some SnappyCompression else None.

(** The names [processOrphans] looks at. *)
Inductive DirName := FinalName (index : Z) | GeneratingName (index from : Z) | ReceivingName (index from : Z).
#[export] Instance DirName_eq_dec : EqDecision DirName.
Proof. solve_decision. Defined.

Class SnappyStream := { compressStream : bytes → bytes; decompressStream : bytes → option bytes }.

Section snapshots.
Context `{SnappyStream} (blockSize : Z) (sn : snapshotter).

Definition compress (ct : CompressionType) (l : bytes) : bytes := match ct with NoCompression => l | SnappyCompression => compressStream l end.
Definition decompress (ct : CompressionType) (l : bytes) : option bytes :=
  match ct with NoCompression => Some l | SnappyCompression => decompressStream l end.

Definition getEnv (index : Z) : SSEnv := NewSSEnv (sn_dir sn) index (sn_nodeID sn) SnapshotMode.
Definition getCustomEnv (req : SSRequest) (index : Z) : option SSEnv :=
  if isExported req then
    if bool_decide (sq_Path req = "") then None else Some (NewSSEnv (sq_Path req) index (sn_nodeID sn) SnapshotMode)
  else Some (getEnv index).

(** [Save]: [save] is the [ISavable], what it writes goes through the compressor into
    a snapshot file in the temporary directory.  [now] is the clock.  What a failed
    save has written is not modelled: the directory is left without the file. *)
Definition Save {N X E} (d : Disk) (save : SSMeta X → option (N * result (bool * bytes) E)) (meta : SSMeta X) (now : Z) :
    option (Disk * N * SSEnv * result Snapshot (SnapError E)) :=
  env ← getCustomEnv (sx_Request meta) (sx_Index meta);
  let d := CreateTempDir env d in
  ct ← compressionType (sx_CompressionType meta);
  '(n, r) ← save meta;
  match r with
  | Err e => Some (inTemp env (λ sd, sd <| sd_file := None |>) d, n, env, Err (SnapUser e))
  | Ok (dummy, payload) =>
      let data := compress ct payload in
      '(file, checksum) ← SnapshotWrite blockSize now (sx_CompressionType meta) [data];
      let ss := {| ss_Filepath := GetFilepath env; ss_FileSize := 0; ss_Index := sx_Index meta; ss_Term := sx_Term meta;
                   ss_Membership := sx_Membership meta; ss_Files := []; ss_Checksum := []; ss_Dummy := dummy;
                   ss_ClusterId := sn_clusterID sn; ss_Type := sx_Type meta; ss_Imported := false;
                   ss_OnDiskIndex := sx_OnDiskIndex meta; ss_Witness := false |} in
      let ss := if 0 <? ss_Index ss
                then ss <| ss_Checksum := checksum |>
                        <| ss_FileSize := u64 (getV2PayloadSize (Z.of_nat (length data)) blockSize + HeaderSize) |>
                else ss in
      Some (inTemp env (λ sd, sd <| sd_file := Some file |>) d, n, env, Ok ss)
  end.

(** [commit], with the disks it passes through; the last one is where it ends. *)
Definition commit {E} (d : Disk) (ss : Snapshot) (req : SSRequest) : option (list Disk * result unit (SnapError E)) :=
  env ← getCustomEnv req (ss_Index ss);
  match tempDir env d with
  | None => Some ([d], Err ErrNotExist)
  | Some _ =>
      let d1 := SaveSSMetadata env ss d in
      let d2 := createFlagFile env ss d1 in
      if finalDirExists env d2 then Some ([d; d1; d2], Err errSnapshotOutOfDate)
      else
        let d3 := renameToFinalDir env d2 in
        let d4 := if isExported req then d3 else SaveSnapshots ss d3 in
        let d5 := RemoveFlagFile env d4 in
        Some ([d; d1; d2; d3; d4; d5], Ok tt)
  end.

(** What [Load] reads: the file of the snapshot through its reader and decompressor.
    The reader of the blocks is a reader of the payload (SnapshotFile), and a damaged
    file is a panic.  The flag says whether the checksum of a file of the first format,
    which is compared when all has been read, is right. *)
Definition payloadOf (sr : SnapshotReader) : option bytes :=
  match sr_r sr with
  | V1Reader r _ => Some r
  | V2Reader br => r ← Read blockSize br (S (length (br_r br))); Some (r : blockReader * bytes * option ReadError).1.2
  end.
Definition openSnapshot {E} (d : Disk) (ss : Snapshot) : option (result (SSVersion * bytes * bool) (SnapError E)) :=
  match finalDir (getEnv (ss_Index ss)) d ≫= sd_file with
  | None => Some (Err ErrNotExist)
  | Some file =>
      h ← GetHeader file;
      match h with
      | Err e => Some (Err (SnapRead e))
      | Ok sr =>
          ct ← compressionType (sh_CompressionType (sr_header sr));
          v ← toVersion (sh_Version (sr_header sr));
          payload ← payloadOf sr;
          data ← decompress ct payload;
          let valid := match sr_r sr with
                       | V1Reader r _ => bool_decide (is_Some (ValidatePayload {| sr_header := sr_header sr; sr_r := V1Reader [] r |}))
                       | V2Reader _ => true
                       end in
          Some (Ok (v, data, valid))
      end
  end.

Definition GetSnapshot {E} (d : Disk) (index : Z) : result Snapshot (SnapError E) :=
  match list_find (λ ss, ss_Index ss = index) (ListSnapshots (dk_log d) index) with Some (_, ss) => Ok ss | None => Err ErrNoSnapshot end.
Definition GetMostRecent {E} (d : Disk) : result Snapshot (SnapError E) :=
  match last (ListSnapshots (dk_log d) (2 ^ 64 - 1)) with Some ss => Ok ss | None => Err ErrNoSnapshot end.
Definition IsNoSnapshotError {E} (e : SnapError E) : bool := match e with ErrNoSnapshot => true | _ => false end.

Definition Shrunk {E} (d : Disk) (ss : Snapshot) : option (result bool (SnapError E)) :=
  match finalDir (getEnv (ss_Index ss)) d ≫= sd_file with
  | None => Some (Err ErrNotExist)
  | Some file => r ← IsShrunkSnapshotFile blockSize file; Some (match r with Ok b => Ok b | Err e => Err (SnapRead e) end)
  end.

Definition inFinal (index : Z) (f : SSDir → SSDir) (d : Disk) : Disk :=
  onRoot (sn_dir sn) (λ r, r <| rt_final ::= alter f index |>) d.

(** [shrink]: a full snapshot is replaced by its shrunk form, which is written beside it
    and renamed over it. *)
Fixpoint shrinkAll (now shrinkTo : Z) (d : Disk) (l : list Snapshot) : option (list Disk * result unit (SnapError Empty_set)) :=
  match l with
  | [] => Some ([d], Ok tt)
  | ss :: l =>
      if shrinkTo <? ss_Index ss then None
      else if negb (ss_Dummy ss) && negb (ss_Witness ss) then
        match finalDir (getEnv (ss_Index ss)) d ≫= sd_file with
        | None => Some ([d], Err ErrNotExist)
        | Some file =>
            r ← ShrinkSnapshot blockSize now file;
            match r with
            | Err e => Some ([d], Err (SnapRead e))
            | Ok new =>
                let d1 := inFinal (ss_Index ss) (λ sd, sd <| sd_shrunk := Some new |>) d in
                let d2 := inFinal (ss_Index ss) (λ sd, sd <| sd_file := sd_shrunk sd |> <| sd_shrunk := None |>) d1 in
                '(ds, r) ← shrinkAll now shrinkTo d2 l;
                Some (d :: d1 :: ds, r)
            end
        end
      else shrinkAll now shrinkTo d l
  end.
Definition shrink (now : Z) (d : Disk) (shrinkTo : Z) : option (list Disk * result unit (SnapError Empty_set)) :=
  shrinkAll now shrinkTo d (ListSnapshots (dk_log d) shrinkTo).

Definition snapshotsToKeep : nat := 3.

(** [remove] deletes the record, then the directory. *)
Definition remove (d : Disk) (index : Z) : list Disk :=
  let d1 := DeleteSnapshot index d in [d; d1; RemoveFinalDir (getEnv index) d1].
Definition removeAll (d : Disk) (l : list Snapshot) : list Disk :=
  foldl (λ ds ss, ds ++ remove (default d (last ds)) (ss_Index ss)) [d] l.
Definition compact (d : Disk) (removeUpTo : Z) : list Disk :=
  let snapshots := ListSnapshots (dk_log d) removeUpTo in
  if (length snapshots <=? snapshotsToKeep)%nat then [d]
  else removeAll d (take (length snapshots - snapshotsToKeep) snapshots).

(** [processOrphans] over the directories in the order they are listed. *)
Definition processDir (mrss : option Snapshot) (d : Disk) (name : DirName) : option Disk :=
  match name with
  | FinalName i =>
      match finalDir (getEnv i) d with
      | None => Some d
      | Some sd =>
          match sd_flag sd with
          | None => Some d
          | Some ss =>
              if IsEmptySnapshot ss then None
              else if match mrss with None => true | Some m => negb (ss_Index m =? ss_Index ss) end
              then last (remove d (ss_Index ss))
              else Some (RemoveFlagFile (getEnv (ss_Index ss)) d)
          end
      end
  | GeneratingName i f => Some (onRoot (sn_dir sn) (λ r, r <| rt_generating ::= delete (i, f) |>) d)
  | ReceivingName i f => Some (onRoot (sn_dir sn) (λ r, r <| rt_receiving ::= delete (i, f) |>) d)
  end.
Definition processOrphans (listing : list DirName) (d : Disk) : option Disk :=
  let mrss := match @GetMostRecent Empty_set d with Ok ss => Some ss | Err _ => None end in
  foldl (λ (a : option Disk) name, d ← a; processDir mrss d name) (Some d) listing.
End snapshots.

(** ** Crashes *)
Section crashes.
Context (sn : snapshotter).
Implicit Types (d : Disk) (ss : Snapshot) (i : Z).

Definition finals d : gmap Z SSDir := rt_final (rootOf d (sn_dir sn)).
Definition records d : gmap Z Snapshot := st_snapshots (dk_log d).

(** Every recorded snapshot has its file, and no directory waits for its record. *)
Record disk_ok d : Prop := {
  ok_records : map_Forall (λ i ss, ss_Index ss = i ∧ 0 < i < 2 ^ 64 ∧ ∃ sd, finals d !! i = Some sd ∧ is_Some (sd_file sd)) (records d);
  ok_flags : map_Forall (λ _ sd, sd_flag sd = None) (finals d)
}.

(** The listing of the directory has every snapshot. *)
Definition lists d (listing : list DirName) : Prop := ∀ i, is_Some (finals d !! i) → FinalName i ∈ listing.

Lemma rootOf_onRoot dir f d : rootOf (onRoot dir f d) dir = f (rootOf d dir).
Proof. rewrite /rootOf /onRoot. proj_simpl. by rewrite lookup_insert_eq. Qed.
Lemma log_onRoot dir f d : dk_log (onRoot dir f d) = dk_log d.
Proof. done. Qed.

Definition unflag (sd : SSDir) : SSDir := sd <| sd_flag := None |>.

(** What clearing up does to the directory [i], if it is the only one with a flag. *)
Definition only_flag d i ss : Prop :=
  ss_Index ss = i ∧ i ≠ 0 ∧ (∃ sd, finals d !! i = Some sd ∧ sd_flag sd = Some ss) ∧
  ∀ j sd, finals d !! j = Some sd → j ≠ i → sd_flag sd = None.

Definition same d d' : Prop := finals d' = finals d ∧ records d' = records d.

Lemma finals_env i d : finalDir (getEnv sn i) d = finals d !! i.
Proof. done. Qed.

(** Directories without a flag are left alone. *)
Lemma process_unflagged mrss d name : (∀ i sd, name = FinalName i → finals d !! i = Some sd → sd_flag sd = None) →
  ∃ d', processDir sn mrss d name = Some d' ∧ same d d'.
Proof.
  intros Hf. destruct name as [i|i f|i f]; cbn [processDir].
  - rewrite finals_env. destruct (finals d !! i) as [sd|] eqn:E; [|by exists d]. rewrite (Hf i sd) //. by exists d.
  - eexists. split; [done|]. rewrite /same /finals /records rootOf_onRoot log_onRoot. by proj_simpl.
  - eexists. split; [done|]. rewrite /same /finals /records rootOf_onRoot log_onRoot. by proj_simpl.
Qed.

Lemma process_flagged mrss d i ss : only_flag d i ss →
  ∃ d', processDir sn mrss d (FinalName i) = Some d' ∧
    if match mrss with Some m => ss_Index m =? i | None => false end
    then finals d' = alter unflag i (finals d) ∧ records d' = records d
    else finals d' = delete i (finals d) ∧ records d' = delete i (records d).
Proof.
  intros (Hi & H0 & (sd & Hsd & Hfl) & _). cbn [processDir]. rewrite finals_env Hsd Hfl /IsEmptySnapshot Hi.
  destruct (Z.eqb_spec i 0); [done|].
  assert (match mrss with None => true | Some m => negb (ss_Index m =? i) end = negb (match mrss with Some m => ss_Index m =? i | None => false end)) as ->.
  { by destruct mrss. }
  destruct (match mrss with Some m => ss_Index m =? i | None => false end); cbn [negb].
  - eexists. split; [done|]. rewrite /finals /records /RemoveFlagFile rootOf_onRoot log_onRoot. by proj_simpl.
  - eexists. split; [done|]. rewrite /finals /records /RemoveFinalDir rootOf_onRoot log_onRoot /DeleteSnapshot. by proj_simpl.
Qed.

Definition process mrss (a : option Disk) (listing : list DirName) : option Disk :=
  foldl (λ (a : option Disk) name, d ← a; processDir sn mrss d name) a listing.

Lemma orphans_clean mrss d listing : map_Forall (λ _ sd, sd_flag sd = None) (finals d) →
  ∃ d', process mrss (Some d) listing = Some d' ∧ same d d'.
Proof.
  revert d. induction listing as [|name listing IH]; intros d Hf; [by exists d|]. cbn [process foldl mbind option_bind].
  destruct (process_unflagged mrss d name) as (d1 & -> & Hs1 & Hs2); [intros i sd _; apply Hf|].
  destruct (IH d1) as (d' & E & Hs3 & Hs4); [by rewrite Hs1|]. exists d'. split; [done|]. split; [by rewrite Hs3|by rewrite Hs4].
Qed.

Lemma orphans_flag mrss d i ss listing : only_flag d i ss → FinalName i ∈ listing →
  ∃ d', process mrss (Some d) listing = Some d' ∧
    if match mrss with Some m => ss_Index m =? i | None => false end
    then finals d' = alter unflag i (finals d) ∧ records d' = records d
    else finals d' = delete i (finals d) ∧ records d' = delete i (records d).
Proof.
  revert d. induction listing as [|name listing IH]; intros d Ho Hin; [by apply elem_of_nil in Hin|]. cbn [process foldl mbind option_bind].
  destruct (decide (name = FinalName i)) as [->|Hne].
  - destruct (process_flagged mrss d i ss Ho) as (d1 & -> & Hd1). destruct Ho as (_ & _ & _ & Hother).
    destruct (orphans_clean mrss d1 listing) as (d' & E & Hf & Hr).
    { destruct (match mrss with Some m => ss_Index m =? i | None => false end), Hd1 as [-> _]; intros j sd.
      - destruct (decide (j = i)) as [->|?]; [rewrite lookup_alter_eq; by intros (? & _ & ->)%fmap_Some|].
        rewrite lookup_alter_ne //. intros ?. by eapply Hother.
      - intros [? ?]%lookup_delete_Some. by eapply Hother. }
    exists d'. split; [done|]. by rewrite Hf Hr.
  - destruct (process_unflagged mrss d name) as (d1 & -> & Hs1 & Hs2).
    { intros j sd -> Hj. destruct Ho as (_ & _ & _ & Hother). eapply Hother; [done|]. by intros ->. }
    destruct (IH d1) as (d' & E & Hd'); [by rewrite /only_flag Hs1| |].
    { apply elem_of_cons in Hin as [|?]; [congruence|done]. }
    exists d'. split; [done|]. by rewrite -Hs1 -Hs2.
Qed.

Lemma recent_recorded d ss : @GetMostRecent Empty_set d = Ok ss → ∃ k, records d !! k = Some ss.
Proof.
  rewrite /GetMostRecent. destruct (last _) as [m|] eqn:E; [|done]. intros [= ->]. apply last_Some_elem_of in E.
  rewrite /ListSnapshots in E. apply list_elem_of_omap in E as (k & _ & E). by exists k.
Qed.

(** The directory of a snapshot that was committed from the temporary directory [sd]. *)
Definition committed_dir ss (sd : SSDir) : SSDir := sd <| sd_metadata := Some ss |> <| sd_flag := None |>.
Definition flagged_dir ss (sd : SSDir) : SSDir := sd <| sd_metadata := Some ss |> <| sd_flag := Some ss |>.
Definition committed d ss sd d' : Prop :=
  finals d' = <[ss_Index ss := committed_dir ss sd]> (finals d) ∧ records d' = <[ss_Index ss := ss]> (records d).

Lemma ok_same d d' : disk_ok d → same d d' → disk_ok d'.
Proof. intros [Hr Hf] [Ef Er]. by constructor; rewrite ?Er ?Ef. Qed.
Lemma ok_committed d ss sd d' : disk_ok d → is_Some (sd_file sd) → 0 < ss_Index ss < 2 ^ 64 → committed d ss sd d' → disk_ok d'.
Proof.
  intros [Hr Hf] Hfile Hi [Ef Er]. constructor; rewrite ?Er ?Ef.
  - apply map_Forall_insert_2; [split_and!; [done|lia|lia|]; eexists; by rewrite lookup_insert_eq|].
    intros i s Hs. destruct (Hr i s Hs) as (H1 & H2 & x & H3 & H4). split_and!; [done|lia|lia|].
    destruct (decide (i = ss_Index ss)) as [->|?]; [eexists; by rewrite lookup_insert_eq|]. exists x. by rewrite lookup_insert_ne.
  - by apply map_Forall_insert_2.
Qed.

Section one_commit.
Context {U : Type} (d : Disk) (ss : Snapshot) (req : SSRequest) (sd : SSDir).
Context (Hexp : isExported req = false) (Htmp : tempDir (getEnv sn (ss_Index ss)) d = Some sd) (Hpos : 0 < ss_Index ss).

Lemma temp_same e f d0 : same d0 (inTemp e f d0).
Proof.
  rewrite /same /finals /records /inTemp log_onRoot. split; [|done]. destruct (decide (env_rootDir e = sn_dir sn)) as [->|Hne].
  - rewrite rootOf_onRoot /onTemp. by destruct (env_mode e); proj_simpl.
  - rewrite /rootOf /onRoot. proj_simpl. by rewrite lookup_insert_ne.
Qed.

(** The disks of a commit: before the rename, between the rename and the removal of
    the flag without and with the record, and at the end. *)
Lemma commit_steps : finals d !! ss_Index ss = None →
  ∃ d1 d2 d3 d4 d5, @commit sn U d ss req = Some ([d; d1; d2; d3; d4; d5], Ok tt) ∧ same d d1 ∧ same d d2 ∧
    (finals d3 = <[ss_Index ss := flagged_dir ss sd]> (finals d) ∧ records d3 = records d) ∧
    (finals d4 = <[ss_Index ss := flagged_dir ss sd]> (finals d) ∧ records d4 = <[ss_Index ss := ss]> (records d)) ∧ committed d ss sd d5.
Proof.
  intros Hnone. rewrite /commit /getCustomEnv Hexp. cbn [mbind option_bind]. rewrite Htmp. cbn zeta.
  set (d1 := SaveSSMetadata _ ss d). set (d2 := createFlagFile _ ss d1). set (d3 := renameToFinalDir _ d2). set (d4 := SaveSnapshots ss d3). set (d5 := RemoveFlagFile _ d4).
  assert (same d d1) as [S1 S1'] by apply temp_same. assert (same d d2) as [S2 S2'].
  { destruct (temp_same (getEnv sn (ss_Index ss)) (λ sd, sd <| sd_flag := Some ss |>) d1) as [Ea Eb]. split; [by rewrite -S1|by rewrite -S1']. }
  exists d1, d2, d3, d4, d5. replace (finalDirExists _ d2) with false; [|symmetry; rewrite /finalDirExists finals_env S2 Hnone; by apply bool_decide_false; intros [? ?]].
  assert (tempDir (getEnv sn (ss_Index ss)) d2 = Some (flagged_dir ss sd)) as Ht2.
  { revert Htmp. rewrite /tempDir /d2 /d1 /createFlagFile /SaveSSMetadata /inTemp !rootOf_onRoot /onTemp. cbn [env_mode getEnv NewSSEnv tempDirs env_rootDir].
    proj_simpl. intros Ht. by rewrite !lookup_alter_eq Ht. }
  assert (finals d3 = <[ss_Index ss := flagged_dir ss sd]> (finals d)) as S3.
  { rewrite -S2 /finals /d3 /renameToFinalDir rootOf_onRoot. rewrite /tempDir in Ht2. rewrite Ht2 /onTemp. cbn [env_mode getEnv NewSSEnv]. by proj_simpl. }
  assert (finals d4 = finals d3) as S4. { rewrite /d4 /SaveSnapshots. destruct (Z.ltb_spec 0 (ss_Index ss)); [done|lia]. }
  assert (records d4 = <[ss_Index ss := ss]> (records d)) as S4'.
  { rewrite /d4 /SaveSnapshots. destruct (Z.ltb_spec 0 (ss_Index ss)); [|lia]. rewrite /records. by proj_simpl. }
  split_and!; [done..|by rewrite S4|done|split; [|done]]. rewrite /finals /d5 /RemoveFlagFile rootOf_onRoot. proj_simpl.
  change (alter (λ sd, sd <| sd_flag := None |>) (ss_Index ss) (finals d4) = <[ss_Index ss := committed_dir ss sd]> (finals d)).
  by rewrite S4 S3 alter_insert_eq.
Qed.

Context (ds : list Disk) (r : result unit (SnapError U)) (Hrun : commit sn d ss req = Some (ds, r)).

Lemma commit_disks d' : d' ∈ ds →
  same d d' ∨
  finals d !! ss_Index ss = None ∧
    (finals d' = <[ss_Index ss := flagged_dir ss sd]> (finals d) ∧ (records d' = records d ∨ records d' = <[ss_Index ss := ss]> (records d)) ∨
     committed d ss sd d').
Proof.
  destruct (finals d !! ss_Index ss) as [old|] eqn:Hold.
  - revert Hrun. rewrite /commit /getCustomEnv Hexp. cbn [mbind option_bind]. rewrite Htmp. cbn zeta.
    set (d1 := SaveSSMetadata _ ss d). set (d2 := createFlagFile _ ss d1). assert (same d d1) as [S1 S1'] by apply temp_same. assert (same d d2) as [S2 S2'].
    { destruct (temp_same (getEnv sn (ss_Index ss)) (λ sd, sd <| sd_flag := Some ss |>) d1) as [Ea Eb]. split; [by rewrite -S1|by rewrite -S1']. }
    replace (finalDirExists _ d2) with true; [|symmetry; rewrite /finalDirExists finals_env S2 Hold; by apply bool_decide_true].
    intros [= <- <-]. rewrite !elem_of_cons elem_of_nil. intros [->|[->|[->|[]]]]; by left.
  - destruct (commit_steps Hold) as (d1 & d2 & d3 & d4 & d5 & E & S1 & S2 & [S3 S3'] & [S4 S4'] & S5). rewrite Hrun in E. injection E as -> _.
    rewrite !elem_of_cons elem_of_nil. intros [->|[->|[->|[->|[->|[->|[]]]]]]]; [by left|by left|by left|right; split; [done|]..];
      [left; split; [done|by left]|left; split; [done|by right]|by right].
Qed.

(** A directory with the flag, without and with its record. *)
Lemma orphan_removed d' listing m : finals d !! ss_Index ss = None → records d !! ss_Index ss = None →
  finals d' = <[ss_Index ss := flagged_dir ss sd]> (finals d) → (records d' = records d ∨ records d' = <[ss_Index ss := ss]> (records d)) →
  map_Forall (λ _ sd, sd_flag sd = None) (finals d) → FinalName (ss_Index ss) ∈ listing →
  ∃ d'', process m (Some d') listing = Some d'' ∧
    if match m with Some m => ss_Index m =? ss_Index ss | None => false end
    then finals d'' = <[ss_Index ss := committed_dir ss sd]> (finals d) ∧ records d'' = records d'
    else same d d''.
Proof.
  intros Hn Hnr Ef Er Hf Hin. destruct (orphans_flag m d' (ss_Index ss) ss listing) as (d'' & E & Hd'').
  - split_and!; [done|lia|rewrite Ef; eexists; by rewrite lookup_insert_eq|]. intros j x. rewrite Ef. intros Hj Hne. rewrite lookup_insert_ne in Hj; [done|]. by eapply Hf.
  - done.
  - exists d''. split; [done|]. destruct (match m with Some m => ss_Index m =? ss_Index ss | None => false end), Hd'' as [Hf'' Hr''].
    + split; [|done]. by rewrite Hf'' Ef alter_insert_eq.
    + split; [rewrite Hf'' Ef delete_insert_id //|]. rewrite Hr''. destruct Er as [->| ->]; [by rewrite delete_id|by rewrite delete_insert_id].
Qed.

(** C8: a crash anywhere in the commit of a snapshot is harmless.  Clearing up at the
    next start succeeds and leaves the directories and records either as they were
    before the commit or as the finished commit leaves them, and every recorded
    snapshot with its file and without a flag. *)
Theorem commit_atomic d' listing :
  disk_ok d → is_Some (sd_file sd) → ss_Index ss < 2 ^ 64 → d' ∈ ds → lists d' listing →
  ∃ d'', processOrphans sn listing d' = Some d'' ∧ disk_ok d'' ∧ (same d d'' ∨ committed d ss sd d'').
Proof.
  intros Hok Hfile Hlt Hin Hl. rewrite /processOrphans. set (m := match GetMostRecent d' with Ok ss => Some ss | Err _ => None end).
  change (∃ d'', process m (Some d') listing = Some d'' ∧ disk_ok d'' ∧ (same d d'' ∨ committed d ss sd d'')).
  destruct (commit_disks d' Hin) as [Hs|(Hn & [[Ef Er]|Hc])].
  - destruct (orphans_clean m d' listing) as (d'' & E & Hs'); [destruct Hs as [-> _]; apply Hok|]. exists d''. split; [done|].
    assert (same d d'') as Hsame by (destruct Hs as [Ea Eb], Hs' as [Ea' Eb']; split; congruence). split; [by eapply ok_same|by left].
  - assert (records d !! ss_Index ss = None) as Hnr.
    { destruct (records d !! ss_Index ss) as [x|] eqn:E; [|done]. destruct (ok_records _ Hok _ _ E) as (_ & _ & y & Hy & _). congruence. }
    destruct (orphan_removed d' listing m Hn Hnr Ef Er) as (d'' & E & Hd''); [apply Hok|apply Hl; rewrite Ef; by rewrite lookup_insert_eq|].
    exists d''. split; [done|]. destruct (match m with Some m => ss_Index m =? ss_Index ss | None => false end) eqn:Em.
    + destruct Er as [Er|Er]; [exfalso|assert (committed d ss sd d'') by (split; [apply Hd''|rewrite -Er; apply Hd'']); split; [by eapply ok_committed|by right]].
      subst m. destruct (GetMostRecent d') as [x|] eqn:Ex; [|done]. apply recent_recorded in Ex as [k Hk]. rewrite Er in Hk.
      destruct (ok_records _ Hok _ _ Hk) as (Hxk & _). apply Z.eqb_eq in Em. congruence.
    + split; [by eapply ok_same|by left].
  - assert (disk_ok d') as Hok' by by eapply ok_committed. destruct (orphans_clean m d' listing) as (d'' & E & Hs'); [apply Hok'|].
    exists d''. split; [done|]. split; [by eapply ok_same|]. right. destruct Hc as [Ea Eb], Hs' as [Ea' Eb']. split; congruence.
Qed.
End one_commit.
End crashes.

(** A disk with a recorded snapshot at 7 and a new one, complete, in a temporary
    directory. *)
Definition demo_snapshotter : snapshotter := {| sn_dir := "/ss"; sn_clusterID := 1; sn_nodeID := 1 |}.
Definition demo_snap (i : Z) : Snapshot := noSnapshot <| ss_Index := i |> <| ss_Term := 1 |>.
Definition demo_disk : Disk :=
  {| dk_roots := {["/ss" := {| rt_final := {[7 := emptyDir <| sd_file := Some (lit "old") |>]};
                               rt_generating := {[(9, 1) := emptyDir <| sd_file := Some (lit "new") |>]};
                               rt_receiving := ∅ |}]};
     dk_log := emptyStore <| st_snapshots := {[7 := demo_snap 7]} |> |}.
Definition demo_commit : list Disk := default [] (fst <$> commit (E := Empty_set) demo_snapshotter demo_disk (demo_snap 9) noSSRequest).
(** The crash after the record was written and before the flag was removed. *)
Definition demo_crash : Disk := default demo_disk (demo_commit !! 4%nat).

Lemma demo_disk_ok : disk_ok demo_snapshotter demo_disk.
Proof.
  constructor; [|by apply (bool_decide_unpack _); vm_compute].
  apply map_Forall_singleton. split_and!; [done|lia|lia|]. eexists. split; [vm_compute; reflexivity|]. by eexists.
Qed.
Lemma commit_atomic_witness :
  ∃ d'', processOrphans demo_snapshotter [FinalName 9; FinalName 7] demo_crash = Some d'' ∧ disk_ok demo_snapshotter d'' ∧
    (same demo_snapshotter demo_disk d'' ∨ committed demo_snapshotter demo_disk (demo_snap 9) (emptyDir <| sd_file := Some (lit "new") |>) d'').
Proof.
  apply (commit_atomic (U := Empty_set) demo_snapshotter demo_disk (demo_snap 9) noSSRequest (emptyDir <| sd_file := Some (lit "new") |>)
    eq_refl ltac:(by vm_compute) ltac:(done) demo_commit (Ok tt)); [vm_compute; reflexivity|apply demo_disk_ok|by eexists|done| |].
  - eapply (list_elem_of_lookup_2 _ 4%nat). by vm_compute.
  - intros i [x Hx]. assert (i ∈ dom (finals demo_snapshotter demo_crash)) as Hi by (apply elem_of_dom; eauto).
    assert (dom (finals demo_snapshotter demo_crash) = {[9; 7]}) as Hd by (apply (bool_decide_unpack _); by vm_compute).
    rewrite Hd in Hi. apply elem_of_union in Hi as [->%elem_of_singleton| ->%elem_of_singleton]; [by left|by right; left].
Defined.

(** A crash between the two halves of [remove] leaves a directory that no later start
    clears up. *)
Example removed_half :
  let d := default demo_disk (remove demo_snapshotter demo_disk 7 !! 1%nat) in
  (λ d', (bool_decide (is_Some (finals demo_snapshotter d' !! 7)), bool_decide (records d' = ∅))) <$>
    processOrphans demo_snapshotter [FinalName 7; GeneratingName 9 1] d = Some (true, true).
Proof. by vm_compute. Qed.
