(* ===== verification/Rsm.v ===== *)
(** * The replicated state machine

    internal/dragonboat/internal/rsm/statemachine.go: the state machine of a replica.
    It takes tasks from its queue, applies committed entries to the managed machine,
    to the client sessions or to the membership, saves snapshots and recovers from
    them, and tells its node what it did.

    The managed machine is that of RsmMachine, sessions are those of RsmSession, the
    membership is that of RsmMembers and snapshots go through Snapshotter.  Calls to
    the node are recorded in [s_calls].  [None] is a panic.  Locks are not modelled:
    each operation is one step, and a save of a concurrent machine is the two steps
    [prepare] and [doSave].  [stopped] and [openStopped] tell the user errors
    ErrSnapshotStopped and ErrOpenStopped apart. *)
From S2P Require Import Prelude GoStrings Wire Raftpb RaftLog LogReader RaftPeer RsmMembers GoJson RsmSession RsmMachine SnapshotIo Snapshotter.
From Stdlib Require Import Ascii.

Local Open Scope Z_scope.

(** What the machine tells its node. *)
Inductive Call :=
| CallStepReady
| CallRestoreRemotes (ss : Snapshot)
| CallApplyUpdate (e : Entry) (r : Result) (rejected ignored last : bool)
| CallApplyConfigChange (cc : ConfigChange) (key : Z) (rejected : bool).

Inductive RsmError (E : Type) :=
| ErrRestoreSnapshot | ErrOutOfDate | ErrSnapshotStopped | ErrClosed | FromSnapshotter (e : SnapError E) | FromMachine (e : SmError E).
Arguments ErrRestoreSnapshot {E}.
Arguments ErrOutOfDate {E}.
Arguments ErrSnapshotStopped {E}.
Arguments ErrClosed {E}.
Arguments FromSnapshotter {E} _.
Arguments FromMachine {E} _.

Record StateMachine (M : Type) := {
  s_lastIndex : Z;
  s_lastTerm : Z;
  s_index : Z;
  s_term : Z;
  s_syncedIndex : Z;
  s_sm : NativeSM M;
  s_sessions : lrusession;
  s_members : membership;
  s_snapshotIndex : Z;
  s_onDiskInitIndex : Z;
  s_onDiskIndex : Z;
  s_taskQ : TaskQueue;
  s_onDiskSM : bool;
  s_aborted : bool;
  s_isWitness : bool;
  s_sct : Z;
  s_calls : list Call
}.
Arguments s_lastIndex {M} _.
Arguments s_lastTerm {M} _.
Arguments s_index {M} _.
Arguments s_term {M} _.
Arguments s_syncedIndex {M} _.
Arguments s_sm {M} _.
Arguments s_sessions {M} _.
Arguments s_members {M} _.
Arguments s_snapshotIndex {M} _.
Arguments s_onDiskInitIndex {M} _.
Arguments s_onDiskIndex {M} _.
Arguments s_taskQ {M} _.
Arguments s_onDiskSM {M} _.
Arguments s_aborted {M} _.
Arguments s_isWitness {M} _.
Arguments s_sct {M} _.
Arguments s_calls {M} _.
Arguments Build_StateMachine {M} _ _ _ _ _ _ _ _ _ _ _ _ _ _ _ _ _.
#[export] Instance StateMachine_eta {M} : Eta (StateMachine M) := λ s,
  Build_StateMachine (s_lastIndex s) (s_lastTerm s) (s_index s) (s_term s) (s_syncedIndex s) (s_sm s) (s_sessions s) (s_members s)
    (s_snapshotIndex s) (s_onDiskInitIndex s) (s_onDiskIndex s) (s_taskQ s) (s_onDiskSM s) (s_aborted s) (s_isWitness s) (s_sct s)
    (s_calls s).

Section rsm.
Context `{Snappy} `{SnappyStream} {M E X Q A : Type} (I : IStateMachine M E X Q A).
Context (foldRune : Z → Z) (grow : Z → Z) (blockSize : Z) (sn : snapshotter) (nodeID : Z).
Context (stopped openStopped : E → bool).
Implicit Types (s : StateMachine M) (e : Entry) (d : Disk).

(** A step: it panics, or ends in a state with a value or an error. *)
Notation Step B := (option (StateMachine M * result B (RsmError E))).

Definition NewStateMachine (n : NativeSM M) (ordered witness : bool) (sct : Z) : StateMachine M :=
  {| s_lastIndex := 0; s_lastTerm := 0; s_index := 0; s_term := 0; s_syncedIndex := 0; s_sm := n; s_sessions := NewSessionManager;
     s_members := newMembership ordered; s_snapshotIndex := 0; s_onDiskInitIndex := 0; s_onDiskIndex := 0; s_taskQ := NewTaskQueue;
     s_onDiskSM := ism_OnDisk I; s_aborted := false; s_isWitness := witness; s_sct := sct; s_calls := [] |}.

Definition call (c : Call) s : StateMachine M := s <| s_calls ::= λ l, l ++ [c] |>.
Definition Concurrent : bool := ism_Concurrent I.
Definition OnDiskStateMachine s : bool := s_onDiskSM s && negb (s_isWitness s).
Definition GetLastApplied s : Z := s_lastIndex s.

(** ** Applying entries *)
Definition setApplied s (index term : Z) : option (StateMachine M) :=
  if negb (u64 (s_index s + 1) =? index) then None
  else if term <? s_term s then None
  else Some (s <| s_index := index |> <| s_term := term |>).

Fixpoint checkEntries (index term : Z) (ents : list Entry) : bool :=
  match ents with
  | [] => true
  | e :: ents =>
      negb (e_Index e =? 0) && negb (e_Term e =? 0) && (e_Index e =? u64 (index + 1)) && (term <=? e_Term e) &&
      checkEntries (e_Index e) (e_Term e) ents
  end.
Definition setLastApplied s (ents : list Entry) : option (StateMachine M) :=
  match ents with
  | [] => Some s
  | first :: rest =>
      if (e_Index first =? 0) || (e_Term first =? 0) || negb (checkEntries (e_Index first) (e_Term first) rest) then None
      else if negb (u64 (s_lastIndex s + 1) =? e_Index first) then None
      else if e_Term first <? s_lastTerm s then None
      else let l := default first (last ents) in
           Some (s <| s_lastIndex := e_Index l |> <| s_lastTerm := e_Term l |>)
  end.

Definition getEntryTypes (ents : list Entry) : bool * bool := (forallb IsUpdateEntry ents, forallb IsNoOPSession ents).

Definition entryInInitDiskSM s (index : Z) : bool := if OnDiskStateMachine s then index <=? s_onDiskInitIndex s else false.

Definition setOnDiskIndex s (first last : Z) : option (StateMachine M) :=
  if negb (OnDiskStateMachine s) then Some s
  else if last <? first then None
  else if first <=? s_onDiskInitIndex s then None
  else if first <=? s_onDiskIndex s then None
  else Some (s <| s_onDiskIndex := last |>).

(** [onApplied], as it is called: an update that is neither ignored nor rejected. *)
Definition onApplied s e (r : Result) (last : bool) : StateMachine M := call (CallApplyUpdate e r false false last) s.

(** The loops of [handleBatch]: what is handed to the machine, and its results. *)
Fixpoint collect s (input : list Entry) : option (StateMachine M * list SmEntry * nat) :=
  match input with
  | [] => Some (s, [], 0%nat)
  | e :: input =>
      if negb (entryInInitDiskSM s (e_Index e)) then
        payload ← GetPayload e;
        r ← collect s input;
        let '(s, ents, skipped) := (r : StateMachine M * list SmEntry * nat) in
        Some (s, {| sme_Index := e_Index e; sme_Cmd := payload; sme_Result := noResult |} :: ents, skipped)
      else
        s ← setApplied s (e_Index e) (e_Term e);
        r ← collect s input;
        let '(s, ents, skipped) := (r : StateMachine M * list SmEntry * nat) in
        Some (s, ents, S skipped)
  end.
Fixpoint deliver s (lastIndex : Z) (input : list Entry) (results : list SmEntry) : option (StateMachine M) :=
  match results with
  | [] => Some s
  | r :: results =>
      match input with
      | [] => None
      | ce :: input =>
          if negb (e_Index ce =? sme_Index r) then None
          else
            let s := onApplied s ce (sme_Result r) (e_Index ce =? lastIndex) in
            s ← setApplied s (e_Index ce) (e_Term ce);
            deliver s lastIndex input results
      end
  end.
Definition handleBatch s (input : list Entry) : Step unit :=
  r ← collect s input;
  let '(s, ents, skipped) := (r : StateMachine M * list SmEntry * nat) in
  match ents with
  | [] => Some (s, Ok tt)
  | first :: _ =>
      '(n, r) ← BatchedUpdate I (s_sm s) ents;
      let s := s <| s_sm := n |> in
      match r with
      | Err x => Some (s, Err (FromMachine (UserError x)))
      | Ok results =>
          l ← last input;
          s ← deliver s (e_Index l) (drop skipped input) results;
          s ← setOnDiskIndex s (sme_Index first) (sme_Index (default first (last ents)));
          Some (s, Ok tt)
      end
  end.

Definition configChange s e : option (StateMachine M) :=
  match UnmarshalConfigChange (e_Cmd e) with
  | Err _ => None
  | Ok cc =>
      '(ms, accepted) ← handleConfigChange foldRune (s_members s) cc (e_Index e);
      s ← setApplied (s <| s_members := ms |>) (e_Index e) (e_Term e);
      Some (call (CallApplyConfigChange cc (e_Key e) (negb accepted)) s)
  end.

Definition registerSession s e : option (StateMachine M * Result) :=
  '(rec, r) ← RegisterClientID (s_sessions s) (e_ClientID e);
  s ← setApplied (s <| s_sessions := rec |>) (e_Index e) (e_Term e);
  Some (s, r).
Definition unregisterSession s e : option (StateMachine M * Result) :=
  '(rec, r) ← UnregisterClientID (s_sessions s) (e_ClientID e);
  s ← setApplied (s <| s_sessions := rec |>) (e_Index e) (e_Term e);
  Some (s, r).
Definition noop s e : option (StateMachine M) :=
  if negb (IsEmpty e) || IsSessionManaged e then None else setApplied s (e_Index e) (e_Term e).

(** The part of [update] that runs the machine. *)
Definition runUpdate s e : Step Result :=
  payload ← GetPayload e;
  '(n, r) ← NativeUpdate I (s_sm s) {| sme_Index := e_Index e; sme_Cmd := payload; sme_Result := noResult |};
  let s := s <| s_sm := n |> in
  match r with
  | Err x => Some (s, Err (FromMachine (UserError x)))
  | Ok r => s ← setOnDiskIndex s (e_Index e) (e_Index e); Some (s, Ok r)
  end.

(** [update]: the result, whether to ignore and whether to reject the entry; the index
    is set on every way out. *)
Definition updateBody s e : Step (Result * bool * bool) :=
  if IsNoOPSession e then
    '(s, r) ← runUpdate s e;
    Some (s, match r with Ok r => Ok (r, false, false) | Err x => Err x end)
  else
    '(rec, session) ← ClientRegistered (s_sessions s) (e_ClientID e);
    let s := s <| s_sessions := rec |> in
    match session with
    | None => Some (s, Ok (noResult, false, true))
    | Some session =>
        let session := clearTo session (e_RespondedTo e) in
        let s := s <| s_sessions ::= λ rec, putSession rec (e_ClientID e) session |> in
        let '(v, responded, toUpdate) := UpdateRequired session (e_SeriesID e) in
        if (responded : bool) then Some (s, Ok (noResult, true, false))
        else if negb toUpdate then Some (s, Ok (v, false, false))
        else if bool_decide (is_Some (getResponse session (e_SeriesID e))) then None
        else
          '(s, r) ← runUpdate s e;
          match r with
          | Err x => Some (s, Err x)
          | Ok r =>
              session ← addResponse session (e_SeriesID e) r;
              Some (s <| s_sessions ::= λ rec, putSession rec (e_ClientID e) session |>, Ok (r, false, false))
          end
    end.
Definition update s e : Step (Result * bool * bool) :=
  '(s, r) ← updateBody s e;
  s ← setApplied s (e_Index e) (e_Term e);
  Some (s, r).

Definition handleEntry s e (last : bool) : Step unit :=
  if IsConfigChange e then s ← configChange s e; Some (s, Ok tt)
  else if negb (IsSessionManaged e) then
    if IsEmpty e then
      s ← noop s e; Some (call (CallApplyUpdate e noResult false true last) s, Ok tt)
    else None
  else if IsNewSessionRequest e then
    '(s, r) ← registerSession s e; Some (call (CallApplyUpdate e r (isEmptyResult r) false last) s, Ok tt)
  else if IsEndOfSessionRequest e then
    '(s, r) ← unregisterSession s e; Some (call (CallApplyUpdate e r (isEmptyResult r) false last) s, Ok tt)
  else if negb (entryInInitDiskSM s (e_Index e)) then
    '(s, r) ← update s e;
    match r with
    | Err x => Some (s, Err x)
    | Ok r =>
        let '(v, ignored, rejected) := (r : Result * bool * bool) in
        Some (if (ignored : bool) then s else call (CallApplyUpdate e v rejected ignored last) s, Ok tt)
    end
  else s ← noop s (noEntry <| e_Index := e_Index e |> <| e_Term := e_Term e |>); Some (s, Ok tt).

Fixpoint handleEntries s (lastTask : bool) (ents : list Entry) : Step unit :=
  match ents with
  | [] => Some (s, Ok tt)
  | e :: ents =>
      '(s, r) ← handleEntry s e (lastTask && bool_decide (ents = []));
      match r with Err x => Some (s, Err x) | Ok _ => handleEntries s lastTask ents end
  end.

(** [batchedEntryApply] is on. *)
Fixpoint handle s (tasks : list Task) : Step unit :=
  match tasks with
  | [] => Some (s, Ok tt)
  | t :: tasks =>
      sync ← (if IsSnapshotTask t then Some true else isSyncTask t);
      if (sync : bool) then None
      else
        let '(update, noop) := getEntryTypes (t_Entries t) in
        '(s, r) ← (if Concurrent && update && noop then handleBatch s (t_Entries t)
                   else handleEntries s (bool_decide (tasks = [])) (t_Entries t));
        match r with
        | Err x => Some (s, Err x)
        | Ok _ => s ← setLastApplied s (t_Entries t); handle s tasks
        end
  end.

(** ** Synchronizing *)
Definition setSyncedIndex s (index : Z) : option (StateMachine M) :=
  if index <? s_syncedIndex s then None else Some (s <| s_syncedIndex := index |>).
Definition sync s : Step unit :=
  if negb (OnDiskStateMachine s) then Some (s, Ok tt)
  else
    let index := GetLastApplied s in
    '(n, err) ← NativeSync I (s_sm s);
    let s := s <| s_sm := n |> in
    match err with
    | Some x => Some (s, Err (FromMachine (UserError x)))
    | None => s ← setSyncedIndex s index; Some (s, Ok tt)
    end.

(** ** Handle: the tasks up to the next one for the snapshot workers *)
Fixpoint handleLoop (fuel : nat) s (batch : list Task) : Step Task :=
  let '(q, rec) := Get (s_taskQ s) in
  let s := s <| s_taskQ := q |> in
  match rec with
  | None => '(s, r) ← handle s batch; Some (s, match r with Ok _ => Ok emptyTask | Err x => Err x end)
  | Some rec =>
      if IsSnapshotTask rec then
        '(s, r) ← handle s batch; Some (s, match r with Ok _ => Ok rec | Err x => Err x end)
      else
        match fuel with
        | O => None
        | S fuel =>
            isSync ← isSyncTask rec;
            if negb isSync then handleLoop fuel s (batch ++ [rec])
            else
              '(s, r) ← sync s;
              match r with Err x => Some (s, Err x) | Ok _ => handleLoop fuel s batch end
        end
  end.
(** The first round is the same as the others, but for a snapshot task, which is
    handed out at once. *)
Definition Handle s : Step Task :=
  let '(q, rec) := Get (s_taskQ s) in
  match rec with
  | None => '(s, r) ← handle (s <| s_taskQ := q |>) []; Some (s, match r with Ok _ => Ok emptyTask | Err x => Err x end)
  | Some rec =>
      if IsSnapshotTask rec then Some (call CallStepReady (s <| s_taskQ := q |>), Ok rec)
      else
        '(s, r) ← handleLoop (length (tq_tasks (s_taskQ s))) s [];
        Some (call CallStepReady s, r)
  end.

(** ** Recovering from a snapshot *)
(** [getSnapshot]; at the start any error but the missing snapshot is dropped. *)
Definition getSnapshot d (t : Task) : result Snapshot (RsmError E) :=
  if negb (t_Initial t) then
    match GetSnapshot d (t_Index t) with
    | Ok ss => Ok ss
    | Err x => if IsNoSnapshotError x then Err (FromSnapshotter x) else Err ErrRestoreSnapshot
    end
  else
    match @GetMostRecent E d with
    | Ok ss => Ok ss
    | Err _ => Ok noSnapshot
    end.

Definition mustBeOnDiskSM s : option unit := if OnDiskStateMachine s then Some tt else None.

Definition recoverRequired s d (ss : Snapshot) (init : bool) : option bool :=
  _ ← mustBeOnDiskSM s;
  r ← Shrunk (E := E) blockSize sn d ss;
  match r with
  | Err _ => None
  | Ok shrunk =>
      if negb init && shrunk then None
      else if init then
        Some (if (shrunk : bool) then false else if ss_Imported ss then true else s_onDiskInitIndex s <? ss_OnDiskIndex ss)
      else Some (s_onDiskIndex s <? ss_OnDiskIndex ss)
  end.
Definition checkRecoverOnDiskSM s (ss : Snapshot) (init : bool) : option unit :=
  _ ← mustBeOnDiskSM s;
  if ss_Imported ss && init then Some tt
  else if ss_OnDiskIndex ss <=? s_onDiskInitIndex s then None
  else if ss_OnDiskIndex ss <=? s_onDiskIndex s then None
  else Some tt.

Definition apply s (ss : Snapshot) : StateMachine M :=
  s <| s_members ::= λ m, setMembers m (ss_Membership ss) |> <| s_lastIndex := ss_Index ss |> <| s_lastTerm := ss_Term ss |>
    <| s_index := ss_Index ss |> <| s_term := ss_Term ss |>.
Definition applyOnDisk s (ss : Snapshot) (init : bool) : option (StateMachine M) :=
  _ ← mustBeOnDiskSM s;
  let s := s <| s_onDiskIndex := ss_OnDiskIndex ss |> in
  let s := if ss_Imported ss && init then s <| s_onDiskInitIndex := ss_OnDiskIndex ss |> else s in
  Some (apply s ss).

(** [snapshotter.Load] over the sessions and the machine. *)
Definition Load s d (ss : Snapshot) : Step unit :=
  r ← openSnapshot (E := E) blockSize sn d ss;
  match r with
  | Err x => Some (s, Err (FromSnapshotter x))
  | Ok x =>
      let '(v, data, valid) := (x : SSVersion * bytes * bool) in
      '(rec, r) ← loadLRU (s_sessions s) v data;
      let s := s <| s_sessions := rec |> in
      match r with
      | Err x => Some (s, Err (FromSnapshotter (SnapRead x)))
      | Ok rest =>
          '(n, err) ← NativeRecover I (s_sm s) rest;
          let s := s <| s_sm := n |> in
          match err with
          | Some x => Some (s, Err (FromMachine (UserError x)))
          | None => if (valid : bool) then Some (s, Ok tt) else None
          end
      end
  end.
Definition isStopped (x : RsmError E) : bool := match x with FromMachine (UserError x) => stopped x | _ => false end.
Definition doRecover s d (ss : Snapshot) : Step unit :=
  '(s, r) ← Load s d ss;
  match r with
  | Err x => Some (if isStopped x then s <| s_aborted := true |> else s, Err x)
  | Ok _ => Some (apply s ss, Ok tt)
  end.
Definition recover s d (ss : Snapshot) (init : bool) : Step unit :=
  if ss_Index ss <=? GetLastApplied s then Some (s, Err ErrOutOfDate)
  else if s_aborted s then Some (s, Err ErrSnapshotStopped)
  else if ss_Witness ss || ss_Dummy ss then Some (apply s ss, Ok tt)
  else if negb (OnDiskStateMachine s) then doRecover s d ss
  else
    required ← recoverRequired s d ss init;
    if (required : bool) then
      _ ← checkRecoverOnDiskSM s ss init;
      '(s, r) ← doRecover s d ss;
      match r with
      | Err x => Some (s, Err x)
      | Ok _ => s ← applyOnDisk s ss init; Some (s, Ok tt)
      end
    else Some (apply s ss, Ok tt).
Definition Recover s d (t : Task) : Step Z :=
  match getSnapshot d t with
  | Err x => Some (s, Err x)
  | Ok ss =>
      if IsEmptySnapshot ss then Some (s, Ok 0)
      else
        '(s, r) ← recover s d ss (t_Initial t);
        match r with
        | Err x => Some (s, Err x)
        | Ok _ => Some (call (CallRestoreRemotes ss) s, Ok (ss_Index ss))
        end
  end.

Definition ReadyToStream s : bool := if negb (OnDiskStateMachine s) then true else s_onDiskInitIndex s <=? GetLastApplied s.

Definition OpenOnDiskStateMachine s : Step Z :=
  _ ← mustBeOnDiskSM s;
  '(n, r) ← NativeOpen I (s_sm s);
  let s := s <| s_sm := n |> in
  match r with
  | Err x => Some (if openStopped x then s <| s_aborted := true |> else s, Err (FromMachine (UserError x)))
  | Ok index => Some (s <| s_onDiskInitIndex := index |> <| s_onDiskIndex := index |>, Ok index)
  end.

(** ** Looking up *)
Definition machineRead {B} (r : option (result B (SmError E))) : option (result B (RsmError E)) :=
  r ← r; Some (match r with Ok b => Ok b | Err x => Err (FromMachine x) end).
Definition Lookup s (q : Q) : option (result A (RsmError E)) :=
  if Concurrent then machineRead (ConcurrentLookup I (s_sm s) q)
  else if s_aborted s then Some (Err ErrClosed) else machineRead (NativeLookup I (s_sm s) q).
Definition NALookup s (q : bytes) : option (result bytes (RsmError E)) :=
  if Concurrent then machineRead (NAConcurrentLookup I (s_sm s) q)
  else if s_aborted s then Some (Err ErrClosed) else machineRead (NativeNALookup I (s_sm s) q).
Definition GetMembership s : Membership := getMembers (s_members s).

(** ** Saving a snapshot *)
Definition isDummySnapshot s (r : SSRequest) : bool := OnDiskStateMachine s && negb (isExported r) && negb (isStreaming r).

Definition getSSMeta s (c : option X) (r : SSRequest) : option (StateMachine M * SSMeta X) :=
  if isEmpty (s_members s) then None
  else
    '(rec, session) ← saveLRU (s_sessions s);
    Some (s <| s_sessions := rec |>,
          {| sx_From := nodeID; sx_Index := s_index s; sx_Term := s_term s; sx_OnDiskIndex := s_onDiskIndex s; sx_Request := r;
             sx_Membership := getMembers (s_members s); sx_Type := ism_Type I; sx_Session := session; sx_Ctx := c;
             sx_CompressionType := if isDummySnapshot s r then NoCompressionNumber else s_sct s |}).

Definition checkSnapshotStatus s (r : SSRequest) : option (option (RsmError E)) :=
  if s_aborted s then Some (Some ErrSnapshotStopped)
  else
    let index := GetLastApplied s in
    if index <? s_snapshotIndex s then None
    else if negb (OnDiskStateMachine s) && negb (isExported r) && (0 <? index) && (index =? s_snapshotIndex s)
    then Some (Some ErrOutOfDate)
    else Some None.

Definition prepare s (r : SSRequest) : Step (SSMeta X) :=
  err ← checkSnapshotStatus s r;
  match err with
  | Some x => Some (s, Err x)
  | None =>
      if Concurrent && negb (isDummySnapshot s r) then
        '(n, c) ← NativePrepare I (s_sm s);
        let s := s <| s_sm := n |> in
        match c with
        | Err x => Some (s, Err (FromMachine (UserError x)))
        | Ok c => '(s, meta) ← getSSMeta s (Some c) r; Some (s, Ok meta)
        end
      else '(s, meta) ← getSSMeta s None r; Some (s, Ok meta)
  end.

(** Saving changes the disk: the step comes with it. *)
Definition doSave s d (meta : SSMeta X) (now : Z) : option (StateMachine M * Disk * result Snapshot (RsmError E)) :=
  r ← Snapshotter.Save blockSize sn d (λ meta, NativeSave I (s_sm s) (sx_Request meta) (sx_Ctx meta) (sx_Session meta)) meta now;
  let '(d, n, _, r) := (r : Disk * NativeSM M * SSEnv * result Snapshot (SnapError E)) in
  let s := s <| s_sm := n |> in
  Some (match r with
        | Err x => (s, d, Err (FromSnapshotter x))
        | Ok ss => (s <| s_snapshotIndex := sx_Index meta |>, d, Ok ss)
        end).

Definition Save s d (r : SSRequest) (now : Z) : option (StateMachine M * Disk * result Snapshot (RsmError E)) :=
  if isStreaming r then None
  else if s_isWitness s then None
  else
    '(s, meta) ← prepare s r;
    match meta with
    | Err x => Some (s, d, Err x)
    | Ok meta =>
        '(s, err) ← (if Concurrent then sync s else Some (s, Ok tt));
        match err with
        | Err x => Some (s, d, Err x)
        | Ok _ => doSave s d meta now
        end
    end.

(** [Stream]: what goes to the sink, before compression. *)
Definition Stream s : Step (SSMeta X * bytes) :=
  '(s, meta) ← prepare s {| sq_Type := Streaming; sq_Key := 0; sq_Path := ""; sq_OverrideCompaction := false; sq_CompactionOverhead := 0 |};
  match meta with
  | Err x => Some (s, Err x)
  | Ok meta =>
      '(n, r) ← NativeStream I (s_sm s) (sx_Ctx meta);
      Some (s <| s_sm := n |>, match r with Ok out => Ok (meta, out) | Err x => Err (FromMachine (UserError x)) end)
  end.
End rsm.
