(* ===== verification/RsmApply.v ===== *)
(** * Applying entries

    Theorems about Rsm: how the entries are cut into tasks and whether they go to the
    machine in batches makes no difference, a command of a client session is applied
    at most once, and well-formed entries are applied without a panic. *)
From S2P Require Import Prelude GoStrings Wire Raftpb RaftLog LogReader RaftPeer RsmMembers GoJson RsmSession RsmMachine SnapshotIo Snapshotter Rsm.
From Stdlib Require Import Ascii.

Local Open Scope Z_scope.

(** ** Calls without the mark of the last entry

    The mark tells the node when to wake up; it depends on how entries come. *)
Definition forgetLast (c : Call) : Call :=
  match c with CallApplyUpdate e r rejected ignored _ => CallApplyUpdate e r rejected ignored false | _ => c end.
Definition alike {M} (s t : StateMachine M) : Prop :=
  t = s <| s_calls := s_calls t |> ∧ forgetLast <$> s_calls t = forgetLast <$> s_calls s.

Definition result_alike {M B E} (r r' : option (StateMachine M * result B E)) : Prop :=
  match r, r' with
  | Some (s, x), Some (s', x') => alike s s' ∧ x = x'
  | None, None => True
  | _, _ => False
  end.

(** ** Machines that apply their entries one after the other *)
Class SequentialMachine {M E X Q A} (I : IStateMachine M E X Q A) : Prop := {
  seq_single m e m' l : ism_Update I m [e] = Some (m', Ok l) → ∃ r, l = [e <| sme_Result := r |>];
  seq_cons m e es : es ≠ [] →
    ism_Update I m (e :: es) =
      match ism_Update I m [e] with
      | Some (m1, Ok l) =>
          match ism_Update I m1 es with
          | Some (m2, Ok l') => Some (m2, Ok (l ++ l'))
          | Some (m2, Err x) => Some (m2, Err x)
          | None => None
          end
      | Some (m1, Err x) => Some (m1, Err x)
      | None => None
      end
}.

Section alike.
Context {M : Type}.
Implicit Types (s t : StateMachine M).

#[export] Instance alike_equiv : Equivalence (@alike M).
Proof.
  split.
  - intros s. split; [by destruct s|done].
  - intros s t [E1 E2]. split; [|done]. destruct s, t. cbn in *. rewrite /upd /= in E1 |- *. by injection E1 as -> -> -> -> -> -> -> -> -> -> -> -> -> -> -> ->.
  - intros s t u [E1 E2] [E3 E4]. split; [|by rewrite E4]. rewrite E3 {1}E1. by destruct s.
Qed.

Lemma alike_calls s c : forgetLast <$> c = forgetLast <$> s_calls s → alike s (s <| s_calls := c |>).
Proof. intros E. by split. Qed.
End alike.

(** ** Updates that are not in a client session *)
Section batches.
Context `{Snappy} {M U X Q A : Type} (I : IStateMachine M U X Q A) `{SequentialMachine M U X Q A I}.
Context (foldRune : Z → Z).
Implicit Types (s t : StateMachine M) (e : Entry) (es : list Entry).

(** [es] follows the index [i] without a gap. *)
Fixpoint consecutive (i : Z) es : Prop :=
  match es with [] => True | e :: es => e_Index e = i + 1 ∧ i + 1 < 2 ^ 64 ∧ consecutive (i + 1) es end.

Definition plainUpdate e : Prop := IsUpdateEntry e = true ∧ IsNoOPSession e = true.

Definition okOf {B} (r : option (StateMachine M * result B (RsmError U))) : option (StateMachine M) :=
  match r with Some (s, Ok _) => Some s | _ => None end.

(** One entry, and the entries one by one. *)
Definition applyOne s e : option (StateMachine M) :=
  if entryInInitDiskSM s (e_Index e) then setApplied s (e_Index e) (e_Term e)
  else
    match runUpdate I s e with
    | Some (s, Ok r) => s ← setApplied s (e_Index e) (e_Term e); Some (onApplied s e r false)
    | _ => None
    end.
Fixpoint applyEach s es : option (StateMachine M) :=
  match es with [] => Some s | e :: es => s ← applyOne s e; applyEach s es end.

Notation calls c s := (s <| s_calls := c |>).
Notation ondisk x s := (s <| s_onDiskIndex := x |>).

Lemma setApplied_calls s c i j : setApplied (calls c s) i j = (λ s, calls c s) <$> setApplied s i j.
Proof. destruct s. rewrite /setApplied /upd /=. repeat case_match; done. Qed.
Lemma setApplied_ondisk s x i j : setApplied (ondisk x s) i j = (λ s, ondisk x s) <$> setApplied s i j.
Proof. destruct s. rewrite /setApplied /upd /=. repeat case_match; done. Qed.
Lemma setOnDisk_calls s c i j : setOnDiskIndex (calls c s) i j = (λ s, calls c s) <$> setOnDiskIndex s i j.
Proof. destruct s. rewrite /setOnDiskIndex /OnDiskStateMachine /upd /=. repeat case_match; done. Qed.
Lemma runUpdate_calls s c e : runUpdate I (calls c s) e = prod_map (λ s : StateMachine M, calls c s) id <$> runUpdate I s e.
Proof.
  destruct s. rewrite /runUpdate. destruct (GetPayload e) as [p|]; [|done]. cbn [mbind option_bind]. proj_simpl. cbn.
  destruct (NativeUpdate I _ _) as [[n [r|x]]|]; [|done|done]. cbn [mbind option_bind].
  rewrite /setOnDiskIndex /OnDiskStateMachine /upd /=. repeat case_match; simplify_eq; done.
Qed.

(** Entries in the same order do the same to states that are alike. *)
Lemma alike_intro s t c : t = calls c s → forgetLast <$> c = forgetLast <$> s_calls s → alike s t.
Proof. intros -> E. by apply alike_calls. Qed.
Lemma alike_inv s t : alike s t → ∃ c, t = calls c s ∧ forgetLast <$> c = forgetLast <$> s_calls s.
Proof. intros [E1 E2]. eauto. Qed.

Lemma setApplied_keeps s i j s' : setApplied s i j = Some s' → s_calls s' = s_calls s ∧ s_onDiskIndex s' = s_onDiskIndex s.
Proof. rewrite /setApplied. repeat case_match; try done. intros [= <-]. by proj_simpl. Qed.

Lemma setApplied_alike s t i j s' : alike s t → setApplied s i j = Some s' → ∃ t', setApplied t i j = Some t' ∧ alike s' t'.
Proof.
  intros (c & -> & Ec)%alike_inv E. rewrite setApplied_calls E. eexists. split; [done|]. apply alike_calls.
  by destruct (setApplied_keeps _ _ _ _ E) as [-> _].
Qed.

Lemma applyOne_alike s t e s' : alike s t → applyOne s e = Some s' → ∃ t', applyOne t e = Some t' ∧ alike s' t'.
Proof.
  intros Hst. rewrite /applyOne. destruct (alike_inv _ _ Hst) as (c & -> & Ec).
  assert (entryInInitDiskSM (calls c s) (e_Index e) = entryInInitDiskSM s (e_Index e)) as -> by done. destruct (entryInInitDiskSM s (e_Index e)).
  { by apply setApplied_alike. }
  rewrite runUpdate_calls. destruct (runUpdate I s e) as [[s1 [r|x]]|] eqn:Er; [|done|done]. cbn [fmap option_fmap option_map prod_map id fst snd].
  assert (s_calls s1 = s_calls s) as Hc.
  { revert Er. rewrite /runUpdate. destruct (GetPayload e); [|done]. cbn [mbind option_bind]. destruct (NativeUpdate _ _ _) as [[n [r'|x]]|]; [|done|done].
    cbn [mbind option_bind]. rewrite /setOnDiskIndex. repeat case_match; try done; intros [= <- <-]; by proj_simpl. }
  rewrite setApplied_calls. destruct (setApplied s1 _ _) as [s2|] eqn:Ea; [|done]. cbn [fmap option_fmap option_map mbind option_bind].
  intros [= <-]. eexists. split; [done|]. destruct (setApplied_keeps _ _ _ _ Ea) as [Hc2 _]. rewrite /onApplied /call.
  eapply (alike_intro _ _ (c ++ [CallApplyUpdate e r false false false])); [by destruct s2|]. proj_simpl. by rewrite Hc2 Hc !fmap_app Ec.
Qed.
Lemma applyEach_alike s t es s' : alike s t → applyEach s es = Some s' → ∃ t', applyEach t es = Some t' ∧ alike s' t'.
Proof.
  revert s t. induction es as [|e es IH]; intros s t Hst; cbn [applyEach]; [intros [= <-]; eauto|].
  destruct (applyOne s e) as [s1|] eqn:E1; [|done]. cbn [mbind option_bind]. intros E.
  destruct (applyOne_alike s t e s1 Hst E1) as (t1 & -> & H1). by apply (IH s1 t1).
Qed.

(** A run succeeds with the effect of [o], up to the marks, or does not succeed. *)
Definition does (r : option (StateMachine M * result unit (RsmError U))) (o : option (StateMachine M)) : Prop :=
  match o with
  | Some s' => ∃ s'', r = Some (s'', Ok tt) ∧ alike s' s''
  | None => okOf r = None
  end.

Lemma does_okOf r o : does r o → match okOf r with Some s'' => ∃ s', o = Some s' ∧ alike s' s'' | None => o = None end.
Proof. rewrite /does /okOf. destruct o as [s'|]; [intros (s'' & -> & ?); eauto|]. destruct r as [[s [[]|]]|]; done. Qed.

Lemma handleEntry_plain s e lst : plainUpdate e → does (handleEntry I foldRune s e lst) (applyOne s e).
Proof.
  intros [Hu Hn]. rewrite /handleEntry /does. rewrite /IsUpdateEntry in Hu. apply andb_true_iff in Hu as [[[H1 H2]%andb_true_iff H3]%andb_true_iff H4].
  apply negb_true_iff in H1, H3, H4. rewrite H1 H2 H3 H4. cbn [negb]. rewrite /applyOne. destruct (entryInInitDiskSM s (e_Index e)) eqn:Ed; cbn [negb].
  - rewrite /noop. cbn -[noEntry]. change (IsEmpty _) with true. change (IsSessionManaged _) with false. cbn [negb orb]. proj_simpl.
    destruct (setApplied s (e_Index e) (e_Term e)) as [s1|]; [|done]. eexists. split; [done|]. reflexivity.
  - rewrite /update /updateBody Hn. destruct (runUpdate I s e) as [[s1 [r|x]]|]; cbn [mbind option_bind]; [| |done].
    + destruct (setApplied s1 (e_Index e) (e_Term e)) as [s2|]; [|done]. cbn [mbind option_bind]. eexists. split; [done|].
      eapply (alike_intro _ _ (s_calls s2 ++ [CallApplyUpdate e r false false lst])); [by destruct s2|]. rewrite /onApplied /call. proj_simpl. by rewrite !fmap_app.
    + by destruct (setApplied s1 (e_Index e) (e_Term e)) as [s2|].
Qed.

Lemma does_alike r s t es : alike s t → does r (applyEach t es) → does r (applyEach s es).
Proof.
  intros Hst. rewrite /does. destruct (applyEach s es) as [s'|] eqn:Es.
  - destruct (applyEach_alike s t es s' Hst Es) as (t' & -> & Ht). intros (s'' & -> & ?). exists s''. split; [done|]. by etransitivity.
  - destruct (applyEach t es) as [t'|] eqn:Et; [|done]. symmetry in Hst. destruct (applyEach_alike t s es t' Hst Et) as (s' & Es' & _). congruence.
Qed.

Lemma handleEntries_plain s lt es : Forall plainUpdate es → does (handleEntries I foldRune s lt es) (applyEach s es).
Proof.
  intros Hes. revert s. induction Hes as [|e es He Hes IH]; intros s; [by eexists|]. cbn [handleEntries applyEach].
  pose proof (handleEntry_plain s e (lt && bool_decide (es = [])) He) as H1. apply does_okOf in H1 as H1'. revert H1 H1'. rewrite {1}/does /okOf.
  destruct (applyOne s e) as [s1|]; cbn [mbind option_bind].
  - intros (s1' & -> & Ha) _. cbn [mbind option_bind]. eapply does_alike; [exact Ha|]. apply IH.
  - intros Hn _. cbn [does]. destruct (handleEntry I foldRune s e _) as [[s2 [u|x]]|]; [done|done|done].
Qed.

(** *** The machine's part of a batch *)
Definition smOf e : option SmEntry := payload ← GetPayload e; Some {| sme_Index := e_Index e; sme_Cmd := payload; sme_Result := noResult |}.
Definition withM (m : M) s : StateMachine M := s <| s_sm := (s_sm s) <| ns_sm := m |> |>.

Definition diskOk s (i j : Z) : bool :=
  negb (OnDiskStateMachine s) || ((i <=? j) && (s_onDiskInitIndex s <? i) && (s_onDiskIndex s <? i)).
Definition diskIndex s (j : Z) : Z := if OnDiskStateMachine s then j else s_onDiskIndex s.
Lemma setOnDisk_form s i j : setOnDiskIndex s i j = if diskOk s i j then Some (ondisk (diskIndex s j) s) else None.
Proof.
  rewrite /setOnDiskIndex /diskOk /diskIndex. destruct (OnDiskStateMachine s); cbn [negb orb]; [|by destruct s].
  rewrite !Z.ltb_antisym !Z.leb_antisym. destruct (j <? i), (s_onDiskInitIndex s <? i), (s_onDiskIndex s <? i); done.
Qed.

Definition appliedOk s (i j : Z) : bool := (u64 (s_index s + 1) =? i) && (s_term s <=? j).
Lemma setApplied_form s i j : setApplied s i j = if appliedOk s i j then Some (s <| s_index := i |> <| s_term := j |>) else None.
Proof. rewrite /setApplied /appliedOk Z.ltb_antisym. destruct (_ =? i), (s_term s <=? j); done. Qed.

(** One entry for the machine. *)
Lemma applyOne_run s e : entryInInitDiskSM s (e_Index e) = false →
  applyOne s e =
    se ← smOf e;
    match ism_Update I (ns_sm (s_sm s)) [se] with
    | Some (m, Ok [se']) =>
        if diskOk s (e_Index e) (e_Index e) && appliedOk s (e_Index e) (e_Term e)
        then Some (ondisk (diskIndex s (e_Index e)) (onApplied (withM m s <| s_index := e_Index e |> <| s_term := e_Term e |>) e (sme_Result se') false))
        else None
    | _ => None
    end.
Proof.
  intros Hd. rewrite /applyOne Hd /runUpdate /smOf. destruct (GetPayload e) as [p|]; [|done]. cbn [mbind option_bind].
  rewrite /NativeUpdate /lift. destruct (ism_Update I (ns_sm (s_sm s)) _) as [[m [[|se' [|]]|x]]|]; try done. cbn [mbind option_bind].
  rewrite setOnDisk_form. change (diskOk _ (e_Index e) (e_Index e)) with (diskOk s (e_Index e) (e_Index e)). destruct (diskOk s _ _); [|done].
  cbn [mbind option_bind andb]. rewrite setApplied_form. change (appliedOk _ (e_Index e) (e_Term e)) with (appliedOk s (e_Index e) (e_Term e)).
  destruct (appliedOk s _ _); [|done]. cbn [mbind option_bind]. by destruct s.
Qed.

Definition afterAll (l : list SmEntry) (o : option (StateMachine M)) : option (StateMachine M) :=
  match l with [] => o | first :: _ => s' ← o; setOnDiskIndex s' (sme_Index first) (sme_Index (default first (last l))) end.
Definition batchOf s (L : Z) es : option (StateMachine M) :=
  l ← mapM smOf es;
  match ism_Update I (ns_sm (s_sm s)) l with
  | Some (m, Ok results) => if bool_decide (length results = length l) then afterAll l (deliver (withM m s) L es results) else None
  | _ => None
  end.

Lemma collect_none s es : Forall (λ e, entryInInitDiskSM s (e_Index e) = false) es → collect s es = (λ l, (s, l, 0%nat)) <$> mapM smOf es.
Proof.
  induction 1 as [|e es He Hes IH]; [done|]. cbn [collect mapM]. rewrite He /smOf. cbn [negb]. destruct (GetPayload e) as [p|]; [|done].
  cbn [mbind option_bind]. rewrite IH. by destruct (mapM _ es).
Qed.

Lemma handleBatch_none s es lst : last es = Some lst → Forall (λ e, entryInInitDiskSM s (e_Index e) = false) es →
  okOf (handleBatch I s es) = batchOf s (e_Index lst) es.
Proof.
  intros Hl Hes. rewrite /handleBatch collect_none // /batchOf. destruct (mapM smOf es) as [l|] eqn:El; [|done]. cbn [mbind option_bind fmap option_fmap option_map].
  destruct l as [|first l].
  { apply mapM_Some in El. apply Forall2_length in El. by destruct es. }
  cbn [mbind option_bind]. rewrite /BatchedUpdate /lift. destruct (ism_Update I (ns_sm (s_sm s)) _) as [[m [results|x]]|]; [|done|done].
  cbn [mbind option_bind]. case_bool_decide; [|done]. cbn [mbind option_bind]. rewrite Hl. cbn [mbind option_bind]. rewrite drop_0 /afterAll /withM.
  destruct (deliver _ _ es results) as [s'|]; [|done]. cbn [mbind option_bind]. by destruct (setOnDiskIndex s' _ _).
Qed.

(** *** Results are delivered whatever the disk index and the marks are *)
Lemma deliver_ondisk x s L es rs : deliver (ondisk x s) L es rs = (λ s, ondisk x s) <$> deliver s L es rs.
Proof.
  revert s es. induction rs as [|r rs IH]; intros s es; [by destruct es|]. destruct es as [|e es]; [done|]. cbn [deliver]. case_match; [done|].
  change (onApplied (ondisk x s) e (sme_Result r) (e_Index e =? L)) with (ondisk x (onApplied s e (sme_Result r) (e_Index e =? L))).
  rewrite setApplied_ondisk. destruct (setApplied _ _ _) as [s1|]; [|done]. cbn [fmap option_fmap option_map mbind option_bind]. apply IH.
Qed.
Lemma deliver_keeps s L es rs s' : deliver s L es rs = Some s' →
  OnDiskStateMachine s' = OnDiskStateMachine s ∧ s_onDiskInitIndex s' = s_onDiskInitIndex s ∧ s_onDiskIndex s' = s_onDiskIndex s.
Proof.
  revert s es. induction rs as [|r rs IH]; intros s es; [by destruct es; intros [= <-]|]. destruct es as [|e es]; [done|]. cbn [deliver]. case_match; [done|].
  rewrite setApplied_form. case_match; [|done]. cbn [mbind option_bind]. intros (-> & -> & ->)%IH. done.
Qed.
Lemma onApplied_alike s t e r b b' : alike s t → alike (onApplied s e r b) (onApplied t e r b').
Proof.
  intros (c & -> & Ec)%alike_inv. eapply (alike_intro _ _ (c ++ [CallApplyUpdate e r false false b'])); [by destruct s|].
  rewrite /onApplied /call. proj_simpl. by rewrite !fmap_app Ec.
Qed.
Lemma deliver_alike s t L L' es rs s' : alike s t → deliver s L es rs = Some s' → ∃ t', deliver t L' es rs = Some t' ∧ alike s' t'.
Proof.
  revert s t es. induction rs as [|r rs IH]; intros s t es Hst; [destruct es; intros [= <-]; by exists t|]. destruct es as [|e es]; [done|]. cbn [deliver]. case_match; [done|].
  destruct (setApplied (onApplied s _ _ _) _ _) as [s1|] eqn:E1; [|done]. cbn [mbind option_bind].
  edestruct (setApplied_alike _ (onApplied t e (sme_Result r) (e_Index e =? L')) _ _ _ ltac:(by apply onApplied_alike) E1) as (t1 & -> & Ha1).
  cbn [mbind option_bind]. by apply IH.
Qed.
Lemma setOnDisk_alike s t i j s' : alike s t → setOnDiskIndex s i j = Some s' → ∃ t', setOnDiskIndex t i j = Some t' ∧ alike s' t'.
Proof.
  intros (c & -> & Ec)%alike_inv E. rewrite setOnDisk_calls E. eexists. split; [done|]. apply alike_calls. rewrite Ec.
  revert E. rewrite setOnDisk_form. case_match; [|done]. by intros [= <-].
Qed.

(** Both succeed, alike, or neither does. *)
Definition both (o o' : option (StateMachine M)) : Prop :=
  match o, o' with Some s, Some s' => alike s s' | None, None => True | _, _ => False end.

#[export] Instance both_equiv : Equivalence both.
Proof.
  split.
  - intros [s|]; cbn; [reflexivity|done].
  - intros [s|] [t|]; cbn; [by symmetry|done..].
  - intros [s|] [t|] [u|]; cbn; try done. intros; by etransitivity.
Qed.
Lemma both_trans o o' o'' : both o o' → both o' o'' → both o o''.
Proof. apply transitivity. Qed.

Lemma consecutive_last i e es lst : consecutive i (e :: es) → last (e :: es) = Some lst → e_Index e ≤ e_Index lst.
Proof.
  revert i e. induction es as [|e' es IH]; intros i e (H1 & H2 & Hc) Hl; [injection Hl as <-; lia|]. cbn [last] in Hl.
  destruct Hc as (H3 & H4 & Hc). pose proof (IH (i + 1) e' ltac:(by split_and!) Hl). lia.
Qed.

Lemma not_init_next s e e' : entryInInitDiskSM s (e_Index e) = false → e_Index e ≤ e_Index e' → entryInInitDiskSM s (e_Index e') = false.
Proof. rewrite /entryInInitDiskSM. case_match; [|done]. lia. Qed.

Lemma both_alike o s t es : alike s t → both o (applyEach t es) → both o (applyEach s es).
Proof.
  intros Hst. rewrite /both. destruct (applyEach s es) as [s'|] eqn:Es.
  - destruct (applyEach_alike s t es s' Hst Es) as (t' & -> & Ht). destruct o; [|done]. intros Ho. by rewrite Ho -Ht.
  - destruct (applyEach t es) as [t'|] eqn:Et; [|done]. symmetry in Hst. destruct (applyEach_alike t s es t' Hst Et) as (s' & Es' & _). congruence.
Qed.

Lemma alike_ondisk s t x : alike s t → alike (ondisk x s) (ondisk x t).
Proof. intros (c & -> & Ec)%alike_inv. by eapply (alike_intro _ _ c); [destruct s|]. Qed.
Lemma ondisk_twice s x y : ondisk x (ondisk y s) = ondisk x s.
Proof. by destruct s. Qed.

(** The disk index after one step or two. *)
Lemma setOnDisk_two s t t' (i j k : Z) : alike t t' → OnDiskStateMachine t = OnDiskStateMachine s → s_onDiskInitIndex t = s_onDiskInitIndex s →
  s_onDiskIndex t = s_onDiskIndex s → i < j ≤ k →
  both (setOnDiskIndex t i k) (if diskOk s i i then setOnDiskIndex (ondisk (diskIndex s i) t') j k else None).
Proof.
  intros Ht H1 H2 H3 Hij. destruct (alike_inv _ _ Ht) as (c & -> & Ec). rewrite !setOnDisk_form /diskOk /diskIndex.
  change (OnDiskStateMachine (ondisk _ (calls c t))) with (OnDiskStateMachine t). rewrite !H1 H2. proj_simpl. rewrite H2 H3.
  destruct (OnDiskStateMachine s); cbn [negb orb].
  - destruct (Z.leb_spec i k), (Z.leb_spec i i), (Z.leb_spec j k), (Z.ltb_spec i j); try lia. cbn [andb].
    destruct (Z.ltb_spec (s_onDiskInitIndex s) i), (Z.ltb_spec (s_onDiskIndex s) i), (Z.ltb_spec (s_onDiskInitIndex s) j); try done; try lia.
  - cbn. rewrite ondisk_twice. by apply alike_ondisk.
Qed.

(** Delivering the first result is applying the first entry; the disk index comes last. *)
Lemma batch_first s L e e' es se se' m2 x y l rs :
  let s1 := onApplied (withM m2 s <| s_index := e_Index e |> <| s_term := e_Term e |>) e (sme_Result se') false in
  consecutive (s_index s) (e :: e' :: es) → sme_Index se' = e_Index e → sme_Index se = e_Index e →
  sme_Index x = e_Index e' → last (x :: l) = Some y → e_Index e' ≤ sme_Index y →
  both (afterAll (se :: x :: l) (deliver (withM m2 s) L (e :: e' :: es) (se' :: rs)))
       (if diskOk s (e_Index e) (e_Index e) && appliedOk s (e_Index e) (e_Term e)
        then afterAll (x :: l) (deliver (ondisk (diskIndex s (e_Index e)) s1) L (e' :: es) rs) else None).
Proof.
  intros s1 (Hi & Hb & Hi' & Hb' & Hc) Hse' Hse Hx Hl Hy.
  replace (deliver (withM m2 s) L (e :: e' :: es) (se' :: rs)) with
    (if appliedOk s (e_Index e) (e_Term e)
     then deliver ((onApplied (withM m2 s) e (sme_Result se') (e_Index e =? L)) <| s_index := e_Index e |> <| s_term := e_Term e |>) L (e' :: es) rs else None).
  2: { cbn [deliver]. rewrite Hse' Z.eqb_refl. cbn [negb]. rewrite setApplied_form.
       change (appliedOk (onApplied (withM m2 s) _ _ _) (e_Index e) (e_Term e)) with (appliedOk s (e_Index e) (e_Term e)). by destruct (appliedOk _ _ _). }
  destruct (appliedOk s (e_Index e) (e_Term e)); [|by rewrite andb_false_r]. rewrite andb_true_r deliver_ondisk.
  set (s1' := (onApplied (withM m2 s) e (sme_Result se') (e_Index e =? L)) <| s_index := e_Index e |> <| s_term := e_Term e |>).
  assert (alike s1' s1) as Hs1.
  { eapply (alike_intro _ _ (s_calls s1)); [by destruct s|]. rewrite /s1 /s1' /onApplied /call. proj_simpl. by rewrite !fmap_app. }
  cbn [afterAll]. change (last (se :: x :: l)) with (last (x :: l)). rewrite Hl Hse Hx. cbn [default].
  destruct (deliver s1' L (e' :: es) rs) as [s2|] eqn:E2.
  - destruct (deliver_alike _ _ _ L _ _ _ Hs1 E2) as (t2 & -> & Ht2). destruct (deliver_keeps _ _ _ _ _ E2) as (K1 & K2 & K3).
    cbn [fmap option_fmap option_map mbind option_bind]. apply (setOnDisk_two s s2 t2); [done|done|done|done|cbn; lia].
  - destruct (deliver s1 L (e' :: es) rs) as [t2|] eqn:E3; [|by destruct (diskOk _ _ _)]. symmetry in Hs1.
    destruct (deliver_alike _ _ _ L _ _ _ Hs1 E3) as (s2 & E2' & _). congruence.
Qed.

Lemma smOf_index e se : smOf e = Some se → sme_Index se = e_Index e.
Proof. rewrite /smOf. destruct (GetPayload e); [|done]. by intros [= <-]. Qed.
Lemma mapM_last es l lst : mapM smOf es = Some l → last es = Some lst → ∃ y, last l = Some y ∧ sme_Index y = e_Index lst.
Proof.
  intros Hm%mapM_Some Hl. rewrite last_lookup in Hl. destruct (Forall2_lookup_l _ _ _ _ _ Hm Hl) as (y & Hy & Ey).
  exists y. rewrite last_lookup -(Forall2_length _ _ _ Hm). split; [done|]. by apply smOf_index.
Qed.
Lemma update_first m se l m2 rs : l ≠ [] → ism_Update I m (se :: l) = Some (m2, Ok rs) →
  ∃ m1 r rs', ism_Update I m [se] = Some (m1, Ok [se <| sme_Result := r |>]) ∧ ism_Update I m1 l = Some (m2, Ok rs') ∧
    rs = se <| sme_Result := r |> :: rs'.
Proof.
  intros Hl. rewrite seq_cons //. destruct (ism_Update I m [se]) as [[m1 [l1|]]|] eqn:E1; [|done|done]. destruct (seq_single _ _ _ _ E1) as [r ->].
  destruct (ism_Update I m1 l) as [[m2' [l2|]]|] eqn:E2; [|done|done]. intros [= -> <-]. eauto 10.
Qed.

(** The batch does what its entries do one by one. *)
Lemma both_batch s L es : es ≠ [] → consecutive (s_index s) es → Forall (λ e, entryInInitDiskSM s (e_Index e) = false) es →
  both (batchOf s L es) (applyEach s es).
Proof.
  intros Hne. revert s. induction es as [|e es IH]; [done|]. intros s Hc Hin. apply Forall_cons in Hin as [He Hin]. cbn [applyEach].
  rewrite applyOne_run // /batchOf. cbn [mapM]. destruct (smOf e) as [se|] eqn:Ese; [|done]. cbn [mbind option_bind]. pose proof (smOf_index _ _ Ese) as Hse.
  destruct es as [|e' es].
  - cbn [mapM mret option_ret mbind option_bind]. destruct (ism_Update I _ [se]) as [[m [l|x]]|] eqn:Eu; [|done|done]. destruct (seq_single _ _ _ _ Eu) as [r ->].
    rewrite bool_decide_true //. cbn [afterAll last default deliver]. proj_simpl. rewrite Hse Z.eqb_refl. cbn [negb]. rewrite setApplied_form.
    change (appliedOk (onApplied (withM m s) _ _ _) (e_Index e) (e_Term e)) with (appliedOk s (e_Index e) (e_Term e)).
    destruct (appliedOk s _ _); cbn [mbind option_bind]; [|by rewrite andb_false_r]. rewrite andb_true_r setOnDisk_form.
    change (diskOk _ (e_Index e) (e_Index e)) with (diskOk s (e_Index e) (e_Index e)). destruct (diskOk s _ _); [|done]. cbn [mbind option_bind applyEach both].
    symmetry. eapply (alike_intro _ _ (s_calls s ++ [CallApplyUpdate e r false false (e_Index e =? L)])); [by destruct s|].
    rewrite /onApplied /call. proj_simpl. by rewrite !fmap_app.
  - specialize (IH ltac:(done)). pose proof Hc as (Hi & Hb & Hc'). set (ok := diskOk s (e_Index e) (e_Index e) && appliedOk s (e_Index e) (e_Term e)).
    set (s' := λ m r, ondisk (diskIndex s (e_Index e)) (onApplied (withM m s <| s_index := e_Index e |> <| s_term := e_Term e |>) e r false)).
    assert (∀ m r, both (batchOf (s' m r) L (e' :: es)) (applyEach (s' m r) (e' :: es))) as IH'.
    { intros m r. apply IH; [|done]. change (s_index (s' m r)) with (e_Index e). by rewrite Hi. }
    destruct (last (e' :: es)) as [lst|] eqn:Elast; [|by apply last_None in Elast].
    destruct (ism_Update I (ns_sm (s_sm s)) [se]) as [[m1 [l1|]]|] eqn:E1.
    + destruct (seq_single _ _ _ _ E1) as [r ->]. cbn [sme_Result]. specialize (IH' m1 r). revert IH'. rewrite /batchOf.
      change (ns_sm (s_sm (s' m1 r))) with m1. destruct (mapM smOf (e' :: es)) as [l|] eqn:El; cbn [mbind option_bind].
      * destruct (mapM_last _ _ _ El Elast) as (y & Hy & Ey). destruct l as [|x l]; [done|]. cbn [mret option_ret mbind option_bind]. rewrite (seq_cons _ se) // E1.
        destruct (ism_Update I m1 (x :: l)) as [[m2 [l2|]]|]; [|destruct ok; [|done]; exact id..].
        cbn [app length]. destruct (decide (length l2 = length (x :: l))) as [Hlen|Hlen].
        2: { rewrite !bool_decide_false; [cbn in *; lia..|]. by destruct ok. }
        rewrite !bool_decide_true //; [cbn in *; lia|]. intros IH'.
        assert (sme_Index x = e_Index e') as Hx.
        { apply mapM_Some, Forall2_cons_1 in El as [Ex _]. by apply smOf_index. }
        pose proof (consecutive_last _ _ _ _ Hc' Elast) as Hle.
        lazymatch goal with |- context [deliver (withM m2 s) L (e :: e' :: es) (?se' :: l2)] =>
          pose proof (batch_first s L e e' es se se' m2 x y l l2 Hc Hse Hse Hx Hy ltac:(lia)) as Hbf end. cbn zeta in Hbf. fold ok in Hbf. revert Hbf.
        destruct ok; [|cbn [mbind option_bind]; exact id]. intros Hbf. eapply both_trans; [exact Hbf|]. exact IH'.
      * destruct ok; [|done]. exact id.
    + destruct (mapM smOf (e' :: es)) as [l|] eqn:El; [|done]. cbn [mbind option_bind]. destruct (mapM_last _ _ _ El Elast) as (y & Hy & Ey).
      destruct l as [|x l]; [done|]. cbn [mret option_ret mbind option_bind]. by rewrite (seq_cons _ se) // E1.
    + destruct (mapM smOf (e' :: es)) as [l|] eqn:El; [|done]. cbn [mbind option_bind]. destruct (mapM_last _ _ _ El Elast) as (y & Hy & Ey).
      destruct l as [|x l]; [done|]. cbn [mret option_ret mbind option_bind]. by rewrite (seq_cons _ se) // E1.
Qed.

(** *** The batch and the loop over entries *)
Lemma setApplied_init s i j s' : setApplied s i j = Some s' →
  s_index s' = i ∧ OnDiskStateMachine s' = OnDiskStateMachine s ∧ s_onDiskInitIndex s' = s_onDiskInitIndex s.
Proof. rewrite setApplied_form. case_match; [|done]. by intros [= <-]. Qed.

Lemma consecutive_init s e es : consecutive (s_index s) (e :: es) → entryInInitDiskSM s (e_Index e) = false →
  Forall (λ e, entryInInitDiskSM s (e_Index e) = false) (e :: es).
Proof.
  intros Hc He. assert (∀ i es, consecutive i es → e_Index e ≤ i + 1 → Forall (λ e, entryInInitDiskSM s (e_Index e) = false) es) as Hall.
  { clear Hc es. intros i es. revert i. induction es as [|e' es IH]; intros i; [done|]. intros (H1 & H2 & Hc) Hi. constructor.
    - apply (not_init_next s e); [done|lia].
    - apply (IH (i + 1)); [done|lia]. }
  apply (Hall (s_index s)); [done|]. destruct Hc as (-> & _). lia.
Qed.

Lemma batch_skip s s1 e e' es : entryInInitDiskSM s (e_Index e) = true → setApplied s (e_Index e) (e_Term e) = Some s1 →
  okOf (handleBatch I s (e :: e' :: es)) = okOf (handleBatch I s1 (e' :: es)).
Proof.
  intros He E1. rewrite /handleBatch. cbn [collect]. rewrite He E1. cbn [negb mbind option_bind].
  change (if negb (entryInInitDiskSM s1 (e_Index e')) then _ else _) with (collect s1 (e' :: es)).
  destruct (collect s1 (e' :: es)) as [[[s2 ents] k]|]; [|done]. cbn [mbind option_bind]. by destruct ents.
Qed.

Lemma batch_each s es : consecutive (s_index s) es → both (okOf (handleBatch I s es)) (applyEach s es).
Proof.
  revert s. induction es as [|e es IH]; intros s Hc; [reflexivity|]. destruct (entryInInitDiskSM s (e_Index e)) eqn:He.
  - cbn [applyEach]. rewrite {1}/applyOne He. destruct (setApplied s (e_Index e) (e_Term e)) as [s1|] eqn:E1; cbn [mbind option_bind].
    2: { rewrite /handleBatch. cbn [collect]. by rewrite He E1. }
    destruct (setApplied_init _ _ _ _ E1) as (Hi & _). destruct es as [|e' es].
    { rewrite /handleBatch. cbn [collect]. rewrite He E1. reflexivity. }
    rewrite (batch_skip s s1) //. apply IH. destruct Hc as (Hi' & _ & Hc). by rewrite Hi Hi'.
  - pose proof (consecutive_init _ _ _ Hc He) as Hall. destruct (last (e :: es)) as [lst|] eqn:El; [|by apply last_None in El].
    rewrite (handleBatch_none _ _ lst) //. by apply both_batch.
Qed.
End batches.

(** ** Any entries, in tasks

    Handling an entry neither looks at the calls made and at the last applied entry
    nor changes what is there. *)
Section cuts.
Context `{Snappy} {M U X Q A : Type} (I : IStateMachine M U X Q A) (foldRune : Z → Z).
Implicit Types (s t : StateMachine M) (e : Entry) (es : list Entry) (c : list Call).

Definition besides c (a b : Z) s : StateMachine M := s <| s_calls := c |> <| s_lastIndex := a |> <| s_lastTerm := b |>.

Lemma besides_self s : besides (s_calls s) (s_lastIndex s) (s_lastTerm s) s = s.
Proof. by destruct s. Qed.

Lemma setApplied_besides c a b s i j : setApplied (besides c a b s) i j = besides c a b <$> setApplied s i j.
Proof. rewrite !setApplied_form. change (appliedOk (besides c a b s) i j) with (appliedOk s i j). by destruct (appliedOk s i j). Qed.
Lemma setOnDisk_besides c a b s i j : setOnDiskIndex (besides c a b s) i j = besides c a b <$> setOnDiskIndex s i j.
Proof. rewrite !setOnDisk_form. change (diskOk (besides c a b s) i j) with (diskOk s i j). by destruct (diskOk s i j). Qed.
Lemma runUpdate_besides c a b s e : runUpdate I (besides c a b s) e = prod_map (besides c a b) id <$> runUpdate I s e.
Proof.
  rewrite /runUpdate. destruct (GetPayload e) as [p|]; [|done]. cbn [mbind option_bind]. change (s_sm (besides c a b s)) with (s_sm s).
  destruct (NativeUpdate I _ _) as [[n [r|x]]|]; [|done|done]. cbn [mbind option_bind].
  change ((besides c a b s) <| s_sm := n |>) with (besides c a b (s <| s_sm := n |>)). rewrite setOnDisk_besides.
  by destruct (setOnDiskIndex (s <| s_sm := n |>) _ _).
Qed.
Lemma updateBody_besides c a b s e : updateBody I (besides c a b s) e = prod_map (besides c a b) id <$> updateBody I s e.
Proof.
  rewrite /updateBody. destruct (IsNoOPSession e).
  { rewrite runUpdate_besides. by destruct (runUpdate I s e) as [[s1 [r|x]]|]. }
  change (s_sessions (besides c a b s)) with (s_sessions s). destruct (ClientRegistered _ _) as [[rec [ses|]]|]; [|done|done]. cbn [mbind option_bind].
  destruct (UpdateRequired _ _) as [[v [|]] up]; [done|]. destruct up; [|done]. cbn [negb]. case_bool_decide; [done|].
  set (s1 := s <| s_sessions := rec |> <| s_sessions ::= _ |>).
  change (runUpdate I _ e) with (runUpdate I (besides c a b s1) e) at 1. rewrite runUpdate_besides. destruct (runUpdate I s1 e) as [[s2 [r|x]]|]; [|done|done].
  cbn [fmap option_fmap option_map prod_map fst snd id mbind option_bind]. by destruct (addResponse _ _ _).
Qed.
Lemma update_besides c a b s e : update I (besides c a b s) e = prod_map (besides c a b) id <$> update I s e.
Proof.
  rewrite /update updateBody_besides. destruct (updateBody I s e) as [[s1 r]|]; [|done]. cbn [fmap option_fmap option_map prod_map fst snd id mbind option_bind].
  rewrite setApplied_besides. by destruct (setApplied s1 _ _).
Qed.
Lemma registerSession_besides c a b s e : registerSession (besides c a b s) e = prod_map (besides c a b) id <$> registerSession s e.
Proof.
  rewrite /registerSession. change (s_sessions (besides c a b s)) with (s_sessions s). destruct (RegisterClientID _ _) as [[rec r]|]; [|done].
  cbn [mbind option_bind]. change ((besides c a b s) <| s_sessions := rec |>) with (besides c a b (s <| s_sessions := rec |>)).
  rewrite setApplied_besides. by destruct (setApplied (s <| s_sessions := rec |>) _ _).
Qed.
Lemma unregisterSession_besides c a b s e : unregisterSession (besides c a b s) e = prod_map (besides c a b) id <$> unregisterSession s e.
Proof.
  rewrite /unregisterSession. change (s_sessions (besides c a b s)) with (s_sessions s). destruct (UnregisterClientID _ _) as [[rec r]|]; [|done].
  cbn [mbind option_bind]. change ((besides c a b s) <| s_sessions := rec |>) with (besides c a b (s <| s_sessions := rec |>)).
  rewrite setApplied_besides. by destruct (setApplied (s <| s_sessions := rec |>) _ _).
Qed.
Lemma noop_besides c a b s e : noop (besides c a b s) e = besides c a b <$> noop s e.
Proof. rewrite /noop. case_match; [done|]. apply setApplied_besides. Qed.

(** A step appends calls, which may differ in their marks. *)
Definition steps_with c a b s (r r' : option (StateMachine M * result unit (RsmError U))) : Prop :=
  match r with
  | Some (s', x) => ∃ c' c'', r' = Some (besides (c ++ c'') a b s', x) ∧ s_calls s' = s_calls s ++ c' ∧ forgetLast <$> c'' = forgetLast <$> c'
  | None => r' = None
  end.

Lemma keeps_calls (f : StateMachine M → option (StateMachine M)) s s' :
  (∀ c a b, f (besides c a b s) = besides c a b <$> f s) → f s = Some s' → s_calls s' = s_calls s.
Proof. intros Hf E. pose proof (Hf (s_calls s) (s_lastIndex s) (s_lastTerm s)) as H1. rewrite besides_self E in H1. injection H1 as H1. by rewrite H1. Qed.
Lemma keeps_calls2 {B} (f : StateMachine M → option (StateMachine M * B)) s s' x :
  (∀ c a b, f (besides c a b s) = prod_map (besides c a b) id <$> f s) → f s = Some (s', x) → s_calls s' = s_calls s.
Proof. intros Hf E. pose proof (Hf (s_calls s) (s_lastIndex s) (s_lastTerm s)) as H1. rewrite besides_self E in H1. injection H1 as H1. by rewrite H1. Qed.

Lemma called c a b s s' (k k' : Call) x : s_calls s' = s_calls s → forgetLast k = forgetLast k' →
  steps_with c a b s (Some (call k s', x)) (Some (call k' (besides c a b s'), x)).
Proof. intros Hc Hk. exists [k], [k']. split_and!; [by destruct s'|by rewrite /call -Hc|by cbn; rewrite Hk]. Qed.
Lemma silent c a b s s' x : s_calls s' = s_calls s → steps_with c a b s (Some (s', x)) (Some (besides c a b s', x)).
Proof. intros Hc. exists [], []. by rewrite !app_nil_r. Qed.

Lemma configChange_besides c a b s e : steps_with c a b s (s ← configChange foldRune s e; Some (s, Ok tt)) (s ← configChange foldRune (besides c a b s) e; Some (s, Ok tt)).
Proof.
  rewrite /configChange. destruct (UnmarshalConfigChange _) as [cc|]; [|done]. change (s_members (besides c a b s)) with (s_members s).
  destruct (handleConfigChange _ _ _ _) as [[ms ok]|]; [|done]. cbn [mbind option_bind].
  change ((besides c a b s) <| s_members := ms |>) with (besides c a b (s <| s_members := ms |>)). rewrite setApplied_besides.
  destruct (setApplied (s <| s_members := ms |>) _ _) as [s1|] eqn:E1; [|done]. cbn [fmap option_fmap option_map mbind option_bind].
  apply called; [|done]. by destruct (setApplied_keeps _ _ _ _ E1) as [-> _].
Qed.

Lemma handleEntry_besides c a b s e l l' : steps_with c a b s (handleEntry I foldRune s e l) (handleEntry I foldRune (besides c a b s) e l').
Proof.
  rewrite /handleEntry. destruct (IsConfigChange e); [apply configChange_besides|]. destruct (IsSessionManaged e); cbn [negb].
  2: { destruct (IsEmpty e); [|done]. rewrite noop_besides. destruct (noop s e) as [s1|] eqn:E1; [|done]. cbn [fmap option_fmap option_map mbind option_bind].
       apply called; [|done]. by apply (keeps_calls (λ s, noop s e) s); [intros; apply noop_besides|]. }
  destruct (IsNewSessionRequest e).
  { rewrite registerSession_besides. destruct (registerSession s e) as [[s1 r]|] eqn:E1; [|done]. cbn [fmap option_fmap option_map prod_map fst snd id mbind option_bind].
    apply called; [|done]. by apply (keeps_calls2 (λ s, registerSession s e) s s1 r); [intros; apply registerSession_besides|]. }
  destruct (IsEndOfSessionRequest e).
  { rewrite unregisterSession_besides. destruct (unregisterSession s e) as [[s1 r]|] eqn:E1; [|done]. cbn [fmap option_fmap option_map prod_map fst snd id mbind option_bind].
    apply called; [|done]. by apply (keeps_calls2 (λ s, unregisterSession s e) s s1 r); [intros; apply unregisterSession_besides|]. }
  change (entryInInitDiskSM (besides c a b s) (e_Index e)) with (entryInInitDiskSM s (e_Index e)). destruct (entryInInitDiskSM s (e_Index e)); cbn [negb].
  { rewrite noop_besides. destruct (noop s _) as [s1|] eqn:E1; [|done]. cbn [fmap option_fmap option_map mbind option_bind].
    apply silent. by eapply (keeps_calls (λ s, noop s _) s); [intros; apply noop_besides|]. }
  rewrite update_besides. destruct (update I s e) as [[s1 r]|] eqn:E1; [|done]. cbn [fmap option_fmap option_map prod_map fst snd id mbind option_bind].
  assert (s_calls s1 = s_calls s) as Hc by (by apply (keeps_calls2 (λ s, update I s e) s s1 r); [intros; apply update_besides|]).
  destruct r as [[[v [|]] rej]|x]; [by apply silent|by apply called|by apply silent].
Qed.
Lemma handleEntries_besides c a b s lt lt' es : steps_with c a b s (handleEntries I foldRune s lt es) (handleEntries I foldRune (besides c a b s) lt' es).
Proof.
  revert c s. induction es as [|e es IH]; intros c s; [by apply silent|]. cbn [handleEntries].
  pose proof (handleEntry_besides c a b s e (lt && bool_decide (es = [])) (lt' && bool_decide (es = []))) as H1.
  destruct (handleEntry I foldRune s e _) as [[s1 r]|]; cbn [steps_with mbind option_bind] in H1 |- *; [|by rewrite H1]. destruct H1 as (c1 & c1' & -> & Hc1 & E1).
  cbn [mbind option_bind]. destruct r as [u|x]; [|exists c1, c1'; by split_and!].
  pose proof (IH (c ++ c1') s1) as H2. destruct (handleEntries I foldRune s1 lt es) as [[s2 r2]|]; cbn [steps_with] in H2 |- *; [|done].
  destruct H2 as (c2 & c2' & -> & Hc2 & E2). exists (c1 ++ c2), (c1' ++ c2'). split_and!; [by rewrite app_assoc|by rewrite Hc2 Hc1 app_assoc|by rewrite !fmap_app E1 E2].
Qed.

(** *** The entries of all tasks at once *)
Definition lastOf (a b : Z) es : option (Z * Z) :=
  match es with
  | [] => Some (a, b)
  | first :: rest =>
      let l := default first (last es) in
      if negb (e_Index first =? 0) && negb (e_Term first =? 0) && (e_Index first =? u64 (a + 1)) && (b <=? e_Term first) &&
         checkEntries (e_Index first) (e_Term first) rest
      then Some (e_Index l, e_Term l) else None
  end.
Lemma setLastApplied_form s es :
  setLastApplied s es = (λ '(a, b), s <| s_lastIndex := a |> <| s_lastTerm := b |>) <$> lastOf (s_lastIndex s) (s_lastTerm s) es.
Proof.
  destruct es as [|e es]; [by destruct s|]. rewrite /setLastApplied /lastOf Z.ltb_antisym (Z.eqb_sym (u64 _)).
  destruct (e_Index e =? 0), (e_Term e =? 0), (checkEntries _ _ es), (e_Index e =? u64 _), (s_lastTerm s <=? e_Term e); done.
Qed.

Lemma checkEntries_app i j es es' : checkEntries i j (es ++ es') =
  checkEntries i j es && match last es with Some l => checkEntries (e_Index l) (e_Term l) es' | None => checkEntries i j es' end.
Proof.
  revert i j. induction es as [|e es IH]; intros i j; [done|]. cbn [app checkEntries]. rewrite IH -!andb_assoc. do 4 f_equal.
  rewrite last_cons. by destruct (last es).
Qed.
Lemma lastOf_app a b es es' : lastOf a b (es ++ es') = '(a, b) ← lastOf a b es; lastOf a b es'.
Proof.
  destruct es as [|e es]; [done|]. destruct es' as [|e' es'].
  { rewrite app_nil_r. by destruct (lastOf a b (e :: es)) as [[??]|]. }
  cbn [app lastOf]. rewrite checkEntries_app.
  destruct (negb (e_Index e =? 0) && _ && (e_Index e =? _) && (b <=? e_Term e)); cbn [andb mbind option_bind]; [|done]. destruct (checkEntries _ _ es); [|done]. cbn [andb mbind option_bind].
  assert (last (e :: es ++ e' :: es') = last (e' :: es')) as -> by (by rewrite app_comm_cons last_app_cons).
  replace (match last es with Some l => _ | None => _ end) with (checkEntries (e_Index (default e (last (e :: es)))) (e_Term (default e (last (e :: es)))) (e' :: es')) by (by destruct es using rev_ind; [|rewrite app_comm_cons !last_snoc]).
  cbn [checkEntries]. destruct (last (e' :: es')) eqn:El; [|by apply last_None in El]. done.
Qed.

(** Entries one by one, then the last applied entry. *)
Definition applyAll s es : option (StateMachine M) :=
  s ← okOf (handleEntries I foldRune s false es); setLastApplied s es.

Lemma handleEntries_app s es es' :
  okOf (handleEntries I foldRune s false (es ++ es')) = s ← okOf (handleEntries I foldRune s false es); okOf (handleEntries I foldRune s false es').
Proof.
  revert s. induction es as [|e es IH]; intros s; [done|]. cbn [app handleEntries andb].
  destruct (handleEntry I foldRune s e _) as [[s1 [u|x]]|]; [|done|done]. cbn [mbind option_bind]. apply IH.
Qed.
Lemma handleEntries_last s es s' u : handleEntries I foldRune s false es = Some (s', u) → s_lastIndex s' = s_lastIndex s ∧ s_lastTerm s' = s_lastTerm s.
Proof.
  intros E. pose proof (handleEntries_besides (s_calls s) (s_lastIndex s) (s_lastTerm s) s false false es) as H1.
  rewrite besides_self E in H1. destruct H1 as (c & c' & H1 & _). injection H1 as H1. by rewrite H1.
Qed.
Lemma applyAll_app s es es' : both (applyAll s (es ++ es')) (s ← applyAll s es; applyAll s es').
Proof.
  rewrite /applyAll handleEntries_app. destruct (handleEntries I foldRune s false es) as [[s1 [u|x]]|] eqn:E1; [|done|done].
  cbn [okOf mbind option_bind]. destruct (handleEntries_last _ _ _ _ E1) as [Ha Hb]. rewrite setLastApplied_form Ha Hb.
  pose proof (λ a b, handleEntries_besides (s_calls s1) a b s1 false false es') as H2.
  destruct (handleEntries I foldRune s1 false es') as [[s2 [u2|x2]]|] eqn:E2; cbn [okOf mbind option_bind]; cycle 1.
  1,2: destruct (lastOf _ _ es) as [[a b]|]; [|done]; destruct (H2 a b) as (? & ? & H2' & _) || pose proof (H2 a b) as H2'; cbn in H2';
    cbn [fmap option_fmap option_map mbind option_bind]; by rewrite (H2' : handleEntries I foldRune (s1 <| s_lastIndex := a |> <| s_lastTerm := b |>) false es' = _).
  destruct (handleEntries_last _ _ _ _ E2) as [Ha2 Hb2]. rewrite setLastApplied_form Ha2 Hb2 Ha Hb lastOf_app.
  destruct (lastOf _ _ es) as [[a b]|]; [|done]. cbn [fmap option_fmap option_map mbind option_bind]. destruct (H2 a b) as (c & c' & H2' & Hc & Ec).
  rewrite (H2' : handleEntries I foldRune (s1 <| s_lastIndex := a |> <| s_lastTerm := b |>) false es' = _). cbn [okOf mbind option_bind].
  rewrite setLastApplied_form. change (s_lastIndex (besides _ a b s2)) with a. change (s_lastTerm (besides _ a b s2)) with b. destruct (lastOf a b es') as [[a' b']|]; [|done]. cbn [fmap option_fmap option_map both].
  eapply (alike_intro _ _ (s_calls s1 ++ c')); [by destruct s2|]. proj_simpl. by rewrite Hc !fmap_app Ec.
Qed.
End cuts.

Section tasks.
Context `{Snappy} {M U X Q A : Type} (I : IStateMachine M U X Q A) (foldRune : Z → Z).
Implicit Types (s t : StateMachine M) (e : Entry) (es : list Entry) (c : list Call).

(** A task of entries. *)
Definition entryTask (t : Task) : Prop := IsSnapshotTask t = false ∧ isSyncTask t = Some false.
Definition entriesOf (tasks : list Task) : list Entry := concat (t_Entries <$> tasks).

Lemma handleEntry_index s e l s' : okOf (handleEntry I foldRune s e l) = Some s' → s_index s' = e_Index e.
Proof.
  assert (∀ t t', setApplied t (e_Index e) (e_Term e) = Some t' → s_index t' = e_Index e) as Hi.
  { intros t t' Et. by destruct (setApplied_init _ _ _ _ Et). }
  rewrite /handleEntry. destruct (IsConfigChange e).
  { rewrite /configChange. destruct (UnmarshalConfigChange _); [|done]. destruct (handleConfigChange _ _ _ _) as [[ms ok]|]; [|done]. cbn [mbind option_bind].
    destruct (setApplied _ _ _) eqn:E1; [|done]. intros [= <-]. by apply Hi in E1. }
  destruct (IsSessionManaged e); cbn [negb].
  2: { destruct (IsEmpty e); [|done]. rewrite /noop. case_match; [done|]. destruct (setApplied _ _ _) eqn:E1; [|done]. intros [= <-]. by apply Hi in E1. }
  destruct (IsNewSessionRequest e).
  { rewrite /registerSession. destruct (RegisterClientID _ _) as [[rec r]|]; [|done]. cbn [mbind option_bind].
    destruct (setApplied _ _ _) eqn:E1; [|done]. intros [= <-]. by apply Hi in E1. }
  destruct (IsEndOfSessionRequest e).
  { rewrite /unregisterSession. destruct (UnregisterClientID _ _) as [[rec r]|]; [|done]. cbn [mbind option_bind].
    destruct (setApplied _ _ _) eqn:E1; [|done]. intros [= <-]. by apply Hi in E1. }
  destruct (entryInInitDiskSM s (e_Index e)); cbn [negb].
  { rewrite /noop. case_match; [done|]. cbn -[setApplied]. destruct (setApplied _ _ _) eqn:E1; [|done]. intros [= <-]. by apply Hi in E1. }
  rewrite /update. destruct (updateBody I s e) as [[s1 r]|]; [|done]. cbn [mbind option_bind].
  destruct (setApplied s1 _ _) as [s2|] eqn:E1; [|done]. apply Hi in E1. cbn [mbind option_bind]. destruct r as [[[v [|]] rej]|]; [| |done]; by intros [= <-].
Qed.
Lemma handleEntries_index s lt es es' s' : consecutive (s_index s) (es ++ es') → okOf (handleEntries I foldRune s lt es) = Some s' → consecutive (s_index s') es'.
Proof.
  revert s. induction es as [|e es IH]; intros s; [by intros ? [= <-]|]. cbn [app handleEntries].
  pose proof (handleEntry_index s e (lt && bool_decide (es = []))) as Hi. destruct (handleEntry I foldRune s e _) as [[s1 [u|x]]|]; [|done|done].
  cbn [mbind option_bind]. intros (He & _ & Hc). apply IH. by rewrite (Hi s1 eq_refl) He.
Qed.

Lemma handleEntries_marks s lt es : both (okOf (handleEntries I foldRune s lt es)) (okOf (handleEntries I foldRune s false es)).
Proof.
  pose proof (handleEntries_besides I foldRune (s_calls s) (s_lastIndex s) (s_lastTerm s) s lt false es) as H1. rewrite besides_self in H1.
  pose proof (handleEntries_besides I foldRune (s_calls s) (s_lastIndex s) (s_lastTerm s) s lt lt es) as H2. rewrite besides_self in H2.
  destruct (handleEntries I foldRune s lt es) as [[s1 r]|]; [|by rewrite H1]. destruct H1 as (c & c' & -> & Hc & Ec), H2 as (c1 & c1' & H2 & _).
  destruct r as [u|x]; [|done]. cbn [okOf both]. injection H2 as H2. eapply (alike_intro _ _ (s_calls s ++ c')); [rewrite {2}H2; by destruct s1|].
  by rewrite Hc !fmap_app Ec.
Qed.

Lemma applyAll_alike s t es : alike s t → both (applyAll I foldRune s es) (applyAll I foldRune t es).
Proof.
  intros (c & -> & Ec)%alike_inv. rewrite /applyAll. change (s <| s_calls := c |>) with (besides c (s_lastIndex s) (s_lastTerm s) s).
  pose proof (handleEntries_besides I foldRune c (s_lastIndex s) (s_lastTerm s) s false false es) as H1.
  destruct (handleEntries I foldRune s false es) as [[s1 r]|] eqn:E1; [|by rewrite H1]. destruct (handleEntries_last _ _ _ _ _ _ E1) as [Ha Hb].
  destruct H1 as (c1 & c1' & -> & Hc & Ec1). destruct r as [u|x]; [|done]. cbn [okOf mbind option_bind]. rewrite !setLastApplied_form.
  change (s_lastIndex (besides _ _ _ _)) with (s_lastIndex s). change (s_lastTerm (besides _ _ _ _)) with (s_lastTerm s). rewrite Ha Hb.
  destruct (lastOf _ _ es) as [[a b]|]; [|done]. cbn [fmap option_fmap option_map both].
  eapply (alike_intro _ _ (c ++ c1')); [by destruct s1|]. proj_simpl. by rewrite Hc !fmap_app Ec Ec1.
Qed.

Context `{SequentialMachine M U X Q A I}.

Lemma batch_entries s es : consecutive (s_index s) es → Forall plainUpdate es →
  both (okOf (handleBatch I s es)) (okOf (handleEntries I foldRune s false es)).
Proof.
  intros Hc Hes. pose proof (batch_each I s es Hc) as H1. pose proof (handleEntries_plain I foldRune s false es Hes) as H2. rewrite /does in H2.
  eapply both_trans; [exact H1|]. destruct (applyEach I s es) as [s1|]; [destruct H2 as (s2 & -> & ?); done|by rewrite H2].
Qed.
Lemma run_entries s lt es : consecutive (s_index s) es → let '(update, noop) := getEntryTypes es in
  both (okOf (if Concurrent I && update && noop then handleBatch I s es else handleEntries I foldRune s lt es)) (okOf (handleEntries I foldRune s false es)).
Proof.
  intros Hc. cbn. destruct (Concurrent I && _ && _) eqn:E; [|apply handleEntries_marks]. apply andb_true_iff in E as [[_ E1]%andb_true_iff E2].
  apply batch_entries; [done|]. rewrite !forallb_forall in E1, E2.
  apply Forall_forall. intros e He. split; [apply E1|apply E2]; by apply list_elem_of_In.
Qed.

Lemma handle_all s tasks : Forall entryTask tasks → consecutive (s_index s) (entriesOf tasks) →
  both (okOf (handle I foldRune s tasks)) (applyAll I foldRune s (entriesOf tasks)).
Proof.
  intros Ht. revert s. induction Ht as [|t tasks [Hs Hy] Ht IH]; intros s Hc; [reflexivity|]. cbn [handle]. rewrite Hs Hy. cbn [mbind option_bind].
  change (entriesOf (t :: tasks)) with (t_Entries t ++ entriesOf tasks) in *.
  assert (consecutive (s_index s) (t_Entries t)) as Hc1.
  { revert Hc. generalize (s_index s). induction (t_Entries t) as [|e es IHe]; [done|]. intros i (? & ? & ?). split_and!; [done..|]. by apply IHe. }
  pose proof (run_entries s (bool_decide (tasks = [])) (t_Entries t) Hc1) as H1.
  eapply both_trans; [|symmetry; apply applyAll_app]. change (applyAll I foldRune s (t_Entries t)) with (s ← okOf (handleEntries I foldRune s false (t_Entries t)); setLastApplied s (t_Entries t)). destruct (getEntryTypes (t_Entries t)) as [up np].
  pose proof (λ s', handleEntries_index s false (t_Entries t) (entriesOf tasks) s' Hc) as Hi.
  destruct (okOf (handleEntries I foldRune s false (t_Entries t))) as [s1|]; cbn [mbind option_bind].
  2: { destruct (if Concurrent I && up && np then _ else _) as [[s2 [u|x]]|]; cbn [okOf both mbind option_bind] in H1 |- *; done. }
  destruct (if Concurrent I && up && np then _ else _) as [[s2 [u|x]]|]; [|done|done]. cbn [okOf both mbind option_bind] in H1 |- *.
  destruct (alike_inv _ _ H1) as (c & -> & Ec). rewrite !setLastApplied_form. proj_simpl.
  destruct (lastOf _ _ (t_Entries t)) as [[a b]|]; [|done]. cbn [fmap option_fmap option_map mbind option_bind].
  eapply both_trans; [apply IH; by apply (Hi _ eq_refl)|]. apply applyAll_alike. eapply (alike_intro _ _ c); [by destruct s2|done].
Qed.

(** However the committed entries are cut into tasks, and whether they go to the machine in
    batches or one by one, the outcome is the same: both runs end without error in states that
    differ at most in which call carries the mark of the last entry, or neither does.  The
    machine has to apply a batch one entry after the other. *)
Theorem cuts_agree s tasks tasks' : Forall entryTask tasks → Forall entryTask tasks' → entriesOf tasks = entriesOf tasks' →
  consecutive (s_index s) (entriesOf tasks) → both (okOf (handle I foldRune s tasks)) (okOf (handle I foldRune s tasks')).
Proof. intros H1 H2 E Hc. eapply both_trans; [by apply handle_all|]. symmetry. rewrite E. apply handle_all; [done|by rewrite -E]. Qed.
End tasks.

(** ** The queue and the apply loop *)
Section drain.
Context `{Snappy} {M U X Q A : Type} (I : IStateMachine M U X Q A) (foldRune : Z → Z).
Implicit Types (s : StateMachine M) (ts : list Task).

(** Nothing more, or a task for the snapshot workers. *)
Definition stopsAt (rest : list Task) : Prop := match rest with [] => True | t :: _ => IsSnapshotTask t = true end.
Definition handed (rest : list Task) (r : result unit (RsmError U)) : result Task (RsmError U) :=
  match r with Ok _ => Ok (default emptyTask (head rest)) | Err x => Err x end.

Lemma loop_drains fuel s ts rest batch : queue_wf (s_taskQ s) → pending (s_taskQ s) = ts ++ rest → Forall entryTask ts → stopsAt rest →
  (length ts ≤ fuel)%nat →
  ∃ q, queue_wf q ∧ pending q = tail rest ∧
    handleLoop I foldRune fuel s batch = '(s, r) ← handle I foldRune (s <| s_taskQ := q |>) (batch ++ ts); Some (s, handed rest r).
Proof.
  intros Hq Hp Ht. revert fuel s batch Hq Hp. induction Ht as [|t ts [Hs Hy] Ht IH]; intros fuel s batch Hq Hp Hr Hf;
    destruct (Get_pending _ Hq) as (q & Eg & Hwq & Hpq); rewrite Hp in Eg, Hpq.
  - exists q. split_and!; [done|done|]. rewrite app_nil_r. destruct fuel, rest as [|t rest]; cbn [handleLoop app] in Eg |- *; rewrite Eg; cbn [head]; try done.
    all: cbn [stopsAt] in Hr; by rewrite Hr.
  - destruct fuel as [|fuel]; [cbn in Hf; lia|]. destruct (IH fuel (s <| s_taskQ := q |>) (batch ++ [t])) as (q' & Hq' & Hp' & E); [done|done|done|cbn in Hf; lia|].
    exists q'. split_and!; [done|done|]. cbn [handleLoop]. rewrite Eg. cbn [head app]. rewrite Hs Hy. cbn [mbind option_bind negb]. rewrite E.
    rewrite -app_assoc. by destruct s.
Qed.

(** C11: The apply loop drains its queue.  When the queue holds tasks of entries, and then
    nothing more or a task for the snapshot workers, one call of [Handle] ends, handles
    exactly these tasks, in the order they were added, hands out the snapshot task, and
    leaves the rest of the queue for the next call. *)
Theorem handle_drains s ts rest : queue_wf (s_taskQ s) → pending (s_taskQ s) = ts ++ rest → ts ≠ [] → Forall entryTask ts → stopsAt rest →
  ∃ q, queue_wf q ∧ pending q = tail rest ∧
    Handle I foldRune s = '(s, r) ← handle I foldRune (s <| s_taskQ := q |>) ts; Some (call CallStepReady s, handed rest r).
Proof.
  intros Hq Hp Hne Ht Hr. rewrite /Handle. destruct (Get_pending _ Hq) as (q1 & -> & _ & _). rewrite Hp. destruct ts as [|t ts]; [done|]. cbn [head app].
  pose proof Ht as [[-> _] _]%Forall_cons. assert (length (t :: ts) ≤ length (tq_tasks (s_taskQ s)))%nat as Hl.
  { apply (f_equal length) in Hp. rewrite /pending length_drop length_app in Hp. lia. }
  destruct (loop_drains _ s (t :: ts) rest [] Hq Hp Ht Hr Hl) as (q & Hwq & Hpq & ->). exists q. split_and!; [done|done|].
  by destruct (handle I foldRune _ _) as [[s' r]|].
Qed.
End drain.
