(* ===== verification/RsmOnce.v ===== *)
(** * Client sessions and the apply loop

    Theorems about Rsm: a command of a client session runs at most once, however often
    it is in the log, and well-formed entries are applied without a panic and leave a
    well-formed replica. *)
From S2P Require Import Prelude GoStrings Wire Raftpb RaftLog LogReader RaftPeer RsmMembers GoJson RsmSession RsmMachine SnapshotIo Snapshotter Rsm RsmApply.
From Stdlib Require Import Ascii.

Local Open Scope Z_scope.

Definition sessionOf {M} (s : StateMachine M) (k : Z) : option Session := lru_sessions (s_sessions s) !! k.

(** The command [n] was answered: the client confirmed it or the result is kept. *)
Definition answeredBy (ses : Session) (n : Z) (r : Result) : Prop := n ≤ se_RespondedUpTo ses ∨ se_History ses !! n = Some r.
Definition answered {M} (s : StateMachine M) (k n : Z) (r : Result) : Prop := ∃ ses, sessionOf s k = Some ses ∧ answeredBy ses n r.

(** The client has confirmed the result of the command [e] carries, at the latest in [e]
    itself: the entry is ignored. *)
Definition confirmedIn (ses : Session) (e : Entry) : bool := e_SeriesID e <=? Z.max (se_RespondedUpTo ses) (e_RespondedTo e).
Definition confirmed {M} (s : StateMachine M) (e : Entry) : bool :=
  match sessionOf s (e_ClientID e) with Some ses => confirmedIn ses e | None => false end.
(** The result of the command is kept. *)
Definition kept {M} (s : StateMachine M) (e : Entry) : option Result := ses ← sessionOf s (e_ClientID e); se_History ses !! e_SeriesID e.

(** A command of a session. *)
Definition sessionUpdate (e : Entry) : Prop := IsUpdateEntry e = true ∧ IsNoOPSession e = false.

Section sessions.
Lemma clearTo_upto ses to : se_RespondedUpTo (clearTo ses to) = Z.max (se_RespondedUpTo ses) to.
Proof. rewrite /clearTo. destruct (Z.leb_spec to (se_RespondedUpTo ses)); [lia|]. case_match; proj_simpl; lia. Qed.
Lemma clearTo_kept ses to n : Z.max (se_RespondedUpTo ses) to < n → se_History (clearTo ses to) !! n = se_History ses !! n.
Proof.
  rewrite /clearTo. intros Hn. destruct (Z.leb_spec to (se_RespondedUpTo ses)); [done|]. case_match; proj_simpl.
  - apply lookup_delete_ne. lia.
  - rewrite map_lookup_filter. destruct (se_History ses !! n); [|done]. cbn. by rewrite option_guard_True; [cbn; lia|].
Qed.
Lemma clearTo_answered ses to n r : answeredBy ses n r → answeredBy (clearTo ses to) n r.
Proof.
  rewrite /answeredBy /clearTo. destruct (Z.leb_spec to (se_RespondedUpTo ses)); [done|]. destruct (Z.eqb_spec to (u64 (se_RespondedUpTo ses + 1))); proj_simpl.
  - intros [Hn|Hn]; [lia|]. destruct (decide (n = to)) as [->|]; [lia|]. right. by rewrite lookup_delete_ne.
  - intros [Hn|Hn]; [lia|]. destruct (Z.leb_spec n to); [by left|]. right. by apply map_lookup_filter_Some_2.
Qed.
Lemma addResponse_answered ses n v ses' : addResponse ses n v = Some ses' →
  se_History ses' !! n = Some v ∧ ∀ m r, answeredBy ses m r → answeredBy ses' m r.
Proof.
  rewrite /addResponse. destruct (se_History ses !! n) eqn:E; [done|]. intros [= <-]. proj_simpl. split; [by rewrite lookup_insert_eq|].
  rewrite /answeredBy. proj_simpl. intros m r [?|Hm]; [by left|]. right. rewrite lookup_insert_ne //. by intros ->; congruence.
Qed.

Lemma evict_sub fuel rec k x : lru_sessions (evictAll fuel rec) !! k = Some x → lru_sessions rec !! k = Some x.
Proof.
  revert rec. induction fuel as [|fuel IH]; intros rec; [done|]. cbn [evictAll]. rewrite /evict. destruct (lru_order rec) as [|y o]; [done|].
  destruct (_ <? _); [|done]. intros Hk%IH. revert Hk. proj_simpl. by intros [_ ?]%lookup_delete_Some.
Qed.
Lemma addSession_sub rec c x k y : k ≠ c → lru_sessions (addSession rec c x) !! k = Some y → lru_sessions rec !! k = Some y.
Proof.
  intros Hk. rewrite /addSession. destruct (lru_sessions rec !! c); [|intros Hy%evict_sub; revert Hy]; proj_simpl; by rewrite lookup_insert_ne.
Qed.

Lemma ClientRegistered_same rec k rec' o : ClientRegistered rec k = Some (rec', o) → lru_sessions rec' = lru_sessions rec ∧ o = lru_sessions rec !! k.
Proof.
  rewrite /ClientRegistered /getSession. destruct (lru_sessions rec !! k) as [s|]; [|by intros [= <- <-]]. case_match; [done|].
  intros [= <- <-]. by proj_simpl.
Qed.
End sessions.

Section once.
Context `{Snappy} {M U X Q A : Type} (I : IStateMachine M U X Q A) (foldRune : Z → Z).
Implicit Types (s t : StateMachine M) (e : Entry) (es : list Entry).

Lemma setApplied_rest s i j s' : setApplied s i j = Some s' → s_sm s' = s_sm s ∧ s_sessions s' = s_sessions s ∧ s_members s' = s_members s.
Proof. rewrite setApplied_form. case_match; [|done]. by intros [= <-]. Qed.
Lemma runUpdate_sessions s e s' r : runUpdate I s e = Some (s', r) → s_sessions s' = s_sessions s ∧ s_calls s' = s_calls s.
Proof.
  rewrite /runUpdate. destruct (GetPayload e); [|done]. cbn [mbind option_bind]. destruct (NativeUpdate _ _ _) as [[m [v|x]]|]; [| |done]; cbn [mbind option_bind].
  - rewrite setOnDisk_form. case_match; [|done]. by intros [= <- <-].
  - by intros [= <- <-].
Qed.

(** The machine ran the command: from [s] it gave the machine [n] and the result [v]. *)
Definition ran s e (n : NativeSM M) (v : Result) : Prop :=
  ∃ payload, GetPayload e = Some payload ∧
    NativeUpdate I (s_sm s) {| sme_Index := e_Index e; sme_Cmd := payload; sme_Result := noResult |} = Some (n, Ok v).
Lemma runUpdate_ran s e s' v : runUpdate I s e = Some (s', Ok v) → ran s e (s_sm s') v.
Proof.
  rewrite /runUpdate /ran. destruct (GetPayload e) as [p|]; [|done]. cbn [mbind option_bind]. destruct (NativeUpdate _ _ _) as [[n [w|x]]|] eqn:E; [|done|done].
  cbn [mbind option_bind]. rewrite setOnDisk_form. case_match; [|done]. intros [= <- <-]. by exists p.
Qed.

(** What an update does to the sessions, and when it leaves the machine alone. *)
Definition session_effect s e s' (v : Result) (ignored rejected : bool) : Prop :=
  let k := e_ClientID e in let n := e_SeriesID e in
  match sessionOf s k with
  | None => rejected = true ∧ ignored = false ∧ s_sm s' = s_sm s ∧ ∀ j, sessionOf s' j = sessionOf s j
  | Some ses =>
      rejected = false ∧ ignored = confirmedIn ses e ∧ ∃ ses', sessionOf s' k = Some ses' ∧ (∀ j, j ≠ k → sessionOf s' j = sessionOf s j) ∧
        (∀ n r, answeredBy ses n r → answeredBy ses' n r) ∧
        (if ignored then n ≤ se_RespondedUpTo ses' ∧ s_sm s' = s_sm s else se_History ses' !! n = Some v) ∧
        (∀ r, answeredBy ses n r → s_sm s' = s_sm s ∧ (ignored = true ∨ v = r)) ∧
        (ignored = false → se_History ses !! n = None → ran s e (s_sm s') v)
  end.

Lemma put_lookup s k ses j : sessionOf (s <| s_sessions ::= λ rec, putSession rec k ses |>) j = if decide (j = k) then Some ses else sessionOf s j.
Proof. rewrite /sessionOf /putSession. proj_simpl. destruct (decide (j = k)) as [->|]; [by rewrite lookup_insert_eq|by rewrite lookup_insert_ne]. Qed.

Lemma updateBody_effect s e s' v ignored rejected : IsNoOPSession e = false → updateBody I s e = Some (s', Ok (v, ignored, rejected)) →
  session_effect s e s' v ignored rejected.
Proof.
  intros Hn. rewrite /updateBody Hn. destruct (ClientRegistered _ _) as [[rec o]|] eqn:Er; [|done]. apply ClientRegistered_same in Er as [Er ->].
  cbn [mbind option_bind]. rewrite /session_effect /sessionOf. destruct (lru_sessions (s_sessions s) !! e_ClientID e) as [ses|].
  2: { intros [= <- <- <- <-]. proj_simpl. by rewrite Er. }
  set (ses1 := clearTo ses (e_RespondedTo e)). pose proof (clearTo_answered ses (e_RespondedTo e)) as Ha. fold ses1 in Ha.
  set (s1 := s <| s_sessions := rec |> <| s_sessions ::= λ rec, putSession rec (e_ClientID e) ses1 |>).
  assert (∀ j, lru_sessions (s_sessions s1) !! j = if decide (j = e_ClientID e) then Some ses1 else lru_sessions (s_sessions s) !! j) as Hs1.
  { intros j. rewrite -Er. exact (put_lookup (s <| s_sessions := rec |>) (e_ClientID e) ses1 j). }
  pose proof (clearTo_upto ses (e_RespondedTo e)) as Hu. fold ses1 in Hu. rewrite /confirmedIn -Hu.
  rewrite /UpdateRequired /hasResponded /getResponse. destruct (Z.leb_spec (e_SeriesID e) (se_RespondedUpTo ses1)).
  { intros [= <- <- <- <-]. split_and!; [done..|]. exists ses1. rewrite Hs1 decide_True //. split_and!; [done| |done|done|done|by auto|done].
    intros j Hj. by rewrite Hs1 decide_False. }
  pose proof (clearTo_kept ses (e_RespondedTo e) (e_SeriesID e)) as Hkept. fold ses1 in Hkept. rewrite -Hkept; [lia|].
  destruct (se_History ses1 !! e_SeriesID e) as [v1|] eqn:Eh; cbn [negb].
  { intros [= <- <- <- <-]. split_and!; [done..|]. exists ses1. rewrite Hs1 decide_True //. split_and!; [done| |done|done| |done].
    - intros j Hj. by rewrite Hs1 decide_False.
    - intros r [?|Hr]%Ha; [lia|]. split; [done|]. right. congruence. }
  rewrite bool_decide_false; [by intros [? ?]|].
  destruct (runUpdate I s1 e) as [[s2 [r|x]]|] eqn:E2; [|done|done]. destruct (runUpdate_sessions _ _ _ _ E2) as [E3 _]. cbn [mbind option_bind].
  destruct (addResponse ses1 (e_SeriesID e) r) as [ses2|] eqn:Ea; [|done]. cbn [mbind option_bind]. intros [= <- <- <- <-].
  destruct (addResponse_answered _ _ _ _ Ea) as [Hv Hk]. split_and!; [done..|]. exists ses2.
  pose proof (put_lookup s2 (e_ClientID e) ses2) as Hp. rewrite /sessionOf E3 in Hp. split_and!; [by rewrite Hp decide_True| |by eauto|done| |].
  - intros j Hj. by rewrite Hp decide_False // Hs1 decide_False.
  - intros r' [?|Hr]%Ha; [lia|congruence].
  - intros _ _. exact (runUpdate_ran s1 e s2 r E2).
Qed.

(** *** Other entries *)
Lemma handleEntry_plainSession s e l : sessionUpdate e → entryInInitDiskSM s (e_Index e) = false →
  handleEntry I foldRune s e l =
    '(s, r) ← update I s e;
    match r with
    | Err x => Some (s, Err x)
    | Ok r => let '(v, ignored, rejected) := (r : Result * bool * bool) in
              Some (if (ignored : bool) then s else call (CallApplyUpdate e v rejected ignored l) s, Ok tt)
    end.
Proof.
  intros [Hu _] Hd. rewrite /IsUpdateEntry in Hu. apply andb_true_iff in Hu as [[[H1 H2]%andb_true_iff H3]%andb_true_iff H4].
  apply negb_true_iff in H1, H3, H4. by rewrite /handleEntry H1 H2 H3 H4 Hd.
Qed.

Lemma keeps_answered s s' k n r : s_sessions s' = s_sessions s → answered s k n r → answered s' k n r.
Proof. rewrite /answered /sessionOf. by intros ->. Qed.

(** While the client stays registered its answers stay. *)
Lemma handleEntry_answered s e l s' k n r : handleEntry I foldRune s e l = Some (s', Ok tt) → answered s k n r → is_Some (sessionOf s' k) → answered s' k n r.
Proof.
  intros E Ha [y Hy]. revert E. rewrite /handleEntry. destruct (IsConfigChange e).
  { rewrite /configChange. destruct (UnmarshalConfigChange _); [|done]. destruct (handleConfigChange _ _ _ _) as [[ms ok]|]; [|done]. cbn [mbind option_bind].
    destruct (setApplied _ _ _) as [s1|] eqn:E1; [|done]. intros [= <-]. apply setApplied_rest in E1 as (_ & E1 & _). by eapply keeps_answered. }
  destruct (IsSessionManaged e); cbn [negb].
  2: { destruct (IsEmpty e); [|done]. rewrite /noop. case_match; [done|]. destruct (setApplied _ _ _) eqn:E1; [|done]. intros [= <-].
       apply setApplied_rest in E1 as (_ & E1 & _). by eapply keeps_answered. }
  destruct Ha as (ses & Hs & Ha). destruct (IsNewSessionRequest e).
  { rewrite /registerSession /RegisterClientID. destruct (ClientRegistered _ _) as [[rec o]|] eqn:Er; [|done]. apply ClientRegistered_same in Er as [Er ->].
    cbn [mbind option_bind]. destruct (lru_sessions _ !! e_ClientID e) eqn:Ec; cbn [mbind option_bind]; destruct (setApplied _ _ _) as [s1|] eqn:E1; try done;
      intros [= <-]; apply setApplied_rest in E1 as (_ & E1 & _); revert Hy; rewrite /answered /sessionOf; proj_simpl; rewrite E1; proj_simpl.
    - rewrite Er. eauto.
    - intros Hy. exists ses. split; [|done]. rewrite /sessionOf in Hs. assert (k ≠ e_ClientID e) by congruence. rewrite Hy.
      apply addSession_sub in Hy; [|done]. rewrite -Hy Er //. }
  destruct (IsEndOfSessionRequest e).
  { rewrite /unregisterSession /UnregisterClientID. destruct (ClientRegistered _ _) as [[rec o]|] eqn:Er; [|done]. apply ClientRegistered_same in Er as [Er ->].
    cbn [mbind option_bind]. destruct (lru_sessions _ !! e_ClientID e) eqn:Ec; cbn [mbind option_bind]; destruct (setApplied _ _ _) as [s1|] eqn:E1; try done;
      intros [= <-]; apply setApplied_rest in E1 as (_ & E1 & _); revert Hy; rewrite /answered /sessionOf; proj_simpl; rewrite E1; proj_simpl.
    - rewrite /delSession Er Ec. proj_simpl. rewrite Er. intros [Hk _]%lookup_delete_Some. rewrite lookup_delete_ne //. eauto.
    - rewrite Er. eauto. }
  destruct (entryInInitDiskSM s (e_Index e)); cbn [negb].
  { rewrite /noop. case_match; [done|]. destruct (setApplied _ _ _) eqn:E1; [|done]. intros [= <-]. apply setApplied_rest in E1 as (_ & E1 & _).
    eapply keeps_answered; [done|]. by exists ses. }
  rewrite /update. destruct (updateBody I s e) as [[s1 u]|] eqn:E1; [|done]. cbn [mbind option_bind]. destruct (setApplied s1 _ _) as [s2|] eqn:E2; [|done].
  apply setApplied_rest in E2 as (_ & E2 & _). cbn [mbind option_bind]. destruct u as [[[v ign] rej]|]; [|done].
  assert (answered s1 k n r) as Ha1; cycle 1.
  { destruct ign; intros [= <-]; by eapply keeps_answered. }
  destruct (IsNoOPSession e) eqn:En.
  { revert E1. rewrite /updateBody En. destruct (runUpdate I s e) as [[s3 [v3|]]|] eqn:E3; [|done|done]. intros [= <- <- <- <-].
    destruct (runUpdate_sessions _ _ _ _ E3) as [E4 _]. eapply keeps_answered; [done|]. by exists ses. }
  apply updateBody_effect in E1; [|done]. rewrite /session_effect in E1. destruct (sessionOf s (e_ClientID e)) as [ses0|] eqn:E0.
  - destruct E1 as (_ & _ & ses1 & H1 & H2 & H3 & _). destruct (decide (k = e_ClientID e)) as [->|Hk].
    + exists ses1. split; [done|]. apply H3. congruence.
    + exists ses. by rewrite H2.
  - destruct E1 as (_ & _ & _ & H1). exists ses. by rewrite H1.
Qed.

(** The client is registered now and after each of the entries. *)
Fixpoint staysRegistered s (lt : bool) es (k : Z) : Prop :=
  is_Some (sessionOf s k) ∧
  match es with
  | [] => True
  | e :: es => ∀ s', handleEntry I foldRune s e (lt && bool_decide (es = [])) = Some (s', Ok tt) → staysRegistered s' lt es k
  end.
Lemma handleEntries_answered s lt es s' k n r : handleEntries I foldRune s lt es = Some (s', Ok tt) → staysRegistered s lt es k →
  answered s k n r → answered s' k n r.
Proof.
  revert s. induction es as [|e es IH]; intros s; cbn [handleEntries staysRegistered]; [by intros [= <-]|].
  destruct (handleEntry I foldRune s e _) as [[s1 [[]|]]|] eqn:E1; [|done|done]. cbn [mbind option_bind]. intros E [_ Hs] Ha. specialize (Hs s1 eq_refl).
  apply (IH s1 E Hs). eapply handleEntry_answered; [exact E1|done|]. by destruct es; destruct Hs.
Qed.

(** The answers an entry gives: none when the client has confirmed its command. *)
Definition told s e l (r : Result) : list Call :=
  if confirmed s e then [] else [CallApplyUpdate e r false false l].

(** A command of a registered client: it is answered afterwards; if it was before, the
    machine is as it was and the answer is the same; if it was not, the machine ran it. *)
Lemma session_command s e l s' : sessionUpdate e → entryInInitDiskSM s (e_Index e) = false → is_Some (sessionOf s (e_ClientID e)) →
  handleEntry I foldRune s e l = Some (s', Ok tt) →
  ∃ v, s_calls s' = s_calls s ++ told s e l v ∧ answered s' (e_ClientID e) (e_SeriesID e) v ∧
    (∀ r, answered s (e_ClientID e) (e_SeriesID e) r → s_sm s' = s_sm s ∧ (confirmed s e = true ∨ v = r)) ∧
    (confirmed s e = true → s_sm s' = s_sm s ∧ ∀ r, answered s' (e_ClientID e) (e_SeriesID e) r) ∧
    (confirmed s e = false → kept s e = None → ran s e (s_sm s') v).
Proof.
  intros He Hd [ses Hs] E. assert (∀ p, update I s e = Some p → s_calls p.1 = s_calls s) as Hc.
  { intros [s1 x] Hx. by apply (keeps_calls2 (λ s, update I s e) s s1 x); [intros; apply update_besides|]. }
  revert E. rewrite handleEntry_plainSession //. rewrite /update in Hc |- *. destruct (updateBody I s e) as [[s2 u]|] eqn:E1; [|done]. cbn [mbind option_bind] in *.
  destruct (setApplied s2 _ _) as [s3|] eqn:E2; [|done]. specialize (Hc _ eq_refl). cbn [fst] in Hc. apply setApplied_rest in E2 as (E3 & E2 & _).
  cbn [mbind option_bind]. destruct u as [[[v ign] rej]|]; [|done]. apply updateBody_effect in E1; [|by destruct He].
  rewrite /session_effect Hs in E1. destruct E1 as (-> & -> & ses' & H1 & _ & _ & H2 & H3 & H4). intros [= Es]. exists v.
  assert (confirmedIn ses e = confirmed s e) as Ef by by rewrite /confirmed Hs. rewrite Ef in H2 H3 H4 Es.
  assert (sessionOf s' (e_ClientID e) = Some ses' ∧ s_sm s' = s_sm s2) as [Hs' Hm].
  { rewrite -Es -H1 /sessionOf -E2 -E3. by destruct (confirmed s e). }
  rewrite Hm. split_and!.
  - rewrite /told -Es. destruct (confirmed s e); [by rewrite app_nil_r|]. by rewrite /call -Hc.
  - exists ses'. split; [done|]. destruct (confirmed s e); [left; by destruct H2|by right].
  - intros r (ses0 & Hs0 & Ha). rewrite Hs0 in Hs. injection Hs as ->. exact (H3 r Ha).
  - intros Hf. rewrite Hf in H2. destruct H2 as [? ?]. split; [done|]. intros r. exists ses'. split; [done|by left].
  - intros Hf. rewrite /kept Hs. exact (H4 Hf).
Qed.
(** Answers of all kinds: confirmed. *)
Lemma answered_all s e : (∀ r, answered s (e_ClientID e) (e_SeriesID e) r) → confirmed s e = true.
Proof.
  intros Ha. pose (r0 := {| res_Value := 0; res_Data := None |} : Result). pose (r1 := {| res_Value := 1; res_Data := None |} : Result).
  destruct (Ha r0) as (ses & Hs & H0). destruct (Ha r1) as (ses' & Hs' & H1). rewrite Hs in Hs'. injection Hs' as <-.
  rewrite /confirmed Hs /confirmedIn. apply Z.leb_le. destruct H0 as [?|H0]; [lia|]. destruct H1 as [?|H1]; [lia|]. by rewrite H0 in H1.
Qed.

(** C5: A command of a registered client runs at most once and every copy of it is answered alike.
    When a command of a session is handled, and neither confirmed nor answered before, the
    machine runs it, and otherwise the machine stays as it is.  While the client stays registered,
    handling the same command again after any other entries (same client and series number, as
    after a retry) leaves the machine as it is.  Both copies are answered with the same result,
    once each, except that a copy gets no answer exactly when its client has by then confirmed the
    result; a confirmation is never forgotten. *)
Theorem runs_once s e l s1 lt es s2 e' l' s3 :
  sessionUpdate e → sessionUpdate e' → e_ClientID e' = e_ClientID e → e_SeriesID e' = e_SeriesID e →
  entryInInitDiskSM s (e_Index e) = false → entryInInitDiskSM s2 (e_Index e') = false → is_Some (sessionOf s (e_ClientID e)) →
  handleEntry I foldRune s e l = Some (s1, Ok tt) →
  staysRegistered s1 lt es (e_ClientID e) → handleEntries I foldRune s1 lt es = Some (s2, Ok tt) →
  handleEntry I foldRune s2 e' l' = Some (s3, Ok tt) →
  ∃ r, (if confirmed s e || bool_decide (is_Some (kept s e)) then s_sm s1 = s_sm s else ran s e (s_sm s1) r) ∧
       s_calls s1 = s_calls s ++ (if confirmed s e then [] else [CallApplyUpdate e r false false l]) ∧
       s_sm s3 = s_sm s2 ∧
       s_calls s3 = s_calls s2 ++ (if confirmed s2 e' then [] else [CallApplyUpdate e' r false false l']) ∧
       (confirmed s e = true → confirmed s2 e' = true).
Proof.
  intros He He' Hk Hn Hd Hd' Hr E1 Hst E2 E3. destruct (session_command s e l s1 He Hd Hr E1) as (r & Hc & Ha & Hold & Hcf & Hnew).
  assert (∀ v, answered s1 (e_ClientID e) (e_SeriesID e) v → answered s2 (e_ClientID e') (e_SeriesID e') v) as Hkeep.
  { rewrite Hk Hn. intros v Hv. exact (handleEntries_answered _ _ _ _ _ _ _ E2 Hst Hv). }
  pose proof (Hkeep r Ha) as Ha2. assert (is_Some (sessionOf s2 (e_ClientID e'))) as Hr2 by (destruct Ha2 as (ses & Hs & _); by eexists).
  destruct (session_command s2 e' l' s3 He' Hd' Hr2 E3) as (v & Hc' & _ & Hold' & _). destruct (Hold' r Ha2) as [Hm Hv]. exists r. split_and!.
  - destruct (confirmed s e); [by apply Hcf|]. cbn [orb]. case_bool_decide as Hb; [|apply Hnew; [done|by apply eq_None_not_Some]].
    destruct Hb as [w Hw]. apply (Hold w). revert Hw. rewrite /kept. destruct (sessionOf s (e_ClientID e)) as [ses|] eqn:Es; [|done].
    intros Hw. exists ses. split; [done|by right].
  - exact Hc.
  - exact Hm.
  - rewrite Hc' /told. destruct (confirmed s2 e'); [done|]. by destruct Hv as [|<-].
  - intros Hf. apply answered_all. intros w. apply Hkeep. by apply Hcf.
Qed.
End once.

(** ** Well-formed replicas

    A machine whose invariant is [P] and which takes every command of [C]. *)
Class TotalMachine {M E X Q A} (I : IStateMachine M E X Q A) (P : M → Prop) (C : bytes → Prop) : Prop :=
  total_update m e : P m → C (sme_Cmd e) → ∃ m' r, ism_Update I m [e] = Some (m', Ok [e <| sme_Result := r |>]) ∧ P m' ∧ in_u64 (res_Value r).

Section wellformed.
Context `{Snappy} {M U X Q A : Type} (I : IStateMachine M U X Q A) (P : M → Prop) (C : bytes → Prop) `{!TotalMachine I P C} (foldRune : Z → Z).
Implicit Types (s t : StateMachine M) (e : Entry) (es : list Entry).

Record rsm_wf s : Prop := {
  rw_sessions : lru_wf (s_sessions s);
  rw_members : members_wf foldRune (ms_members (s_members s));
  rw_machine : P (ns_sm (s_sm s));
  rw_index : in_u64 (s_index s);
  rw_disk : OnDiskStateMachine s = true → s_onDiskIndex s ≤ Z.max (s_index s) (s_onDiskInitIndex s)
}.

(** What a leader puts into an entry. *)
Record entry_ok e : Prop := {
  eo_client : in_u64 (e_ClientID e);
  eo_series : in_u64 (e_SeriesID e);
  eo_responded : in_u64 (e_RespondedTo e);
  eo_change : IsConfigChange e = true → ∃ cc, UnmarshalConfigChange (e_Cmd e) = Ok cc ∧ known cc;
  eo_plain : IsConfigChange e = false → IsSessionManaged e = false → IsEmpty e = true;
  eo_payload : IsUpdateEntry e = true → ∃ p, GetPayload e = Some p ∧ C p
}.
(** Entries that continue a log at index [i] and term [t]. *)
Fixpoint log_ok (i t : Z) es : Prop :=
  match es with
  | [] => True
  | e :: es => entry_ok e ∧ e_Index e = i + 1 ∧ i + 1 < 2 ^ 64 ∧ t ≤ e_Term e ∧ 0 < e_Term e ∧ log_ok (i + 1) (e_Term e) es
  end.

(** The next entry's index and term can be set. *)
Definition next s e : Prop := e_Index e = s_index s + 1 ∧ s_index s + 1 < 2 ^ 64 ∧ s_term s ≤ e_Term e.
Lemma setApplied_next s e : in_u64 (s_index s) → next s e → setApplied s (e_Index e) (e_Term e) = Some (s <| s_index := e_Index e |> <| s_term := e_Term e |>).
Proof.
  intros Hi (-> & Hb & Ht). rewrite setApplied_form /appliedOk u64_small; [zlia|]. rewrite Z.eqb_refl. by destruct (Z.leb_spec (s_term s) (e_Term e)); [|lia].
Qed.
Lemma wf_applied s e : rsm_wf s → next s e → rsm_wf (s <| s_index := e_Index e |> <| s_term := e_Term e |>).
Proof.
  intros [Hs Hm Hp Hi Hd] (Hn & Hb & _). constructor; proj_simpl; try done; [rewrite Hn; zlia|].
  change (OnDiskStateMachine (s <| s_index := _ |> <| s_term := _ |>)) with (OnDiskStateMachine s). intros Ho. specialize (Hd Ho). lia.
Qed.
Lemma wf_call s c : rsm_wf s → rsm_wf (call c s).
Proof. by intros [? ? ? ? ?]. Qed.

(** The machine's part. *)
Lemma runUpdate_run s e p : rsm_wf s → next s e → entryInInitDiskSM s (e_Index e) = false → GetPayload e = Some p → C p →
  ∃ m r, P m ∧ in_u64 (res_Value r) ∧ runUpdate I s e = Some (s <| s_sm := (s_sm s) <| ns_sm := m |> |> <| s_onDiskIndex := diskIndex s (e_Index e) |>, Ok r).
Proof.
  intros [Hs Hm Hp Hi Hd] (Hn & Hb & _) Hin Hpl Hc. rewrite /runUpdate Hpl. cbn [mbind option_bind]. rewrite /NativeUpdate /lift.
  destruct (total_update (ns_sm (s_sm s)) {| sme_Index := e_Index e; sme_Cmd := p; sme_Result := noResult |} Hp Hc) as (m & r & -> & Hm' & Hr).
  exists m, r. cbn [mbind option_bind]. rewrite setOnDisk_form. replace (diskOk _ _ _) with true; [done|]. symmetry.
  change (diskOk _ (e_Index e) (e_Index e)) with (diskOk s (e_Index e) (e_Index e)). rewrite /diskOk Z.leb_refl. rewrite /entryInInitDiskSM in Hin.
  destruct (OnDiskStateMachine s); [|done]. specialize (Hd eq_refl). cbn. apply Z.leb_gt in Hin. apply andb_true_iff. rewrite !Z.ltb_lt. zlia.
Qed.
Lemma wf_ran s e m : rsm_wf s → next s e → P m →
  rsm_wf (s <| s_sm := (s_sm s) <| ns_sm := m |> |> <| s_onDiskIndex := diskIndex s (e_Index e) |> <| s_index := e_Index e |> <| s_term := e_Term e |>).
Proof.
  intros [Hs Hm Hp Hi Hd] (Hn & Hb & _) Hp'. constructor; proj_simpl; try done; [rewrite Hn; zlia|].
  change (OnDiskStateMachine _) with (OnDiskStateMachine s). intros Ho. rewrite /diskIndex Ho. lia.
Qed.
Lemma wf_sessions s rec : rsm_wf s → lru_wf rec → rsm_wf (s <| s_sessions := rec |>).
Proof. intros [Hs Hm Hp Hi Hd] Hr. by constructor. Qed.

Lemma addResponse_ok ses n v : session_ok ses → in_u64 n → se_RespondedUpTo ses < n → se_History ses !! n = None → in_u64 (res_Value v) →
  ∃ ses', addResponse ses n v = Some ses' ∧ session_ok ses' ∧ se_ClientID ses' = se_ClientID ses.
Proof.
  intros [Hc Hr Hh] Hn Hlt E Hv. rewrite /addResponse E. eexists. split_and!; [done| |done]. constructor; proj_simpl; try done.
  by apply map_Forall_insert_2.
Qed.

(** An update of a client session never panics. *)
Lemma updateBody_wf s e : rsm_wf s → next s e → entryInInitDiskSM s (e_Index e) = false → entry_ok e → IsUpdateEntry e = true →
  ∃ s' x, updateBody I s e = Some (s', Ok x) ∧ s_index s' = s_index s ∧ s_term s' = s_term s ∧ rsm_wf (s' <| s_index := e_Index e |> <| s_term := e_Term e |>).
Proof.
  intros Hw Hn Hin [Hcl Hse Hre _ _ Hpl] Hu. destruct (Hpl Hu) as (p & Ep & Hp). rewrite /updateBody. destruct (IsNoOPSession e).
  { destruct (runUpdate_run s e p Hw Hn Hin Ep Hp) as (m & r & Hm & _ & ->). do 2 eexists. split_and!; [done..|]. by apply wf_ran. }
  rewrite ClientRegistered_get; [by apply rw_sessions|]. pose proof (getSession_wf (s_sessions s) (e_ClientID e) (rw_sessions _ Hw)) as Hg.
  destruct (getSession (s_sessions s) (e_ClientID e)) as [rec o] eqn:Eg. cbn [fst mbind option_bind] in Hg |- *. destruct o as [ses|]; cycle 1.
  { do 2 eexists. split_and!; [done..|]. apply wf_applied; [|done]. by apply wf_sessions. }
  assert (lru_sessions rec !! e_ClientID e = Some ses) as Es.
  { revert Eg. rewrite /getSession. destruct (lru_sessions (s_sessions s) !! e_ClientID e) eqn:E; [|done]. intros [= <- <-]. by proj_simpl. }
  destruct (lw_keys _ Hg _ _ Es) as [Hid Hok]. set (ses1 := clearTo ses (e_RespondedTo e)).
  assert (session_ok ses1) as Hok1 by (by apply clearTo_ok). assert (se_ClientID ses1 = e_ClientID e) as Hid1.
  { rewrite -Hid /ses1 /clearTo. repeat case_match; done. }
  set (s1 := s <| s_sessions := rec |> <| s_sessions ::= λ rec, putSession rec (e_ClientID e) ses1 |>).
  assert (rsm_wf s1) as Hw1 by (apply (wf_sessions s); [done|by apply putSession_wf]).
  rewrite /UpdateRequired /hasResponded /getResponse. destruct (Z.leb_spec (e_SeriesID e) (se_RespondedUpTo ses1)).
  { do 2 eexists. split_and!; [done..|]. by apply (wf_applied s1). }
  destruct (se_History ses1 !! e_SeriesID e) as [v|] eqn:Eh; cbn [negb].
  { do 2 eexists. split_and!; [done..|]. by apply (wf_applied s1). }
  rewrite bool_decide_false; [by intros [? ?]|]. destruct (runUpdate_run s1 e p Hw1 Hn Hin Ep Hp) as (m & r & Hm & Hr & ->). cbn [mbind option_bind].
  destruct (addResponse_ok ses1 (e_SeriesID e) r) as (ses2 & -> & Hok2 & Hid2); [done..|]. cbn [mbind option_bind]. do 2 eexists. split_and!; [done..|].
  refine (wf_sessions _ _ (wf_ran s1 e m Hw1 Hn Hm) _). apply putSession_wf; [exact (rw_sessions _ Hw1)| |congruence|done].
  proj_simpl. rewrite lookup_insert_eq. by eexists.
Qed.
Lemma update_wf s e : rsm_wf s → next s e → entryInInitDiskSM s (e_Index e) = false → entry_ok e → IsUpdateEntry e = true →
  ∃ s' x, update I s e = Some (s', Ok x) ∧ s_term s' = e_Term e ∧ rsm_wf s'.
Proof.
  intros Hw Hn Hin He Hu. destruct (updateBody_wf s e Hw Hn Hin He Hu) as (s1 & x & E1 & Hi & Ht & Hw1). rewrite /update E1. cbn [mbind option_bind].
  rewrite setApplied_next; [rewrite Hi; by apply rw_index|by rewrite /next Hi Ht|]. do 2 eexists. by split_and!.
Qed.

(** Every entry is handled. *)
Lemma handleEntry_wf s e l : rsm_wf s → next s e → entry_ok e →
  ∃ s', handleEntry I foldRune s e l = Some (s', Ok tt) ∧ s_term s' = e_Term e ∧ rsm_wf s'.
Proof.
  intros Hw Hn He. rewrite /handleEntry. pose proof (rw_index _ Hw) as Hi. destruct (IsConfigChange e) eqn:Hcc.
  { destruct (eo_change _ He Hcc) as (cc & Ecc & Hk). rewrite /configChange Ecc.
    destruct (handle_wf foldRune (s_members s) cc (e_Index e) Hk (rw_members _ Hw)) as (ms & b & -> & Hms & _). cbn [mbind option_bind].
    rewrite (setApplied_next (s <| s_members := ms |>)) //. eexists. split_and!; [done..|]. apply wf_call, (wf_applied (s <| s_members := ms |>)); [|done].
    destruct Hw. by constructor. }
  destruct (IsSessionManaged e) eqn:Hsm; cbn [negb].
  2: { rewrite (eo_plain _ He Hcc Hsm) /noop (eo_plain _ He Hcc Hsm) Hsm. cbn [negb orb]. rewrite setApplied_next //. eexists. split_and!; [done..|].
       by apply wf_call, wf_applied. }
  destruct (IsNewSessionRequest e) eqn:Hnew.
  { rewrite /registerSession. destruct (RegisterClientID_spec (s_sessions s) (e_ClientID e) (rw_sessions _ Hw) (eo_client _ He)) as (rec & r & -> & Hr & _).
    cbn [mbind option_bind]. rewrite (setApplied_next (s <| s_sessions := rec |>)) //. eexists. split_and!; [done..|].
    apply wf_call, (wf_applied (s <| s_sessions := rec |>)); [by apply wf_sessions|done]. }
  destruct (IsEndOfSessionRequest e) eqn:Hend.
  { rewrite /unregisterSession. destruct (UnregisterClientID_spec (s_sessions s) (e_ClientID e) (rw_sessions _ Hw)) as (rec & r & -> & Hr & _).
    cbn [mbind option_bind]. rewrite (setApplied_next (s <| s_sessions := rec |>)) //. eexists. split_and!; [done..|].
    apply wf_call, (wf_applied (s <| s_sessions := rec |>)); [by apply wf_sessions|done]. }
  destruct (entryInInitDiskSM s (e_Index e)) eqn:Hin; cbn [negb].
  { rewrite /noop. change (IsEmpty _) with true. change (IsSessionManaged _) with false. cbn [negb orb].
    change (e_Index (noEntry <| e_Index := e_Index e |> <| e_Term := e_Term e |>)) with (e_Index e).
    change (e_Term (noEntry <| e_Index := e_Index e |> <| e_Term := e_Term e |>)) with (e_Term e).
    rewrite setApplied_next //. eexists. split_and!; [done..|]. by apply wf_applied. }
  destruct (update_wf s e Hw Hn Hin He) as (s1 & [[v ign] rej] & -> & Ht & Hw1); [by rewrite /IsUpdateEntry Hcc Hsm Hnew Hend|].
  cbn [mbind option_bind]. eexists. split_and!; [done|by destruct ign|]. by destruct ign; [|apply wf_call].
Qed.

(** *** Logs *)
Definition endOf s es : Z * Z := match last es with Some e => (e_Index e, e_Term e) | None => (s_index s, s_term s) end.

Lemma handleEntries_wf s es : rsm_wf s → log_ok (s_index s) (s_term s) es →
  ∃ s', handleEntries I foldRune s false es = Some (s', Ok tt) ∧ rsm_wf s' ∧ (s_index s', s_term s') = endOf s es.
Proof.
  revert s. induction es as [|e es IH]; intros s Hw; [by exists s|]. intros (He & Hi & Hb & Ht & Hp & Hl). cbn [handleEntries].
  destruct (handleEntry_wf s e (false && bool_decide (es = [])) Hw ltac:(by split_and!) He) as (s1 & E1 & Ht1 & Hw1).
  pose proof (handleEntry_index I foldRune s e (false && bool_decide (es = [])) s1) as Hi1. rewrite E1 in Hi1 |- *. specialize (Hi1 eq_refl). cbn [mbind option_bind].
  destruct (IH s1 Hw1) as (s2 & E2 & Hw2 & H2); [by rewrite Hi1 Ht1 Hi|]. exists s2. split_and!; [done..|].
  rewrite H2 /endOf last_cons. destruct (last es); [done|]. by rewrite Hi1 Ht1.
Qed.

Lemma checkEntries_ok i j es : 0 ≤ i → log_ok i j es → checkEntries i j es = true.
Proof.
  revert i j. induction es as [|e es IH]; intros i j Hi; [done|]. intros (He & Ei & Hb & Ht & Hp & Hl). cbn [checkEntries].
  rewrite !andb_true_iff !negb_true_iff !Z.eqb_neq Z.eqb_eq Z.leb_le. rewrite Ei u64_small; [zlia|]. split_and!; try lia. apply IH; [lia|done].
Qed.
Lemma lastOf_ok a b es : 0 ≤ a → log_ok a b es → lastOf a b es = Some (match last es with Some e => (e_Index e, e_Term e) | None => (a, b) end).
Proof.
  intros Ha Hl. destruct es as [|e es]; [done|]. pose proof (checkEntries_ok a b (e :: es) Ha Hl) as Hc. cbn [checkEntries] in Hc. cbn [lastOf].
  rewrite Hc. destruct (last (e :: es)) eqn:El; [done|]. by apply last_None in El.
Qed.

(** All applied entries were announced. *)
Definition settled s : Prop := s_lastIndex s = s_index s ∧ s_lastTerm s = s_term s.

Lemma applyAll_wf s es : rsm_wf s → settled s → log_ok (s_index s) (s_term s) es →
  ∃ s', applyAll I foldRune s es = Some s' ∧ rsm_wf s' ∧ settled s' ∧ (s_index s', s_term s') = endOf s es.
Proof.
  intros Hw [Hs1 Hs2] Hl. pose proof (rw_index _ Hw) as Hi. destruct (handleEntries_wf s es Hw Hl) as (s1 & E1 & Hw1 & H1).
  destruct (handleEntries_last _ _ _ _ _ _ E1) as [L1 L2]. rewrite /applyAll E1. cbn [okOf mbind option_bind]. rewrite setLastApplied_form L1 L2 Hs1 Hs2.
  rewrite lastOf_ok //; [zlia|]. rewrite /endOf in H1 |- *. destruct (last es) as [e|]; injection H1 as H1 H2; (eexists; split_and!;
    [done|destruct Hw1; by constructor|by split|by rewrite -H1 -H2]).
Qed.
Lemma log_ok_consecutive i j es : log_ok i j es → consecutive i es.
Proof. revert i j. induction es as [|e es IH]; intros i j; [done|]. intros (_ & ? & ? & _ & _ & ?). split_and!; eauto. Qed.
Lemma endOf_length s es : log_ok (s_index s) (s_term s) es → (endOf s es).1 = s_index s + Z.of_nat (length es).
Proof.
  rewrite /endOf. generalize (s_index s) (s_term s). induction es as [|e es IH]; intros i j; [cbn; lia|]. intros (_ & Hi & _ & _ & _ & Hl).
  rewrite last_cons. specialize (IH _ _ Hl). destruct (last es); cbn in IH |- *; lia.
Qed.

Context `{!SequentialMachine I}.

(** C7: Well-formed replicas make progress and stay well formed.  From a well-formed replica
    (session cache, membership, machine and indices in order), any tasks whose entries continue
    its log and are of the kinds a leader writes are handled without a panic and without an
    error, in batches or not; the replica is well formed again, has applied exactly these
    entries, and has announced all it has applied. *)
Theorem replica_well_formed s tasks : rsm_wf s → settled s → Forall entryTask tasks → log_ok (s_index s) (s_term s) (entriesOf tasks) →
  ∃ s', handle I foldRune s tasks = Some (s', Ok tt) ∧ rsm_wf s' ∧ settled s' ∧ s_index s' = s_index s + Z.of_nat (length (entriesOf tasks)).
Proof.
  intros Hw Hs Ht Hl. destruct (applyAll_wf s _ Hw Hs Hl) as (s1 & E1 & Hw1 & Hs1 & H1).
  pose proof (handle_all I foldRune s tasks Ht (log_ok_consecutive _ _ _ Hl)) as Hb. rewrite E1 in Hb.
  destruct (handle I foldRune s tasks) as [[s2 [[]|]]|]; [|done|done]. cbn [okOf both] in Hb. symmetry in Hb. apply alike_inv in Hb as (c & -> & _).
  eexists. split_and!; [done|destruct Hw1; by constructor|done|]. proj_simpl. rewrite -(endOf_length s) // -H1. done.
Qed.
End wellformed.
