(* ===== verification/RsmRecover.v ===== *)
(** * Restarting from a snapshot

    Theorems about Rsm and Snapshotter together: a snapshot that is prepared, written
    while the machine goes on, and committed brings a fresh replica back to the state it
    was prepared in. *)
From S2P Require Import Prelude GoStrings Wire Raftpb RaftLog LogReader RaftPeer RsmMembers GoJson RsmSession RsmMachine SnapshotIo SnapshotFile Snapshotter Rsm RsmApply RsmOnce.
From Stdlib Require Import Ascii Sorting.Sorted.

Local Open Scope Z_scope.

(** A machine whose snapshots are its state at [Prepare], up to [sim]. *)
Class SnapshotMachine {M E X Q A} (I : IStateMachine M E X Q A) (P : M → Prop) (sim : M → M → Prop) : Prop :=
  snapshot_of m : P m → ∃ x payload, ism_Prepare I m = Some (m, Ok x) ∧ (∀ m1, ism_Save I m1 (Some x) = Some (m1, Ok payload)) ∧
    ∀ m0, ∃ m', ism_Recover I m0 payload = Some (m', None) ∧ sim m m' ∧ P m'.

(** ** The most recent record *)
Section records.
Lemma deepCopy_twice m : deepCopyMembership (deepCopyMembership m) = deepCopyMembership m.
Proof. destruct m. rewrite /deepCopyMembership /upd /=. f_equal. by rewrite -map_fmap_compose. Qed.
Lemma deepCopy_wf foldRune m : members_wf foldRune m → members_wf foldRune (deepCopyMembership m).
Proof. intros [H1 H2 H3 H4 H5]. constructor; try done. intros i. rewrite /deepCopyMembership. proj_simpl. rewrite lookup_fmap fmap_is_Some. apply H4. Qed.
Lemma last_sorted (l : list Z) i : StronglySorted Z.le l → i ∈ l → (∀ j, j ∈ l → j ≤ i) → ∃ l', l = l' ++ [i].
Proof.
  intros Hs Hi Hle. destruct l as [|x l _] using rev_ind; [by apply elem_of_nil in Hi|]. exists l. do 2 f_equal.
  pose proof (Hle x ltac:(set_solver)). apply elem_of_app in Hi as [Hi| ->%list_elem_of_singleton]; [|done].
  assert (i ≤ x); [|lia]. clear Hle. induction l as [|y l IH]; [by apply elem_of_nil in Hi|]. cbn [app] in Hs. apply StronglySorted_inv in Hs as [Hs Hy].
  apply elem_of_cons in Hi as [->|Hi]; [|by apply IH]. eapply Forall_forall in Hy; [exact Hy|]. set_solver.
Qed.

Lemma recent_new {U} sn d d' ss sd : committed sn d ss sd d' → 0 < ss_Index ss < 2 ^ 64 → (∀ j, is_Some (records d !! j) → j < ss_Index ss) → @GetMostRecent U d' = Ok ss.
Proof.
  intros [_ Er] Hi Hlt. rewrite /GetMostRecent /ListSnapshots. fold (records d'). rewrite Er.
  set (m := <[ss_Index ss := ss]> (records d)). set (keys := merge_sort Z.le _).
  assert (∀ j, j ∈ keys ↔ j ≤ 2 ^ 64 - 1 ∧ is_Some (m !! j)) as Hkeys.
  { intros j. rewrite /keys merge_sort_Permutation list_elem_of_filter list_elem_of_fmap. apply and_iff_compat_l. split.
    - intros ([k v] & -> & Hk%elem_of_map_to_list). by eexists.
    - intros [v Hv]. exists (j, v). by rewrite elem_of_map_to_list. }
  destruct (last_sorted keys (ss_Index ss)) as [l' ->].
  - apply Sorted_StronglySorted; [intros ???; lia|]. apply Sorted_merge_sort. intros ??; lia.
  - rewrite Hkeys /m lookup_insert_eq. split; [lia|by eexists].
  - intros j [_ Hj]%Hkeys. rewrite /m lookup_insert_is_Some in Hj. destruct Hj as [<-|[_ Hj]]; [lia|]. specialize (Hlt j Hj). lia.
  - rewrite omap_app /= /m lookup_insert_eq. by rewrite last_snoc.
Qed.
End records.

(** ** Writing and opening the file *)
Section files.
Context `{SnappyStream} (blockSize : Z) (Hbs : 12 < blockSize < 2 ^ 60) (sn : snapshotter).
Implicit Types (d : Disk).

(** The directory has a file with this payload. *)
Definition holds (ct : CompressionType) (payload : bytes) (sd : SSDir) : Prop :=
  ∃ now checksum n, in_u64 now ∧ length checksum = 4%nat ∧ compressionType n = Some ct ∧
    sd_file sd = Some (headerBytes (MarshalHeader (headerFor now checksum V2 n)) ++
                       framed (Z.to_nat blockSize) (compress ct payload) ++ tailOf blockSize (compress ct payload)).

Lemma compressionType_range n ct : compressionType n = Some ct → 0 ≤ n < 2 ^ 31.
Proof. rewrite /compressionType /NoCompressionNumber /SnappyNumber. destruct (Z.eqb_spec n 0); [lia|]. destruct (Z.eqb_spec n 1); [lia|done]. Qed.

Lemma same_trans d0 d1 d2 : same sn d0 d1 → same sn d1 d2 → same sn d0 d2.
Proof. intros [H1 H2] [H3 H4]. split; congruence. Qed.

Lemma Save_done {N X U} d (save : SSMeta X → option (N * result (bool * bytes) U)) (meta : SSMeta X) now ct n payload :
  isExported (sx_Request meta) = false → compressionType (sx_CompressionType meta) = Some ct → in_u64 now → 0 < sx_Index meta →
  save meta = Some (n, Ok (false, payload)) → Z.of_nat (length (compress ct payload)) < 2 ^ 60 →
  ∃ d' ss sd, Snapshotter.Save blockSize sn d save meta now = Some (d', n, getEnv sn (sx_Index meta), Ok ss) ∧
    tempDir (getEnv sn (sx_Index meta)) d' = Some sd ∧ same sn d d' ∧ holds ct payload sd ∧
    ss_Index ss = sx_Index meta ∧ ss_Term ss = sx_Term meta ∧ ss_Membership ss = sx_Membership meta ∧ ss_Dummy ss = false ∧ ss_Witness ss = false.
Proof.
  intros Hexp Hct Hnow Hpos Hs Hl. rewrite /Snapshotter.Save /getCustomEnv Hexp. cbn [mbind option_bind]. rewrite Hct. cbn [mbind option_bind]. rewrite Hs. cbn [mbind option_bind].
  destruct (SnapshotWrite_file blockSize Hbs now (sx_CompressionType meta) [compress ct payload] Hnow (compressionType_range _ _ Hct)) as (checksum & Hc & ->).
  { by rewrite /= app_nil_r. }
  cbn [mbind option_bind concat]. rewrite app_nil_r. cbn [ss_Index]. rewrite (proj2 (Z.ltb_lt _ _) Hpos).
  set (d1 := CreateTempDir _ d). set (file := headerBytes _ ++ _). eexists _, _, ((default emptyDir (tempDir (getEnv sn (sx_Index meta)) d)) <| sd_file := Some file |>).
  split_and!; [done| | | |done..].
  - rewrite /tempDir /inTemp /d1 /CreateTempDir /onTemp. cbn [env_mode env_rootDir getEnv NewSSEnv tempDirs]. rewrite !rootOf_onRoot. proj_simpl.
    by rewrite lookup_alter_eq lookup_insert_eq.
  - apply (same_trans d d1); [|apply temp_same]. rewrite /d1 /CreateTempDir /same /finals /records rootOf_onRoot log_onRoot /onTemp. cbn [env_mode getEnv NewSSEnv].
    by proj_simpl.
  - exists now, checksum, (sx_CompressionType meta). by split_and!.
Qed.

Lemma open_holds {U} d ss sd ct payload : finals sn d !! ss_Index ss = Some sd → holds ct payload sd → decompress ct (compress ct payload) = Some payload →
  openSnapshot (E := U) blockSize sn d ss = Some (Ok (V2, payload, true)).
Proof.
  intros Hf (now & checksum & n & Hnow & Hc & Hn & Hfile) Hd. rewrite /openSnapshot finals_env Hf. cbn [mbind option_bind]. rewrite Hfile.
  rewrite (GetHeader_file blockSize now checksum n) //; [by eapply compressionType_range|]. cbn [mbind option_bind sr_header sr_r].
  change (sh_CompressionType (headerFor now checksum V2 n)) with n. rewrite Hn. cbn [mbind option_bind]. change (toVersion (sh_Version _)) with (Some V2).
  cbn [mbind option_bind]. rewrite /payloadOf. cbn [sr_r]. set (br := newBlockReader _ _).
  destruct (Read_end blockSize ltac:(lia) br (compress ct payload) (S (length (br_r br)))) as [br' ->].
  - split; [done|]. by exists (compress ct payload).
  - pose proof (length_framed_le (Z.to_nat blockSize) ltac:(lia) (compress ct payload)). cbn. lia.
  - cbn [mbind option_bind fst snd]. by rewrite Hd.
Qed.
End files.

(** ** The replica *)
Section replica.
Context `{Snappy} `{SnappyStream} {M U X Q A : Type} (I : IStateMachine M U X Q A) (P : M → Prop) (sim : M → M → Prop) `{!SnapshotMachine I P sim}.
Context (foldRune : Z → Z) (blockSize : Z) (Hbs : 12 < blockSize < 2 ^ 60) (sn : snapshotter) (nodeID : Z) (stopped : U → bool).
Context (Hconc : ism_Concurrent I = true) (Hmem : ism_OnDisk I = false).
Implicit Types (s : StateMachine M) (d : Disk).

(** A replica that can be saved: it has applied something since its last snapshot. *)
Record savable s : Prop := {
  sv_wf : rsm_wf P foldRune s;
  sv_settled : settled s;
  sv_disk : OnDiskStateMachine s = false;
  sv_aborted : s_aborted s = false;
  sv_new : 0 ≤ s_snapshotIndex s < s_index s;
  sv_members : isEmpty (s_members s) = false;
  sv_fits : map_Forall (λ _ ses, in_u64 (Z.of_nat (length (MarshalSession ses)))) (lru_sessions (s_sessions s))
}.

(** What is written for the state [s] and comes back from it. *)
Definition image s (out payload : bytes) (x : X) : Prop :=
  ism_Prepare I (ns_sm (s_sm s)) = Some (ns_sm (s_sm s), Ok x) ∧
  saveLRU (s_sessions s) = Some (s_sessions s, out) ∧ (∀ rec rest, loadLRU rec V2 (out ++ rest) = Some (s_sessions s, Ok rest)) ∧
  (∀ m1, ism_Save I m1 (Some x) = Some (m1, Ok payload)) ∧ ∀ m0, ∃ m', ism_Recover I m0 payload = Some (m', None) ∧ sim (ns_sm (s_sm s)) m' ∧ P m'.

(** The file of a snapshot of [s] has a size Go can express. *)
Definition fitsFile s (ct : CompressionType) : Prop := ∀ m1 x m2 payload rec out,
  ism_Prepare I (ns_sm (s_sm s)) = Some (m1, Ok x) → ism_Save I m1 (Some x) = Some (m2, Ok payload) → saveLRU (s_sessions s) = Some (rec, out) →
  Z.of_nat (length (compress ct (out ++ payload))) < 2 ^ 60.

Definition metaOf s (r : SSRequest) (out : bytes) (x : X) : SSMeta X :=
  {| sx_From := nodeID; sx_Index := s_index s; sx_Term := s_term s; sx_OnDiskIndex := s_onDiskIndex s; sx_Request := r;
     sx_Membership := getMembers (s_members s); sx_Type := ism_Type I; sx_Session := out; sx_Ctx := Some x; sx_CompressionType := s_sct s |}.

Lemma prepare_done s r : savable s → isExported r = false →
  ∃ out payload x, image s out payload x ∧ prepare I nodeID s r = Some (s, Ok (metaOf s r out x)).
Proof.
  intros [Hw [Hs1 Hs2] Hd Ha Hn Hm Hf] Hexp. destruct (saved_loads _ (rw_sessions _ _ _ Hw) Hf) as (out & Es & El).
  destruct (snapshot_of _ (rw_machine _ _ _ Hw)) as (x & payload & Ep & Hsv & Hrec). exists out, payload, x. split; [done|].
  rewrite /prepare /checkSnapshotStatus Ha /GetLastApplied Hs1. destruct (Z.ltb_spec (s_index s) (s_snapshotIndex s)); [lia|].
  destruct (Z.eqb_spec (s_index s) (s_snapshotIndex s)); [lia|]. rewrite andb_false_r. cbn [mbind option_bind].
  rewrite /Concurrent Hconc /isDummySnapshot Hd. cbn [andb negb]. rewrite /NativePrepare /lift Ep. cbn [mbind option_bind].
  set (s1 := s <| s_sm := _ |>). assert (s1 = s) as -> by (rewrite /s1; destruct s as [? ? ? ? ? []]; done).
  rewrite /getSSMeta Hm Es. cbn [mbind option_bind]. rewrite /metaOf /isDummySnapshot Hd. cbn [andb]. do 3 f_equal; by destruct s.
Qed.

(** Writing it from any later state of the machine. *)
Lemma doSave_done s s1 r d now ct out payload x : savable s → isExported r = false → image s out payload x →
  compressionType (s_sct s) = Some ct → in_u64 now → Z.of_nat (length (compress ct (out ++ payload))) < 2 ^ 60 → ns_witness (s_sm s1) = false →
  ∃ d1 ss sd, doSave I blockSize sn s1 d (metaOf s r out x) now = Some (s1 <| s_snapshotIndex := s_index s |>, d1, Ok ss) ∧
    tempDir (getEnv sn (s_index s)) d1 = Some sd ∧ same sn d d1 ∧ holds blockSize ct (out ++ payload) sd ∧
    ss_Index ss = s_index s ∧ ss_Term ss = s_term s ∧ ss_Membership ss = getMembers (s_members s) ∧ ss_Dummy ss = false ∧ ss_Witness ss = false.
Proof.
  intros [Hw _ _ _ Hn _ _] Hexp (_ & Es & El & Hsv & Hrec) Hct Hnow Hlen Hwit. rewrite /doSave.
  set (save := λ meta, NativeSave I _ _ _ _).
  assert (save (metaOf s r out x) = Some (s_sm s1, Ok (false, out ++ payload))) as Hsave.
  { rewrite /save /NativeSave Hwit Hmem. cbn [orb andb]. rewrite /nativeSave /lift. cbn [sx_Ctx metaOf]. rewrite Hsv. cbn [mbind option_bind].
    by destruct (s_sm s1). }
  destruct (Save_done blockSize Hbs sn d save (metaOf s r out x) now ct (s_sm s1) (out ++ payload) Hexp Hct Hnow ltac:(cbn; lia) Hsave Hlen)
    as (d1 & ss & sd & -> & H1 & H2 & H3 & H4). cbn [mbind option_bind]. exists d1, ss, sd. split; [by destruct s1|]. by split_and!; [..|apply H4|apply H4|apply H4|apply H4|apply H4].
Qed.

(** Reading it into a fresh replica. *)
Definition initialTask : Task := emptyTask <| t_Recover := true |> <| t_Initial := true |>.

Lemma Recover_done s s0 d ss sd ct out payload x : rsm_wf P foldRune s → 0 < s_index s → image s out payload x → decompress ct (compress ct (out ++ payload)) = Some (out ++ payload) →
  @GetMostRecent U d = Ok ss → finals sn d !! ss_Index ss = Some sd → holds blockSize ct (out ++ payload) sd →
  ss_Index ss = s_index s → ss_Term ss = s_term s → ss_Membership ss = getMembers (s_members s) → ss_Dummy ss = false → ss_Witness ss = false →
  s_lastIndex s0 = 0 → s_aborted s0 = false → OnDiskStateMachine s0 = false →
  ∃ s3, Recover I blockSize sn stopped s0 d initialTask = Some (s3, Ok (s_index s)) ∧
    rsm_wf P foldRune s3 ∧ s_index s3 = s_index s ∧ s_term s3 = s_term s ∧ settled s3 ∧ s_sessions s3 = s_sessions s ∧ GetMembership s3 = GetMembership s ∧ sim (ns_sm (s_sm s)) (ns_sm (s_sm s3)).
Proof.
  intros Hw Hpos (_ & Es & El & Hsv & Hrec) Hdec Hrecent Hfin Hh Hi Ht Hms Hdm Hwt Hl0 Ha0 Hd0. destruct (Hrec (ns_sm (s_sm s0))) as (m' & Em & Hsim & HP).
  rewrite /Recover /getSnapshot. change (t_Initial initialTask) with true. cbn [negb]. rewrite Hrecent /IsEmptySnapshot Hi. destruct (Z.eqb_spec (s_index s) 0); [lia|].
  rewrite /recover /GetLastApplied Hl0 Hi. destruct (Z.leb_spec (s_index s) 0); [lia|]. rewrite Ha0 Hwt Hdm Hd0. cbn [negb orb].
  rewrite /doRecover /Load (open_holds blockSize Hbs sn d ss sd ct (out ++ payload)) //. cbn [mbind option_bind]. rewrite El. cbn [mbind option_bind].
  rewrite /NativeRecover /lift. change (s_sm (s0 <| s_sessions := s_sessions s |>)) with (s_sm s0). rewrite Em. cbn [mbind option_bind].
  eexists. split; [done|]. rewrite /apply /call. proj_simpl. split_and!; try done.
  { destruct Hw as [W1 W2 W3 W4 W5]. constructor; proj_simpl; try done; [|by rewrite Hi|change (OnDiskStateMachine _) with (OnDiskStateMachine s0); by rewrite Hd0].
    rewrite /setMembers. proj_simpl. rewrite Hms /getMembers. by repeat apply deepCopy_wf. }
  rewrite /GetMembership /getMembers /setMembers. proj_simpl.
  by rewrite Hms /getMembers !deepCopy_twice.
Qed.

(** C6: A snapshot brings a replica back.  Preparing a snapshot of a replica that has applied
    something new succeeds and leaves the replica as it is.  Written to the disk later, from
    whatever the machine is then, and committed, it is the most recent snapshot of the disk,
    and a replica that starts from that disk is well formed and recovers the state the snapshot
    was prepared in: index and term, all client sessions, the membership, and the machine up to
    [sim].  The
    compressor has to give back what it compressed. *)
Theorem restart_restores s r ct : savable s → isExported r = false → compressionType (s_sct s) = Some ct →
  fitsFile s ct → (∀ l, decompress ct (compress ct l) = Some l) →
  ∃ meta, prepare I nodeID s r = Some (s, Ok meta) ∧
    ∀ s1 d now, ns_witness (s_sm s1) = false → in_u64 now →
      finals sn d !! s_index s = None → (∀ j, is_Some (records d !! j) → j < s_index s) →
      ∃ s2 d1 ss ds d2, doSave I blockSize sn s1 d meta now = Some (s2, d1, Ok ss) ∧
        @commit sn U d1 ss r = Some (ds, Ok tt) ∧ last ds = Some d2 ∧
        ∀ s0, s_lastIndex s0 = 0 → s_aborted s0 = false → OnDiskStateMachine s0 = false →
          ∃ s3, Recover I blockSize sn stopped s0 d2 initialTask = Some (s3, Ok (s_index s)) ∧
            rsm_wf P foldRune s3 ∧ s_index s3 = s_index s ∧ s_term s3 = s_term s ∧ settled s3 ∧ s_sessions s3 = s_sessions s ∧ GetMembership s3 = GetMembership s ∧
            sim (ns_sm (s_sm s)) (ns_sm (s_sm s3)).
Proof.
  intros Hs Hexp Hct Hsz Hdec. destruct (prepare_done s r Hs Hexp) as (out & payload & x & Him & Hp). pose proof (sv_new _ Hs) as Hn.
  pose proof (rw_index _ _ _ (sv_wf _ Hs)) as Hi.
  assert (Z.of_nat (length (compress ct (out ++ payload))) < 2 ^ 60) as Hlen by (destruct Him as (H1 & H2 & _ & H3 & _); eauto).
  exists (metaOf s r out x). split; [done|]. intros s1 d now Hw Hnow Hfin Hrec.
  destruct (doSave_done s s1 r d now ct out payload x Hs Hexp Him Hct Hnow Hlen Hw) as (d1 & ss & sd & Hsave & Htmp & [Sf Sr] & Hh & E1 & E2 & E3 & E4 & E5).
  rewrite -E1 in Htmp. destruct (commit_steps (U := U) sn d1 ss r sd Hexp Htmp ltac:(lia)) as (? & ? & ? & ? & d2 & Hcm & _ & _ & _ & _ & Hc).
  { by rewrite E1 Sf. }
  do 5 eexists. split_and!; [exact Hsave|exact Hcm|reflexivity|]. intros s0 Hl0 Ha0 Hd0.
  eapply (Recover_done s s0 d2 ss (committed_dir ss sd) ct out payload x); try done; [by apply Hs|lia| |].
  - apply (recent_new sn d1 d2 ss sd Hc); [zlia|]. rewrite Sr E1. done.
  - destruct Hc as [-> _]. by rewrite lookup_insert_eq.
Qed.
End replica.
