(* ===== verification/RsmShard.v ===== *)
(** * A shard on the replicated state machine

    The lock machine and the meta store of internal/raft/consensus behind dragonboat's
    concurrent adapter, on the replicated state machine of Rsm.  Both are machines as
    the theorems on Rsm ask for: they apply a batch entry by entry and take every
    command the service proposes.

    Consensus has statemachine.Entry and statemachine.Result as the records [Entry] and
    [SmResult]; here they are [SmEntry] and [Result]. *)
From S2P Require Import Prelude GoStrings Wire Keypath Meta Fsm FsmWire FsmInv FsmSpec FsmTrace FsmStore.
From S2P Require Import Consensus.
From S2P Require Import Raftpb RaftLog LogReader RaftPeer RsmMembers GoJson RsmSession RsmMachine SnapshotIo Snapshotter Rsm RsmApply RsmOnce RsmRecover.
From Stdlib Require Import Ascii.

Local Open Scope Z_scope.

(** ** Entries of the user's machine *)
Definition toEntry (e : SmEntry) : Consensus.Entry :=
  {| Consensus.en_Index := sme_Index e; Consensus.en_Cmd := sme_Cmd e;
     Consensus.en_Result := {| Consensus.sr_Value := res_Value (sme_Result e); Consensus.sr_Data := default [] (res_Data (sme_Result e)) |} |}.
(** [MarshalVT] returns a slice that is not nil, whatever its length. *)
Definition toResult (r : Consensus.SmResult) : Result := {| res_Value := Consensus.sr_Value r; res_Data := Some (Consensus.sr_Data r) |}.
Definition fromEntry (e : Consensus.Entry) : SmEntry :=
  {| sme_Index := Consensus.en_Index e; sme_Cmd := Consensus.en_Cmd e; sme_Result := toResult (Consensus.en_Result e) |}.

Section machine.
Context {S Q A QE : Type} (update : S → list Consensus.Entry → S * result (list Consensus.Entry) Consensus.SmError) (lookup : S → Q → result A QE)
  (prepare : S → Consensus.anyState) (save : Consensus.anyState → bytes * result unit Consensus.SmError)
  (recover : S → bytes → S * result unit Consensus.SmError).

(** Errors of the machine: those of [Update] and of the snapshots, and those of [Lookup].
    Neither machine has [GetHash] or [NALookup]. *)
Definition machine : UserConcurrentSM S (Consensus.SmError + QE) Consensus.anyState Q A := {|
  ucsm_reads := {|
    us_Lookup m q := match lookup m q with Ok a => Ok a | Err x => Err (inr x) end;
    us_h := None;
    us_na := None;
    us_RecoverFromSnapshot m r := let '(m, r) := recover m r in (m, match r with Ok _ => None | Err x => Some (inl x) end) |};
  ucsm_Update m ents :=
    let '(m, r) := update m (toEntry <$> ents) in (m, match r with Ok es => Ok (fromEntry <$> es) | Err x => Err (inl x) end);
  ucsm_PrepareSnapshot m := (m, Ok (prepare m));
  ucsm_SaveSnapshot m ctx :=
    let '(w, r) := save (default Consensus.anyOther ctx) in (m, match r with Ok _ => Ok w | Err x => Err (inl x) end) |}.
End machine.

Definition lockMachine := machine Consensus.Update Consensus.Lookup Consensus.PrepareSnapshot
  (λ st, Consensus.SaveSnapshot Consensus.fileWrite st []) (Consensus.RecoverFromSnapshot Consensus.fileReadAll).
Definition metaMachine := machine Consensus.UpdateMeta Consensus.LookupMeta Consensus.PrepareMetaSnapshot
  (λ st, Consensus.SaveMetaSnapshot Consensus.fileWrite st []) (Consensus.RecoverFromMetaSnapshot Consensus.fileReadAll).

Definition lockSM := NewConcurrentStateMachine lockMachine.
Definition metaSM := NewConcurrentStateMachine metaMachine.

(** ** They apply entries one after the other *)
Section sequential.
Context {S Q A QE : Type} (update : S → list Consensus.Entry → S * result (list Consensus.Entry) Consensus.SmError) (lookup : S → Q → result A QE)
  (prepare : S → Consensus.anyState) (save : Consensus.anyState → bytes * result unit Consensus.SmError)
  (recover : S → bytes → S * result unit Consensus.SmError).
Context (update_app : ∀ s es1 es2, update s (es1 ++ es2) =
    let '(s1, r1) := update s es1 in
    match r1 with
    | Err x => (s1, Err x)
    | Ok o1 => let '(s2, r2) := update s1 es2 in (s2, match r2 with Ok o2 => Ok (o1 ++ o2) | Err x => Err x end)
    end).
Context (update_one : ∀ s e s' l, update s [e] = (s', Ok l) → ∃ r, l = [Consensus.with_result e r]).

Lemma machine_sequential : SequentialMachine (NewConcurrentStateMachine (machine update lookup prepare save recover)).
Proof using update_app update_one.
  split; cbn [ism_Update NewConcurrentStateMachine ucsm_Update machine].
  - intros m e m' l. change (toEntry <$> [e]) with [toEntry e]. destruct (update m [toEntry e]) as [m1 [o|x]] eqn:E; [|done]. intros [= <- <-].
    destruct (update_one _ _ _ _ E) as [r ->]. exists (toResult r). by destruct e.
  - intros m e es _. change (toEntry <$> (e :: es)) with ([toEntry e] ++ (toEntry <$> es)). rewrite update_app. change (toEntry <$> [e]) with [toEntry e].
    destruct (update m [toEntry e]) as [m1 [o|x]]; [|done]. destruct (update m1 (toEntry <$> es)) as [m2 [o'|x]]; [|done]. by rewrite fmap_app.
Qed.
End sequential.

#[export] Instance lock_sequential : SequentialMachine lockSM.
Proof.
  apply machine_sequential; [apply Consensus.Update_app|]. intros f e f' l. cbn [Consensus.Update].
  destruct (UnmarshalCommand _) as [c|]; [|done]. destruct (Apply f (Some c)) as [f1 [r|]]; [|done]. intros [= <- <-]. by eexists.
Qed.
#[export] Instance meta_sequential : SequentialMachine metaSM.
Proof.
  apply machine_sequential; [apply Consensus.UpdateMeta_app|]. intros s e s' l. cbn [Consensus.UpdateMeta].
  destruct (UnmarshalMetaCommand _) as [c|]; [|done]. destruct (ApplyMeta s (Some c)) as [s1 [r|]]; [|done]. intros [= <- <-]. by eexists.
Qed.

(** ** They take every command of the service *)
Definition lock_state (f : FSM) : Prop := wf f ∧ stored (abs f).
Definition lock_command (b : bytes) : Prop := ∃ c, b = MarshalCommand (command_of c) ∧ proposal c.
Definition meta_command (b : bytes) : Prop := ∃ c, b = MarshalMetaCommand {| GetMetaCmd := Some c |} ∧ meta_proposal c.

(** The result of a command as the replicated state machine has it. *)
Definition resultOf (r : CommandResult) : Result := {| res_Value := outcomeNumber (r_Outcome r); res_Data := Some (MarshalResult r) |}.

Lemma lock_update f e c : lock_state f → sme_Cmd e = MarshalCommand (command_of c) → proposal c →
  let f' := (dispatch (incr_revision f) (normCmd c)).1 in
  ism_Update lockSM f [e] = Some (f', Ok [e <| sme_Result := resultOf (dispatch (incr_revision f) (normCmd c)).2 |>]) ∧ lock_state f'.
Proof.
  intros [Hwf Hs] Hc Hp f'. destruct (Update_carries f [toEntry e] [c] Hwf Hs) as (E & _ & H3 & H4); [by apply Forall2_cons_2, Forall2_nil_2|].
  destruct (Apply_next f c Hwf Hs Hp) as (Hwf' & Hs' & _). split; [|done]. rewrite /lockSM. cbn [ism_Update NewConcurrentStateMachine ucsm_Update lockMachine machine].
  change (toEntry <$> [e]) with [toEntry e]. rewrite E. cbn [answers zip_with fmap list_fmap run foldl compose]. rewrite Apply_Some. by destruct e.
Qed.

#[export] Instance lock_total : TotalMachine lockSM lock_state lock_command.
Proof.
  intros f e Hf (c & Hc & Hp). destruct (lock_update f e c Hf Hc Hp) as [E Hf']. do 2 eexists. split_and!; [exact E|done|].
  cbn. rewrite /in_u64. by destruct (r_Outcome _).
Qed.
#[export] Instance meta_total : TotalMachine metaSM meta_stored meta_command.
Proof.
  intros s e Hs (c & Hc & Hp). destruct (UpdateMeta_carries s [toEntry e] [c] Hs) as (E & Hs' & _); [by apply Forall2_cons_2, Forall2_nil_2|].
  cbn [Consensus.UpdateMeta] in E. change (en_Cmd (toEntry e)) with (sme_Cmd e) in E.
  rewrite /metaSM. cbn [ism_Update NewConcurrentStateMachine ucsm_Update metaMachine machine]. change (toEntry <$> [e]) with [toEntry e]. cbn [Consensus.UpdateMeta].
  change (en_Cmd (toEntry e)) with (sme_Cmd e). rewrite Hc in E |- *. destruct Hp as [Hf Hl]. rewrite MetaCommand_round_trip // in E |- *.
  destruct (ApplyMeta s _) as [s1 [rev|]] eqn:Ea; [|by destruct c]. cbn [fst] in E. subst s1. do 2 eexists.
  split_and!; [destruct e; reflexivity|done|]. cbn. destruct Hs' as [_ Hr _]. by destruct c; cbn in Ea, Hr; simplify_eq.
Qed.

(** ** They are what their snapshots say *)
Definition lock_saves (f : FSM) : Prop := lock_state f ∧ small (MarshalSnapshot (Fsm.snapshot f)).
#[export] Instance lock_snapshots : SnapshotMachine lockSM lock_saves FsmStore.same.
Proof.
  intros f [[Hwf Hs] Hl]. exists (PrepareSnapshot f), (MarshalSnapshot (Fsm.snapshot f)). split_and!; [done|done|].
  intros g. exists (with_notifier f (notifier g)). split_and!; [|done|].
  2: { split; [split|exact Hl]; [by apply (wfx_ext "" ∅ ∅ f)|by destruct Hs]. }
  rewrite /lockSM. cbn [ism_Recover NewConcurrentStateMachine ucsm_reads lockMachine machine us_RecoverFromSnapshot].
  by rewrite (recover_saved fileReadAll f g).
Qed.
Definition meta_saves (s : Meta.Store) : Prop := meta_stored s ∧ small (MarshalMetaSnapshot (SnapshotMeta s)).
#[export] Instance meta_snapshots : SnapshotMachine metaSM meta_saves eq.
Proof.
  intros s [Hs Hl]. exists (PrepareMetaSnapshot s), (MarshalMetaSnapshot (SnapshotMeta s)). split_and!; [done|done|].
  intros t. exists s. split_and!; [|done|done].
  rewrite /metaSM. cbn [ism_Recover NewConcurrentStateMachine ucsm_reads metaMachine machine us_RecoverFromSnapshot].
  by rewrite (recover_saved_meta fileReadAll s t).
Qed.

(** ** A lock shard *)
Section shard.
Context `{Snappy} (foldRune : Z → Z).
Implicit Types (s : StateMachine FSM) (e : Raftpb.Entry) (c : Cmd).

(** An entry of the host's no-op session that carries a command. *)
Definition shardEntry e c : Prop := plainUpdate e ∧ GetPayload e = Some (MarshalCommand (command_of c)) ∧ proposal c.
Definition answerCall e (r : CommandResult) : Call := CallApplyUpdate e (resultOf r) false false false.

Lemma applyEach_shard s es cs s' : lock_state (ns_sm (s_sm s)) → OnDiskStateMachine s = false → Forall2 shardEntry es cs → applyEach lockSM s es = Some s' →
  let f := ns_sm (s_sm s) in
  ns_sm (s_sm s') = run f (Some ∘ command_of <$> (normCmd <$> cs)) ∧
  s_calls s' = s_calls s ++ zip_with answerCall es (answers f (normCmd <$> cs)) ∧
  s_sessions s' = s_sessions s ∧ s_members s' = s_members s.
Proof.
  intros Hf Hd Hes. revert s Hf Hd. induction Hes as [|e c es cs (Hu & Hp & Hc) Hes IH]; intros s Hf Hd; cbn zeta; [intros [= <-]; by rewrite app_nil_r|].
  cbn [applyEach]. rewrite applyOne_run; [by rewrite /entryInInitDiskSM Hd|]. rewrite /smOf Hp. cbn [mbind option_bind].
  destruct (lock_update (ns_sm (s_sm s)) {| sme_Index := e_Index e; sme_Cmd := MarshalCommand (command_of c); sme_Result := noResult |} c Hf eq_refl Hc) as [-> Hf1].
  case_match; [|done]. cbn [mbind option_bind]. intros E. apply IH in E as (H1 & H2 & H3 & H4); [|done|done]. clear IH. cbn zeta.
  rewrite H1 H2 H3 H4. rewrite /onApplied /call /withM. proj_simpl. cbn [answers fmap list_fmap zip_with]. split_and!; [|by rewrite -app_assoc|done|done].
  rewrite /run. cbn [foldl compose]. by rewrite Apply_Some.
Qed.

(** C4: A replica of a lock shard applies the proposed commands, in the order of the log.  However
    the committed entries that carry the commands reach the replica, they are handled without
    a panic or an error; the lock machine is then what the commands make of it one after the
    other, every proposal is answered exactly once with the outcome of its command, and
    sessions and membership are as they were. *)
Theorem shard_applies_log s tasks cs :
  rsm_wf lock_state foldRune s → settled s → OnDiskStateMachine s = false → Forall entryTask tasks →
  log_ok lock_command (s_index s) (s_term s) (entriesOf tasks) → Forall2 shardEntry (entriesOf tasks) cs →
  ∃ s', handle lockSM foldRune s tasks = Some (s', Ok tt) ∧
    ns_sm (s_sm s') = run (ns_sm (s_sm s)) (Some ∘ command_of <$> (normCmd <$> cs)) ∧
    forgetLast <$> s_calls s' = (forgetLast <$> s_calls s) ++ zip_with answerCall (entriesOf tasks) (answers (ns_sm (s_sm s)) (normCmd <$> cs)) ∧
    s_sessions s' = s_sessions s ∧ s_members s' = s_members s ∧ s_index s' = s_index s + Z.of_nat (length cs).
Proof.
  intros Hw Hs Hd Ht Hl Hes. destruct (applyAll_wf lockSM lock_state lock_command foldRune s _ Hw Hs Hl) as (s1 & E1 & _ & _ & Hend).
  pose proof (handle_all lockSM foldRune s tasks Ht (log_ok_consecutive _ _ _ _ Hl)) as Hb. rewrite E1 in Hb.
  destruct (handle lockSM foldRune s tasks) as [[s2 [[]|]]|]; [|done|done]. exists s2. split; [done|]. cbn [okOf both] in Hb. symmetry in Hb.
  destruct (alike_inv _ _ Hb) as (c & -> & Ec). assert (Forall plainUpdate (entriesOf tasks)) as Hpl.
  { clear -Hes. induction Hes as [|e c es cs (Hu & _) Hes IH]; by constructor. }
  pose proof (handleEntries_plain lockSM foldRune s false _ Hpl) as Hd1. revert E1. rewrite /applyAll. apply does_okOf in Hd1.
  destruct (okOf (handleEntries lockSM foldRune s false (entriesOf tasks))) as [s3|]; [|done]. destruct Hd1 as (s4 & E4 & Ha4). cbn [mbind option_bind].
  rewrite setLastApplied_form. destruct (lastOf _ _ _) as [[a b]|]; [|done]. intros [= <-]. destruct (alike_inv _ _ Ha4) as (c4 & -> & Ec4).
  destruct (applyEach_shard s _ cs s4 (rw_machine _ _ _ Hw) Hd Hes E4) as (H1 & H2 & H3 & H4). proj_simpl. cbn in Ec. split_and!; [done| |done|done|].
  - rewrite Ec. proj_simpl. rewrite Ec4 H2 fmap_app. f_equal. clear. generalize (answers (ns_sm (s_sm s)) (normCmd <$> cs)).
    induction (entriesOf tasks) as [|e es IH]; intros [|r rs]; [done..|]. cbn. by rewrite IH.
  - rewrite -(Forall2_length _ _ _ Hes) -(endOf_length lock_command s) // -Hend. done.
Qed.
End shard.

(** ** A replica at work

    A lease, a lock and a leadership with a value, from the no-op session. *)
Definition noSnappy : Snappy := {| snappyEncode := id; snappyDecode := Some |}.
Definition demo_replica : StateMachine FSM := NewStateMachine lockSM (NewNativeSM (New None) false) false false 0.
Definition demo_entry (i : nat) (b : bytes) : Raftpb.Entry :=
  noEntry <| e_Index := Z.of_nat i + 1 |> <| e_Term := 1 |> <| e_ClientID := 7 |> <| e_Cmd := b |>.
Definition demo_log : list Raftpb.Entry := imap (λ i c, demo_entry i (MarshalCommand (command_of c))) demo_cmds.
Definition demo_task (es : list Raftpb.Entry) : Task := emptyTask <| t_Entries := es |>.
Definition demo_tasks : list Task := [demo_task (take 2 demo_log); demo_task (drop 2 demo_log)].

Lemma demo_wf foldRune : rsm_wf lock_state foldRune demo_replica.
Proof.
  constructor; [apply NewSessionManager_wf|apply newMembership_wf|split; [apply wf_New|apply New_stored]|done|done].
Qed.
Lemma demo_proposals : Forall proposal demo_cmds.
Proof. repeat apply Forall_cons_2; [..|apply Forall_nil_2]; (split; [by vm_compute|split; by vm_compute]). Qed.
Lemma demo_shard : Forall2 (@shardEntry noSnappy) (entriesOf demo_tasks) demo_cmds.
Proof.
  pose proof demo_proposals as Hp. change (entriesOf demo_tasks) with demo_log. repeat (apply Forall_cons in Hp as [? Hp]).
  repeat apply Forall2_cons_2; [..|apply Forall2_nil_2]; (split; [split; by vm_compute|split; [reflexivity|done]]).
Qed.
Lemma demo_log_ok : @log_ok noSnappy lock_command 0 0 (entriesOf demo_tasks).
Proof.
  pose proof demo_proposals as Hp. change (entriesOf demo_tasks) with demo_log. repeat (apply Forall_cons in Hp as [? Hp]).
  assert (∀ i c, proposal c → @entry_ok noSnappy lock_command (demo_entry i (MarshalCommand (command_of c)))) as He.
  { intros i c Hc. constructor; [done..|]. intros _. eexists. split; [reflexivity|]. by exists c. }
  split_and!; [by apply He|done|done|done|done|]. split_and!; [by apply He|done|done|done|done|]. by split_and!; [apply He|..].
Qed.

Lemma cuts_agree_witness :
  both (okOf (@handle noSnappy _ _ _ _ _ lockSM id demo_replica demo_tasks)) (okOf (@handle noSnappy _ _ _ _ _ lockSM id demo_replica [demo_task demo_log])).
Proof.
  apply (@cuts_agree noSnappy _ _ _ _ _ lockSM id _ demo_replica); [by repeat constructor|by repeat constructor|by vm_compute|].
  apply (@log_ok_consecutive noSnappy lock_command 0 0 _ demo_log_ok).
Defined.

Lemma replica_well_formed_witness : ∃ s', @handle noSnappy _ _ _ _ _ lockSM id demo_replica demo_tasks = Some (s', Ok tt) ∧
  rsm_wf lock_state id s' ∧ settled s' ∧ s_index s' = 3.
Proof.
  apply (@replica_well_formed noSnappy _ _ _ _ _ lockSM lock_state lock_command _ id _ demo_replica demo_tasks);
    [apply demo_wf|done|by repeat constructor|apply demo_log_ok].
Defined.

Lemma shard_applies_log_witness : ∃ s', @handle noSnappy _ _ _ _ _ lockSM id demo_replica demo_tasks = Some (s', Ok tt) ∧
  ns_sm (s_sm s') = run (New None) (Some ∘ command_of <$> (normCmd <$> demo_cmds)) ∧ length (s_calls s') = 3%nat.
Proof.
  destruct (@shard_applies_log noSnappy id demo_replica demo_tasks demo_cmds (demo_wf id)) as (s' & H1 & H2 & H3 & _);
    [done|done|by repeat constructor|apply demo_log_ok|apply demo_shard|].
  exists s'. split_and!; [done|done|]. apply (f_equal length) in H3. by rewrite length_fmap in H3.
Defined.

(** A client registers, proposes, and proposes the same again. *)
Definition demo_register : Raftpb.Entry := (demo_entry 0 []) <| e_SeriesID := SeriesIDForRegister |>.
Definition demo_command (i : nat) : Raftpb.Entry :=
  (demo_entry i (MarshalCommand (command_of (LeaseGrant "a" 30000 5)))) <| e_SeriesID := 1 |>.
Definition demo_next (s : StateMachine FSM) (e : Raftpb.Entry) : StateMachine FSM :=
  default s (okOf (@handleEntry noSnappy _ _ _ _ _ lockSM id s e true)).
Definition demo_registered : StateMachine FSM := demo_next demo_replica demo_register.
Definition demo_proposed : StateMachine FSM := demo_next demo_registered (demo_command 1).
Definition demo_retried : StateMachine FSM := demo_next demo_proposed (demo_command 2).

Lemma runs_once_witness : ∃ r, @ran noSnappy _ _ _ _ _ lockSM demo_registered (demo_command 1) (s_sm demo_proposed) r ∧
  s_sm demo_retried = s_sm demo_proposed ∧ s_calls demo_retried = s_calls demo_proposed ++ [CallApplyUpdate (demo_command 2) r false false true].
Proof.
  destruct (@runs_once noSnappy _ _ _ _ _ lockSM id demo_registered (demo_command 1) true demo_proposed false [] demo_proposed (demo_command 2) true demo_retried)
    as (r & H1 & _ & H2 & H3 & _).
  - by split; vm_compute.
  - by split; vm_compute.
  - done.
  - done.
  - by vm_compute.
  - by vm_compute.
  - vm_compute. by eexists.
  - vm_compute. reflexivity.
  - split; [|done]. vm_compute. by eexists.
  - done.
  - vm_compute. reflexivity.
  - exists r. assert (confirmed demo_registered (demo_command 1) || bool_decide (is_Some (kept demo_registered (demo_command 1))) = false) as Hf by by vm_compute.
    rewrite Hf in H1. assert (confirmed demo_proposed (demo_command 2) = false) as Hg by by vm_compute. rewrite Hg in H3.
    exact (conj H1 (conj H2 H3)).
Defined.

(** A replica with a member and a client session, and the disk it saves to. *)
Definition demo_saved : StateMachine FSM :=
  demo_replica <| s_index := 9 |> <| s_term := 2 |> <| s_lastIndex := 9 |> <| s_lastTerm := 2 |> <| s_snapshotIndex := 7 |>
    <| s_sessions := demo_cache |> <| s_members ::= λ m, m <| ms_members ::= λ ms, ms <| mb_Addresses := {[1 := "a:1"]} |> |> |>.
Definition noStream : SnappyStream := {| compressStream := id; decompressStream := Some |}.

Lemma demo_savable : savable lock_saves id demo_saved.
Proof.
  constructor; [|done..|by vm_compute|by apply (bool_decide_unpack _); vm_compute].
  constructor; [apply demo_cache_wf| |split; [split; [apply wf_New|apply New_stored]|by vm_compute]|by vm_compute|done].
  constructor; cbn; [apply map_disjoint_empty_r..|by intros i [? ?]|]. intros i j a b. rewrite /everyone. cbn.
  rewrite !map_union_empty. change (mb_Addresses _) with ({[1 := "a:1"]} : gmap Z string). by intros [<- _]%lookup_singleton_Some [<- _]%lookup_singleton_Some.
Qed.

Lemma restart_restores_witness :
  ∃ meta, prepare lockSM 1 demo_saved noSSRequest = Some (demo_saved, Ok meta) ∧
    ∃ s2 d1 ss ds d2 s3, doSave (H0 := noStream) lockSM 1024 demo_snapshotter demo_replica demo_disk meta 5 = Some (s2, d1, Ok ss) ∧
      @commit demo_snapshotter (Consensus.SmError + QueryError) d1 ss noSSRequest = Some (ds, Ok tt) ∧ last ds = Some d2 ∧
      Recover (H0 := noStream) lockSM 1024 demo_snapshotter (λ _, false) demo_replica d2 initialTask = Some (s3, Ok 9) ∧
      s_sessions s3 = demo_cache ∧ GetMembership s3 = GetMembership demo_saved.
Proof.
  edestruct (@restart_restores noStream _ _ _ _ _ lockSM lock_saves FsmStore.same _ id 1024 ltac:(lia) demo_snapshotter 1 (λ _, false) eq_refl eq_refl
    demo_saved noSSRequest NoCompression demo_savable eq_refl eq_refl) as (meta & Hp & Hd).
  - intros m1 x m2 payload rec out. cbn [ism_Prepare lockSM NewConcurrentStateMachine]. intros [= <- <-] [= <- <-] Eo. rewrite length_app.
    assert (match saveLRU demo_cache with Some (_, o) => (length o <? 5000)%nat | None => true end = true) as Ho by (vm_compute; reflexivity).
    rewrite (Eo : saveLRU demo_cache = _) in Ho. apply Nat.ltb_lt in Ho. assert (length (MarshalSnapshot (Fsm.snapshot (New None))) <= 100)%nat by (apply (bool_decide_unpack _); vm_compute; exact Logic.I).
    cbn [compress]. lia.
  - done.
  - exists meta. split; [done|]. destruct (Hd demo_replica demo_disk 5) as (s2 & d1 & ss & ds & d2 & H1 & H2 & H3 & H4); [done|done|by vm_compute| |].
    + intros j. change (records demo_disk) with ({[7 := demo_snap 7]} : gmap Z Raftpb.Snapshot). rewrite lookup_singleton_is_Some. by intros <-.
    + destruct (H4 demo_replica) as (s3 & H5 & _ & _ & _ & _ & H6 & H7 & _); [done..|]. exists s2, d1, ss, ds, d2, s3. by split_and!.
Defined.

(** The demo tasks in the queue, and a snapshot task behind them. *)
Definition demo_queue : TaskQueue := foldl (Add (λ c, 2 * c)) NewTaskQueue (demo_tasks ++ [initialTask]).
Lemma handle_drains_witness : ∃ q s' , queue_wf q ∧ pending q = [] ∧
  @Handle noSnappy _ _ _ _ _ lockSM id (demo_replica <| s_taskQ := demo_queue |>) = Some (s', Ok initialTask).
Proof.
  destruct (@handle_drains noSnappy _ _ _ _ _ lockSM id (demo_replica <| s_taskQ := demo_queue |>) demo_tasks [initialTask]) as (q & Hq & Hp & Hh);
    [by vm_compute|by vm_compute|done|by repeat constructor|done|].
  exists q. rewrite Hh. eexists. split_and!; [done|done|]. vm_compute. reflexivity.
Defined.
