(* ===== verification/Request.v ===== *)
(** * Pending requests

    internal/dragonboat/request.go, queue.go and client/session.go, with the entry
    points of node.go and nodehost.go that use them: the queues between callers and a
    node, the objects a caller waits on, and the tables of proposals, reads,
    configuration changes and snapshot requests in progress.

    A [RequestState] is an object shared by its caller, a table and a pool it goes
    back to; objects are numbered in a heap.  A channel is [None] when it is nil and
    otherwise the values in it, at most one.  Each time an object is taken for a
    request, the request gets a serial number, and the heap keeps the results
    notified to it, for the statements only.  [None] is a panic.

    The goroutine that merges two channels when commits are announced (ResultC) and
    its channel are not modelled; the program does not ask for commits. *)
From stdpp Require Import pretty.
From Stdlib Require Import Ascii.
From S2P Require Import Prelude GoStrings Wire Errors Raftpb RaftLog Raft RaftPeer RsmSession RsmMachine.

Local Open Scope string_scope.
Local Open Scope list_scope.
Local Open Scope Z_scope.

(** ** Queues, queue.go *)
Definition emptyEntry : Entry :=
  {| e_Term := 0; e_Index := 0; e_Type := ApplicationEntry; e_Key := 0; e_ClientID := 0; e_SeriesID := 0; e_RespondedTo := 0;
     e_Cmd := [] |}.

Record entryQueue := mkEntryQueue {
  eq_size : Z;
  eq_left : list Entry;
  eq_right : list Entry;
  eq_leftInWrite : bool;
  eq_stopped : bool;
  eq_paused : bool;
  eq_idx : Z;
  eq_oldIdx : Z;
  eq_cycle : Z;
  eq_lazyFreeCycle : Z
}.
#[export] Instance entryQueue_eta : Eta entryQueue := λ q,
  mkEntryQueue (eq_size q) (eq_left q) (eq_right q) (eq_leftInWrite q) (eq_stopped q) (eq_paused q) (eq_idx q) (eq_oldIdx q)
    (eq_cycle q) (eq_lazyFreeCycle q).

Definition newEntryQueue (size lazyFreeCycle : Z) : entryQueue :=
  mkEntryQueue size (replicate (Z.to_nat size) emptyEntry) (replicate (Z.to_nat size) emptyEntry) false false false 0 0 0 lazyFreeCycle.

Definition closeEntries (q : entryQueue) : entryQueue := q <| eq_stopped := true |>.

Definition targetEntries (q : entryQueue) : list Entry := if eq_leftInWrite q then eq_left q else eq_right q.
Definition writeEntries (q : entryQueue) (l : list Entry) : entryQueue :=
  if eq_leftInWrite q then q <| eq_left := l |> else q <| eq_right := l |>.

(** Whether the entry was added, and whether the queue is stopped. *)
Definition addEntry (q : entryQueue) (ent : Entry) : entryQueue * (bool * bool) :=
  if eq_paused q || (eq_size q <=? eq_idx q) then (q, (false, eq_stopped q))
  else if eq_stopped q then (q, (false, true))
  else ((writeEntries q (<[Z.to_nat (eq_idx q) := ent]> (targetEntries q))) <| eq_idx := u64 (eq_idx q + 1) |>, (true, false)).

Definition clearCmd (e : Entry) : Entry := e <| e_Cmd := [] |>.

Definition gcEntries (q : entryQueue) : entryQueue :=
  if 0 <? eq_lazyFreeCycle q then
    let old := targetEntries q in
    if eq_lazyFreeCycle q =? 1 then
      let n := Z.to_nat (eq_oldIdx q) in writeEntries q ((clearCmd <$> take n old) ++ drop n old)
    else if eq_cycle q mod eq_lazyFreeCycle q =? 0 then writeEntries q (clearCmd <$> old)
    else q
  else q.

(** A slice of a queue: which buffer, and its length. *)
Definition entriesAt (q : entryQueue) (s : bool * Z) : list Entry :=
  take (Z.to_nat s.2) (if s.1 then eq_left q else eq_right q).

Definition getEntries (q : entryQueue) (paused : bool) : entryQueue * (bool * Z) :=
  let q := q <| eq_paused := paused |> <| eq_cycle ::= λ c, u64 (c + 1) |> in
  let sz := eq_idx q in
  let side := eq_leftInWrite q in
  let q := gcEntries (q <| eq_idx := 0 |> <| eq_leftInWrite ::= negb |>) in
  (q <| eq_oldIdx := sz |>, (side, sz)).

(** The queue of reads holds pointers; a nil pointer is [None]. *)
Record readIndexQueue := mkReadQueue {
  rq_size : Z;
  rq_left : list (option nat);
  rq_right : list (option nat);
  rq_leftInWrite : bool;
  rq_stopped : bool;
  rq_idx : Z
}.
#[export] Instance readIndexQueue_eta : Eta readIndexQueue := λ q,
  mkReadQueue (rq_size q) (rq_left q) (rq_right q) (rq_leftInWrite q) (rq_stopped q) (rq_idx q).

Definition newReadIndexQueue (size : Z) : readIndexQueue :=
  mkReadQueue size (replicate (Z.to_nat size) None) (replicate (Z.to_nat size) None) false false 0.

Definition closeReadQueue (q : readIndexQueue) : readIndexQueue := q <| rq_stopped := true |>.

Definition targetReads (q : readIndexQueue) : list (option nat) := if rq_leftInWrite q then rq_left q else rq_right q.

Definition addRead (q : readIndexQueue) (rs : nat) : readIndexQueue * (bool * bool) :=
  if rq_size q <=? rq_idx q then (q, (false, rq_stopped q))
  else if rq_stopped q then (q, (false, true))
  else
    let l := <[Z.to_nat (rq_idx q) := Some rs]> (targetReads q) in
    let q := if rq_leftInWrite q then q <| rq_left := l |> else q <| rq_right := l |> in
    (q <| rq_idx ::= λ i, u64 (i + 1) |>, (true, false)).

Definition getReads (q : readIndexQueue) : readIndexQueue * list (option nat) :=
  (q <| rq_idx := 0 |> <| rq_leftInWrite ::= negb |>, take (Z.to_nat (rq_idx q)) (targetReads q)).

(** ** Client sessions, client/session.go *)
Record ClientSession := mkSession { cs_ClusterID : Z; cs_ClientID : Z; cs_SeriesID : Z; cs_RespondedTo : Z }.
#[export] Instance ClientSession_eta : Eta ClientSession := λ s,
  mkSession (cs_ClusterID s) (cs_ClientID s) (cs_SeriesID s) (cs_RespondedTo s).

(** [NewSession] and [NewNoOPSession] draw numbers until one is not zero. *)
Definition drawID (draws : list Z) : option Z := head (filter (λ c, c ≠ NotSessionManagedClientID) draws).
Definition NewSession (clusterID : Z) (draws : list Z) : option ClientSession :=
  cid ← drawID draws; Some (mkSession clusterID cid (NoOPSeriesID + 1) 0).
Definition NewNoOPSession (clusterID : Z) (draws : list Z) : option ClientSession :=
  cid ← drawID draws; Some (mkSession clusterID cid NoOPSeriesID 0).

Definition IsNoOP (s : ClientSession) : bool := cs_SeriesID s =? NoOPSeriesID.

Definition regularSession (s : ClientSession) : bool :=
  negb ((cs_ClientID s =? NotSessionManagedClientID) || (cs_SeriesID s =? NoOPSeriesID)).

Definition PrepareForRegister (s : ClientSession) : option ClientSession :=
  if regularSession s then Some (s <| cs_SeriesID := SeriesIDForRegister |>) else None.
Definition PrepareForUnregister (s : ClientSession) : option ClientSession :=
  if regularSession s then Some (s <| cs_SeriesID := SeriesIDForUnregister |>) else None.
Definition PrepareForPropose (s : ClientSession) : option ClientSession :=
  if regularSession s then Some (s <| cs_SeriesID := SeriesIDFirstProposal |>) else None.

Definition ProposalCompleted (s : ClientSession) : option ClientSession :=
  if negb (regularSession s) then None
  else if cs_SeriesID s =? u64 (cs_RespondedTo s + 1) then
    Some (s <| cs_RespondedTo := cs_SeriesID s |> <| cs_SeriesID ::= λ i, u64 (i + 1) |>)
  else None.

Definition ValidForProposal (s : ClientSession) (clusterID : Z) : option bool :=
  if (cs_SeriesID s =? NoOPSeriesID) && (cs_ClientID s =? NotSessionManagedClientID) then Some false
  else if negb (cs_ClusterID s =? clusterID) then Some false
  else if cs_ClientID s =? NotSessionManagedClientID then Some false
  else if (cs_SeriesID s =? SeriesIDForRegister) || (cs_SeriesID s =? SeriesIDForUnregister) then Some false
  else if cs_SeriesID s <? cs_RespondedTo s then None
  else Some true.

Definition ValidForSessionOp (s : ClientSession) (clusterID : Z) : bool :=
  if negb (cs_ClusterID s =? clusterID) then false
  else if (cs_ClientID s =? NotSessionManagedClientID) || (cs_SeriesID s =? NoOPSeriesID) then false
  else (cs_SeriesID s =? SeriesIDForRegister) || (cs_SeriesID s =? SeriesIDForUnregister).

(** ** Results and request objects, request.go *)
Definition ErrInvalidOperation : error := Text "invalid operation".
Definition ErrInvalidAddress : error := Text "invalid address".
Definition ErrInvalidSession : error := Text "invalid session".
Definition ErrTimeoutTooSmall : error := Text "specified timeout value is too small".
Definition ErrPayloadTooBig : error := Text "payload is too big".
Definition ErrSystemBusy : error := Text "system is too busy try again later".
Definition ErrClusterClosed : error := Text "raft cluster already closed".
Definition ErrTimeout : error := Text "timeout".
Definition ErrCanceled : error := Text "request canceled".
Definition ErrRejected : error := Text "request rejected".
Definition ErrAborted : error := Text "request aborted".
Definition ErrClusterNotReady : error := Text "request dropped as the cluster is not ready".
Definition ErrInvalidTarget : error := Text "invalid target node ID".
Definition ErrClosed : error := Text "dragonboat: closed".
Definition ErrClusterNotFound : error := Text "cluster not found".
Definition ErrDeadlineNotSet : error := Text "deadline not set".
Definition ErrInvalidDeadline : error := Text "invalid deadline".

Inductive RequestResultCode :=
| requestTimeout | requestCompleted | requestTerminated | requestRejected | requestDropped | requestAborted | requestCommitted.
#[export] Instance RequestResultCode_eq_dec : EqDecision RequestResultCode.
Proof. solve_decision. Defined.

Record RequestResult := { rr_code : RequestResultCode; rr_result : Result; rr_snapshotResult : bool }.
Definition codeOnly (c : RequestResultCode) : RequestResult := {| rr_code := c; rr_result := noResult; rr_snapshotResult := false |}.

Record logicalClock := mkClock { lc_ltick : Z; lc_lastGcTime : Z; lc_gcTick : Z }.
#[export] Instance logicalClock_eta : Eta logicalClock := λ c, mkClock (lc_ltick c) (lc_lastGcTime c) (lc_gcTick c).
Definition defaultGCTick : Z := 2.
Definition newLogicalClock : logicalClock := mkClock 0 0 defaultGCTick.

Record RequestState := mkRequest {
  rs_key : Z;
  rs_clientID : Z;
  rs_seriesID : Z;
  rs_respondedTo : Z;
  rs_deadline : Z;
  rs_readyToRead : bool;
  rs_readyToRelease : bool;
  rs_committedC : option (list RequestResult);
  rs_CompletedC : option (list RequestResult);
  rs_node : bool;
  rs_pool : bool;
  rs_notifyCommit : bool;
  rs_serial : nat
}.
#[export] Instance RequestState_eta : Eta RequestState := λ r,
  mkRequest (rs_key r) (rs_clientID r) (rs_seriesID r) (rs_respondedTo r) (rs_deadline r) (rs_readyToRead r) (rs_readyToRelease r)
    (rs_committedC r) (rs_CompletedC r) (rs_node r) (rs_pool r) (rs_notifyCommit r) (rs_serial r).

Record heap := mkHeap {
  hp_objs : gmap nat RequestState;
  hp_pool : list nat;
  hp_made : nat;
  hp_serial : nat;
  hp_answers : gmap nat (list RequestResult)
}.
#[export] Instance heap_eta : Eta heap := λ h, mkHeap (hp_objs h) (hp_pool h) (hp_made h) (hp_serial h) (hp_answers h).
Definition emptyHeap : heap := mkHeap ∅ [] 0 0 ∅.

(** The results notified to a request. *)
Definition answersOf (h : heap) (serial : nat) : list RequestResult := default [] (hp_answers h !! serial).

(** [RequestState.committed] *)
Definition committedRS (h : heap) (o : nat) : option heap :=
  r ← hp_objs h !! o;
  if negb (rs_notifyCommit r) then None
  else match rs_committedC r with
       | Some [] => Some (h <| hp_objs ::= <[o := r <| rs_committedC := Some [codeOnly requestCommitted] |>]> |>)
       | _ => None
       end.

(** [RequestState.notify].  Sending and setting readyToRelease are two steps in the
    code; a caller that comes in between leaves the object to the garbage
    collector, which is as if it had never released it. *)
Definition notifyRS (h : heap) (o : nat) (result : RequestResult) : option heap :=
  r ← hp_objs h !! o;
  match rs_CompletedC r with
  | Some [] => Some (h <| hp_objs ::= <[o := r <| rs_CompletedC := Some [result] |> <| rs_readyToRelease := true |>]> |>
                       <| hp_answers ::= <[rs_serial r := answersOf h (rs_serial r) ++ [result]]> |>)
  | _ => None
  end.

(** The results of several objects.  A loop over a map visits them in some order;
    since the objects differ, the heap it leaves is the same for each. *)
Fixpoint notifyEach (h : heap) (l : list (nat * RequestResult)) : option heap :=
  match l with
  | [] => Some h
  | (o, r) :: l => h1 ← notifyRS h o r; notifyEach h1 l
  end.

(** [Release], by the caller. *)
Definition ReleaseRS (h : heap) (o : nat) : option heap :=
  r ← hp_objs h !! o;
  if rs_pool r && rs_readyToRelease r then
    Some (h <| hp_objs ::= <[o := mkRequest 0 0 0 0 0 false false (rs_committedC r) (rs_CompletedC r) false true false (rs_serial r)]> |>
            <| hp_pool ::= λ p, p ++ [o] |>)
  else Some h.

(** Receiving from [CompletedC]. *)
Definition receiveRS (h : heap) (o : nat) : option (heap * option RequestResult) :=
  r ← hp_objs h !! o;
  match rs_CompletedC r with
  | Some (v :: l) => Some (h <| hp_objs ::= <[o := r <| rs_CompletedC := Some l |>]> |>, Some v)
  | _ => Some (h, None)
  end.

(** [pool.Get]: an object that was put back, or the one [New] makes. *)
Definition newRS (notifyCommit : bool) : RequestState :=
  mkRequest 0 0 0 0 0 false false (if notifyCommit then Some [] else None) (Some []) false true false 0.
Definition poolGet (h : heap) (pick : nat) (notifyCommit : bool) : option (heap * nat) :=
  let serial := hp_serial h in
  match hp_pool h !! pick with
  | Some o =>
      r ← hp_objs h !! o;
      Some (h <| hp_pool ::= λ p, take pick p ++ drop (S pick) p |> <| hp_serial ::= S |>
              <| hp_objs ::= <[o := r <| rs_serial := serial |>]> |>, o)
  | None =>
      let o := hp_made h in
      Some (h <| hp_objs ::= <[o := (newRS notifyCommit) <| rs_serial := serial |>]> |> <| hp_made ::= S |> <| hp_serial ::= S |>, o)
  end.

(** An object outside the pool, [&RequestState{...}]. *)
Definition allocRS (h : heap) (r : RequestState) : heap * nat :=
  let o := hp_made h in
  (h <| hp_objs ::= <[o := r <| rs_serial := hp_serial h |>]> |> <| hp_made ::= S |> <| hp_serial ::= S |>, o).

Definition reuse (r : RequestState) (notifyCommit : bool) : RequestState :=
  let fresh := λ c : option (list RequestResult), match c with Some [] => c | _ => Some [] end in
  r <| rs_CompletedC ::= fresh |> <| rs_committedC ::= λ c, if notifyCommit then fresh c else None |>.

Definition setRS (h : heap) (o : nat) (f : RequestState → RequestState) : heap := h <| hp_objs ::= alter f o |>.

(** ** Proposals *)
Record proposalShard := mkShard {
  ps_pending : gmap Z nat;
  ps_ct : CompressionType;
  ps_stopped : bool;
  ps_notifyCommit : bool;
  ps_expireNotified : Z;
  ps_clock : logicalClock
}.
#[export] Instance proposalShard_eta : Eta proposalShard := λ p,
  mkShard (ps_pending p) (ps_ct p) (ps_stopped p) (ps_notifyCommit p) (ps_expireNotified p) (ps_clock p).

Definition newPendingProposalShard (ct : CompressionType) (notifyCommit : bool) : proposalShard :=
  mkShard ∅ ct false notifyCommit 0 newLogicalClock.

Definition tickShard (p : proposalShard) (t : Z) : proposalShard := p <| ps_clock ::= λ c, c <| lc_ltick := t |> |>.

Section proposals.
Context `{Snappy}.

(** [propose] up to the insertion into the table: the entry and its object. *)
Definition proposeBegin (h : heap) (p : proposalShard) (session : ClientSession) (cmd : list ascii) (key timeoutTick : Z) (pick : nat) :
    option (result (heap * proposalShard * Entry * nat) error) :=
  if timeoutTick =? 0 then Some (Err ErrTimeoutTooSmall)
  else if MaxBlockLen (ps_ct p) <? Z.of_nat (length cmd) then Some (Err ErrPayloadTooBig)
  else
    '(type, payload) ← (if bool_decide (cmd = []) then Some (ApplicationEntry, [])
                        else b ← GetEncoded (ps_ct p) cmd; Some (EncodedEntry, b));
    let entry := {| e_Term := 0; e_Index := 0; e_Type := type; e_Key := key; e_ClientID := cs_ClientID session;
                    e_SeriesID := cs_SeriesID session; e_RespondedTo := cs_RespondedTo session; e_Cmd := payload |} in
    '(h1, o) ← poolGet h pick (ps_notifyCommit p);
    let h2 := setRS h1 o (λ r, (reuse r (ps_notifyCommit p)) <| rs_clientID := cs_ClientID session |> <| rs_seriesID := cs_SeriesID session |>
                <| rs_key := key |> <| rs_deadline := u64 (lc_ltick (ps_clock p) + timeoutTick) |>
                <| rs_notifyCommit := ps_notifyCommit p |>) in
    Some (Ok (h2, p <| ps_pending ::= <[key := o]> |>, entry, o)).

(** The rest of [propose]: into the queue, or out of the table. *)
Definition proposeEnd (q : entryQueue) (p : proposalShard) (entry : Entry) (o : nat) : entryQueue * proposalShard * result nat error :=
  let '(q1, (added, stopped)) := addEntry q entry in
  if stopped then (q1, p <| ps_pending ::= delete (e_Key entry) |>, Err ErrClusterClosed)
  else if negb added then (q1, p <| ps_pending ::= delete (e_Key entry) |>, Err ErrSystemBusy)
  else (q1, p, Ok o).

Definition proposeShard (h : heap) (q : entryQueue) (p : proposalShard) (session : ClientSession) (cmd : list ascii) (key timeoutTick : Z)
    (pick : nat) : option (heap * entryQueue * proposalShard * result nat error) :=
  r ← proposeBegin h p session cmd key timeoutTick pick;
  match r with
  | Err e => Some (h, q, p, Err e)
  | Ok (h1, p1, entry, o) => let '(q1, p2, res) := proposeEnd q p1 entry o in Some (h1, q1, p2, res)
  end.
End proposals.

Definition closeShard (h : heap) (q : entryQueue) (p : proposalShard) : option (heap * entryQueue * proposalShard) :=
  h1 ← notifyEach h ((λ kv, (kv.2, codeOnly requestTerminated)) <$> map_to_list (ps_pending p));
  Some (h1, closeEntries q, p <| ps_stopped := true |>).

(** [takeProposal], for getProposal with [remove] and for borrowProposal without. *)
Definition takeProposal (h : heap) (p : proposalShard) (clientID seriesID key now : Z) (remove : bool) : proposalShard * option nat :=
  if ps_stopped p then (p, None)
  else match ps_pending p !! key with
       | None => (p, None)
       | Some o =>
           match hp_objs h !! o with
           | None => (p, None)
           | Some r =>
               if (now <=? rs_deadline r) && (rs_clientID r =? clientID) && (rs_seriesID r =? seriesID) then
                 (if remove then p <| ps_pending ::= delete key |> else p, Some o)
               else (p, None)
           end
       end.

Definition lateIn (h : heap) (now : Z) (o : nat) : bool :=
  match hp_objs h !! o with Some r => rs_deadline r <? now | None => false end.

Definition gcAtShard (h : heap) (p : proposalShard) (now : Z) : option (heap * proposalShard) :=
  if ps_stopped p then Some (h, p)
  else if u64 (now - lc_lastGcTime (ps_clock p)) <? lc_gcTick (ps_clock p) then Some (h, p)
  else
    let late := filter (λ kv, lateIn h now kv.2 = true) (ps_pending p) in
    h1 ← notifyEach h ((λ kv, (kv.2, codeOnly requestTimeout)) <$> map_to_list late);
    Some (h1, p <| ps_clock ::= λ c, c <| lc_lastGcTime := now |> |> <| ps_pending ::= λ m, m ∖ late |>).

Definition gcShard (h : heap) (p : proposalShard) : option (heap * proposalShard) := gcAtShard h p (lc_ltick (ps_clock p)).

(** The collection at the end of [applied], once per tick. *)
Definition expireShard (h : heap) (p : proposalShard) (now : Z) : option (heap * proposalShard) :=
  if now =? ps_expireNotified p then Some (h, p)
  else '(h1, p1) ← gcAtShard h p now; Some (h1, p1 <| ps_expireNotified := now |>).

Definition appliedResult (result : Result) (rejected : bool) : RequestResult :=
  {| rr_code := if rejected then requestRejected else requestCompleted; rr_result := result; rr_snapshotResult := false |}.

Definition appliedShard (h : heap) (p : proposalShard) (clientID seriesID key : Z) (result : Result) (rejected : bool) :
    option (heap * proposalShard) :=
  let now := lc_ltick (ps_clock p) in
  let '(p1, o) := takeProposal h p clientID seriesID key now true in
  h1 ← match o with Some o => notifyRS h o (appliedResult result rejected) | None => Some h end;
  expireShard h1 p1 now.

Definition droppedShard (h : heap) (p : proposalShard) (clientID seriesID key : Z) : option (heap * proposalShard) :=
  let '(p1, o) := takeProposal h p clientID seriesID key (lc_ltick (ps_clock p)) true in
  h1 ← match o with Some o => notifyRS h o (codeOnly requestDropped) | None => Some h end;
  Some (h1, p1).

Definition committedShard (h : heap) (p : proposalShard) (clientID seriesID key : Z) : option heap :=
  match (takeProposal h p clientID seriesID key (lc_ltick (ps_clock p)) false).2 with Some o => committedRS h o | None => Some h end.

(** The shard of a key, and the generator a client's keys come from. *)
Definition shardOfKey {A} (shards : list A) (key : Z) : nat := Z.to_nat (key mod Z.of_nat (length shards)).

(** ** Reads *)
Record readBatch := mkBatch { rb_index : Z; rb_requests : list (option nat) }.
Record pendingReadIndex := mkReads {
  pr_batches : gmap SystemCtx readBatch;
  pr_requests : readIndexQueue;
  pr_stopped : bool;
  pr_clock : logicalClock
}.
#[export] Instance pendingReadIndex_eta : Eta pendingReadIndex := λ p,
  mkReads (pr_batches p) (pr_requests p) (pr_stopped p) (pr_clock p).

Definition newPendingReadIndex (requests : readIndexQueue) : pendingReadIndex := mkReads ∅ requests false newLogicalClock.

Definition tickReads (p : pendingReadIndex) (t : Z) : pendingReadIndex := p <| pr_clock ::= λ c, c <| lc_ltick := t |> |>.

(** The objects of the batches. *)
Definition batchRequests (m : gmap SystemCtx readBatch) : list nat := map_to_list m ≫= λ kv, omap id (rb_requests kv.2).

(** The slots of the queue that were handed out are filled, so no [nil] is met. *)
Definition closeReads (h : heap) (p : pendingReadIndex) : option (heap * pendingReadIndex) :=
  let '(q, reqs) := getReads (closeReadQueue (pr_requests p)) in
  h1 ← notifyEach h ((λ o, (o, codeOnly requestTerminated)) <$> omap id reqs ++ batchRequests (pr_batches p));
  Some (h1, p <| pr_stopped := true |> <| pr_requests := q |>).

Definition readRequest (h : heap) (p : pendingReadIndex) (timeoutTick : Z) (pick : nat) (nhNotifyCommit : bool) :
    option (heap * pendingReadIndex * result nat error) :=
  if timeoutTick =? 0 then Some (h, p, Err ErrTimeoutTooSmall)
  else
    '(h1, o) ← poolGet h pick nhNotifyCommit;
    let h2 := setRS h1 o (λ r, (reuse r false) <| rs_notifyCommit := false |> <| rs_deadline := u64 (lc_ltick (pr_clock p) + timeoutTick) |>) in
    let '(q, (ok, closed)) := addRead (pr_requests p) o in
    let p1 := p <| pr_requests := q |> in
    Some (h2, p1, if closed then Err ErrClusterClosed else if ok then Ok o else Err ErrSystemBusy).

(** [genCtx] draws until the number is not zero. *)
Definition genCtx (p : pendingReadIndex) (draws : list Z) : option SystemCtx :=
  low ← head (filter (λ v, v ≠ 0) draws); Some {| sc_Low := low; sc_High := u64 (lc_ltick (pr_clock p) + 30) |}.

Definition addReady (p : pendingReadIndex) (reads : list ReadyToRead) : pendingReadIndex :=
  p <| pr_batches ::= λ m, foldl (λ m v, alter (λ rb, mkBatch (rr_Index v) (rb_requests rb)) (rr_SystemCtx v) m) m reads |>.

Definition addReads (p : pendingReadIndex) (sys : SystemCtx) (reqs : list (option nat)) : option pendingReadIndex :=
  if pr_stopped p then Some p
  else if bool_decide (is_Some (pr_batches p !! sys)) then None
  else Some (p <| pr_batches ::= <[sys := mkBatch 0 reqs]> |>).

Definition droppedReads (h : heap) (p : pendingReadIndex) (system : SystemCtx) : option (heap * pendingReadIndex) :=
  if pr_stopped p then Some (h, p)
  else match pr_batches p !! system with
       | None => Some (h, p)
       | Some rb =>
           h1 ← notifyEach h ((λ o, (o, codeOnly requestDropped)) <$> omap id (rb_requests rb));
           Some (h1, p <| pr_batches ::= delete system |>)
       end.

(** What a read is told when its index is applied, and the mark that it may read. *)
Definition readResult (h : heap) (now : Z) (o : nat) : RequestResult :=
  codeOnly (match hp_objs h !! o with Some r => if now <? rs_deadline r then requestCompleted else requestTimeout | None => requestTimeout end).
Definition markReadable (h : heap) (now : Z) (o : nat) : heap :=
  setRS h o (λ r, if now <? rs_deadline r then r <| rs_readyToRead := true |> else r).

Definition appliedBatch (applied : Z) (rb : readBatch) : bool := (0 <? rb_index rb) && (rb_index rb <=? applied).

Definition dropLate (h : heap) (now : Z) (rb : readBatch) : readBatch :=
  mkBatch (rb_index rb) ((λ r, o ← r; if lateIn h now o then None else Some o) <$> rb_requests rb).

Definition gcReads (h : heap) (p : pendingReadIndex) (now : Z) : option (heap * pendingReadIndex) :=
  h1 ← notifyEach h ((λ o, (o, codeOnly requestTimeout)) <$> filter (λ o, lateIn h now o = true) (batchRequests (pr_batches p)));
  let m := dropLate h now <$> pr_batches p in
  Some (h1, p <| pr_batches := filter (λ kv, negb ((sc_High kv.1 <? now) && bool_decide (omap id (rb_requests kv.2) = [])) = true) m |>).

Definition appliedReads (h : heap) (p : pendingReadIndex) (applied : Z) : option (heap * pendingReadIndex) :=
  if pr_stopped p || bool_decide (pr_batches p = ∅) then Some (h, p)
  else
    let now := lc_ltick (pr_clock p) in
    let ready := filter (λ kv, appliedBatch applied kv.2 = true) (pr_batches p) in
    let reqs := batchRequests ready in
    h1 ← notifyEach (foldl (λ h o, markReadable h now o) h reqs) ((λ o, (o, readResult h now o)) <$> reqs);
    let p1 := p <| pr_batches ::= λ m, m ∖ ready |> in
    if u64 (now - lc_lastGcTime (pr_clock p1)) <? lc_gcTick (pr_clock p1) then Some (h1, p1)
    else gcReads h1 (p1 <| pr_clock ::= λ c, c <| lc_lastGcTime := now |> |>) now.

(** ** Configuration changes and snapshots

    Both tables have one request at a time, sent to the node over a channel that
    holds one; closing the table gives up the channel, and what is in it can still
    be received. *)
Record pendingOne (R : Type) := mkPending {
  po_pending : option nat;
  po_open : bool;
  po_channel : list R;
  po_notifyCommit : bool;
  po_clock : logicalClock
}.
Arguments mkPending {R} _ _ _ _ _.
Arguments po_pending {R} _. Arguments po_open {R} _. Arguments po_channel {R} _. Arguments po_notifyCommit {R} _. Arguments po_clock {R} _.
#[export] Instance pendingOne_eta R : Eta (pendingOne R) := λ p,
  mkPending (po_pending p) (po_open p) (po_channel p) (po_notifyCommit p) (po_clock p).

Section one.
Context {R : Type}.
Implicit Types (p : pendingOne R).

Definition newPendingOne (notifyCommit : bool) : pendingOne R := mkPending None true [] notifyCommit newLogicalClock.

Definition tickOne p (t : Z) : pendingOne R := p <| po_clock ::= λ c, c <| lc_ltick := t |> |>.

(** [close] of both; a closed table has no request. *)
Definition closeOne (h : heap) p : option (heap * pendingOne R) :=
  h1 ← match po_pending p with Some o => notifyRS h o (codeOnly requestTerminated) | None => Some h end;
  Some (h1, p <| po_pending := None |> <| po_open := false |>).

(** [request] of both, with the request that goes to the node. *)
Definition requestOne (h : heap) p (key timeoutTick : Z) (req : R) : heap * pendingOne R * result nat error :=
  if timeoutTick =? 0 then (h, p, Err ErrTimeoutTooSmall)
  else if bool_decide (is_Some (po_pending p)) then (h, p, Err ErrSystemBusy)
  else if negb (po_open p) then (h, p, Err ErrClusterClosed)
  else match po_channel p with
       | _ :: _ => (h, p, Err ErrSystemBusy)
       | [] =>
           let '(h1, o) := allocRS h (mkRequest key 0 0 0 (u64 (lc_ltick (po_clock p) + timeoutTick)) false false
                             (if po_notifyCommit p then Some [] else None) (Some []) false false (po_notifyCommit p) 0) in
           (h1, p <| po_pending := Some o |> <| po_channel := [req] |>, Ok o)
       end.

Definition gcOne (h : heap) p : option (heap * pendingOne R) :=
  match po_pending p with
  | None => Some (h, p)
  | Some o =>
      let now := lc_ltick (po_clock p) in
      if u64 (now - lc_lastGcTime (po_clock p)) <? lc_gcTick (po_clock p) then Some (h, p)
      else
        let p1 := p <| po_clock ::= λ c, c <| lc_lastGcTime := now |> |> in
        if lateIn h now o then h1 ← notifyRS h o (codeOnly requestTimeout); Some (h1, p1 <| po_pending := None |>)
        else Some (h, p1)
  end.

(** The answer to the pending request, when it has this key. *)
Definition answerOne (h : heap) p (key : Z) (v : RequestResult) : option (heap * pendingOne R) :=
  match po_pending p with
  | None => Some (h, p)
  | Some o =>
      r ← hp_objs h !! o;
      if rs_key r =? key then h1 ← notifyRS h o v; Some (h1, p <| po_pending := None |>) else Some (h, p)
  end.

Definition committedOne (h : heap) p (key : Z) : option heap :=
  match po_pending p with
  | None => Some h
  | Some o => r ← hp_objs h !! o; if rs_key r =? key then committedRS h o else Some h
  end.

(** The node receives the request. *)
Definition takeOne p : pendingOne R * option R :=
  match po_channel p with
  | r :: l => (p <| po_channel := l |>, Some r)
  | [] => (p, None)
  end.
End one.

Record configChangeRequest := { cr_data : list ascii; cr_key : Z }.
Record snapshotRequest := { sq_exported : bool; sq_Path : string; sq_Key : Z; sq_OverrideCompaction : bool; sq_CompactionOverhead : Z }.

Definition requestConfigChangeTable (h : heap) (p : pendingOne configChangeRequest) (cc : ConfigChange) (key timeoutTick : Z) :=
  requestOne h p key timeoutTick {| cr_data := MarshalConfigChange cc; cr_key := key |}.
Definition applyConfigChangeTable (h : heap) (p : pendingOne configChangeRequest) (key : Z) (rejected : bool) :=
  answerOne h p key (codeOnly (if rejected then requestRejected else requestCompleted)).
Definition droppedConfigChange (h : heap) (p : pendingOne configChangeRequest) (key : Z) := answerOne h p key (codeOnly requestDropped).

Definition requestSnapshotTable (h : heap) (p : pendingOne snapshotRequest) (exported : bool) (path : string) (override : bool)
    (overhead key timeoutTick : Z) :=
  requestOne h p key timeoutTick
    {| sq_exported := exported; sq_Path := path; sq_Key := key; sq_OverrideCompaction := override; sq_CompactionOverhead := overhead |}.
Definition applySnapshotTable (h : heap) (p : pendingOne snapshotRequest) (key : Z) (ignored aborted : bool) (index : Z) :
    option (heap * pendingOne snapshotRequest) :=
  if ignored && aborted then None
  else answerOne h p key
    {| rr_code := if ignored then requestRejected else if aborted then requestAborted else requestCompleted;
       rr_result := if ignored || aborted then noResult else {| res_Value := index; res_Data := None |};
       rr_snapshotResult := true |}.

(** Leadership transfers: a channel that holds one target. *)
Definition requestTransferTo (c : list Z) (target : Z) : list Z * option error :=
  if target =? NoNode then (c, Some ErrInvalidTarget)
  else match c with [] => ([target], None) | _ => (c, Some ErrSystemBusy) end.
Definition takeTransfer (c : list Z) : list Z * option Z := match c with t :: c => (c, Some t) | [] => ([], None) end.

(** ** The entry points of a node, node.go *)
Record requests := mkRequests {
  rt_heap : heap;
  rt_queue : entryQueue;
  rt_shards : list proposalShard;
  rt_reads : pendingReadIndex;
  rt_conf : pendingOne configChangeRequest;
  rt_snap : pendingOne snapshotRequest;
  rt_transfer : list Z
}.
#[export] Instance requests_eta : Eta requests := λ t,
  mkRequests (rt_heap t) (rt_queue t) (rt_shards t) (rt_reads t) (rt_conf t) (rt_snap t) (rt_transfer t).

Definition pendingProposalShards : nat := 16.
Definition lazyFreeCycle : Z := 1.
Definition incomingProposalsMaxLen : Z := 2048.
Definition incomingReadIndexMaxLen : Z := 4096.

(** The tables [newNode] makes, over a pool it is given. *)
Definition newRequests (h : heap) (ct : CompressionType) (notifyCommit : bool) : requests :=
  mkRequests h (newEntryQueue incomingProposalsMaxLen lazyFreeCycle) (replicate pendingProposalShards (newPendingProposalShard ct notifyCommit))
    (newPendingReadIndex (newReadIndexQueue incomingReadIndexMaxLen)) (newPendingOne notifyCommit) (newPendingOne false) [].

Record nodeSettings := {
  nd_clusterID : Z;
  nd_initialized : bool;
  nd_IsWitness : bool;
  nd_MaxInMemLogSize : Z;
  nd_validateTarget : string → bool;
  nd_notifyCommit : bool
}.

Definition EntryNonCmdFieldsSize : Z := 16 * 8.
Definition payloadTooBig (n : nodeSettings) (sz : Z) : bool :=
  if nd_MaxInMemLogSize n =? 0 then false else nd_MaxInMemLogSize n <? u64 (sz + EntryNonCmdFieldsSize).

(** The check every request starts with. *)
Definition usable (n : nodeSettings) : option error :=
  if negb (nd_initialized n) then Some ErrClusterNotReady else if nd_IsWitness n then Some ErrInvalidOperation else None.

Section node.
Context `{Snappy} (n : nodeSettings).

(** [pendingProposal.propose]; the key is drawn by the caller. *)
Definition proposeTable (t : requests) (session : ClientSession) (cmd : list ascii) (key timeoutTick : Z) (pick : nat) :
    option (requests * result nat error) :=
  let i := shardOfKey (rt_shards t) key in
  p ← rt_shards t !! i;
  '(h, q, p1, r) ← proposeShard (rt_heap t) (rt_queue t) p session cmd key timeoutTick pick;
  Some (t <| rt_heap := h |> <| rt_queue := q |> <| rt_shards ::= <[i := p1]> |>, r).

Definition proposeNode (t : requests) (session : ClientSession) (cmd : list ascii) (key timeoutTick : Z) (pick : nat) :
    option (requests * result nat error) :=
  match usable n with
  | Some e => Some (t, Err e)
  | None =>
      valid ← ValidForProposal session (nd_clusterID n);
      if negb valid then Some (t, Err ErrInvalidSession)
      else if payloadTooBig n (Z.of_nat (length cmd)) then Some (t, Err ErrPayloadTooBig)
      else proposeTable t session cmd key timeoutTick pick
  end.

Definition proposeSession (t : requests) (session : ClientSession) (key timeoutTick : Z) (pick : nat) : option (requests * result nat error) :=
  match usable n with
  | Some e => Some (t, Err e)
  | None =>
      if negb (ValidForSessionOp session (nd_clusterID n)) then Some (t, Err ErrInvalidSession)
      else proposeTable t session [] key timeoutTick pick
  end.

Definition readNode (t : requests) (timeoutTick : Z) (pick : nat) : option (requests * result nat error) :=
  match usable n with
  | Some e => Some (t, Err e)
  | None =>
      '(h, p, r) ← readRequest (rt_heap t) (rt_reads t) timeoutTick pick (nd_notifyCommit n);
      let h1 := match r with Ok o => setRS h o (λ s, s <| rs_node := true |>) | Err _ => h end in
      Some (t <| rt_heap := h1 |> <| rt_reads := p |>, r)
  end.

Definition requestLeaderTransfer (t : requests) (nodeID : Z) : requests * option error :=
  match usable n with
  | Some e => (t, Some e)
  | None => let '(c, e) := requestTransferTo (rt_transfer t) nodeID in (t <| rt_transfer := c |>, e)
  end.

Definition requestConfigChange (t : requests) (cct : ConfigChangeType) (nodeID : Z) (target : string) (orderID key timeoutTick : Z) :
    requests * result nat error :=
  match usable n with
  | Some e => (t, Err e)
  | None =>
      if negb (bool_decide (cct = RemoveNode)) && negb (nd_validateTarget n target) then (t, Err ErrInvalidAddress)
      else
        let cc := {| cc_ConfigChangeId := orderID; cc_Type := ccTypeNumber cct; cc_NodeID := nodeID; cc_Address := target;
                     cc_Initialize := false |} in
        let '(h, p, r) := requestConfigChangeTable (rt_heap t) (rt_conf t) cc key timeoutTick in
        (t <| rt_heap := h |> <| rt_conf := p |>, r)
  end.
End node.

(** [node.tick] for the tables. *)
Definition tickTables (t : requests) (tick : Z) : requests :=
  t <| rt_snap ::= λ p, tickOne p tick |> <| rt_shards ::= fmap (λ p, tickShard p tick) |> <| rt_reads ::= λ p, tickReads p tick |>
    <| rt_conf ::= λ p, tickOne p tick |>.

(** ** The calls of a node host, nodehost.go *)

(** [getTimeoutTick]: whole milliseconds, in ticks. *)
Definition getTimeoutTick (rttMillisecond timeout : Z) : Z := u64 (Z.quot timeout 1000000) / rttMillisecond.

(** [getTimeoutFromContext], from the time and the deadline. *)
Definition getTimeoutFromContext (now : Z) (deadline : option Z) : result Z error :=
  match deadline with
  | None => Err ErrDeadlineNotSet
  | Some d => if d <? now then Err ErrInvalidDeadline else Ok (d - now)
  end.

(** [getRequestState]: what the caller is told for a result, and when its context
    ends first. *)
Definition requestOutcome (r : RequestResult) : option (result Result error) :=
  match rr_code r with
  | requestCompleted => Some (Ok (rr_result r))
  | requestRejected => Some (Err ErrRejected)
  | requestTimeout => Some (Err ErrTimeout)
  | requestTerminated => Some (Err ErrClusterClosed)
  | requestDropped => Some (Err ErrClusterNotReady)
  | requestAborted => Some (Err ErrAborted)
  | requestCommitted => None
  end.
Definition contextOutcome (canceled : bool) : error := if canceled then ErrCanceled else ErrTimeout.
