(* ===== verification/RequestHeap.v ===== *)
(** * Request objects and the tables that hold them

    What the operations of Request do to the heap of request objects: which objects
    wait for a result, that notifying one works and gives its request exactly one
    result, and what each table answers and keeps. *)
From stdpp Require Import pretty.
From Stdlib Require Import Ascii.
From S2P Require Import Prelude GoStrings Wire Errors Raftpb RaftLog Raft RaftPeer RsmSession RsmMachine Request.

Local Open Scope string_scope.
Local Open Scope list_scope.
Local Open Scope Z_scope.

(** ** The heap

    [hinv h L]: the objects [L] wait for a result, each once, and nobody else has
    notified them; objects in the pool are not among them; a request has at most one
    result. *)
Record hinv (h : heap) (L : list nat) : Prop := {
  hi_waiting : NoDup L;
  hi_objs o : o ∈ L → ∃ r, hp_objs h !! o = Some r ∧ rs_CompletedC r = Some [] ∧ rs_readyToRelease r = false ∧ answersOf h (rs_serial r) = [];
  hi_pool : NoDup (hp_pool h);
  hi_pooled o : o ∈ hp_pool h → o ∉ L ∧ ∃ r, hp_objs h !! o = Some r ∧ rs_readyToRelease r = false;
  hi_made o r : hp_objs h !! o = Some r → (o < hp_made h)%nat ∧ (rs_serial r < hp_serial h)%nat;
  hi_serial o1 o2 r1 r2 : hp_objs h !! o1 = Some r1 → hp_objs h !! o2 = Some r2 → rs_serial r1 = rs_serial r2 → o1 = o2;
  hi_once s : (length (answersOf h s) ≤ 1)%nat;
  hi_fresh s : (hp_serial h ≤ s)%nat → answersOf h s = [];
  hi_ready o r : hp_objs h !! o = Some r → rs_readyToRelease r = true → length (answersOf h (rs_serial r)) = 1%nat
}.

(** What later operations leave of an object that is not in the pool. *)
Definition keeps (h h' : heap) : Prop :=
  (hp_serial h ≤ hp_serial h')%nat ∧
  ∀ o r, hp_objs h !! o = Some r → o ∉ hp_pool h →
    o ∉ hp_pool h' ∧ ∃ r', hp_objs h' !! o = Some r' ∧ rs_serial r' = rs_serial r ∧ rs_key r' = rs_key r ∧
      rs_clientID r' = rs_clientID r ∧ rs_seriesID r' = rs_seriesID r ∧ rs_deadline r' = rs_deadline r.

#[export] Instance keeps_preorder : PreOrder keeps.
Proof.
  split; [split; [done|]; intros o r Ho Hp; split; [done|]; by exists r|]. intros h1 h2 h3 [H1 K1] [H2 K2]. split; [lia|].
  intros o r Ho Hp. destruct (K1 o r Ho Hp) as (Hp2 & r2 & Ho2 & E). destruct (K2 o r2 Ho2 Hp2) as (Hp3 & r3 & Ho3 & E').
  split; [done|]. exists r3. naive_solver congruence.
Qed.

#[export] Instance hinv_perm h : Proper ((≡ₚ) ==> iff) (hinv h).
Proof.
  assert (∀ L L', L ≡ₚ L' → hinv h L → hinv h L') as Hgo; [|intros L L' E; split; by apply Hgo].
  intros L L' E [H1 H2 H3 H4 H5 H6 H7 H8 H9]. split; try done; setoid_rewrite <- E; done.
Qed.

Lemma hinv_drop h L L' : hinv h (L ++ L') → hinv h L'.
Proof.
  intros [H1 H2 H3 H4 H5 H6 H7 H8 H9]. split; try done.
  - by apply NoDup_app in H1 as (_ & _ & ?).
  - intros o Ho. apply H2. set_solver.
  - intros o Ho. destruct (H4 o Ho). set_solver.
Qed.

Lemma answers_insert h s l s' f : answersOf (h <| hp_objs ::= f |> <| hp_answers ::= <[s := l]> |>) s' = if decide (s = s') then l else answersOf h s'.
Proof. rewrite /answersOf. proj_simpl. rewrite lookup_insert. by case_decide. Qed.

(** Notifying a waiting object works and gives its request its one result. *)
Lemma notify_waiting h o r L :
  hinv h (o :: L) →
  ∃ h' st, notifyRS h o r = Some h' ∧ hinv h' L ∧ keeps h h' ∧ hp_pool h' = hp_pool h ∧ hp_objs h !! o = Some st ∧
    ∀ s, answersOf h' s = if decide (s = rs_serial st) then [r] else answersOf h s.
Proof.
  intros [H1 H2 H3 H4 H5 H6 H7 H8 H9]. apply NoDup_cons in H1 as [Hn H1]. destruct (H2 o) as (st & Ho & Hc & Hr & Ha); [by left|].
  rewrite /notifyRS Ho /= Hc. eexists _, st. split; [done|]. rewrite Ha app_nil_l.
  assert (∀ s, answersOf (h <| hp_objs ::= <[o := st <| rs_CompletedC := Some [r] |> <| rs_readyToRelease := true |>]> |>
     <| hp_answers ::= <[rs_serial st := [r]]> |>) s = if decide (s = rs_serial st) then [r] else answersOf h s) as Hans.
  { intros s. rewrite answers_insert. by do 2 case_decide; subst. }
  split_and!; [|split; [done|]|done|done|done].
  - split; try done; proj_simpl.
    + intros o' Ho'. destruct (H2 o') as (st' & ? & ? & ? & ?); [by right|]. exists st'. rewrite lookup_insert_ne; [congruence|].
      split_and!; [done..|]. rewrite Hans. case_decide as E; [|done]. exfalso. assert (o' = o) by eauto. by subst.
    + intros o' Ho'. destruct (H4 o' Ho') as (Hno & r' & Hr' & ?). split; [set_solver|]. exists r'. rewrite lookup_insert_ne; [|done].
      intros ->. apply Hno. by left.
    + intros o' r'. rewrite lookup_insert. case_decide as E; [|eauto]. intros [= <-]. proj_simpl. subst. eauto.
    + intros o1 o2 r1 r2. rewrite !lookup_insert. do 2 case_decide; subst; [done|..]; intros E1 E2.
      * injection E1 as <-. proj_simpl. intros. by eapply H6.
      * injection E2 as <-. proj_simpl. intros. by eapply H6.
      * by eapply H6.
    + intros s. rewrite Hans. case_decide; [done|eauto].
    + intros s Hs. rewrite Hans. case_decide as E; [|by apply H8]. subst. apply H5 in Ho. lia.
    + intros o' r'. rewrite lookup_insert. case_decide as E.
      * intros [= <-]. proj_simpl. intros _. rewrite Hans. by case_decide.
      * intros Ho' Hr'. rewrite Hans. case_decide as E'; [done|]. by eapply H9.
  - intros o' r' Ho' Hp. split; [done|]. proj_simpl. rewrite lookup_insert. case_decide as E; [|by exists r'].
    subst. rewrite Ho in Ho'. injection Ho' as ->. eexists. split; [done|]. by proj_simpl.
Qed.

(** The results [N] have been given, and nothing else. *)
Record told (h : heap) (N : list (nat * RequestResult)) (h' : heap) : Prop := {
  tl_given o r st : (o, r) ∈ N → hp_objs h !! o = Some st → answersOf h' (rs_serial st) = [r];
  tl_only s : answersOf h' s = answersOf h s ∨ ∃ o r st, (o, r) ∈ N ∧ hp_objs h !! o = Some st ∧ rs_serial st = s ∧ answersOf h' s = [r]
}.

Lemma told_nil h : told h [] h.
Proof. split; [by intros ??? ?%elem_of_nil|by left]. Qed.

Lemma notify_all h N L :
  hinv h (N.*1 ++ L) →
  ∃ h', notifyEach h N = Some h' ∧ hinv h' L ∧ keeps h h' ∧ hp_pool h' = hp_pool h ∧ told h N h'.
Proof.
  revert h. induction N as [|[o r] N IH]; intros h Hh; cbn [notifyEach fmap list_fmap app fst] in *.
  { exists h. split_and!; [done..|apply told_nil]. }
  destruct (notify_waiting _ _ r _ Hh) as (h1 & st & -> & Hh1 & K1 & P1 & Ho & A1). cbn.
  assert (∀ o' st', (o' ∈ N.*1) → hp_objs h !! o' = Some st' → ∃ st1, hp_objs h1 !! o' = Some st1 ∧ rs_serial st1 = rs_serial st' ∧ rs_serial st' ≠ rs_serial st) as Hkeep.
  { intros o' st' Hin Ho'. destruct K1 as [_ K1]. destruct (K1 o' st' Ho') as (_ & st1 & ? & ? & _).
    - intros Hp. destruct (hi_pooled _ _ Hh o' Hp) as [Hno _]. set_solver.
    - exists st1. split_and!; [done..|]. intros E. assert (o' = o) as -> by by eapply (hi_serial _ _ Hh).
      pose proof (hi_waiting _ _ Hh) as [Hno _]%NoDup_cons. set_solver. }
  destruct (IH h1 Hh1) as (h' & -> & Hh' & K2 & P2 & [T1 T2]). exists h'.
  split_and!; [done|done|by etransitivity|by rewrite P2|]. split.
  - intros o' r' st' [[= -> ->]|Hin]%elem_of_cons Ho'.
    + rewrite Ho in Ho'. injection Ho' as <-. destruct (T2 (rs_serial st)) as [->|(o2 & r2 & st2 & Hin & Ho2 & Es & _)].
      * rewrite A1. by case_decide.
      * exfalso. assert (o2 ∈ N.*1) as Hin1 by (apply list_elem_of_fmap; by exists (o2, r2)).
        assert (is_Some (hp_objs h !! o2)) as [st0 Ho0]. { destruct (hi_objs _ _ Hh o2) as (st0 & ? & _); [set_solver|by exists st0]. }
        destruct (Hkeep o2 st0 Hin1 Ho0) as (st1 & Hs1 & ? & ?). congruence.
    + assert (o' ∈ N.*1) as Hin1 by (apply list_elem_of_fmap; by exists (o', r')).
      destruct (Hkeep o' st' Hin1 Ho') as (st1 & Hs1 & <- & _). by apply (T1 o' r').
  - intros s. destruct (T2 s) as [->|(o2 & r2 & st2 & Hin & Ho2 & Es & Ea)].
    + rewrite A1. case_decide as E; [right; exists o, r, st; subst; by split_and!; [left|..]|by left].
    + right. assert (o2 ∈ N.*1) as Hin1 by (apply list_elem_of_fmap; by exists (o2, r2)).
      assert (is_Some (hp_objs h !! o2)) as [st0 Ho0]. { destruct (hi_objs _ _ Hh o2) as (st0 & ? & _); [set_solver|by exists st0]. }
      destruct (Hkeep o2 st0 Hin1 Ho0) as (st1 & Hs1 & Eq & _). exists o2, r2, st0. split_and!; [by right|done|congruence|done].
Qed.

(** Taking an object for a new request. *)
Section objects.
Context (upto : RequestState → RequestState).
Context (Hf : ∀ r, rs_serial (upto r) = rs_serial r ∧ rs_CompletedC (upto r) = Some [] ∧ rs_readyToRelease (upto r) = rs_readyToRelease r).

(** What is known of a heap with a new request's object. *)
Record newObject (h : heap) (L : list nat) (h2 : heap) (o : nat) : Prop := {
  no_inv : hinv h2 (o :: L);
  no_keeps : keeps h h2;
  no_answers s : answersOf h2 s = answersOf h s;
  no_pool : o ∉ hp_pool h2;
  no_new : is_Some (hp_objs h !! o) → o ∈ hp_pool h;
  no_object : ∃ r, hp_objs h2 !! o = Some (upto r) ∧ rs_serial (upto r) = hp_serial h
}.

(** A heap in which [o] has become an object of a new request. *)
Lemma new_object h L h2 o r pool :
  hinv h L → rs_serial r = hp_serial h → rs_readyToRelease r = false → o ∉ L → o ∉ pool → NoDup pool → pool ⊆ hp_pool h →
  hp_pool h2 = pool → hp_objs h2 = <[o := upto r]> (hp_objs h) → hp_answers h2 = hp_answers h → hp_serial h2 = S (hp_serial h) →
  (hp_made h ≤ hp_made h2)%nat → (o < hp_made h2)%nat → (is_Some (hp_objs h !! o) → o ∈ hp_pool h) → newObject h L h2 o.
Proof.
  intros [H1 H2 H3 H4 H5 H6 H7 H8 H9] Hs Hr Ho Hop Hnd Hsub Hpool Hobjs Hans Hser Hmade Hlt Hold.
  destruct (Hf r) as (F1 & F2 & F3).
  assert (∀ s, answersOf h2 s = answersOf h s) as Ha by (intros s; by rewrite /answersOf Hans).
  split; [split|split|..]; rewrite ?Hobjs ?Hpool; [| |done|..]; try done.
  - by constructor.
  - intros o' [->|Ho']%elem_of_cons.
    + exists (upto r). rewrite lookup_insert_eq. split_and!; [done|done|by rewrite F3|]. rewrite Ha F1 Hs. by apply H8.
    + destruct (H2 o' Ho') as (r' & ? & ? & ? & ?). exists r'. rewrite lookup_insert_ne; [by intros ->|]. by rewrite Ha.
  - intros o' Ho'. assert (o' ≠ o) by by intros ->. destruct (H4 o' (Hsub _ Ho')) as (? & r' & ? & ?). split; [set_solver|].
    exists r'. by rewrite lookup_insert_ne.
  - intros o' r'. rewrite lookup_insert. case_decide as E.
    + intros [= <-]. subst. split; [done|]. lia.
    + intros [? ?]%H5. lia.
  - intros o1 o2 r1 r2. rewrite !lookup_insert.
    assert (∀ o' r', hp_objs h !! o' = Some r' → rs_serial r' ≠ rs_serial (upto r)) as Hne by (intros o' r' [_ ?]%H5; lia).
    do 2 case_decide; subst; [done|..]; intros E1 E2 Es.
    + injection E1 as <-. by apply Hne in E2.
    + injection E2 as <-. by apply Hne in E1.
    + by eapply H6.
  - intros s. rewrite Ha. apply H7.
  - intros s ?. rewrite Ha. apply H8. lia.
  - intros o' r'. rewrite lookup_insert. case_decide as E.
    + intros [= <-]. rewrite F3 Hr. done.
    + rewrite Ha. apply H9.
  - lia.
  - intros o' r' Ho' Hp. split; [set_solver|]. exists r'. rewrite lookup_insert_ne; [|done]. intros ->. apply Hp, Hold. by exists r'.
  - exists r. rewrite lookup_insert_eq. split; [done|]. by rewrite F1.
Qed.

Lemma get_object h L pick nc h1 o :
  hinv h L → poolGet h pick nc = Some (h1, o) → newObject h L (setRS h1 o upto) o.
Proof.
  intros Hh. pose proof Hh as [H1 H2 H3 H4 H5 H6 H7 H8 H9]. rewrite /poolGet. destruct (hp_pool h !! pick) as [o'|] eqn:Hp.
  - assert (o' ∈ hp_pool h) as Hin by (by eapply list_elem_of_lookup_2). destruct (H4 o' Hin) as (Hno & r & Ho & Hr). rewrite Ho /=.
    intros [= <- <-]. apply (new_object h L _ o' (r <| rs_serial := hp_serial h |>) (take pick (hp_pool h) ++ drop (S pick) (hp_pool h))); try done.
    + assert (hp_pool h ≡ₚ o' :: take pick (hp_pool h) ++ drop (S pick) (hp_pool h)) as E.
      { rewrite -{1}(take_drop_middle _ _ _ Hp). by rewrite -Permutation_middle. }
      pose proof H3 as H3'. rewrite E in H3'. by apply NoDup_cons in H3' as [? _].
    + assert (hp_pool h ≡ₚ o' :: take pick (hp_pool h) ++ drop (S pick) (hp_pool h)) as E.
      { rewrite -{1}(take_drop_middle _ _ _ Hp). by rewrite -Permutation_middle. }
      pose proof H3 as H3'. rewrite E in H3'. by apply NoDup_cons in H3' as [_ ?].
    + rewrite -{3}(take_drop_middle _ _ _ Hp). set_solver.
    + rewrite /setRS. proj_simpl. by rewrite alter_insert_eq.
    + apply (H5 o' r Ho).
  - intros [= <- <-]. assert (hp_objs h !! hp_made h = None) as Hfresh by (apply eq_None_not_Some; intros [r ?%H5]; lia).
    apply (new_object h L _ (hp_made h) ((newRS nc) <| rs_serial := hp_serial h |>) (hp_pool h)); try done.
    + intros (r & ? & _)%H2. congruence.
    + intros (_ & r & ? & _)%H4. congruence.
    + rewrite /setRS. proj_simpl. by rewrite alter_insert_eq.
    + rewrite /setRS. proj_simpl. lia.
    + rewrite /setRS. proj_simpl. lia.
    + rewrite Hfresh. by intros [? ?].
Qed.
End objects.

Lemma alloc_object h L r :
  hinv h L → rs_CompletedC r = Some [] → rs_readyToRelease r = false →
  newObject (λ r, r <| rs_CompletedC := Some [] |>) h L (allocRS h r).1 (allocRS h r).2.
Proof.
  intros Hh Hc Hr. pose proof Hh as [H1 H2 H3 H4 H5 H6 H7 H8 H9].
  assert (hp_objs h !! hp_made h = None) as Hfresh by (apply eq_None_not_Some; intros [r' ?%H5]; lia).
  apply (new_object (λ r, r <| rs_CompletedC := Some [] |>) ltac:(done) h L _ (hp_made h) (r <| rs_serial := hp_serial h |>) (hp_pool h)); try done.
  - intros (r' & ? & _)%H2. congruence.
  - intros (_ & r' & ? & _)%H4. congruence.
  - rewrite /allocRS. cbn [fst]. proj_simpl. f_equal. destruct r. cbn in Hc. by subst.
  - rewrite /allocRS. cbn [fst]. proj_simpl. lia.
  - rewrite /allocRS. cbn [fst]. proj_simpl. lia.
  - rewrite Hfresh. by intros [? ?].
Qed.

(** Changes of an object that have nothing to do with its result. *)
Lemma set_object (upto : RequestState → RequestState) h L o :
  (∀ r, rs_serial (upto r) = rs_serial r ∧ rs_CompletedC (upto r) = rs_CompletedC r ∧ rs_readyToRelease (upto r) = rs_readyToRelease r ∧
     rs_key (upto r) = rs_key r ∧ rs_clientID (upto r) = rs_clientID r ∧ rs_seriesID (upto r) = rs_seriesID r ∧ rs_deadline (upto r) = rs_deadline r) →
  hinv h L → hinv (setRS h o upto) L ∧ keeps h (setRS h o upto).
Proof.
  intros Hf [H1 H2 H3 H4 H5 H6 H7 H8 H9].
  assert (∀ o' r', hp_objs (setRS h o upto) !! o' = Some r' ↔ ∃ r, hp_objs h !! o' = Some r ∧ r' = if decide (o = o') then upto r else r) as Hl.
  { intros o' r'. rewrite /setRS. proj_simpl. destruct (decide (o = o')) as [->|].
    - rewrite lookup_alter_eq fmap_Some. done.
    - rewrite lookup_alter_ne //. naive_solver. }
  assert (∀ o' r, rs_serial (if decide (o = o') then upto r else r) = rs_serial r ∧
    rs_readyToRelease (if decide (o = o') then upto r else r) = rs_readyToRelease r) as Hs.
  { intros o' r. destruct (Hf r) as (? & ? & ? & _). by case_decide. }
  split.
  - split; try done.
    + intros o' Ho'. destruct (H2 o' Ho') as (r & Hr & ? & ? & ?). destruct (Hf r) as (F1 & F2 & F3 & _). eexists. rewrite Hl.
      split; [by exists r|]. case_decide; rewrite ?F1 ?F2 ?F3; done.
    + intros o' Ho'. destruct (H4 o' Ho') as (? & r & Hr & ?). split; [done|]. eexists. rewrite Hl. split; [by exists r|]. by rewrite (proj2 (Hs o' r)).
    + intros o' r' (r & Hr & ->)%Hl. rewrite (proj1 (Hs o' r)). by apply H5.
    + intros o1 o2 r1' r2' (r1 & Hr1 & ->)%Hl (r2 & Hr2 & ->)%Hl. rewrite (proj1 (Hs o1 r1)) (proj1 (Hs o2 r2)). by eapply H6.
    + intros o' r' (r & Hr & ->)%Hl. rewrite (proj1 (Hs o' r)) (proj2 (Hs o' r)). by apply (H9 o').
  - split; [done|]. intros o' r Hr Hp. split; [done|]. eexists. rewrite Hl. split; [by exists r|].
    destruct (Hf r) as (? & _ & _ & ? & ? & ? & ?). by case_decide.
Qed.

Lemma receive_object h L o r :
  hinv h L → hp_objs h !! o = Some r →
  ∃ h1 v, receiveRS h o = Some (h1, v) ∧ hinv h1 L ∧ keeps h h1 ∧ hp_pool h1 = hp_pool h ∧ ∀ s, answersOf h1 s = answersOf h s.
Proof.
  intros Hh Ho. pose proof Hh as [H1 H2 H3 H4 H5 H6 H7 H8 H9]. rewrite /receiveRS Ho /=.
  destruct (rs_CompletedC r) as [[|v l]|] eqn:Hc; [by exists h, None| |by exists h, None].
  eexists _, (Some v). split; [done|].
  assert (∀ o' r', <[o := r <| rs_CompletedC := Some l |>]> (hp_objs h) !! o' = Some r' →
    ∃ r0, hp_objs h !! o' = Some r0 ∧ rs_serial r' = rs_serial r0 ∧ rs_readyToRelease r' = rs_readyToRelease r0) as Hback.
  { intros o' r'. rewrite lookup_insert. case_decide; [intros [= <-]; subst; by exists r|]. intros ?. by exists r'. }
  split_and!; [split|split|done|done]; try done; proj_simpl.
  - intros o' Ho'. destruct (H2 o' Ho') as (r' & ? & ? & ? & ?). exists r'. rewrite lookup_insert_ne; [|done]. intros <-. congruence.
  - intros o' Ho'. destruct (H4 o' Ho') as (? & r' & ? & ?). split; [done|]. destruct (decide (o = o')) as [<-|].
    + rewrite lookup_insert_eq. eexists. split; [done|]. proj_simpl. congruence.
    + exists r'. by rewrite lookup_insert_ne.
  - intros o' r' (r0 & ? & -> & _)%Hback. by apply H5.
  - intros o1 o2 r1 r2 (r1' & ? & -> & _)%Hback (r2' & ? & -> & _)%Hback. by eapply H6.
  - intros o' r' (r0 & ? & -> & ->)%Hback. by apply (H9 o').
  - intros o' r' Ho' Hp. split; [done|]. rewrite lookup_insert. case_decide; [|by exists r']. subst. rewrite Ho in Ho'. injection Ho' as <-.
    eexists. split; [done|]. by proj_simpl.
Qed.

Lemma release_object h L o r :
  hinv h L → hp_objs h !! o = Some r → o ∉ hp_pool h →
  ∃ h1, ReleaseRS h o = Some h1 ∧ hinv h1 L ∧ hp_serial h1 = hp_serial h ∧ (∀ s, answersOf h1 s = answersOf h s) ∧
    (∀ o', o' ≠ o → hp_objs h1 !! o' = hp_objs h !! o' ∧ (o' ∈ hp_pool h1 ↔ o' ∈ hp_pool h)) ∧
    ∃ r1, hp_objs h1 !! o = Some r1 ∧ rs_serial r1 = rs_serial r ∧ (o ∈ L → r1 = r).
Proof.
  intros Hh Ho Hp. pose proof Hh as [H1 H2 H3 H4 H5 H6 H7 H8 H9]. rewrite /ReleaseRS Ho /=. destruct (rs_pool r && rs_readyToRelease r) eqn:E.
  2: { exists h. split_and!; [done..|by exists r]. }
  apply andb_true_iff in E as [_ Hr]. eexists. split; [done|].
  assert (o ∉ L) as Hno by (intros (r' & ? & ? & ? & _)%H2; congruence).
  set (r0 := mkRequest 0 0 0 0 0 false false (rs_committedC r) (rs_CompletedC r) false true false (rs_serial r)).
  assert (∀ o' r', <[o := r0]> (hp_objs h) !! o' = Some r' → ∃ r1, hp_objs h !! o' = Some r1 ∧ rs_serial r' = rs_serial r1 ∧
    (rs_readyToRelease r' = true → rs_readyToRelease r1 = true)) as Hback.
  { intros o' r'. rewrite lookup_insert. case_decide; [intros [= <-]; subst; by exists r|]. intros ?. by exists r'. }
  split_and!; [split|done|done|..]; try done; proj_simpl.
  - intros o' Ho'. destruct (H2 o' Ho') as (r' & ? & ? & ? & ?). exists r'. rewrite lookup_insert_ne; [|done]. by intros <-.
  - apply NoDup_app. split_and!; [done|set_solver|apply NoDup_singleton].
  - intros o' [Ho'| ->%list_elem_of_singleton]%elem_of_app.
    + destruct (H4 o' Ho') as (? & r' & ? & ?). split; [done|]. exists r'. rewrite lookup_insert_ne; [|done]. by intros <-.
    + split; [done|]. exists r0. by rewrite lookup_insert_eq.
  - intros o' r' (r1 & ? & -> & _)%Hback. by apply H5.
  - intros o1 o2 r1 r2 (r1' & ? & -> & _)%Hback (r2' & ? & -> & _)%Hback. by eapply H6.
  - intros o' r' (r1 & ? & -> & Hrr)%Hback ?. apply (H9 o'); [done|by apply Hrr].
  - intros o' Hne. rewrite lookup_insert_ne //. split; [done|]. set_solver.
  - exists r0. by rewrite lookup_insert_eq.
Qed.

(** ** The tables *)
Lemma map_to_list_split `{Countable K} {A} (m m1 : gmap K A) :
  m1 ⊆ m → map_to_list m ≡ₚ map_to_list m1 ++ map_to_list (m ∖ m1).
Proof.
  intros Hsub. apply NoDup_Permutation.
  - apply NoDup_map_to_list.
  - apply NoDup_app. split_and!; [apply NoDup_map_to_list| |apply NoDup_map_to_list].
    intros [k x] H1%elem_of_map_to_list [_ H2]%elem_of_map_to_list%lookup_difference_Some. congruence.
  - intros [k x]. rewrite elem_of_app !elem_of_map_to_list lookup_difference_Some. split.
    + intros Hm. destruct (m1 !! k) as [y|] eqn:E; [left|by right]. by rewrite -(lookup_weaken _ _ _ _ E Hsub).
    + intros [Hm|[Hm _]]; [by eapply lookup_weaken|done].
Qed.

(** A table had the objects [A] waiting, answered those of [N] and has [A'] left. *)
Record answered (h : heap) (A L : list nat) (N : list (nat * RequestResult)) (h' : heap) (A' : list nat) : Prop := {
  an_inv : hinv h' (A' ++ L);
  an_keeps : keeps h h';
  an_pool : hp_pool h' = hp_pool h;
  an_told : told h N h';
  an_split : A ≡ₚ N.*1 ++ A'
}.

Lemma answered_none h A L : hinv h (A ++ L) → answered h A L [] h A.
Proof. intros Hh. split; [done|done|done|apply told_nil|done]. Qed.

Lemma answer_table h A L N A' :
  hinv h (A ++ L) → A ≡ₚ N.*1 ++ A' → ∃ h', notifyEach h N = Some h' ∧ answered h A L N h' A'.
Proof.
  intros Hh HA. rewrite HA -app_assoc in Hh. destruct (notify_all _ _ _ Hh) as (h' & E & ? & ? & ? & ?). exists h'. by split.
Qed.

Lemma answer_one h o r L : hinv h (o :: L) → ∃ h', notifyRS h o r = Some h' ∧ answered h [o] L [(o, r)] h' [].
Proof.
  intros Hh. destruct (answer_table h [o] L [(o, r)] [] Hh) as (h' & E & Ha); [done|]. exists h'. split; [|done].
  cbn in E. by destruct (notifyRS h o r).
Qed.

Lemma fmap_tell {A} (g : A → nat * RequestResult) (l : list A) : (g <$> l).*1 = (λ x, (g x).1) <$> l.
Proof. by rewrite -list_fmap_compose. Qed.

(** *** Proposals *)
Definition shardWaiting (p : proposalShard) : list nat := if ps_stopped p then [] else (map_to_list (ps_pending p)).*2.

Lemma gcAtShard_answers h p now L :
  hinv h (shardWaiting p ++ L) →
  ∃ h' p' N, gcAtShard h p now = Some (h', p') ∧ answered h (shardWaiting p) L N h' (shardWaiting p') ∧
    ps_pending p' ⊆ ps_pending p ∧ ps_stopped p' = ps_stopped p ∧ ps_ct p' = ps_ct p ∧ ps_notifyCommit p' = ps_notifyCommit p ∧
    Forall (λ x, x.2 = codeOnly requestTimeout) N ∧
    (ps_stopped p = false → lc_gcTick (ps_clock p) ≤ u64 (now - lc_lastGcTime (ps_clock p)) →
     ∀ k x, ps_pending p !! k = Some x → lateIn h now x = true → (x, codeOnly requestTimeout) ∈ N).
Proof.
  intros Hh. rewrite /gcAtShard. destruct (ps_stopped p) eqn:Hs; [exists h, p, []; by split_and!; [|apply answered_none|..]|].
  destruct (Z.ltb_spec (u64 (now - lc_lastGcTime (ps_clock p))) (lc_gcTick (ps_clock p)));
    [exists h, p, []; split_and!; [done|by apply answered_none|done..|lia]|].
  set (late := filter _ (ps_pending p)).
  destruct (answer_table h (shardWaiting p) L ((λ kv, (kv.2, codeOnly requestTimeout)) <$> map_to_list late)
    (map_to_list (ps_pending p ∖ late)).*2 Hh) as (h' & -> & Ha).
  { rewrite fmap_tell /shardWaiting Hs -fmap_app. apply Permutation_map, map_to_list_split, map_filter_subseteq. }
  cbn. eexists _, _, _. split_and!; [done| | | | | | |].
  - match goal with |- answered _ _ _ _ _ ?x => assert (x = (map_to_list (ps_pending p ∖ late)).*2) as -> end; [|exact Ha].
    rewrite /shardWaiting. proj_simpl. by rewrite Hs.
  - proj_simpl. rewrite map_difference_filter. apply map_filter_subseteq.
  - by proj_simpl.
  - by proj_simpl.
  - by proj_simpl.
  - by apply Forall_fmap, Forall_true.
  - intros _ _ k x Hk Hl. apply list_elem_of_fmap. exists (k, x). split; [done|]. by apply elem_of_map_to_list, map_lookup_filter_Some.
Qed.

Lemma closeShard_answers h q p L :
  ps_stopped p = false → hinv h (shardWaiting p ++ L) →
  ∃ h' N, closeShard h q p = Some (h', closeEntries q, p <| ps_stopped := true |>) ∧ answered h (shardWaiting p) L N h' [] ∧
    Forall (λ x, x.2 = codeOnly requestTerminated) N.
Proof.
  intros Hs Hh. rewrite /closeShard.
  destruct (answer_table h (shardWaiting p) L ((λ kv, (kv.2, codeOnly requestTerminated)) <$> map_to_list (ps_pending p)) [] Hh) as (h' & -> & Ha).
  { rewrite fmap_tell app_nil_r /shardWaiting Hs. done. }
  cbn. eexists _, _. split_and!; [done|exact Ha|]. by apply Forall_fmap, Forall_true.
Qed.

Lemma takeProposal_moves h p c s k now p' o :
  takeProposal h p c s k now true = (p', o) →
  shardWaiting p ≡ₚ option_list o ++ shardWaiting p' ∧ ps_pending p' ⊆ ps_pending p ∧ ps_stopped p' = ps_stopped p ∧
  (∀ x, o = Some x → ps_pending p !! k = Some x ∧ ps_stopped p = false ∧
     ∃ r, hp_objs h !! x = Some r ∧ rs_clientID r = c ∧ rs_seriesID r = s).
Proof.
  rewrite /takeProposal. destruct (ps_stopped p) eqn:Hs; [by intros [= <- <-]; rewrite Hs|].
  destruct (ps_pending p !! k) as [x|] eqn:Hk; [|by intros [= <- <-]; rewrite Hs].
  destruct (hp_objs h !! x) as [r|] eqn:Ho; [|by intros [= <- <-]; rewrite Hs].
  destruct ((now <=? rs_deadline r) && (rs_clientID r =? c) && (rs_seriesID r =? s)) eqn:E; intros [= <- <-]; [|by rewrite Hs].
  apply andb_true_iff in E as [[_ Ec%Z.eqb_eq]%andb_true_iff Es%Z.eqb_eq]. split_and!; proj_simpl.
  - rewrite /shardWaiting. proj_simpl. rewrite Hs. cbn. rewrite -(map_to_list_delete _ _ _ Hk). done.
  - apply delete_subseteq.
  - done.
  - intros x' [= ->]. split_and!; [done|done|]. by exists r.
Qed.

(** *** Reads *)
Definition readsQueued (q : readIndexQueue) : list nat := omap id (take (Z.to_nat (rq_idx q)) (targetReads q)).

Record readQueue_wf (q : readIndexQueue) : Prop := {
  rw_left : length (rq_left q) = Z.to_nat (rq_size q);
  rw_right : length (rq_right q) = Z.to_nat (rq_size q);
  rw_idx : 0 ≤ rq_idx q ≤ rq_size q;
  rw_size : rq_size q < 2 ^ 64
}.

Lemma newReadIndexQueue_wf size : 0 ≤ size < 2 ^ 64 → readQueue_wf (newReadIndexQueue size).
Proof. intros ?. split; cbn [newReadIndexQueue rq_left rq_right rq_size rq_idx]; rewrite ?length_replicate; lia. Qed.

Lemma addRead_queued q rs q' ok closed :
  readQueue_wf q → addRead q rs = (q', (ok, closed)) →
  readQueue_wf q' ∧ rq_stopped q' = rq_stopped q ∧ (rq_stopped q = false → closed = false) ∧
  (ok = true → closed = false ∧ rq_stopped q = false) ∧
  readsQueued q' = readsQueued q ++ if ok then [rs] else [].
Proof.
  intros [H1 H2 H3 H4]. rewrite /addRead. destruct (Z.leb_spec (rq_size q) (rq_idx q)).
  { intros [= <- <- <-]. rewrite app_nil_r. done. }
  destruct (rq_stopped q) eqn:Hs; [intros [= <- <- <-]; rewrite app_nil_r; by rewrite Hs|]. intros [= <- <- <-].
  assert (u64 (rq_idx q + 1) = rq_idx q + 1) as Hu by (rewrite /u64 Z.mod_small; lia).
  assert (∀ l, length l = Z.to_nat (rq_size q) → take (Z.to_nat (rq_idx q + 1)) (<[Z.to_nat (rq_idx q) := Some rs]> l) =
    take (Z.to_nat (rq_idx q)) l ++ [Some rs]) as Htake.
  { intros l Hl. replace (Z.to_nat (rq_idx q + 1)) with (S (Z.to_nat (rq_idx q))) by lia.
    rewrite (take_S_r _ _ (Some rs)); [rewrite list_lookup_insert_eq //; lia|]. by rewrite take_insert_ge. }
  split_and!; [|by destruct (rq_leftInWrite q)|done|done|].
  - destruct (rq_leftInWrite q) eqn:Hl; split; proj_simpl; rewrite ?length_insert; try done; rewrite ?Hu /targetReads ?Hl //; lia.
  - rewrite /readsQueued /targetReads. destruct (rq_leftInWrite q) eqn:Hl; proj_simpl; rewrite Hl Hu Htake // omap_app //.
Qed.

Lemma getReads_queued q q' l :
  readQueue_wf q → getReads q = (q', l) → readQueue_wf q' ∧ rq_stopped q' = rq_stopped q ∧ omap id l = readsQueued q ∧ readsQueued q' = [].
Proof.
  intros [H1 H2 H3 H4]. rewrite /getReads. intros [= <- <-]. split_and!; [|done|done|by rewrite /readsQueued; proj_simpl].
  split; proj_simpl; [done|done|lia|done].
Qed.

Lemma batchRequests_perm l m : map_to_list m ≡ₚ l → batchRequests m ≡ₚ l ≫= λ kv, omap id (rb_requests kv.2).
Proof. rewrite /batchRequests. by intros ->. Qed.

Lemma batchRequests_insert m k b :
  m !! k = None → batchRequests (<[k := b]> m) ≡ₚ omap id (rb_requests b) ++ batchRequests m.
Proof. intros Hk. rewrite (batchRequests_perm ((k, b) :: map_to_list m)) //. by apply map_to_list_insert. Qed.

Lemma batchRequests_split m m1 : m1 ⊆ m → batchRequests m ≡ₚ batchRequests m1 ++ batchRequests (m ∖ m1).
Proof. intros Hs. rewrite (batchRequests_perm _ _ (map_to_list_split _ _ Hs)) bind_app //. Qed.

Lemma batchRequests_delete m k b :
  m !! k = Some b → batchRequests m ≡ₚ omap id (rb_requests b) ++ batchRequests (delete k m).
Proof. intros Hk. pose proof (batchRequests_insert (delete k m) k b (lookup_delete_eq _ _)) as E. by rewrite insert_delete_id in E. Qed.

Lemma elem_of_batchRequests m o : o ∈ batchRequests m ↔ ∃ k b, m !! k = Some b ∧ Some o ∈ rb_requests b.
Proof.
  rewrite /batchRequests list_elem_of_bind. split.
  - intros ([k b] & Ho & Hm%elem_of_map_to_list). apply list_elem_of_omap in Ho as (x & Hx & E). cbn in E. subst. by exists k, b.
  - intros (k & b & Hm & Ho). exists (k, b). split; [apply list_elem_of_omap; by exists (Some o)|by apply elem_of_map_to_list].
Qed.

Lemma batchRequests_fmap (g : readBatch → readBatch) m :
  batchRequests (g <$> m) ≡ₚ map_to_list m ≫= λ kv, omap id (rb_requests (g kv.2)).
Proof.
  rewrite /batchRequests map_to_list_fmap. induction (map_to_list m) as [|[k b] l IH]; [done|]. cbn. by rewrite IH.
Qed.

(** Changes that leave the requests of the batches alone. *)
Lemma batchRequests_same m m' : rb_requests <$> m = rb_requests <$> m' → batchRequests m ≡ₚ batchRequests m'.
Proof.
  intros E. assert (∀ m, batchRequests m ≡ₚ map_to_list (rb_requests <$> m) ≫= λ kv, omap id kv.2) as Hgo; [|by rewrite !Hgo E].
  intros m0. rewrite /batchRequests map_to_list_fmap. induction (map_to_list m0) as [|[k b] l IH]; [done|]. cbn. by rewrite IH.
Qed.

(** The batches of [m'] are left of those of [m]: with the same index, and some of the
    requests. *)
Definition batchesFrom (m m' : gmap SystemCtx readBatch) : Prop :=
  ∀ ctx b', m' !! ctx = Some b' → ∃ b, m !! ctx = Some b ∧ rb_index b' = rb_index b ∧ ∀ x, Some x ∈ rb_requests b' → Some x ∈ rb_requests b.

#[export] Instance batchesFrom_preorder : PreOrder batchesFrom.
Proof.
  split; [intros m ctx b; by exists b|]. intros m1 m2 m3 H12 H23 ctx b3 (b2 & Hb2 & E2 & R2)%H23.
  destruct (H12 ctx b2 Hb2) as (b1 & ? & E1 & R1). exists b1. split_and!; [done|congruence|auto].
Qed.

Lemma batchesFrom_subseteq m m' : m' ⊆ m → batchesFrom m m'.
Proof. intros Hs ctx b Hb. exists b. split_and!; [by eapply lookup_weaken|done|done]. Qed.

Lemma batchesFrom_dom m m' : batchesFrom m m' → dom m' ⊆ dom m.
Proof. intros Hf ctx [b Hb]%elem_of_dom. destruct (Hf ctx b Hb) as (b0 & ? & _). apply elem_of_dom. by exists b0. Qed.

Lemma dropLate_from h now m : batchesFrom m (dropLate h now <$> m).
Proof.
  intros ctx b'. rewrite lookup_fmap_Some. intros (b & <- & Hb). exists b. split_and!; [done|done|]. intros x. cbn.
  rewrite list_elem_of_fmap. intros ([y|] & E & Hy); cbn in E; [|done]. by destruct (lateIn h now y); simplify_eq.
Qed.

Lemma omap_id_elem {A} (l : list (option A)) x : x ∈ omap id l ↔ Some x ∈ l.
Proof. rewrite list_elem_of_omap. split; [intros (y & Hy & E); cbn in E; by subst|]. intros ?. by exists (Some x). Qed.

(** A request is in one batch. *)
Lemma batch_unique m c1 c2 b1 b2 x :
  NoDup (batchRequests m) → m !! c1 = Some b1 → m !! c2 = Some b2 → Some x ∈ rb_requests b1 → Some x ∈ rb_requests b2 → c1 = c2 ∧ b1 = b2.
Proof.
  intros Hnd H1 H2 X1 X2. destruct (decide (c1 = c2)) as [<-|Hne]; [by simplify_eq|]. exfalso.
  rewrite (batchRequests_delete _ _ _ H1) in Hnd. apply NoDup_app in Hnd as (_ & Hd & _). apply (Hd x); [by apply omap_id_elem|].
  apply elem_of_batchRequests. exists c2, b2. by rewrite lookup_delete_ne.
Qed.

Definition readsWaiting (p : pendingReadIndex) : list nat :=
  if pr_stopped p then [] else readsQueued (pr_requests p) ++ batchRequests (pr_batches p).

Lemma addReady_waiting p reads : readsWaiting (addReady p reads) ≡ₚ readsWaiting p.
Proof.
  rewrite /readsWaiting /addReady. proj_simpl. destruct (pr_stopped p); [done|]. f_equiv. apply batchRequests_same.
  generalize (pr_batches p). induction reads as [|v reads IH]; intros m; [done|]. cbn. rewrite IH. apply map_eq. intros k.
  rewrite !lookup_fmap lookup_alter. case_decide; [|done]. subst. by destruct (m !! rr_SystemCtx v).
Qed.

Lemma gc_split h now m :
  batchRequests m ≡ₚ filter (λ o, lateIn h now o = true) (batchRequests m) ++ batchRequests (dropLate h now <$> m).
Proof.
  rewrite batchRequests_fmap /batchRequests. induction (map_to_list m) as [|[k b] l IH]; [done|]. cbn [mbind list_bind]. rewrite filter_app.
  assert (∀ rs, omap id rs ≡ₚ filter (λ o, lateIn h now o = true) (omap id rs) ++
    omap id ((λ r, o ← r; if lateIn h now o then None else Some o) <$> rs)) as Hrs.
  { induction rs as [|[o|] rs IHr]; [done| |exact IHr]. rewrite fmap_cons. change (omap id (Some o :: rs)) with (o :: omap id rs).
    rewrite filter_cons. case_decide as D; cbn [mbind option_bind].
    - rewrite D. cbn [app]. by rewrite {1}IHr.
    - rewrite (not_true_is_false _ D). rewrite {1}IHr. apply Permutation_middle. }
  cbn. rewrite {1}IH {1}(Hrs (rb_requests b)). solve_Permutation.
Qed.

(** An object that waits is found later with the same serial number. *)
Lemma waiting_kept h L h1 o :
  hinv h L → keeps h h1 → o ∈ L →
  ∃ st st1, hp_objs h !! o = Some st ∧ hp_objs h1 !! o = Some st1 ∧ rs_serial st1 = rs_serial st ∧ rs_key st1 = rs_key st ∧
    rs_clientID st1 = rs_clientID st ∧ rs_seriesID st1 = rs_seriesID st ∧ rs_deadline st1 = rs_deadline st.
Proof.
  intros Hh [_ K] Ho. destruct (hi_objs _ _ Hh o Ho) as (st & Hst & _). destruct (K o st Hst) as (_ & st1 & ?).
  { intros Hp. by destruct (hi_pooled _ _ Hh o Hp). }
  by exists st, st1.
Qed.

Lemma told_from h h1 N L h' :
  hinv h (N.*1 ++ L) → keeps h h1 → (∀ s, answersOf h1 s = answersOf h s) → told h1 N h' → told h N h'.
Proof.
  intros Hh K Ha [T1 T2]. assert (∀ o r, (o, r) ∈ N → o ∈ N.*1 ++ L) as Hin.
  { intros o r ?. apply elem_of_app. left. apply list_elem_of_fmap. by exists (o, r). }
  split.
  - intros o r st Hr Ho. destruct (waiting_kept _ _ _ _ Hh K (Hin _ _ Hr)) as (st' & st1 & E & E1 & Eq & _); simplify_eq.
    rewrite -Eq. by eapply T1.
  - intros s. destruct (T2 s) as [->|(o & r & st & Hr & Ho & Es & ?)]; [left; apply Ha|]. right.
    destruct (waiting_kept _ _ _ _ Hh K (Hin _ _ Hr)) as (st' & st1 & E & E1 & Eq & _); simplify_eq. by exists o, r, st'.
Qed.

Lemma answered_trans h A L N h1 A1 N2 h2 A2 :
  hinv h (A ++ L) → answered h A L N h1 A1 → answered h1 A1 L N2 h2 A2 → answered h A L (N ++ N2) h2 A2.
Proof.
  intros Hh [I1 K1 P1 T1 S1] [I2 K2 P2 T2 S2].
  assert (∀ o r, (o, r) ∈ N2 → o ∈ A1) as Hin2.
  { intros o r ?. rewrite S2. apply elem_of_app. left. apply list_elem_of_fmap. by exists (o, r). }
  assert (NoDup (N.*1 ++ A1)) as Hnd. { pose proof (hi_waiting _ _ Hh) as Hnd. rewrite S1 -app_assoc in Hnd. apply NoDup_app in Hnd as (?&Hd&?).
    apply NoDup_app. split_and!; [done|set_solver|]. by apply NoDup_app in H0 as (? & _). }
  split; [done|by etransitivity|by rewrite P2| |by rewrite S1 S2 fmap_app -app_assoc]. split.
  - intros o r st [Hr|Hr]%elem_of_app Ho.
    + assert (o ∈ N.*1) as Hon by (apply list_elem_of_fmap; by exists (o, r)).
      destruct (tl_only _ _ _ T2 (rs_serial st)) as [->|(o2 & r2 & st2 & Hr2 & Ho2 & Es & _)]; [by eapply (tl_given _ _ _ T1)|].
      exfalso. assert (o2 ∈ A ++ L) as Hw2 by (rewrite S1; specialize (Hin2 _ _ Hr2); set_solver).
      destruct (waiting_kept _ _ _ _ Hh K1 Hw2) as (st' & st1 & E & E1 & Eq & _); simplify_eq.
      assert (o2 = o) as -> by (eapply (hi_serial _ _ Hh); [done..|congruence]). apply NoDup_app in Hnd as (_ & Hd & _). by eapply Hd, Hin2.
    + assert (o ∈ A ++ L) as Hw by (rewrite S1; specialize (Hin2 _ _ Hr); set_solver).
      destruct (waiting_kept _ _ _ _ Hh K1 Hw) as (st' & st1 & E & E1 & Eq & _); simplify_eq. rewrite -Eq. by eapply (tl_given _ _ _ T2).
  - intros s. destruct (tl_only _ _ _ T2 s) as [->|(o & r & st & Hr & Ho & Es & ?)].
    + destruct (tl_only _ _ _ T1 s) as [->|(o & r & st & ?)]; [by left|]. right. exists o, r, st. set_solver.
    + right. assert (o ∈ A ++ L) as Hw by (rewrite S1; specialize (Hin2 _ _ Hr); set_solver).
      destruct (waiting_kept _ _ _ _ Hh K1 Hw) as (st' & st1 & E & E1 & Eq & _); simplify_eq. exists o, r, st'. set_solver.
Qed.

Lemma closeReads_answers h p L :
  pr_stopped p = false → readQueue_wf (pr_requests p) → hinv h (readsWaiting p ++ L) →
  ∃ h' p' N, closeReads h p = Some (h', p') ∧ answered h (readsWaiting p) L N h' [] ∧ pr_stopped p' = true ∧
    readQueue_wf (pr_requests p') ∧ rq_stopped (pr_requests p') = true ∧ readsQueued (pr_requests p') = [] ∧ pr_batches p' = pr_batches p ∧
    Forall (λ x, x.2 = codeOnly requestTerminated) N.
Proof.
  intros Hs Hwf Hh. rewrite /closeReads. destruct (getReads _) as [q reqs] eqn:E.
  apply getReads_queued in E as (Hq1 & Hq2 & Hq3 & Hq4); [|by destruct Hwf; split].
  destruct (answer_table h (readsWaiting p) L ((λ o, (o, codeOnly requestTerminated)) <$> omap id reqs ++ batchRequests (pr_batches p)) [] Hh)
    as (h' & -> & Ha).
  { rewrite fmap_tell app_nil_r /readsWaiting Hs list_fmap_id Hq3. done. }
  cbn. eexists _, _, _. split_and!; [done|exact Ha|done|done|by proj_simpl; rewrite Hq2|done|done|]. by apply Forall_fmap, Forall_true.
Qed.

Lemma droppedReads_answers h p ctx L :
  hinv h (readsWaiting p ++ L) →
  ∃ h' p' N, droppedReads h p ctx = Some (h', p') ∧ answered h (readsWaiting p) L N h' (readsWaiting p') ∧
    pr_requests p' = pr_requests p ∧ pr_stopped p' = pr_stopped p ∧ batchesFrom (pr_batches p) (pr_batches p') ∧
    ∀ x v, (x, v) ∈ N → v = codeOnly requestDropped ∧ ∃ b, pr_batches p !! ctx = Some b ∧ Some x ∈ rb_requests b.
Proof.
  intros Hh. rewrite /droppedReads.
  destruct (pr_stopped p) eqn:Hs; [exists h, p, []; split_and!; [done|by apply answered_none|done..|by intros ?? ?%elem_of_nil]|].
  destruct (pr_batches p !! ctx) as [rb|] eqn:Hb; [|exists h, p, []; split_and!; [done|by apply answered_none|done..|by intros ?? ?%elem_of_nil]].
  destruct (answer_table h (readsWaiting p) L ((λ o, (o, codeOnly requestDropped)) <$> omap id (rb_requests rb))
    (readsQueued (pr_requests p) ++ batchRequests (delete ctx (pr_batches p))) Hh) as (h' & -> & Ha).
  { rewrite fmap_tell list_fmap_id /readsWaiting Hs (batchRequests_delete _ _ _ Hb). solve_Permutation. }
  cbn. eexists _, _, _. split_and!; [done| |done|done|by proj_simpl; apply batchesFrom_subseteq, delete_subseteq|].
  - match goal with |- answered _ _ _ _ _ ?x => assert (x = readsQueued (pr_requests p) ++ batchRequests (delete ctx (pr_batches p))) as -> end;
      [|exact Ha]. rewrite /readsWaiting. proj_simpl. by rewrite Hs.
  - intros x v (y & [= -> ->] & Hy)%list_elem_of_fmap. split; [done|]. exists rb. split; [done|]. by apply omap_id_elem.
Qed.

(** The marks that reads may go ahead. *)
Lemma mark_all h L now reqs :
  hinv h L → let h1 := foldl (λ h o, markReadable h now o) h reqs in
  hinv h1 L ∧ keeps h h1 ∧ hp_pool h1 = hp_pool h ∧ ∀ s, answersOf h1 s = answersOf h s.
Proof.
  revert h. induction reqs as [|o reqs IH]; intros h Hh; [done|]. cbn [foldl].
  destruct (set_object (λ r, if now <? rs_deadline r then r <| rs_readyToRead := true |> else r) h L o) as [H1 K1]; [by intros r; case_match|done|].
  destruct (IH (markReadable h now o) H1) as (H2 & K2 & P2 & A2). split_and!; [done|by etransitivity|by rewrite P2|]. intros s. by rewrite A2.
Qed.

Lemma gcReads_answers h p now L :
  pr_stopped p = false → hinv h (readsWaiting p ++ L) →
  ∃ h' p' N, gcReads h p now = Some (h', p') ∧ answered h (readsWaiting p) L N h' (readsWaiting p') ∧
    pr_requests p' = pr_requests p ∧ pr_stopped p' = false ∧ batchesFrom (pr_batches p) (pr_batches p') ∧
    ∀ x v, (x, v) ∈ N → v = codeOnly requestTimeout ∧ x ∈ batchRequests (pr_batches p).
Proof.
  intros Hs Hh. rewrite /gcReads. set (late := filter _ (batchRequests (pr_batches p))).
  destruct (answer_table h (readsWaiting p) L ((λ o, (o, codeOnly requestTimeout)) <$> late)
    (readsQueued (pr_requests p) ++ batchRequests (dropLate h now <$> pr_batches p)) Hh) as (h' & -> & Ha).
  { rewrite fmap_tell list_fmap_id /readsWaiting Hs {1}(gc_split h now (pr_batches p)). solve_Permutation. }
  cbn. eexists _, _, _. split_and!; [done| |done|done| |].
  - match goal with |- answered _ _ _ _ _ ?x =>
      assert (x ≡ₚ readsQueued (pr_requests p) ++ batchRequests (dropLate h now <$> pr_batches p)) as Hx end.
    { rewrite /readsWaiting. proj_simpl. rewrite Hs. f_equiv. set (m := dropLate h now <$> pr_batches p).
      rewrite (batchRequests_split m (filter (λ kv, negb ((sc_High kv.1 <? now) && bool_decide (omap id (rb_requests kv.2) = [])) = true) m));
        [apply map_filter_subseteq|]. rewrite -{1}[batchRequests (filter _ _)]app_nil_r. f_equiv.
      destruct (batchRequests (m ∖ _)) as [|o l] eqn:E; [done|]. exfalso. assert (o ∈ o :: l) as Ho by by left. rewrite -E in Ho.
      apply elem_of_batchRequests in Ho as (k & b & [Hk Hnot]%lookup_difference_Some & Hin). apply map_lookup_filter_None in Hnot as [?|Hnot]; [congruence|].
      specialize (Hnot b Hk). cbn in Hnot. apply Hnot. rewrite andb_comm bool_decide_eq_false_2 //. intros Hnil.
      assert (o ∈ omap id (rb_requests b)) as Ho by (apply list_elem_of_omap; by exists (Some o)). rewrite Hnil in Ho. by apply elem_of_nil in Ho. }
    destruct Ha as [I K P T S]. split; [by rewrite Hx|done|done|exact T|by rewrite Hx].
  - proj_simpl. etransitivity; [apply (dropLate_from h now)|]. apply batchesFrom_subseteq, map_filter_subseteq.
  - intros x v (y & [= -> ->] & [_ Hy]%list_elem_of_filter)%list_elem_of_fmap. done.
Qed.

Lemma readResult_code h now o : rr_code (readResult h now o) = requestCompleted ∨ rr_code (readResult h now o) = requestTimeout.
Proof. rewrite /readResult. destruct (hp_objs h !! o); [case_match|]; auto. Qed.

(** What the reads of applied batches are told, and that the rest is not told more
    than that it is late. *)
Lemma appliedReads_answers h p applied L :
  hinv h (readsWaiting p ++ L) →
  ∃ h' p' N, appliedReads h p applied = Some (h', p') ∧ answered h (readsWaiting p) L N h' (readsWaiting p') ∧
    pr_requests p' = pr_requests p ∧ pr_stopped p' = pr_stopped p ∧ batchesFrom (pr_batches p) (pr_batches p') ∧
    ∀ o r, (o, r) ∈ N → ∃ ctx b, pr_batches p !! ctx = Some b ∧ Some o ∈ rb_requests b ∧
      (rr_code r = requestCompleted ∧ 0 < rb_index b ≤ applied ∨ rr_code r = requestTimeout).
Proof.
  intros Hh. rewrite /appliedReads. destruct (pr_stopped p || _) eqn:Hs.
  { exists h, p, []. split_and!; [done|by apply answered_none|done..|by intros ?? ?%elem_of_nil]. }
  apply orb_false_iff in Hs as [Hs _]. set (now := lc_ltick (pr_clock p)). set (ready := filter _ (pr_batches p)).
  destruct (mark_all h (readsWaiting p ++ L) now (batchRequests ready) Hh) as (Hm & Km & Pm & Am).
  set (hm := foldl _ h (batchRequests ready)) in *. set (N1 := (λ o, (o, readResult h now o)) <$> batchRequests ready).
  set (p1 := p <| pr_batches ::= λ m, m ∖ ready |>).
  assert (readsWaiting p ≡ₚ N1.*1 ++ readsWaiting p1) as HN1.
  { rewrite /N1 fmap_tell list_fmap_id /p1 /readsWaiting. proj_simpl. rewrite Hs.
    rewrite {1}(batchRequests_split _ ready); [apply map_filter_subseteq|]. solve_Permutation. }
  destruct (answer_table hm (readsWaiting p) L N1 (readsWaiting p1) Hm HN1) as (h1 & -> & [I1 K1 P1 T1 S1]). cbn.
  assert (answered h (readsWaiting p) L N1 h1 (readsWaiting p1)) as Ha1.
  { split; [done|by etransitivity|by rewrite P1| |done]. eapply told_from; [|done|done|done]. rewrite HN1 -app_assoc in Hh. exact Hh. }
  assert (∀ o r, (o, r) ∈ N1 → ∃ ctx b, pr_batches p !! ctx = Some b ∧ Some o ∈ rb_requests b ∧
    (rr_code r = requestCompleted ∧ 0 < rb_index b ≤ applied ∨ rr_code r = requestTimeout)) as Hjust.
  { intros o r (o' & [= -> ->] & Ho)%list_elem_of_fmap. apply elem_of_batchRequests in Ho as (k & b & [Hk Hb]%map_lookup_filter_Some & Hin).
    exists k, b. split_and!; [done|done|]. apply andb_true_iff in Hb as [?%Z.ltb_lt ?%Z.leb_le].
    destruct (readResult_code h now o') as [?|?]; [by left|by right]. }
  assert (batchesFrom (pr_batches p) (pr_batches p1)) as Hfrom.
  { rewrite /p1. proj_simpl. apply batchesFrom_subseteq. rewrite map_difference_filter. apply map_filter_subseteq. }
  case_match.
  { by eexists _, _, N1. }
  set (p1' := p1 <| pr_clock ::= λ c, c <| lc_lastGcTime := now |> |>).
  destruct (gcReads_answers h1 p1' now L) as (h2 & p2 & N2 & -> & Ha2 & Q2 & S2 & D2 & F2); [exact Hs|exact I1|].
  eexists _, _, (N1 ++ N2). split_and!; [done|by eapply answered_trans|done|by rewrite S2 Hs|by etransitivity|].
  intros o r [Hr|Hr]%elem_of_app; [by eapply Hjust|]. destruct (F2 _ _ Hr) as [-> (c & b' & Hb' & Hin)%elem_of_batchRequests].
  destruct (Hfrom c b' Hb') as (b & Hb & _ & Hsub). exists c, b. split_and!; [done|by apply Hsub|by right].
Qed.

(** *** Configuration changes and snapshots *)
Section one.
Context {R : Type}.
Implicit Types (p : pendingOne R).

Definition oneWaiting p : list nat := option_list (po_pending p).

(** The pending request gets an answer that [says] allows, or nothing happens to it. *)
Definition oneStep (h : heap) p (L : list nat) (says : RequestState → RequestResult → Prop) (res : option (heap * pendingOne R)) : Prop :=
  ∃ h' p' N, res = Some (h', p') ∧ answered h (oneWaiting p) L N h' (oneWaiting p') ∧
    ∀ x v, (x, v) ∈ N → ∃ r, hp_objs h !! x = Some r ∧ says r v.

Lemma oneStep_none h p p' L says : hinv h (oneWaiting p ++ L) → po_pending p' = po_pending p → oneStep h p L says (Some (h, p')).
Proof. intros Hh E. exists h, p', []. rewrite /oneWaiting E. split_and!; [done|by apply answered_none|by intros ?? ?%elem_of_nil]. Qed.

Lemma oneStep_answer h p p' L o v (says : RequestState → RequestResult → Prop) :
  hinv h (oneWaiting p ++ L) → po_pending p = Some o → po_pending p' = None → (∀ r, hp_objs h !! o = Some r → says r v) →
  oneStep h p L says (h1 ← notifyRS h o v; Some (h1, p')).
Proof.
  intros Hh Ho E Hsay. rewrite /oneWaiting Ho in Hh. destruct (answer_one h o v L Hh) as (h' & -> & Ha). exists h', p', [(o, v)].
  rewrite /oneWaiting Ho E. split_and!; [done|done|]. intros x u [= -> ->]%list_elem_of_singleton.
  destruct (hi_objs _ _ Hh o) as (r & Hr & _); [by left|]. exists r. auto.
Qed.

Lemma closeOne_step h p L : hinv h (oneWaiting p ++ L) → oneStep h p L (λ _ v, v = codeOnly requestTerminated) (closeOne h p).
Proof.
  intros Hh. rewrite /closeOne. destruct (po_pending p) as [o|] eqn:Ho; [by apply (oneStep_answer _ _ _ _ o)|]. by apply oneStep_none.
Qed.

Lemma gcOne_step h p L : hinv h (oneWaiting p ++ L) → oneStep h p L (λ _ v, v = codeOnly requestTimeout) (gcOne h p).
Proof.
  intros Hh. rewrite /gcOne. destruct (po_pending p) as [o|] eqn:Ho; [|by apply oneStep_none]. case_match; [by apply oneStep_none|].
  case_match; [by apply (oneStep_answer _ _ _ _ o)|]. by apply oneStep_none.
Qed.

Lemma answerOne_step h p L key v : hinv h (oneWaiting p ++ L) → oneStep h p L (λ r u, rs_key r = key ∧ u = v) (answerOne h p key v).
Proof.
  intros Hh. rewrite /answerOne. destruct (po_pending p) as [o|] eqn:Ho; [|by apply oneStep_none].
  destruct (hi_objs _ _ Hh o) as (r & Hr & _); [rewrite /oneWaiting Ho; by left|]. rewrite Hr. cbn. destruct (Z.eqb_spec (rs_key r) key); [|by apply oneStep_none].
  apply (oneStep_answer _ _ _ _ o); [done|done|done|]. intros r'. rewrite Hr. by intros [= <-].
Qed.

Lemma requestOne_step h p key tk req h' p' r L :
  hinv h (oneWaiting p ++ L) → requestOne h p key tk req = (h', p', r) →
  match r with
  | Err _ => h' = h ∧ p' = p
  | Ok o => po_pending p = None ∧ oneWaiting p' = [o] ∧ newObject (λ r, r <| rs_CompletedC := Some [] |>) h L h' o
  end.
Proof.
  intros Hh. rewrite /requestOne. case_match; [by intros [= <- <- <-]|]. case_bool_decide as Hp; [by intros [= <- <- <-]|].
  case_match; [by intros [= <- <- <-]|]. case_match; [|by intros [= <- <- <-]]. rewrite -eq_None_not_Some in Hp. intros [= <- <- <-].
  split_and!; [done|done|]. rewrite /oneWaiting Hp in Hh. by apply (alloc_object h L).
Qed.
End one.
