(* ===== verification/RequestRuns.v ===== *)
(** * Every request is answered once

    The tables of Request under the threads that share them: callers propose, read,
    receive their results and release their objects, the step worker takes proposals
    and reads from the queues, the apply worker announces results, ticks pass and
    the node is closed.  A step is one critical section; what a thread carries from
    one to the next is part of the state: proposals in the table but not in the
    queue yet, results on their way to an object taken from the table, reads between
    the queue and the table.  The commits of proposals are not announced, as in the
    program's configuration. *)
From stdpp Require Import pretty.
From Stdlib Require Import Ascii.
From S2P Require Import Prelude GoStrings Wire Errors Raftpb RaftLog Raft RaftPeer RsmSession RsmMachine Request RequestHeap.

Local Open Scope string_scope.
Local Open Scope list_scope.
Local Open Scope Z_scope.

(** ** Runs *)
Record world := mkWorld {
  w_tables : requests;
  w_started : list (nat * Entry * nat);
  w_hand : list (nat * RequestResult);
  w_taken : list (option nat);
  w_clients : gmap nat nat;
  w_accepted : list nat;
  w_lost : list nat
}.
#[export] Instance world_eta : Eta world := λ w,
  mkWorld (w_tables w) (w_started w) (w_hand w) (w_taken w) (w_clients w) (w_accepted w) (w_lost w).

Inductive op :=
| ProposeBegin (session : ClientSession) (cmd : list ascii) (key timeoutTick : Z) (pick : nat)
| ProposeEnd (k : nat)
| Applied (clientID seriesID key : Z) (res : Result) (rejected : bool)
| Dropped (clientID seriesID key : Z)
| Deliver (k : nat)
| GcShard (i : nat)
| ExpireShard (i : nat)
| TakeEntries (paused : bool)
| ReadRequest (timeoutTick : Z) (pick : nat)
| TakeReads
| AddReads (ctx : SystemCtx)
| ReadsReady (reads : list ReadyToRead)
| ReadsDropped (ctx : SystemCtx)
| ReadsApplied (index : Z)
| ConfRequest (cc : ConfigChange) (key timeoutTick : Z)
| ConfTake
| ConfGc
| ConfDropped (key : Z)
| ConfApply (key : Z) (rejected : bool)
| SnapRequest (exported : bool) (path : string) (override : bool) (overhead key timeoutTick : Z)
| SnapTake
| SnapGc
| SnapApply (key : Z) (ignored aborted : bool) (index : Z)
| Tick (tick : Z)
| CloseReads
| CloseShard (i : nat)
| CloseConf
| CloseSnap
| Receive (serial : nat)
| Release (serial : nat).

Definition serialOf (h : heap) (o : nat) : nat := from_option rs_serial 0%nat (hp_objs h !! o).

(** The caller has its object. *)
Definition accept (w : world) (o : nat) : world :=
  let s := serialOf (rt_heap (w_tables w)) o in w <| w_clients ::= <[s := o]> |> <| w_accepted ::= λ l, l ++ [s] |>.
Definition acceptResult (w : world) (r : result nat error) : world := match r with Ok o => accept w o | Err _ => w end.

Definition set_heap (w : world) (h : heap) : world := w <| w_tables ::= λ t, t <| rt_heap := h |> |>.
Definition set_shard (w : world) (i : nat) (p : proposalShard) : world := w <| w_tables ::= λ t, t <| rt_shards ::= <[i := p]> |> |>.
Definition set_reads (w : world) (p : pendingReadIndex) : world := w <| w_tables ::= λ t, t <| rt_reads := p |> |>.

Section exec.
Context `{Snappy}.

Definition execConf (w : world) (r : option (heap * pendingOne configChangeRequest)) : option world :=
  '(h, p) ← r; Some ((set_heap w h) <| w_tables ::= λ t, t <| rt_conf := p |> |>).
Definition execSnap (w : world) (r : option (heap * pendingOne snapshotRequest)) : option world :=
  '(h, p) ← r; Some ((set_heap w h) <| w_tables ::= λ t, t <| rt_snap := p |> |>).
Definition execShard (w : world) (i : nat) (f : proposalShard → option (heap * proposalShard)) : option world :=
  match rt_shards (w_tables w) !! i with
  | None => Some w
  | Some p => '(h, p1) ← f p; Some (set_shard (set_heap w h) i p1)
  end.
Definition execReads (w : world) (r : option (heap * pendingReadIndex)) : option world :=
  '(h, p) ← r; Some (set_reads (set_heap w h) p).

(** What a thread takes out of the shard of a key. *)
Definition execTake (w : world) (clientID seriesID key : Z) (r : RequestResult) : option world :=
  let t := w_tables w in
  let i := shardOfKey (rt_shards t) key in
  match rt_shards t !! i with
  | None => Some w
  | Some p =>
      let '(p1, o) := takeProposal (rt_heap t) p clientID seriesID key (lc_ltick (ps_clock p)) true in
      Some ((set_shard w i p1) <| w_hand ::= λ l, l ++ from_option (λ o, [(o, r)]) [] o |>)
  end.

Definition exec (w : world) (o : op) : option world :=
  let t := w_tables w in
  let h := rt_heap t in
  match o with
  | ProposeBegin session cmd key tk pick =>
      let i := shardOfKey (rt_shards t) key in
      match rt_shards t !! i with
      | None => Some w
      | Some p =>
          r ← proposeBegin h p session cmd key tk pick;
          match r with
          | Err _ => Some w
          | Ok (h1, p1, entry, o) =>
              Some ((set_shard (set_heap w h1) i p1) <| w_started ::= λ l, l ++ [(i, entry, o)] |>)
          end
      end
  | ProposeEnd k =>
      match w_started w !! k with
      | None => Some w
      | Some (i, entry, o) =>
          match rt_shards t !! i with
          | None => Some w
          | Some p =>
              let '(q, p1, r) := proposeEnd (rt_queue t) p entry o in
              let w1 := (set_shard w i p1) <| w_tables ::= λ t, t <| rt_queue := q |> |>
                          <| w_started ::= λ l, take k l ++ drop (S k) l |> in
              Some (acceptResult w1 r)
          end
      end
  | Applied clientID seriesID key res rejected => execTake w clientID seriesID key (appliedResult res rejected)
  | Dropped clientID seriesID key => execTake w clientID seriesID key (codeOnly requestDropped)
  | Deliver k =>
      match w_hand w !! k with
      | None => Some w
      | Some (o, r) => h1 ← notifyRS h o r; Some ((set_heap w h1) <| w_hand ::= λ l, take k l ++ drop (S k) l |>)
      end
  | GcShard i => execShard w i (gcShard h)
  | ExpireShard i => execShard w i (λ p, expireShard h p (lc_ltick (ps_clock p)))
  | TakeEntries paused => Some (w <| w_tables ::= λ t, t <| rt_queue := (getEntries (rt_queue t) paused).1 |> |>)
  | ReadRequest tk pick =>
      '(h1, p, r) ← readRequest h (rt_reads t) tk pick false;
      Some (acceptResult (set_reads (set_heap w h1) p) r)
  | TakeReads =>
      if bool_decide (w_taken w = []) then
        let '(q, reqs) := getReads (pr_requests (rt_reads t)) in
        Some ((set_reads w ((rt_reads t) <| pr_requests := q |>)) <| w_taken := reqs |>)
      else Some w
  | AddReads ctx =>
      if bool_decide (w_taken w = []) then Some w
      else
        p ← addReads (rt_reads t) ctx (w_taken w);
        Some ((set_reads w p) <| w_taken := [] |> <| w_lost ::= λ l, if pr_stopped (rt_reads t) then l ++ omap id (w_taken w) else l |>)
  | ReadsReady reads => Some (set_reads w (addReady (rt_reads t) reads))
  | ReadsDropped ctx => execReads w (droppedReads h (rt_reads t) ctx)
  | ReadsApplied index => execReads w (appliedReads h (rt_reads t) index)
  | ConfRequest cc key tk =>
      let '(h1, p, r) := requestConfigChangeTable h (rt_conf t) cc key tk in
      Some (acceptResult ((set_heap w h1) <| w_tables ::= λ t, t <| rt_conf := p |> |>) r)
  | ConfTake => Some (w <| w_tables ::= λ t, t <| rt_conf := (takeOne (rt_conf t)).1 |> |>)
  | ConfGc => execConf w (gcOne h (rt_conf t))
  | ConfDropped key => execConf w (droppedConfigChange h (rt_conf t) key)
  | ConfApply key rejected => execConf w (applyConfigChangeTable h (rt_conf t) key rejected)
  | SnapRequest exported path override overhead key tk =>
      let '(h1, p, r) := requestSnapshotTable h (rt_snap t) exported path override overhead key tk in
      Some (acceptResult ((set_heap w h1) <| w_tables ::= λ t, t <| rt_snap := p |> |>) r)
  | SnapTake => Some (w <| w_tables ::= λ t, t <| rt_snap := (takeOne (rt_snap t)).1 |> |>)
  | SnapGc => execSnap w (gcOne h (rt_snap t))
  | SnapApply key ignored aborted index => execSnap w (applySnapshotTable h (rt_snap t) key ignored aborted index)
  | Tick tick => Some (w <| w_tables ::= λ t, tickTables t tick |>)
  | CloseReads => execReads w (closeReads h (rt_reads t))
  | CloseShard i =>
      match rt_shards t !! i with
      | None => Some w
      | Some p =>
          '(h1, q, p1) ← closeShard h (rt_queue t) p;
          Some ((set_shard (set_heap w h1) i p1) <| w_tables ::= λ t, t <| rt_queue := q |> |>)
      end
  | CloseConf => execConf w (closeOne h (rt_conf t))
  | CloseSnap => execSnap w (closeOne h (rt_snap t))
  | Receive serial =>
      match w_clients w !! serial with
      | None => Some w
      | Some o => '(h1, _) ← receiveRS h o; Some (set_heap w h1)
      end
  | Release serial =>
      match w_clients w !! serial with
      | None => Some w
      | Some o => h1 ← ReleaseRS h o; Some ((set_heap w h1) <| w_clients ::= delete serial |>)
      end
  end.

Fixpoint execs (w : world) (l : list op) : option world :=
  match l with
  | [] => Some w
  | o :: l => w1 ← exec w o; execs w1 l
  end.
End exec.

Definition startWorld (ct : CompressionType) : world :=
  mkWorld (newRequests emptyHeap ct false) [] [] [] ∅ [] [].

(** What must not come twice: the random keys of proposals, the contexts of reads,
    and the closing of each table. *)
Inductive tag := TKey (key : Z) | TCtx (ctx : SystemCtx) | TReads | TShard (i : nat).
Definition tagOf (o : op) : option tag :=
  match o with
  | ProposeBegin _ _ key _ _ => Some (TKey key)
  | AddReads ctx => Some (TCtx ctx)
  | CloseReads => Some TReads
  | CloseShard i => Some (TShard i)
  | _ => None
  end.

(** Snapshot requests are not both ignored and aborted. *)
Definition sane (o : op) : Prop := match o with SnapApply _ ignored aborted _ => ignored && aborted = false | _ => True end.

(** ** The state of a run *)
Definition waiting (w : world) : list nat :=
  let t := w_tables w in
  (rt_shards t ≫= shardWaiting) ++ (w_hand w).*1 ++ readsWaiting (rt_reads t) ++ omap id (w_taken w) ++ oneWaiting (rt_conf t) ++
  oneWaiting (rt_snap t) ++ w_lost w.

Abbreviation heapOf w := (rt_heap (w_tables w)).
Abbreviation tags l := (omap tagOf l).

(** A request that is answered, or whose object waits in a table. *)
Definition covered (h : heap) (L : list nat) (s : nat) : Prop :=
  length (answersOf h s) = 1%nat ∨ ∃ o r, o ∈ L ∧ hp_objs h !! o = Some r ∧ rs_serial r = s.

Record startedOk (done : list op) (w : world) (x : nat * Entry * nat) : Prop := {
  so_pool : x.2 ∉ hp_pool (heapOf w);
  so_object : ∃ r, hp_objs (heapOf w) !! x.2 = Some r ∧ rs_serial r ∉ w_accepted w ∧
    (eq_stopped (rt_queue (w_tables w)) = false → covered (heapOf w) (waiting w) (rs_serial r));
  so_shard : ∃ p, rt_shards (w_tables w) !! x.1.1 = Some p ∧ ∀ y, ps_pending p !! e_Key x.1.2 = Some y → y = x.2;
  so_key : TKey (e_Key x.1.2) ∈ tags done
}.

Record winv (done : list op) (w : world) : Prop := {
  wi_heap : hinv (heapOf w) (waiting w);
  wi_clients s o : w_clients w !! s = Some o →
    s ∈ w_accepted w ∧ o ∉ hp_pool (heapOf w) ∧ ∃ r, hp_objs (heapOf w) !! o = Some r ∧ rs_serial r = s;
  wi_accepted s : s ∈ w_accepted w → (s < hp_serial (heapOf w))%nat ∧ covered (heapOf w) (waiting w) s;
  wi_started x : x ∈ w_started w → startedOk done w x;
  wi_distinct : NoDup (w_started w).*2;
  wi_keys i p k x : rt_shards (w_tables w) !! i = Some p → ps_pending p !! k = Some x → TKey k ∈ tags done;
  wi_stopped i p : rt_shards (w_tables w) !! i = Some p → ps_stopped p = true →
    eq_stopped (rt_queue (w_tables w)) = true ∧ TShard i ∈ tags done;
  wi_queue : readQueue_wf (pr_requests (rt_reads (w_tables w)));
  wi_reads : pr_stopped (rt_reads (w_tables w)) = true →
    rq_stopped (pr_requests (rt_reads (w_tables w))) = true ∧ readsQueued (pr_requests (rt_reads (w_tables w))) = [] ∧ TReads ∈ tags done;
  wi_contexts ctx : ctx ∈ dom (pr_batches (rt_reads (w_tables w))) → TCtx ctx ∈ tags done
}.

Lemma covered_perm h L L' s : L ≡ₚ L' → covered h L s → covered h L' s.
Proof. intros E [?|(o & r & Ho & ?)]; [by left|right]. exists o, r. by rewrite -E. Qed.

Lemma covered_answered h A R N h' A' s :
  hinv h (A ++ R) → answered h A R N h' A' → covered h (A ++ R) s → covered h' (A' ++ R) s.
Proof.
  intros Hh [I K P T S] [Hl|(o & r & Ho & Hr & Es)].
  { left. by destruct (tl_only _ _ _ T s) as [->|(? & ? & ? & _ & _ & _ & ->)]. }
  destruct (waiting_kept _ _ _ _ Hh K Ho) as (st & st1 & ? & E1 & Eq & _); simplify_eq.
  assert (o ∈ N.*1 ∨ o ∈ A' ++ R) as [Hn|Hw]; [rewrite S in Ho; set_solver| |].
  - left. apply list_elem_of_fmap in Hn as ([o' v] & -> & Hn). by rewrite (tl_given _ _ _ T _ _ _ Hn Hr).
  - right. by exists o, st1.
Qed.

Lemma covered_new upto h L h2 o s : hinv h L → newObject upto h L h2 o → covered h L s → covered h2 (o :: L) s.
Proof.
  intros Hh [I K A P O] [Hl|(o' & r & Ho & Hr & Es)]; [left; by rewrite A|right].
  destruct (waiting_kept _ _ _ _ Hh K Ho) as (st & st1 & ? & E1 & Eq & _); simplify_eq. exists o', st1. set_solver.
Qed.

(** What a step does to everything but the heap. *)
Record frame (done : list op) (o : op) (w w' : world) : Prop := {
  fr_clients : w_clients w' = w_clients w;
  fr_accepted : w_accepted w' = w_accepted w;
  fr_started : w_started w' `sublist_of` w_started w;
  fr_shards i : match rt_shards (w_tables w') !! i with
                | Some p' => ∃ p, rt_shards (w_tables w) !! i = Some p ∧
                    (∀ k x, ps_pending p' !! k = Some x → ps_pending p !! k = Some x ∨ tagOf o = Some (TKey k) ∧ TKey k ∉ tags done) ∧
                    (ps_stopped p' = true → ps_stopped p = true ∨ eq_stopped (rt_queue (w_tables w')) = true ∧ tagOf o = Some (TShard i))
                | None => rt_shards (w_tables w) !! i = None
                end;
  fr_queue : eq_stopped (rt_queue (w_tables w)) = true → eq_stopped (rt_queue (w_tables w')) = true;
  fr_readq : readQueue_wf (pr_requests (rt_reads (w_tables w')));
  fr_reads : pr_stopped (rt_reads (w_tables w')) = true →
    rq_stopped (pr_requests (rt_reads (w_tables w'))) = true ∧ readsQueued (pr_requests (rt_reads (w_tables w'))) = [] ∧ TReads ∈ tags (done ++ [o]);
  fr_contexts ctx : ctx ∈ dom (pr_batches (rt_reads (w_tables w'))) → TCtx ctx ∈ tags (done ++ [o])
}.

Lemma tags_new done o x : tagOf o = Some x → x ∈ tags (done ++ [o]).
Proof. intros Ho. rewrite omap_app elem_of_app. right. cbn. rewrite Ho. by left. Qed.

Lemma tags_more done o x : x ∈ tags done → x ∈ tags (done ++ [o]).
Proof. rewrite omap_app. set_solver. Qed.

Lemma sublist_in {A} (l k : list A) x : x ∈ l → l `sublist_of` k → x ∈ k.
Proof. intros Hx Hs. by eapply elem_of_submseteq, sublist_submseteq. Qed.

(** The conditions on the tables after a step, from the frame. *)
Lemma winv_frame done o w w' :
  winv done w → frame done o w w' →
  hinv (heapOf w') (waiting w') → keeps (heapOf w) (heapOf w') →
  (∀ s, s ∈ w_accepted w ∨ (∃ x r, x ∈ w_started w' ∧ hp_objs (heapOf w) !! x.2 = Some r ∧ rs_serial r = s) →
     covered (heapOf w) (waiting w) s → covered (heapOf w') (waiting w') s) →
  winv (done ++ [o]) w'.
Proof.
  intros [W1 W2 W3 W4 W5 W6 W7 W8 W9 W10] [F1 F2 F4 F5 F6 F7 F8 F9] Hh [Ks Ko] Hc. split; try done.
  - intros s x. rewrite F1 F2. intros Hx. destruct (W2 s x Hx) as (Ha & Hp & r & Hr & <-). destruct (Ko x r Hr Hp) as (Hp' & r' & Hr' & E & _).
    split_and!; [done|done|]. by exists r'.
  - intros s. rewrite F2. intros Hs. destruct (W3 s Hs) as [Hlt Hcov]. split; [lia|]. apply Hc; [by left|done].
  - intros x Hx. destruct (W4 x) as [Hp (r & Hr & Hna & Hco) (p & Hs & Hk) Htag]; [by eapply sublist_in|]. destruct (Ko x.2 r Hr Hp) as (Hp' & r' & Hr' & E & _). split; [done| | |].
    + exists r'. rewrite E F2. split_and!; [done|done|]. intros Hq. apply Hc; [right; by exists x, r|]. apply Hco.
      destruct (eq_stopped _) eqn:Es; [|done]. by rewrite F6 in Hq.
    + specialize (F5 x.1.1). destruct (rt_shards (w_tables w') !! x.1.1) as [p'|]; [|congruence]. destruct F5 as (p0 & Hp0 & Hsub & _).
      simplify_eq. exists p'. split; [done|]. intros y [Hy|[_ Hno]]%Hsub; [by apply Hk|done].
    + by apply tags_more.
  - eapply sublist_NoDup; [exact W5|]. by apply fmap_sublist.
  - intros i p' k x Hp' Hx. specialize (F5 i). rewrite Hp' in F5. destruct F5 as (p & Hp & Hsub & _).
    destruct (Hsub k x Hx) as [Hx'|[Ho _]]; [by eapply tags_more, (W6 i p k x)|by apply tags_new].
  - intros i p' Hp' Hst. specialize (F5 i). rewrite Hp' in F5. destruct F5 as (p & Hp & _ & [Hs|[? ?]]%(λ f, f Hst)); [|split; [done|by apply tags_new]].
    destruct (W7 i p Hp Hs) as [? ?]. split; [by apply F6|by apply tags_more].
Qed.

(** A step that answers requests of one table. *)
Lemma winv_answer done o w w' A R N A' :
  winv done w → frame done o w w' → waiting w ≡ₚ A ++ R → waiting w' ≡ₚ A' ++ R →
  answered (heapOf w) A R N (heapOf w') A' → winv (done ++ [o]) w'.
Proof.
  intros Hw Hf E E' Ha. pose proof (wi_heap _ _ Hw) as Hh. rewrite E in Hh.
  eapply winv_frame; [done|done| |apply Ha|]; [rewrite E'; apply Ha|].
  intros s _ Hc. eapply covered_perm; [symmetry; exact E'|]. eapply covered_answered; [done..|]. by eapply covered_perm.
Qed.

Lemma frame_same done o w w' :
  winv done w → w_clients w' = w_clients w → w_accepted w' = w_accepted w → w_started w' = w_started w →
  rt_shards (w_tables w') = rt_shards (w_tables w) → eq_stopped (rt_queue (w_tables w')) = eq_stopped (rt_queue (w_tables w)) →
  pr_requests (rt_reads (w_tables w')) = pr_requests (rt_reads (w_tables w)) → pr_stopped (rt_reads (w_tables w')) = pr_stopped (rt_reads (w_tables w)) →
  dom (pr_batches (rt_reads (w_tables w'))) ⊆ dom (pr_batches (rt_reads (w_tables w))) →
  frame done o w w'.
Proof.
  intros Hw ?? Es Hs Hq Hr1 Hr2 Hr3. split; try done.
  - by rewrite Es.
  - intros i. rewrite Hs. destruct (rt_shards (w_tables w) !! i) as [p|]; [|done]. exists p. split_and!; [done|by left|by left].
  - by rewrite Hq.
  - rewrite Hr1. apply (wi_queue _ _ Hw).
  - rewrite Hr1 Hr2. intros Hst. destruct (wi_reads _ _ Hw Hst) as (? & ? & ?). split_and!; [done|done|by apply tags_more].
  - intros ctx Hctx. by apply tags_more, (wi_contexts _ _ Hw), Hr3.
Qed.

(** The shard at [i] and the rest. *)
Lemma shards_focus (l : list proposalShard) i p :
  l !! i = Some p → ∃ R, (l ≫= shardWaiting) ≡ₚ shardWaiting p ++ R ∧ ∀ p', (<[i := p']> l ≫= shardWaiting) ≡ₚ shardWaiting p' ++ R.
Proof.
  intros Hi. exists ((take i l ++ drop (S i) l) ≫= shardWaiting). split.
  - rewrite -{1}(take_drop_middle _ _ _ Hi) bind_app /= bind_app. solve_Permutation.
  - intros p'. assert (i < length l)%nat by by eapply lookup_lt_Some. rewrite insert_take_drop // bind_app /= bind_app. solve_Permutation.
Qed.

Lemma waiting_shard w i p :
  rt_shards (w_tables w) !! i = Some p →
  ∃ R, waiting w ≡ₚ shardWaiting p ++ R ∧
    ∀ w' p', rt_shards (w_tables w') = <[i := p']> (rt_shards (w_tables w)) → w_hand w' = w_hand w → w_taken w' = w_taken w →
      readsWaiting (rt_reads (w_tables w')) = readsWaiting (rt_reads (w_tables w)) → rt_conf (w_tables w') = rt_conf (w_tables w) →
      rt_snap (w_tables w') = rt_snap (w_tables w) → w_lost w' = w_lost w → waiting w' ≡ₚ shardWaiting p' ++ R.
Proof.
  intros (R & H1 & H2)%shards_focus. eexists. split.
  - rewrite /waiting H1 -app_assoc. reflexivity.
  - intros w' p' Es E1 E2 E3 E4 E5 E6. by rewrite /waiting Es E1 E2 E3 E4 E5 E6 H2 -app_assoc.
Qed.

Lemma frame_shard done o w w' i p p' :
  winv done w → rt_shards (w_tables w) !! i = Some p →
  w_clients w' = w_clients w → w_accepted w' = w_accepted w → w_started w' = w_started w →
  rt_shards (w_tables w') = <[i := p']> (rt_shards (w_tables w)) → rt_reads (w_tables w') = rt_reads (w_tables w) →
  (eq_stopped (rt_queue (w_tables w)) = true → eq_stopped (rt_queue (w_tables w')) = true) →
  ps_pending p' ⊆ ps_pending p →
  (ps_stopped p' = true → ps_stopped p = true ∨ eq_stopped (rt_queue (w_tables w')) = true ∧ tagOf o = Some (TShard i)) →
  frame done o w w'.
Proof.
  intros Hw Hp ?? Es Hs Hr Hq Hsub Hst. split; try done; rewrite ?Hr.
  - by rewrite Es.
  - intros j. rewrite Hs. destruct (decide (i = j)) as [<-|].
    + rewrite list_lookup_insert_eq; [by eapply lookup_lt_Some|]. exists p. split_and!; [done| |done]. intros k x ?. left. by eapply lookup_weaken.
    + rewrite list_lookup_insert_ne //. destruct (rt_shards (w_tables w) !! j) as [p0|]; [|done]. exists p0. split_and!; [done|by left|by left].
  - apply (wi_queue _ _ Hw).
  - intros Hs'. destruct (wi_reads _ _ Hw Hs') as (? & ? & ?). split_and!; [done|done|by apply tags_more].
  - intros ctx Hctx. by apply tags_more, (wi_contexts _ _ Hw).
Qed.

(** ** The life of a request

    Where a request waits: in the shard of its key, with a thread that brings its
    result, in the queue of the reads, with the thread that took it from there, in
    the batch of a context with the index that was confirmed for it (0 before), or
    as the one configuration change or snapshot.  The last place is for reads that
    were taken from the queue when the table was closed. *)
Inductive place :=
| AtShard (key : Z)
| InHand (v : RequestResult)
| AtQueue
| AtTaken
| AtBatch (ctx : SystemCtx) (index : Z)
| AtConf
| AtSnap
| AtLost.

Definition located (w : world) (x : nat) (pl : place) : Prop :=
  match pl with
  | AtShard k => ∃ i p, rt_shards (w_tables w) !! i = Some p ∧ ps_stopped p = false ∧ ps_pending p !! k = Some x
  | InHand v => (x, v) ∈ w_hand w
  | AtQueue => pr_stopped (rt_reads (w_tables w)) = false ∧ x ∈ readsQueued (pr_requests (rt_reads (w_tables w)))
  | AtTaken => Some x ∈ w_taken w
  | AtBatch ctx index => pr_stopped (rt_reads (w_tables w)) = false ∧
      ∃ b, pr_batches (rt_reads (w_tables w)) !! ctx = Some b ∧ Some x ∈ rb_requests b ∧ rb_index b = index
  | AtConf => po_pending (rt_conf (w_tables w)) = Some x
  | AtSnap => po_pending (rt_snap (w_tables w)) = Some x
  | AtLost => x ∈ w_lost w
  end.

(** A request waits (its client, series and key, and its place), has its result, or
    was refused before its caller got an object. *)
Inductive stage := Waits (id : Z * Z * Z) (pl : place) | Answered (v : RequestResult) | Gone.
Definition idOf (r : RequestState) : Z * Z * Z := (rs_clientID r, rs_seriesID r, rs_key r).

Inductive stageOf (w : world) (s : nat) : stage → Prop :=
| of_waits x r pl : located w x pl → hp_objs (heapOf w) !! x = Some r → rs_serial r = s → stageOf w s (Waits (idOf r) pl)
| of_answered v : answersOf (heapOf w) s = [v] → stageOf w s (Answered v)
| of_gone :
    answersOf (heapOf w) s = [] → (s < hp_serial (heapOf w))%nat →
    (∀ x r, x ∈ waiting w → hp_objs (heapOf w) !! x = Some r → rs_serial r ≠ s) → stageOf w s Gone.

(** What a step may do to a request. *)
Inductive life : op → stage → stage → Prop :=
| life_stay o st : life o st st
| life_refused n id k : life (ProposeEnd n) (Waits id (AtShard k)) Gone
| life_applied c s k key res rejected :
    life (Applied c s k res rejected) (Waits (c, s, key) (AtShard k)) (Waits (c, s, key) (InHand (appliedResult res rejected)))
| life_dropped c s k key :
    life (Dropped c s k) (Waits (c, s, key) (AtShard k)) (Waits (c, s, key) (InHand (codeOnly requestDropped)))
| life_delivered n id v : life (Deliver n) (Waits id (InHand v)) (Answered v)
| life_late i id k : life (GcShard i) (Waits id (AtShard k)) (Answered (codeOnly requestTimeout))
| life_expired i id k : life (ExpireShard i) (Waits id (AtShard k)) (Answered (codeOnly requestTimeout))
| life_closed i id k : life (CloseShard i) (Waits id (AtShard k)) (Answered (codeOnly requestTerminated))
| life_taken id : life TakeReads (Waits id AtQueue) (Waits id AtTaken)
| life_batched ctx id : life (AddReads ctx) (Waits id AtTaken) (Waits id (AtBatch ctx 0))
| life_lost ctx id : life (AddReads ctx) (Waits id AtTaken) (Waits id AtLost)
| life_confirmed reads id r index :
    r ∈ reads → life (ReadsReady reads) (Waits id (AtBatch (rr_SystemCtx r) index)) (Waits id (AtBatch (rr_SystemCtx r) (rr_Index r)))
| life_readDropped ctx id index : life (ReadsDropped ctx) (Waits id (AtBatch ctx index)) (Answered (codeOnly requestDropped))
| life_read a id ctx index v :
    0 < index ≤ a → rr_code v = requestCompleted → life (ReadsApplied a) (Waits id (AtBatch ctx index)) (Answered v)
| life_readLate a id ctx index v : rr_code v = requestTimeout → life (ReadsApplied a) (Waits id (AtBatch ctx index)) (Answered v)
| life_queueClosed id : life CloseReads (Waits id AtQueue) (Answered (codeOnly requestTerminated))
| life_batchClosed id ctx index : life CloseReads (Waits id (AtBatch ctx index)) (Answered (codeOnly requestTerminated))
| life_confLate id : life ConfGc (Waits id AtConf) (Answered (codeOnly requestTimeout))
| life_confDropped c s key : life (ConfDropped key) (Waits (c, s, key) AtConf) (Answered (codeOnly requestDropped))
| life_confApplied c s key rejected :
    life (ConfApply key rejected) (Waits (c, s, key) AtConf) (Answered (codeOnly (if rejected then requestRejected else requestCompleted)))
| life_confClosed id : life CloseConf (Waits id AtConf) (Answered (codeOnly requestTerminated))
| life_snapLate id : life SnapGc (Waits id AtSnap) (Answered (codeOnly requestTimeout))
| life_snapApplied c s key ignored aborted index :
    life (SnapApply key ignored aborted index) (Waits (c, s, key) AtSnap)
      (Answered {| rr_code := if ignored then requestRejected else if aborted then requestAborted else requestCompleted;
                   rr_result := if ignored || aborted then noResult else {| res_Value := index; res_Data := None |};
                   rr_snapshotResult := true |})
| life_snapClosed id : life CloseSnap (Waits id AtSnap) (Answered (codeOnly requestTerminated)).

Definition lives (w : world) (o : op) (w' : world) : Prop := ∀ s st, stageOf w s st → ∃ st', life o st st' ∧ stageOf w' s st'.

Lemma elem_of_one {A} (x : A) (m : option A) : x ∈ option_list m ↔ m = Some x.
Proof. destruct m as [y|]; cbn; [rewrite list_elem_of_singleton; naive_solver|]. split; [by intros ?%elem_of_nil|done]. Qed.

(** The requests that wait are those that are somewhere. *)
Lemma waiting_located w x : x ∈ waiting w ↔ ∃ pl, located w x pl.
Proof.
  rewrite /waiting !elem_of_app list_elem_of_bind list_elem_of_fmap omap_id_elem /readsWaiting /oneWaiting !elem_of_one. split.
  - intros [(p & Hx & [i Hp]%list_elem_of_lookup)|[([y v] & -> & Hx)|[Hx|[Hx|[Hx|[Hx|Hx]]]]]].
    + rewrite /shardWaiting in Hx. destruct (ps_stopped p) eqn:Hs; [by apply elem_of_nil in Hx|].
      apply list_elem_of_fmap in Hx as ([k y] & -> & Hk%elem_of_map_to_list). exists (AtShard k), i, p. done.
    + by exists (InHand v).
    + destruct (pr_stopped _) eqn:Hs; [by apply elem_of_nil in Hx|]. apply elem_of_app in Hx as [Hx|(ctx & b & Hb & Hin)%elem_of_batchRequests].
      * by exists AtQueue.
      * exists (AtBatch ctx (rb_index b)). split; [done|]. by exists b.
    + by exists AtTaken.
    + by exists AtConf.
    + by exists AtSnap.
    + by exists AtLost.
  - intros [[k|v| | |ctx idx| | |] Hl]; cbn in Hl.
    + left. destruct Hl as (i & p & Hp & Hs & Hk). exists p. split; [|by eapply list_elem_of_lookup_2]. rewrite /shardWaiting Hs.
      apply list_elem_of_fmap. exists (k, x). split; [done|]. by apply elem_of_map_to_list.
    + right. left. by exists (x, v).
    + destruct Hl as [-> Hq]. set_solver.
    + tauto.
    + destruct Hl as (-> & b & Hb & Hin & _). do 2 right. left. apply elem_of_app. right. apply elem_of_batchRequests. by exists ctx, b.
    + tauto.
    + tauto.
    + tauto.
Qed.

(** What a step does to the objects, with the answers of [N]. *)
Record effect (w w' : world) (N : list (nat * RequestResult)) : Prop := {
  ef_told : told (heapOf w) N (heapOf w');
  ef_kept x r : x ∈ waiting w → hp_objs (heapOf w) !! x = Some r →
    ∃ r', hp_objs (heapOf w') !! x = Some r' ∧ rs_serial r' = rs_serial r ∧ idOf r' = idOf r;
  ef_old x r' : x ∈ waiting w' → hp_objs (heapOf w') !! x = Some r' → x ∈ waiting w ∨ rs_serial r' = hp_serial (heapOf w);
  ef_in : N.*1 ⊆ waiting w;
  ef_serial : (hp_serial (heapOf w) ≤ hp_serial (heapOf w'))%nat
}.

(** The places after a step, with the answers of [N]. *)
Definition placed (w : world) (o : op) (w' : world) (N : list (nat * RequestResult)) : Prop :=
  ∀ x pl r, located w x pl → hp_objs (heapOf w) !! x = Some r →
    (∃ v, (x, v) ∈ N ∧ life o (Waits (idOf r) pl) (Answered v)) ∨
    (∃ pl', located w' x pl' ∧ life o (Waits (idOf r) pl) (Waits (idOf r) pl')) ∨
    (N = [] ∧ x ∉ waiting w' ∧ life o (Waits (idOf r) pl) Gone).

Lemma placed_same w o w' N : (∀ x pl, located w x pl → located w' x pl) → placed w o w' N.
Proof. intros Hl x pl r Hx _. right. left. exists pl. split; [by apply Hl|constructor]. Qed.

Lemma lives_effect w o w' N : hinv (heapOf w) (waiting w) → effect w w' N → placed w o w' N → lives w o w'.
Proof.
  intros Hh [T K O I S] Hp s st Hst.
  assert (∀ s x' r', (s < hp_serial (heapOf w))%nat → x' ∈ waiting w' → hp_objs (heapOf w') !! x' = Some r' → rs_serial r' = s →
    ∃ r0, x' ∈ waiting w ∧ hp_objs (heapOf w) !! x' = Some r0 ∧ rs_serial r0 = s) as Hback.
  { intros s' x' r' Hlt Hx' Hr' Es. destruct (O x' r' Hx' Hr') as [Hx|]; [|lia]. destruct (hi_objs _ _ Hh x' Hx) as (r0 & Hr0 & _).
    destruct (K x' r0 Hx Hr0) as (r1 & Hr1 & Es1 & _). simplify_eq. by exists r0. }
  destruct Hst as [x r pl Hl Hr Es|v Hv|Hv Hlt Hno].
  - assert (x ∈ waiting w) as Hx by (apply waiting_located; by exists pl).
    destruct (Hp x pl r Hl Hr) as [(v & Hv & Hlife)|[(pl' & Hl' & Hlife)|(-> & Hx' & Hlife)]].
    + exists (Answered v). split; [done|]. constructor. rewrite -Es. by eapply (tl_given _ _ _ T).
    + destruct (K x r Hx Hr) as (r' & Hr' & Es' & Eid). exists (Waits (idOf r) pl'). split; [done|]. rewrite -Eid. econstructor; [done|done|congruence].
    + exists Gone. split; [done|]. destruct (hi_objs _ _ Hh x Hx) as (r0 & Hr0 & _ & _ & Ha). simplify_eq. destruct (hi_made _ _ Hh x r Hr) as [_ Hlt].
      constructor; [|lia|].
      * rewrite -Ha. destruct (tl_only _ _ _ T (rs_serial r)) as [->|(y & v & ? & Hy & _)]; [done|by apply elem_of_nil in Hy].
      * intros x' r' Hx'' Hr'' Es''. destruct (Hback _ x' r' Hlt Hx'' Hr'' Es'') as (r0 & _ & Hr0' & E).
        assert (x' = x) as -> by (by eapply (hi_serial _ _ Hh)). done.
  - exists (Answered v). split; [constructor|]. constructor. destruct (tl_only _ _ _ T s) as [->|(y & u & st & Hy & Hy2 & <- & _)]; [done|].
    destruct (hi_objs _ _ Hh y) as (r0 & Hr0 & _ & _ & Ha); [apply I, list_elem_of_fmap; by exists (y, u)|]. simplify_eq. congruence.
  - exists Gone. split; [constructor|]. constructor; [|lia|].
    + destruct (tl_only _ _ _ T s) as [->|(y & u & st & Hy & Hy2 & <- & _)]; [done|]. exfalso. eapply (Hno y); [|done|done].
      apply I, list_elem_of_fmap. by exists (y, u).
    + intros x' r' Hx' Hr' Es'. destruct (Hback _ x' r' Hlt Hx' Hr' Es') as (r0 & Hx0 & Hr0 & E). by eapply Hno.
Qed.

Lemma effect_answered w w' A R N A' :
  hinv (heapOf w) (waiting w) → waiting w ≡ₚ A ++ R → waiting w' ≡ₚ A' ++ R → answered (heapOf w) A R N (heapOf w') A' → effect w w' N.
Proof.
  intros Hh E E' [I K P T S]. split; [done| | | |apply K].
  - intros x r Hx Hr. destruct (waiting_kept _ _ _ _ Hh K Hx) as (st & st1 & ? & ? & ? & ? & ? & ? & ?). simplify_eq. exists st1. rewrite /idOf. split_and!; congruence.
  - intros x r' Hx _. left. rewrite E S. rewrite E' in Hx. set_solver.
  - rewrite E S. set_solver.
Qed.

Lemma effect_quiet w w' :
  hinv (heapOf w) (waiting w) → keeps (heapOf w) (heapOf w') → (∀ s, answersOf (heapOf w') s = answersOf (heapOf w) s) →
  (∀ x r, x ∈ waiting w' → hp_objs (heapOf w') !! x = Some r → x ∈ waiting w ∨ rs_serial r = hp_serial (heapOf w)) → effect w w' [].
Proof.
  intros Hh K A O. split; [|  |done|set_solver|apply K].
  - split; [by intros ??? ?%elem_of_nil|]. intros s. left. apply A.
  - intros x r Hx Hr. destruct (waiting_kept _ _ _ _ Hh K Hx) as (st & st1 & ? & ? & ? & ? & ? & ? & ?). simplify_eq. exists st1. rewrite /idOf. split_and!; congruence.
Qed.
