(* ===== verification/RequestSteps.v ===== *)
(** * The steps of the pending requests

    Every step of the runs of RequestRuns goes through from a state in order, leaves
    one, and does to each request what [life] says. *)
From stdpp Require Import pretty.
From Stdlib Require Import Ascii.
From S2P Require Import Prelude GoStrings Wire Errors Raftpb RaftLog Raft RaftPeer RsmSession RsmMachine Request RequestHeap RequestRuns.

Local Open Scope string_scope.
Local Open Scope list_scope.
Local Open Scope Z_scope.

(** A step that keeps the invariant, and what it does to each request is in [life]. *)
Record stepTo (done : list op) (o : op) (w w' : world) : Prop := {
  to_inv : winv (done ++ [o]) w';
  to_lives : lives w o w'
}.

(** The request is still at its place. *)
Ltac stays Hl :=
  right; left; match type of Hl with located _ _ ?pl => exists pl; split; [exact Hl|apply life_stay] end.

(** ** Steps in general *)
Section steps.
Context `{Snappy}.

Definition stepOk (done : list op) (w : world) (o : op) : Prop :=
  winv done w → NoDup (tags (done ++ [o])) → sane o → ∃ w', exec w o = Some w' ∧ stepTo done o w w'.

Lemma step_answer done o w w' A R N A' :
  winv done w → frame done o w w' → waiting w ≡ₚ A ++ R → waiting w' ≡ₚ A' ++ R →
  answered (heapOf w) A R N (heapOf w') A' → placed w o w' N → stepTo done o w w'.
Proof.
  intros Hw Hf E E' Ha Hp. split; [by eapply winv_answer|]. pose proof (wi_heap _ _ Hw). eapply lives_effect; [done| |done]. by eapply effect_answered.
Qed.

(** A step that leaves the heap and what waits as they are. *)
Lemma winv_same done o w w' :
  winv done w → frame done o w w' → heapOf w' = heapOf w → waiting w' ≡ₚ waiting w → winv (done ++ [o]) w'.
Proof.
  intros Hw Hf Eh E. eapply winv_frame; [done|done|rewrite Eh E; apply Hw|by rewrite Eh|].
  intros s _ Hs. rewrite Eh. by eapply covered_perm.
Qed.

Lemma step_same done o w w' :
  winv done w → frame done o w w' → heapOf w' = heapOf w → waiting w' ≡ₚ waiting w → placed w o w' [] → stepTo done o w w'.
Proof.
  intros Hw Hf Eh E Hp. split; [by eapply winv_same|]. pose proof (wi_heap _ _ Hw). eapply lives_effect; [done| |done].
  apply effect_quiet; [done|by rewrite Eh|by rewrite Eh|]. intros x r Hx _. left. by rewrite -E.
Qed.

Lemma step_tags done o w : winv done w → stepTo done o w w.
Proof. intros Hw. by apply (step_same done o w); [done|apply (frame_same done)|..|apply placed_same]. Qed.

(** *** Proposals in their shard *)
Lemma map_to_list_key (m : gmap Z nat) k1 k2 x : NoDup (map_to_list m).*2 → m !! k1 = Some x → m !! k2 = Some x → k1 = k2.
Proof.
  intros Hnd H1 H2. destruct (decide (k1 = k2)) as [|Hne]; [done|]. exfalso. rewrite -(map_to_list_delete _ _ _ H1) fmap_cons NoDup_cons in Hnd.
  destruct Hnd as [Hno _]. apply Hno, list_elem_of_fmap. exists (k2, x). split; [done|]. apply elem_of_map_to_list. by rewrite lookup_delete_ne.
Qed.

Lemma shard_key p p' k x :
  NoDup (shardWaiting p) → ps_pending p' ⊆ ps_pending p → ps_stopped p = false → ps_stopped p' = ps_stopped p →
  ps_pending p !! k = Some x → x ∈ shardWaiting p' → ps_pending p' !! k = Some x.
Proof.
  intros Hnd Hsub Hs Hs' Hk. rewrite /shardWaiting Hs' Hs. intros ([k' y] & -> & Hk'%elem_of_map_to_list)%list_elem_of_fmap. cbn.
  rewrite /shardWaiting Hs in Hnd. by rewrite (map_to_list_key _ k k' y Hnd Hk (lookup_weaken _ _ _ _ Hk' Hsub)).
Qed.

(** The places, when one shard changes. *)
Lemma placed_shard w o w' i p p' N :
  rt_shards (w_tables w) !! i = Some p → rt_shards (w_tables w') = <[i := p']> (rt_shards (w_tables w)) → w_hand w ⊆ w_hand w' → w_taken w' = w_taken w →
  rt_reads (w_tables w') = rt_reads (w_tables w) → rt_conf (w_tables w') = rt_conf (w_tables w) → rt_snap (w_tables w') = rt_snap (w_tables w) →
  w_lost w' = w_lost w →
  (∀ x k r, ps_stopped p = false → ps_pending p !! k = Some x → hp_objs (heapOf w) !! x = Some r →
     (∃ v, (x, v) ∈ N ∧ life o (Waits (idOf r) (AtShard k)) (Answered v)) ∨
     (ps_stopped p' = false ∧ ps_pending p' !! k = Some x) ∨
     (∃ v, (x, v) ∈ w_hand w' ∧ life o (Waits (idOf r) (AtShard k)) (Waits (idOf r) (InHand v))) ∨
     (N = [] ∧ x ∉ waiting w' ∧ life o (Waits (idOf r) (AtShard k)) Gone)) →
  placed w o w' N.
Proof.
  intros Hp Es Eh Et Er Ec En El Hsh x pl r Hl Hr. assert (i < length (rt_shards (w_tables w)))%nat as Hlt by by eapply lookup_lt_Some.
  destruct pl as [k|v| | |ctx idx| | |]; cbn in Hl; try (right; left; eexists; split; [|constructor]; cbn; rewrite ?Et ?Er ?Ec ?En ?El; by eauto).
  destruct Hl as (j & q & Hj & Hs & Hk). destruct (decide (i = j)) as [<-|Hne].
  - simplify_eq. destruct (Hsh x k r Hs Hk Hr) as [?|[[? ?]|[(v & ? & ?)|?]]]; [by left| |right; left; by exists (InHand v)|by do 2 right].
    right. left. exists (AtShard k). split; [|constructor]. exists i, p'. rewrite Es list_lookup_insert_eq //.
  - right. left. exists (AtShard k). split; [|constructor]. exists j, q. rewrite Es list_lookup_insert_ne //.
Qed.

Lemma execShard_ok done o w i f :
  (∀ p L, hinv (heapOf w) (shardWaiting p ++ L) → ∃ h' p' N, f p = Some (h', p') ∧
     answered (heapOf w) (shardWaiting p) L N h' (shardWaiting p') ∧ ps_pending p' ⊆ ps_pending p ∧ ps_stopped p' = ps_stopped p ∧
     Forall (λ y, ∀ id k, life o (Waits id (AtShard k)) (Answered y.2)) N) →
  winv done w → ∃ w', execShard w i f = Some w' ∧ stepTo done o w w'.
Proof.
  intros Hf Hw. rewrite /execShard. destruct (rt_shards (w_tables w) !! i) as [p|] eqn:Hp; [|exists w; split; [done|by apply step_tags]].
  destruct (waiting_shard w i p Hp) as (R & E & E'). pose proof (wi_heap _ _ Hw) as Hh. rewrite E in Hh.
  destruct (Hf p R Hh) as (h' & p' & N & -> & Ha & Hsub & Hst & HN). cbn. eexists. split; [done|].
  eapply (step_answer done o w _ _ R N); [done| |done|by apply E'|exact Ha|].
  - eapply (frame_shard done o w _ i p p'); try done. left. congruence.
  - eapply (placed_shard _ _ _ i p p'); try done. intros x k r Hs Hk Hr. pose proof (hi_waiting _ _ Hh) as (Hnd & _)%NoDup_app.
    assert (x ∈ shardWaiting p) as Hx by (rewrite /shardWaiting Hs; apply list_elem_of_fmap; exists (k, x); split; [done|by apply elem_of_map_to_list]).
    rewrite (an_split _ _ _ _ _ _ Ha) elem_of_app in Hx. destruct Hx as [([y v] & -> & Hv)%list_elem_of_fmap|Hx].
    + left. exists v. rewrite Forall_forall in HN. split; [done|]. by apply (HN _ Hv).
    + right. left. split; [congruence|]. by eapply shard_key.
Qed.

Lemma gc_ok done w i : stepOk done w (GcShard i).
Proof.
  intros Hw _ _. apply execShard_ok; [|done]. intros p L Hh.
  destruct (gcAtShard_answers (heapOf w) p (lc_ltick (ps_clock p)) L Hh) as (h' & p' & N & ? & ? & ? & ? & _ & _ & HN & _). exists h', p', N.
  split_and!; [done..|]. eapply Forall_impl; [exact HN|]. intros [y v] ->. constructor.
Qed.

Lemma expire_ok done w i : stepOk done w (ExpireShard i).
Proof.
  intros Hw _ _. apply execShard_ok; [|done]. intros p L Hh. rewrite /expireShard.
  case_match; [exists (heapOf w), p, []; by split_and!; [|apply answered_none|..]|].
  destruct (gcAtShard_answers (heapOf w) p (lc_ltick (ps_clock p)) L Hh) as (h' & p' & N & -> & ? & ? & ? & _ & _ & HN & _). cbn.
  exists h', (p' <| ps_expireNotified := lc_ltick (ps_clock p) |>), N. split_and!; [done..|]. eapply Forall_impl; [exact HN|]. intros [y v] ->. constructor.
Qed.

Lemma NoDup_tag done o x : NoDup (tags (done ++ [o])) → tagOf o = Some x → x ∉ tags done.
Proof. rewrite omap_app. intros (_ & Hd & _)%NoDup_app Ho Hx. apply (Hd x Hx). cbn. rewrite Ho. by left. Qed.

Lemma closeShard_ok done w i : stepOk done w (CloseShard i).
Proof.
  intros Hw Hnd _. cbn. destruct (rt_shards (w_tables w) !! i) as [p|] eqn:Hp; [|exists w; split; [done|by apply step_tags]].
  assert (ps_stopped p = false) as Hs.
  { destruct (ps_stopped p) eqn:Hs; [|done]. destruct (wi_stopped _ _ Hw i p Hp Hs) as [_ Ht]. by apply (NoDup_tag done (CloseShard i)) in Ht. }
  destruct (waiting_shard w i p Hp) as (R & E & E'). pose proof (wi_heap _ _ Hw) as Hh. rewrite E in Hh.
  destruct (closeShard_answers (heapOf w) (rt_queue (w_tables w)) p R Hs Hh) as (h' & N & -> & Ha & HN). cbn. eexists. split; [done|].
  eapply (step_answer done _ w _ _ R N); [done| |done|by apply (E' _ (p <| ps_stopped := true |>))|exact Ha|].
  - eapply (frame_shard done _ w _ i p (p <| ps_stopped := true |>)); try done. by right.
  - eapply (placed_shard _ _ _ i p (p <| ps_stopped := true |>)); try done. intros x k r _ Hk _. left.
    assert (x ∈ shardWaiting p) as Hx by (rewrite /shardWaiting Hs; apply list_elem_of_fmap; exists (k, x); split; [done|by apply elem_of_map_to_list]).
    rewrite (an_split _ _ _ _ _ _ Ha) app_nil_r in Hx. apply list_elem_of_fmap in Hx as ([y v] & -> & Hv). exists v. split; [done|].
    rewrite Forall_forall in HN. specialize (HN _ Hv). cbn in HN. rewrite HN. constructor.
Qed.

Lemma execTake_ok done o w c s k v :
  (∀ key, life o (Waits (c, s, key) (AtShard k)) (Waits (c, s, key) (InHand v))) → winv done w → ∃ w', execTake w c s k v = Some w' ∧ stepTo done o w w'.
Proof.
  intros Hlife Hw. rewrite /execTake. set (i := shardOfKey _ k). destruct (rt_shards (w_tables w) !! i) as [p|] eqn:Hp;
    [|exists w; split; [done|by apply step_tags]].
  destruct (takeProposal _ _ _ _ _ _ _) as [p' x] eqn:Et. apply takeProposal_moves in Et as (Hmove & Hsub & Hst & Htook).
  eexists. split; [done|]. eapply (step_same done o w); [done| |done| |].
  - eapply (frame_shard done o w _ i p p'); try done. left. congruence.
  - destruct (shards_focus _ _ _ Hp) as (R & E & E'). rewrite /waiting /set_shard. proj_simpl. rewrite (E' p') E Hmove fmap_app.
    destruct x; cbn; solve_Permutation.
  - eapply (placed_shard _ _ _ i p p'); try done; [rewrite /set_shard; proj_simpl; set_solver|]. intros y k' r Hs Hk Hr. right.
    pose proof (wi_heap _ _ Hw) as Hh. destruct (waiting_shard w i p Hp) as (R & E & _). rewrite E in Hh.
    pose proof (hi_waiting _ _ Hh) as (Hnd & _)%NoDup_app.
    assert (y ∈ shardWaiting p) as Hy by (rewrite /shardWaiting Hs; apply list_elem_of_fmap; exists (k', y); split; [done|by apply elem_of_map_to_list]).
    pose proof Hy as Hy'. rewrite Hmove elem_of_app elem_of_one in Hy. destruct Hy as [-> |Hy]; [|left; split; [congruence|by eapply shard_key]].
    destruct (Htook y eq_refl) as (Hk2 & _ & r' & Hr' & <- & <-). simplify_eq. right. left. exists v. split; [rewrite /set_shard; proj_simpl; set_solver|].
    assert (k' = k) as ->; [|apply Hlife]. eapply (map_to_list_key (ps_pending p)); [|exact Hk|exact Hk2]. by rewrite /shardWaiting Hs in Hnd.
Qed.

Lemma take_drop_lookup {A} (l : list A) k x : l !! k = Some x → l ≡ₚ x :: take k l ++ drop (S k) l.
Proof. intros Hk. rewrite -{1}(take_drop_middle _ _ _ Hk). by rewrite -Permutation_middle. Qed.

Lemma deliver_ok done w k : stepOk done w (Deliver k).
Proof.
  intros Hw _ _. cbn. destruct (w_hand w !! k) as [[x v]|] eqn:Hk; [|exists w; split; [done|by apply step_tags]].
  set (R := (rt_shards (w_tables w) ≫= shardWaiting) ++ (take k (w_hand w) ++ drop (S k) (w_hand w)).*1 ++
    readsWaiting (rt_reads (w_tables w)) ++ omap id (w_taken w) ++ oneWaiting (rt_conf (w_tables w)) ++ oneWaiting (rt_snap (w_tables w)) ++
    w_lost w).
  assert (waiting w ≡ₚ [x] ++ R) as E.
  { rewrite /waiting /R {1}(take_drop_lookup _ _ _ Hk) fmap_cons. cbn. solve_Permutation. }
  pose proof (wi_heap _ _ Hw) as Hh. rewrite E in Hh. destruct (answer_one _ x v _ Hh) as (h' & -> & Ha). cbn. eexists. split; [done|].
  eapply (step_answer done _ w _ _ R _ []); [done|by apply (frame_same done)|exact E|done|exact Ha|]. intros y pl r Hl Hr.
  destruct pl as [k'|u| | |ctx idx| | |]; try stays Hl.
  change ((y, u) ∈ w_hand w) in Hl. rewrite (take_drop_lookup _ _ _ Hk) in Hl. apply elem_of_cons in Hl as [[= -> ->]|Hl].
  - left. exists v. split; [by left|constructor].
  - right. left. exists (InHand u). split; [exact Hl|constructor].
Qed.

Lemma takeEntries_ok done w paused : stepOk done w (TakeEntries paused).
Proof.
  intros Hw _ _. eexists. split; [done|]. eapply (step_same done); [done| |done|done|by apply placed_same]. apply (frame_same done); try done.
  proj_simpl. rewrite /getEntries. cbn. proj_simpl. rewrite /gcEntries. repeat case_match; try done; rewrite /writeEntries; by case_match.
Qed.

Lemma tick_ok done w t : stepOk done w (Tick t).
Proof.
  intros Hw _ _. eexists. split; [done|]. eapply (step_same done); [done| |done| |].
  - split; try done; proj_simpl; rewrite /tickTables; proj_simpl.
    + intros i. rewrite list_lookup_fmap. destruct (rt_shards (w_tables w) !! i) as [p|]; [|done]. cbn. exists p. split_and!; [done|by left|by left].
    + apply (wi_queue _ _ Hw).
    + intros Hs. destruct (wi_reads _ _ Hw Hs) as (? & ? & ?). split_and!; [done|done|by apply tags_more].
    + intros ctx Hctx. by apply tags_more, (wi_contexts _ _ Hw).
  - assert (∀ l, ((λ p, tickShard p t) <$> l) ≫= shardWaiting = l ≫= shardWaiting) as Hl.
    { induction l as [|p l IH]; [done|]. cbn. by rewrite IH. }
    by rewrite /waiting /tickTables; proj_simpl; rewrite Hl.
  - intros x pl r Hl _. destruct pl as [k|v| | |ctx idx| | |]; try stays Hl. destruct Hl as (i & p & Hp & ? & ?). right. left. exists (AtShard k).
    split; [|constructor]. exists i, (tickShard p t). rewrite /tickTables. proj_simpl. by rewrite list_lookup_fmap Hp.
Qed.

(** *** Reads *)
Lemma waiting_reads w :
  ∃ R, waiting w ≡ₚ readsWaiting (rt_reads (w_tables w)) ++ R ∧
    ∀ w', rt_shards (w_tables w') = rt_shards (w_tables w) → w_hand w' = w_hand w → w_taken w' = w_taken w →
      rt_conf (w_tables w') = rt_conf (w_tables w) → rt_snap (w_tables w') = rt_snap (w_tables w) → w_lost w' = w_lost w →
      waiting w' ≡ₚ readsWaiting (rt_reads (w_tables w')) ++ R.
Proof.
  exists ((rt_shards (w_tables w) ≫= shardWaiting) ++ (w_hand w).*1 ++ omap id (w_taken w) ++ oneWaiting (rt_conf (w_tables w)) ++
    oneWaiting (rt_snap (w_tables w)) ++ w_lost w). split.
  - rewrite /waiting. solve_Permutation.
  - intros w' E1 E2 E3 E4 E5 E6. rewrite /waiting E1 E2 E3 E4 E5 E6. solve_Permutation.
Qed.

Lemma execReads_ok done o w f :
  (∀ L, hinv (heapOf w) (readsWaiting (rt_reads (w_tables w)) ++ L) →
     ∃ h' p' N, f = Some (h', p') ∧ answered (heapOf w) (readsWaiting (rt_reads (w_tables w))) L N h' (readsWaiting p') ∧
       pr_requests p' = pr_requests (rt_reads (w_tables w)) ∧ pr_stopped p' = pr_stopped (rt_reads (w_tables w)) ∧
       batchesFrom (pr_batches (rt_reads (w_tables w))) (pr_batches p') ∧
       ∀ x v, (x, v) ∈ N → ∃ ctx b, pr_batches (rt_reads (w_tables w)) !! ctx = Some b ∧ Some x ∈ rb_requests b ∧
         ∀ id, life o (Waits id (AtBatch ctx (rb_index b))) (Answered v)) →
  winv done w → ∃ w', execReads w f = Some w' ∧ stepTo done o w w'.
Proof.
  intros Hf Hw. destruct (waiting_reads w) as (R & E & E'). pose proof (wi_heap _ _ Hw) as Hh. rewrite E in Hh.
  destruct (Hf R Hh) as (h' & p' & N & -> & Ha & H1 & H2 & H3 & HN). eexists. split; [done|].
  eapply (step_answer done o w _ _ R N); [done| |done|by apply E'|exact Ha|]; [apply (frame_same done); try done; by apply batchesFrom_dom|].
  intros x pl r Hl Hr. pose proof (hi_waiting _ _ Hh) as (Hnd & _)%NoDup_app. destruct pl as [k|v| | |ctx idx| | |]; try stays Hl.
  - right. left. exists AtQueue. split; [|constructor]. destruct Hl as [? ?]. split; rewrite /set_reads; proj_simpl; congruence.
  - destruct Hl as (Hs & b & Hb & Hin & <-). rewrite /readsWaiting Hs in Hnd. apply NoDup_app in Hnd as (_ & Hqb & Hnb).
    assert (x ∈ readsWaiting (rt_reads (w_tables w))) as Hx.
    { rewrite /readsWaiting Hs elem_of_app elem_of_batchRequests. right. by exists ctx, b. }
    rewrite (an_split _ _ _ _ _ _ Ha) elem_of_app in Hx. destruct Hx as [([y v] & -> & Hv)%list_elem_of_fmap|Hx].
    + destruct (HN _ _ Hv) as (c & b' & Hb' & Hin' & Hlife). destruct (batch_unique _ _ _ _ _ _ Hnb Hb Hb' Hin Hin') as [<- <-]. left. by exists v.
    + rewrite /readsWaiting H2 Hs H1 elem_of_app elem_of_batchRequests in Hx. destruct Hx as [Hq|(c & b' & Hb' & Hin')].
      { exfalso. apply (Hqb x Hq). apply elem_of_batchRequests. by exists ctx, b. }
      destruct (H3 c b' Hb') as (b0 & Hb0 & Ei & Hsub). destruct (batch_unique _ _ _ _ _ _ Hnb Hb Hb0 Hin (Hsub x Hin')) as [<- <-].
      right. left. exists (AtBatch ctx (rb_index b)). split; [|constructor]. split; [rewrite /set_reads; proj_simpl; congruence|]. by exists b'.
Qed.

Lemma readsDropped_ok done w ctx : stepOk done w (ReadsDropped ctx).
Proof.
  intros Hw _ _. apply execReads_ok; [|done]. intros L Hh.
  destruct (droppedReads_answers _ _ ctx L Hh) as (h' & p' & N & ? & ? & ? & ? & ? & HN). exists h', p', N.
  split_and!; [done..|]. intros x v Hv. destruct (HN x v Hv) as [-> (b & ? & ?)]. exists ctx, b. split_and!; [done..|constructor].
Qed.

Lemma readsApplied_ok done w a : stepOk done w (ReadsApplied a).
Proof.
  intros Hw _ _. apply execReads_ok; [|done]. intros L Hh.
  destruct (appliedReads_answers _ _ a L Hh) as (h' & p' & N & ? & ? & ? & ? & ? & HN). exists h', p', N. split_and!; [done..|].
  intros x v Hv. destruct (HN x v Hv) as (ctx & b & ? & ? & [[? ?]|?]); exists ctx, b; split_and!; [done|done| |done|done|];
    intros id; [by apply life_read|by apply life_readLate].
Qed.

Lemma addReady_batch reads (m : gmap SystemCtx readBatch) ctx b :
  m !! ctx = Some b →
  ∃ b', foldl (λ m v, alter (λ rb, mkBatch (rr_Index v) (rb_requests rb)) (rr_SystemCtx v) m) m reads !! ctx = Some b' ∧ rb_requests b' = rb_requests b ∧
    (rb_index b' = rb_index b ∨ ∃ r, r ∈ reads ∧ rr_SystemCtx r = ctx ∧ rr_Index r = rb_index b').
Proof.
  revert m b. induction reads as [|v reads IH]; intros m b Hb; [exists b; by auto|]. cbn [foldl].
  destruct (decide (rr_SystemCtx v = ctx)) as [<-|Hne].
  - destruct (IH (alter (λ rb, mkBatch (rr_Index v) (rb_requests rb)) (rr_SystemCtx v) m) (mkBatch (rr_Index v) (rb_requests b))) as (b' & ? & ? & Hi);
      [by rewrite lookup_alter_eq Hb|]. exists b'. split_and!; [done|done|]. right. destruct Hi as [->|(r & ? & ? & ?)]; [exists v|exists r]; set_solver.
  - destruct (IH (alter (λ rb, mkBatch (rr_Index v) (rb_requests rb)) (rr_SystemCtx v) m) b) as (b' & ? & ? & Hi); [by rewrite lookup_alter_ne|].
    exists b'. split_and!; [done|done|]. destruct Hi as [?|(r & ? & ? & ?)]; [by left|right; exists r; set_solver].
Qed.

Lemma readsReady_ok done w reads : stepOk done w (ReadsReady reads).
Proof.
  intros Hw _ _. eexists. split; [done|]. destruct (waiting_reads w) as (R & E & E'). eapply (step_same done); [done| |done| |].
  - apply (frame_same done); try done. rewrite /set_reads /addReady. proj_simpl. generalize (pr_batches (rt_reads (w_tables w))).
    induction reads as [|v reads IH]; intros m; [done|]. cbn. etransitivity; [apply IH|]. by rewrite dom_alter_L.
  - rewrite E' // E /set_reads. proj_simpl. by rewrite addReady_waiting.
  - intros x pl r Hl _. destruct pl as [k|v| | |ctx idx| | |]; try stays Hl. destruct Hl as (Hs & b & Hb & Hin & <-). right. left.
    destruct (addReady_batch reads _ _ _ Hb) as (b' & Hb' & Er & Hi). exists (AtBatch ctx (rb_index b')). split.
    + split; [done|]. exists b'. rewrite Er. split_and!; [exact Hb'|done|done].
    + destruct Hi as [->|(v & Hv & <- & <-)]; [constructor|by apply life_confirmed].
Qed.

Lemma closeReads_ok done w : stepOk done w CloseReads.
Proof.
  intros Hw Hnd _. cbn [exec]. assert (pr_stopped (rt_reads (w_tables w)) = false) as Hs.
  { destruct (pr_stopped _) eqn:Hs; [|done]. destruct (wi_reads _ _ Hw Hs) as (_ & _ & Ht). by apply (NoDup_tag done CloseReads) in Ht. }
  destruct (waiting_reads w) as (R & E & E'). pose proof (wi_heap _ _ Hw) as Hh. rewrite E in Hh.
  destruct (closeReads_answers _ _ R Hs (wi_queue _ _ Hw) Hh) as (h' & p' & N & -> & Ha & H1 & H2 & H3 & H4 & H5 & HN).
  eexists. split; [done|]. eapply (step_answer done _ w _ _ R N []); [done| |exact E| |exact Ha|].
  - split; try done; rewrite /set_reads /set_heap; proj_simpl.
    + intros i. destruct (rt_shards (w_tables w) !! i) as [p|]; [|done]. exists p. split_and!; [done|by left|by left].
    + intros _. split_and!; [done|done|]. rewrite omap_app. set_solver.
    + intros ctx. rewrite H5. intros ?. by apply tags_more, (wi_contexts _ _ Hw).
  - rewrite E' //. rewrite /set_reads. proj_simpl. by rewrite /readsWaiting H1.
  - intros x pl r Hl _. assert (x ∈ readsWaiting (rt_reads (w_tables w)) → ∃ v, (x, v) ∈ N ∧ v = codeOnly requestTerminated) as Hx.
    { rewrite (an_split _ _ _ _ _ _ Ha) app_nil_r. intros ([y v] & -> & Hv)%list_elem_of_fmap. exists v. rewrite Forall_forall in HN.
      split; [done|exact (HN _ Hv)]. }
    destruct pl as [k|v| | |ctx idx| | |]; try stays Hl; rewrite /readsWaiting Hs elem_of_app elem_of_batchRequests in Hx; left.
    + destruct Hx as (v & ? & ->); [left; apply Hl|]. eexists. split; [done|constructor].
    + destruct Hl as (_ & b & ? & ? & _). destruct Hx as (v & ? & ->); [right; by exists ctx, b|]. eexists. split; [done|constructor].
Qed.

Lemma takeReads_ok done w : stepOk done w TakeReads.
Proof.
  intros Hw _ _. cbn [exec]. case_bool_decide as Ht; [|exists w; split; [done|by apply step_tags]].
  destruct (getReads _) as [q reqs] eqn:E. apply getReads_queued in E as (Hq1 & Hq2 & Hq3 & Hq4); [|apply (wi_queue _ _ Hw)].
  eexists. split; [done|]. eapply (step_same done); [done| |done| |].
  - split; try done; rewrite /set_reads; proj_simpl.
    + intros i. destruct (rt_shards (w_tables w) !! i) as [p|]; [|done]. exists p. split_and!; [done|by left|by left].
    + intros Hs. destruct (wi_reads _ _ Hw Hs) as (? & ? & ?). rewrite Hq2. split_and!; [done|done|by apply tags_more].
    + intros ctx ?. by apply tags_more, (wi_contexts _ _ Hw).
  - rewrite /waiting /set_reads /readsWaiting. proj_simpl. rewrite Hq3 Hq4 Ht. destruct (pr_stopped _) eqn:Hs; [|solve_Permutation].
    destruct (wi_reads _ _ Hw Hs) as (_ & -> & _). done.
  - intros x pl r Hl _. destruct pl as [k|v| | |ctx idx| | |]; try stays Hl.
    + right. left. exists AtTaken. split; [|constructor]. destruct Hl as [_ Hl]. rewrite -Hq3 in Hl. by apply omap_id_elem.
    + cbn in Hl. rewrite Ht in Hl. by apply elem_of_nil in Hl.
Qed.

Lemma addReads_ok done w ctx : stepOk done w (AddReads ctx).
Proof.
  intros Hw Hnd _. cbn. case_bool_decide as Ht; [exists w; split; [done|by apply step_tags]|]. rewrite /addReads.
  destruct (pr_stopped (rt_reads (w_tables w))) eqn:Hs.
  - eexists. split; [done|]. eapply (step_same done); [done|by apply (frame_same done)|done| |].
    + rewrite /waiting /set_reads. proj_simpl. cbn. solve_Permutation.
    + intros x pl r Hl _. destruct pl as [k|v| | |c idx| | |]; try stays Hl; right; left; exists AtLost; (split; [|constructor]); cbn; proj_simpl.
      * apply elem_of_app. right. by apply omap_id_elem.
      * apply elem_of_app. by left.
  - assert (pr_batches (rt_reads (w_tables w)) !! ctx = None) as Hnew.
    { apply not_elem_of_dom. intros Hc%(wi_contexts _ _ Hw). by apply (NoDup_tag done (AddReads ctx)) in Hc. }
    rewrite bool_decide_eq_false_2; [by rewrite Hnew; intros []|].
    eexists. split; [done|]. eapply (step_same done); [done| |done| |].
    + split; try done; rewrite /set_reads; proj_simpl.
      * intros i. destruct (rt_shards (w_tables w) !! i) as [p|]; [|done]. exists p. split_and!; [done|by left|by left].
      * apply (wi_queue _ _ Hw).
      * congruence.
      * intros c. rewrite dom_insert elem_of_union elem_of_singleton. intros [->|Hc]; [rewrite omap_app; set_solver|].
        by apply tags_more, (wi_contexts _ _ Hw).
    + rewrite /waiting /set_reads /readsWaiting. proj_simpl. rewrite Hs batchRequests_insert; [exact Hnew|cbn; solve_Permutation].
    + intros x pl r Hl _. destruct pl as [k|v| | |c idx| | |]; try stays Hl; right; left.
      * exists (AtBatch ctx 0). split; [|constructor]. split; [exact Hs|]. eexists. split; [apply lookup_insert_eq|done].
      * exists (AtBatch c idx). split; [|constructor]. destruct Hl as (_ & b & Hb & ?). split; [exact Hs|]. exists b. split; [|done].
        rewrite lookup_insert_ne; [congruence|done].
Qed.

(** *** New requests *)
Lemma covered_keeps h L h2 s :
  hinv h L → keeps h h2 → (∀ s, answersOf h2 s = answersOf h s) → covered h L s → covered h2 L s.
Proof.
  intros Hh K A [Hl|(o' & r & Ho & Hr & Es)]; [left; by rewrite A|right].
  destruct (waiting_kept _ _ _ _ Hh K Ho) as (st & st1 & ? & E1 & Eq & _); simplify_eq. by exists o', st1.
Qed.

Lemma covered_more h L L' s : L ⊆ L' → covered h L s → covered h L' s.
Proof. intros Hsub [?|(o & r & Ho & ?)]; [by left|right]. exists o, r. split; [by apply Hsub|done]. Qed.

(** The caller gets an object that waits or is answered. *)
Lemma winv_accept done w o r :
  winv done w → hp_objs (heapOf w) !! o = Some r → o ∉ hp_pool (heapOf w) → covered (heapOf w) (waiting w) (rs_serial r) →
  (∀ x, x ∈ w_started w → x.2 ≠ o) → winv done (accept w o).
Proof.
  intros Hw Hr Hp Hc Hne. pose proof Hw as [W1 W2 W3 W4 W5 W6 W7 W8 W9 W10].
  assert (serialOf (heapOf w) o = rs_serial r) as Es by by rewrite /serialOf Hr. rewrite /accept Es. split; try done.
  - intros s x. proj_simpl. rewrite lookup_insert. case_decide as E.
    + intros [= <-]. split_and!; [set_solver|done|]. exists r. by subst.
    + intros (? & ? & ?)%W2. split_and!; [set_solver|done..].
  - intros s. proj_simpl. rewrite elem_of_app list_elem_of_singleton. intros [Hs| ->]; [by apply W3|]. split; [|done]. by apply (hi_made _ _ W1 o).
  - intros x Hx. destruct (W4 x Hx) as [S1 (r' & Hr' & Hna & Hco) S3 S4]. split; [done| |done|done]. exists r'. proj_simpl. split_and!; [done| |done].
    rewrite elem_of_app list_elem_of_singleton. intros [?|E]; [done|]. apply (Hne x Hx). by eapply (hi_serial _ _ W1).
Qed.

Lemma lives_accept w o w1 r : lives w o w1 → lives w o (acceptResult w1 r).
Proof.
  intros Hl s st (st' & Hlife & Hst)%Hl. exists st'. split; [done|]. destruct r as [x|]; [|done].
  destruct Hst as [y r pl|v|]; [by eapply (of_waits _ _ y r)|by apply of_answered|by apply of_gone].
Qed.

(** A new object. *)
Lemma lives_new w o w1 upto x :
  hinv (heapOf w) (waiting w) → newObject upto (heapOf w) (waiting w) (heapOf w1) x → waiting w1 ⊆ x :: waiting w → placed w o w1 [] → lives w o w1.
Proof.
  intros Hh [I K A P New (r & Hr & Es)] Hsub Hp. eapply lives_effect; [done| |done]. apply effect_quiet; [done..|].
  intros y r' [->|Hy]%Hsub%elem_of_cons Hr'; [right|by left]. congruence.
Qed.

(** A new request that is accepted, or refused after its object was taken. *)
Lemma winv_new done o w w1 upto x :
  winv done w → frame done o w w1 → newObject upto (heapOf w) (waiting w) (heapOf w1) x → waiting w1 ≡ₚ x :: waiting w →
  winv (done ++ [o]) (accept w1 x).
Proof.
  intros Hw Hf Hx E. pose proof (wi_heap _ _ Hw) as Hh. pose proof Hx as [I K A P New (r & Hr & Es)].
  assert (winv (done ++ [o]) w1) as Hw1.
  { eapply winv_frame; [done|done|by rewrite E|done|]. intros s _ Hs. eapply covered_perm; [by symmetry|]. by eapply covered_new. }
  eapply winv_accept; [done|done|done| |].
  - right. exists x, (upto r). split_and!; [rewrite E; by left|done|done].
  - intros y Hy. eapply sublist_in in Hy; [|exact (fr_started _ _ _ _ Hf)]. destruct (wi_started _ _ Hw y Hy) as [Hyp (ry & Hry & _) _ _]. intros <-.
    apply Hyp, New. by exists ry.
Qed.

Lemma winv_refused done o w w1 upto x :
  winv done w → frame done o w w1 → newObject upto (heapOf w) (waiting w) (heapOf w1) x → waiting w1 ≡ₚ waiting w →
  winv (done ++ [o]) w1.
Proof.
  intros Hw Hf [I K A P New _] E. pose proof (wi_heap _ _ Hw) as Hh. eapply winv_frame; [done|done| |done|].
  - rewrite E. by apply (hinv_drop _ [x]).
  - intros s _ Hs. eapply covered_perm; [by symmetry|]. by eapply covered_keeps.
Qed.

Lemma step_new done o w w1 upto x :
  winv done w → frame done o w w1 → newObject upto (heapOf w) (waiting w) (heapOf w1) x → waiting w1 ≡ₚ x :: waiting w →
  placed w o w1 [] → stepTo done o w (accept w1 x).
Proof.
  intros Hw Hf Hx E Hp. split; [by eapply winv_new|]. apply (lives_accept _ _ _ (Ok x)). eapply lives_new; [apply Hw|done|by rewrite E|done].
Qed.

Lemma step_refused done o w w1 upto x :
  winv done w → frame done o w w1 → newObject upto (heapOf w) (waiting w) (heapOf w1) x → waiting w1 ≡ₚ waiting w →
  placed w o w1 [] → stepTo done o w w1.
Proof.
  intros Hw Hf Hx E Hp. split; [by eapply winv_refused|]. eapply lives_new; [apply Hw|done|rewrite E; set_solver|done].
Qed.

Lemma readRequest_ok done w tk pick : stepOk done w (ReadRequest tk pick).
Proof.
  intros Hw _ _. cbn [exec]. rewrite /readRequest. case_match.
  { eexists. split; [done|]. cbn. by apply (step_same done (ReadRequest tk pick) w); [|apply (frame_same done)|..|apply placed_same]. }
  assert (is_Some (poolGet (heapOf w) pick false)) as [[h1 x] Hget].
  { rewrite /poolGet. case_match eqn:Hp; [|done]. destruct (hi_pooled _ _ (wi_heap _ _ Hw) _ (list_elem_of_lookup_2 _ _ _ Hp)) as (_ & r & -> & _). done. }
  rewrite Hget /=. match goal with |- context [setRS h1 x ?f] => pose proof (get_object f) as Hnew end.
  specialize (Hnew ltac:(intros [???????? [[]|]]; done) _ _ _ _ _ _ (wi_heap _ _ Hw) Hget).
  destruct (addRead (pr_requests (rt_reads (w_tables w))) x) as [q [ok closed]] eqn:Ha.
  apply addRead_queued in Ha as (Hq1 & Hq2 & Hq3 & Hq4 & Hq5); [|apply (wi_queue _ _ Hw)]. cbn. eexists. split; [done|].
  set (w1 := set_reads _ _).
  assert (frame done (ReadRequest tk pick) w w1) as Hf.
  { split; try done; rewrite /w1 /set_reads /set_heap; proj_simpl.
    - intros i. destruct (rt_shards (w_tables w) !! i) as [p|]; [|done]. exists p. split_and!; [done|by left|by left].
    - intros Hs. destruct (wi_reads _ _ Hw Hs) as (E1 & E2 & ?). rewrite Hq2 Hq5 E2. split_and!; [done| |by apply tags_more].
      destruct ok; [|done]. destruct (Hq4 eq_refl). congruence.
    - intros ctx ?. by apply tags_more, (wi_contexts _ _ Hw). }
  assert (readsWaiting (rt_reads (w_tables w1)) ≡ₚ (if ok then [x] else []) ++ readsWaiting (rt_reads (w_tables w))) as Hr.
  { rewrite /w1 /set_reads /set_heap /readsWaiting. proj_simpl. rewrite Hq5. destruct (pr_stopped _) eqn:Hs; [|solve_Permutation].
    destruct ok; [|done]. destruct (wi_reads _ _ Hw Hs) as (? & _). destruct (Hq4 eq_refl). congruence. }
  assert (placed w (ReadRequest tk pick) w1 []) as Hpl.
  { intros y pl r Hl _. destruct pl as [k|v| | |ctx idx| | |]; try stays Hl. right. left. exists AtQueue. split; [|constructor].
    destruct Hl as [? ?]. split; rewrite /w1 /set_reads; proj_simpl; [done|]. rewrite Hq5 elem_of_app. by left. }
  destruct (waiting_reads w) as (R & E & E'). rewrite -/w1. destruct ok.
  - destruct (Hq4 eq_refl) as [-> _]. cbn. eapply step_new; [done|done|exact Hnew| |done]. rewrite (E' w1) // Hr E. done.
  - assert (acceptResult w1 (if closed then Err ErrClusterClosed else Err ErrSystemBusy) = w1) as -> by by destruct closed.
    eapply step_refused; [done|done|exact Hnew| |done]. rewrite (E' w1) // Hr E. done.
Qed.

(** *** Configuration changes and snapshots *)
Definition confRest (w : world) : list nat :=
  (rt_shards (w_tables w) ≫= shardWaiting) ++ (w_hand w).*1 ++ readsWaiting (rt_reads (w_tables w)) ++ omap id (w_taken w) ++
  oneWaiting (rt_snap (w_tables w)) ++ w_lost w.
Definition snapRest (w : world) : list nat :=
  (rt_shards (w_tables w) ≫= shardWaiting) ++ (w_hand w).*1 ++ readsWaiting (rt_reads (w_tables w)) ++ omap id (w_taken w) ++
  oneWaiting (rt_conf (w_tables w)) ++ w_lost w.
Lemma waiting_conf w : waiting w ≡ₚ oneWaiting (rt_conf (w_tables w)) ++ confRest w.
Proof. rewrite /waiting /confRest. solve_Permutation. Qed.
Lemma waiting_snap w : waiting w ≡ₚ oneWaiting (rt_snap (w_tables w)) ++ snapRest w.
Proof. rewrite /waiting /snapRest. solve_Permutation. Qed.

Lemma execConf_ok done o w says res :
  (∀ L, hinv (heapOf w) (oneWaiting (rt_conf (w_tables w)) ++ L) → oneStep (heapOf w) (rt_conf (w_tables w)) L says res) →
  (∀ r v, says r v → life o (Waits (idOf r) AtConf) (Answered v)) →
  winv done w → ∃ w', execConf w res = Some w' ∧ stepTo done o w w'.
Proof.
  intros Hf Hlife Hw. pose proof (wi_heap _ _ Hw) as Hh. rewrite waiting_conf in Hh. destruct (Hf _ Hh) as (h' & p' & N & -> & Ha & HN).
  eexists. split; [done|].
  eapply (step_answer done o w _ _ (confRest w) N (oneWaiting p')); [done|by apply (frame_same done)|apply waiting_conf|by rewrite waiting_conf|exact Ha|].
  intros x pl r Hl Hr. destruct pl as [k|v| | |ctx idx| | |]; try stays Hl. apply elem_of_one in Hl. fold (oneWaiting (rt_conf (w_tables w))) in Hl.
  rewrite (an_split _ _ _ _ _ _ Ha) elem_of_app elem_of_one in Hl. destruct Hl as [([y v] & -> & Hv)%list_elem_of_fmap|Hl].
  - left. exists v. destruct (HN _ _ Hv) as (r' & Hr' & Hsay). cbn in Hr. simplify_eq. split; [done|by apply Hlife].
  - right. left. exists AtConf. split; [done|constructor].
Qed.

Lemma execSnap_ok done o w says res :
  (∀ L, hinv (heapOf w) (oneWaiting (rt_snap (w_tables w)) ++ L) → oneStep (heapOf w) (rt_snap (w_tables w)) L says res) →
  (∀ r v, says r v → life o (Waits (idOf r) AtSnap) (Answered v)) →
  winv done w → ∃ w', execSnap w res = Some w' ∧ stepTo done o w w'.
Proof.
  intros Hf Hlife Hw. pose proof (wi_heap _ _ Hw) as Hh. rewrite waiting_snap in Hh. destruct (Hf _ Hh) as (h' & p' & N & -> & Ha & HN).
  eexists. split; [done|].
  eapply (step_answer done o w _ _ (snapRest w) N (oneWaiting p')); [done|by apply (frame_same done)|apply waiting_snap|by rewrite waiting_snap|exact Ha|].
  intros x pl r Hl Hr. destruct pl as [k|v| | |ctx idx| | |]; try stays Hl. apply elem_of_one in Hl. fold (oneWaiting (rt_snap (w_tables w))) in Hl.
  rewrite (an_split _ _ _ _ _ _ Ha) elem_of_app elem_of_one in Hl. destruct Hl as [([y v] & -> & Hv)%list_elem_of_fmap|Hl].
  - left. exists v. destruct (HN _ _ Hv) as (r' & Hr' & Hsay). cbn in Hr. simplify_eq. split; [done|by apply Hlife].
  - right. left. exists AtSnap. split; [done|constructor].
Qed.

Lemma conf_ok done w o :
  match o with ConfGc | ConfDropped _ | ConfApply _ _ | CloseConf => True | _ => False end → stepOk done w o.
Proof.
  destruct o; try done; intros _ Hw _ _.
  - eapply execConf_ok; [intros L Hh; by apply gcOne_step| |done]. intros r v ->. constructor.
  - eapply execConf_ok; [intros L Hh; by apply answerOne_step| |done]. intros r v [<- ->]. constructor.
  - eapply execConf_ok; [intros L Hh; by apply answerOne_step| |done]. intros r v [<- ->]. constructor.
  - eapply execConf_ok; [intros L Hh; by apply closeOne_step| |done]. intros r v ->. constructor.
Qed.

Lemma snap_ok done w o :
  match o with SnapGc | SnapApply _ _ _ _ | CloseSnap => True | _ => False end → stepOk done w o.
Proof.
  destruct o; try done; intros _ Hw _ Hsane.
  - eapply execSnap_ok; [intros L Hh; by apply gcOne_step| |done]. intros r v ->. constructor.
  - eapply execSnap_ok; [intros L Hh| |done]; [rewrite /applySnapshotTable; cbn in Hsane; rewrite Hsane; by apply answerOne_step|].
    intros r v [<- ->]. constructor.
  - eapply execSnap_ok; [intros L Hh; by apply closeOne_step| |done]. intros r v ->. constructor.
Qed.

Lemma newObject_perm upto h L L' h2 o : L ≡ₚ L' → newObject upto h L h2 o → newObject upto h L' h2 o.
Proof. intros E [? ? ? ? ? ?]. split; try done. by rewrite -E. Qed.

Lemma confRequest_ok done w cc key tk : stepOk done w (ConfRequest cc key tk).
Proof.
  intros Hw _ _. cbn [exec]. destruct (requestConfigChangeTable _ _ _ _ _) as [[h1 p] r] eqn:E. eexists. split; [done|].
  pose proof (wi_heap _ _ Hw) as Hh. rewrite waiting_conf in Hh. apply (requestOne_step _ _ _ _ _ _ _ _ _ Hh) in E. destruct r as [x|e].
  - destruct E as (Hn & Hp & Hnew). assert (waiting w ≡ₚ confRest w) as Ew by by rewrite waiting_conf /oneWaiting Hn.
    cbn. eapply step_new; [done| |by eapply newObject_perm| |]; [by apply (frame_same done)| |].
    + rewrite waiting_conf Ew. proj_simpl. by rewrite Hp.
    + intros y pl r Hl _. destruct pl as [k|v| | |ctx idx| | |]; try stays Hl. cbn in Hl. congruence.
  - destruct E as [-> ->]. cbn. eapply (step_same done _ w); [done|by apply (frame_same done)|done|by rewrite !waiting_conf|by apply placed_same].
Qed.

Lemma snapRequest_ok done w ex path ov oh key tk : stepOk done w (SnapRequest ex path ov oh key tk).
Proof.
  intros Hw _ _. cbn [exec]. destruct (requestSnapshotTable _ _ _ _ _ _ _ _) as [[h1 p] r] eqn:E. eexists. split; [done|].
  pose proof (wi_heap _ _ Hw) as Hh. rewrite waiting_snap in Hh. apply (requestOne_step _ _ _ _ _ _ _ _ _ Hh) in E. destruct r as [x|e].
  - destruct E as (Hn & Hp & Hnew). assert (waiting w ≡ₚ snapRest w) as Ew by by rewrite waiting_snap /oneWaiting Hn.
    cbn. eapply step_new; [done| |by eapply newObject_perm| |]; [by apply (frame_same done)| |].
    + rewrite waiting_snap Ew. proj_simpl. by rewrite Hp.
    + intros y pl r Hl _. destruct pl as [k|v| | |ctx idx| | |]; try stays Hl. cbn in Hl. congruence.
  - destruct E as [-> ->]. cbn. eapply (step_same done _ w); [done|by apply (frame_same done)|done|by rewrite !waiting_snap|by apply placed_same].
Qed.

Lemma takeOne_pending {R} (p : pendingOne R) : po_pending (takeOne p).1 = po_pending p.
Proof. rewrite /takeOne. by destruct (po_channel p). Qed.

Lemma oneTake_ok done w o : o = ConfTake ∨ o = SnapTake → stepOk done w o.
Proof.
  intros Ho Hw _ _. destruct Ho as [-> | ->]; (eexists; split; [done|]); (eapply (step_same done _ w); [done|by apply (frame_same done)|done| |]).
  - rewrite !waiting_conf. proj_simpl. by rewrite /oneWaiting takeOne_pending.
  - intros y pl r Hl _. destruct pl as [k|v| | |ctx idx| | |]; try stays Hl. right. left. exists AtConf. cbn. proj_simpl. rewrite takeOne_pending.
    split; [done|constructor].
  - rewrite !waiting_snap. proj_simpl. by rewrite /oneWaiting takeOne_pending.
  - intros y pl r Hl _. destruct pl as [k|v| | |ctx idx| | |]; try stays Hl. right. left. exists AtSnap. cbn. proj_simpl. rewrite takeOne_pending.
    split; [done|constructor].
Qed.

(** *** Proposals *)
Lemma payload_made ct cmd :
  (MaxBlockLen ct <? Z.of_nat (length cmd)) = false →
  is_Some (if bool_decide (cmd = []) then Some (ApplicationEntry, []) else b ← GetEncoded ct cmd; Some (EncodedEntry, b)).
Proof.
  intros Hb. case_bool_decide as Hc; [done|]. rewrite /GetEncoded bool_decide_eq_false_2 // /getEncoded. destruct ct; [done|]. by rewrite Hb.
Qed.

Lemma poolGet_made h L pick nc : hinv h L → is_Some (poolGet h pick nc).
Proof.
  intros Hh. rewrite /poolGet. case_match eqn:Hp; [|done].
  destruct (hi_pooled _ _ Hh _ (list_elem_of_lookup_2 _ _ _ Hp)) as (_ & r & -> & _). done.
Qed.

(** The outcome of [proposeBegin], from a heap in order. *)
Lemma proposeBegin_new h p session cmd key tk pick L :
  hinv h L →
  (∃ e, proposeBegin h p session cmd key tk pick = Some (Err e)) ∨
  ∃ h2 entry x upto, proposeBegin h p session cmd key tk pick = Some (Ok (h2, p <| ps_pending ::= <[key := x]> |>, entry, x)) ∧
    newObject upto h L h2 x ∧ e_Key entry = key ∧
    ∃ r, hp_objs h2 !! x = Some r ∧ rs_clientID r = cs_ClientID session ∧ rs_seriesID r = cs_SeriesID session ∧ rs_key r = key ∧
      rs_deadline r = u64 (lc_ltick (ps_clock p) + tk).
Proof.
  intros Hh. rewrite /proposeBegin. case_match; [left; by eexists|]. destruct (MaxBlockLen (ps_ct p) <? _) eqn:Hb; [left; by eexists|].
  right. destruct (payload_made _ _ Hb) as [[type payload] ->]. cbn [mbind option_bind].
  destruct (poolGet_made h L pick (ps_notifyCommit p) Hh) as [[h1 x] Hget]. rewrite Hget. cbn [mbind option_bind].
  match goal with |- context [setRS h1 x ?f] => pose proof (get_object f) as Hnew; set (upto := f) in * end.
  specialize (Hnew ltac:(intros [???????? [[]|]]; done) _ _ _ _ _ _ Hh Hget). eexists _, _, x, upto. split; [done|]. split; [exact Hnew|]. split; [done|].
  destruct Hnew as [_ _ _ _ _ (r & Hr & _)]. exists (upto r). split_and!; [exact Hr|done..].
Qed.

Lemma winv_start done w x r :
  winv done w → x.2 ∉ hp_pool (heapOf w) → hp_objs (heapOf w) !! x.2 = Some r → rs_serial r ∉ w_accepted w →
  (eq_stopped (rt_queue (w_tables w)) = false → covered (heapOf w) (waiting w) (rs_serial r)) →
  (∃ p, rt_shards (w_tables w) !! x.1.1 = Some p ∧ ∀ y, ps_pending p !! e_Key x.1.2 = Some y → y = x.2) →
  TKey (e_Key x.1.2) ∈ tags done → x.2 ∉ (w_started w).*2 → winv done (w <| w_started ::= λ l, l ++ [x] |>).
Proof.
  intros [W1 W2 W3 W4 W5 W6 W7 W8 W9 W10] Hp Hr Hna Hc Hs Hk Hd. split; try done; proj_simpl.
  - intros y [Hy| ->%list_elem_of_singleton]%elem_of_app; [by destruct (W4 y Hy)|]. split; [done| |done|done]. by exists r.
  - rewrite fmap_app. apply NoDup_app. split_and!; [done| |apply NoDup_singleton]. set_solver.
Qed.

Lemma lives_started w o w1 l : lives w o w1 → lives w o (w1 <| w_started := l |>).
Proof.
  intros Hl s st (st' & Hlife & Hst)%Hl. exists st'. split; [done|].
  destruct Hst as [y r pl|v|]; [by eapply (of_waits _ _ y r)|by apply of_answered|by apply of_gone].
Qed.

Lemma proposeBegin_ok done w session cmd key tk pick : stepOk done w (ProposeBegin session cmd key tk pick).
Proof.
  intros Hw Hnd _. cbn [exec]. set (i := shardOfKey _ key). destruct (rt_shards (w_tables w) !! i) as [p|] eqn:Hp;
    [|exists w; split; [done|by apply step_tags]].
  pose proof (wi_heap _ _ Hw) as Hh.
  destruct (proposeBegin_new (heapOf w) p session cmd key tk pick _ Hh) as [[e ->]|(h2 & entry & x & upto & -> & Hnew & Hk & _)];
    [exists w; split; [done|by apply step_tags]|].
  cbn [mbind option_bind]. eexists. split; [done|]. set (p1 := p <| ps_pending ::= <[key := x]> |>).
  set (w1 := set_shard (set_heap w h2) i p1). pose proof (NoDup_tag done _ _ Hnd eq_refl) as Hfresh.
  pose proof Hnew as [I K A P New (r & Hr & Es)].
  assert (ps_pending p !! key = None) as Hpk by (apply eq_None_not_Some; intros [y Hy]; by apply Hfresh, (wi_keys _ _ Hw i p key y)).
  assert (i < length (rt_shards (w_tables w)))%nat as Hlt by by eapply lookup_lt_Some.
  assert (rt_shards (w_tables w1) !! i = Some p1) as Hp1 by (rewrite /w1 /set_shard /set_heap; proj_simpl; by rewrite list_lookup_insert_eq).
  assert (frame done (ProposeBegin session cmd key tk pick) w w1) as Hf.
  { split; try done; rewrite /w1 /set_shard /set_heap; proj_simpl.
    - intros j. destruct (decide (i = j)) as [<-|].
      + rewrite list_lookup_insert_eq //. exists p. split_and!; [done| |by left]. intros k y. rewrite /p1. proj_simpl. rewrite lookup_insert.
        case_decide as E; [|by left]. subst. by right.
      + rewrite list_lookup_insert_ne //. destruct (rt_shards (w_tables w) !! j) as [p0|]; [|done]. exists p0. split_and!; [done|by left|by left].
    - apply (wi_queue _ _ Hw).
    - intros Hs. destruct (wi_reads _ _ Hw Hs) as (? & ? & ?). split_and!; [done|done|by apply tags_more].
    - intros ctx ?. by apply tags_more, (wi_contexts _ _ Hw). }
  assert (waiting w1 ≡ₚ (if ps_stopped p then [] else [x]) ++ waiting w) as Ew.
  { destruct (waiting_shard w i p Hp) as (R & E & E'). rewrite (E' w1 p1) // E /p1 /shardWaiting. proj_simpl. destruct (ps_stopped p); [done|].
    rewrite map_to_list_insert //. }
  assert (winv (done ++ [ProposeBegin session cmd key tk pick]) w1) as Hw1.
  { destruct (ps_stopped p); [by eapply (winv_refused _ _ w)|]. eapply winv_frame; [done|done|by rewrite Ew|done|]. intros s _ Hs.
    eapply covered_perm; [by symmetry|]. by eapply covered_new. }
  assert (placed w (ProposeBegin session cmd key tk pick) w1 []) as Hpl.
  { eapply (placed_shard _ _ _ i p p1); try done. intros y k r' Hs Hy _. right. left. split; [done|]. rewrite /p1. proj_simpl.
    rewrite lookup_insert_ne //. congruence. }
  split; [|eapply lives_started, (lives_new _ _ w1); [done|exact Hnew|rewrite Ew; by destruct (ps_stopped p); set_solver|done]].
  eapply (winv_start _ w1 (i, entry, x) (upto r)); [done|done|done| | | | |].
  - intros [Hbad _]%(wi_accepted _ _ Hw). rewrite Es in Hbad. lia.
  - intros Hq. right. exists x, (upto r). split_and!; [|done|done]. rewrite Ew. destruct (ps_stopped p) eqn:Hs; [|by left].
    destruct (wi_stopped _ _ Hw i p Hp Hs) as [Hq' _]. exfalso. change (eq_stopped (rt_queue (w_tables w)) = false) in Hq. congruence.
  - exists p1. split; [done|]. cbn [fst snd]. rewrite Hk. intros y. rewrite /p1. proj_simpl. rewrite lookup_insert_eq. by intros [= ->].
  - cbn [fst snd]. rewrite Hk. by apply tags_new.
  - cbn [snd]. intros ([[j e] y] & -> & Hy)%list_elem_of_fmap. destruct (wi_started _ _ Hw _ Hy) as [Hyp (ry & Hry & _) _ _]. apply Hyp, New. by exists ry.
Qed.

Lemma addEntry_stopped q e q' added stopped :
  addEntry q e = (q', (added, stopped)) →
  eq_stopped q' = eq_stopped q ∧ (added = true → stopped = false ∧ eq_stopped q = false) ∧ (added = false → stopped = eq_stopped q ∧ q' = q).
Proof.
  rewrite /addEntry. case_match; [by intros [= <- <- <-]|]. destruct (eq_stopped q) eqn:Hs; [by intros [= <- <- <-]|]. intros [= <- <- <-].
  split; [|done]. rewrite /writeEntries. case_match; by proj_simpl.
Qed.

(** A request leaves the waiting ones without an answer: nobody has been promised
    one. *)
Lemma covered_without h L o r s :
  hinv h (o :: L) → hp_objs h !! o = Some r → s ≠ rs_serial r → covered h (o :: L) s → covered h L s.
Proof.
  intros Hh Hr Hne [?|(o' & r' & [->|Ho]%elem_of_cons & Hr' & Es)]; [by left| |right; by exists o', r']. congruence.
Qed.

Lemma sublist_without {A} (l : list A) k : take k l ++ drop (S k) l `sublist_of` l.
Proof.
  revert k. induction l as [|x l IH]; intros [|k]; cbn; [done|done|by apply sublist_cons|]. by apply sublist_skip.
Qed.

Lemma started_without (l : list (nat * Entry * nat)) k x y :
  NoDup l.*2 → l !! k = Some x → y ∈ take k l ++ drop (S k) l → y.2 ≠ x.2.
Proof.
  intros Hnd Hk Hy E. rewrite (take_drop_lookup _ _ _ Hk) fmap_cons NoDup_cons in Hnd. destruct Hnd as [Hno _]. apply Hno.
  rewrite -E. apply list_elem_of_fmap. by exists y.
Qed.

Lemma proposeEnd_ok done w k : stepOk done w (ProposeEnd k).
Proof.
  intros Hw _ _. cbn [exec]. destruct (w_started w !! k) as [[[i entry] x]|] eqn:Hk; [|exists w; split; [done|by apply step_tags]].
  assert ((i, entry, x) ∈ w_started w) as Hin by by eapply list_elem_of_lookup_2.
  destruct (wi_started _ _ Hw _ Hin) as [Hpool (r & Hr & Hna & Hco) (p & Hp & Hpend) Htag]. cbn [fst snd] in *. rewrite Hp /proposeEnd.
  pose proof (wi_heap _ _ Hw) as Hh. assert (i < length (rt_shards (w_tables w)))%nat as Hlt by by eapply lookup_lt_Some.
  destruct (addEntry (rt_queue (w_tables w)) entry) as [q [added stopped]] eqn:E. apply addEntry_stopped in E as (Hq & Hadd & Hnot).
  destruct added.
  - destruct (Hadd eq_refl) as [-> Hopen]. cbn. eexists. split; [done|]. set (w1 := _ <| w_started ::= _ |>).
    assert (rt_shards (w_tables w1) = rt_shards (w_tables w)) as Hs1 by (rewrite /w1 /set_shard; proj_simpl; by rewrite list_insert_id).
    assert (waiting w1 = waiting w) as Ew by (rewrite /waiting Hs1; done).
    assert (stepTo done (ProposeEnd k) w w1) as [Hw1 Hl1].
    { apply (step_same done _ w); [done| |done|by rewrite Ew|apply placed_same; intros y pl; destruct pl; by rewrite /located ?Hs1]. split; try done.
      - apply sublist_without.
      - intros j. rewrite Hs1. destruct (rt_shards (w_tables w) !! j) as [p0|]; [|done]. exists p0. split_and!; [done|by left|by left].
      - intros Hst. rewrite /w1. proj_simpl. congruence.
      - apply (wi_queue _ _ Hw).
      - intros Hs. destruct (wi_reads _ _ Hw Hs) as (? & ? & ?). split_and!; [done|done|by apply tags_more].
      - intros ctx ?. by apply tags_more, (wi_contexts _ _ Hw). }
    split; [|by apply (lives_accept _ _ _ (Ok x))]. eapply (winv_accept _ w1 x r); [done|done|done|rewrite Ew; by apply Hco|].
    intros y Hy. by eapply (started_without _ _ _ _ (wi_distinct _ _ Hw) Hk) in Hy.
  - destruct (Hnot eq_refl) as [-> ->]. set (p1 := p <| ps_pending ::= delete (e_Key entry) |>).
    set (w1 := ((set_shard w i p1) <| w_tables ::= λ t, t <| rt_queue := rt_queue (w_tables w) |> |>) <| w_started ::= λ l, take k l ++ drop (S k) l |>).
    exists w1. split; [by destruct (eq_stopped _)|].
    assert (frame done (ProposeEnd k) w w1) as Hf.
    { split; try done; rewrite /w1 /set_shard; proj_simpl.
      - apply sublist_without.
      - intros j. destruct (decide (i = j)) as [<-|].
        + rewrite list_lookup_insert_eq //. exists p. split_and!; [done| |by left]. intros k' y. rewrite /p1. proj_simpl. rewrite lookup_delete_Some.
          intros [_ ?]. by left.
        + rewrite list_lookup_insert_ne //. destruct (rt_shards (w_tables w) !! j) as [p0|]; [|done]. exists p0. split_and!; [done|by left|by left].
      - apply (wi_queue _ _ Hw).
      - intros Hs. destruct (wi_reads _ _ Hw Hs) as (? & ? & ?). split_and!; [done|done|by apply tags_more].
      - intros ctx ?. by apply tags_more, (wi_contexts _ _ Hw). }
    assert ((waiting w ≡ₚ waiting w1 ∧ (ps_stopped p = true ∨ ps_pending p !! e_Key entry = None)) ∨ waiting w ≡ₚ x :: waiting w1) as [[Ew Hno]|Ew].
    { destruct (waiting_shard w i p Hp) as (R & E1 & E2). rewrite E1 (E2 w1 p1) // /p1 /shardWaiting. proj_simpl. destruct (ps_stopped p); [by left; auto|].
      destruct (ps_pending p !! e_Key entry) as [y|] eqn:Hy.
      - right. pose proof (Hpend y eq_refl) as ->. by rewrite -(map_to_list_delete _ _ _ Hy).
      - left. split; [by rewrite delete_id|by right]. }
    + apply (step_same done _ w); [done..|]. eapply (placed_shard _ _ _ i p p1); try done. intros y k' r' Hs Hy _. right. left.
      split; [done|]. rewrite /p1. proj_simpl. rewrite lookup_delete_ne //. intros <-. destruct Hno; congruence.
    + assert (hinv (heapOf w) (x :: waiting w1)) as Hh1 by by rewrite -Ew. pose proof (hi_waiting _ _ Hh1) as [Hx _]%NoDup_cons. split.
      2: { eapply lives_effect; [done|apply effect_quiet; [done|done|done|]; intros y ry Hy _; left; rewrite Ew; by right|].
        eapply (placed_shard _ _ _ i p p1); try done. intros y k' r' Hs Hy _. destruct (decide (k' = e_Key entry)) as [->|Hne].
        - rewrite (Hpend y Hy). do 3 right. split_and!; [done|done|constructor].
        - right. left. split; [done|]. rewrite /p1. proj_simpl. by rewrite lookup_delete_ne. }
      eapply winv_frame; [done|done|by apply (hinv_drop _ [x])|done|].
      intros s Hs Hcov. eapply covered_without; [done|done| |by eapply covered_perm]. intros ->. destruct Hs as [?|(y & ry & Hy & Hry & Es)]; [done|].
      eapply (started_without _ _ _ _ (wi_distinct _ _ Hw) Hk); [exact Hy|]. by eapply (hi_serial _ _ Hh).
Qed.

(** *** Callers *)
Lemma receive_ok done w s : stepOk done w (Receive s).
Proof.
  intros Hw _ _. cbn [exec]. destruct (w_clients w !! s) as [x|] eqn:Hx; [|exists w; split; [done|by apply step_tags]].
  destruct (wi_clients _ _ Hw s x Hx) as (_ & _ & r & Hr & _). pose proof (wi_heap _ _ Hw) as Hh.
  destruct (receive_object _ _ _ _ Hh Hr) as (h1 & v & -> & Hh1 & K & P & A). eexists. split; [done|].
  split; [|eapply lives_effect; [done|apply effect_quiet; [done|done|done|by left]|by apply placed_same]].
  eapply winv_frame; [done|by apply (frame_same done)|exact Hh1|done|]. intros s' _ Hs'. by apply (covered_keeps (heapOf w) (waiting w) h1).
Qed.

Lemma release_ok done w s : stepOk done w (Release s).
Proof.
  intros Hw _ _. cbn [exec]. destruct (w_clients w !! s) as [x|] eqn:Hx; [|exists w; split; [done|by apply step_tags]].
  destruct (wi_clients _ _ Hw s x Hx) as (Hacc & Hp & r & Hr & Es). pose proof Hw as [W1 W2 W3 W4 W5 W6 W7 W8 W9 W10].
  destruct (release_object _ _ _ _ W1 Hr Hp) as (h1 & -> & Hh1 & Hser & A & Hother & r1 & Hr1 & Es1 & Hr1'). eexists. split; [done|].
  assert (∀ L s', covered (heapOf w) L s' → covered h1 L s') as Hcov.
  { intros L s' [Hl|(o' & r' & Ho & Hr' & E)]; [left; by rewrite A|right]. destruct (decide (o' = x)) as [->|Hne].
    - exists x, r1. split_and!; [done|done|congruence].
    - destruct (Hother o' Hne) as [E1 _]. exists o', r'. by rewrite E1. }
  split; [|eapply (lives_effect _ _ _ []); [done| |by apply placed_same]].
  2: { split; [split; [by intros ??? ?%elem_of_nil|left; apply A]| |by left|set_solver|]; rewrite /set_heap; proj_simpl; [|by rewrite Hser].
    intros y ry Hy Hry. destruct (decide (y = x)) as [->|Hne]; [|destruct (Hother y Hne) as [E1 _]; exists ry; by rewrite E1].
    rewrite (Hr1' Hy) in Hr1. assert (ry = r) as -> by congruence. by exists r. }
  split; rewrite /set_heap; proj_simpl; try done.
  - intros s' x'. rewrite lookup_delete_Some. intros [Hne Hx']. destruct (W2 s' x' Hx') as (Ha & Hp' & r' & Hr' & E).
    assert (x' ≠ x) as Hnx by (intros ->; simplify_eq). destruct (Hother x' Hnx) as [E1 E2]. split_and!; [done|by rewrite E2|]. exists r'. by rewrite E1.
  - intros s' Hs'. destruct (W3 s' Hs') as [? ?]. rewrite Hser. split; [done|by apply Hcov].
  - intros y Hy. destruct (W4 y Hy) as [Hyp (ry & Hry & Hna & Hco) S3 S4].
    assert (y.2 ≠ x) as Hnx. { intros E. rewrite E Hr in Hry. injection Hry as <-. by rewrite Es in Hna. }
    destruct (Hother y.2 Hnx) as [E1 E2]. split; proj_simpl; [by rewrite E2| |done|by apply tags_more]. exists ry. rewrite E1. split_and!; [done|done|].
    intros Hq. by apply Hcov, Hco.
  - intros i p k y Hi Hk. by eapply tags_more, W6.
  - intros i p Hi Hs. destruct (W7 i p Hi Hs). split; [done|by apply tags_more].
  - intros Hs. destruct (W9 Hs) as (? & ? & ?). split_and!; [done|done|by apply tags_more].
  - intros ctx Hc. by apply tags_more, W10.
Qed.

Lemma step_ok done w o : stepOk done w o.
Proof.
  destruct o;
    eauto using proposeBegin_ok, proposeEnd_ok, deliver_ok, gc_ok, expire_ok, takeEntries_ok, readRequest_ok, takeReads_ok, addReads_ok,
      readsReady_ok, readsDropped_ok, readsApplied_ok, confRequest_ok, snapRequest_ok, tick_ok, closeReads_ok, closeShard_ok, receive_ok, release_ok;
    try (by apply conf_ok); try (by apply snap_ok); try (apply oneTake_ok; by auto); intros Hw _ _; (apply execTake_ok; [intros key'; constructor|done]).
Qed.

Lemma start_winv ct : winv [] (startWorld ct).
Proof.
  assert (∀ n, replicate n (newPendingProposalShard ct false) ≫= shardWaiting = []) as Hrep by (by induction n).
  assert (waiting (startWorld ct) = []) as Ew by (rewrite /waiting /startWorld /newRequests; cbn -[replicate newReadIndexQueue]; by rewrite Hrep).
  split; rewrite ?Ew; try done.
  - split; try done; [apply NoDup_nil_2|by intros ? ?%elem_of_nil|apply NoDup_nil_2|by intros ? ?%elem_of_nil|]. intros s. rewrite /answersOf lookup_empty /=. lia.
  - intros s ?%elem_of_nil. done.
  - intros s ?%elem_of_nil. done.
  - constructor.
  - cbn -[replicate newReadIndexQueue]. intros i p k x [-> _]%lookup_replicate. done.
  - cbn -[replicate newReadIndexQueue]. intros i p [-> _]%lookup_replicate. done.
Qed.

(** What a sequence of steps may do to a request. *)
Inductive lifeline : list op → stage → stage → Prop :=
| lifeline_nil st : lifeline [] st st
| lifeline_cons o l st st1 st2 : life o st st1 → lifeline l st1 st2 → lifeline (o :: l) st st2.

Lemma execs_ok l done w :
  winv done w → NoDup (tags (done ++ l)) → Forall sane l →
  ∃ w', execs w l = Some w' ∧ winv (done ++ l) w' ∧ ∀ s st, stageOf w s st → ∃ st', lifeline l st st' ∧ stageOf w' s st'.
Proof.
  revert done w. induction l as [|o l IH]; intros done w Hw Hnd Hs.
  { exists w. rewrite app_nil_r. split_and!; [done|done|]. intros s st Hst. exists st. split; [constructor|done]. }
  apply Forall_cons in Hs as [Hs Hl]. destruct (step_ok done w o Hw) as (w1 & Hstep & [Hw1 Hl1]); [|done|].
  { rewrite (app_assoc done [o] l) omap_app in Hnd. by apply NoDup_app in Hnd as [? _]. }
  cbn. rewrite Hstep. destruct (IH (done ++ [o]) w1 Hw1) as (w' & E & Hw' & Hlife); [by rewrite -app_assoc|done|]. exists w'.
  rewrite -app_assoc in Hw'. split_and!; [done|done|]. intros s st (st1 & Ho & Hst1)%Hl1. destruct (Hlife s st1 Hst1) as (st2 & ? & ?).
  exists st2. split; [by econstructor|done].
Qed.
End steps.
