(* ===== verification/RequestTheorems.v ===== *)
(** * What callers can rely on

    Theorems on the runs of the pending requests: a run never panics and gives each
    request one result; the result of a proposal is the one that was announced for
    its client, series and key; a read that completes had its index confirmed and
    applied after it was made; a proposal whose deadline has passed is timed out by
    the next collection; and the double buffered queue hands out its entries in
    order. *)
From stdpp Require Import pretty.
From Stdlib Require Import Ascii.
From S2P Require Import Prelude GoStrings Wire Errors Raftpb RaftLog Raft RaftPeer RsmSession RsmMachine RsmShard Request RequestHeap RequestRuns RequestSteps.

Local Open Scope string_scope.
Local Open Scope list_scope.
Local Open Scope Z_scope.

Section runs.
Context `{Snappy}.

(** *** Closing *)

(** What is closed stays closed. *)
Record closedStays (w w' : world) : Prop := {
  cs_length : length (rt_shards (w_tables w')) = length (rt_shards (w_tables w));
  cs_shards i p : rt_shards (w_tables w) !! i = Some p → ∃ p', rt_shards (w_tables w') !! i = Some p' ∧ (ps_stopped p = true → ps_stopped p' = true);
  cs_reads : pr_stopped (rt_reads (w_tables w)) = true → pr_stopped (rt_reads (w_tables w')) = true;
  cs_conf : po_open (rt_conf (w_tables w)) = false → po_pending (rt_conf (w_tables w)) = None →
    po_open (rt_conf (w_tables w')) = false ∧ po_pending (rt_conf (w_tables w')) = None;
  cs_snap : po_open (rt_snap (w_tables w)) = false → po_pending (rt_snap (w_tables w)) = None →
    po_open (rt_snap (w_tables w')) = false ∧ po_pending (rt_snap (w_tables w')) = None
}.

Lemma closedStays_refl w : closedStays w w.
Proof. split; try done. intros i p ->. by exists p. Qed.

Lemma closedStays_shard w w' i p p' :
  rt_shards (w_tables w) !! i = Some p → rt_shards (w_tables w') = <[i := p']> (rt_shards (w_tables w)) → (ps_stopped p = true → ps_stopped p' = true) →
  rt_reads (w_tables w') = rt_reads (w_tables w) → rt_conf (w_tables w') = rt_conf (w_tables w) → rt_snap (w_tables w') = rt_snap (w_tables w) →
  closedStays w w'.
Proof.
  intros Hp Es Hst E1 E2 E3. split; rewrite ?E1 ?E2 ?E3 ?Es; try done; [by rewrite length_insert|]. intros j q Hq.
  destruct (decide (i = j)) as [<-|]; [|rewrite list_lookup_insert_ne //; by exists q].
  rewrite list_lookup_insert_eq; [by eapply lookup_lt_Some|]. exists p'. by simplify_eq.
Qed.

Lemma gcAtShard_stopped h p now h' p' : gcAtShard h p now = Some (h', p') → ps_stopped p' = ps_stopped p.
Proof. rewrite /gcAtShard. repeat case_match; try by intros [= <- <-]. destruct (notifyEach _ _); [|done]. by intros [= <- <-]. Qed.

Lemma execShard_closed w i f w' :
  (∀ p h' p', f p = Some (h', p') → ps_stopped p' = ps_stopped p) → execShard w i f = Some w' → closedStays w w'.
Proof.
  intros Hf. rewrite /execShard. destruct (rt_shards (w_tables w) !! i) as [p|] eqn:Hp; [|intros [= <-]; apply closedStays_refl].
  destruct (f p) as [[h' p']|] eqn:E; [|done]. intros [= <-]. apply Hf in E. eapply (closedStays_shard _ _ i p p'); try done. congruence.
Qed.

Lemma execTake_closed w c k s v w' : execTake w c s k v = Some w' → closedStays w w'.
Proof.
  rewrite /execTake. set (i := shardOfKey _ k). destruct (rt_shards (w_tables w) !! i) as [p|] eqn:Hp; [|intros [= <-]; apply closedStays_refl].
  destruct (takeProposal _ _ _ _ _ _ _) as [p' x] eqn:E. apply takeProposal_moves in E as (_ & _ & Hs & _). intros [= <-].
  eapply (closedStays_shard _ _ i p p'); try done. congruence.
Qed.

Lemma execReads_closed w r w' :
  (∀ h p, r = Some (h, p) → pr_stopped (rt_reads (w_tables w)) = true → pr_stopped p = true) → execReads w r = Some w' → closedStays w w'.
Proof.
  intros Hr. rewrite /execReads. destruct r as [[h p]|]; [|done]. intros [= <-]. split; try done; [by intros i q Hq; exists q|]. by eapply Hr.
Qed.

(** An operation on a table with one request. *)
Definition oneCloses {R} (p : pendingOne R) (res : option (heap * pendingOne R)) : Prop :=
  ∀ h' p', res = Some (h', p') → po_open p = false → po_pending p = None → po_open p' = false ∧ po_pending p' = None.

Lemma gcOne_closed {R} h (p : pendingOne R) : oneCloses p (gcOne h p).
Proof. intros h' p' E Ho Hp. rewrite /gcOne Hp in E. by injection E as <- <-. Qed.
Lemma answerOne_closed {R} h (p : pendingOne R) key v : oneCloses p (answerOne h p key v).
Proof. intros h' p' E Ho Hp. rewrite /answerOne Hp in E. by injection E as <- <-. Qed.
Lemma closeOne_closes {R} h (p : pendingOne R) h' p' : closeOne h p = Some (h', p') → po_open p' = false ∧ po_pending p' = None.
Proof. rewrite /closeOne. destruct (match po_pending p with Some _ => _ | None => _ end); [|done]. by intros [= <- <-]. Qed.
Lemma requestOne_closed {R} h (p : pendingOne R) key tk req h' p' r :
  requestOne h p key tk req = (h', p', r) → po_open p = false → po_pending p = None → po_open p' = false ∧ po_pending p' = None.
Proof. rewrite /requestOne. intros E Ho Hp. rewrite Ho Hp in E. case_match; by simplify_eq/=. Qed.

Lemma execConf_closed w res w' : oneCloses (rt_conf (w_tables w)) res → execConf w res = Some w' → closedStays w w'.
Proof.
  intros Hc. rewrite /execConf. destruct res as [[h p]|]; [|done]. intros [= <-]. split; try done; [by intros i q Hq; exists q|]. by apply (Hc h p).
Qed.
Lemma execSnap_closed w res w' : oneCloses (rt_snap (w_tables w)) res → execSnap w res = Some w' → closedStays w w'.
Proof.
  intros Hc. rewrite /execSnap. destruct res as [[h p]|]; [|done]. intros [= <-]. split; try done; [by intros i q Hq; exists q|]. by apply (Hc h p).
Qed.

Lemma closedStays_tables w w' :
  rt_shards (w_tables w') = rt_shards (w_tables w) → pr_stopped (rt_reads (w_tables w')) = pr_stopped (rt_reads (w_tables w)) →
  rt_conf (w_tables w') = rt_conf (w_tables w) → rt_snap (w_tables w') = rt_snap (w_tables w) → closedStays w w'.
Proof. intros E1 E2 E3 E4. split; rewrite ?E1 ?E2 ?E3 ?E4; try done. intros i p Hp. by exists p. Qed.

Lemma accept_tables w r : w_tables (acceptResult w r) = w_tables w.
Proof. by destruct r. Qed.

Lemma exec_closed w o w' : exec w o = Some w' → closedStays w w'.
Proof.
  destruct o; cbn [exec].
  - set (i := shardOfKey _ key). destruct (rt_shards (w_tables w) !! i) as [p|] eqn:Hp; [|intros [= <-]; apply closedStays_refl].
    destruct (proposeBegin _ _ _ _ _ _ _) as [[[[[h2 p1] e] x]|]|] eqn:E; cbn; [|intros [= <-]; apply closedStays_refl|done].
    intros [= <-]. assert (ps_stopped p1 = ps_stopped p) as Es.
    { move: E. rewrite /proposeBegin. by intros; repeat case_match; simplify_option_eq; repeat case_match; simplify_option_eq. }
    eapply (closedStays_shard _ _ i p p1); try done. congruence.
  - destruct (w_started w !! k) as [[[i e] x]|]; [|intros [= <-]; apply closedStays_refl].
    destruct (rt_shards (w_tables w) !! i) as [p|] eqn:Hp; [|intros [= <-]; apply closedStays_refl].
    destruct (proposeEnd _ _ _ _) as [[q p1] r] eqn:E. intros [= <-]. assert (ps_stopped p1 = ps_stopped p) as Es.
    { move: E. rewrite /proposeEnd. repeat case_match; by intros [= _ <- _]. }
    eapply (closedStays_shard _ _ i p p1); rewrite ?accept_tables; try done. congruence.
  - apply execTake_closed.
  - apply execTake_closed.
  - destruct (w_hand w !! k) as [[x v]|]; [|intros [= <-]; apply closedStays_refl]. destruct (notifyRS _ _ _); [|done]. intros [= <-]. by apply closedStays_tables.
  - apply execShard_closed. intros p h' p'. apply gcAtShard_stopped.
  - apply execShard_closed. intros p h' p'. rewrite /expireShard. case_match; [by intros [= <- <-]|].
    destruct (gcAtShard _ _ _) as [[h1 p1]|] eqn:E; [|done]. apply gcAtShard_stopped in E. by intros [= <- <-].
  - intros [= <-]. by apply closedStays_tables.
  - destruct (readRequest _ _ _ _ _) as [[[h1 p] r]|] eqn:E; [|done]. cbn. intros [= <-].
    assert (pr_stopped p = pr_stopped (rt_reads (w_tables w))) as Es.
    { move: E. rewrite /readRequest. case_match; [by intros [= _ <- _]|]. destruct (poolGet _ _ _) as [[]|]; [|done]. cbn.
      destruct (addRead _ _) as [q [? ?]]. by intros [= _ <- _]. }
    by apply closedStays_tables; rewrite accept_tables.
  - case_bool_decide; [|intros [= <-]; apply closedStays_refl]. destruct (getReads _) as [q l]. intros [= <-]. by apply closedStays_tables.
  - case_bool_decide; [intros [= <-]; apply closedStays_refl|]. destruct (addReads _ _ _) as [p|] eqn:E; [|done]. cbn. intros [= <-].
    apply closedStays_tables; try done. rewrite /set_reads. proj_simpl. move: E. rewrite /addReads. repeat case_match; try done; by intros [= <-].
  - intros [= <-]. by apply closedStays_tables.
  - apply execReads_closed. intros h p. rewrite /droppedReads. intros E Hs. rewrite Hs in E. by injection E as <- <-.
  - apply execReads_closed. intros h p. rewrite /appliedReads. intros E Hs. rewrite Hs in E. by injection E as <- <-.
  - destruct (requestConfigChangeTable _ _ _ _ _) as [[h1 p] r] eqn:E. intros [= <-]. split; rewrite accept_tables; try done; [by intros i q Hq; exists q|].
    intros Ho Hp. by eapply requestOne_closed.
  - intros [= <-]. split; try done; [by intros i q Hq; exists q|]. proj_simpl. intros Ho Hp. rewrite takeOne_pending. split; [|done].
    rewrite /takeOne. by destruct (po_channel _).
  - apply execConf_closed, gcOne_closed.
  - apply execConf_closed, answerOne_closed.
  - apply execConf_closed, answerOne_closed.
  - destruct (requestSnapshotTable _ _ _ _ _ _ _ _) as [[h1 p] r] eqn:E. intros [= <-]. split; rewrite accept_tables; try done; [by intros i q Hq; exists q|].
    intros Ho Hp. by eapply requestOne_closed.
  - intros [= <-]. split; try done; [by intros i q Hq; exists q|]. proj_simpl. intros Ho Hp. rewrite takeOne_pending. split; [|done].
    rewrite /takeOne. by destruct (po_channel _).
  - apply execSnap_closed, gcOne_closed.
  - apply execSnap_closed. rewrite /applySnapshotTable. case_match; [done|apply answerOne_closed].
  - intros [= <-]. split; try done; proj_simpl; rewrite /tickTables; proj_simpl; [by rewrite length_fmap|]. intros i p Hp. rewrite list_lookup_fmap Hp. by eexists.
  - apply execReads_closed. intros h p. rewrite /closeReads. destruct (getReads _) as [q l]. destruct (notifyEach _ _); [|done]. by intros [= <- <-].
  - destruct (rt_shards (w_tables w) !! i) as [p|] eqn:Hp; [|intros [= <-]; apply closedStays_refl].
    rewrite /closeShard. destruct (notifyEach _ _); [|done]. cbn. intros [= <-].
    by eapply (closedStays_shard _ _ i p (p <| ps_stopped := true |>)).
  - apply execConf_closed. intros h p E _ _. by eapply closeOne_closes.
  - apply execSnap_closed. intros h p E _ _. by eapply closeOne_closes.
  - destruct (w_clients w !! serial) as [x|]; [|intros [= <-]; apply closedStays_refl]. destruct (receiveRS _ _) as [[]|]; [|done]. intros [= <-].
    by apply closedStays_tables.
  - destruct (w_clients w !! serial) as [x|]; [|intros [= <-]; apply closedStays_refl]. destruct (ReleaseRS _ _); [|done]. intros [= <-].
    by apply closedStays_tables.
Qed.
(** ** Closed nodes *)
#[local] Instance closedStays_preorder : PreOrder closedStays.
Proof.
  split; [intros w; apply closedStays_refl|]. intros w1 w2 w3 [L1 S1 R1 C1 N1] [L2 S2 R2 C2 N2]. split; [congruence| |auto|..].
  - intros i p Hp. destruct (S1 i p Hp) as (p' & Hp' & ?). destruct (S2 i p' Hp') as (p'' & ? & ?). exists p''. auto.
  - intros Ho Hp. destruct (C1 Ho Hp). auto.
  - intros Ho Hp. destruct (N1 Ho Hp). auto.
Qed.

Lemma execs_closed l w w' : execs w l = Some w' → closedStays w w'.
Proof.
  revert w. induction l as [|o l IH]; intros w; cbn; [by intros [= <-]|]. destruct (exec w o) as [w1|] eqn:E; [|done]. intros E'.
  etransitivity; [by eapply exec_closed|by apply IH].
Qed.

(** The states around a step of a run. *)
Lemma execs_in l w w' o : o ∈ l → execs w l = Some w' → ∃ w1 w2, closedStays w w1 ∧ exec w1 o = Some w2 ∧ closedStays w2 w'.
Proof.
  intros [l1 [l2 ->]]%list_elem_of_split. revert w. induction l1 as [|o1 l1 IH]; intros w; cbn.
  - destruct (exec w o) as [w1|] eqn:E; [|done]. intros E'. exists w, w1. split_and!; [done|done|by eapply execs_closed].
  - destruct (exec w o1) as [w1|] eqn:E; [|done]. intros (w2 & w3 & ? & ? & ?)%IH. exists w2, w3. split_and!; [|done|done].
    etransitivity; [by eapply exec_closed|done].
Qed.

(** Every table has been closed. *)
Definition allClosed (l : list op) : Prop :=
  CloseReads ∈ l ∧ CloseConf ∈ l ∧ CloseSnap ∈ l ∧ ∀ i, (i < pendingProposalShards)%nat → CloseShard i ∈ l.

Lemma closed_waiting l w w' :
  length (rt_shards (w_tables w)) = pendingProposalShards → execs w l = Some w' → allClosed l →
  waiting w' = (w_hand w').*1 ++ omap id (w_taken w') ++ w_lost w'.
Proof.
  intros Hlen Hrun (Hr & Hc & Hn & Hs). rewrite /waiting.
  assert (pr_stopped (rt_reads (w_tables w')) = true) as Er.
  { destruct (execs_in _ _ _ _ Hr Hrun) as (w1 & w2 & _ & E & Hcl). apply (cs_reads _ _ Hcl). cbn in E. rewrite /execReads /closeReads in E.
    destruct (notifyEach _ _); [|done]. cbn in E. by injection E as <-. }
  assert (po_pending (rt_conf (w_tables w')) = None) as Ec.
  { destruct (execs_in _ _ _ _ Hc Hrun) as (w1 & w2 & _ & E & Hcl). cbn in E. rewrite /execConf in E.
    destruct (closeOne _ _) as [[h p]|] eqn:Ec; [|done]. apply closeOne_closes in Ec as [? ?]. injection E as <-. by apply (cs_conf _ _ Hcl). }
  assert (po_pending (rt_snap (w_tables w')) = None) as En.
  { destruct (execs_in _ _ _ _ Hn Hrun) as (w1 & w2 & _ & E & Hcl). cbn in E. rewrite /execSnap in E.
    destruct (closeOne _ _) as [[h p]|] eqn:Ec'; [|done]. apply closeOne_closes in Ec' as [? ?]. injection E as <-. by apply (cs_snap _ _ Hcl). }
  assert (rt_shards (w_tables w') ≫= shardWaiting = []) as Es.
  { assert (Forall (λ p, shardWaiting p = []) (rt_shards (w_tables w'))) as Hall; [|by induction Hall as [|p ps E _ IH]; [|cbn; rewrite E]].
    apply Forall_lookup. intros i p' Hp'. pose proof (cs_length _ _ (execs_closed _ _ _ Hrun)) as El. pose proof (lookup_lt_Some _ _ _ Hp') as Hlt.
    destruct (execs_in _ _ _ _ (Hs i ltac:(lia)) Hrun) as (w1 & w2 & H1 & E & Hcl). cbn in E.
    destruct (rt_shards (w_tables w1) !! i) as [p|] eqn:Hp; [|apply lookup_ge_None in Hp; pose proof (cs_length _ _ H1); lia].
    rewrite /closeShard in E. destruct (notifyEach _ _); [|done]. injection E as <-.
    destruct (cs_shards _ _ Hcl i (p <| ps_stopped := true |>)) as (p2 & Hp2 & Hst).
    { rewrite /set_shard. proj_simpl. rewrite list_lookup_insert_eq //. by eapply lookup_lt_Some. }
    simplify_eq. rewrite /shardWaiting Hst //. }
  by rewrite Es /readsWaiting Er /oneWaiting Ec En.
Qed.

(** ** One result for each request *)

(** C27: The tables of the pending requests answer every request once.  In any run of the
    callers, the workers and the closing of the node (with distinct random keys and read contexts,
    each table closed once, and no snapshot both ignored and aborted), no step panics; no
    request gets a second result; and a request whose caller was given an object has its
    result or still waits.  When every table has been closed, it has its result unless a
    thread is about to deliver it, or it is a read that the step worker had taken from the
    queue. *)
Theorem requests_answered_once ct l :
  NoDup (tags l) → Forall sane l →
  ∃ w, execs (startWorld ct) l = Some w ∧ (∀ s, (length (answersOf (heapOf w) s) ≤ 1)%nat) ∧
    (∀ s, s ∈ w_accepted w → covered (heapOf w) (waiting w) s) ∧
    (allClosed l → ∀ s, s ∈ w_accepted w → covered (heapOf w) ((w_hand w).*1 ++ omap id (w_taken w) ++ w_lost w) s).
Proof.
  intros Hnd Hs. destruct (execs_ok l [] (startWorld ct) (start_winv ct) Hnd Hs) as (w & Hrun & Hw & _). exists w.
  split_and!; [done|apply (hi_once _ _ (wi_heap _ _ Hw))|by intros s [_ ?]%(wi_accepted _ _ Hw)|]. intros Hc s [_ Hcov]%(wi_accepted _ _ Hw).
  by rewrite (closed_waiting _ _ _ _ Hrun Hc) in Hcov.
Qed.

(** ** The life of each request *)
Lemma execs_app l1 l2 w w' : execs w (l1 ++ l2) = Some w' → ∃ w1, execs w l1 = Some w1 ∧ execs w1 l2 = Some w'.
Proof.
  revert w. induction l1 as [|o l1 IH]; intros w; [by exists w|]. cbn. destruct (exec w o); [|done]. cbn. apply IH.
Qed.

Lemma execs_mid ct l1 l2 w1 w2 :
  NoDup (tags (l1 ++ l2)) → Forall sane (l1 ++ l2) → execs (startWorld ct) l1 = Some w1 → execs w1 l2 = Some w2 →
  winv l1 w1 ∧ winv (l1 ++ l2) w2 ∧ ∀ s st, stageOf w1 s st → ∃ st', lifeline l2 st st' ∧ stageOf w2 s st'.
Proof.
  intros Hnd [Hs1 Hs2]%Forall_app E1 E2. pose proof Hnd as Hnd1. rewrite omap_app in Hnd1. apply NoDup_app in Hnd1 as (Hnd1 & _ & _).
  destruct (execs_ok l1 [] (startWorld ct) (start_winv ct) Hnd1 Hs1) as (w & Hrun & Hw & _). assert (w = w1) as -> by congruence.
  destruct (execs_ok l2 l1 w1 Hw Hnd Hs2) as (w' & Hrun' & Hw' & Hl). assert (w' = w2) as -> by congruence. done.
Qed.

Lemma stage_total done w s : winv done w → (s < hp_serial (heapOf w))%nat → ∃ st, stageOf w s st.
Proof.
  intros Hw Hlt. pose proof (hi_once _ _ (wi_heap _ _ Hw) s) as Ho. destruct (answersOf (heapOf w) s) as [|v [|]] eqn:Ea; [|exists (Answered v); by constructor|cbn in Ho; lia].
  destruct (decide (Exists (λ x, serialOf (heapOf w) x = s) (waiting w))) as [(x & Hx & Es)%Exists_exists|Hno].
  - destruct (hi_objs _ _ (wi_heap _ _ Hw) x Hx) as (r & Hr & _). apply waiting_located in Hx as [pl Hl]. rewrite /serialOf Hr in Es.
    exists (Waits (idOf r) pl). by econstructor.
  - exists Gone. constructor; [done|done|]. intros x r Hx Hr Es. apply Hno, Exists_exists. exists x. split; [done|]. by rewrite /serialOf Hr.
Qed.

(** C28: Every request lives by the rules of [life]: a run takes each request through steps that only the
    operation that is meant for it can make.  A proposal leaves the table of its key for a result of the
    state machine only when that is announced for its client, series and key; a read gets its result only
    from its batch, when the confirmed index is positive and applied; timeouts, drops and terminations come
    only from the collector, the drop notices and the closing of the table in question.  Nothing happens to
    a request that has its result. *)
Theorem requests_follow_life ct l1 l2 w1 w2 :
  NoDup (tags (l1 ++ l2)) → Forall sane (l1 ++ l2) → execs (startWorld ct) l1 = Some w1 → execs w1 l2 = Some w2 →
  ∀ s, (s < hp_serial (heapOf w1))%nat →
    (∃ st, stageOf w1 s st) ∧ ∀ st, stageOf w1 s st → ∃ st', lifeline l2 st st' ∧ stageOf w2 s st'.
Proof.
  intros Hnd Hs E1 E2 s Hlt. destruct (execs_mid _ _ _ _ _ Hnd Hs E1 E2) as (Hw1 & _ & Hl). split; [by eapply stage_total|]. apply Hl.
Qed.

(** The run around one of its steps. *)
Lemma execs_step ct l1 o l2 w w1 w2 :
  NoDup (tags (l1 ++ o :: l2)) → Forall sane (l1 ++ o :: l2) → execs (startWorld ct) l1 = Some w → exec w o = Some w1 → execs w1 l2 = Some w2 →
  winv l1 w ∧ winv (l1 ++ o :: l2) w2 ∧ ∀ s st, stageOf w1 s st → ∃ st', lifeline l2 st st' ∧ stageOf w2 s st'.
Proof.
  intros Hnd Hs E1 Ex E2. assert (execs w [o] = Some w1) as Ex' by by cbn [execs]; rewrite Ex.
  assert (execs (startWorld ct) (l1 ++ [o]) = Some w1) as E1'.
  { clear -E1 Ex'. revert E1. generalize (startWorld ct). induction l1 as [|o' l IH]; intros w0; [by intros [= ->]|]. cbn [execs app].
    destruct (exec w0 o'); [|done]. cbn. apply IH. }
  change (o :: l2) with ([o] ++ l2) in *. rewrite (app_assoc _ [o]) in Hnd Hs. rewrite (app_assoc _ [o]).
  destruct (execs_mid _ _ _ _ _ Hnd Hs E1' E2) as (_ & Hw2 & Hl). split_and!; [|done|done].
  rewrite omap_app in Hnd. apply NoDup_app in Hnd as (Hnd & _). apply Forall_app in Hs as [Hs _]. by eapply (execs_mid ct l1 [o]).
Qed.

(** A request with a result is answered. *)
Lemma stage_result done w s v st : winv done w → answersOf (heapOf w) s = [v] → stageOf w s st → st = Answered v.
Proof.
  intros Hw Hv [x r pl Hloc Hr Es|u Hu|Hno _ _]; [|congruence|congruence].
  destruct (hi_objs _ _ (wi_heap _ _ Hw) x) as (r' & Hr' & _ & _ & Hna); [apply waiting_located; by exists pl|]. simplify_eq. congruence.
Qed.

(** *** Results of proposals *)
Lemma life_answered l v st : lifeline l (Answered v) st → st = Answered v.
Proof. intros Hl. remember (Answered v) as st0 eqn:E. induction Hl as [|o l st st1 st2 Ho _ IH]; [done|]. subst. inversion Ho; subst. by apply IH. Qed.

Lemma life_gone l st : lifeline l Gone st → st = Gone.
Proof. intros Hl. remember Gone as st0 eqn:E. induction Hl as [|o l st st1 st2 Ho _ IH]; [done|]. subst. inversion Ho; subst. by apply IH. Qed.

Lemma life_hand l id u v : lifeline l (Waits id (InHand u)) (Answered v) → v = u.
Proof.
  intros Hl. remember (Waits id (InHand u)) as st0 eqn:E. remember (Answered v) as st1 eqn:E1. induction Hl as [|o l st st1 st2 Ho Hl IH]; [congruence|].
  subst. inversion Ho; subst; [by apply IH|]. apply life_answered in Hl. congruence.
Qed.

(** What a proposal can be told. *)
Definition proposalTold (l : list op) (c s k : Z) (v : RequestResult) : Prop :=
  v = codeOnly requestTimeout ∨ v = codeOnly requestTerminated ∨ (v = codeOnly requestDropped ∧ Dropped c s k ∈ l) ∨
  ∃ res rejected, v = appliedResult res rejected ∧ Applied c s k res rejected ∈ l.

Lemma life_proposal l c s k key v : lifeline l (Waits (c, s, key) (AtShard k)) (Answered v) → proposalTold l c s k v.
Proof.
  intros Hl. remember (Waits (c, s, key) (AtShard k)) as st0 eqn:E. remember (Answered v) as st1 eqn:E1.
  induction Hl as [|o l st st1 st2 Ho Hl IH]; [congruence|]. subst. inversion Ho; subst; clear Ho.
  - destruct (IH eq_refl eq_refl) as [?|[?|[[? ?]|(res & rej & ? & ?)]]]; [by left|by right; left|do 2 right; left|do 3 right; exists res, rej];
      (split; [done|by right]).
  - by apply life_gone in Hl.
  - apply life_hand in Hl as ->. do 3 right. eexists _, _. split; [done|by left].
  - apply life_hand in Hl as ->. do 2 right. left. split; [done|by left].
  - apply life_answered in Hl as [= ->]. by left.
  - apply life_answered in Hl as [= ->]. by left.
  - apply life_answered in Hl as [= ->]. by right; left.
Qed.

Lemma begin_stage done w session cmd key tk pick w1 :
  winv done w → exec w (ProposeBegin session cmd key tk pick) = Some w1 → (hp_serial (heapOf w) < hp_serial (heapOf w1))%nat →
  ∃ st, stageOf w1 (hp_serial (heapOf w)) st ∧ (st = Gone ∨ st = Waits (cs_ClientID session, cs_SeriesID session, key) (AtShard key)).
Proof.
  intros Hw. cbn [exec]. set (i := shardOfKey _ key). destruct (rt_shards (w_tables w) !! i) as [p|] eqn:Hp; [|intros [= <-]; lia].
  destruct (proposeBegin_new (heapOf w) p session cmd key tk pick _ (wi_heap _ _ Hw)) as [[e ->]|(h2 & entry & x & upto & -> & Hnew & Hk & r & Hr & Ec & Es & Ek & _)];
    cbn; [intros [= <-]; lia|]. intros [= <-] _. destruct Hnew as [I K A P New (r0 & Hr0 & Eser)].
  assert (r = upto r0) as -> by congruence.
  destruct (ps_stopped p) eqn:Hs.
  - exists Gone. split; [|by left]. constructor.
    + rewrite A. apply (hi_fresh _ _ (wi_heap _ _ Hw)). lia.
    + destruct (hi_made _ _ I x _ Hr) as [_ Hlt]. rewrite Eser in Hlt. done.
    + intros y ry Hy Hry Ey. destruct (waiting_shard w i p Hp) as (R & E & E').
      assert (y ∈ waiting w) as Hyw.
      { rewrite E elem_of_app. right. rewrite (E' _ (p <| ps_pending ::= <[key := x]> |>)) // in Hy.
        assert (shardWaiting (p <| ps_pending ::= <[key := x]> |>) = []) as Hnil by by rewrite /shardWaiting; proj_simpl; rewrite Hs. by rewrite Hnil in Hy. }
      destruct (waiting_kept _ _ _ _ (wi_heap _ _ Hw) K Hyw) as (st & st1 & Hst & Hst1 & Est & _).
      assert (st1 = ry) as -> by (change (hp_objs h2 !! y = Some ry) in Hry; congruence).
      destruct (hi_made _ _ (wi_heap _ _ Hw) y st Hst) as [_ Hlt]. lia.
  - eexists. split; [|by right]. assert (idOf (upto r0) = (cs_ClientID session, cs_SeriesID session, key)) as <- by (rewrite /idOf; congruence). apply (of_waits _ _ x (upto r0)); [|done|done].
    exists i, (p <| ps_pending ::= <[key := x]> |>). rewrite /set_shard. proj_simpl. rewrite list_lookup_insert_eq; [by eapply lookup_lt_Some|].
    split_and!; [done|done|]. apply lookup_insert_eq.
Qed.

(** C29: The result of a proposal is its own.  When a proposal with a session's client and series and a
    random key has been put into the table (it has taken the next number of the run), then whatever result
    it gets later is a timeout, the termination of the node, or one that was announced, after it was made,
    for this client, series and key: dropped by an announcement of the drop, completed or rejected with
    exactly the value that the state machine returned. *)
Theorem proposal_results ct l1 session cmd key tk pick l2 w w1 w2 v :
  NoDup (tags (l1 ++ ProposeBegin session cmd key tk pick :: l2)) → Forall sane (l1 ++ ProposeBegin session cmd key tk pick :: l2) →
  execs (startWorld ct) l1 = Some w → exec w (ProposeBegin session cmd key tk pick) = Some w1 →
  (hp_serial (heapOf w) < hp_serial (heapOf w1))%nat → execs w1 l2 = Some w2 → answersOf (heapOf w2) (hp_serial (heapOf w)) = [v] →
  proposalTold l2 (cs_ClientID session) (cs_SeriesID session) key v.
Proof.
  intros Hnd Hs E1 Ex Hlt E2 Hv. destruct (execs_step _ _ _ _ _ _ _ Hnd Hs E1 Ex E2) as (Hw & Hw2 & Hl).
  destruct (begin_stage _ _ _ _ _ _ _ _ Hw Ex Hlt) as (st & Hst & Hwhich). destruct (Hl _ _ Hst) as (st' & Hlife & Hst').
  apply (stage_result _ _ _ _ _ Hw2 Hv) in Hst' as ->. destruct Hwhich as [-> | ->]; [by apply life_gone in Hlife|]. by eapply life_proposal.
Qed.

(** *** Results of reads *)
Lemma life_lostRead l id v : ¬ lifeline l (Waits id AtLost) (Answered v).
Proof.
  intros Hl. remember (Waits id AtLost) as st0 eqn:E. remember (Answered v) as st1 eqn:E1. induction Hl as [|o l st st1 st2 Ho Hl IH]; [congruence|].
  subst. inversion Ho; subst. by apply IH.
Qed.

Lemma life_batchedRead l id ctx index v :
  lifeline l (Waits id (AtBatch ctx index)) (Answered v) → rr_code v = requestCompleted →
  (∃ a, 0 < index ≤ a ∧ ReadsApplied a ∈ l) ∨
  ∃ reads r a, r ∈ reads ∧ rr_SystemCtx r = ctx ∧ 0 < rr_Index r ≤ a ∧ [ReadsReady reads; ReadsApplied a] `sublist_of` l.
Proof.
  intros Hl Hc. remember (Waits id (AtBatch ctx index)) as st0 eqn:E. remember (Answered v) as st1 eqn:E1. revert index E.
  induction Hl as [|o l st st1 st2 Ho Hl IH]; intros index E; [congruence|]. subst. inversion Ho; subst; clear Ho.
  - destruct (IH eq_refl index eq_refl) as [(a & ? & ?)|(reads & r & a & ? & ? & ? & ?)]; [left; exists a|right; exists reads, r, a].
    + split; [done|by right].
    + split_and!; [done|done|lia|lia|by apply sublist_cons].
  - destruct (IH eq_refl _ eq_refl) as [(a & ? & Ha)|(reads' & r' & a & ? & ? & ? & ?)]; right.
    + exists reads, r, a. split_and!; [done|done|lia|lia|]. apply sublist_skip. by apply singleton_sublist_l.
    + exists reads', r', a. split_and!; [done|done|lia|lia|by apply sublist_cons].
  - by apply life_answered in Hl as [= ->].
  - left. exists a. split; [done|by left].
  - apply life_answered in Hl. congruence.
  - by apply life_answered in Hl as [= ->].
Qed.

(** The index of a context was confirmed and applied, in this order, after the reads of the context were
    collected. *)
Definition readServed (l : list op) : Prop :=
  ∃ ctx reads r a, r ∈ reads ∧ rr_SystemCtx r = ctx ∧ 0 < rr_Index r ≤ a ∧ [AddReads ctx; ReadsReady reads; ReadsApplied a] `sublist_of` l.

Lemma readServed_cons o l : readServed l → readServed (o :: l).
Proof. intros (ctx & reads & r & a & ? & ? & ? & ?). exists ctx, reads, r, a. split_and!; [done|done|lia|lia|by apply sublist_cons]. Qed.

Lemma life_takenRead l id v : lifeline l (Waits id AtTaken) (Answered v) → rr_code v = requestCompleted → readServed l.
Proof.
  intros Hl Hc. remember (Waits id AtTaken) as st0 eqn:E. remember (Answered v) as st1 eqn:E1. induction Hl as [|o l st st1 st2 Ho Hl IH]; [congruence|].
  subst. inversion Ho; subst; [by apply readServed_cons, IH| |by apply life_lostRead in Hl].
  apply life_batchedRead in Hl as [(a & ? & ?)|(reads & r & a & ? & ? & ? & ?)]; [lia| |done]. exists ctx, reads, r, a. split_and!; [done|done|lia|lia|by apply sublist_skip].
Qed.

Lemma life_queuedRead l id v : lifeline l (Waits id AtQueue) (Answered v) → rr_code v = requestCompleted → readServed l.
Proof.
  intros Hl Hc. remember (Waits id AtQueue) as st0 eqn:E. remember (Answered v) as st1 eqn:E1. induction Hl as [|o l st st1 st2 Ho Hl IH]; [congruence|].
  subst. inversion Ho; subst; [by apply readServed_cons, IH|by apply readServed_cons; eapply life_takenRead|].
  by apply life_answered in Hl as [= ->].
Qed.

Lemma read_stage done w tk pick w1 :
  winv done w → exec w (ReadRequest tk pick) = Some w1 → hp_serial (heapOf w) ∈ w_accepted w1 →
  ∃ id, stageOf w1 (hp_serial (heapOf w)) (Waits id AtQueue).
Proof.
  intros Hw. cbn [exec]. rewrite /readRequest. assert (∀ w0, w_accepted w0 = w_accepted w → hp_serial (heapOf w) ∈ w_accepted w0 → False) as Hold.
  { intros w0 E. rewrite E. intros [? _]%(wi_accepted _ _ Hw). lia. }
  case_match; [intros [= <-] []%Hold; done|]. destruct (poolGet_made _ _ pick false (wi_heap _ _ Hw)) as [[h1 x] Hget].
  rewrite Hget /=. match goal with |- context [setRS h1 x ?f] => pose proof (get_object f) as Hnew end.
  specialize (Hnew ltac:(intros [???????? [[]|]]; done) _ _ _ _ _ _ (wi_heap _ _ Hw) Hget) as [I K A P New (r0 & Hr0 & Eser)].
  destruct (addRead (pr_requests (rt_reads (w_tables w))) x) as [q [ok closed]] eqn:Ha.
  apply addRead_queued in Ha as (Hq1 & Hq2 & Hq3 & Hq4 & Hq5); [|apply (wi_queue _ _ Hw)]. cbn. destruct ok.
  2: { intros [= <-] []%Hold. by destruct closed. }
  destruct (Hq4 eq_refl) as [-> Hopen]. intros [= <-] _. cbn. eexists. eapply (of_waits _ _ x); [|exact Hr0|exact Eser].
  split; rewrite /set_reads; proj_simpl; [|rewrite Hq5; set_solver]. destruct (pr_stopped _) eqn:Hs; [|done].
  destruct (wi_reads _ _ Hw Hs) as (? & _). congruence.
Qed.

(** C30: Reads are not served from the past.  When a read whose caller was given an object completes, then
    after it was made its context was drawn, an index was confirmed for that context, and the state machine
    had applied that index when the read was told to go ahead. *)
Theorem completed_reads_fresh ct l1 tk pick l2 w w1 w2 v :
  NoDup (tags (l1 ++ ReadRequest tk pick :: l2)) → Forall sane (l1 ++ ReadRequest tk pick :: l2) →
  execs (startWorld ct) l1 = Some w → exec w (ReadRequest tk pick) = Some w1 → hp_serial (heapOf w) ∈ w_accepted w1 → execs w1 l2 = Some w2 →
  answersOf (heapOf w2) (hp_serial (heapOf w)) = [v] → rr_code v = requestCompleted → readServed l2.
Proof.
  intros Hnd Hs E1 Ex Hacc E2 Hv Hc. destruct (execs_step _ _ _ _ _ _ _ Hnd Hs E1 Ex E2) as (Hw & Hw2 & Hl).
  destruct (read_stage _ _ _ _ _ Hw Ex Hacc) as (id & Hst). destruct (Hl _ _ Hst) as (st' & Hlife & Hst').
  apply (stage_result _ _ _ _ _ Hw2 Hv) in Hst' as ->. by eapply life_queuedRead.
Qed.

(** ** Deadlines *)

(** C31: A proposal does not wait beyond its deadline.  When the clock has moved past the deadline of a proposal
    that waits in a shard, and far enough from the shard's last collection, then the next collection of the
    shard gives the proposal the timeout as its one result. *)
Theorem late_proposals_time_out ct l w i p k x r t :
  NoDup (tags l) → Forall sane l → execs (startWorld ct) l = Some w →
  rt_shards (w_tables w) !! i = Some p → ps_stopped p = false → ps_pending p !! k = Some x → hp_objs (heapOf w) !! x = Some r →
  rs_deadline r < t → lc_gcTick (ps_clock p) ≤ u64 (t - lc_lastGcTime (ps_clock p)) →
  ∃ w', execs w [Tick t; GcShard i] = Some w' ∧ answersOf (heapOf w') (rs_serial r) = [codeOnly requestTimeout].
Proof.
  intros Hnd Hs E Hp Hst Hk Hr Hd Hg. destruct (execs_ok l [] (startWorld ct) (start_winv ct) Hnd Hs) as (w0 & E0 & Hw & _).
  assert (w0 = w) as -> by congruence. destruct (step_ok ([] ++ l) w (Tick t) Hw) as (w1 & E1 & [Hw1 _]); [by rewrite omap_app app_nil_r|done|].
  cbn [exec] in E1. injection E1 as <-. cbn [execs exec mbind option_bind]. set (w1 := w <| w_tables ::= _ |>) in *. rewrite /execShard.
  assert (rt_shards (w_tables w1) !! i = Some (tickShard p t)) as Hp1 by (rewrite /w1 /tickTables; proj_simpl; by rewrite list_lookup_fmap Hp).
  rewrite Hp1. destruct (waiting_shard w1 i _ Hp1) as (R & Ew & _). pose proof (wi_heap _ _ Hw1) as Hh. rewrite Ew in Hh.
  rewrite /gcShard.
  destruct (gcAtShard_answers _ _ (lc_ltick (ps_clock (tickShard p t))) _ Hh) as (h' & p' & N & -> & Ha & _ & _ & _ & _ & _ & HN). cbn. eexists. split; [done|].
  apply (tl_given _ _ _ (an_told _ _ _ _ _ _ Ha) x); [|done]. apply (HN Hst Hg k); [done|]. rewrite /lateIn Hr. by apply Z.ltb_lt.
Qed.
End runs.

(** ** The queue of proposals

    The step worker reads the slice that it got until it gets the next one; meanwhile
    callers add to the other buffer, and the buffer of an old slice is cleared now and
    then. *)
Inductive queueOp := QAdd (e : Entry) | QGet (paused : bool) | QClose.

Record queueRun := mkQueueRun { qr_queue : entryQueue; qr_slice : bool * Z; qr_read : list Entry; qr_accepted : list Entry }.

(** The slice is read as late as possible: when the next one is taken. *)
Definition queueStep (s : queueRun) (o : queueOp) : queueRun :=
  match o with
  | QAdd e =>
      let '(q, (added, _)) := addEntry (qr_queue s) e in
      mkQueueRun q (qr_slice s) (qr_read s) (qr_accepted s ++ if (added : bool) then [e] else [])
  | QGet paused =>
      let '(q, slice) := getEntries (qr_queue s) paused in
      mkQueueRun q slice (qr_read s ++ entriesAt (qr_queue s) (qr_slice s)) (qr_accepted s)
  | QClose => mkQueueRun (closeEntries (qr_queue s)) (qr_slice s) (qr_read s) (qr_accepted s)
  end.

Definition queueStart (size lazyFreeCycle : Z) : queueRun := mkQueueRun (newEntryQueue size lazyFreeCycle) (true, 0) [] [].

Record queueOk (s : queueRun) : Prop := {
  qk_left : length (eq_left (qr_queue s)) = Z.to_nat (eq_size (qr_queue s));
  qk_right : length (eq_right (qr_queue s)) = Z.to_nat (eq_size (qr_queue s));
  qk_idx : 0 ≤ eq_idx (qr_queue s) ≤ eq_size (qr_queue s);
  qk_size : eq_size (qr_queue s) < 2 ^ 64;
  qk_slice : (qr_slice s).1 = negb (eq_leftInWrite (qr_queue s));
  qk_order : qr_accepted s = qr_read s ++ entriesAt (qr_queue s) (qr_slice s) ++
    take (Z.to_nat (eq_idx (qr_queue s))) (targetEntries (qr_queue s))
}.

Lemma queueAdd_ok s e : queueOk s → queueOk (queueStep s (QAdd e)).
Proof.
  destruct s as [q [side n] read acc]. intros [H1 H2 H3 H4 H5 H6]. cbn [qr_queue qr_slice qr_read qr_accepted fst snd] in *. cbn [queueStep qr_queue qr_slice qr_read qr_accepted].
  rewrite /addEntry. destruct (eq_paused q || _) eqn:Hfull; [split; rewrite ?app_nil_r; done|]. apply orb_false_iff in Hfull as [_ Hfull%Z.leb_gt].
  destruct (eq_stopped q); [split; rewrite ?app_nil_r; done|]. assert (u64 (eq_idx q + 1) = eq_idx q + 1) as Hu by (rewrite /u64 Z.mod_small; lia).
  assert (∀ l, length l = Z.to_nat (eq_size q) → take (Z.to_nat (eq_idx q + 1)) (<[Z.to_nat (eq_idx q) := e]> l) = take (Z.to_nat (eq_idx q)) l ++ [e]) as Htake.
  { intros l Hl. replace (Z.to_nat (eq_idx q + 1)) with (S (Z.to_nat (eq_idx q))) by lia.
    rewrite (take_S_r _ _ e); [rewrite list_lookup_insert_eq //; lia|]. by rewrite take_insert_ge. }
  rewrite /entriesAt /targetEntries /writeEntries /= in H5 H6 |- *. subst side.
  destruct (eq_leftInWrite q) eqn:Hside; split; cbn [qr_queue qr_slice qr_read qr_accepted fst snd]; rewrite /entriesAt /targetEntries; proj_simpl; rewrite ?Hside ?length_insert ?Hu //=; try lia;
    rewrite Htake // H6 -!app_assoc //.
Qed.

(** Clearing the buffer that is written next. *)
Lemma gcEntries_other q :
  eq_size (gcEntries q) = eq_size q ∧ eq_idx (gcEntries q) = eq_idx q ∧ eq_leftInWrite (gcEntries q) = eq_leftInWrite q ∧
  length (eq_left (gcEntries q)) = length (eq_left q) ∧ length (eq_right (gcEntries q)) = length (eq_right q) ∧
  (if eq_leftInWrite q then eq_right (gcEntries q) = eq_right q else eq_left (gcEntries q) = eq_left q).
Proof.
  assert (∀ n (l : list Entry), length ((clearCmd <$> take n l) ++ drop n l) = length l) as Hlen.
  { intros n l. rewrite length_app length_fmap -length_app take_drop //. }
  rewrite /gcEntries /writeEntries /targetEntries. repeat case_match; proj_simpl; rewrite ?Hlen ?length_fmap; by split_and!.
Qed.

Lemma queueGet_ok s paused : queueOk s → queueOk (queueStep s (QGet paused)).
Proof.
  destruct s as [q [side n] read acc]. intros [H1 H2 H3 H4 H5 H6]. cbn [qr_queue qr_slice qr_read qr_accepted fst snd] in *. cbn [queueStep qr_queue qr_slice qr_read qr_accepted].
  rewrite /getEntries. set (q1 := _ <| eq_leftInWrite ::= negb |>). destruct (gcEntries_other q1) as (E1 & E2 & E3 & E4 & E5 & E6).
  assert (eq_leftInWrite q1 = negb (eq_leftInWrite q)) as Ew by done. rewrite Ew in E6.
  split; cbn [qr_queue qr_slice qr_read qr_accepted fst snd]; proj_simpl.
  - by rewrite E4 E1.
  - by rewrite E5 E1.
  - rewrite E1 E2. rewrite /q1. proj_simpl. lia.
  - by rewrite E1.
  - rewrite E3 Ew. by rewrite negb_involutive.
  - rewrite E2. rewrite {3}/q1. proj_simpl. rewrite take_0 app_nil_r H6 app_assoc. f_equal. rewrite /entriesAt /targetEntries. proj_simpl. cbn [fst snd].
    f_equal. by destruct (eq_leftInWrite q); cbn in E6.
Qed.

(** C32: The queue between the callers and the step worker hands out the proposals that it accepted, each once
    and in the order in which they were added, over any sequence of additions, takings and the closing: what
    has been read, the slice that is being read, and what waits in the queue are together the accepted ones.
    The slice is part of the queue's own buffers; it is still the same when the next one is taken, whatever
    was added or cleared meanwhile. *)
Theorem queue_in_order size lazyFreeCycle ops :
  0 ≤ size < 2 ^ 64 → let s := foldl queueStep (queueStart size lazyFreeCycle) ops in
  qr_accepted s = qr_read s ++ entriesAt (qr_queue s) (qr_slice s) ++ take (Z.to_nat (eq_idx (qr_queue s))) (targetEntries (qr_queue s)).
Proof.
  intros Hsize s. apply qk_order. rewrite /s. assert (queueOk (queueStart size lazyFreeCycle)) as H0.
  { split; cbn [queueStart newEntryQueue qr_queue eq_left eq_right eq_size eq_idx]; rewrite ?length_replicate //; lia. }
  revert H0. generalize (queueStart size lazyFreeCycle). induction ops as [|o ops IH]; intros s0 H0; [done|]. cbn [foldl]. apply IH.
  destruct o; [by apply queueAdd_ok|by apply queueGet_ok|]. by destruct H0.
Qed.

(** ** A run

    A node with one proposal and one read, without compression. *)
#[local] Existing Instance noSnappy.
#[export] Instance tag_eq_dec : EqDecision tag.
Proof. solve_decision. Defined.

Definition worldAfter (w : world) (l : list op) : world := default w (execs w l).

Lemma worldAfter_run w l : bool_decide (is_Some (execs w l)) = true → execs w l = Some (worldAfter w l).
Proof. intros [w' E]%bool_decide_eq_true. by rewrite /worldAfter E. Qed.

Definition demo_session : ClientSession := mkSession 1 7 NoOPSeriesID 0.
Definition demo_value : Result := {| res_Value := 9; res_Data := None |}.
Definition demo_ctx : SystemCtx := {| sc_Low := 11; sc_High := 35 |}.
Definition demo_begin : op := ProposeBegin demo_session ["x"%char] 33 10 0.
Definition demo_propose : list op :=
  [ProposeEnd 0; TakeEntries false; Applied 7 NoOPSeriesID 33 demo_value false; Deliver 0; Receive 0; Release 0].
Definition demo_read : list op := [TakeReads; AddReads demo_ctx; ReadsReady [{| rr_Index := 4; rr_SystemCtx := demo_ctx |}]; ReadsApplied 4].
Definition demo_close : list op := CloseReads :: (CloseShard <$> seq 0 pendingProposalShards) ++ [CloseConf; CloseSnap].
Definition demo_start : world := worldAfter (startWorld NoCompression) [Tick 5].
Definition demo_run : list op := [Tick 5; demo_begin] ++ demo_propose ++ [ReadRequest 10 0] ++ demo_read ++ demo_close.

Lemma demo_closed : allClosed demo_run.
Proof.
  rewrite /allClosed /demo_run /demo_close. split_and!; [set_solver..|]. intros i Hi. rewrite !elem_of_app. do 4 right.
  apply elem_of_cons. right. apply elem_of_app. left. apply list_elem_of_fmap. exists i. split; [done|]. apply elem_of_seq. lia.
Qed.

Lemma requests_answered_once_witness :
  ∃ w, execs (startWorld NoCompression) demo_run = Some w ∧ w_accepted w = [0; 1]%nat ∧ ∀ s, s ∈ w_accepted w → covered (heapOf w) [] s.
Proof.
  destruct (requests_answered_once NoCompression demo_run) as (w & E & _ & _ & Hc).
  - apply (bool_decide_eq_true_1 _). by vm_compute.
  - repeat constructor.
  - exists w. assert (w = worldAfter (startWorld NoCompression) demo_run) as -> by by rewrite /worldAfter E.
    split_and!; [done|by vm_compute|]. intros s Hs. specialize (Hc demo_closed s Hs).
    assert ((w_hand (worldAfter (startWorld NoCompression) demo_run)).*1 ++ omap id (w_taken (worldAfter (startWorld NoCompression) demo_run)) ++
      w_lost (worldAfter (startWorld NoCompression) demo_run) = []) as El by by vm_compute.
    by rewrite El in Hc.
Defined.

Lemma requests_follow_life_witness :
  ∃ st, lifeline demo_propose (Waits (7, NoOPSeriesID, 33) (AtShard 33)) st ∧ st = Answered (appliedResult demo_value false).
Proof.
  set (w1 := worldAfter (startWorld NoCompression) [Tick 5; demo_begin]).
  destruct (requests_follow_life NoCompression [Tick 5; demo_begin] demo_propose w1 (worldAfter w1 demo_propose)) with (s := 0%nat) as [_ Hlife].
  - apply (bool_decide_eq_true_1 _). by vm_compute.
  - repeat constructor.
  - apply worldAfter_run. by vm_compute.
  - apply worldAfter_run. by vm_compute.
  - vm_compute. lia.
  - destruct (Hlife (Waits (7, NoOPSeriesID, 33) (AtShard 33))) as (st & Hl & Hst).
    + assert (∃ r, hp_objs (heapOf w1) !! 0%nat = Some r ∧ rs_serial r = 0%nat ∧ idOf r = (7, NoOPSeriesID, 33)) as (r & Hr & Es & <-) by (vm_compute; eauto).
      apply (of_waits _ _ 0 r); [|done|done].
      assert (∃ p, rt_shards (w_tables w1) !! 1%nat = Some p ∧ ps_stopped p = false ∧ ps_pending p !! 33 = Some 0%nat) as (p & ?) by (vm_compute; eauto).
      by exists 1%nat, p.
    + exists st. split; [done|]. destruct Hst as [x r pl Hloc Hr Es|v Hv|Hno _ _].
      * exfalso. assert (x ∈ waiting (worldAfter w1 demo_propose)) as Hx by (apply waiting_located; by exists pl).
        assert (waiting (worldAfter w1 demo_propose) = []) as En by by vm_compute. rewrite En in Hx. by apply elem_of_nil in Hx.
      * assert (answersOf (heapOf (worldAfter w1 demo_propose)) 0 = [appliedResult demo_value false]) as Ha by by vm_compute. congruence.
      * assert (answersOf (heapOf (worldAfter w1 demo_propose)) 0 = [appliedResult demo_value false]) as Ha by by vm_compute. congruence.
Defined.

Lemma proposal_results_witness : proposalTold demo_propose 7 NoOPSeriesID 33 (appliedResult demo_value false).
Proof.
  set (w1 := worldAfter demo_start [demo_begin]).
  apply (proposal_results NoCompression [Tick 5] demo_session ["x"%char] 33 10 0 demo_propose demo_start w1 (worldAfter w1 demo_propose)).
  - apply (bool_decide_eq_true_1 _). by vm_compute.
  - repeat constructor.
  - apply worldAfter_run. by vm_compute.
  - assert (execs demo_start [demo_begin] = Some w1) as E by (apply worldAfter_run; by vm_compute). cbn [execs] in E.
    by destruct (exec demo_start demo_begin).
  - vm_compute. lia.
  - apply worldAfter_run. by vm_compute.
  - by vm_compute.
Defined.

Lemma completed_reads_fresh_witness : readServed demo_read.
Proof.
  set (w1 := worldAfter demo_start [ReadRequest 10 0]).
  apply (completed_reads_fresh NoCompression [Tick 5] 10 0 demo_read demo_start w1 (worldAfter w1 demo_read) (codeOnly requestCompleted)).
  - apply (bool_decide_eq_true_1 _). by vm_compute.
  - repeat constructor.
  - apply worldAfter_run. by vm_compute.
  - assert (execs demo_start [ReadRequest 10 0] = Some w1) as E by (apply worldAfter_run; by vm_compute). cbn [execs] in E.
    by destruct (exec demo_start (ReadRequest 10 0)).
  - apply (bool_decide_eq_true_1 _). by vm_compute.
  - apply worldAfter_run. by vm_compute.
  - by vm_compute.
  - done.
Defined.

Definition demo_waits : world := worldAfter (startWorld NoCompression) [Tick 5; demo_begin; ProposeEnd 0].
Definition demo_shard : proposalShard := default (newPendingProposalShard NoCompression false) (rt_shards (w_tables demo_waits) !! 1%nat).
Definition demo_object : option RequestState := hp_objs (heapOf demo_waits) !! 0%nat.

Lemma late_proposals_time_out_witness :
  ∃ w', execs demo_waits [Tick 20; GcShard 1] = Some w' ∧ answersOf (heapOf w') 0 = [codeOnly requestTimeout].
Proof.
  assert (∃ r, demo_object = Some r ∧ rs_serial r = 0%nat ∧ rs_deadline r = 15) as (r & Hr & Es & Hd) by (vm_compute; eauto).
  destruct (late_proposals_time_out NoCompression [Tick 5; demo_begin; ProposeEnd 0] demo_waits 1 demo_shard 33 0 r 20) as (w' & Hw' & Ha);
    [..|exists w'; by rewrite Es in Ha].
  - apply (bool_decide_eq_true_1 _). by vm_compute.
  - repeat constructor.
  - apply worldAfter_run. by vm_compute.
  - by vm_compute.
  - by vm_compute.
  - by vm_compute.
  - exact Hr.
  - lia.
  - apply (bool_decide_eq_true_1 _). by vm_compute.
Defined.

Definition demo_queue : list queueOp := [QAdd emptyEntry; QGet false; QAdd (emptyEntry <| e_Key := 5 |>); QGet false; QGet false].

Lemma queue_in_order_witness :
  let s := foldl queueStep (queueStart 2 4) demo_queue in
  e_Key <$> qr_read s ++ entriesAt (qr_queue s) (qr_slice s) ++ take (Z.to_nat (eq_idx (qr_queue s))) (targetEntries (qr_queue s)) = [0; 5].
Proof. intros s. rewrite -(queue_in_order 2 4 demo_queue); [lia|]. by vm_compute. Defined.

(** A read that the step worker has taken from the queue when the node is closed gets no
    result, then or later: [add] gives it up without a word.  Its caller waits for its
    own timeout. *)
Example taken_read_lost :
  let w := worldAfter demo_start (ReadRequest 10 0 :: TakeReads :: demo_close ++ [AddReads demo_ctx]) in
  w_accepted w = [0%nat] ∧ answersOf (heapOf w) 0 = [] ∧ w_lost w = [0%nat].
Proof. by vm_compute. Qed.
