(* ===== verification/Retry.v ===== *)
(** * Retrying with exponential backoff

    vendor/github.com/Azure/retry/exponential: the policy, the randomized
    intervals and the loop that calls an operation until it succeeds, fails for
    good or has no time left; context/deadline.go gives the deadline.  A context
    is its deadline; whether the caller has given up, the time and the timers are
    the world's, through the class [Clock].

    Durations are nanoseconds.  The multiplier and the randomization factor are
    rationals: the factors of the policy in use, 2 and 1/2, are exact as floating
    point numbers and so are their products with durations below 2^53.  An
    operation is given the record of the attempts so far.  The numbers the random
    generator yields are an argument.  No error of the program carries a time
    after which to retry, so the interval is the policy's; the testing mode, which
    does not sleep, is left out. *)
From S2P Require Import Prelude GoStrings Errors Fsm.
From Stdlib Require Import QArith.

Local Open Scope string_scope.
Local Open Scope list_scope.
Local Open Scope Z_scope.

(** ** Contexts and time *)
Abbreviation Ctx := (option Z).

(** [Timer w ctx d] waits for [d] to pass or the context to end, whichever the
    [select] takes; the flag is whether the timer fired.  [Tick] waits for the
    next tick of a ticker, which may have been due already, or the context. *)
Class Clock (W : Type) := {
  Now : W → Z;
  Canceled : W → bool;
  Timer : W → Ctx → Z → W * bool;
  Tick : W → Ctx → W * bool
}.

Class ClockLaws W `{Clock W} := {
  timer_waits w ctx d w' b : Timer w ctx d = (w', b) → Now w ≤ Now w' ∧ (b = true → Now w + d ≤ Now w')
}.

Definition EnsureDeadline {W} `{Clock W} (w : W) (ctx : Ctx) (fallback : Z) : Ctx :=
  match ctx with
  | Some _ => ctx
  | None => Some (Now w + fallback)
  end.

(** [ctx.Err() != nil] *)
Definition ctxErr {W} `{Clock W} (w : W) (ctx : Ctx) : bool :=
  Canceled w || match ctx with Some d => d <=? Now w | None => false end.

(** ** policy.go *)
Record Policy := {
  InitialInterval : Z;
  Multiplier : Q;
  RandomizationFactor : Q;
  MaxInterval : Z;
  MaxAttempts : Z
}.

(** [time.Duration(float64(d) * f)]: truncated towards zero. *)
Definition scale (d : Z) (f : Q) : Z := Z.quot (d * Qnum f) (QDen f).

Definition validatePolicy (p : Policy) : option error :=
  if InitialInterval p <=? 0 then Some (Text "Policy.InitialInterval must be greater than 0")
  else if Qle_bool (Multiplier p) 1 then Some (Text "Policy.Multiplier must be greater than 1")
  else if negb (Qle_bool 0 (RandomizationFactor p)) || negb (Qle_bool (RandomizationFactor p) 1) then
    Some (Text "Policy.RandomizationFactor must be between 0 and 1")
  else if MaxInterval p <=? 0 then Some (Text "Policy.MaxInterval must be greater than 0")
  else if MaxInterval p <? InitialInterval p then
    Some (Text "Policy.InitialInterval must be less than or equal to Policy.MaxInterval")
  else None.

Definition FastRetryPolicy : Policy :=
  {| InitialInterval := 100 * Millisecond; Multiplier := 2; RandomizationFactor := 1 # 2;
     MaxInterval := 60000 * Millisecond; MaxAttempts := 0 |}.

(** ** exponential.go *)
Record Backoff := { bo_policy : Policy; bo_transformers : list (error → error) }.

Definition Option_ : Type := Backoff → result Backoff error.
Definition WithPolicy (p : Policy) : Option_ := λ b, Ok {| bo_policy := p; bo_transformers := bo_transformers b |}.
Definition WithErrTransformer (ts : list (error → error)) : Option_ := λ b, Ok {| bo_policy := bo_policy b; bo_transformers := ts |}.

Fixpoint applyOptions (b : Backoff) (options : list Option_) : result Backoff error :=
  match options with
  | [] => Ok b
  | o :: os => match o b with Err e => Err e | Ok b1 => applyOptions b1 os end
  end.

Definition New (options : list Option_) : result Backoff error :=
  match applyOptions {| bo_policy := FastRetryPolicy; bo_transformers := [] |} options with
  | Err e => Err e
  | Ok b => match validatePolicy (bo_policy b) with Some e => Err e | None => Ok b end
  end.

Record Attempts := { at_Attempt : Z; at_LastInterval : Z; at_TotalInterval : Z; at_Err : option error }.

Definition ErrRetryCanceled : error := Text "retry canceled".

Definition applyTransformers (b : Backoff) (err : error) : error := foldl (λ e t, t e) err (bo_transformers b).

(** [rand.Int63n(n)] for [n > 0], from a number the generator yields. *)
Definition Int63n (draw n : Z) : Z := draw mod n.

Definition randomize (p : Policy) (draw interval : Z) : Z :=
  if Qeq_bool (RandomizationFactor p) 0 then interval
  else
    let delta := scale interval (RandomizationFactor p) in
    let min := interval - delta in
    let max := interval + delta in
    if max - min <=? 0 then min else Int63n draw (max - min) + min.

Section retry.
Context {W : Type} `{Clock W} {A : Type}.

Definition ctxOK (w : W) (ctx : Ctx) (interval : Z) : bool :=
  if ctxErr w ctx then false
  else match ctx with
       | None => true
       | Some deadline =>
           let remaining := deadline - Now w in
           if remaining <=? 0 then false else negb (remaining <? interval)
       end.

Definition nextInterval (p : Policy) (base : Z) : Z := scale base (Multiplier p) `min` MaxInterval p.

Context (b : Backoff) (draw : nat → Z) (ctx : Ctx) (op : Attempts → W → W * result A error).

(** The loop of [Retry] after a failed attempt: at most [n] rounds, [None] when
    they do not suffice. *)
Fixpoint retryLoop (n : nat) (r : Attempts) (base real : Z) (err : error) (w : W) : W * option (result A error) :=
  match n with
  | O => (w, None)
  | S n =>
      let last := default err (at_Err r) in
      let err := applyTransformers b err in
      let p := bo_policy b in
      if Is (message ErrPermanent) err then (w, Some (Err err))
      else if (0 <? MaxAttempts p) && (MaxAttempts p <=? at_Attempt r) then
        (w, Some (Err (Wrapping ("exceeded max attempts: " +:+ message last +:+ ": " +:+ message ErrPermanent)
                         [last; ErrPermanent])))
      else if negb (ctxOK w ctx real) then
        (w, Some (Err (Wrapping ("r.Err: " +:+ message ErrRetryCanceled) [ErrRetryCanceled])))
      else
        let '(w1, fired) := Timer w ctx real in
        if negb fired then
          (w1, Some (Err (Wrapping (message last +:+ ": " +:+ message ErrRetryCanceled +:+ " ") [last; ErrRetryCanceled])))
        else
          let r1 := {| at_Attempt := at_Attempt r + 1; at_LastInterval := real;
                       at_TotalInterval := at_TotalInterval r + real; at_Err := at_Err r |} in
          let '(w2, res) := op r1 w1 in
          match res with
          | Ok a => (w2, Some (Ok a))
          | Err e =>
              let base' := nextInterval p base in
              retryLoop n {| at_Attempt := at_Attempt r1; at_LastInterval := real;
                             at_TotalInterval := at_TotalInterval r1; at_Err := Some e |}
                base' (randomize p (draw n) base') e w2
          end
  end.

Definition Retry (n : nat) (w : W) : W * option (result A error) :=
  let r := {| at_Attempt := 1; at_LastInterval := 0; at_TotalInterval := 0; at_Err := None |} in
  let '(w1, res) := op r w in
  match res with
  | Ok a => (w1, Some (Ok a))
  | Err e =>
      let base := InitialInterval (bo_policy b) in
      retryLoop n {| at_Attempt := 1; at_LastInterval := 0; at_TotalInterval := 0; at_Err := Some e |}
        base (randomize (bo_policy b) (draw n) base) e w1
  end.
End retry.

(** ** How long it takes *)

(** The least time [n] waits take from a base interval on. *)
Fixpoint leastWait (p : Policy) (n : nat) (base : Z) : Z :=
  match n with
  | O => 0
  | S n => (base - scale base (RandomizationFactor p)) + leastWait p n (nextInterval p base)
  end.

Section spec.
Context {W : Type} `{ClockLaws W} {A : Type}.
Implicit Types (w : W).

Lemma randomize_least p d i : 0 ≤ scale i (RandomizationFactor p) → i - scale i (RandomizationFactor p) ≤ randomize p d i.
Proof.
  intros Hs. rewrite /randomize /Int63n. destruct (Qeq_bool _ _); [lia|]. destruct (Z.leb_spec (i + scale i (RandomizationFactor p) -
    (i - scale i (RandomizationFactor p))) 0); [lia|].
  pose proof (Z.mod_pos_bound d (i + scale i (RandomizationFactor p) - (i - scale i (RandomizationFactor p)))). lia.
Qed.

Lemma ctxOK_time w d i : ctxOK w (Some d) i = true → 0 < d - Now w ∧ i ≤ d - Now w.
Proof.
  rewrite /ctxOK. destruct (ctxErr _ _); [done|]. destruct (Z.leb_spec (d - Now w) 0); [done|].
  destruct (Z.ltb_spec (d - Now w) i); [done|]. lia.
Qed.

Lemma scale_pos i f : 0 ≤ i → 0 ≤ Qnum f → 0 ≤ scale i f.
Proof. intros. rewrite /scale. apply Z.quot_pos; lia. Qed.

Context (b : Backoff) (draw : nat → Z) (op : Attempts → W → W * result A error).
Context (Hfactor : 0 ≤ Qnum (RandomizationFactor (bo_policy b))) (Hmult : 0 ≤ Qnum (Multiplier (bo_policy b)))
        (Hmax : 0 ≤ MaxInterval (bo_policy b)).
Context (P : W → Prop) (Hop : ∀ r w, P w → P (op r w).1 ∧ Now w ≤ Now (op r w).1)
        (Htimer : ∀ w ctx d, P w → P (Timer w ctx d).1).

Lemma nextInterval_pos base : 0 ≤ base → 0 ≤ nextInterval (bo_policy b) base.
Proof. intros. rewrite /nextInterval. pose proof (scale_pos base _ ltac:(done) Hmult). lia. Qed.

Lemma retryLoop_ends n r base real err w d :
  P w → 0 ≤ base → base - scale base (RandomizationFactor (bo_policy b)) ≤ real → d - Now w < leastWait (bo_policy b) (S n) base →
  (retryLoop b draw (Some d) op (S n) r base real err w).2 ≠ None.
Proof.
  revert r base real err w. induction n as [|n IH]; intros r base real err w HP Hb Hreal Hd;
    [|set (k := S n) in *]; cbn [retryLoop].
  all: destruct (Is _ _); [done|]; destruct (_ && _); [done|].
  all: destruct (ctxOK w (Some d) real) eqn:Hok; [|done]; cbn [negb]; destruct (ctxOK_time _ _ _ Hok) as [_ Hle].
  - cbn in Hd. lia.
  - pose proof (Htimer w (Some d) real HP) as HP1. destruct (Timer w (Some d) real) as [w1 fired] eqn:E. cbn [fst] in HP1. destruct (timer_waits _ _ _ _ _ E) as [_ Hw].
    destruct fired; [|done]. cbn [negb]. specialize (Hw eq_refl).
    match goal with |- context [op ?r w1] => destruct (Hop r w1 HP1) as [HP2 Hn]; destruct (op r w1) as [w2 [a|e]] end; [done|].
    cbn [fst] in HP2, Hn. apply IH; [done|by apply nextInterval_pos|apply randomize_least, scale_pos; [by apply nextInterval_pos|done]|].
    subst k. change (leastWait (bo_policy b) (S (S n)) base) with
      ((base - scale base (RandomizationFactor (bo_policy b))) + leastWait (bo_policy b) (S n) (nextInterval (bo_policy b) base)) in Hd.
    lia.
Qed.

(** The rounds that suffice: every wait takes time, and the deadline leaves only
    so much. *)
Lemma Retry_ends n w d :
  P w → 0 ≤ InitialInterval (bo_policy b) → d - Now w < leastWait (bo_policy b) (S n) (InitialInterval (bo_policy b)) →
  (Retry b draw (Some d) op (S n) w).2 ≠ None.
Proof.
  intros HP Hi Hd. rewrite /Retry. match goal with |- context [op ?r w] => destruct (Hop r w HP) as [HP1 Hn]; destruct (op r w) as [w1 [a|e]] end;
    [done|]. cbn [fst] in HP1, Hn. apply retryLoop_ends; [done|done|by apply randomize_least, scale_pos|lia].
Qed.
End spec.

(** A round takes at least the first interval's least wait. *)
Lemma fast_wait n base :
  100 * Millisecond ≤ base → base ≤ 60000 * Millisecond → 50 * Millisecond * Z.of_nat n ≤ leastWait FastRetryPolicy n base.
Proof.
  revert base. induction n as [|n IH]; intros base H1 H2; [done|]. cbn [leastWait].
  assert (scale base (RandomizationFactor FastRetryPolicy) = base `div` 2) as Es.
  { rewrite /scale /=. rewrite Z.mul_1_r Z.quot_div_nonneg //. rewrite /Millisecond in H1. lia. }
  assert (scale base (Multiplier FastRetryPolicy) = base * 2) as Em.
  { rewrite /scale /=. by rewrite Z.quot_1_r. }
  specialize (IH (nextInterval FastRetryPolicy base)). rewrite /nextInterval Em /= in IH |- *. rewrite Es.
  pose proof (Z.div_mod base 2 ltac:(lia)) as Hd. pose proof (Z.mod_pos_bound base 2 ltac:(lia)) as Hm.
  rewrite /Millisecond in H1 H2 IH |- *. lia.
Qed.

(** The interval after the [n]-th attempt, and the waits that come of it. *)
Definition intervalAfter (p : Policy) (n : Z) : Z := Nat.iter (Z.to_nat (n - 1)) (nextInterval p) (InitialInterval p).
Definition waitsAfter (p : Policy) (n t : Z) : Prop :=
  let i := intervalAfter p n in i - scale i (RandomizationFactor p) ≤ t ≤ i + scale i (RandomizationFactor p).

Lemma intervalAfter_next p n : 1 ≤ n → intervalAfter p (n + 1) = nextInterval p (intervalAfter p n).
Proof. intros Hn. rewrite /intervalAfter. by replace (Z.to_nat (n + 1 - 1)) with (S (Z.to_nat (n - 1))) by lia. Qed.

Lemma intervalAfter_pos p n : 0 ≤ InitialInterval p → 0 ≤ Qnum (Multiplier p) → 0 ≤ MaxInterval p → 0 ≤ intervalAfter p n.
Proof.
  intros Hi Hm Hx. rewrite /intervalAfter. induction (Z.to_nat (n - 1)) as [|k IH]; [done|].
  rewrite Nat.iter_succ. revert IH. generalize (Nat.iter k (nextInterval p) (InitialInterval p)). intros j IH. rewrite /nextInterval. pose proof (scale_pos _ _ IH Hm). lia.
Qed.

Lemma randomize_waits p d n :
  0 ≤ InitialInterval p → 0 ≤ Qnum (Multiplier p) → 0 ≤ MaxInterval p → 0 ≤ Qnum (RandomizationFactor p) →
  waitsAfter p n (randomize p d (intervalAfter p n)).
Proof.
  intros Hi Hm Hx Hf. pose proof (scale_pos _ _ (intervalAfter_pos p n Hi Hm Hx) Hf) as Hs. rewrite /waitsAfter. cbv zeta.
  split; [by apply randomize_least|]. rewrite /randomize /Int63n. destruct (Qeq_bool _ _); [lia|].
  set (i := intervalAfter p n) in *. set (s := scale i _) in *. destruct (Z.leb_spec (i + s - (i - s)) 0); [lia|].
  pose proof (Z.mod_pos_bound d (i + s - (i - s))). lia.
Qed.

(** ** What an operation that is retried does *)
Section moves.
Context {W : Type} `{Clock W} {A : Type}.
Context (R : W → W → Prop) `{!PreOrder R}.
Context (b : Backoff) (draw : nat → Z) (ctx : Ctx) (op : Attempts → W → W * result A error).
Context (Hop : ∀ r w, R w (op r w).1) (Htimer : ∀ w d, R w (Timer w ctx d).1).

(** The loop gives up with the operation's own error when it is permanent, with
    the cancellation alone when the context has ended or its deadline leaves no room
    for the wait after the last attempt, and with both when the context ends during
    that wait. *)
Inductive givesUp (w w' : W) : error → Prop :=
| gu_permanent r w1 e : R w w1 → op r w1 = (w', Err e) → Is (message ErrPermanent) e = true → givesUp w w' e
| gu_late r w1 e t : R w w1 → op r w1 = (w', Err e) → Is (message ErrPermanent) e = false →
    waitsAfter (bo_policy b) (at_Attempt r) t → ctxOK w' ctx t = false → givesUp w w' (Wrapping ("r.Err: " +:+ message ErrRetryCanceled) [ErrRetryCanceled])
| gu_canceled r w1 w2 t e : R w w1 → op r w1 = (w2, Err e) → Is (message ErrPermanent) e = false →
    waitsAfter (bo_policy b) (at_Attempt r) t → ctxOK w2 ctx t = true → Timer w2 ctx t = (w', false) →
    givesUp w w' (Wrapping (message e +:+ ": " +:+ message ErrRetryCanceled +:+ " ") [e; ErrRetryCanceled]).

Definition retryEnds (w w' : W) (res : option (result A error)) : Prop :=
  R w w' ∧ match res with
           | None => True
           | Some (Ok a) => ∃ r w1, R w w1 ∧ op r w1 = (w', Ok a)
           | Some (Err e) => givesUp w w' e
           end.

Lemma retryEnds_later w0 w w' res : R w0 w → retryEnds w w' res → retryEnds w0 w' res.
Proof.
  intros Hr [H1 H2]. split; [by etransitivity|]. destruct res as [[a|e]|]; [|destruct H2|done].
  - destruct H2 as (r & w1 & ? & ?). exists r, w1. split; [by etransitivity|done].
  - eapply gu_permanent; [|done|done]. by etransitivity.
  - eapply gu_late; [|done..]. by etransitivity.
  - eapply gu_canceled; [|done..]. by etransitivity.
Qed.

Context (Hplain : bo_transformers b = []) (Hunlimited : MaxAttempts (bo_policy b) = 0).
Context (Hinit : 0 ≤ InitialInterval (bo_policy b)) (Hmult : 0 ≤ Qnum (Multiplier (bo_policy b)))
        (Hmax : 0 ≤ MaxInterval (bo_policy b)) (Hfactor : 0 ≤ Qnum (RandomizationFactor (bo_policy b))).

Lemma retryLoop_spec n r base real r0 w0 w w' err res :
  op r0 w0 = (w, Err err) → at_Err r = Some err → at_Attempt r = at_Attempt r0 → 1 ≤ at_Attempt r0 →
  base = intervalAfter (bo_policy b) (at_Attempt r0) → waitsAfter (bo_policy b) (at_Attempt r0) real →
  retryLoop b draw ctx op n r base real err w = (w', res) → retryEnds w0 w' res.
Proof.
  revert r base real r0 w0 w err. induction n as [|n IH]; intros r base real r0 w0 w err Hfail Hr Hat Hone Hbase Hreal.
  { intros [= <- <-]. split; [|done]. by rewrite -[w]/((w, Err err : result A error).1) -Hfail. }
  assert (R w0 w) as H0 by by rewrite -[w]/((w, Err err : result A error).1) -Hfail.
  cbn [retryLoop]. rewrite /applyTransformers Hplain Hunlimited Hr. cbn [foldl default from_option id Z.ltb Z.compare andb].
  destruct (Is _ err) eqn:Hp.
  { intros [= <- <-]. split; [done|]. by eapply gu_permanent; [reflexivity|..]. }
  destruct (ctxOK w ctx real) eqn:Hok; cbn [negb]; [|intros [= <- <-]; split; [done|by eapply gu_late; [reflexivity|..]]].
  pose proof (Htimer w real) as Ht. destruct (Timer w ctx real) as [w1 fired] eqn:Et. cbn [fst] in Ht. destruct fired; cbn [negb];
    [|intros [= <- <-]; split; [by etransitivity|by eapply gu_canceled; [reflexivity|..]]].
  match goal with |- context [op ?r w1] => destruct (op r w1) as [w2 [a|e]] eqn:E end.
  - intros [= <- <-]. assert (R w0 w1) by by etransitivity. split; [|eauto].
    etransitivity; [done|]. rewrite -[w2]/((w2, Ok a : result A error).1) -E. apply Hop.
  - intros Hl. apply (retryEnds_later w0 w1); [by etransitivity|]. refine (IH _ _ _ _ _ _ _ E _ _ _ _ _ Hl); cbn [at_Attempt at_Err]; [done|done|lia|..];
      rewrite Hat Hbase -intervalAfter_next //. by apply randomize_waits.
Qed.

Lemma Retry_spec n w w' res : Retry b draw ctx op n w = (w', res) → retryEnds w w' res.
Proof.
  rewrite /Retry. match goal with |- context [op ?r w] => pose proof (Hop r w) as Hn; destruct (op r w) as [w1 [a|e]] eqn:E end.
  - intros [= <- <-]. split; [done|]. eexists _, w. split; [reflexivity|exact E].
  - apply retryLoop_spec with (1 := E); [done..|]. by apply (randomize_waits (bo_policy b) _ 1).
Qed.
End moves.
