(* ===== verification/HostConfig.v ===== *)
(** * The configuration of a node

    internal/dragonboat/config/config.go: the settings of a replica and of a
    NodeHost with their checks, and the part of internal/raft/consensus/host.go
    that checks a node's configuration and derives those settings from it.  The
    address parsers of [net] and [net/netip] are arguments. *)
From stdpp Require Import pretty.
From S2P Require Import Prelude GoStrings Errors Meta Fsm Consensus.

Local Open Scope string_scope.
Local Open Scope list_scope.
Local Open Scope Z_scope.

(** ** config.go of dragonboat *)
Module dragonboat.
Record Config := {
  NodeID : Z;
  ClusterID : Z;
  CheckQuorum : bool;
  ElectionRTT : Z;
  HeartbeatRTT : Z;
  SnapshotEntries : Z;
  CompactionOverhead : Z;
  OrderedConfigChange : bool;
  MaxInMemLogSize : Z;
  SnapshotCompressionType : Z;
  EntryCompressionType : Z;
  DisableAutoCompactions : bool;
  IsObserver : bool;
  IsWitness : bool;
  Quiesce : bool
}.

Definition NoCompression : Z := 0.
Definition Snappy : Z := 1.
Definition knownCompression (t : Z) : bool := (t =? Snappy) || (t =? NoCompression).

(** [settings.EntryNonCmdFieldsSize] *)
Definition EntryNonCmdFieldsSize : Z := 16 * 8.

Definition Validate (c : Config) : option error :=
  if NodeID c =? 0 then Some (Text "invalid NodeID, it must be >= 1")
  else if HeartbeatRTT c =? 0 then Some (Text "HeartbeatRTT must be > 0")
  else if ElectionRTT c =? 0 then Some (Text "ElectionRTT must be > 0")
  else if ElectionRTT c <=? u64 (2 * HeartbeatRTT c) then Some (Text "invalid election rtt")
  else if (0 <? MaxInMemLogSize c) && (MaxInMemLogSize c <? EntryNonCmdFieldsSize + 1) then
    Some (Text "MaxInMemLogSize is too small")
  else if negb (knownCompression (SnapshotCompressionType c)) then Some (Text "unknown compression type")
  else if negb (knownCompression (EntryCompressionType c)) then Some (Text "unknown compression type")
  else if IsWitness c && (0 <? SnapshotEntries c) then Some (Text "witness node can not take snapshot")
  else if IsWitness c && IsObserver c then Some (Text "witness node can not be an observer")
  else None.

Record GossipConfig := { BindAddress : string; AdvertiseAddress : string; Seed : list string }.

Definition empty (s : string) : bool := bool_decide (s = "").

Definition IsEmpty (g : GossipConfig) : bool :=
  empty (BindAddress g) && empty (AdvertiseAddress g) && bool_decide (Seed g = []).

(** The settings the program sets; the factories, listeners and queue sizes keep
    their zero values. *)
Record NodeHostConfig := {
  NodeHostDir : string;
  RTTMillisecond : Z;
  RaftAddress : string;
  AddressByNodeHostID : bool;
  ListenAddress : string;
  MutualTLS : bool;
  CAFile : string;
  CertFile : string;
  KeyFile : string;
  MaxSendQueueSize : Z;
  MaxReceiveQueueSize : Z;
  Gossip : GossipConfig;
  TestNodeHostID : Z
}.

Section addresses.
Context (isValidDualStackAddress isValidAdvertiseAddress : string → bool).

(** The loop over the seeds: how many are other nodes, or an error. *)
Fixpoint countSeeds (g : GossipConfig) (seeds : list string) (count : Z) : result Z error :=
  match seeds with
  | [] => Ok count
  | v :: vs =>
      let count := if bool_decide (v ≠ BindAddress g) && bool_decide (v ≠ AdvertiseAddress g) then count + 1 else count in
      if negb (isValidDualStackAddress v) then Err (Text "invalid GossipConfig.Seed value") else countSeeds g vs count
  end.

Definition ValidateGossip (g : GossipConfig) : option error :=
  if negb (empty (BindAddress g)) && negb (isValidDualStackAddress (BindAddress g)) then
    Some (Text "invalid GossipConfig.BindAddress")
  else if empty (BindAddress g) then Some (Text "BindAddress not set")
  else if negb (empty (AdvertiseAddress g)) && negb (isValidAdvertiseAddress (AdvertiseAddress g)) then
    Some (Text "invalid GossipConfig.AdvertiseAddress")
  else if bool_decide (Seed g = []) then Some (Text "seed nodes not set")
  else match countSeeds g (Seed g) 0 with
       | Err e => Some e
       | Ok count => if count =? 0 then Some (Text "no valid seed node") else None
       end.

(** [NodeHostConfig.Validate] without the checks of the factories and the
    engine's sizes, which are unset. *)
Definition ValidateHost (c : NodeHostConfig) : option error :=
  if RTTMillisecond c =? 0 then Some (Text "invalid RTTMillisecond")
  else if empty (NodeHostDir c) then Some (Text "NodeHostConfig.NodeHostDir is empty")
  else if MutualTLS c && empty (CAFile c) then Some (Text "CA file not specified")
  else if MutualTLS c && empty (CertFile c) then Some (Text "cert file not specified")
  else if MutualTLS c && empty (KeyFile c) then Some (Text "key file not specified")
  else if (0 <? MaxSendQueueSize c) && (MaxSendQueueSize c <? EntryNonCmdFieldsSize + 1) then
    Some (Text "MaxSendQueueSize value is too small")
  else if (0 <? MaxReceiveQueueSize c) && (MaxReceiveQueueSize c <? EntryNonCmdFieldsSize + 1) then
    Some (Text "MaxReceiveSize value is too small")
  else if AddressByNodeHostID c && IsEmpty (Gossip c) then Some (Text "gossip service not configured")
  else if negb (isValidDualStackAddress (RaftAddress c)) then Some (Text "invalid NodeHost address")
  else if negb (empty (ListenAddress c)) && negb (isValidDualStackAddress (ListenAddress c)) then
    Some (Text "invalid ListenAddress")
  else if negb (IsEmpty (Gossip c)) then ValidateGossip (Gossip c)
  else None.
End addresses.
End dragonboat.
Import dragonboat (NodeHostConfig).

(** ** host.go *)
Record Config := {
  ReplicaID : Z;
  RaftAddr : string;
  GRPCAddr : string;
  DataDir : string;
  Shards : list Z;
  MetaShardID : Z;
  Members : gmap Z string;
  Join_ : bool;
  MutualTLS : bool;
  CAFile : string;
  CertFile : string;
  KeyFile : string;
  Gossip : bool;
  NodeHostID : Z;
  GossipBind : string;
  GossipSeeds : list string;
  SnapshotEntries : Z;
  CompactionOverhead : Z
}.

Definition GossipTarget (nodeHostID : Z) : string := "nhid-" +:+ pretty nodeHostID.
Definition nodeHostIDString (c : Config) : string := if Gossip c then GossipTarget (NodeHostID c) else "".

Definition configError (msg : string) : option error := Some (Text ("consensus.Config: " +:+ msg)).

Definition validate (c : Config) : option error :=
  if ReplicaID c =? 0 then configError "ReplicaID must be non-zero"
  else if bool_decide (RaftAddr c = "") then configError "RaftAddr is required"
  else if bool_decide (GRPCAddr c = "") then
    configError "GRPCAddr is required (it is recorded in the meta shard so peers can forward writes here)"
  else if bool_decide (DataDir c = "") then configError "DataDir is required"
  else if bool_decide (Shards c = []) then configError "at least one shard is required"
  else if existsb (λ shardID, negb (MetaShardID c =? 0) && (shardID =? MetaShardID c)) (Shards c) then
    configError ("MetaShardID " +:+ pretty (MetaShardID c) +:+ " collides with a lock shard")
  else if MutualTLS c && (bool_decide (CAFile c = "") || bool_decide (CertFile c = "") || bool_decide (KeyFile c = "")) then
    configError "MutualTLS requires CAFile, CertFile, and KeyFile"
  else if Gossip c && (NodeHostID c =? 0) then configError "Gossip requires a non-zero NodeHostID"
  else if Gossip c && bool_decide (GossipBind c = "") then configError "Gossip requires GossipBind"
  else if Gossip c && bool_decide (GossipSeeds c = []) then configError "Gossip requires at least one GossipSeed"
  else if Join_ c then None
  else if bool_decide (Members c = ∅) then configError "Members is required when not joining"
  else if bool_decide (Members c !! ReplicaID c = None) then
    configError ("Members must include this node's ReplicaID " +:+ pretty (ReplicaID c))
  else None.

Definition defaultSnapshotEntries : Z := 1000.

(** The parts of [New] that derive dragonboat's settings. *)
Definition nodeHostConfig (c : Config) : NodeHostConfig :=
  {| dragonboat.NodeHostDir := DataDir c; dragonboat.RTTMillisecond := 5; dragonboat.RaftAddress := RaftAddr c;
     dragonboat.AddressByNodeHostID := Gossip c; dragonboat.ListenAddress := "";
     dragonboat.MutualTLS := MutualTLS c; dragonboat.CAFile := CAFile c; dragonboat.CertFile := CertFile c;
     dragonboat.KeyFile := KeyFile c; dragonboat.MaxSendQueueSize := 0; dragonboat.MaxReceiveQueueSize := 0;
     dragonboat.Gossip := if Gossip c then {| dragonboat.BindAddress := GossipBind c; dragonboat.AdvertiseAddress := GossipBind c;
                                               dragonboat.Seed := GossipSeeds c |}
                          else {| dragonboat.BindAddress := ""; dragonboat.AdvertiseAddress := ""; dragonboat.Seed := [] |};
     dragonboat.TestNodeHostID := if Gossip c then NodeHostID c else 0 |}.

Definition hostedShards (c : Config) : list Z := Shards c ++ if negb (MetaShardID c =? 0) then [MetaShardID c] else [].

Definition replicaConfig (c : Config) (shardID : Z) : dragonboat.Config :=
  {| dragonboat.NodeID := ReplicaID c; dragonboat.ClusterID := shardID; dragonboat.CheckQuorum := true;
     dragonboat.ElectionRTT := 10; dragonboat.HeartbeatRTT := 1;
     dragonboat.SnapshotEntries := if SnapshotEntries c =? 0 then defaultSnapshotEntries else SnapshotEntries c;
     dragonboat.CompactionOverhead := if CompactionOverhead c =? 0 then 100 else CompactionOverhead c;
     dragonboat.OrderedConfigChange := false; dragonboat.MaxInMemLogSize := 0;
     dragonboat.SnapshotCompressionType := dragonboat.NoCompression; dragonboat.EntryCompressionType := dragonboat.NoCompression;
     dragonboat.DisableAutoCompactions := false; dragonboat.IsObserver := false; dragonboat.IsWitness := false;
     dragonboat.Quiesce := false |}.

Definition initialMembers (c : Config) : gmap Z string := if Join_ c then ∅ else Members c.

(** ** What a checked configuration has *)
Section checked.
Context (dual advertise : string → bool).

(** The next check of a [switch] passed. *)
Local Ltac passed H := match goal with |- context [if ?b then _ else _] => destruct b eqn:H; [done|] end.

(** What [validate] accepts. *)
Record config_ok (c : Config) : Prop := {
  co_replica : ReplicaID c ≠ 0;
  co_addr : RaftAddr c ≠ "" ∧ GRPCAddr c ≠ "" ∧ DataDir c ≠ "";
  co_shards : Shards c ≠ [] ∧ (MetaShardID c ≠ 0 → MetaShardID c ∉ Shards c);
  co_tls : MutualTLS c = true → CAFile c ≠ "" ∧ CertFile c ≠ "" ∧ KeyFile c ≠ "";
  co_gossip : Gossip c = true → NodeHostID c ≠ 0 ∧ GossipBind c ≠ "" ∧ GossipSeeds c ≠ [];
  co_members : Join_ c = false → is_Some (Members c !! ReplicaID c)
}.

Lemma validate_ok c : validate c = None → config_ok c.
Proof.
  rewrite /validate /configError. passed H1. passed H2. passed H3. passed H4. passed H5. passed H6. passed H7. passed H8.
  passed H9. passed H10. intros Hend. rewrite !bool_decide_eq_false in H2 H3 H4 H5.
  split; [by apply Z.eqb_neq|done| | | |].
  - split; [done|]. intros Hm Hin. rewrite -not_true_iff_false existsb_exists in H6. apply H6. exists (MetaShardID c).
    split; [by apply list_elem_of_In|]. apply Z.eqb_neq in Hm. by rewrite Hm Z.eqb_refl.
  - intros Ht. rewrite Ht /= !orb_false_iff !bool_decide_eq_false in H7. naive_solver.
  - intros Hg. rewrite Hg /= in H8 H9 H10. rewrite !bool_decide_eq_false in H9 H10. split_and!; [by apply Z.eqb_neq|done|done].
  - intros Hj. rewrite Hj in Hend. case_bool_decide; [done|]. case_bool_decide; [done|]. by apply not_eq_None_Some.
Qed.

Lemma countSeeds_ok g seeds n :
  Forall (λ v, dual v = true) seeds →
  ∃ count, dragonboat.countSeeds dual g seeds n = Ok count ∧ n ≤ count ∧
    (Exists (λ v, v ≠ dragonboat.BindAddress g ∧ v ≠ dragonboat.AdvertiseAddress g) seeds → n < count).
Proof.
  intros Hs. revert n. induction Hs as [|v vs Hv Hs IH]; intros n.
  { exists n. split_and!; [done|done|]. by intros ?%Exists_nil. }
  cbn [dragonboat.countSeeds]. rewrite Hv. cbn [negb]. setoid_rewrite Exists_cons.
  destruct (decide (v ≠ dragonboat.BindAddress g ∧ v ≠ dragonboat.AdvertiseAddress g)) as [[Hb Ha]|Hself].
  - rewrite !bool_decide_eq_true_2 //=. destruct (IH (n + 1)) as (count & -> & Hle & _). exists count. split_and!; [done|lia|lia].
  - destruct (IH n) as (count & E & Hle & Hex). exists count.
    repeat case_bool_decide; cbn [andb]; try (by destruct Hself); (split_and!; [exact E|done|naive_solver]).
Qed.

(** The addresses of a configuration are of the form dragonboat accepts, and
    gossip has another node to start from. *)
Definition addresses_ok (c : Config) : Prop :=
  dual (RaftAddr c) = true ∧
  (Gossip c = true → dual (GossipBind c) = true ∧ advertise (GossipBind c) = true ∧
     Forall (λ v, dual v = true) (GossipSeeds c) ∧ Exists (λ v, v ≠ GossipBind c) (GossipSeeds c)).

Lemma gossip_accepted c :
  config_ok c → addresses_ok c → Gossip c = true →
  dragonboat.ValidateGossip dual advertise (dragonboat.Gossip (nodeHostConfig c)) = None.
Proof.
  intros Hok [_ Haddr] Hg. destruct (co_gossip c Hok Hg) as (_ & Hb & Hs). destruct (Haddr Hg) as (Hd & Ha & Hseeds & Hex).
  rewrite /dragonboat.ValidateGossip /dragonboat.empty /nodeHostConfig /= Hg /= Hd Ha !bool_decide_eq_false_2 //=.
  destruct (countSeeds_ok {| dragonboat.BindAddress := GossipBind c; dragonboat.AdvertiseAddress := GossipBind c;
    dragonboat.Seed := GossipSeeds c |} (GossipSeeds c) 0 Hseeds) as (count & -> & _ & Hlt).
  destruct (Z.eqb_spec count 0) as [-> |]; [|done]. exfalso. enough (0 < 0) by lia. apply Hlt.
  eapply Exists_impl; [exact Hex|]. done.
Qed.

(** a node that passes its own checks starts.  When [validate] accepts a
    configuration whose addresses are well formed, the NodeHost's settings and
    the settings of the replica of every hosted shard pass dragonboat's checks;
    the lock shards get the lock state machine and the meta shard, when there is
    one, the topology; and a node that does not join is a member of every shard it
    starts. *)
Theorem checked_config_starts c notifier :
  validate c = None → addresses_ok c →
  dragonboat.ValidateHost dual advertise (nodeHostConfig c) = None ∧
  (∀ sh, sh ∈ hostedShards c → dragonboat.Validate (replicaConfig c sh) = None) ∧
  (∀ sh, sh ∈ Shards c → newFactory notifier (MetaShardID c) sh (ReplicaID c) = LockMachine (New notifier)) ∧
  (∀ sh, sh ∈ hostedShards c → sh ∉ Shards c → newFactory notifier (MetaShardID c) sh (ReplicaID c) = MetaMachine NewStore) ∧
  (Join_ c = false → is_Some (initialMembers c !! ReplicaID c)).
Proof.
  intros Hok%validate_ok Haddr. destruct (co_addr c Hok) as (H1 & _ & H3). split_and!.
  - pose proof (gossip_accepted c Hok Haddr) as Hgossip. destruct Haddr as [Hraft _].
    rewrite /dragonboat.ValidateHost. cbn [dragonboat.RTTMillisecond dragonboat.NodeHostDir nodeHostConfig dragonboat.MutualTLS
      dragonboat.CAFile dragonboat.CertFile dragonboat.KeyFile dragonboat.MaxSendQueueSize dragonboat.MaxReceiveQueueSize
      dragonboat.AddressByNodeHostID dragonboat.RaftAddress dragonboat.ListenAddress].
    rewrite /dragonboat.empty Hraft !(bool_decide_eq_false_2 (DataDir c = "")) //=.
    assert (∀ s, (MutualTLS c = true → s ≠ "") → MutualTLS c && bool_decide (s = "") = false) as Hfile.
    { intros s Hs. destruct (MutualTLS c); [|done]. by rewrite bool_decide_eq_false_2; auto. }
    pose proof (co_tls c Hok) as Ht. rewrite !Hfile; [by intros HT; apply (Ht HT)..|].
    destruct (Gossip c) eqn:Hg; [|done].
    assert (dragonboat.IsEmpty (dragonboat.Gossip (nodeHostConfig c)) = false) as Hne.
    { rewrite /dragonboat.IsEmpty /dragonboat.empty /nodeHostConfig /= Hg /=. destruct (co_gossip c Hok Hg) as (_ & Hb & _).
      by rewrite bool_decide_eq_false_2. }
    rewrite /nodeHostConfig /= Hg in Hne, Hgossip. by rewrite Hne Hgossip.
  - intros sh _. rewrite /dragonboat.Validate /=. pose proof (co_replica c Hok) as ->%Z.eqb_neq. done.
  - intros sh Hsh. rewrite /newFactory. destruct (Z.eqb_spec (MetaShardID c) 0) as [|Hm]; [done|].
    destruct (Z.eqb_spec sh (MetaShardID c)) as [-> |]; [|done]. destruct (co_shards c Hok) as [_ Hno]. by destruct (Hno Hm).
  - rewrite /hostedShards. intros sh [?|Hsh]%elem_of_app Hno; [done|]. rewrite /newFactory.
    destruct (Z.eqb_spec (MetaShardID c) 0); cbn [negb] in *; [by apply elem_of_nil in Hsh|].
    apply list_elem_of_singleton in Hsh as ->. by rewrite Z.eqb_refl.
  - intros Hj. rewrite /initialMembers Hj. by apply (co_members c Hok).
Qed.
End checked.

Definition demo_node : Config :=
  {| ReplicaID := 1; RaftAddr := "10.0.0.1:7000"; GRPCAddr := "10.0.0.1:8000"; DataDir := "zuul"; Shards := [1; 2];
     MetaShardID := 100; Members := <[1 := "10.0.0.1:7000"]> (<[2 := "10.0.0.2:7000"]> ∅); Join_ := false; MutualTLS := false;
     CAFile := ""; CertFile := ""; KeyFile := ""; Gossip := true; NodeHostID := 7; GossipBind := "10.0.0.1:9000";
     GossipSeeds := ["10.0.0.1:9000"; "10.0.0.2:9000"]; SnapshotEntries := 0; CompactionOverhead := 0 |}.

Definition demo_address (s : string) : bool := negb (bool_decide (s = "")).

Lemma checked_config_starts_witness :
  dragonboat.ValidateHost demo_address demo_address (nodeHostConfig demo_node) = None.
Proof.
  destruct (checked_config_starts demo_address demo_address demo_node None) as [H _]; [by vm_compute| |exact H].
  split; [done|]. intros _. split_and!; [done|done|by repeat constructor|]. right. left. done.
Defined.
