(* ===== verification/Host.v ===== *)
(** * The consensus host

    internal/raft/consensus/host.go: one node of the cluster, which serves
    several shards through dragonboat's NodeHost.

    [NodeHost] is what the host uses of dragonboat: the committed state of every
    shard, what each node has applied of it, the members of a shard and the
    blocking calls, during which other callers' commands are committed too.
    [NodeHostLaws] states what replication gives.  Queries and answers are the
    values the state machines' [Lookup] takes and returns.  A node is named by its
    replica id.  The iteration order of a map is an argument. *)
From stdpp Require Import pretty.
From Stdlib Require Import Ascii.
From S2P Require Import Prelude GoStrings Wire Errors Keypath Meta Fsm FsmWire FsmInv FsmSpec FsmTrace Consensus Router Cluster Session FsmContract Retry HostConfig.

Local Open Scope string_scope.
Local Open Scope list_scope.
Local Open Scope Z_scope.

(** ** Replicated state machines *)
Inductive anyQuery := LockQuery (q : Query) | TopologyQuery (q : MetaQuery).
Inductive anyAnswer := LockAnswer (a : Answer) | TopologyAnswer (a : MetaAnswer).

(** [Lookup] of the state machine a shard runs; a query of the other kind is an
    unknown type. *)
Definition lookupAny (m : machine) (q : anyQuery) : option anyAnswer :=
  match m, q with
  | LockMachine f, LockQuery q => match Consensus.Lookup f q with Ok a => Some (LockAnswer a) | Err _ => None end
  | MetaMachine s, TopologyQuery q => match LookupMeta s q with Ok a => Some (TopologyAnswer a) | Err _ => None end
  | _, _ => None
  end.

(** [Update] with one entry. *)
Definition updateOne (m : machine) (b : list ascii) : option (machine * SmResult) :=
  let e := {| en_Index := 0; en_Cmd := b; en_Result := {| sr_Value := 0; sr_Data := [] |} |} in
  match m with
  | LockMachine f => match Update f [e] with (f', Ok [e']) => Some (LockMachine f', en_Result e') | _ => None end
  | MetaMachine s => match UpdateMeta s [e] with (s', Ok [e']) => Some (MetaMachine s', en_Result e') | _ => None end
  end.

Definition encodeMeta (c : MetaCmd) : list ascii := MarshalMetaCommand {| GetMetaCmd := Some c |}.

(** The commands a shard's state machine understands. *)
Definition typed (m : machine) (b : list ascii) : Prop :=
  match m with
  | LockMachine _ => ∃ c, proposal c ∧ b = encode c
  | MetaMachine _ => ∃ c, meta_proposal c ∧ b = encodeMeta c
  end.

Definition meta_moved (s t : Store) : Prop := ∃ cs, Forall meta_proposal cs ∧ t = runMeta s cs.

Definition machine_moved (m m' : machine) : Prop :=
  match m, m' with
  | LockMachine f, LockMachine g => moved f g
  | MetaMachine s, MetaMachine t => meta_moved s t
  | _, _ => False
  end.

Definition isMeta (meta shardID : Z) : bool := negb (meta =? 0) && (shardID =? meta).

Definition machine_ok (meta shardID : Z) (m : machine) : Prop :=
  match m with
  | LockMachine f => isMeta meta shardID = false ∧ wf f ∧ stored (abs f)
  | MetaMachine s => isMeta meta shardID = true ∧ meta_stored s
  end.

(** ** dragonboat's NodeHost *)
Class NodeHost (W : Type) := {
  committed : W → Z → machine;
  applied : W → Z → Z → machine;
  memberLog : W → Z → list (gmap Z string);
  GetLeaderID : W → Z → Z → result (Z * bool) error;
  SyncPropose : W → Z → Ctx → Z → list ascii → W * result SmResult error;
  SyncRead : W → Z → Ctx → Z → anyQuery → W * result anyAnswer error;
  LocalRead : W → Z → Z → anyQuery → result anyAnswer error;
  SyncGetClusterMembership : W → Z → Ctx → Z → W * result (gmap Z string) error;
  SyncRequestAddNode : W → Z → Ctx → Z → Z → string → W * option error;
  SyncRequestDeleteNode : W → Z → Ctx → Z → Z → W * option error;
  RequestLeaderTransfer : W → Z → Z → Z → W * option error
}.

(** [memberLog] has the memberships a shard has had, the present one last.  The shard
    had the members [ms] between two worlds if they are the ones of the first or were
    decided since. *)
Definition membersNow {W} `{NodeHost W} (w : W) (sh : Z) : gmap Z string := default ∅ (last (memberLog w sh)).
Definition hadMembers {W} `{NodeHost W} (w w' : W) (sh : Z) (ms : gmap Z string) : Prop :=
  ∃ i, (length (memberLog w sh) ≤ S i)%nat ∧ memberLog w' sh !! i = Some ms.
Definition memberDuring {W} `{NodeHost W} (sh : Z) (Q : gmap Z string → Prop) (w w' : W) : Prop := ∃ ms, hadMembers w w' sh ms ∧ Q ms.

(** A node that was removed is not added again. *)
Definition goneStaysGone (l : list (gmap Z string)) : Prop :=
  ∀ i j k mi mj mk id, (i < j < k)%nat → l !! i = Some mi → l !! j = Some mj → l !! k = Some mk →
    is_Some (mi !! id) → mj !! id = None → mk !! id = None.

(** Time passes, and shards, their members and replicas move on. *)
Record later {W} `{Clock W} `{NodeHost W} (w w' : W) : Prop := {
  later_time : Now w ≤ Now w';
  later_committed sh : machine_moved (committed w sh) (committed w' sh);
  later_applied n sh : machine_moved (applied w n sh) (applied w' n sh);
  later_members sh : memberLog w sh `prefix_of` memberLog w' sh
}.

(** What a call does to the world: nothing that is not valid. *)
Definition steps {W} `{Clock W} `{NodeHost W} (valid : W → Prop) (w w' : W) : Prop := valid w → valid w' ∧ later w w'.

(** A proposal that succeeds was applied at some point during the call and the
    result is the result of that application, a linearizable read answers from a
    state the shard had during the call, a local read from what the node has
    applied, and a membership call reports or establishes a membership the shard
    had during the call.  A call that fails may have had its effect or not. *)
Class NodeHostLaws W `{Clock W} `{NodeHost W} (meta : Z) := {
  nh_valid : W → Prop;
  nh_committed w sh : nh_valid w → machine_ok meta sh (committed w sh);
  nh_applied w n sh : nh_valid w → machine_moved (applied w n sh) (committed w sh);
  nh_replica w n sh : nh_valid w → machine_ok meta sh (applied w n sh);
  nh_history w sh : nh_valid w → goneStaysGone (memberLog w sh);
  nh_timer w ctx d : steps nh_valid w (Timer w ctx d).1;
  nh_tick w ctx : steps nh_valid w (Tick w ctx).1;
  nh_propose w n ctx sh b : typed (committed w sh) b → steps nh_valid w (SyncPropose w n ctx sh b).1;
  nh_proposed w n ctx sh b w' res : nh_valid w → typed (committed w sh) b → SyncPropose w n ctx sh b = (w', Ok res) →
    small (sr_Data res) ∧
    ∃ m m', machine_moved (committed w sh) m ∧ updateOne m b = Some (m', res) ∧ machine_moved m' (committed w' sh);
  nh_read w n ctx sh q : steps nh_valid w (SyncRead w n ctx sh q).1;
  nh_answers w n ctx sh q w' a : nh_valid w → SyncRead w n ctx sh q = (w', Ok a) →
    ∃ m, machine_moved (committed w sh) m ∧ lookupAny m q = Some a ∧ machine_moved m (committed w' sh);
  nh_local w n sh q a : nh_valid w → LocalRead w n sh q = Ok a → lookupAny (applied w n sh) q = Some a;
  nh_members w n ctx sh : steps nh_valid w (SyncGetClusterMembership w n ctx sh).1;
  nh_member w n ctx sh w' ms : nh_valid w → SyncGetClusterMembership w n ctx sh = (w', Ok ms) →
    hadMembers w w' sh ms;
  nh_add w n ctx sh id addr : steps nh_valid w (SyncRequestAddNode w n ctx sh id addr).1;
  nh_added w n ctx sh id addr w' : nh_valid w → SyncRequestAddNode w n ctx sh id addr = (w', None) →
    memberDuring sh (λ ms, ms !! id = Some addr) w w';
  nh_delete w n ctx sh id : steps nh_valid w (SyncRequestDeleteNode w n ctx sh id).1;
  nh_deleted w n ctx sh id w' : nh_valid w → SyncRequestDeleteNode w n ctx sh id = (w', None) →
    memberDuring sh (λ ms, ms !! id = None) w w';
  nh_transfer w n sh target : steps nh_valid w (RequestLeaderTransfer w n sh target).1
}.

(** ** host.go *)
Definition proposeTimeout : Z := 5000 * Millisecond.

Record Host := {
  h_sessions : gset Z;
  h_shards : list Z;
  h_hosted : list Z;
  h_metaShardID : Z;
  h_replicaID : Z;
  h_raftAddr : string;
  h_grpcAddr : string;
  h_nodeHostID : string
}.

(** [fmt.Errorf("...: %w", err)] *)
Definition wrapf (prefix : string) (err : error) : error := Wrapping (prefix +:+ message err) [err].

(** What [New] uses of dragonboat besides: booting a NodeHost, starting the
    replica of a shard with a factory for its state machine, and stopping. *)
Class Boot (W : Type) := {
  NewNodeHost : W → dragonboat.NodeHostConfig → W * option error;
  StartConcurrentCluster : W → gmap Z string → bool → (Z → Z → machine) → dragonboat.Config → W * option error;
  StopHost : W → Z → W
}.

Section host.
Context {W : Type} `{Clock W} `{NodeHost W}.

Definition allShardsHaveLeader (h : Host) (w : W) : bool :=
  forallb (λ shardID, match GetLeaderID w (h_replicaID h) shardID with Ok (_, ok) => ok | Err _ => false end) (h_hosted h).

Definition Ready (h : Host) (w : W) : bool := allShardsHaveLeader h w.

(** The loop of [waitReady], at most [n] polls; [None] when they do not suffice. *)
Fixpoint waitPolls (h : Host) (wait : Ctx) (n : nat) (w : W) : W * option (option error) :=
  match n with
  | O => (w, None)
  | S n =>
      if allShardsHaveLeader h w then (w, Some None)
      else
        let '(w1, ticked) := Tick w wait in
        if negb ticked then
          (w1, Some (Some (E CatUnavailable TypeConsensus
             (Some (wrapf "consensus.New: timed out waiting for shard leadership: "
                (Text (if Canceled w1 then "context canceled" else "context deadline exceeded")))))))
        else waitPolls h wait n w1
  end.

Definition waitReady (h : Host) (ctx : Ctx) (n : nat) (w : W) : W * option (option error) :=
  waitPolls h (EnsureDeadline w ctx proposeTimeout) n w.

Section boot.
Context `{Boot W}.

(** The loop of [New] over the hosted shards. *)
Fixpoint startShards (cfg : Config) (create : Z → Z → machine) (shards : list Z) (h : Host) (w : W) : W * result Host error :=
  match shards with
  | [] => (w, Ok h)
  | shardID :: shards =>
      let '(w1, err) := StartConcurrentCluster w (initialMembers cfg) (Join_ cfg) create (replicaConfig cfg shardID) in
      match err with
      | Some e =>
          (StopHost w1 (ReplicaID cfg),
           Err (E CatInternal TypeConfig
             (Some (wrapf ("consensus.New: StartConcurrentCluster shard " +:+ pretty shardID +:+ ": ") e))))
      | None =>
          startShards cfg create shards
            {| h_sessions := h_sessions h ∪ {[shardID]}; h_shards := h_shards h; h_hosted := h_hosted h;
               h_metaShardID := h_metaShardID h; h_replicaID := h_replicaID h; h_raftAddr := h_raftAddr h;
               h_grpcAddr := h_grpcAddr h; h_nodeHostID := h_nodeHostID h |} w1
      end
  end.

Definition newHost (cfg : Config) : Host :=
  {| h_sessions := ∅; h_shards := Shards cfg; h_hosted := hostedShards cfg; h_metaShardID := MetaShardID cfg;
     h_replicaID := ReplicaID cfg; h_raftAddr := RaftAddr cfg; h_grpcAddr := GRPCAddr cfg; h_nodeHostID := nodeHostIDString cfg |}.

(** [New], with [n] polls of [waitReady]. *)
Definition New (cfg : Config) (notifier : option (list Event)) (ctx : Ctx) (n : nat) (w : W) : W * option (result Host error) :=
  match validate cfg with
  | Some e => (w, Some (Err e))
  | None =>
      let '(w1, err) := NewNodeHost w (nodeHostConfig cfg) in
      match err with
      | Some e => (w1, Some (Err (E CatInternal TypeConfig (Some (wrapf "consensus.New: NewNodeHost: " e)))))
      | None =>
          let '(w2, r) := startShards cfg (newFactory notifier (MetaShardID cfg)) (hostedShards cfg) (newHost cfg) w1 in
          match r with
          | Err e => (w2, Some (Err e))
          | Ok h =>
              let '(w3, ready) := waitReady h ctx n w2 in
              match ready with
              | None => (w3, None)
              | Some (Some e) => (StopHost w3 (ReplicaID cfg), Some (Err e))
              | Some None => (w3, Some (Ok h))
              end
          end
      end
  end.
End boot.

Definition notHosted (shardID : Z) : error :=
  E CatRequest TypeBadRequest (Some (Text ("consensus.Propose: shard " +:+ pretty shardID +:+ " not hosted here"))).

Definition Propose (h : Host) (w : W) (ctx : Ctx) (shardID : Z) (cmd : list ascii) : W * result (list ascii) error :=
  if negb (bool_decide (shardID ∈ h_sessions h)) then (w, Err (notHosted shardID))
  else
    let pctx := EnsureDeadline w ctx proposeTimeout in
    let '(w1, r) := SyncPropose w (h_replicaID h) pctx shardID cmd in
    (w1, match r with
         | Err e => Err (E CatUnavailable TypeConsensus (Some (wrapf "consensus.Propose: " e)))
         | Ok res => Ok (sr_Data res)
         end).

Definition Read (h : Host) (w : W) (ctx : Ctx) (shardID : Z) (query : anyQuery) : W * result anyAnswer error :=
  let rctx := EnsureDeadline w ctx proposeTimeout in
  let '(w1, r) := SyncRead w (h_replicaID h) rctx shardID query in
  (w1, match r with
       | Err e => Err (E CatUnavailable TypeConsensus (Some (wrapf "consensus.Read: " e)))
       | Ok a => Ok a
       end).

Definition StaleRead (h : Host) (w : W) (shardID : Z) (query : anyQuery) : result anyAnswer error :=
  LocalRead w (h_replicaID h) shardID query.

Definition IsLeader (h : Host) (w : W) (shardID : Z) : bool :=
  match GetLeaderID w (h_replicaID h) shardID with
  | Ok (leader, ok) => ok && (leader =? h_replicaID h)
  | Err _ => false
  end.

Definition LeaderID (h : Host) (w : W) (shardID : Z) : Z * bool :=
  match GetLeaderID w (h_replicaID h) shardID with
  | Err _ => (0, false)
  | Ok (leader, ok) => (leader, ok)
  end.

Definition selfMember (h : Host) : Member :=
  {| mb_ReplicaId := h_replicaID h; mb_RaftAddress := h_raftAddr h; mb_ZuulGrpcAddress := h_grpcAddr h;
     mb_NodeHostId := h_nodeHostID h |}.

(** [WriteSelf], with the proposer it forwards through. *)
Definition WriteSelf (h : Host) (proposer : W → Z → list ascii → W * result (list ascii) error) (w : W) : W * option error :=
  if h_metaShardID h =? 0 then (w, None)
  else
    let '(w1, r) := proposer w (h_metaShardID h) (encodeMeta (Put (selfMember h))) in
    (w1, match r with
         | Err e => Some (E CatUnavailable TypeConsensus (Some (wrapf "consensus.WriteSelf: " e)))
         | Ok _ => None
         end).

Definition AddReplicaShard (h : Host) (w : W) (ctx : Ctx) (shardID replicaID : Z) (raftAddr : string) : W * option error :=
  let rctx := EnsureDeadline w ctx proposeTimeout in
  let '(w1, m) := SyncGetClusterMembership w (h_replicaID h) rctx shardID in
  let member := match m with Ok nodes => bool_decide (is_Some (nodes !! replicaID)) | Err _ => false end in
  if member then (w1, None)
  else
    let '(w2, err) := SyncRequestAddNode w1 (h_replicaID h) rctx shardID replicaID raftAddr in
    (w2, match err with
         | Some e => Some (E CatUnavailable TypeConsensus
             (Some (wrapf ("consensus.AddReplicaShard: shard " +:+ pretty shardID +:+ ": ") e)))
         | None => None
         end).

Definition RemoveReplicaShard (h : Host) (w : W) (ctx : Ctx) (shardID replicaID : Z) : W * option error :=
  let rctx := EnsureDeadline w ctx proposeTimeout in
  let '(w1, m) := SyncGetClusterMembership w (h_replicaID h) rctx shardID in
  let gone := match m with Ok nodes => bool_decide (nodes !! replicaID = None) | Err _ => false end in
  if gone then (w1, None)
  else
    let '(w2, err) := SyncRequestDeleteNode w1 (h_replicaID h) rctx shardID replicaID in
    (w2, match err with
         | Some e => Some (E CatUnavailable TypeConsensus
             (Some (wrapf ("consensus.RemoveReplicaShard: shard " +:+ pretty shardID +:+ ": ") e)))
         | None => None
         end).

(** *** Draining *)
Section drain.
Context (order : gmap Z string → list Z).

Definition transferTarget (h : Host) (w : W) (ctx : Ctx) (shardID : Z) : W * Z :=
  let rctx := EnsureDeadline w ctx proposeTimeout in
  let '(w1, m) := SyncGetClusterMembership w (h_replicaID h) rctx shardID in
  (w1, match m with
       | Err _ => 0
       | Ok nodes => default 0 (head (filter (λ nodeID, nodeID ≠ h_replicaID h) (order nodes)))
       end).

Definition leadsAnyOf (h : Host) (w : W) (shards : gset Z) : bool := existsb (IsLeader h w) (elements shards).

(** The first loop of [Drain]. *)
Definition requestTransfer (h : Host) (ctx : Ctx) (st : W * gset Z) (shardID : Z) : W * gset Z :=
  let '(w, requested) := st in
  if negb (IsLeader h w shardID) then (w, requested)
  else
    let '(w1, target) := transferTarget h w ctx shardID in
    if target =? 0 then (w1, requested)
    else ((RequestLeaderTransfer w1 (h_replicaID h) shardID target).1, requested ∪ {[shardID]}).

(** The second loop, at most [n] polls; the flag is whether it ended. *)
Fixpoint drainPolls (h : Host) (ctx : Ctx) (requested : gset Z) (n : nat) (w : W) : W * bool :=
  if negb (leadsAnyOf h w requested) then (w, true)
  else match n with
       | O => (w, false)
       | S n => let '(w1, ticked) := Tick w ctx in if ticked then drainPolls h ctx requested n w1 else (w1, true)
       end.

Definition Drain (h : Host) (ctx : Ctx) (n : nat) (w : W) : W * bool :=
  let '(w1, requested) := foldl (requestTransfer h ctx) (w, ∅) (h_hosted h) in
  if bool_decide (requested = ∅) then (w1, true) else drainPolls h ctx requested n w1.
End drain.

Definition leadsAny (h : Host) (w : W) : bool := existsb (IsLeader h w) (h_hosted h).

(** *** The topology *)
Definition MetaMember (h : Host) (w : W) (replicaID : Z) : option Member :=
  if h_metaShardID h =? 0 then None
  else match StaleRead h w (h_metaShardID h) (TopologyQuery (MemberQuery replicaID)) with
       | Ok (TopologyAnswer (AMember m)) => m
       | _ => None
       end.

Definition MetaList (h : Host) (w : W) (ctx : Ctx) : W * result (list Member) error :=
  if h_metaShardID h =? 0 then (w, Ok [])
  else
    let '(w1, r) := Read h w ctx (h_metaShardID h) (TopologyQuery ListQuery) in
    (w1, match r with
         | Err e => Err (E CatUnavailable TypeConsensus (Some (wrapf "consensus.MetaList: " e)))
         | Ok (TopologyAnswer (AMembers ms)) => Ok ms
         | Ok _ => Ok []
         end).

(** *** Lease expiry *)
Section expiry.
Context (Quote : string → string).

(** The loop of [ExpireDue] over the due clients. *)
Fixpoint expireEach (h : Host) (ctx : Ctx) (shardID now : Z) (due : list string) (w : W) : W * option error :=
  match due with
  | [] => (w, None)
  | clientID :: due =>
      let '(w1, r) := Propose h w ctx shardID (MarshalCommand (cmd.Expire clientID now)) in
      match r with
      | Err e =>
          (w1, Some (E CatUnavailable TypeConsensus
             (Some (wrapf ("consensus.ExpireDue: propose expire for " +:+ Quote clientID +:+ " on shard " +:+ pretty shardID +:+ ": ") e))))
      | Ok _ => expireEach h ctx shardID now due w1
      end
  end.

Definition ExpireDue (h : Host) (w : W) (ctx : Ctx) (shardID now : Z) : W * option error :=
  let '(w1, r) := Read h w ctx shardID (LockQuery (DueLeasesQuery now)) in
  match r with
  | Err e => (w1, Some (E CatUnavailable TypeConsensus
      (Some (wrapf ("consensus.ExpireDue: read shard " +:+ pretty shardID +:+ ": ") e))))
  | Ok a => expireEach h ctx shardID now (match a with LockAnswer (ADue due) => due | _ => [] end) w1
  end.

(** One tick of [RunExpiry]'s task: every lock shard this node leads at that
    moment, with the clock read for each; failures are logged. *)
Definition sweep (h : Host) (ctx : Ctx) (now : W → Z) (w : W) : W :=
  foldl (λ w shardID, if IsLeader h w shardID then (ExpireDue h w ctx shardID (now w)).1 else w) w (h_shards h).

(** The task itself, for [n] ticks; the flag is whether it has ended. *)
Fixpoint RunExpiry (h : Host) (ctx : Ctx) (now : W → Z) (n : nat) (w : W) : W * bool :=
  match n with
  | O => (w, false)
  | S n => let '(w1, ticked) := Tick w ctx in if ticked then RunExpiry h ctx now n (sweep h ctx now w1) else (w1, true)
  end.
End expiry.
End host.

(** ** What the operations achieve *)
Section machines.
#[export] Instance meta_moved_preorder : PreOrder meta_moved.
Proof.
  split.
  - intros s. by exists [].
  - intros s t u (c1 & H1 & ->) (c2 & H2 & ->). exists (c1 ++ c2). split; [by apply Forall_app|]. by rewrite /runMeta foldl_app.
Qed.

#[export] Instance machine_moved_preorder : PreOrder machine_moved.
Proof.
  split; [by intros []; cbn|]. intros [] [] []; cbn; try done; intros ??; by etransitivity.
Qed.

Lemma meta_moved_ok s t : meta_moved s t → meta_stored s → meta_stored t.
Proof.
  intros (cs & Hcs & ->). revert s. induction Hcs as [|c cs [Hc _] Hcs IH]; intros s Hs; [done|].
  change (runMeta s (c :: cs)) with (runMeta (runMeta s [c]) cs). by apply IH, ApplyMeta_stored.
Qed.

Lemma machine_moved_ok meta sh m m' : machine_moved m m' → machine_ok meta sh m → machine_ok meta sh m'.
Proof.
  destruct m, m'; cbn; [|done|done|].
  - intros Hm (? & Hwf & Hs). destruct (moved_ok _ _ Hm Hwf Hs). done.
  - intros Hm [? ?]. split; [done|]. by eapply meta_moved_ok.
Qed.

Lemma typed_moved m m' b : machine_moved m m' → typed m b → typed m' b.
Proof. by destruct m, m'. Qed.

Lemma meta_moved_apply s c : meta_proposal c → meta_moved s (runMeta s [c]).
Proof. intros. exists [c]. split; [by constructor|done]. Qed.

Lemma updateOne_lock meta sh f c m' res :
  machine_ok meta sh (LockMachine f) → proposal c → updateOne (LockMachine f) (encode c) = Some (m', res) →
  m' = LockMachine (apply f c) ∧ sr_Data res = MarshalResult (answer f c) ∧ result_fits (answer f c).
Proof.
  intros (_ & Hwf & Hs) Hc. rewrite /updateOne.
  match goal with |- context [Update f [?e]] => destruct (Update_one f c e Hwf Hs Hc eq_refl) as [-> Hfits] end.
  cbn. by intros [= <- <-].
Qed.

Lemma updateOne_meta meta sh s c m' res :
  machine_ok meta sh (MetaMachine s) → meta_proposal c → updateOne (MetaMachine s) (encodeMeta c) = Some (m', res) →
  m' = MetaMachine (runMeta s [c]).
Proof.
  intros [_ Hs] Hc. rewrite /updateOne.
  match goal with |- context [UpdateMeta s [?e]] => destruct (UpdateMeta_carries s [e] [c] Hs) as (<- & _) end;
    [constructor; [by split|constructor]|].
  destruct (UpdateMeta s _) as [s' [[|e' [|]]|]]; by intros [= <- _].
Qed.
End machines.

(** The lock state or the topology a shard has. *)
Definition lockOf (m : machine) : FSM := match m with LockMachine f => f | MetaMachine _ => Fsm.New None end.
Definition storeOf (m : machine) : Store := match m with MetaMachine s => s | LockMachine _ => NewStore end.

Section spec.
Context {W : Type} `{CW : Clock W} `{NW : NodeHost W} {meta : Z} `{NL : !NodeHostLaws W meta}.
Implicit Types (w : W) (h : Host) (ctx : Ctx).

Abbreviation valid := (nh_valid (meta := meta) (W := W)).
Abbreviation step := (steps (W := W) valid).

#[export] Instance later_preorder : PreOrder (later (W := W)).
Proof.
  split.
  - intros w. split; [done|..]; intros; reflexivity.
  - intros w1 w2 w3 [H1 H2 H3 H4] [K1 K2 K3 K4]. split; [lia|intros sh; by etransitivity; [apply H2|]|intros n sh; by etransitivity; [apply H3|]|].
    intros sh. by etransitivity; [apply H4|].
Qed.

#[export] Instance steps_preorder (P : W → Prop) : PreOrder (steps (W := W) P).
Proof.
  split.
  - intros w Hw. split; [done|reflexivity].
  - intros w1 w2 w3 H1 H2 Hw. destruct (H1 Hw) as [Hw2 L1]. destruct (H2 Hw2) as [Hw3 L2]. split; [done|]. by transitivity w2.
Qed.

Lemma lock_machine w sh : valid w → isMeta meta sh = false →
  ∃ f, committed w sh = LockMachine f ∧ wf f ∧ stored (abs f).
Proof.
  intros Hv Hsh. pose proof (nh_committed w sh Hv) as Hok. destruct (committed w sh) as [f|s]; cbn in Hok;
    [by exists f; destruct Hok as (_ & ? & ?)|].
  destruct Hok as [Hm _]. by rewrite Hsh in Hm.
Qed.

Lemma meta_machine w sh : valid w → isMeta meta sh = true → ∃ s, committed w sh = MetaMachine s ∧ meta_stored s.
Proof.
  intros Hv Hsh. pose proof (nh_committed w sh Hv) as Hok. destruct (committed w sh) as [f|s]; cbn in Hok;
    [|by exists s; destruct Hok].
  destruct Hok as [Hm _]. by rewrite Hsh in Hm.
Qed.

Lemma lockOf_moved m m' : machine_moved m m' → moved (lockOf m) (lockOf m').
Proof. destruct m, m'; try done. Qed.

Lemma storeOf_moved m m' : machine_moved m m' → meta_moved (storeOf m) (storeOf m').
Proof. destruct m, m'; try done. Qed.

(** Proposals through the host. *)
Lemma Propose_steps h w ctx sh b : typed (committed w sh) b → step w (Propose h w ctx sh b).1.
Proof.
  intros Hb. rewrite /Propose. case_bool_decide; cbn [negb]; [|done].
  pose proof (nh_propose w (h_replicaID h) (EnsureDeadline w ctx proposeTimeout) sh b Hb) as Hs.
  by destruct (SyncPropose _ _ _ _ _) as [w1 r].
Qed.

(** The command was applied between two worlds, with the given result. *)
Definition appliedDuring (w w' : W) (sh : Z) (b rb : list ascii) : Prop :=
  small rb ∧ ∃ m m' res, machine_moved (committed w sh) m ∧ updateOne m b = Some (m', res) ∧ sr_Data res = rb ∧
    machine_moved m' (committed w' sh).

Lemma appliedDuring_later w0 w w' w1 sh b rb :
  later w0 w → appliedDuring w w' sh b rb → later w' w1 → appliedDuring w0 w1 sh b rb.
Proof.
  intros L0 (Hs & m & m' & res & K1 & K2 & K3 & K4) L1. split; [done|]. exists m, m', res. split_and!; [|done|done|].
  - etransitivity; [apply (later_committed _ _ L0)|done].
  - etransitivity; [done|apply (later_committed _ _ L1)].
Qed.

Lemma Propose_applied h w ctx sh b w' rb :
  valid w → typed (committed w sh) b → Propose h w ctx sh b = (w', Ok rb) → appliedDuring w w' sh b rb.
Proof.
  intros Hv Hb. rewrite /Propose. case_bool_decide; cbn [negb]; [|done].
  destruct (SyncPropose _ _ _ _ _) as [w1 [res|e]] eqn:E; [|done]. intros [= <- <-].
  destruct (nh_proposed _ _ _ _ _ _ _ Hv Hb E) as (Hs & m & m' & H1 & H2 & H3). split; [done|]. by exists m, m', res.
Qed.

Lemma lock_typed w sh c : valid w → isMeta meta sh = false → proposal c → typed (committed w sh) (encode c).
Proof. intros Hv Hsh Hc. destruct (lock_machine w sh Hv Hsh) as (f & -> & _). by exists c. Qed.

Lemma meta_typed w sh c : valid w → isMeta meta sh = true → meta_proposal c → typed (committed w sh) (encodeMeta c).
Proof. intros Hv Hsh Hc. destruct (meta_machine w sh Hv Hsh) as (s & -> & _). by exists c. Qed.

(** What an applied command is, by the kind of the shard. *)
Lemma applied_lock w sh c rb w' :
  valid w → isMeta meta sh = false → proposal c → appliedDuring w w' sh (encode c) rb →
  ∃ f, moved (lockOf (committed w sh)) f ∧ moved (apply f c) (lockOf (committed w' sh)) ∧ UnmarshalResult rb = Ok (pbOf (answer f c)).
Proof.
  intros Hv Hsh Hc (Hs & m & m' & res & Hm & Hu & <- & Hm'). pose proof (machine_moved_ok meta sh _ _ Hm (nh_committed w sh Hv)) as Hok.
  destruct m as [f|s]; [|by destruct Hok as [Hno _]; rewrite Hsh in Hno].
  destruct (updateOne_lock _ _ _ _ _ _ Hok Hc Hu) as (-> & E & Hf). rewrite E in Hs |- *. exists f. split_and!.
  - by apply lockOf_moved in Hm.
  - by apply lockOf_moved in Hm'.
  - by apply result_round_trip_lemma.
Qed.

Lemma applied_meta w sh c rb w' :
  valid w → isMeta meta sh = true → meta_proposal c → appliedDuring w w' sh (encodeMeta c) rb →
  ∃ s, meta_moved (storeOf (committed w sh)) s ∧ meta_moved (runMeta s [c]) (storeOf (committed w' sh)).
Proof.
  intros Hv Hsh Hc (_ & m & m' & res & Hm & Hu & _ & Hm'). pose proof (machine_moved_ok meta sh _ _ Hm (nh_committed w sh Hv)) as Hok.
  destruct m as [f|s]; [by destruct Hok as [Hno _]; rewrite Hsh in Hno|].
  rewrite (updateOne_meta _ _ _ _ _ _ Hok Hc Hu) in Hm'. exists s. split.
  - by apply storeOf_moved in Hm.
  - by apply storeOf_moved in Hm'.
Qed.

Lemma Read_steps h w ctx sh q : step w (Read h w ctx sh q).1.
Proof.
  rewrite /Read. pose proof (nh_read w (h_replicaID h) (EnsureDeadline w ctx proposeTimeout) sh q) as Hs.
  by destruct (SyncRead _ _ _ _ _) as [w1 r].
Qed.

Lemma Read_answers h w ctx sh q w' a :
  valid w → Read h w ctx sh q = (w', Ok a) →
  ∃ m, machine_moved (committed w sh) m ∧ lookupAny m q = Some a ∧ machine_moved m (committed w' sh).
Proof.
  intros Hv. rewrite /Read. destruct (SyncRead _ _ _ _ _) as [w1 [b|e]] eqn:E; [|done]. intros [= <- <-].
  by apply nh_answers in E.
Qed.

(** Expiring one client's lease. *)
Lemma expire_lease f c now :
  wf f →
  lease_of (apply f (LeaseExpire c now)) c = l ← lease_of f c; if now <? l.2 then Some l else None.
Proof.
  intros Hwf. rewrite /apply /lease_of /= /leaseExpire. cbn [leases incr_revision]. rewrite !lookup_fmap.
  destruct (leases f !! c) as [ls|] eqn:E; cbn; [|by rewrite E].
  destruct (now <? ls_expireAt ls); cbn; [by rewrite E|].
  rewrite (dropLease_eq _ _ ls (incr_revision_wf _ Hwf)) //=. by rewrite lookup_delete_eq.
Qed.

(** The proposals of [expireEach], when all of them succeed. *)
Lemma expireEach_spec Quote h ctx sh now due w w' :
  valid w → isMeta meta sh = false → Forall (λ c, proposal (LeaseExpire c now)) due →
  expireEach Quote h ctx sh now due w = (w', None) →
  valid w' ∧ moved (lockOf (committed w sh)) (lockOf (committed w' sh)) ∧
  ∀ c, c ∈ due → ∃ g, moved (lockOf (committed w sh)) g ∧ moved (apply g (LeaseExpire c now)) (lockOf (committed w' sh)).
Proof.
  intros Hv Hsh Hdue. revert w Hv. induction Hdue as [|c due Hc Hdue IH]; intros w Hv.
  { intros [= <-]. split_and!; [done|done|]. by intros c ?%elem_of_nil. }
  cbn [expireEach]. change (MarshalCommand (cmd.Expire c now)) with (encode (LeaseExpire c now)).
  pose proof (lock_typed w sh _ Hv Hsh Hc) as Ht. pose proof (Propose_steps h w ctx sh _ Ht Hv) as [Hv1 L1].
  destruct (Propose h w ctx sh _) as [w1 [rb|e]] eqn:E; [|done]. cbn [fst] in Hv1, L1. intros Hrest.
  destruct (IH w1 Hv1 Hrest) as (Hv' & Hm & Hall). pose proof (lockOf_moved _ _ (later_committed _ _ L1 sh)) as Hm1.
  split_and!; [done|by etransitivity|]. intros c' [-> |Hin]%elem_of_cons.
  - apply Propose_applied in E as Ha; [|done..]. destruct (applied_lock _ _ _ _ _ Hv Hsh Hc Ha) as (f & F1 & F2 & _).
    exists f. split; [done|by etransitivity].
  - destruct (Hall c' Hin) as (g & G1 & G2). exists g. split; [by etransitivity|done].
Qed.

(** C36: the expiry sweep is complete and safe.  When [ExpireDue] succeeds, there is
    a state the shard had during the call such that for every client whose lease
    had run out there, the expiry was applied during the call, at a state no
    earlier than that one; the client then has no lease, or one that was renewed
    in the meantime beyond [now], which is left as it is. *)
Theorem expire_due_sweeps Quote h w ctx sh now w' :
  valid w → isMeta meta sh = false → in_i64 now →
  (∀ w1 ids, Read h w ctx sh (LockQuery (DueLeasesQuery now)) = (w1, Ok (LockAnswer (ADue ids))) →
     Forall (λ c, small (encode (LeaseExpire c now))) ids) →
  ExpireDue Quote h w ctx sh now = (w', None) →
  ∃ f, moved (lockOf (committed w sh)) f ∧ moved f (lockOf (committed w' sh)) ∧
    ∀ c ttl d, lease_of f c = Some (ttl, d) → d ≤ now →
      ∃ g, moved f g ∧ moved (apply g (LeaseExpire c now)) (lockOf (committed w' sh)) ∧
        lease_of (apply g (LeaseExpire c now)) c = l ← lease_of g c; if now <? l.2 then Some l else None.
Proof.
  intros Hv Hsh Hnow Hsmall. rewrite /ExpireDue.
  pose proof (Read_steps h w ctx sh (LockQuery (DueLeasesQuery now)) Hv) as [Hv1 L1].
  destruct (Read h w ctx sh _) as [w1 [a|e]] eqn:E; [|done]. cbn [fst] in Hv1, L1.
  destruct (Read_answers _ _ _ _ _ _ _ Hv E) as (m & M1 & M2 & M3).
  pose proof (machine_moved_ok meta sh _ _ M1 (nh_committed w sh Hv)) as Hok.
  destruct m as [f|s]; [|by destruct Hok as [Hno _]; rewrite Hsh in Hno]. cbn in M2. injection M2 as <-.
  assert (Forall (λ c, proposal (LeaseExpire c now)) (dueLeases f now)) as Hdue.
  { eapply Forall_impl; [by apply (Hsmall w1)|]. intros c Hc. by split_and!. }
  intros Hrun. apply expireEach_spec in Hrun as (_ & Hm & Hall); [|done..].
  apply lockOf_moved in M1, M3. cbn [lockOf] in M1, M3. exists f. split_and!; [done|by etransitivity|].
  intros c ttl d Hl Hd. destruct (Hall c) as (g & G1 & G2).
  { apply elem_of_dueLeases. move: Hl. rewrite /lease_of /= lookup_fmap. destruct (leases f !! c) as [ls|]; [|done].
    intros [= _ <-]. by exists ls. }
  destruct (moved_ok f g) as [Hwf _]; [by etransitivity|apply Hok..|].
  exists g. split_and!; [by etransitivity|done|by apply expire_lease].
Qed.

(** *** Members *)
Lemma memberDuring_later sh Q w0 w w' w1 : later w0 w → memberDuring sh Q w w' → later w' w1 → memberDuring sh Q w0 w1.
Proof.
  intros L0 (ms & (i & Hi & Hms) & HQ) L1. exists ms. split; [|done]. exists i. split.
  - pose proof (prefix_length _ _ (later_members _ _ L0 sh)). lia.
  - by eapply prefix_lookup_Some, (later_members _ _ L1).
Qed.

(** A node that is no member during a call, and was one when the call began or before, is
    none at the end. *)
Lemma removed_for_good sh id w w' :
  valid w' → later w w' → memberDuring sh (λ ms, ms !! id = None) w w' → (∃ ms, ms ∈ memberLog w sh ∧ is_Some (ms !! id)) →
  membersNow w' sh !! id = None.
Proof.
  intros Hv L (mj & (j & Hj & Ej) & Hnone) (mi & (i & Ei)%list_elem_of_lookup & Hid). rewrite /membersNow last_lookup.
  pose proof (lookup_lt_Some _ _ _ Ei) as Hi. pose proof (prefix_lookup_Some _ _ _ _ Ei (later_members _ _ L sh)) as Ei'.
  pose proof (lookup_lt_Some _ _ _ Ej) as Hj'. destruct (memberLog w' sh !! pred (length (memberLog w' sh))) as [mk|] eqn:Ek; [|done]. cbn.
  assert (i ≠ j) as Hij. { intros ->. rewrite Ej in Ei'. injection Ei' as ->. by rewrite Hnone in Hid; destruct Hid. }
  destruct (decide (j = pred (length (memberLog w' sh)))) as [->|Hjk]; [by rewrite Ej in Ek; injection Ek as <-|].
  apply (nh_history w' sh Hv i j (pred (length (memberLog w' sh))) mi mj mk id); [lia|done..].
Qed.

(** A shard's member is reported, or added, or the call fails. *)
Lemma AddReplicaShard_spec h w ctx sh id addr w' r :
  AddReplicaShard h w ctx sh id addr = (w', r) →
  step w w' ∧
  (r = None → valid w → memberDuring sh (λ ms, is_Some (ms !! id)) w w').
Proof.
  rewrite /AddReplicaShard. set (rctx := EnsureDeadline w ctx proposeTimeout).
  pose proof (nh_members w (h_replicaID h) rctx sh) as Hs.
  destruct (SyncGetClusterMembership w (h_replicaID h) rctx sh) as [w1 ms] eqn:E. cbn [fst] in Hs.
  destruct (match ms with Ok nodes => _ | Err _ => _ end) eqn:Hm.
  - intros [= <- <-]. split; [done|]. intros _ Hv. destruct ms as [ms|]; [|done]. apply bool_decide_eq_true in Hm.
    exists ms. split; [by eapply nh_member|done].
  - pose proof (nh_add w1 (h_replicaID h) rctx sh id addr) as Ha.
    destruct (SyncRequestAddNode w1 _ _ _ _ _) as [w2 e] eqn:Ea. cbn [fst] in Ha. intros [= <- <-].
    split; [by etransitivity|]. destruct e; [done|]. intros _ Hv. destruct (Hs Hv) as [Hv1 _].
    apply (memberDuring_later _ _ w w1 w2 w2); [by apply Hs| |done].
    destruct (nh_added _ _ _ _ _ _ _ Hv1 Ea) as (m & Hm' & Hin). exists m. by rewrite Hin.
Qed.

Lemma RemoveReplicaShard_spec h w ctx sh id w' r :
  RemoveReplicaShard h w ctx sh id = (w', r) →
  step w w' ∧
  (r = None → valid w → memberDuring sh (λ ms, ms !! id = None) w w').
Proof.
  rewrite /RemoveReplicaShard. set (rctx := EnsureDeadline w ctx proposeTimeout).
  pose proof (nh_members w (h_replicaID h) rctx sh) as Hs.
  destruct (SyncGetClusterMembership w (h_replicaID h) rctx sh) as [w1 ms] eqn:E. cbn [fst] in Hs.
  destruct (match ms with Ok nodes => _ | Err _ => _ end) eqn:Hm.
  - intros [= <- <-]. split; [done|]. intros _ Hv. destruct ms as [ms|]; [|done]. apply bool_decide_eq_true in Hm.
    exists ms. split; [by eapply nh_member|done].
  - pose proof (nh_delete w1 (h_replicaID h) rctx sh id) as Ha.
    destruct (SyncRequestDeleteNode w1 _ _ _ _) as [w2 e] eqn:Ea. cbn [fst] in Ha. intros [= <- <-].
    split; [by etransitivity|]. destruct e; [done|]. intros _ Hv. destruct (Hs Hv) as [Hv1 _].
    apply (memberDuring_later _ _ w w1 w2 w2); [by apply Hs|by apply nh_deleted in Ea|done].
Qed.

(** The topology a node reads. *)
Lemma MetaMember_applied h w id m :
  valid w → MetaMember h w id = Some m → members (storeOf (applied w (h_replicaID h) (h_metaShardID h))) !! id = Some m.
Proof.
  intros Hv. rewrite /MetaMember. destruct (_ =? 0); [done|].
  destruct (StaleRead h w _ _) as [a|] eqn:E; [|done]. apply nh_local in E; [|done].
  destruct (applied w (h_replicaID h) (h_metaShardID h)) as [f|s]; [done|]. cbn in E. cbn [storeOf].
  destruct (members s !! id) as [m0|]; cbn in E; injection E as <-; [|done]. by rewrite cloneMember_id.
Qed.

Lemma MetaList_steps h w ctx : step w (MetaList h w ctx).1.
Proof.
  rewrite /MetaList. destruct (_ =? 0); [done|]. pose proof (Read_steps h w ctx (h_metaShardID h) (TopologyQuery ListQuery)) as Hs.
  by destruct (Read h w ctx _ _) as [w1 r].
Qed.

Lemma MetaList_answers h w ctx w' ms :
  valid w → h_metaShardID h ≠ 0 → MetaList h w ctx = (w', Ok ms) →
  ∃ s, meta_moved (storeOf (committed w (h_metaShardID h))) s ∧ meta_moved s (storeOf (committed w' (h_metaShardID h))) ∧
    ms = list_ s.
Proof.
  intros Hv Hne. rewrite /MetaList. destruct (Z.eqb_spec (h_metaShardID h) 0); [done|].
  destruct (Read h w ctx _ _) as [w1 [a|]] eqn:E; [|done].
  destruct (Read_answers _ _ _ _ _ _ _ Hv E) as (m & M1 & M2 & M3). destruct m as [f|s]; [done|]. cbn in M2. injection M2 as <-.
  intros [= <- <-]. exists s. split_and!; [by apply storeOf_moved in M1|by apply storeOf_moved in M3|done].
Qed.

(** [waitReady] returns success only when every hosted shard has a leader. *)
Lemma waitPolls_ready h ctx n w w' : waitPolls h ctx n w = (w', Some None) → Ready h w' = true.
Proof.
  revert w. induction n as [|n IH]; intros w; [done|]. cbn [waitPolls].
  destruct (allShardsHaveLeader h w) eqn:E; [by intros [= <-]|]. destruct (Tick w ctx) as [w1 []]; [apply IH|done].
Qed.

Lemma Ready_leaders h w : Ready h w = true ↔ ∀ sh, sh ∈ h_hosted h → ∃ leader, GetLeaderID w (h_replicaID h) sh = Ok (leader, true).
Proof.
  rewrite /Ready /allShardsHaveLeader forallb_forall. split; intros Hall sh Hsh.
  - specialize (Hall sh). rewrite -list_elem_of_In in Hall. specialize (Hall Hsh).
    destruct (GetLeaderID _ _ _) as [[l []]|]; by eauto.
  - destruct (Hall sh) as [l ->]; [by apply list_elem_of_In|done].
Qed.

(** A target for a transfer is another member. *)
Lemma transferTarget_member order h w ctx sh w' t :
  (∀ ms : gmap Z string, order ms ≡ₚ (map_to_list ms).*1) → valid w → transferTarget order h w ctx sh = (w', t) → t ≠ 0 →
  t ≠ h_replicaID h ∧ memberDuring sh (λ ms, is_Some (ms !! t)) w w'.
Proof.
  intros Hord Hv. rewrite /transferTarget. destruct (SyncGetClusterMembership _ _ _ _) as [w1 ms] eqn:E. intros [= <- <-] Ht.
  destruct ms as [ms|]; [|done]. destruct (head _) as [x|] eqn:Hh; [|done]. cbn in Ht |- *.
  apply head_Some_elem_of, list_elem_of_filter in Hh as [Hx Hin]. split; [done|].
  exists ms. split; [by eapply nh_member|].
  rewrite Hord in Hin. apply list_elem_of_fmap in Hin as ([k v] & -> & Hin%elem_of_map_to_list). by eexists.
Qed.

(** Draining ends with none of the shards handed over still led, unless the
    context ends first. *)
Lemma drainPolls_done h ctx requested n w w' :
  (∀ w, (Tick w ctx).2 = true) → drainPolls h ctx requested n w = (w', true) → leadsAnyOf h w' requested = false.
Proof.
  intros Ht. revert w. induction n as [|n IH]; intros w; cbn [drainPolls];
    (destruct (leadsAnyOf h w requested) eqn:E; [|by intros [= <-]]); cbn [negb]; [done|].
  specialize (Ht w). destruct (Tick w ctx) as [w1 []]; [apply IH|done].
Qed.
End spec.

(** *** Booting *)
Section boot.
Context {W : Type} `{Clock W} `{NodeHost W} `{Boot W}.

(** The sessions of a host and nothing else. *)
Definition with_sessions (h : Host) (s : gset Z) : Host :=
  {| h_sessions := s; h_shards := h_shards h; h_hosted := h_hosted h; h_metaShardID := h_metaShardID h;
     h_replicaID := h_replicaID h; h_raftAddr := h_raftAddr h; h_grpcAddr := h_grpcAddr h; h_nodeHostID := h_nodeHostID h |}.

Lemma startShards_sessions cfg create shards h (w : W) w' h' :
  startShards cfg create shards h w = (w', Ok h') → h' = with_sessions h (h_sessions h ∪ list_to_set shards).
Proof.
  revert h w. induction shards as [|sh shards IH]; intros h w; cbn [startShards].
  - intros [= _ <-]. rewrite /with_sessions /= union_empty_r_L. by destruct h.
  - destruct (StartConcurrentCluster _ _ _ _ _) as [w1 [e|]]; [done|]. intros ->%IH. rewrite /with_sessions /=. f_equal. set_solver.
Qed.

(** A node that boots can serve: its configuration passed the checks, it has a
    session for every hosted shard and each of them had a leader. *)
Theorem new_serves cfg notifier ctx n (w : W) w' h :
  New cfg notifier ctx n w = (w', Some (Ok h)) →
  validate cfg = None ∧ h = with_sessions (newHost cfg) (list_to_set (hostedShards cfg)) ∧
  ∀ sh, sh ∈ hostedShards cfg → ∃ leader, GetLeaderID w' (ReplicaID cfg) sh = Ok (leader, true).
Proof.
  rewrite /New. destruct (validate cfg); [done|]. destruct (NewNodeHost w _) as [w1 [e|]]; [done|].
  destruct (startShards _ _ _ _ w1) as [w2 [h2|e]] eqn:Es; [|done]. apply startShards_sessions in Es.
  rewrite /= union_empty_l_L in Es. destruct (waitReady h2 ctx n w2) as [w3 [[e|]|]] eqn:Er; [done| |done]. intros [= <- <-].
  split_and!; [done|done|]. intros sh Hsh. rewrite /waitReady in Er. apply waitPolls_ready in Er. rewrite Ready_leaders Es in Er.
  by apply Er.
Qed.
End boot.
