(* ===== verification/Forward.v ===== *)
(** * Forwarding writes to the leader

    internal/raft/forward: the pool of peer connections ([pool.go]), the
    Forwarder service ([server.go]) and the dispatcher ([dispatch.go]), which
    proposes on this node when it leads the shard and otherwise calls the leader's
    node, retrying through changes of leadership.

    The dispatcher's world is this node's pool and the cluster.  [Network] is what
    happens to a call: [Dial] either fails with a status or reaches the node that
    serves the address, and once that node's handler has run, [Respond] either
    brings its response or fails with a status.  The server's boundary interceptor
    stamps the handler's error before it travels.  [NewClient] is grpc's check of
    an address and [hosts] the hosts of the nodes.  The metrics are left out. *)
From stdpp Require Import pretty.
From Stdlib Require Import Ascii QArith.
From S2P Require Import Prelude GoStrings Wire Errors Keypath Meta Fsm FsmWire FsmInv FsmSpec FsmTrace Consensus Router Cluster Session FsmContract Retry HostConfig Host.

Local Open Scope string_scope.
Local Open Scope list_scope.
Local Open Scope Z_scope.

(** ** pool.go *)
Definition errPoolClosed : error := Text "forward: dispatcher closed".

Inductive DialOption := Insecure | DialWith (id : Z).

(** Connections are numbered in the order they are made; [pl_dead] has those that
    were closed. *)
Record pool := {
  pl_dialOpts : list DialOption;
  pl_conns : gmap string nat;
  pl_closed : bool;
  pl_made : nat;
  pl_dead : gset nat
}.

Definition newPool (dialOpts : list DialOption) : pool :=
  {| pl_dialOpts := if bool_decide (dialOpts = []) then [Insecure] else dialOpts;
     pl_conns := ∅; pl_closed := false; pl_made := 0; pl_dead := ∅ |}.

Definition evict (p : pool) (addr : string) : pool :=
  {| pl_dialOpts := pl_dialOpts p; pl_conns := delete addr (pl_conns p); pl_closed := pl_closed p; pl_made := pl_made p;
     pl_dead := match pl_conns p !! addr with Some cc => pl_dead p ∪ {[cc]} | None => pl_dead p end |}.

Definition closePool (p : pool) : pool :=
  {| pl_dialOpts := pl_dialOpts p; pl_conns := ∅; pl_closed := true; pl_made := pl_made p;
     pl_dead := pl_dead p ∪ map_img (pl_conns p) |}.

Section pool.
Context (NewClient : string → list DialOption → option error).

Definition client (p : pool) (addr : string) : pool * result nat error :=
  if pl_closed p then (p, Err errPoolClosed)
  else match pl_conns p !! addr with
       | Some cc => (p, Ok cc)
       | None =>
           match NewClient addr (pl_dialOpts p) with
           | Some err => (p, Err err)
           | None =>
               ({| pl_dialOpts := pl_dialOpts p; pl_conns := <[addr := pl_made p]> (pl_conns p); pl_closed := false;
                   pl_made := S (pl_made p); pl_dead := pl_dead p |}, Ok (pl_made p))
           end
       end.

Inductive poolOp := Client (addr : string) | Evict (addr : string) | ClosePool.
Definition poolStep (p : pool) (o : poolOp) : pool :=
  match o with Client addr => (client p addr).1 | Evict addr => evict p addr | ClosePool => closePool p end.
End pool.

(** ** Calls between nodes *)
Class Network (W : Type) := {
  Dial : W → string → W * result Z (Z * string);
  Respond : W → string → W * option (Z * string)
}.

Class NetworkLaws W `{Clock W} `{NodeHost W} `{Network W} (valid : W → Prop) : Prop := {
  dial_steps w addr : steps valid w (Dial w addr).1;
  respond_steps w addr : steps valid w (Respond w addr).1
}.

Definition statusOf (e : Z * string) : error := StatusError e.1 e.2.

(** What the client makes of a handler's error. *)
Definition onWire (e : error) : error := default e (wire (Errors.Status (Some e))).

Section calls.
Context {W : Type} `{Clock W} `{NodeHost W} `{Network W}.
Context (hosts : Z → Host).

Definition call {A} (w : W) (addr : string) (handler : Host → W → W * result A error) : W * result A error :=
  let '(w1, d) := Dial w addr in
  match d with
  | Err e => (w1, Err (statusOf e))
  | Ok id =>
      let '(w2, r) := handler (hosts id) w1 in
      let '(w3, lost) := Respond w2 addr in
      (w3, match lost, r with
           | Some e, _ => Err (statusOf e)
           | None, Err e => Err (onWire e)
           | None, Ok a => Ok a
           end)
  end.

(** ** server.go *)
Definition notLeader (shardID : Z) : error :=
  E CatPrecondition TypeNotLeader (Some (Text ("not leader of shard " +:+ pretty shardID))).
Definition forwarded (what : string) (shardID : Z) (e : error) : error :=
  E CatPrecondition TypeConsensus (Some (Text (what +:+ " on shard " +:+ pretty shardID +:+ ": " +:+ message e))).

Definition ServePropose (ctx : Ctx) (shardID : Z) (cmd : list ascii) (h : Host) (w : W) : W * result (list ascii) error :=
  if negb (IsLeader h w shardID) then (w, Err (notLeader shardID))
  else
    let '(w1, r) := Propose h w ctx shardID cmd in
    (w1, match r with Err e => Err (forwarded "propose" shardID e) | Ok res => Ok res end).

Definition ServeAddReplica (ctx : Ctx) (shardID replicaID : Z) (raftAddr : string) (h : Host) (w : W) : W * result unit error :=
  if negb (IsLeader h w shardID) then (w, Err (notLeader shardID))
  else
    let '(w1, err) := AddReplicaShard h w ctx shardID replicaID raftAddr in
    (w1, match err with Some e => Err (forwarded "add replica" shardID e) | None => Ok tt end).

Definition ServeRemoveReplica (ctx : Ctx) (shardID replicaID : Z) (h : Host) (w : W) : W * result unit error :=
  if negb (IsLeader h w shardID) then (w, Err (notLeader shardID))
  else
    let '(w1, err) := RemoveReplicaShard h w ctx shardID replicaID in
    (w1, match err with Some e => Err (forwarded "remove replica" shardID e) | None => Ok tt end).
End calls.

(** ** dispatch.go *)
Definition dispatchTimeout : Z := 10000 * Millisecond.

Definition errStopRetry : error := Text "forward: permanent failure".
Definition errNoLeader : error := Text "forward: no leader elected yet".

(** The node the dispatcher runs on: the pool changes, the rest does not.
    [dp_seed] is the resolver's, [dp_draw] what the random generator yields. *)
Record Dispatcher := {
  dp_local : Host;
  dp_seed : gmap Z string;
  dp_boff : Backoff;
  dp_draw : nat → Z
}.

(** [NewDispatcher] *)
Definition NewDispatcher (local : Host) (seed : gmap Z string) (draw : nat → Z) (dialOpts : list DialOption) :
    result (Dispatcher * pool) error :=
  match Retry.New [] with
  | Err e => Err (wrapf "forward.NewDispatcher: " e)
  | Ok boff => Ok ({| dp_local := local; dp_seed := seed; dp_boff := boff; dp_draw := draw |}, newPool dialOpts)
  end.

Record node (W : Type) := mkNode { nd_pool : pool; nd_world : W }.
Arguments mkNode {_}.
Arguments nd_pool {_}.
Arguments nd_world {_}.

#[export] Instance node_clock {W} `{Clock W} : Clock (node W) :=
  {| Now x := Now (nd_world x);
     Canceled x := Canceled (nd_world x);
     Timer x ctx d := let '(w1, b) := Timer (nd_world x) ctx d in (mkNode (nd_pool x) w1, b);
     Tick x ctx := let '(w1, b) := Tick (nd_world x) ctx in (mkNode (nd_pool x) w1, b) |}.

Definition unavailable (err : error) : bool := statusCode (Some err) =? codes.Unavailable.

Definition evictIfUnavailable (p : pool) (addr : string) (err : error) : pool := if unavailable err then evict p addr else p.

(** [classify] *)
Definition classify (err : error) : error :=
  if Is (message errStopRetry) err then E CatInternal TypeConsensus (Permanent (Some err))
  else E CatUnavailable TypeConsensus (Some err).

Section dispatcher.
Context {W : Type} `{Clock W} `{NodeHost W} `{Network W}.
Context (NewClient : string → list DialOption → option error) (hosts : Z → Host) (d : Dispatcher).

(** [route]: on this node, or the address of the leader's node. *)
Definition route (w : W) (shardID : Z) : result (option string) error :=
  let h := dp_local d in
  if IsLeader h w shardID then Ok None
  else
    let '(leaderID, ok) := LeaderID h w shardID in
    if negb ok then Err errNoLeader
    else if leaderID =? h_replicaID h then Ok None
    else match Addr (NewMetaResolver (MetaMember h w) (dp_seed d)) leaderID with
         | None => Err (Text ("forward: no address yet for leader replica " +:+ pretty leaderID))
         | Some a => Ok (Some a)
         end.

(** One attempt of [Propose], [AddReplica] and [RemoveReplica]: [local] on this
    node, [remote] as the leader's handler. *)
Definition attempt {A} (shardID : Z) (local : W → W * result A error) (remote : Host → W → W * result A error)
    (_ : Attempts) (x : node W) : node W * result A error :=
  match route (nd_world x) shardID with
  | Err e => (x, Err e)
  | Ok None => let '(w1, r) := local (nd_world x) in (mkNode (nd_pool x) w1, r)
  | Ok (Some addr) =>
      let '(p1, c) := client NewClient (nd_pool x) addr in
      match c with
      | Err e =>
          (mkNode p1 (nd_world x),
           Err (Wrapping (message errStopRetry +:+ ": dial " +:+ addr +:+ ": " +:+ message e) [errStopRetry]))
      | Ok _ =>
          let '(w1, r) := call hosts (nd_world x) addr remote in
          match r with
          | Err e => (mkNode (evictIfUnavailable p1 addr e) w1, Err e)
          | Ok a => (mkNode p1 w1, Ok a)
          end
      end
  end.

(** The function [retry] hands to the backoff. *)
Definition stopping {A} (fn : Attempts → node W → node W * result A error) (r : Attempts) (x : node W) : node W * result A error :=
  let '(x1, res) := fn r x in
  (x1, match res with
       | Err e => Err (if Is (message errStopRetry) e
                       then Wrapping (message e +:+ ": " +:+ message ErrPermanent) [e; ErrPermanent] else e)
       | Ok a => Ok a
       end).

(** The rounds that a deadline leaves time for, and one more. *)
Definition rounds (x : node W) (ctx : Ctx) : nat :=
  match ctx with Some t => S (Z.to_nat ((t - Now x) / (50 * Millisecond))) | None => O end.

Definition retry {A} (ctx : Ctx) (fn : Ctx → Attempts → node W → node W * result A error) (x : node W) :
    node W * option (result A error) :=
  let dctx := EnsureDeadline x ctx dispatchTimeout in
  Retry (dp_boff d) (dp_draw d) dctx (stopping (fn dctx)) (rounds x dctx) x.

(** A failed dispatch; [None] is a loop that has not ended. *)
Definition dispatched {A} (name : string) (shardID : Z) (r : node W * option (result A error)) : node W * result A error :=
  let '(x1, res) := r in
  (x1, match res with
       | Some (Ok a) => Ok a
       | Some (Err e) => Err (classify (wrapf (name +:+ ": shard " +:+ pretty shardID +:+ ": ") e))
       | None => Err (Text "not ended")
       end).

Definition DPropose (ctx : Ctx) (shardID : Z) (cmd : list ascii) (x : node W) : node W * result (list ascii) error :=
  dispatched "forward.Propose" shardID
    (retry ctx (λ ctx, attempt shardID (λ w, Propose (dp_local d) w ctx shardID cmd) (ServePropose ctx shardID cmd)) x).

(** The methods that return only an error. *)
Definition asResult {A} (f : W → W * option error) (a : A) (w : W) : W * result A error :=
  let '(w1, e) := f w in (w1, match e with Some e => Err e | None => Ok a end).

Definition AddReplica (ctx : Ctx) (shardID replicaID : Z) (raftAddr : string) (x : node W) : node W * result unit error :=
  dispatched "forward.AddReplica" shardID
    (retry ctx (λ ctx, attempt shardID (asResult (λ w, AddReplicaShard (dp_local d) w ctx shardID replicaID raftAddr) tt)
                         (ServeAddReplica ctx shardID replicaID raftAddr)) x).

Definition RemoveReplica (ctx : Ctx) (shardID replicaID : Z) (x : node W) : node W * result unit error :=
  dispatched "forward.RemoveReplica" shardID
    (retry ctx (λ ctx, attempt shardID (asResult (λ w, RemoveReplicaShard (dp_local d) w ctx shardID replicaID) tt)
                         (ServeRemoveReplica ctx shardID replicaID)) x).
End dispatcher.

Definition CloseDispatcher {W} (x : node W) : node W := mkNode (closePool (nd_pool x)) (nd_world x).

(** ** Connections *)
Section connections.
Context (NewClient : string → list DialOption → option error).

(** Every connection made is cached under one address or closed, never both. *)
Record pool_wf (p : pool) : Prop := {
  pw_cached a cc : pl_conns p !! a = Some cc → (cc < pl_made p)%nat ∧ cc ∉ pl_dead p;
  pw_one a a' cc : pl_conns p !! a = Some cc → pl_conns p !! a' = Some cc → a = a';
  pw_all cc : (cc < pl_made p)%nat → cc ∈ pl_dead p ∨ ∃ a, pl_conns p !! a = Some cc;
  pw_dead cc : cc ∈ pl_dead p → (cc < pl_made p)%nat;
  pw_closed : pl_closed p = true → pl_conns p = ∅
}.

Lemma newPool_wf opts : pool_wf (newPool opts).
Proof. by split; cbn; try set_solver; try lia. Qed.

Lemma client_wf p addr : pool_wf p → pool_wf (client NewClient p addr).1.
Proof.
  intros Hp. pose proof Hp as [H1 H2 H3 H4 H5]. rewrite /client. destruct (pl_closed p) eqn:Hc; [done|].
  destruct (pl_conns p !! addr) as [cc|] eqn:E; [done|]. destruct (NewClient _ _); [done|]. split; cbn.
  - intros a cc. destruct (decide (addr = a)) as [->|].
    + rewrite lookup_insert_eq. intros [= <-]. split; [lia|]. intros ?%H4. lia.
    + rewrite lookup_insert_ne //. intros []%H1. split; [lia|done].
  - intros a a' cc. destruct (decide (addr = a)) as [->|], (decide (a = a')) as [->|]; [done| |done|].
    + rewrite lookup_insert_eq lookup_insert_ne //. intros [= <-] []%H1. lia.
    + destruct (decide (addr = a')) as [->|].
      * rewrite lookup_insert_ne // lookup_insert_eq. intros []%H1 [= <-]. lia.
      * rewrite !lookup_insert_ne //. by apply H2.
  - intros cc Hcc. destruct (decide (cc = pl_made p)) as [->|]; [right; exists addr; by rewrite lookup_insert_eq|].
    destruct (H3 cc) as [?|[a Ha]]; [lia|by left|]. right. exists a. rewrite lookup_insert_ne //. congruence.
  - intros cc ?%H4. lia.
  - done.
Qed.

Lemma evict_wf p addr : pool_wf p → pool_wf (evict p addr).
Proof.
  intros [H1 H2 H3 H4 H5]. rewrite /evict. destruct (pl_conns p !! addr) as [c|] eqn:E; cycle 1.
  { rewrite delete_id //. }
  split; cbn.
  - intros a cc [Hne Ha]%lookup_delete_Some. destruct (H1 _ _ Ha). split; [done|].
    rewrite not_elem_of_union not_elem_of_singleton. split; [done|]. intros ->. by destruct Hne; eapply H2.
  - intros a a' cc [_ Ha]%lookup_delete_Some [_ Ha']%lookup_delete_Some. by eapply H2.
  - intros cc Hcc. destruct (H3 cc Hcc) as [?|[a Ha]]; [set_solver|]. destruct (decide (addr = a)) as [->|].
    + left. set_solver.
    + right. exists a. by rewrite lookup_delete_ne.
  - intros cc [?%H4| ->%elem_of_singleton]%elem_of_union; [done|]. by eapply H1.
  - intros Hc. rewrite H5 // delete_empty //.
Qed.

Lemma close_wf p : pool_wf p → pool_wf (closePool p).
Proof.
  intros [H1 H2 H3 H4 H5]. split; cbn; [done|done| | |done].
  - intros cc Hcc. left. destruct (H3 cc Hcc) as [?|[a Ha]]; [set_solver|]. apply elem_of_union_r. by eapply elem_of_map_img_2.
  - intros cc [?%H4|[a Ha]%elem_of_map_img]%elem_of_union; [done|]. by eapply H1.
Qed.

Lemma step_wf p o : pool_wf p → pool_wf (poolStep NewClient p o).
Proof. destruct o; [apply client_wf|apply evict_wf|apply close_wf]. Qed.

Lemma closed_stays p ops : pl_closed p = true → pl_closed (foldl (poolStep NewClient) p ops) = true.
Proof.
  revert p. induction ops as [|o ops IH]; intros p Hp; [done|]. apply IH. destruct o; cbn; [|done|done].
  by rewrite /client Hp.
Qed.

(** no peer connection leaks.  After any sequence of requests for a
    connection, evictions and a close, every connection that was made is either
    cached under exactly one address and open, or closed; once the pool was
    closed, all of them are, and every later request is refused without making
    one. *)
Theorem connections_accounted opts ops :
  let p := foldl (poolStep NewClient) (newPool opts) ops in
  pool_wf p ∧
  (ClosePool ∈ ops → (∀ cc, (cc < pl_made p)%nat → cc ∈ pl_dead p) ∧ ∀ addr, client NewClient p addr = (p, Err errPoolClosed)).
Proof.
  intros p. assert (pool_wf p) as Hwf.
  { rewrite /p. generalize (newPool_wf opts). generalize (newPool opts). induction ops as [|o ops IH]; intros q Hq; [done|].
    by apply IH, step_wf. }
  split; [done|]. intros (l1 & l2 & ->)%list_elem_of_split.
  assert (pl_closed p = true) as Hc by (rewrite /p foldl_app; cbn [foldl]; by apply closed_stays). split.
  - intros cc Hcc. destruct (pw_all _ Hwf _ Hcc) as [?|[a Ha]]; [done|]. by rewrite (pw_closed _ Hwf Hc) in Ha.
  - intros addr. by rewrite /client Hc.
Qed.
End connections.

(** ** What a dispatch does *)
Section spec.
Context {W : Type} `{CW : Clock W} `{CL : !ClockLaws W} `{NW : NodeHost W} `{NT : Network W}.
Context {meta : Z} `{NL : !NodeHostLaws W meta} `{NTL : !NetworkLaws W (nh_valid (meta := meta))}.
Context (NewClient : string → list DialOption → option error) (hosts : Z → Host) (d : Dispatcher).
Implicit Types (w : W) (x : node W).

Abbreviation valid := (nh_valid (meta := meta) (W := W)).

#[export] Instance node_laws : ClockLaws (node W).
Proof.
  split. intros x ctx t x' b. cbn. destruct (Timer (nd_world x) ctx t) as [w1 b1] eqn:E. intros [= <- <-]. cbn.
  by apply timer_waits in E.
Qed.

(** Predicates that hold on once they hold. *)
Definition stable (T : W → Prop) : Prop := ∀ w w', later w w' → T w → T w'.

Lemma steps_and (T : W → Prop) w w' : stable T → steps valid w w' → steps (λ w, valid w ∧ T w) w w'.
Proof. intros HT Hs [Hv Ht]. destruct (Hs Hv) as [Hv' L]. split; [split; [done|by eapply HT]|done]. Qed.

(** *** Failures *)

(** The code a failed attempt's error leads to. *)
Definition failureCode (last : error) : Z :=
  match findStatus last with
  | Some c => c
  | None => if Is (message errStopRetry) last then codes.Internal else codes.Unavailable
  end.

Lemma classify_code err : is_base err = false → statusCode (Some (classify err)) = failureCode err.
Proof.
  intros Hb. rewrite /classify /failureCode. destruct (Is _ err).
  - cbn [Permanent]. match goal with |- context [E _ _ (Some ?m)] => destruct (E_fresh CatInternal TypeConsensus m eq_refl) as (o & -> & _) end.
    cbn. by destruct (findStatus err).
  - destruct (E_fresh CatUnavailable TypeConsensus err Hb) as (o & -> & _). cbn. by destruct (findStatus err).
Qed.

Lemma failureCode_wrapf p e : failureCode (wrapf p e) = failureCode e.
Proof. rewrite /failureCode /=. rewrite orb_false_r. by destruct (findStatus e). Qed.

(** Marking an error, with a sentinel that is not the dispatcher's. *)
Lemma failureCode_marked t e s : s ≠ message errStopRetry → failureCode (Wrapping t [e; Text s]) = failureCode e.
Proof.
  intros Hs. rewrite /failureCode /=. rewrite bool_decide_eq_false_2 // !orb_false_r. by destruct (findStatus e).
Qed.

(** The error of a dispatch whose deadline leaves no room for another wait. *)
Definition lateError (name : string) (sh : Z) : error :=
  classify (wrapf (name +:+ ": shard " +:+ pretty sh +:+ ": ")
    (Wrapping ("r.Err: " +:+ message ErrRetryCanceled) [ErrRetryCanceled])).

(** An error that is not retried. *)
Definition permanent (e : error) : bool := Is (message errStopRetry) e || Is (message ErrPermanent) e.

(** How a dispatch fails: some attempt, the last, failed with the error [last].  If that is
    permanent, or the context ended during the wait after the attempt, the dispatch
    reports it, with its code; if the context had ended or its deadline did not leave the time
    to wait, the dispatch reports that instead, whatever the attempts answered. *)
Definition dispatchFails {A} (name : string) (sh : Z) (ctx : Ctx) (local : Ctx → W → W * result A error)
    (remote : Ctx → Host → W → W * result A error) (x x' : node W) (e : error) : Prop :=
  let dctx := EnsureDeadline x ctx dispatchTimeout in
  ∃ r x1 x2 last, later (nd_world x) (nd_world x1) ∧ attempt NewClient hosts d sh (local dctx) (remote dctx) r x1 = (x2, Err last) ∧
    if permanent last then x' = x2 ∧ statusCode (Some e) = failureCode last
    else ∃ t, waitsAfter FastRetryPolicy (at_Attempt r) t ∧
      if ctxOK x2 dctx t then Timer x2 dctx t = (x', false) ∧ statusCode (Some e) = failureCode last
      else x' = x2 ∧ e = lateError name sh ∧ statusCode (Some e) = codes.Unavailable.

Section attempts.
Context (T : W → Prop) (HT : stable T) {A : Type} (post : W → W → A → Prop).
Context (Hpost : ∀ w0 w w' w1 a, later w0 w → post w w' a → later w' w1 → post w0 w1 a).

Abbreviation inv := (λ w, valid w ∧ T w).

(** What a handler guarantees. *)
Definition achieves (f : W → W * result A error) : Prop :=
  ∀ w, steps inv w (f w).1 ∧ ∀ w' a, inv w → f w = (w', Ok a) → post w w' a.

Lemma call_achieves addr remote : (∀ h, achieves (remote h)) → achieves (λ w, call hosts w addr remote).
Proof.
  intros Hr w. rewrite /call. pose proof (steps_and T _ _ HT (dial_steps w addr)) as Hd.
  destruct (Dial w addr) as [w1 [id|e]]; cbn [fst] in Hd |- *; [|by split].
  destruct (Hr (hosts id) w1) as [Hs Hp]. destruct (remote (hosts id) w1) as [w2 r]. cbn [fst] in Hs.
  pose proof (steps_and T _ _ HT (respond_steps w2 addr)) as Ha. destruct (Respond w2 addr) as [w3 lost]. cbn [fst] in Ha |- *.
  split; [by etransitivity; [|etransitivity]|]. intros w' a Hi. destruct lost, r as [b|]; try done. intros [= <- <-].
  destruct (Hd Hi) as [Hi1 L1]. destruct (Hs Hi1) as [Hi2 L2]. destruct (Ha Hi2) as [_ L3].
  eapply Hpost; [exact L1|by apply Hp|exact L3].
Qed.

(** One attempt, as a relation on nodes. *)
Definition stepsN (x x' : node W) : Prop := steps inv (nd_world x) (nd_world x').

#[export] Instance stepsN_preorder : PreOrder stepsN.
Proof.
  split; [by intros x|]. intros x y z H1 H2. rewrite /stepsN in H1, H2 |- *. by etransitivity.
Qed.

Lemma attempt_spec sh local remote r x x' res :
  achieves local → (∀ h, achieves (remote h)) →
  attempt NewClient hosts d sh local remote r x = (x', res) →
  stepsN x x' ∧ ∀ a, inv (nd_world x) → res = Ok a → post (nd_world x) (nd_world x') a.
Proof.
  intros Hl Hr. rewrite /attempt /stepsN. destruct (route d (nd_world x) sh) as [[addr|]|e].
  - destruct (client NewClient (nd_pool x) addr) as [p1 [cc|e]]; [|by intros [= <- <-]].
    destruct (call_achieves addr remote Hr (nd_world x)) as [Hs Hp]. destruct (call hosts (nd_world x) addr remote) as [w1 r1].
    cbn [fst] in Hs. destruct r1 as [a|e]; intros [= <- <-]; cbn [nd_world]; (split; [done|]); [|done].
    intros b Hi [= <-]. by apply Hp.
  - destruct (Hl (nd_world x)) as [Hs Hp]. destruct (local (nd_world x)) as [w1 r1]. intros [= <- <-]. cbn [nd_world fst] in *.
    split; [done|]. intros a Hi ->. by apply Hp.
  - by intros [= <- <-].
Qed.

Lemma stopping_spec fn r x x' res :
  stopping (A := A) fn r x = (x', res) →
  ∃ res0, fn r x = (x', res0) ∧
    res = match res0 with
          | Ok a => Ok a
          | Err e => Err (if Is (message errStopRetry) e
                          then Wrapping (message e +:+ ": " +:+ message ErrPermanent) [e; ErrPermanent] else e)
          end.
Proof.
  rewrite /stopping. destruct (fn r x) as [x1 [a|e]]; intros [= <- <-]; by eexists.
Qed.

Context (Hboff : dp_boff d = {| bo_policy := FastRetryPolicy; bo_transformers := [] |}).
Context (sh : Z) (local : Ctx → W → W * result A error) (remote : Ctx → Host → W → W * result A error).
Context (Hlocal : ∀ ctx, achieves (local ctx)) (Hremote : ∀ ctx h, achieves (remote ctx h)).

Abbreviation fn := (λ ctx, attempt NewClient hosts d sh (local ctx) (remote ctx)).

Lemma stopping_steps ctx r x : stepsN x (stopping (fn ctx) r x).1.
Proof.
  destruct (stopping (fn ctx) r x) as [x' res] eqn:E. apply stopping_spec in E as (res0 & E & _).
  by eapply attempt_spec in E as [? _].
Qed.

Lemma timer_stepsN x ctx t : stepsN x (Timer x ctx t).1.
Proof.
  rewrite /stepsN. cbn. pose proof (steps_and T _ _ HT (nh_timer (nd_world x) ctx t)) as Hs.
  by destruct (Timer (nd_world x) ctx t).
Qed.

Lemma retry_spec ctx x x' res :
  retry d ctx fn x = (x', res) →
  let dctx := EnsureDeadline x ctx dispatchTimeout in retryEnds stepsN (dp_boff d) dctx (stopping (fn dctx)) x x' res.
Proof.
  rewrite /retry. apply (Retry_spec stepsN); [| |by rewrite Hboff..].
  - intros r y. apply stopping_steps.
  - intros y t. apply timer_stepsN.
Qed.

(** The loop ends: with the rounds a deadline leaves time for, and with eight
    when the dispatcher sets the deadline itself. *)
Lemma retry_rounds ctx t n x :
  inv (nd_world x) → t - Now x < leastWait FastRetryPolicy (S n) (100 * Millisecond) →
  (Retry (dp_boff d) (dp_draw d) (Some t) (stopping (fn ctx)) (S n) x).2 ≠ None.
Proof.
  intros Hi Ht. apply (Retry_ends (dp_boff d)) with (P := λ y, inv (nd_world y)); rewrite ?Hboff; [done..| | |done|done|exact Ht].
  - intros r y Hy. destruct (stopping_steps ctx r y Hy) as [? L]. split; [done|]. apply (later_time _ _ L).
  - intros y c k Hy. by apply (timer_stepsN y c k).
Qed.

Lemma retry_ends ctx x : inv (nd_world x) → (retry d ctx fn x).2 ≠ None.
Proof.
  intros Hi. rewrite /retry. set (dctx := EnsureDeadline x ctx dispatchTimeout). assert (∃ t, dctx = Some t) as [t ->].
  { rewrite /dctx. by destruct ctx; eexists. }
  apply retry_rounds; [done|]. pose proof (fast_wait (S (Z.to_nat ((t - Now x) / (50 * Millisecond)))) (100 * Millisecond)) as Hw.
  pose proof (Z.div_mod (t - Now x) (50 * Millisecond) ltac:(done)) as Hd.
  pose proof (Z.mod_pos_bound (t - Now x) (50 * Millisecond) ltac:(done)) as Hm.
  set (k := (t - Now x) / (50 * Millisecond)) in *. clearbody k. specialize (Hw ltac:(done) ltac:(done)).
  assert (k ≤ Z.of_nat (Z.to_nat k)) by lia. rewrite Nat2Z.inj_succ in Hw. rewrite /Millisecond in Hw, Hd, Hm |- *. lia.
Qed.

(** A dispatch that succeeds did what one attempt does. *)
Lemma dispatched_spec name ctx x x' r :
  inv (nd_world x) → dispatched name sh (retry d ctx fn x) = (x', r) →
  inv (nd_world x') ∧ later (nd_world x) (nd_world x') ∧ ∀ a, r = Ok a → post (nd_world x) (nd_world x') a.
Proof.
  intros Hi. rewrite /dispatched. destruct (retry d ctx fn x) as [y res] eqn:E. intros [= <- <-].
  apply retry_spec in E as [Hs Hres]. destruct (Hs Hi) as [Hi' L]. split; [exact Hi'|]. split; [exact L|].
  intros a. destruct res as [[b|e]|]; [|done|done]. intros [= <-].
  destruct Hres as (r & x1 & S1 & E). apply stopping_spec in E as ([b0|] & E & [= <-]).
  destruct (S1 Hi) as [Hi1 L1]. eapply attempt_spec in E as [_ Hp]; [|apply Hlocal|apply Hremote].
  eapply Hpost; [exact L1|by apply Hp|reflexivity].
Qed.

(** The marks of the retry loop and of the dispatcher keep the code. *)
Lemma stopping_failure r x1 x2 ctx e : stopping (fn ctx) r x1 = (x2, Err e) →
  ∃ last, fn ctx r x1 = (x2, Err last) ∧ Is (message ErrPermanent) e = permanent last ∧ failureCode e = failureCode last.
Proof.
  intros Hs. apply stopping_spec in Hs as ([|last] & Hs & Hres); [done|]. injection Hres as Hres. exists last. split; [done|].
  assert (e = if Is (message errStopRetry) last then Wrapping (message last +:+ ": " +:+ message ErrPermanent) [last; ErrPermanent] else last) as -> by exact Hres.
  rewrite /permanent. destruct (Is (message errStopRetry) last); [|done]. split; [|by apply failureCode_marked].
  cbn. rewrite bool_decide_eq_true_2 //. by rewrite orb_true_r.
Qed.

Lemma dispatched_fails name ctx x x' e :
  inv (nd_world x) → dispatched name sh (retry d ctx fn x) = (x', Err e) → dispatchFails name sh ctx local remote x x' e.
Proof.
  intros Hi. rewrite /dispatched. pose proof (retry_ends ctx x Hi) as Hend.
  destruct (retry d ctx fn x) as [y [[a|e']|]] eqn:E; [done| |done]. intros [= <- <-].
  apply retry_spec in E as [_ Hg]. rewrite Hboff in Hg. destruct Hg as [r x1 e' S1 Hs Hp|r x1 e' t S1 Hs Hp Hw Hok|r x1 x2 t e' S1 Hs Hp Hw Hok Htm];
    apply stopping_failure in Hs as (last & Hs & Ep & Ec); rewrite Hp in Ep.
  - exists r, x1, y, last. split_and!; [by apply S1|done|]. rewrite -Ep. split; [done|]. by rewrite classify_code // failureCode_wrapf.
  - exists r, x1, y, last. split_and!; [by apply S1|done|]. rewrite -Ep. exists t. split; [done|]. rewrite Hok.
    split_and!; [done|done|]. by rewrite classify_code // failureCode_wrapf.
  - exists r, x1, x2, last. split_and!; [by apply S1|done|]. rewrite -Ep. exists t. split; [done|]. rewrite Hok. split; [done|].
    by rewrite classify_code // failureCode_wrapf failureCode_marked.
Qed.
End attempts.

(** *** Proposals *)
Lemma typed_stable sh b : stable (λ w, typed (committed w sh) b).
Proof. intros w w' L. apply typed_moved, (later_committed _ _ L). Qed.

Lemma Propose_achieves h ctx sh b :
  achieves (λ w, typed (committed w sh) b) (λ w w' rb, appliedDuring w w' sh b rb) (λ w, Propose h w ctx sh b).
Proof.
  intros w. split.
  - intros Hi. apply (steps_and (λ w, typed (committed w sh) b) w); [apply typed_stable|apply Propose_steps, Hi|exact Hi].
  - intros w' rb [Hv Ht]. by apply Propose_applied.
Qed.

Lemma ServePropose_achieves ctx sh b h :
  achieves (λ w, typed (committed w sh) b) (λ w w' rb, appliedDuring w w' sh b rb) (ServePropose ctx sh b h).
Proof.
  intros w. rewrite /ServePropose. destruct (IsLeader h w sh); cbn [negb fst]; [|by split].
  destruct (Propose_achieves h ctx sh b w) as [Hs Hp]. destruct (Propose h w ctx sh b) as [w1 [rb|e]]; cbn [fst] in *;
    (split; [done|]); [|done]. intros w' a Hi [= <- <-]. by apply Hp.
Qed.

Context (Hboff : dp_boff d = {| bo_policy := FastRetryPolicy; bo_transformers := [] |}).

Lemma DPropose_spec ctx sh b x x' r :
  valid (nd_world x) → typed (committed (nd_world x) sh) b → DPropose NewClient hosts d ctx sh b x = (x', r) →
  valid (nd_world x') ∧ later (nd_world x) (nd_world x') ∧
  ∀ rb, r = Ok rb → appliedDuring (nd_world x) (nd_world x') sh b rb.
Proof.
  intros Hv Ht. rewrite /DPropose. intros E.
  destruct (dispatched_spec _ (typed_stable sh b) (λ w w' rb, appliedDuring w w' sh b rb)
    (λ w0 w w' w1 rb, appliedDuring_later w0 w w' w1 sh b rb) Hboff sh _ _
    (λ c, Propose_achieves (dp_local d) c sh b) (λ c, ServePropose_achieves c sh b) _ _ _ _ _ (conj Hv Ht) E) as ([Hv' _] & L & Hp).
  done.
Qed.

(** C33: a forwarded write is committed.  A command dispatched to a lock shard
    leaves every shard in a state that follows from its own by committed
    commands, whichever nodes were called and however often.  When the dispatch
    succeeds, on this node or through the leader's, the command was applied to the
    shard during the call and the answer decodes to the answer of that
    application. *)
Theorem dispatch_commits ctx sh c x x' r :
  valid (nd_world x) → isMeta meta sh = false → proposal c → DPropose NewClient hosts d ctx sh (encode c) x = (x', r) →
  valid (nd_world x') ∧
  (∀ s, moved (lockOf (committed (nd_world x) s)) (lockOf (committed (nd_world x') s))) ∧
  ∀ rb, r = Ok rb →
    ∃ f, moved (lockOf (committed (nd_world x) sh)) f ∧ moved (apply f c) (lockOf (committed (nd_world x') sh)) ∧
      UnmarshalResult rb = Ok (pbOf (answer f c)).
Proof.
  intros Hv Hsh Hc E. apply DPropose_spec in E as (Hv' & L & Hp); [|done|by apply lock_typed]. split_and!; [done|..].
  - intros s. apply lockOf_moved, (later_committed _ _ L).
  - intros rb ->. by apply applied_lock, Hp.
Qed.

(** C34: a dispatch ends.  Whatever the peers and the shards answer, the retry loop
    returns within the rounds its deadline leaves time for, and when the caller set
    no deadline, after at most eight attempts. *)
Theorem dispatch_ends ctx sh b x :
  valid (nd_world x) → typed (committed (nd_world x) sh) b →
  let fn := λ ctx, attempt NewClient hosts d sh (λ w, Propose (dp_local d) w ctx sh b) (ServePropose ctx sh b) in
  (retry d ctx fn x).2 ≠ None ∧
  let dctx := EnsureDeadline x None dispatchTimeout in
  (Retry (dp_boff d) (dp_draw d) dctx (stopping (fn dctx)) 8 x).2 ≠ None.
Proof.
  intros Hv Ht fn. split.
  - exact (retry_ends _ (typed_stable sh b) (λ w w' rb, appliedDuring w w' sh b rb)
      (λ w0 w w' w1 rb, appliedDuring_later w0 w w' w1 sh b rb) Hboff sh _ _
      (λ c, Propose_achieves (dp_local d) c sh b) (λ c, ServePropose_achieves c sh b) ctx x (conj Hv Ht)).
  - apply (retry_rounds _ (typed_stable sh b) (λ w w' rb, appliedDuring w w' sh b rb)
      (λ w0 w w' w1 rb, appliedDuring_later w0 w w' w1 sh b rb) Hboff sh _ _
      (λ c, Propose_achieves (dp_local d) c sh b) (λ c, ServePropose_achieves c sh b) _ _ 7 x (conj Hv Ht)).
    rewrite /dispatchTimeout. enough (10000 * Millisecond < leastWait FastRetryPolicy 8 (100 * Millisecond)) by lia.
    by vm_compute.
Qed.

(** *** Membership changes *)

Lemma true_stable : stable (λ _ : W, True).
Proof. done. Qed.

(** A call on a host that reports success as [Ok tt], and the same call behind the
    leadership check. *)
Lemma member_achieves sh Q (f : W → W * option error) :
  (∀ w w' r, f w = (w', r) → steps valid w w' ∧
     (r = None → valid w → memberDuring sh Q w w')) →
  achieves (λ _, True) (λ w w' _, memberDuring sh Q w w') (asResult f tt) ∧
  ∀ h what, achieves (λ _, True) (λ w w' _, memberDuring sh Q w w')
    (λ w, if negb (IsLeader h w sh) then (w, Err (notLeader sh))
          else let '(w1, err) := f w in (w1, match err with Some e => Err (forwarded what sh e) | None => Ok tt end)).
Proof.
  intros Hf.
  assert (∀ w w' r, f w = (w', r) → steps (λ w, valid w ∧ True) w w' ∧ (r = None → valid w → memberDuring sh Q w w')) as Hf'.
  { intros w w' r E. destruct (Hf w w' r E) as [Hs Hm]. split; [by apply (steps_and (λ _, True))|done]. }
  split.
  - intros w. rewrite /asResult. destruct (f w) as [w1 r] eqn:E. destruct (Hf' _ _ _ E) as [Hs Hm]. split; [done|].
    intros w' a [Hv _]. destruct r; [done|]. intros [= <- _]. by apply Hm.
  - intros h what w. destruct (IsLeader h w sh); cbn [negb]; [|by split]. destruct (f w) as [w1 r] eqn:E.
    destruct (Hf' _ _ _ E) as [Hs Hm]. split; [done|]. intros w' a [Hv _]. destruct r; [done|]. intros [= <- _]. by apply Hm.
Qed.

Lemma AddReplica_spec ctx sh id addr x x' r :
  valid (nd_world x) → AddReplica NewClient hosts d ctx sh id addr x = (x', r) →
  valid (nd_world x') ∧ later (nd_world x) (nd_world x') ∧
  (r = Ok tt → memberDuring sh (λ ms, is_Some (ms !! id)) (nd_world x) (nd_world x')).
Proof.
  intros Hv E. rewrite /AddReplica in E.
  assert (∀ h c, _) as Hach by exact (λ h c, member_achieves sh (λ ms, is_Some (ms !! id)) _
    (λ w w' r, AddReplicaShard_spec h w c sh id addr w' r)).
  destruct (dispatched_spec _ true_stable (λ w w' _, memberDuring sh (λ ms, is_Some (ms !! id)) w w')
    (λ w0 w w' w1 _, memberDuring_later sh _ w0 w w' w1) Hboff sh _ _
    (λ c, proj1 (Hach (dp_local d) c)) (λ c h, proj2 (Hach h c) h "add replica") _ _ _ _ _ (conj Hv I) E) as ([Hv' _] & L & Hp).
  split_and!; [done|done|]. apply Hp.
Qed.

Lemma RemoveReplica_spec ctx sh id x x' r :
  valid (nd_world x) → RemoveReplica NewClient hosts d ctx sh id x = (x', r) →
  valid (nd_world x') ∧ later (nd_world x) (nd_world x') ∧
  (r = Ok tt → memberDuring sh (λ ms, ms !! id = None) (nd_world x) (nd_world x')).
Proof.
  intros Hv E. rewrite /RemoveReplica in E.
  assert (∀ h c, _) as Hach by exact (λ h c, member_achieves sh (λ ms, ms !! id = None) _
    (λ w w' r, RemoveReplicaShard_spec h w c sh id w' r)).
  destruct (dispatched_spec _ true_stable (λ w w' _, memberDuring sh (λ ms, ms !! id = None) w w')
    (λ w0 w w' w1 _, memberDuring_later sh _ w0 w w' w1) Hboff sh _ _
    (λ c, proj1 (Hach (dp_local d) c)) (λ c h, proj2 (Hach h c) h "remove replica") _ _ _ _ _ (conj Hv I) E) as ([Hv' _] & L & Hp).
  split_and!; [done|done|]. apply Hp.
Qed.


(** *** The topology *)
Lemma DPropose_meta ctx sh c x x' r :
  valid (nd_world x) → isMeta meta sh = true → meta_proposal c → DPropose NewClient hosts d ctx sh (encodeMeta c) x = (x', r) →
  valid (nd_world x') ∧ later (nd_world x) (nd_world x') ∧
  ∀ rb, r = Ok rb → ∃ s, meta_moved (storeOf (committed (nd_world x) sh)) s ∧
    meta_moved (runMeta s [c]) (storeOf (committed (nd_world x') sh)).
Proof.
  intros Hv Hsh Hc E. apply DPropose_spec in E as (Hv' & L & Hp); [|done|by apply meta_typed]. split_and!; [done|done|].
  intros rb ->. eapply applied_meta; [done..|by apply Hp].
Qed.

(** A node that has recorded itself is in the topology, under its own id, with the
    addresses it was configured with. *)
Theorem self_recorded ctx x x' :
  let h := dp_local d in
  valid (nd_world x) → isMeta meta (h_metaShardID h) = true → meta_proposal (Put (selfMember h)) →
  WriteSelf h (λ x sh b, DPropose NewClient hosts d ctx sh b x) x = (x', None) →
  ∃ s, meta_moved (storeOf (committed (nd_world x) (h_metaShardID h))) s ∧
    meta_moved (runMeta s [Put (selfMember h)]) (storeOf (committed (nd_world x') (h_metaShardID h))) ∧
    members (runMeta s [Put (selfMember h)]) !! h_replicaID h = Some (selfMember h).
Proof.
  intros h Hv Hm Hc. rewrite /WriteSelf. destruct (Z.eqb_spec (h_metaShardID h) 0) as [E|_].
  { rewrite /isMeta E in Hm. by destruct (Z.eqb_spec meta 0), (Z.eqb_spec 0 meta). }
  destruct (DPropose _ _ _ _ _ _ _) as [y [rb|e]] eqn:E; [|done]. intros [= <-].
  apply DPropose_meta in E as (_ & _ & Hp); [|done..]. destruct (Hp rb eq_refl) as (s & H1 & H2). exists s.
  split_and!; [done|done|]. cbn. by rewrite lookup_insert_eq cloneMember_id.
Qed.
End spec.
