(* ===== verification/Dispatch.v ===== *)
(** * The dispatcher as the cluster of the services

    internal/node/node.go wires the services to the cluster with the dispatcher as
    their Proposer and the host as their Reader.  [dispatch_laws] shows that this
    pair is a [Cluster] as the session manager and the handlers need it, so that
    their theorems hold over forwarding and retries.

    [Net] is a cluster in memory whose replicas are always up to date: the shards'
    states, members and leaders, the addresses of the nodes, a clock and a script
    with the fate of the next calls between nodes. *)
From stdpp Require Import pretty.
From Stdlib Require Import Ascii QArith.
From S2P Require Import Prelude GoStrings Wire Errors Keypath Meta Fsm FsmWire FsmInv FsmSpec FsmTrace Consensus Router Cluster Session FsmContract Retry HostConfig Host Forward.

Local Open Scope string_scope.
Local Open Scope list_scope.
Local Open Scope Z_scope.

Section cluster.
Context {W : Type} `{CW : Clock W} `{CL : !ClockLaws W} `{NW : NodeHost W} `{NT : Network W}.
Context {meta : Z} `{NL : !NodeHostLaws W meta} `{NTL : !NetworkLaws W (nh_valid (meta := meta))}.
Context (NewClient : string → list DialOption → option error) (hosts : Z → Host) (d : Dispatcher) (ctx : Ctx).
Context (Hboff : dp_boff d = {| bo_policy := FastRetryPolicy; bo_transformers := [] |}).
Implicit Types (x : node W).

(** The type assertion on a read's answer. *)
Definition lockAnswer (r : result anyAnswer error) : result Answer error :=
  match r with
  | Err e => Err e
  | Ok (LockAnswer a) => Ok a
  | Ok (TopologyAnswer _) => Err (Text "unexpected read result")
  end.

Definition dispatch_cluster : Cluster (node W) :=
  {| shard x sh := lockOf (committed (nd_world x) sh);
     replica x sh := lockOf (applied (nd_world x) (h_replicaID (dp_local d)) sh);
     Cluster.Propose x sh b := DPropose NewClient hosts d ctx sh b x;
     ReadAt x sh q := let '(w1, r) := Read (dp_local d) (nd_world x) ctx sh (LockQuery q) in (mkNode (nd_pool x) w1, lockAnswer r);
     Cluster.StaleRead x sh q := lockAnswer (StaleRead (dp_local d) (nd_world x) sh (LockQuery q)) |}.

Lemma lookup_lock m q r : lookupAny m (LockQuery q) = Some r → ∃ a, r = LockAnswer a ∧ query (lockOf m) q = Ok a.
Proof. destruct m as [f|s]; [|done]. cbn. rewrite /Consensus.Lookup. destruct (query f q) as [a|]; [|done]. intros [= <-]. by exists a. Qed.

Lemma proposed_later x sh c :
  nh_valid (nd_world x) → isMeta meta sh = false → proposal c →
  nh_valid (nd_world (DPropose NewClient hosts d ctx sh (encode c) x).1) ∧
  later (nd_world x) (nd_world (DPropose NewClient hosts d ctx sh (encode c) x).1).
Proof.
  intros Hv Hsh Hc. destruct (DPropose _ _ _ _ _ _ _) as [x' r] eqn:E. by apply DPropose_spec in E as (? & ? & _);
    [|done|done|apply lock_typed].
Qed.

Definition dispatch_laws : @ClusterLaws (node W) dispatch_cluster.
Proof.
  refine (@Build_ClusterLaws (node W) dispatch_cluster (λ x, nh_valid (nd_world x)) (λ sh, isMeta meta sh = false) _ _ _ _ _ _ _ _ _); cbn.
  - intros x sh Hv. pose proof (nh_committed (nd_world x) sh Hv) as Hok. destruct (committed _ _); cbn in Hok |- *.
    + by destruct Hok as (_ & ? & ?).
    + split; [apply wf_New|apply New_stored].
  - intros x sh c Hv Hsh Hc. destruct (proposed_later x sh c Hv Hsh Hc) as [? L]. split; [done|].
    intros s. apply lockOf_moved, (later_committed _ _ L).
  - intros x sh c x' rb Hv Hsh Hc E. apply DPropose_spec in E as (_ & _ & Ha); [|done|done|by apply lock_typed].
    by apply applied_lock, Ha.
  - intros x sh q Hv. pose proof (Read_steps (dp_local d) (nd_world x) ctx sh (LockQuery q) Hv) as [Hv' L].
    destruct (Read _ _ _ _ _) as [w1 r]. split; [done|]. intros s. apply lockOf_moved, (later_committed _ _ L).
  - intros x sh q x' a Hv. destruct (Read _ _ _ _ _) as [w1 [r|]] eqn:E; intros [= <- Ha].
    destruct (Read_answers _ _ _ _ _ _ _ Hv E) as (m & M1 & M2 & M3). apply lookup_lock in M2 as (b & -> & Hq). injection Ha as ->.
    exists (lockOf m). split_and!; [by apply lockOf_moved|by apply lockOf_moved|done].
  - intros x sh q a Hv. destruct (StaleRead _ _ _ _) as [r|] eqn:E; [|done]. intros Ha. apply nh_local in E; [|done].
    apply lookup_lock in E as (b & -> & Hq). by injection Ha as ->.
  - intros x sh Hv. apply lockOf_moved. by apply nh_applied.
  - intros x sh c Hv Hsh Hc s. destruct (proposed_later x sh c Hv Hsh Hc) as [_ L]. apply lockOf_moved, (later_applied _ _ L).
  - intros x sh q Hv s. pose proof (Read_steps (dp_local d) (nd_world x) ctx sh (LockQuery q) Hv) as [_ L].
    destruct (Read _ _ _ _ _) as [w1 r]. apply lockOf_moved, (later_applied _ _ L).
Defined.
End cluster.

(** ** A cluster in memory *)
Record Net := mkNet {
  n_states : gmap Z machine;
  n_members : gmap Z (list (gmap Z string));
  n_leaders : gmap Z Z;
  n_addrs : gmap string Z;
  n_clock : Z;
  n_script : list (option (Z * string) * option (Z * string));
  n_pending : option (Z * string)
}.
#[export] Instance Net_eta : Eta Net := λ n,
  mkNet (n_states n) (n_members n) (n_leaders n) (n_addrs n) (n_clock n) (n_script n) (n_pending n).

Definition net_meta : Z := 100.
Definition net_state (n : Net) (sh : Z) : machine := default (newFactory None net_meta sh 0) (n_states n !! sh).
Definition net_wait (n : Net) (t : Z) : Net := n <| n_clock ::= Z.add (Z.max 0 t) |>.

Definition net_propose (n : Net) (node : Z) (sh : Z) (b : list ascii) : Net * result SmResult error :=
  let n := net_wait n Millisecond in
  if negb (bool_decide (n_leaders n !! sh = Some node)) then (n, Err (Text "request dropped"))
  else match updateOne (net_state n sh) b with
       | Some (m, res) =>
           if Z.of_nat (length (sr_Data res)) <? 2 ^ 63 then (n <| n_states ::= insert sh m |>, Ok res)
           else (n, Err (Text "timeout"))
       | None => (n, Err (Text "timeout"))
       end.

Definition net_lookup (n : Net) (sh : Z) (q : anyQuery) : result anyAnswer error :=
  match lookupAny (net_state n sh) q with Some a => Ok a | None => Err (Text "unknown query type") end.

(** The memberships a shard has had; a node that was a member is not added again. *)
Definition net_log (n : Net) (sh : Z) : list (gmap Z string) := default [∅] (n_members n !! sh).
Definition net_members (n : Net) (sh : Z) : gmap Z string := default ∅ (last (net_log n sh)).
Definition net_decide (n : Net) (sh : Z) (ms : gmap Z string) : Net := n <| n_members ::= insert sh (net_log n sh ++ [ms]) |>.
Definition net_add (n : Net) (sh id : Z) (addr : string) : Net * option error :=
  if forallb (λ ms, bool_decide (ms !! id = None)) (net_log n sh) then (net_decide n sh (<[id := addr]> (net_members n sh)), None)
  else (n, Some (Text "request rejected")).
Definition net_delete (n : Net) (sh id : Z) : Net := net_decide n sh (delete id (net_members n sh)).

#[export] Instance Net_clock : Clock Net :=
  {| Now := n_clock; Canceled _ := false;
     Timer n _ t := (net_wait n t, true); Tick n _ := (net_wait n (5 * Millisecond), true) |}.

#[export] Instance Net_host : NodeHost Net :=
  {| committed := net_state; applied n _ := net_state n; memberLog := net_log;
     GetLeaderID n _ sh := Ok (match n_leaders n !! sh with Some l => (l, true) | None => (0, false) end);
     SyncPropose n node _ := net_propose n node;
     SyncRead n _ _ sh q := (n, net_lookup n sh q);
     LocalRead n _ sh q := net_lookup n sh q;
     SyncGetClusterMembership n _ _ sh := (n, Ok (net_members n sh));
     SyncRequestAddNode n _ _ := net_add n;
     SyncRequestDeleteNode n _ _ sh id := (net_delete n sh id, None);
     RequestLeaderTransfer n _ sh target := (n <| n_leaders ::= insert sh target |>, None) |}.

(** A call takes the next step of the script: what becomes of the request, and of
    the response. *)
#[export] Instance Net_network : Network Net :=
  {| Dial n addr :=
       let '(out, back, rest) := match n_script n with [] => (None, None, []) | (o, b) :: r => (o, b, r) end in
       let n1 := (net_wait n Millisecond) <| n_script := rest |> <| n_pending := back |> in
       (n1, match out, n_addrs n !! addr with
            | Some e, _ => Err e
            | None, Some id => Ok id
            | None, None => Err (codes.Unavailable, "no such host")
            end);
     Respond n _ := (n <| n_pending := None |>, n_pending n) |}.

Definition net_valid (n : Net) : Prop := ∀ sh, machine_ok net_meta sh (net_state n sh) ∧ net_log n sh ≠ [] ∧ goneStaysGone (net_log n sh).

Section net.
Implicit Types (n : Net).

Lemma net_same n n' : n_states n' = n_states n → n_members n' = n_members n → n_clock n ≤ n_clock n' → steps net_valid n n'.
Proof.
  intros Es Em Ec Hv. assert (∀ sh, net_state n' sh = net_state n sh ∧ net_log n' sh = net_log n sh) as E.
  { intros sh. by rewrite /net_state /net_log Es Em. }
  split; [intros sh; destruct (E sh) as [-> ->]; apply Hv|]. split; [done|intros sh|intros k sh|intros sh]; cbn;
    [by rewrite (proj1 (E sh))..|by rewrite (proj2 (E sh))].
Qed.

(** Decisions about members. *)
Lemma gone_snoc l ms : goneStaysGone l →
  (∀ id, is_Some (ms !! id) → is_Some (default ∅ (last l) !! id) ∨ ∀ m, m ∈ l → m !! id = None) → goneStaysGone (l ++ [ms]).
Proof.
  intros Hl Hms i j k mi mj mk id Hijk Ei Ej Ek Hi Hj. pose proof (lookup_lt_Some _ _ _ Ek) as Hk. rewrite length_app /= in Hk.
  rewrite lookup_app_l in Ei; [lia|]. rewrite lookup_app_l in Ej; [lia|]. destruct (decide (k < length l)%nat).
  { rewrite lookup_app_l // in Ek. by apply (Hl i j k mi mj mk). }
  assert (k = length l) as -> by lia. rewrite list_lookup_middle // in Ek. injection Ek as <-.
  destruct (ms !! id) eqn:E; [|done]. exfalso. destruct (Hms id) as [Hlast|Hnever]; [by eexists| |].
  - rewrite last_lookup in Hlast. destruct (l !! pred (length l)) as [ml|] eqn:El; [|by destruct Hlast]. cbn in Hlast.
    destruct (decide (j = pred (length l))) as [->|]; [rewrite El in Ej; injection Ej as ->; rewrite Hj in Hlast; by destruct Hlast|].
    rewrite (Hl i j (pred (length l)) mi mj ml id) in Hlast; [lia|done..|by destruct Hlast].
  - rewrite (Hnever mi) in Hi; [by eapply list_elem_of_lookup_2|by destruct Hi].
Qed.

Lemma net_decide_log n sh ms s : net_log (net_decide n sh ms) s = if decide (s = sh) then net_log n sh ++ [ms] else net_log n s.
Proof. rewrite {1}/net_log /net_decide /=. case_decide as E; [subst; by rewrite lookup_insert_eq|by rewrite lookup_insert_ne]. Qed.
Lemma net_decided n sh ms :
  (∀ id, is_Some (ms !! id) → is_Some (net_members n sh !! id) ∨ ∀ m, m ∈ net_log n sh → m !! id = None) →
  steps net_valid n (net_decide n sh ms) ∧ hadMembers n (net_decide n sh ms) sh ms.
Proof.
  intros Hms. split.
  - intros Hv. split; [|split; [done|done|done|]].
    + intros s. split; [apply Hv|]. rewrite net_decide_log. case_decide; [|apply Hv]. split; [by destruct (net_log n sh)|].
      apply gone_snoc; [apply Hv|exact Hms].
    + intros s. cbn. rewrite net_decide_log. case_decide; [subst; by apply prefix_app_r|done].
  - exists (length (net_log n sh)). split; [cbn; lia|]. cbn. rewrite net_decide_log decide_True //. by apply list_lookup_middle.
Qed.
Lemma net_add_spec n sh id addr n' r : net_add n sh id addr = (n', r) →
  steps net_valid n n' ∧ (r = None → memberDuring sh (λ ms, ms !! id = Some addr) n n').
Proof.
  rewrite /net_add. destruct (forallb _ _) eqn:E; intros [= <- <-]; [|by split].
  destruct (net_decided n sh (<[id := addr]> (net_members n sh))) as [Hs Hh].
  - intros k. destruct (decide (k = id)) as [->|]; [right|left; by rewrite lookup_insert_ne in H].
    intros m Hm. rewrite forallb_forall in E. eapply bool_decide_eq_true, E. by apply list_elem_of_In.
  - split; [done|]. intros _. eexists. split; [exact Hh|]. apply lookup_insert_eq.
Qed.
Lemma net_delete_spec n sh id : steps net_valid n (net_delete n sh id) ∧ memberDuring sh (λ ms, ms !! id = None) n (net_delete n sh id).
Proof.
  destruct (net_decided n sh (delete id (net_members n sh))) as [Hs Hh].
  - intros k [x [_ Hx]%lookup_delete_Some]. left. by eexists.
  - split; [done|]. eexists. split; [exact Hh|]. apply lookup_delete_eq.
Qed.

Lemma net_wait_same n t : steps net_valid n (net_wait n t).
Proof. apply net_same; [done..|]. rewrite /net_wait. proj_simpl. lia. Qed.

Lemma updateOne_moves sh m b m' res :
  machine_ok net_meta sh m → typed m b → updateOne m b = Some (m', res) → machine_moved m m'.
Proof.
  destruct m as [f|s]; intros Hok (c & Hc & ->) Hu.
  - destruct (updateOne_lock _ _ _ _ _ _ Hok Hc Hu) as (-> & _). by apply moved_apply.
  - rewrite (updateOne_meta _ _ _ _ _ _ Hok Hc Hu). by apply meta_moved_apply.
Qed.

Lemma net_set n sh m :
  machine_moved (net_state n sh) m → steps net_valid n (n <| n_states ::= insert sh m |>).
Proof.
  intros Hm Hv.
  assert (∀ s, machine_moved (net_state n s) (net_state (n <| n_states ::= insert sh m |>) s)) as Hall.
  { intros s. rewrite {2}/net_state /= lookup_insert. case_decide; [by subst|]. done. }
  split; [intros s; split; [eapply machine_moved_ok; [apply Hall|apply Hv]|apply Hv]|]. split; [done|exact Hall| |done]. intros ? s. apply Hall.
Qed.

Lemma net_propose_spec n node sh b n' r :
  net_valid n → typed (net_state n sh) b → net_propose n node sh b = (n', r) →
  (net_valid n' ∧ later n n') ∧
  ∀ res, r = Ok res → small (sr_Data res) ∧
    ∃ m m', machine_moved (net_state n sh) m ∧ updateOne m b = Some (m', res) ∧ machine_moved m' (net_state n' sh).
Proof.
  intros Hv Ht. pose proof (net_wait_same n Millisecond) as Hw. rewrite /net_propose. set (n1 := net_wait n Millisecond) in *.
  destruct (Hw Hv) as [Hv1 L1]. change (net_state n sh) with (net_state n1 sh) in Ht |- *.
  case_bool_decide; cbn [negb]; [|by intros [= <- <-]].
  destruct (updateOne (net_state n1 sh) b) as [[m res]|] eqn:E; [|by intros [= <- <-]].
  destruct (Z.ltb_spec (Z.of_nat (length (sr_Data res))) (2 ^ 63)) as [Hl|]; [|by intros [= <- <-]]. intros [= <- <-].
  pose proof (updateOne_moves _ _ _ _ _ (proj1 (Hv1 sh)) Ht E) as Hm. destruct (net_set n1 sh m Hm Hv1) as [Hv2 L2].
  split; [split; [done|by etransitivity]|]. intros r [= <-]. split; [done|]. exists (net_state n1 sh), m.
  split_and!; [done|done|]. rewrite /net_state /= lookup_insert_eq. done.
Qed.

#[export] Instance Net_clock_laws : ClockLaws Net.
Proof. split. intros n ctx t n' b [= <- <-]. cbn. rewrite /net_wait. proj_simpl. lia. Qed.

#[export] Instance Net_laws : NodeHostLaws Net net_meta.
Proof.
  refine {| nh_valid := net_valid |}; cbn.
  - intros n sh Hv. apply Hv.
  - done.
  - intros n _ sh Hv. apply Hv.
  - intros n sh Hv. apply Hv.
  - intros n _ t. apply net_wait_same.
  - intros n _. apply net_wait_same.
  - intros n node _ sh b Ht Hv. destruct (net_propose n node sh b) as [n' r] eqn:E. by apply net_propose_spec in E as [? _].
  - intros n node _ sh b n' res Hv Ht E. apply net_propose_spec in E as [_ Hr]; [|done..]. by apply Hr.
  - done.
  - intros n _ _ sh q n' a Hv [= <- Ha]. exists (net_state n sh). split_and!; [done| |done].
    move: Ha. rewrite /net_lookup. by destruct (lookupAny _ _); intros [= ->].
  - intros n _ sh q a Hv. rewrite /net_lookup. by destruct (lookupAny _ _); intros [= ->].
  - done.
  - intros n _ _ sh n' ms Hv [= <- <-]. rewrite /net_members. destruct (last (net_log n sh)) as [ms|] eqn:E.
    + exists (pred (length (net_log n sh))). split; [cbn; lia|]. by rewrite last_lookup in E.
    + apply last_None in E. by destruct (Hv sh) as (_ & [] & _).
  - intros n _ _ sh id addr. destruct (net_add n sh id addr) as [n' r] eqn:E. by apply net_add_spec in E as [? _].
  - intros n _ _ sh id addr n' Hv E. apply net_add_spec in E as [_ H]. by apply H.
  - intros n _ _ sh id. apply net_delete_spec.
  - intros n _ _ sh id n' Hv [= <-]. apply net_delete_spec.
  - intros n _ sh t. by apply net_same.
Defined.

#[export] Instance Net_network_laws : NetworkLaws Net net_valid.
Proof.
  split; cbn.
  - intros n addr. destruct (match n_script n with [] => _ | _ => _ end) as [[out back] rest].
    apply net_same; [done..|]. rewrite /net_wait. cbn [fst]. proj_simpl. lia.
  - intros n addr. by apply net_same.
Qed.
End net.

(** ** Witnesses: node 1 forwards to node 2, which leads shard 1 *)
Definition demo_host (id : Z) : Host :=
  {| h_sessions := {[1; net_meta]}; h_shards := [1]; h_hosted := [1; net_meta]; h_metaShardID := net_meta; h_replicaID := id;
     h_raftAddr := "raft"; h_grpcAddr := "n" +:+ pretty id; h_nodeHostID := "" |}.

Definition demo_dispatcher : Dispatcher :=
  {| dp_local := demo_host 1; dp_seed := {[2 := "n2"]};
     dp_boff := {| bo_policy := FastRetryPolicy; bo_transformers := [] |}; dp_draw _ := 0 |}.

Definition demo_net (script : list (option (Z * string) * option (Z * string))) : Net :=
  {| n_states := ∅; n_members := <[1 := [<[1 := "raft"]> ∅]]> ∅; n_leaders := <[1 := 2]> (<[net_meta := 2]> ∅); n_addrs := {["n2" := 2]};
     n_clock := 0; n_script := script; n_pending := None |}.

Definition demo_client (addr : string) (_ : list DialOption) : option error := None.

Definition demo_forward (b : list ascii) (x : node Net) : node Net * result (list ascii) error :=
  DPropose demo_client demo_host demo_dispatcher None 1 b x.

Definition demo_at (script : list (option (Z * string) * option (Z * string))) : node Net :=
  mkNode (newPool []) (demo_net script).

Lemma gone_singleton ms : goneStaysGone [ms].
Proof. intros i j k mi mj mk id Hijk _ _ Hk%lookup_lt_Some. cbn in Hk. lia. Qed.
Lemma demo_net_valid script : net_valid (demo_net script).
Proof.
  intros sh. split.
  - rewrite /net_state lookup_empty /= /newFactory. destruct (negb _ && _) eqn:E; cbn; (split; [exact E|]).
    + apply NewStore_stored.
    + split; [apply wf_New|apply New_stored].
  - rewrite /net_log /=. destruct (decide (sh = 1)) as [->|]; [rewrite lookup_insert_eq|rewrite lookup_insert_ne // lookup_empty];
      (split; [done|apply gone_singleton]).
Qed.

Lemma demo_dispatcher_made :
  NewDispatcher (demo_host 1) {[2 := "n2"]} (λ _, 0) [] = Ok (demo_dispatcher, newPool []).
Proof. done. Qed.

Lemma demo_forward_valid c x : proposal c → net_valid (nd_world x) → net_valid (nd_world (demo_forward (encode c) x).1).
Proof.
  intros Hc Hv. destruct (demo_forward (encode c) x) as [x' r] eqn:E. apply DPropose_spec in E as [H _]; [exact H|done|exact Hv|].
  by apply (lock_typed (meta := net_meta)).
Qed.

Definition demo_grant : Cmd := LeaseGrant "a" 1000 0.
Lemma demo_grant_proposal : proposal demo_grant.
Proof. split; [done|split; by vm_compute]. Qed.

(** The request is lost once; the retry is answered. *)
Definition demo_granted : node Net * result (list ascii) error :=
  demo_forward (encode demo_grant) (demo_at [(Some (codes.Unavailable, "connection refused"), None)]).

Lemma dispatch_commits_witness :
  ∃ f, moved (apply f demo_grant) (lockOf (net_state (nd_world demo_granted.1) 1)).
Proof.
  destruct (dispatch_commits demo_client demo_host demo_dispatcher eq_refl None 1 demo_grant
    (demo_at [(Some (codes.Unavailable, "connection refused"), None)]) demo_granted.1 demo_granted.2) as (_ & _ & Hok).
  - apply demo_net_valid.
  - done.
  - exact demo_grant_proposal.
  - apply surjective_pairing.
  - assert (∃ rb, demo_granted.2 = Ok rb) as [rb Hrb] by (vm_compute; by eexists).
    destruct (Hok rb Hrb) as (f & _ & H & _). by exists f.
Defined.

Lemma dispatch_ends_witness :
  (retry demo_dispatcher None (λ ctx, attempt demo_client demo_host demo_dispatcher 1
     (λ w, Propose (demo_host 1) w ctx 1 (encode demo_grant)) (ServePropose ctx 1 (encode demo_grant))) (demo_at [])).2 ≠ None.
Proof.
  destruct (dispatch_ends demo_client demo_host demo_dispatcher eq_refl None 1 (encode demo_grant) (demo_at [])) as [H _].
  - apply demo_net_valid.
  - exists demo_grant. split; [exact demo_grant_proposal|done].
  - exact H.
Defined.

(** ** What a caller is told *)
Definition demo_error (r : node Net * result (list ascii) error) : error :=
  match r.2 with Err e => e | Ok _ => Text "" end.


(** The leader's address cannot be dialled. *)
Definition demo_undialable : node Net * result (list ascii) error :=
  DPropose (λ _ _, Some (Text "bad target")) demo_host demo_dispatcher None 1 (encode demo_grant) (demo_at []).


(** A peer that refuses every call with PermissionDenied: the attempts are
    retried, the deadline cuts them off and the caller is told Unavailable. *)
Definition demo_refused : node Net * result (list ascii) error :=
  demo_forward (encode demo_grant) (demo_at (replicate 20 (Some (codes.PermissionDenied, "peer not allowed"), None))).

Example refusal_lost : demo_error demo_refused = lateError "forward.Propose" 1 ∧ statusCode (Some (demo_error demo_refused)) = codes.Unavailable.
Proof. vm_compute. done. Qed.

(** The holder of a lock releases it; the leader applies the release, but its
    response is lost.  The retry is applied as well, and its answer, that the
    caller does not hold the lock, is what the caller gets for the release it made
    itself. *)
Definition demo_held : node Net :=
  let x := (demo_forward (encode demo_grant) (demo_at [])).1 in
  (demo_forward (encode (AcquireLock "/t/x" "a" true)) x).1.
Definition demo_released : node Net * result (list ascii) error :=
  demo_forward (encode (ReleaseLock "/t/x" "a" 1))
    (mkNode (nd_pool demo_held) ((nd_world demo_held) <| n_script := [(None, Some (codes.Unavailable, "connection reset"))] |>)).

Lemma demo_held_valid : net_valid (nd_world demo_held).
Proof.
  apply demo_forward_valid; [split; [done|split; by vm_compute]|].
  apply demo_forward_valid; [apply demo_grant_proposal|apply demo_net_valid].
Qed.

Example lost_release_denied :
  bool_decide (lk_holder <$> locks (lockOf (net_state (nd_world demo_held) 1)) !! "/t/x" = Some "a") = true ∧
  bool_decide (locks (lockOf (net_state (nd_world demo_released.1) 1)) !! "/t/x" = None) = true ∧
  (match demo_released.2 with Ok rb => match UnmarshalResult rb with Ok r => pr_Outcome r | Err _ => -1 end | Err _ => -1 end)
    = outcomeNumber OUTCOME_NOT_HOLDER.
Proof. vm_compute. done. Qed.

(** A lease of one second, granted at time zero, is due two seconds later; node 2
    leads the shard and sweeps it. *)
Definition demo_sweep : Net * option error :=
  ExpireDue (λ s, s) (demo_host 2) (nd_world demo_granted.1) None 1 2000000000.

Lemma demo_granted_valid : net_valid (nd_world demo_granted.1).
Proof. apply demo_forward_valid; [apply demo_grant_proposal|apply demo_net_valid]. Qed.

Lemma expire_due_sweeps_witness :
  ∃ f, moved (lockOf (net_state (nd_world demo_granted.1) 1)) f ∧ moved f (lockOf (net_state demo_sweep.1 1)).
Proof.
  destruct (expire_due_sweeps (λ s, s) (demo_host 2) (nd_world demo_granted.1) None 1 2000000000 demo_sweep.1) as (f & Hf1 & Hf2 & _).
  - apply demo_granted_valid.
  - done.
  - by vm_compute.
  - intros w1 ids Hr%(f_equal snd). cbn [snd] in Hr.
    assert ((Read (demo_host 2) (nd_world demo_granted.1) None 1 (LockQuery (DueLeasesQuery 2000000000))).2
            = Ok (LockAnswer (ADue ["a"]))) as E by by vm_compute.
    rewrite E in Hr. injection Hr as <-. constructor; [by vm_compute|constructor].
  - transitivity (demo_sweep.1, demo_sweep.2); [apply surjective_pairing|]. by f_equal.
  - by exists f.
Defined.
