(* ===== verification/Admin.v ===== *)
(** * Administration and browsing

    internal/server/cluster.go, browse.go and observers.go: the Cluster service,
    which lists the topology and changes the membership of every shard, the
    read-only Browse service, and the collection of a key's observers from every
    node, over the host and the dispatcher of a node.

    A call has the identity it was authenticated with and a deadline.  A task
    group runs its tasks in some order, which is an argument, and so is the moment
    each shard is read at.  [hubOf] is a node's watch hub; the time limit of the
    calls to the peers is one of the reasons the network has to fail them.
    [slices.SortFunc] may reorder equal elements and is an argument. *)
From stdpp Require Import pretty.
From Stdlib Require Import Ascii QArith.
From S2P Require Import Prelude GoStrings Wire Errors Keypath Authz Gate Meta Fsm Router Watch FsmWire FsmInv FsmSpec FsmTrace Consensus Cluster Session FsmContract Server Retry HostConfig Host Forward Dispatch.

Local Open Scope string_scope.
Local Open Scope list_scope.
Local Open Scope Z_scope.

Definition clusterKey : string := "cluster/".

(** ** cluster.go *)
Record ClusterConfig := {
  cc_Members : bool;
  cc_MetaShardID : Z;
  cc_Authorizer : Authorizer
}.

Record AddNodeRequest := { an_ReplicaId : Z; an_RaftAddress : string; an_ZuulGrpcAddress : string; an_NodeHostId : string }.
Record ShardInfo := { si_ShardId : Z; si_LeaderReplicaId : Z }.
Record HealthResponse := { hr_Healthy : bool; hr_ShardCount : Z; hr_LeaderCount : Z }.

(** The tasks of a group, one after another in the order they run: the state and
    the errors so far. *)
Definition groupTasks {S A} (task : S → A → S * option error) (s : S) (order : list A) : S * list error :=
  foldl (λ st a, let '(s1, e) := task st.1 a in (s1, st.2 ++ from_option (λ e, [e]) [] e)) (s, []) order.

Section admin.
Context {W : Type} `{Clock W} `{NodeHost W} `{Network W}.
Context (NewClient : string → list DialOption → option error) (hosts : Z → Host) (d : Dispatcher).
Context (Quote : string → string) (cfg : ClusterConfig).

Definition authorizeCluster (ctx : Gate.Context) (op : Op) : option error :=
  let identity := (IdentityFromContext ctx).1 in
  match Authorize (cc_Authorizer cfg) identity clusterKey op with
  | Err _ => Some (E CatPermission TypeUnauthorizedCluster
      (Some (Text ("client " +:+ Quote identity +:+ " is not authorized for cluster administration"))))
  | Ok _ => None
  end.

(** [Members]: the response's members have the topology entry's fields. *)
Definition ListMembers (ctx : Gate.Context) (dl : Ctx) (w : W) : W * result (list Member) error :=
  match authorizeCluster ctx Authz.Read with
  | Some e => (w, Err e)
  | None =>
      let '(w1, r) := MetaList (dp_local d) w dl in
      (w1, match r with Err e => Err (Server.grpcErr e) | Ok ms => Ok ms end)
  end.

Definition ListShards (ctx : Gate.Context) (w : W) : result (list ShardInfo) error :=
  match authorizeCluster ctx Authz.Read with
  | Some e => Err e
  | None => Ok ((λ sh, let '(id, ok) := LeaderID (dp_local d) w sh in
                       {| si_ShardId := sh; si_LeaderReplicaId := if ok then id else 0 |}) <$> h_hosted (dp_local d))
  end.

Definition Health (w : W) : HealthResponse :=
  let h := dp_local d in
  {| hr_Healthy := true; hr_ShardCount := u64 (Z.of_nat (length (h_hosted h)));
     hr_LeaderCount := foldl (λ n sh, let '(id, ok) := LeaderID h w sh in if ok && (id =? h_replicaID h) then u64 (n + 1) else n)
                         0 (h_hosted h) |}.

Definition errorOf {A} (r : result A error) : option error := match r with Ok _ => None | Err e => Some e end.

(** [putMember] and [deleteMember]. *)
Definition proposeMeta (dl : Ctx) (c : MetaCmd) (x : node W) : node W * option error :=
  let '(x1, r) := DPropose NewClient hosts d dl (cc_MetaShardID cfg) (encodeMeta c) x in (x1, errorOf r).

Definition requestedMember (req : AddNodeRequest) : Member :=
  {| mb_ReplicaId := an_ReplicaId req; mb_RaftAddress := an_RaftAddress req; mb_ZuulGrpcAddress := an_ZuulGrpcAddress req;
     mb_NodeHostId := an_NodeHostId req |}.

(** The common course of [AddNode] and [RemoveNode]: the checks, one task per
    hosted shard, and the topology. *)
Definition changeMembers (ctx : Gate.Context) (dl : Ctx) (bad : option string) (task : node W → Z → node W * option error)
    (c : MetaCmd) (order : list Z) (x : node W) : node W * result unit error :=
  match authorizeCluster ctx Authz.Admin with
  | Some e => (x, Err e)
  | None =>
      if negb (cc_Members cfg) then
        (x, Err (E CatUnimplemented TypeMembershipDisabled (Some (Text "membership changes are not enabled on this server"))))
      else match bad with
           | Some msg => (x, Err (E CatRequest TypeBadRequest (Some (Text msg))))
           | None =>
               let '(x1, errs) := groupTasks task x order in
               match groupError errs with
               | Some e => (x1, Err (Server.grpcErr e))
               | None =>
                   let '(x2, e) := proposeMeta dl c x1 in
                   (x2, match e with Some e => Err (Server.grpcErr e) | None => Ok tt end)
               end
           end
  end.

Definition AddNode (ctx : Gate.Context) (dl : Ctx) (req : AddNodeRequest) (order : list Z) (x : node W) : node W * result unit error :=
  changeMembers ctx dl
    (if (an_ReplicaId req =? 0) || bool_decide (an_RaftAddress req = "") then Some "replica_id and raft_address are required" else None)
    (λ x sh, let '(x1, r) := AddReplica NewClient hosts d dl sh (an_ReplicaId req) (an_RaftAddress req) x in (x1, errorOf r))
    (Put (requestedMember req)) order x.

Definition RemoveNode (ctx : Gate.Context) (dl : Ctx) (replicaID : Z) (order : list Z) (x : node W) : node W * result unit error :=
  changeMembers ctx dl
    (if replicaID =? 0 then Some "replica_id is required" else None)
    (λ x sh, let '(x1, r) := RemoveReplica NewClient hosts d dl sh replicaID x in (x1, errorOf r))
    (Delete replicaID) order x.
End admin.

(** ** observers.go *)
Class Hubs (W : Type) := hubOf : W → Z → Hub.

Record Observer := { obs_Identity : string; obs_ReplicaID : Z }.
Record ObserverSet := { os_Observers : list Observer; os_Partial : bool }.

Section observers.
Context {W : Type} `{Clock W} `{NodeHost W} `{Network W} `{Hubs W}.
Context (NewClient : string → list DialOption → option error) (hosts : Z → Host) (d : Dispatcher) (hash : string → N).

(** The Forwarder's handler: the local observers with this node's id. *)
Definition ServeListObservers (key : string) (h : Host) (w : W) : W * result (Z * list Observation) error :=
  (w, Ok (h_replicaID h, Watch.Observers hash (hubOf w (h_replicaID h)) key)).

(** [Dispatcher.ListObservers] *)
Definition ListObservers (addr key : string) (x : node W) : node W * result (Z * list Observation) error :=
  let '(p1, c) := client NewClient (nd_pool x) addr in
  match c with
  | Err e => (mkNode p1 (nd_world x), Err (wrapf ("forward.ListObservers: dial " +:+ addr +:+ ": ") e))
  | Ok _ =>
      let '(w1, r) := call hosts (nd_world x) addr (ServeListObservers key) in
      match r with
      | Err e => (mkNode (evictIfUnavailable p1 addr e) w1, Err e)
      | Ok o => (mkNode p1 w1, Ok o)
      end
  end.

(** One task of the fan-out. *)
Definition fetchPeer (key : string) (st : node W * ObserverSet) (m : Member) : node W * ObserverSet :=
  let '(x, out) := st in
  let '(x1, r) := ListObservers (mb_ZuulGrpcAddress m) key x in
  (x1, match r with
       | Err _ => {| os_Observers := os_Observers out; os_Partial := true |}
       | Ok (id, os) =>
           {| os_Observers := os_Observers out ++ ((λ o, {| obs_Identity := ob_Identity o; obs_ReplicaID := id |}) <$> os);
              os_Partial := os_Partial out |}
       end).

(** The members the fan-out asks: not this node, and with an address. *)
Definition isPeer (m : Member) : bool :=
  negb (mb_ReplicaId m =? h_replicaID (dp_local d)) && negb (bool_decide (mb_ZuulGrpcAddress m = "")).

(** [Observers]; [perm] is the order the tasks run in.  It never fails. *)
Definition Observers (perm : list Member → list Member) (dl : Ctx) (key : string) (x : node W) : node W * ObserverSet :=
  let self := h_replicaID (dp_local d) in
  let local := (λ o, {| obs_Identity := ob_Identity o; obs_ReplicaID := self |}) <$> Watch.Observers hash (hubOf (nd_world x) self) key in
  let '(w1, r) := MetaList (dp_local d) (nd_world x) dl in
  match r with
  | Err _ => (mkNode (nd_pool x) w1, {| os_Observers := local; os_Partial := true |})
  | Ok ms => foldl (fetchPeer key) (mkNode (nd_pool x) w1, {| os_Observers := local; os_Partial := false |})
               (perm (filter (λ m, isPeer m = true) ms))
  end.
End observers.

(** ** browse.go *)
Definition RECORD_KIND_LOCK : Z := 1.
Definition RECORD_KIND_ELECTION : Z := 2.
Definition kindOf (hasValue : bool) : Z := if hasValue then RECORD_KIND_ELECTION else RECORD_KIND_LOCK.

Record record := {
  rc_Key : string;
  rc_Kind : Z;
  rc_Held : bool;
  rc_HolderClientId : string;
  rc_FencingToken : Z;
  rc_QueueDepth : Z;
  rc_Revision : Z
}.
Record ListRecordsResponse := { ls_Records : list record; ls_Namespaces : list string }.
Record GetRecordResponse := {
  gr_Record : record;
  gr_Value : gobytes;
  gr_Contenders : list WaiterInfo;
  gr_Observers : list Observer;
  gr_Partial : bool
}.

Definition summaryToRecord (s : LockSummary) : record :=
  {| rc_Key := lsum_Name s; rc_Kind := kindOf (lsum_HasValue s); rc_Held := lsum_Held s; rc_HolderClientId := lsum_Holder s;
     rc_FencingToken := lsum_Token s; rc_QueueDepth := lsum_QueueDepth s; rc_Revision := 0 |}.

(** The namespaces in the order they are first seen. *)
Definition addNamespace (seen : list string) (s : LockSummary) : list string :=
  match Keypath.Owner (lsum_Name s) with
  | Ok owner => if bool_decide (owner ∈ seen) then seen else seen ++ [owner]
  | Err _ => seen
  end.

Section browse.
Context {W : Type} `{Clock W} `{NodeHost W} `{Network W} `{Hubs W}.
Context (NewClient : string → list DialOption → option error) (hosts : Z → Host) (d : Dispatcher) (hash : string → N).
Context (Quote : string → string) (describe : KeyError → string).
Context (router : Router) (authorizer : Authorizer).

Definition authorizeBrowse (ctx : Gate.Context) (key : string) : option error :=
  let identity := (IdentityFromContext ctx).1 in
  match Authorize authorizer identity key Authz.Read with
  | Err _ => Some (E CatPermission TypeUnauthorizedKey
      (Some (Text ("client " +:+ Quote identity +:+ " is not authorized to browse " +:+ Quote key))))
  | Ok _ => None
  end.

(** One task of [ListRecords]; the answer's Go type is named in the error. *)
Definition listShard (prefix : string) (moment : Z → W) (summary : list LockSummary) (sh : Z) : list LockSummary * option error :=
  match StaleRead (dp_local d) (moment sh) sh (LockQuery (ListLocksQuery prefix)) with
  | Err e => (summary, Some (wrapf ("shard " +:+ pretty sh +:+ ": ") e))
  | Ok (LockAnswer (ALocks ls)) => (summary ++ lsums_Locks ls, None)
  | Ok _ => (summary, Some (Text ("shard " +:+ pretty sh +:+ ": unexpected read result")))
  end.

Definition ListRecords (SortFunc : list LockSummary → list LockSummary) (ctx : Gate.Context) (prefix : string) (order : list Z)
    (moment : Z → W) : result ListRecordsResponse error :=
  match authorizeBrowse ctx (if bool_decide (prefix = "") then clusterKey else prefix) with
  | Some e => Err e
  | None =>
      let '(summary, errs) := groupTasks (listShard prefix moment) [] order in
      match groupError errs with
      | Some e => Err (Server.grpcErr e)
      | None =>
          let sorted := SortFunc summary in
          Ok {| ls_Records := summaryToRecord <$> sorted;
                ls_Namespaces := merge_sort String.le (foldl addNamespace [] sorted) |}
      end
  end.

Definition GetRecord (perm : list Member → list Member) (ctx : Gate.Context) (dl : Ctx) (key : string) (x : node W) :
    node W * result GetRecordResponse error :=
  match Server.requireKeyPath describe key with
  | Some e => (x, Err e)
  | None =>
      match authorizeBrowse ctx key with
      | Some e => (x, Err e)
      | None =>
          let '(w1, r) := Read (dp_local d) (nd_world x) dl (default 0 (Shard router key)) (LockQuery (WaitersQuery key)) in
          match r with
          | Err e => (mkNode (nd_pool x) w1, Err (Server.grpcErr e))
          | Ok (LockAnswer (AWaiters ws)) =>
              let '(x2, obs) := Observers NewClient hosts d hash perm dl key (mkNode (nd_pool x) w1) in
              (x2, Ok {| gr_Record :=
                           {| rc_Key := key; rc_Kind := kindOf (bool_decide (is_Some (ws_Value ws))); rc_Held := ws_Held ws;
                              rc_HolderClientId := ws_Holder ws; rc_FencingToken := ws_Token ws;
                              rc_QueueDepth := u32 (Z.of_nat (length (ws_Entries ws))); rc_Revision := ws_Revision ws |};
                         gr_Value := ws_Value ws; gr_Contenders := ws_Entries ws; gr_Observers := os_Observers obs;
                         gr_Partial := os_Partial obs |})
          | Ok _ => (mkNode (nd_pool x) w1, Err (E CatInternal TypeUnexpectedOutcome (Some (Text "unexpected read result"))))
          end
      end
  end.
End browse.

(** ** Task groups *)
Section groups.
Context {S A : Type} (task : S → A → S * option error) (I : S → Prop) (R : S → S → Prop) `{!PreOrder R} (post : A → S → S → Prop).
Context (Htask : ∀ s a s' e, I s → task s a = (s', e) → I s' ∧ R s s' ∧ (e = None → post a s s')).

Lemma groupTasks_from order s errs s' errs' :
  I s → foldl (λ st a, let '(s1, e) := task st.1 a in (s1, st.2 ++ from_option (λ e, [e]) [] e)) (s, errs) order = (s', errs') →
  I s' ∧ R s s' ∧
  (errs' = [] → errs = [] ∧ ∀ a, a ∈ order → ∃ s1 s2, R s s1 ∧ post a s1 s2 ∧ R s2 s').
Proof.
  revert s errs. induction order as [|a order IH]; intros s errs Hi; cbn [foldl].
  { intros [= <- <-]. split_and!; [done|done|]. intros ->. split; [done|]. by intros a ?%elem_of_nil. }
  destruct (task s a) as [s1 e] eqn:E. cbn [fst snd]. rewrite E. destruct (Htask _ _ _ _ Hi E) as (Hi1 & R1 & Hp).
  intros Hrun. destruct (IH _ _ Hi1 Hrun) as (Hi' & R2 & Hall). split_and!; [done|by etransitivity|]. intros Hn.
  destruct (Hall Hn) as [Hnil Hrest]. apply app_nil in Hnil as [-> He]. destruct e; [done|]. split; [done|].
  intros b [-> |Hb]%elem_of_cons.
  - exists s, s1. split_and!; [done|by apply Hp|done].
  - destruct (Hrest b Hb) as (s2 & s3 & ? & ? & ?). exists s2, s3. split_and!; [by etransitivity|done|done].
Qed.

Lemma groupTasks_spec order s s' errs :
  I s → groupTasks task s order = (s', errs) →
  I s' ∧ R s s' ∧ (errs = [] → ∀ a, a ∈ order → ∃ s1 s2, R s s1 ∧ post a s1 s2 ∧ R s2 s').
Proof. intros Hi Hrun. destruct (groupTasks_from _ _ _ _ _ Hi Hrun) as (? & ? & Hall). split_and!; [done|done|]. naive_solver. Qed.
End groups.

Lemma groupError_none errs : groupError errs = None ↔ errs = [].
Proof. by destruct errs. Qed.

(** ** Membership changes *)
Section members.
Context {W : Type} `{CW : Clock W} `{CL : !ClockLaws W} `{NW : NodeHost W} `{NT : Network W}.
Context {meta : Z} `{NL : !NodeHostLaws W meta} `{NTL : !NetworkLaws W (nh_valid (meta := meta))}.
Context (NewClient : string → list DialOption → option error) (hosts : Z → Host) (d : Dispatcher).
Context (Hboff : dp_boff d = {| bo_policy := FastRetryPolicy; bo_transformers := [] |}).
Context (Quote : string → string) (cfg : ClusterConfig).
Implicit Types (x : node W).

Abbreviation laterN := (λ x x', later (nd_world x) (nd_world x')).

#[export] Instance laterN_preorder : PreOrder (λ x x' : node W, later (nd_world x) (nd_world x')).
Proof. split; [by intros x|]. intros x y z ??. by etransitivity. Qed.

Lemma changeMembers_spec ctx dl bad task c order x x' (Q : Z → gmap Z string → Prop) :
  nh_valid (nd_world x) → isMeta meta (cc_MetaShardID cfg) = true → meta_proposal c →
  (∀ y sh y' e, nh_valid (nd_world y) → task y sh = (y', e) →
     nh_valid (nd_world y') ∧ laterN y y' ∧ (e = None → memberDuring sh (Q sh) (nd_world y) (nd_world y'))) →
  changeMembers NewClient hosts d Quote cfg ctx dl bad task c order x = (x', Ok tt) →
  Authorize (cc_Authorizer cfg) (IdentityFromContext ctx).1 clusterKey Admin = Ok tt ∧
  ∃ x1 s, (nh_valid (nd_world x') ∧ laterN x x1 ∧ laterN x1 x') ∧
    (∀ sh, sh ∈ order → memberDuring sh (Q sh) (nd_world x) (nd_world x1)) ∧
    meta_moved (storeOf (committed (nd_world x1) (cc_MetaShardID cfg))) s ∧
    meta_moved (runMeta s [c]) (storeOf (committed (nd_world x') (cc_MetaShardID cfg))).
Proof.
  intros Hv Hm Hc Htask. rewrite /changeMembers /authorizeCluster.
  destruct (Authorize _ _ _ _) as [[]|]; [|done]. destruct (cc_Members cfg); [|done]. destruct bad; [done|]. cbn [negb].
  destruct (groupTasks task x order) as [x1 errs] eqn:E.
  apply (groupTasks_spec task (λ y, nh_valid (nd_world y)) laterN (λ sh y y', memberDuring sh (Q sh) (nd_world y) (nd_world y'))) in E
    as (Hv1 & L1 & Hall); [|done|done]. destruct (groupError errs) as [e|] eqn:He; [done|]. apply groupError_none in He.
  rewrite /proposeMeta. destruct (DPropose _ _ _ _ _ _ _) as [x2 r] eqn:Ep. apply (DPropose_meta (meta := meta)) in Ep as (Hv2 & L2 & Hput); [|done..].
  destruct r as [rb|e]; [|done]. intros [= <-]. split; [done|]. destruct (Hput rb eq_refl) as (s & H1 & H2). exists x1, s.
  split_and!; [done..| |done|done]. intros sh Hsh. destruct (Hall He sh Hsh) as (y & y' & R1 & Hd & R2). by eapply memberDuring_later.
Qed.

(** C37: membership changes reach every shard and the topology.  When [AddNode] or [RemoveNode]
    succeeds, the caller had the Admin right.  Every hosted shard had the node among its
    members, or had it no longer, at some moment during the call: in the membership it had
    when the call began or in one decided before the topology was changed, however often the
    change was forwarded and retried; a node removed from a shard of which it had been a member
    is not a member when the call returns.  After all the shards, the topology recorded the node's
    addresses, or dropped it. *)
Theorem membership_changes ctx dl order x x' :
  nh_valid (nd_world x) → isMeta meta (cc_MetaShardID cfg) = true → order ≡ₚ h_hosted (dp_local d) →
  (∀ req, meta_proposal (Put (requestedMember req)) →
     AddNode NewClient hosts d Quote cfg ctx dl req order x = (x', Ok tt) →
     let id := an_ReplicaId req in
     Authorize (cc_Authorizer cfg) (IdentityFromContext ctx).1 clusterKey Admin = Ok tt ∧
     ∃ x1 s, laterN x x1 ∧ laterN x1 x' ∧
       (∀ sh, sh ∈ h_hosted (dp_local d) → ∃ ms, hadMembers (nd_world x) (nd_world x1) sh ms ∧ is_Some (ms !! id)) ∧
       meta_moved (storeOf (committed (nd_world x1) (cc_MetaShardID cfg))) s ∧
       members (runMeta s [Put (requestedMember req)]) !! id = Some (requestedMember req) ∧
       meta_moved (runMeta s [Put (requestedMember req)]) (storeOf (committed (nd_world x') (cc_MetaShardID cfg)))) ∧
  (∀ id, meta_proposal (Delete id) →
     RemoveNode NewClient hosts d Quote cfg ctx dl id order x = (x', Ok tt) →
     Authorize (cc_Authorizer cfg) (IdentityFromContext ctx).1 clusterKey Admin = Ok tt ∧
     ∃ x1 s, laterN x x1 ∧ laterN x1 x' ∧
       (∀ sh, sh ∈ h_hosted (dp_local d) →
          (∃ ms, hadMembers (nd_world x) (nd_world x1) sh ms ∧ ms !! id = None) ∧
          ((∃ ms, ms ∈ memberLog (nd_world x) sh ∧ is_Some (ms !! id)) → membersNow (nd_world x') sh !! id = None)) ∧
       meta_moved (storeOf (committed (nd_world x1) (cc_MetaShardID cfg))) s ∧
       members (runMeta s [Delete id]) !! id = None ∧
       meta_moved (runMeta s [Delete id]) (storeOf (committed (nd_world x') (cc_MetaShardID cfg)))).
Proof.
  intros Hv Hm Hord. split.
  - intros req Hc. rewrite /AddNode. intros E. apply (changeMembers_spec _ _ _ _ _ _ _ _ (λ _ ms, is_Some (ms !! an_ReplicaId req)))
      in E as (Ha & x1 & s & (_ & L1 & L2) & Hall & H1 & H2); [|done..|].
    + split; [done|]. exists x1, s. split_and!; [done|done| |done| |done]; [intros sh Hsh; apply Hall; by rewrite Hord|].
      cbn. by rewrite lookup_insert_eq cloneMember_id.
    + intros y sh y' e Hy. destruct (AddReplica _ _ _ _ _ _ _ _) as [y1 r] eqn:Er. intros [= <- <-].
      destruct (AddReplica_spec _ _ _ Hboff _ _ _ _ _ _ _ Hy Er) as (? & ? & Hok). split_and!; [done|done|].
      destruct r as [[]|]; [|done]. intros _. by apply Hok.
  - intros id Hc. rewrite /RemoveNode. intros E. apply (changeMembers_spec _ _ _ _ _ _ _ _ (λ _ ms, ms !! id = None))
      in E as (Ha & x1 & s & (Hv' & L1 & L2) & Hall & H1 & H2); [|done..|].
    + split; [done|]. exists x1, s. split_and!; [done|done| |done| |done]; [|cbn; by rewrite lookup_delete_eq].
      intros sh Hsh. rewrite -Hord in Hsh. split; [by apply Hall|]. apply (removed_for_good (meta := meta)); [done|by etransitivity|].
      eapply memberDuring_later; [reflexivity|by apply Hall|exact L2].
    + intros y sh y' e Hy. destruct (RemoveReplica _ _ _ _ _ _ _) as [y1 r] eqn:Er. intros [= <- <-].
      destruct (RemoveReplica_spec _ _ _ Hboff _ _ _ _ _ _ Hy Er) as (? & ? & Hok). split_and!; [done|done|].
      destruct r as [[]|]; [|done]. intros _. by apply Hok.
Qed.

(** A caller without the Admin right changes no membership: both calls are refused
    with PermissionDenied before anything is done. *)
Theorem administration_guarded ctx dl order x :
  Authorize (cc_Authorizer cfg) (IdentityFromContext ctx).1 clusterKey Admin ≠ Ok tt →
  ∃ err, statusCode (Some err) = codes.PermissionDenied ∧
    (∀ req, AddNode NewClient hosts d Quote cfg ctx dl req order x = (x, Err err)) ∧
    (∀ id, RemoveNode NewClient hosts d Quote cfg ctx dl id order x = (x, Err err)).
Proof.
  intros Hne. rewrite /AddNode /RemoveNode /changeMembers /authorizeCluster. destruct (Authorize _ _ _ _) as [[]|]; [done|].
  eexists. split_and!; [|done|done]. match goal with |- context [E _ _ (Some ?m)] => destruct (E_fresh CatPermission TypeUnauthorizedCluster m eq_refl) as (o & -> & _) end.
  done.
Qed.
End members.

(** ** What a caller may browse *)
Section covers.
(** A rule prefix that [HasPrefix] reads as it is written: at most one trailing
    slash. *)
Definition clean_prefix (q : string) : bool := negb (GoStrings.HasSuffix (TrimSuffix q "/") "/").

Lemma segments_trim p :
  segments p = segments (TrimSuffix p "/") ∨
  GoStrings.HasSuffix p "/" = true ∧ segments p = segments (TrimSuffix p "/") ++ [""].
Proof.
  destruct (GoStrings.HasSuffix p "/") eqn:E.
  - right. split; [done|]. apply HasSuffix_spec in E as [q ->]. rewrite TrimSuffix_append.
    change (q +:+ "/") with (q +:+ String slash ""). by rewrite /segments Split_append.
  - left. by rewrite TrimSuffix_no_suffix.
Qed.

Lemma prefix_snoc {A} (l k : list A) x : l `prefix_of` k ++ [x] → l `prefix_of` k ∨ l = k ++ [x].
Proof.
  intros [t Ht]. destruct t as [|y t _] using rev_ind; [right; by rewrite app_nil_r in Ht|].
  rewrite app_assoc in Ht. apply app_inj_tail in Ht as [-> _]. left. by exists t.
Qed.

(** What lies below a prefix that a rule covers is covered by the rule. *)
Lemma covers_below q p k :
  clean_prefix q = true → p ≠ "" → Keypath.HasPrefix q p = true → Keypath.HasPrefix p k = true → Keypath.HasPrefix q k = true.
Proof.
  rewrite !HasPrefix_segments. intros Hq Hp [-> |Hqp]; [by left|]. intros [?|Hpk]; [done|]. right.
  destruct (segments_trim p) as [E|[Hs E]]; rewrite E in Hqp; [by etransitivity|].
  apply prefix_snoc in Hqp as [Hqp|Heq]; [by etransitivity|]. rewrite -E in Heq. apply Split_inj in Heq.
  by rewrite /clean_prefix Heq Hs in Hq.
Qed.

(** The owner of a path owns what lies below it. *)
Lemma Owner_below p k o :
  Keypath.Owner p = Ok o → Keypath.HasPrefix p k = true → Keypath.Validate k = Ok tt → Keypath.Owner k = Ok o.
Proof.
  intros Ho Hpk (ks & Hk)%Validate_canonical. assert (Keypath.Validate p = Ok tt) as Hv.
  { rewrite /Keypath.Owner in Ho. by destruct (Keypath.Validate p) as [[]|]. }
  apply Validate_canonical in Hv as (ps & Hps). destruct (Owner_canonical p ps Hps) as (o1 & r1 & -> & _ & Ho1).
  destruct (Owner_canonical k ks Hk) as (o2 & r2 & -> & _ & ->). rewrite Ho1 in Ho. injection Ho as <-. f_equal.
  apply HasPrefix_segments in Hpk as [->|Hpk]; [by destruct Hps|]. destruct Hps as [-> _ _ Hs1], Hk as [-> _ _ Hs2].
  rewrite TrimSuffix_no_suffix in Hpk; [by apply canonical_no_trailing_slash|].
  rewrite /segments in Hpk. change (String slash ?s) with ("" +:+ String slash s) in Hpk. rewrite !Split_append in Hpk.
  rewrite !Split_canonical // in Hpk. apply prefix_app_inv in Hpk. by apply prefix_cons_inv_1 in Hpk.
Qed.

(** The policies whose rules are clean. *)
Fixpoint clean_policy (a : Authorizer) : Prop :=
  match a with
  | allowAll => True
  | prefixPolicy rules => ∀ id r, r ∈ default [] (rules !! id) → clean_prefix (rl_Prefix r) = true
  | homeDir inner => clean_policy inner
  end.

Lemma authorized_below a id p k :
  clean_policy a → p ≠ "" → Keypath.HasPrefix p k = true → Keypath.Validate k = Ok tt →
  Authorize a id p Authz.Read = Ok tt → Authorize a id k Authz.Read = Ok tt.
Proof.
  intros Ha Hp Hpk Hk. induction a as [|rules|inner IH]; cbn [Authorize clean_policy] in *; [done| |].
  - intros Hr. assert (is_ok (anyRule p Authz.Read (default [] (rules !! id))) = true) as Hok by by rewrite Hr.
    apply anyRule_ok in Hok as (r & Hin & Hc & _).
    assert (is_ok (anyRule k Authz.Read (default [] (rules !! id))) = true) as Hok'.
    { apply anyRule_ok. exists r. split_and!; [done| |done]. rewrite /prefixCovers in Hc |- *. eapply covers_below; [by eapply Ha|done..]. }
    by destruct (anyRule k _ _) as [[]|].
  - destruct (bool_decide (id ≠ "") && _); [|by apply IH]. destruct (Keypath.Owner p) as [o|] eqn:Ho.
    + rewrite (Owner_below p k o Ho Hpk Hk). case_bool_decide; [done|by apply IH].
    + intros Hr. destruct (Keypath.Owner k) as [o|]; [case_bool_decide; [done|]|]; by apply IH.
Qed.
End covers.

(** ** Listings *)
Section listing.
Context {W : Type} `{CW : Clock W} `{NW : NodeHost W} {meta : Z} `{NL : !NodeHostLaws W meta}.
Context (d : Dispatcher) (Quote : string → string) (router : Router) (authorizer : Authorizer).

(** What the node's replica of a shard lists. *)
Abbreviation local w sh := (lockOf (applied w (h_replicaID (dp_local d)) sh)).

Lemma listShard_ok prefix (moment : Z → W) acc sh acc' :
  nh_valid (moment sh) → listShard d prefix moment acc sh = (acc', None) →
  acc' = acc ++ lsums_Locks (listLocks (local (moment sh) sh) prefix).
Proof.
  intros Hv. rewrite /listShard. destruct (StaleRead _ _ _ _) as [a|] eqn:E; [|done]. apply nh_local in E; [|done].
  destruct (applied _ _ _) as [f|s]; [|done]. cbn in E. injection E as <-. by intros [= <-].
Qed.

Lemma listShards_ok prefix (moment : Z → W) order summary :
  (∀ sh, nh_valid (moment sh)) → groupTasks (listShard d prefix moment) [] order = (summary, []) →
  summary = order ≫= λ sh, lsums_Locks (listLocks (local (moment sh) sh) prefix).
Proof.
  intros Hv. rewrite /groupTasks. enough (∀ acc errs, foldl (λ st a, let '(s1, e) := listShard d prefix moment st.1 a in
    (s1, st.2 ++ from_option (λ e, [e]) [] e)) (acc, errs) order = (summary, []) →
    errs = [] ∧ summary = acc ++ (order ≫= λ sh, lsums_Locks (listLocks (local (moment sh) sh) prefix))) as Hgen.
  { intros Hrun. by destruct (Hgen _ _ Hrun) as [_ ->]. }
  induction order as [|sh order IH]; intros acc errs; cbn [foldl mbind list_bind].
  { intros [= <- <-]. by rewrite app_nil_r. }
  cbn [fst snd]. destruct (listShard d prefix moment acc sh) as [acc1 e] eqn:E. intros [Hn ->]%IH. apply app_nil in Hn as [-> He].
  destruct e; [done|]. apply listShard_ok in E as ->; [|done]. by rewrite -app_assoc.
Qed.

Lemma namespaces_spec l seen :
  NoDup seen →
  NoDup (foldl addNamespace seen l) ∧
  ∀ o, o ∈ foldl addNamespace seen l ↔ o ∈ seen ∨ ∃ s, s ∈ l ∧ Keypath.Owner (lsum_Name s) = Ok o.
Proof.
  revert seen. induction l as [|s l IH]; intros seen Hn; cbn [foldl].
  { split; [done|]. intros o. split; [by left|]. intros [?|(s & ?%elem_of_nil & _)]; done. }
  assert (NoDup (addNamespace seen s) ∧ ∀ o, o ∈ addNamespace seen s ↔ o ∈ seen ∨ Keypath.Owner (lsum_Name s) = Ok o) as [Hn1 H1].
  { rewrite /addNamespace. destruct (Keypath.Owner _) as [o|]; [|naive_solver]. case_bool_decide as Ho; [naive_solver|].
    split; [apply NoDup_app; split_and!; [done| |apply NoDup_singleton]; set_solver|]. intros o'. rewrite elem_of_app list_elem_of_singleton.
    naive_solver. }
  destruct (IH _ Hn1) as [Hn2 H2]. split; [done|]. intros o. rewrite H2 H1. setoid_rewrite elem_of_cons. naive_solver.
Qed.

(** The records of the locks of a shard under a prefix, one for each. *)
Definition shardRecords (prefix : string) (f : FSM) : list record :=
  summaryToRecord <$> ((λ x, summary_of x.1 x.2) <$> filter (λ x, Keypath.HasPrefix prefix x.1 = true) (map_to_list (locks f))).

Lemma listLocks_records f p : wf f → summaryToRecord <$> lsums_Locks (listLocks f p) ≡ₚ shardRecords p f.
Proof.
  intros Hf. rewrite /shardRecords. apply fmap_Permutation. apply NoDup_Permutation.
  - apply (NoDup_fmap_1 lsum_Name). eapply sublist_NoDup; [apply (NoDup_sortedKeys (locks f))|apply listFrom_names].
  - apply (NoDup_fmap_1 lsum_Name). rewrite -list_fmap_compose. eapply sublist_NoDup; [apply (NoDup_fst_map_to_list (locks f))|].
    apply (fmap_sublist fst), sublist_filter.
  - intros s. rewrite elem_of_listFrom // list_elem_of_fmap. setoid_rewrite elem_of_sortedKeys. split.
    + intros (n & lk & _ & H1 & H2 & ->). exists (n, lk). split; [done|]. rewrite list_elem_of_filter elem_of_map_to_list. done.
    + intros ([n lk] & -> & [H2 H1%elem_of_map_to_list]%list_elem_of_filter). exists n, lk. split_and!; [by eexists|done..].
Qed.

Lemma shards_records prefix (moment : Z → W) l :
  (∀ sh, nh_valid (moment sh)) → Forall (λ sh, isMeta meta sh = false) l →
  summaryToRecord <$> (l ≫= λ sh, lsums_Locks (listLocks (local (moment sh) sh) prefix)) ≡ₚ l ≫= λ sh, shardRecords prefix (local (moment sh) sh).
Proof.
  intros Hv. induction 1 as [|sh l Hsh Hl IH]; [done|]. cbn [mbind list_bind]. rewrite fmap_app. f_equiv; [|exact IH].
  apply listLocks_records. pose proof (nh_replica (moment sh) (h_replicaID (dp_local d)) sh (Hv sh)) as Hok.
  destruct (applied _ _ sh) as [f|s]; [by destruct Hok as (_ & ? & _)|by destruct Hok as [Hno _]; rewrite Hsh in Hno].
Qed.

(** C38: a listing is exact and guarded.  It has, in ascending order of key, one record for
    each lock that the node's replicas hold under the prefix, each shard at the moment it
    was read, and no others, and the namespaces of those keys, in ascending order without
    repetition.  The caller may read the prefix, or, to list everything, the cluster.  Under a
    policy whose prefixes end in at most one slash, the right to read a non-empty prefix extends
    to every canonical key that its listing shows; the right to read the cluster is one to see
    every key, including those the caller could not read one by one. *)
Theorem browse_exact SortFunc ctx prefix order (moment : Z → W) resp :
  (∀ l, SortFunc l ≡ₚ l ∧ StronglySorted String.le (lsum_Name <$> SortFunc l)) →
  (∀ sh, nh_valid (moment sh)) → order ≡ₚ shards router → Forall (λ sh, isMeta meta sh = false) (shards router) →
  ListRecords d Quote authorizer SortFunc ctx prefix order moment = Ok resp →
  let identity := (IdentityFromContext ctx).1 in
  StronglySorted String.le (rc_Key <$> ls_Records resp) ∧
  ls_Records resp ≡ₚ (shards router ≫= λ sh, shardRecords prefix (local (moment sh) sh)) ∧
  StronglySorted String.le (ls_Namespaces resp) ∧ NoDup (ls_Namespaces resp) ∧
  (∀ o, o ∈ ls_Namespaces resp ↔ ∃ r, r ∈ ls_Records resp ∧ Keypath.Owner (rc_Key r) = Ok o) ∧
  Authorize authorizer identity (if bool_decide (prefix = "") then clusterKey else prefix) Authz.Read = Ok tt ∧
  (prefix ≠ "" → clean_policy authorizer → ∀ r, r ∈ ls_Records resp → Keypath.Validate (rc_Key r) = Ok tt →
     Authorize authorizer identity (rc_Key r) Authz.Read = Ok tt).
Proof.
  intros Hsort Hv Hord Hlock. rewrite /ListRecords /authorizeBrowse.
  destruct (Authorize _ _ _ _) as [[]|] eqn:Hauth; [|done].
  destruct (groupTasks _ _ _) as [summary errs] eqn:E. destruct (groupError errs) eqn:He; [done|]. apply groupError_none in He as ->.
  apply listShards_ok in E as Hsum; [|done]. intros [= <-]. cbn [ls_Records ls_Namespaces].
  destruct (Hsort summary) as [Hperm Hsorted]. destruct (namespaces_spec (SortFunc summary) [] (NoDup_nil_2)) as [Hnd Hns].
  assert (summaryToRecord <$> SortFunc summary ≡ₚ (shards router ≫= λ sh, shardRecords prefix (local (moment sh) sh))) as Hrec.
  { rewrite Hperm Hsum Hord. by apply shards_records. }
  split_and!.
  - rewrite -list_fmap_compose. exact Hsorted.
  - exact Hrec.
  - apply StronglySorted_merge_sort; apply _.
  - rewrite merge_sort_Permutation. exact Hnd.
  - intros o. rewrite merge_sort_Permutation Hns. setoid_rewrite list_elem_of_fmap. split.
    + intros [?%elem_of_nil|(s & Hs & Ho)]; [done|]. eexists. split; [by exists s|exact Ho].
    + intros (r & (s & -> & Hs) & Ho). right. by exists s.
  - done.
  - intros Hp Hclean r Hr Hval. rewrite bool_decide_eq_false_2 // in Hauth.
    rewrite Hrec in Hr. apply list_elem_of_bind in Hr as (sh & (s & -> & ([n lk] & -> & [Hpre _]%list_elem_of_filter)%list_elem_of_fmap)%list_elem_of_fmap & _).
    by apply (authorized_below _ _ prefix).
Qed.
End listing.

(** ** Witnesses *)
Definition demo_cluster : ClusterConfig :=
  {| cc_Members := true; cc_MetaShardID := net_meta;
     cc_Authorizer := Prefix {["ops" := [{| rl_Prefix := "cluster"; rl_Write := true; rl_Admin := true |}]]} |}.

Definition demo_node3 : AddNodeRequest :=
  {| an_ReplicaId := 3; an_RaftAddress := "raft3"; an_ZuulGrpcAddress := "n3"; an_NodeHostId := "" |}.
Definition demo_ops : Gate.Context := {| ctx_md := None; ctx_identity := Some "ops"; ctx_peer := None |}.

Definition demo_added : node Net * result unit error :=
  AddNode demo_client demo_host demo_dispatcher (λ s, s) demo_cluster demo_ops None demo_node3 [net_meta; 1] (demo_at []).

Definition demo_removed : node Net * result unit error :=
  RemoveNode demo_client demo_host demo_dispatcher (λ s, s) demo_cluster demo_ops None 1 [net_meta; 1] (demo_at []).

(** Node 3 is added to both shards; node 1 is removed from the shard it was a member of. *)
Lemma membership_changes_witness :
  (∃ w1 ms, hadMembers (demo_net []) w1 1 ms ∧ is_Some (ms !! 3)) ∧ membersNow (nd_world demo_removed.1) 1 !! 1 = None.
Proof.
  split.
  - destruct (membership_changes (meta := net_meta) demo_client demo_host demo_dispatcher eq_refl (λ s, s) demo_cluster demo_ops None
      [net_meta; 1] (demo_at []) demo_added.1) as [Hadd _]; [apply demo_net_valid|done|constructor|].
    destruct (Hadd demo_node3) as (_ & x1 & s & _ & _ & H & _).
    + split; [by vm_compute|by vm_compute].
    + assert (demo_added.2 = Ok tt) as <- by by vm_compute. apply surjective_pairing.
    + exists (nd_world x1). apply H. constructor.
  - destruct (membership_changes (meta := net_meta) demo_client demo_host demo_dispatcher eq_refl (λ s, s) demo_cluster demo_ops None
      [net_meta; 1] (demo_at []) demo_removed.1) as [_ Hdel]; [apply demo_net_valid|done|constructor|].
    destruct (Hdel 1) as (_ & x1 & s & _ & _ & H & _).
    + split; [by vm_compute|by vm_compute].
    + assert (demo_removed.2 = Ok tt) as <- by by vm_compute. apply surjective_pairing.
    + apply H; [constructor|]. eexists. split; [apply list_elem_of_here|]. by eexists.
Defined.

(** A listing of the namespace [t], which the caller may read. *)
Definition demo_sort : list LockSummary → list LockSummary := merge_sort (λ a b, String.le (lsum_Name a) (lsum_Name b)).
Definition demo_reader : Authorizer := Prefix {["ops" := [{| rl_Prefix := "/t"; rl_Write := false; rl_Admin := false |}]]}.
Definition demo_listing : result ListRecordsResponse error :=
  ListRecords demo_dispatcher (λ s, s) demo_reader demo_sort demo_ops "/t/" [1] (λ _, nd_world demo_held).
Definition demo_response : ListRecordsResponse :=
  match demo_listing with Ok r => r | Err _ => {| ls_Records := []; ls_Namespaces := [] |} end.

Lemma demo_sort_sorts l : demo_sort l ≡ₚ l ∧ StronglySorted String.le (lsum_Name <$> demo_sort l).
Proof.
  split; [apply merge_sort_Permutation|].
  assert (∀ k, StronglySorted (λ a b, String.le (lsum_Name a) (lsum_Name b)) k → StronglySorted String.le (lsum_Name <$> k)) as Hmap.
  { induction 1 as [|a k Hs IH Ha]; cbn; constructor; [done|]. by apply Forall_fmap. }
  apply Hmap, StronglySorted_merge_sort.
  - intros a b c ??. by transitivity (lsum_Name b).
  - intros a b. exact (total String.le (lsum_Name a) (lsum_Name b)).
Qed.

Lemma demo_reader_clean : clean_policy demo_reader.
Proof. intros id rl. rewrite lookup_singleton. case_decide; cbn; [by intros ->%list_elem_of_singleton|by intros ?%elem_of_nil]. Qed.

Lemma browse_exact_witness :
  rc_Key <$> ls_Records demo_response = ["/t/x"] ∧ Authorize demo_reader "ops" "/t/x" Authz.Read = Ok tt ∧
  ls_Records demo_response ≡ₚ ([1] ≫= λ sh, shardRecords "/t/" (lockOf (net_state (nd_world demo_held) sh))).
Proof.
  destruct (browse_exact (meta := net_meta) demo_dispatcher (λ s, s) {| shards := [1] |} demo_reader demo_sort demo_ops "/t/" [1]
    (λ _, nd_world demo_held) demo_response) as (_ & Hrec & _ & _ & _ & _ & Hread).
  - apply demo_sort_sorts.
  - intros _. apply demo_held_valid.
  - done.
  - by repeat constructor.
  - by vm_compute.
  - assert (rc_Key <$> ls_Records demo_response = ["/t/x"]) as Hk by by vm_compute. split_and!; [exact Hk| |exact Hrec].
    destruct (ls_Records demo_response) as [|r l]; [done|]. injection Hk as Hk _. rewrite -Hk. apply Hread; [done|exact demo_reader_clean|by left|].
    rewrite Hk. by vm_compute.
Defined.
