(* ===== verification/Client.v ===== *)
(** * The session of a client

    client/client.go: the options of a client and the credentials they lead to, the
    session with its stream of keepalives, the heartbeat that renews the lease and
    reconnects when a pulse fails, and the report that the session is lost.

    The service behind the connection is the class [SessionService]: opening a
    stream, one request with its response, ending a stream.  Its laws say what the
    lease does at the server: a pulse that is answered while the lease is there
    extends it from the moment the pulse was sent, the first request of a stream
    does not (internal/server/server.go opens the session and attaches the leases it
    finds), and a lease that has run out is gone.  Time is that of [Clock]; both
    sides read the same one.  The connection, its resolver and the worker pool are
    not modelled. *)
From S2P Require Import Prelude GoStrings GoText Errors Fsm Gate Retry Server.

Local Open Scope string_scope.
Local Open Scope list_scope.
Local Open Scope Z_scope.

Definition ErrNotAcquired : error := Text "zuul: lock not acquired".
Definition ErrNotHeld : error := Text "zuul: not held by this client".
Definition errNoStream : error := Text "zuul: session stream not established".

(** ** Options

    A token source is a number that stands for its function, credentials are their
    [SecurityProtocol]. *)
Inductive source := Configured (f : nat) | FromMSI (resource : string) | Static (token : string).

Record AzureMSI := { msi_Resource : string; msi_ClientID : string; msi_Endpoint : string }.

Record options := mkOptions {
  o_ClientID : string;
  o_User : string;
  o_TTL : Z;
  o_AuthToken : string;
  o_TokenSource : option nat;
  o_AzureMSI : option AzureMSI;
  o_Insecure : bool;
  o_Creds : option string;
  o_DialOptions : list nat
}.
#[export] Instance options_eta : Eta options := λ o,
  mkOptions (o_ClientID o) (o_User o) (o_TTL o) (o_AuthToken o) (o_TokenSource o) (o_AzureMSI o) (o_Insecure o) (o_Creds o) (o_DialOptions o).

Definition noOptions : options := mkOptions "" "" 0 "" None None false None [].
Definition defaults (o : options) : options := o <| o_TTL := 30 * Second |>.

Definition insecureToken : error :=
  Text "insecure connection cannot be combined with a bearer token — tokens must not be sent over an unencrypted connection".
Definition unprotectedToken : error :=
  Text "a bearer token is configured but no transport credentials were provided — pass WithTransportCredentials with TLS credentials".

Definition validate (o : options) : option error :=
  if o_Insecure o && (negb (bool_decide (o_AuthToken o = "")) || bool_decide (is_Some (o_TokenSource o)) || bool_decide (is_Some (o_AzureMSI o)))
  then Some insecureToken
  else None.

Definition msiSource (a : AzureMSI) : result source error :=
  if bool_decide (msi_Resource a = "") then Err (Text "zuul: AzureMSI.Resource is required") else Ok (FromMSI (msi_Resource a)).

Definition tokenSource (o : options) : result (option source) error :=
  match o_TokenSource o, o_AzureMSI o with
  | Some f, _ => Ok (Some (Configured f))
  | None, Some a => match msiSource a with Ok s => Ok (Some s) | Err e => Err e end
  | None, None => if bool_decide (o_AuthToken o = "") then Ok None else Ok (Some (Static (o_AuthToken o)))
  end.

Definition isInsecureCreds (protocol : string) : bool := bool_decide (protocol = "insecure").

(** The dial options, in order. *)
Inductive dialOption :=
| TransportCredentials (protocol : string)
| ExtraOption (n : nat)
| MapErrors
| AttachToken (s : source)
| AttachUser (user : string).

Definition dialOptions (o : options) (src : option source) : result (list dialOption) error :=
  let secure := match o_Creds o with Some p => negb (isInsecureCreds p) | None => false end in
  if bool_decide (is_Some src) && o_Insecure o then Err insecureToken
  else if bool_decide (is_Some src) && negb secure then Err unprotectedToken
  else Ok ([TransportCredentials (default "insecure" (o_Creds o))] ++ (ExtraOption <$> o_DialOptions o) ++ [MapErrors] ++
           from_option (λ s, [AttachToken s]) [] src ++ (if bool_decide (o_User o = "") then [] else [AttachUser (o_User o)])).

(** The headers that the interceptors attach to a request or a stream, from what the
    token sources answer; an error of the source is the error of the call. *)
Fixpoint headers (ask : source → result string error) (l : list dialOption) : result (list (string * string)) error :=
  match l with
  | [] => Ok []
  | AttachToken s :: l =>
      match ask s with
      | Err e => Err e
      | Ok token => match headers ask l with Ok h => Ok (("authorization", "Bearer " +:+ token) :: h) | Err e => Err e end
      end
  | AttachUser u :: l => match headers ask l with Ok h => Ok ((UserHeader, u) :: h) | Err e => Err e end
  | _ :: l => headers ask l
  end.

(** What [New] checks before it dials. *)
Definition prepare (endpoints : list string) (o : options) : result (list dialOption) error :=
  if bool_decide (endpoints = []) then Err (Text "zuul.New: at least one endpoint is required")
  else match validate o with
       | Some e => Err (Wrapping ("zuul.New: " +:+ message e) [e])
       | None =>
           match tokenSource o with
           | Err e => Err (Wrapping ("zuul.New: " +:+ message e) [e])
           | Ok src =>
               match dialOptions o src with
               | Err e => Err (Wrapping ("zuul.New: " +:+ message e) [e])
               | Ok l => Ok l
               end
           end
       end.

(** ** The session *)
Class SessionService (W : Type) := {
  OpenStream : W → W * result nat error;
  Answer : W → nat → KeepAliveRequest → W * result KeepAliveResponse error;
  AnswerWithin : W → nat → KeepAliveRequest → Z → W * option (result KeepAliveResponse error);
  EndStream : W → nat → W
}.

Record Client := mkClient {
  cl_clientID : string;
  cl_ttl : Z;
  cl_stream : option nat;
  cl_deadlineNano : Z;
  cl_lostErr : option error;
  cl_done : bool
}.
#[export] Instance Client_eta : Eta Client := λ c,
  mkClient (cl_clientID c) (cl_ttl c) (cl_stream c) (cl_deadlineNano c) (cl_lostErr c) (cl_done c).

(** The client with the world around it. *)
Record running (W : Type) := mkRunning { rn_client : Client; rn_world : W }.
Arguments mkRunning {W} _ _.
Arguments rn_client {W} _.
Arguments rn_world {W} _.

#[export] Instance running_clock {W} `{Clock W} : Clock (running W) :=
  {| Now x := Now (rn_world x);
     Canceled x := Canceled (rn_world x);
     Timer x ctx d := let '(w1, b) := Timer (rn_world x) ctx d in (mkRunning (rn_client x) w1, b);
     Tick x ctx := let '(w1, b) := Tick (rn_world x) ctx in (mkRunning (rn_client x) w1, b) |}.

Section session.
Context {W : Type} `{Clock W, !SessionService W}.
Implicit Types (c : Client) (w : W) (x : running W).

(** [establish]: the stream it opened, if any, and the stream with its client id. *)
Definition establish c w : W * option nat * result (nat * string) error :=
  let '(w1, r) := OpenStream w in
  match r with
  | Err e => (w1, None, Err e)
  | Ok s =>
      let '(w2, r2) := Answer w1 s {| kq_ClientId := cl_clientID c; kq_TtlMs := Z.quot (cl_ttl c) Millisecond |} in
      match r2 with
      | Err e => (w2, Some s, Err (default e (FromStatus (Some e))))
      | Ok resp => (w2, Some s, Ok (s, kr_ClientId resp))
      end
  end.

Definition endIf w (s : option nat) : W := match s with Some s => EndStream w s | None => w end.

(** [setStream]: the new stream, and the end of the one before. *)
Definition setStream x (s : nat) : running W :=
  mkRunning ((rn_client x) <| cl_stream := Some s |>) (endIf (rn_world x) (cl_stream (rn_client x))).

Definition renewed x : running W :=
  mkRunning ((rn_client x) <| cl_deadlineNano := i64 (Now (rn_world x) + cl_ttl (rn_client x)) |>) (rn_world x).

Definition markLost c (err : error) : Client :=
  match cl_lostErr c with
  | None => c <| cl_lostErr := Some err |> <| cl_done := true |>
  | Some _ => c
  end.

Definition pulseInterval c : Z := let interval := Z.quot (cl_ttl c) 3 in if 0 <? interval then interval else Second.

Definition pulse x : running W * option error :=
  let c := rn_client x in
  match cl_stream c with
  | None => (x, Some (E CatUnavailable TypeBackend (Some errNoStream)))
  | Some s =>
      let '(w1, r) := AnswerWithin (rn_world x) s {| kq_ClientId := ""; kq_TtlMs := 0 |} (pulseInterval c) in
      (mkRunning c w1,
       match r with
       | None => Some (E CatUnavailable TypeBackend (Some (Text (if Canceled w1 then "context canceled" else "context deadline exceeded"))))
       | Some (Err e) => FromStatus (Some e)
       | Some (Ok _) => None
       end)
  end.

Definition permanentReconnectErr (err : error) : bool :=
  let code := statusCode (Some err) in (code =? codes.Unauthenticated) || (code =? codes.PermissionDenied).

(** One attempt to reconnect. *)
Definition reconnect x : running W * result unit error :=
  let '(w1, opened, r) := establish (rn_client x) (rn_world x) in
  match r with
  | Err e =>
      let x1 := mkRunning (rn_client x) (endIf w1 opened) in
      (x1, Err (if permanentReconnectErr e then default e (Permanent (Some e)) else e))
  | Ok (s, _) => (renewed (setStream (mkRunning (rn_client x) w1) s), Ok tt)
  end.

(** [reestablish], [None] when more than [n] waits are needed. *)
Definition reestablish (boff : Backoff) (draw : nat → Z) (n : nat) x : running W * option bool :=
  let deadline := cl_deadlineNano (rn_client x) in
  if negb (Now (rn_world x) <? deadline) then (x, Some false)
  else
    let '(x1, r) := Retry boff draw (Some deadline) (λ _, reconnect) n x in
    (x1, match r with None => None | Some (Ok _) => Some true | Some (Err _) => Some false end).

(** [heartbeat]: [Some] when it has returned, [None] while it runs ([n] rounds). *)
Fixpoint heartbeat (boff : Backoff) (draw : nat → Z) (waits n : nat) x : running W * option unit :=
  match n with
  | O => (x, None)
  | S n =>
      let '(w1, ticked) := Tick (rn_world x) None in
      let x1 := mkRunning (rn_client x) w1 in
      if negb ticked then (x1, Some tt)
      else
        let '(x2, err) := pulse x1 in
        match err with
        | None => heartbeat boff draw waits n (renewed x2)
        | Some e =>
            let '(x3, ok) := reestablish boff draw waits x2 in
            match ok with
            | None => (x3, None)
            | Some true => heartbeat boff draw waits n x3
            | Some false =>
                (if Canceled (rn_world x3) then x3 else mkRunning (markLost (rn_client x3) e) (rn_world x3), Some tt)
            end
        end
  end.

(** [New], from the options that have been checked on: the first round trip. *)
Definition newClient (o : options) w : running W :=
  mkRunning {| cl_clientID := o_ClientID o; cl_ttl := o_TTL o; cl_stream := None; cl_deadlineNano := 0; cl_lostErr := None; cl_done := false |} w.

Definition start (o : options) w : running W * option error :=
  let x := newClient o w in
  let '(w1, opened, r) := establish (rn_client x) w in
  match r with
  | Err e => (mkRunning (rn_client x) (endIf w1 opened), Some (Wrapping ("zuul.New: establish session: " +:+ message e) [e]))
  | Ok (s, id) => (renewed (setStream (mkRunning ((rn_client x) <| cl_clientID := id |>) w1) s), None)
  end.

(** [Close] of the session: the stream is ended. *)
Definition CloseClient x : running W := mkRunning (rn_client x) (endIf (rn_world x) (cl_stream (rn_client x))).
End session.

(** ** Credentials *)

(** A bearer token is never sent without protection.  When [New] gets as far as
    dialling with an interceptor that attaches a token, the connection was given real
    transport credentials, which come first among the dial options, and the insecure mode
    is off; the headers of every request then carry the token of the configured source, by
    the documented precedence. *)
Theorem token_needs_credentials endpoints o l s :
  prepare endpoints o = Ok l → AttachToken s ∈ l →
  o_Insecure o = false ∧ (∃ p, o_Creds o = Some p ∧ p ≠ "insecure" ∧ head l = Some (TransportCredentials p)) ∧
  s = match o_TokenSource o, o_AzureMSI o with
      | Some f, _ => Configured f
      | None, Some a => FromMSI (msi_Resource a)
      | None, None => Static (o_AuthToken o)
      end ∧
  ∀ ask token, ask s = Ok token → ∃ h, headers ask l = Ok h ∧ ("authorization", "Bearer " +:+ token) ∈ h.
Proof.
  rewrite /prepare. case_bool_decide; [done|]. destruct (validate o); [done|]. destruct (tokenSource o) as [src|] eqn:Hsrc; [|done].
  rewrite /dialOptions. destruct (bool_decide (is_Some src) && o_Insecure o) eqn:Hi; [done|].
  destruct (bool_decide (is_Some src) && negb _) eqn:Hs; [done|]. intros Hl Hin. injection Hl as <-.
  assert (src = Some s) as ->.
  { rewrite elem_of_cons elem_of_app list_elem_of_fmap elem_of_cons elem_of_app in Hin. destruct Hin as [?|[(? & ? & _)|[?|[Hin|Hin]]]]; [done..| |].
    - destruct src; [|by apply elem_of_nil in Hin]. apply list_elem_of_singleton in Hin. congruence.
    - case_bool_decide; [by apply elem_of_nil in Hin|]. by apply list_elem_of_singleton in Hin. }
  rewrite bool_decide_eq_true_2 // /= in Hi, Hs. apply negb_false_iff in Hs. destruct (o_Creds o) as [p|]; [|done].
  apply negb_true_iff, bool_decide_eq_false in Hs. split_and!; [done|by exists p| |].
  - rewrite /tokenSource /msiSource in Hsrc. repeat case_match; simplify_eq; by repeat case_bool_decide; simplify_eq.
  - intros ask token Ha. cbn [default from_option id app headers]. clear Hin Hi Hs Hsrc.
    induction (o_DialOptions o) as [|d ds IH]; [|exact IH]. cbn [fmap list_fmap app headers]. rewrite Ha.
    case_bool_decide; cbn [headers]; eexists; (split; [done|by left]).
Qed.

Lemma stripBearer_Bearer token : stripBearer ("Bearer " +:+ token) = token.
Proof.
  rewrite /stripBearer. assert (takeBytes 7 ("Bearer " +:+ token) = "Bearer ") as -> by by destruct token.
  assert (EqualFold "Bearer " bearerPrefix = true) as -> by by vm_compute. rewrite andb_true_r.
  assert (len bearerPrefix <=? len ("Bearer " +:+ token) = true) as ->; [|done]. apply Z.leb_le. rewrite /len /=. lia.
Qed.

(** The metadata that the server sees. *)
Definition arrives (h : list (string * string)) : gmap string (list string) :=
  foldr (λ kv m, <[kv.1 := kv.2 :: default [] (m !! kv.1)]> m) ∅ h.

(** The credentials of a client pass the gate of the server.  A client with a static token
    that the server knows (and that does not end in white space), and with no user or the
    token's own, is let through, and the handlers see the identity of the token; with
    another user it is refused. *)
Theorem credentials_pass_gate Sum256 g endpoints o l who m :
  prepare endpoints o = Ok l → o_TokenSource o = None → o_AzureMSI o = None → o_AuthToken o ≠ "" →
  TrimSpace ("Bearer " +:+ o_AuthToken o) = "Bearer " +:+ o_AuthToken o → TrimSpace (o_User o) = o_User o →
  classify m = classClient → ba_tokens (ag_bearer g) !! Sum256 (o_AuthToken o) = Some who → who ≠ "" →
  ∃ h, headers (λ s, match s with Static t => Ok t | _ => Err errNoStream end) l = Ok h ∧
    let ctx := {| ctx_md := Some (arrives h); ctx_identity := None; ctx_peer := None |} in
    if bool_decide (o_User o = "" ∨ o_User o = who) then check Sum256 g ctx m = Ok (WithIdentity ctx who)
    else ∃ e, check Sum256 g ctx m = Err e ∧ statusCode (Some e) = codes.PermissionDenied.
Proof.
  intros Hp H1 H2 H3 Ht Hu Hm Hwho Hne. assert (∃ rest, l = rest ++ [AttachToken (Static (o_AuthToken o))] ++
    (if bool_decide (o_User o = "") then [] else [AttachUser (o_User o)]) ∧
    ∀ ask k, headers ask (rest ++ k) = headers ask k) as (rest & -> & Hrest).
  { move: Hp. rewrite /prepare /tokenSource H1 H2 (bool_decide_eq_false_2 (o_AuthToken o = "")) //. case_bool_decide; [done|].
    destruct (validate o); [done|]. rewrite /dialOptions. destruct (bool_decide _ && o_Insecure o); [done|].
    destruct (bool_decide _ && negb _); [done|]. intros Hl. injection Hl as <-.
    exists ([TransportCredentials (default "insecure" (o_Creds o))] ++ (ExtraOption <$> o_DialOptions o) ++ [MapErrors]).
    split; [by rewrite /= -app_assoc|]. intros ask k. cbn [app headers]. rewrite -app_assoc. by induction (o_DialOptions o). }
  rewrite Hrest. cbn [app headers].
  assert (enabled (ag_bearer g) = true) as He.
  { rewrite /enabled. apply orb_true_intro. left. apply bool_decide_eq_true. intros E. by rewrite E lookup_empty in Hwho. }
  assert (∀ md, mdGet md "authorization" = ["Bearer " +:+ o_AuthToken o] →
    authenticate Sum256 (ag_bearer g) {| ctx_md := Some md; ctx_identity := None; ctx_peer := None |} =
      Ok (WithIdentity {| ctx_md := Some md; ctx_identity := None; ctx_peer := None |} who)) as Hauth.
  { intros md Hmd. rewrite /authenticate /= Hmd Ht.
    assert (stripBearer ("Bearer " +:+ o_AuthToken o) = o_AuthToken o) as -> by apply stripBearer_Bearer. by rewrite Hwho. }
  destruct (decide (o_User o = "")) as [Eu|Eu].
  - rewrite (bool_decide_eq_true_2 (o_User o = "")) //. cbn [headers]. eexists. split; [done|]. rewrite (bool_decide_eq_true_2 (_ ∨ _)); [by left|].
    rewrite /check Hm He Hauth; [by rewrite /arrives /mdGet /= lookup_insert_eq|].
    rewrite /reconcileUser /IdentityFromContext /= !(bool_decide_eq_true_2 (who ≠ "")) //=.
  - rewrite (bool_decide_eq_false_2 (o_User o = "")) //. cbn [headers]. eexists. split; [done|]. cbv zeta. rewrite /check Hm He Hauth;
      [by rewrite /arrives /mdGet /= lookup_insert_eq|].
    set (ctx := WithIdentity _ who). assert (firstMetadata ctx UserHeader = o_User o) as Hf.
    { rewrite /ctx /firstMetadata /arrives /mdGet /= lookup_insert_ne // lookup_insert_eq //. }
    assert (IdentityFromContext ctx = (who, true)) as Hid by by rewrite /ctx /IdentityFromContext /= bool_decide_eq_true_2.
    rewrite /reconcileUser Hf Hid /= (bool_decide_eq_true_2 (who ≠ "")) //= (bool_decide_eq_true_2 (o_User o ≠ "")) //=.
    destruct (decide (o_User o = who)) as [Ew|Ew].
    + rewrite bool_decide_eq_true_2; [by right|]. by rewrite bool_decide_eq_false_2; [intros []|].
    + rewrite bool_decide_eq_false_2; [by intros [?|?]|]. rewrite bool_decide_eq_true_2 //. by eexists.
Qed.

(** ** The lease of the session

    What the server keeps for the client, as far as the client depends on it:
    whether it still has the lease, when the lease ends, the TTL that it granted, and
    the streams that are open.  Operations do not shorten a lease; one that has ended
    is gone. *)
Class SessionLaws (W : Type) `{Clock W, !SessionService W} := {
  leased : W → Prop;
  leaseEnd : W → Z;
  grantedTTL : Z;
  openStreams : W → gset nat;
  onLease (w w' : W) : Prop := Now w ≤ Now w' ∧ leaseEnd w ≤ leaseEnd w' ∧ (leased w → Now w' ≤ leaseEnd w → leased w');
  tick_lease w w' b : Tick w None = (w', b) → onLease w w' ∧ openStreams w' = openStreams w;
  timer_lease w ctx d w' b : Timer w ctx d = (w', b) → onLease w w' ∧ openStreams w' = openStreams w;
  open_stream w w' r : OpenStream w = (w', r) →
    onLease w w' ∧ match r with
                   | Ok s => s ∉ openStreams w ∧ openStreams w' = {[s]} ∪ openStreams w
                   | Err _ => openStreams w' = openStreams w
                   end;
  answer_lease w s req w' r : Answer w s req = (w', r) → onLease w w' ∧ openStreams w' = openStreams w;
  within_lease w s req d w' r : AnswerWithin w s req d = (w', r) →
    onLease w w' ∧ openStreams w' = openStreams w ∧ (∀ resp, r = Some (Ok resp) → leased w' → Now w + grantedTTL ≤ leaseEnd w');
  end_stream w s : onLease w (EndStream w s) ∧ openStreams (EndStream w s) = openStreams w ∖ {[s]}
}.

Section lease.
Context {W : Type} `{SessionLaws W}.
Implicit Types (c : Client) (w : W) (x : running W).

(** The heartbeat keeps the lease.  Suppose the client runs on the TTL that the server grants, or less,
    and from now on ([calm]) the ticker fires within an interval and the server answers every pulse within the
    budget of an interval.  Then however long the heartbeat runs, the server still has the lease, as it had when the
    last pulse was sent; and the client has not reported a loss. *)
Theorem heartbeat_keeps_lease (calm : W → Prop) boff draw waits n x last s :
  (∀ w w', calm w → Tick w None = (w', true) → calm w' ∧ Now w' ≤ Now w + pulseInterval (rn_client x)) →
  (∀ w s req w' r, calm w → AnswerWithin w s req (pulseInterval (rn_client x)) = (w', r) →
     calm w' ∧ (∃ resp, r = Some (Ok resp)) ∧ Now w' ≤ Now w + pulseInterval (rn_client x)) →
  calm (rn_world x) →
  3 ≤ cl_ttl (rn_client x) ≤ grantedTTL → cl_stream (rn_client x) = Some s → leased (rn_world x) →
  last + grantedTTL ≤ leaseEnd (rn_world x) → last ≤ Now (rn_world x) ≤ last + pulseInterval (rn_client x) →
  let '(x', ended) := heartbeat boff draw waits n x in
  (ended = None → leased (rn_world x')) ∧ cl_lostErr (rn_client x') = cl_lostErr (rn_client x).
Proof.
  intros Htick Hans Hcalm Httl Hs Hl Hend Hlast. assert (3 * pulseInterval (rn_client x) ≤ grantedTTL) as Hi.
  { rewrite /pulseInterval. pose proof (Z.quot_rem' (cl_ttl (rn_client x)) 3) as Hq. pose proof (Z.rem_bound_pos (cl_ttl (rn_client x)) 3) as Hr.
    destruct (Z.ltb_spec 0 (Z.quot (cl_ttl (rn_client x)) 3)) as [?|Hbad]; [lia|]. exfalso. lia. }
  revert x last Htick Hans Hcalm Httl Hs Hl Hend Hlast Hi. induction n as [|n IH]; intros [c w] last Htick Hans Hcalm Httl Hs Hl Hend Hlast Hi;
    cbn [rn_client rn_world] in *; [done|]. cbn [heartbeat rn_client rn_world].
  destruct (Tick w None) as [w1 ticked] eqn:Et. destruct ticked; cbn [negb]; [|done].
  destruct (tick_lease _ _ _ Et) as [(N1 & L1 & G1) _]. destruct (Htick _ _ Hcalm Et) as [Hcalm1 T1]. rewrite /pulse. cbn [rn_client rn_world]. rewrite Hs.
  destruct (AnswerWithin w1 s _ _) as [w2 r] eqn:Ea. destruct (Hans _ _ _ _ _ Hcalm1 Ea) as (Hcalm2 & (resp & ->) & N2).
  destruct (within_lease _ _ _ _ _ _ Ea) as ((M2 & L2 & G2) & _ & R2).
  assert (leased w2) as Hl2 by (apply G2; [apply G1; [done|lia]|lia]). specialize (R2 resp eq_refl Hl2).
  apply (IH (renewed (mkRunning c w2)) (Now w1)); rewrite /renewed; cbn [rn_client rn_world]; try done; proj_simpl; try done; lia.
Qed.

(** *** Streams *)

(** The one open stream is the current one. *)
Definition accounted x : Prop := ∃ s, cl_stream (rn_client x) = Some s ∧ openStreams (rn_world x) = {[s]}.

Lemma establish_streams c w w1 opened r :
  establish c w = (w1, opened, r) →
  match opened with
  | Some s => s ∉ openStreams w ∧ openStreams w1 = {[s]} ∪ openStreams w ∧ (∀ s' id, r = Ok (s', id) → s' = s)
  | None => openStreams w1 = openStreams w ∧ ∃ e, r = Err e
  end.
Proof.
  rewrite /establish. destruct (OpenStream w) as [w0 [s|e]] eqn:Eo; apply open_stream in Eo as [_ Ho]; [|intros [= <- <- <-]; eauto].
  destruct Ho as [Hnew Ho]. destruct (Answer w0 s _) as [w2 r2] eqn:Ea. apply answer_lease in Ea as [_ Ea].
  destruct r2 as [resp|e]; intros [= <- <- <-]; (split_and!; [done|by rewrite Ea|]); naive_solver.
Qed.

Lemma setStream_accounted c w s :
  s ∉ openStreams w → accounted (mkRunning c w) → ∀ w1, openStreams w1 = {[s]} ∪ openStreams w → accounted (setStream (mkRunning c w1) s).
Proof.
  rewrite /accounted /setStream. cbn [rn_client rn_world]. intros Hnew (s0 & Hs0 & Ha) w1 E. exists s. split; [done|]. rewrite Hs0. cbn [endIf].
  destruct (end_stream w1 s0) as [_ ->]. rewrite E Ha in Hnew |- *. set_solver.
Qed.

Lemma endIf_streams w s w1 : s ∉ openStreams w → openStreams w1 = {[s]} ∪ openStreams w → openStreams (EndStream w1 s) = openStreams w.
Proof. intros Hnew E. destruct (end_stream w1 s) as [_ ->]. rewrite E. set_solver. Qed.

Lemma reconnect_accounted x : accounted x → accounted (reconnect x).1.
Proof.
  destruct x as [c w]. intros Ha. rewrite /reconnect. cbn [rn_client rn_world]. destruct (establish c w) as [[w1 opened] r] eqn:E.
  apply establish_streams in E. destruct r as [[s id]|e]; cbn [fst].
  - destruct opened as [s'|]; [|by destruct E as [_ [? ?]]]. destruct E as (Hnew & E & Es). rewrite (Es s id eq_refl).
    by apply (setStream_accounted c w s').
  - rewrite /accounted. cbn [rn_client rn_world]. destruct opened as [s'|]; cbn [endIf].
    + destruct E as (Hnew & E & _). by rewrite (endIf_streams w).
    + destruct E as [-> _]. done.
Qed.

Lemma pulse_accounted x : accounted x → accounted (pulse x).1.
Proof.
  rewrite /pulse. destruct (cl_stream (rn_client x)) as [s|] eqn:Es; [|done]. destruct (AnswerWithin _ _ _ _) as [w1 r] eqn:E.
  apply within_lease in E as (_ & E & _). rewrite /accounted. cbn [fst rn_client rn_world]. by rewrite E.
Qed.

Lemma reestablish_accounted boff draw n x :
  bo_transformers boff = [] → bo_policy boff = FastRetryPolicy → accounted x → accounted (reestablish boff draw n x).1.
Proof.
  intros Hp Hm Ha. rewrite /reestablish. destruct (negb _); [done|].
  destruct (Retry boff draw _ _ n x) as [x1 r] eqn:E. cbn [fst].
  assert (PreOrder (λ x y : running W, accounted x → accounted y)) as Hpre by (split; [by intros ??|intros a b c0 H1 H2 H3; auto]).
  eapply (Retry_spec (λ x y : running W, accounted x → accounted y)) in E; [by apply E| | |done|by rewrite Hm..].
  - intros _ y. apply reconnect_accounted.
  - intros y d. rewrite /accounted. cbn. destruct (Timer (rn_world y) _ d) as [w1 b] eqn:Et. apply timer_lease in Et as [_ Et]. cbn [fst rn_client rn_world].
    by rewrite Et.
Qed.

Lemma heartbeat_accounted boff draw waits n x :
  bo_transformers boff = [] → bo_policy boff = FastRetryPolicy → accounted x → accounted (heartbeat boff draw waits n x).1.
Proof.
  intros Hp Hm. revert x. induction n as [|n IH]; intros x Ha; [done|]. cbn [heartbeat].
  destruct (Tick (rn_world x) None) as [w1 ticked] eqn:Et. apply tick_lease in Et as [_ Et].
  assert (accounted (mkRunning (rn_client x) w1)) as H1 by by rewrite /accounted; cbn [rn_client rn_world]; rewrite Et.
  destruct ticked; cbn [negb]; [|done]. pose proof (pulse_accounted _ H1) as H2. destruct (pulse _) as [x2 [e|]]; cbn [fst] in H2; [|by apply IH].
  pose proof (reestablish_accounted boff draw waits x2 Hp Hm H2) as H3. destruct (reestablish _ _ _ _) as [x3 [[|]|]]; cbn [fst] in H3 |- *; [by apply IH| |done].
  destruct (Canceled _); [done|]. move: H3. rewrite /accounted /markLost. cbn [rn_client rn_world]. by destruct (cl_lostErr _).
Qed.

(** No stream is left behind.  From a connection without streams, a client whose first round trip
    fails has none open; otherwise, however often pulses fail and the session moves to another stream,
    exactly the current stream is open, and none after [Close]. *)
Theorem streams_accounted boff draw waits n o w x err :
  bo_transformers boff = [] → bo_policy boff = FastRetryPolicy → openStreams w = ∅ → start o w = (x, err) →
  match err with
  | Some _ => openStreams (rn_world x) = ∅
  | None => let x' := (heartbeat boff draw waits n x).1 in
            (∃ s, cl_stream (rn_client x') = Some s ∧ openStreams (rn_world x') = {[s]}) ∧ openStreams (rn_world (CloseClient x')) = ∅
  end.
Proof.
  intros Hp Hm Hw. rewrite /start. cbn [newClient rn_client rn_world].
  set (c := mkClient _ _ _ _ _ _). destruct (establish c w) as [[w1 opened] r] eqn:E. apply establish_streams in E.
  destruct r as [[s id]|e]; intros [= <- <-].
  - destruct opened as [s'|]; [|by destruct E as [_ [? ?]]]. destruct E as (Hnew & E & Es). rewrite -(Es s id eq_refl) in Hnew E.
    set (x := renewed _). assert (accounted x) as Hx by (exists s; split; [done|]; rewrite /x /= E Hw; set_solver).
    pose proof (heartbeat_accounted boff draw waits n x Hp Hm Hx) as Ha. cbv zeta. split; [exact Ha|]. destruct Ha as (s1 & Hs1 & Ha).
    rewrite /CloseClient. cbn [rn_world]. rewrite Hs1. cbn [endIf].
    destruct (end_stream (rn_world (heartbeat boff draw waits n x).1) s1) as [_ ->]. rewrite Ha. set_solver.
  - cbn [rn_world]. destruct opened as [s'|]; cbn [endIf].
    + destruct E as (Hnew & E & _). by rewrite (endIf_streams w).
    + destruct E as [-> _]. done.
Qed.
End lease.

(** ** A link to a server

    A server that grants a TTL of 30 seconds; a script says how long each operation
    takes and whether it succeeds, and when it is over operations succeed at once. *)
Record Link := mkLink {
  ln_now : Z;
  ln_script : list (Z * bool);
  ln_next : nat;
  ln_open : gset nat;
  ln_leased : bool;
  ln_end : Z
}.
#[export] Instance Link_eta : Eta Link := λ l, mkLink (ln_now l) (ln_script l) (ln_next l) (ln_open l) (ln_leased l) (ln_end l).

Definition linkTTL : Z := 30 * Second.

Definition link_pass (l : Link) (d : Z) : Link :=
  let now := ln_now l + Z.max 0 d in l <| ln_now := now |> <| ln_leased ::= λ b, b && (now <=? ln_end l) |>.
Definition link_next (l : Link) : Link * Z * bool :=
  match ln_script l with
  | [] => (l, 0, true)
  | (d, ok) :: rest => (l <| ln_script := rest |>, d, ok)
  end.

#[export] Instance Link_clock : Clock Link :=
  {| Now := ln_now; Canceled _ := false;
     Timer l _ d := (link_pass l d, true);
     Tick l _ := let '(l1, d, ok) := link_next l in (link_pass l1 d, ok) |}.

Definition broken : error := StatusError codes.Unavailable "connection reset".

#[export] Instance Link_service : SessionService Link :=
  {| OpenStream l :=
       let '(l1, d, ok) := link_next l in
       let l2 := link_pass l1 d in
       if (ok : bool) then (l2 <| ln_next ::= S |> <| ln_open ::= λ o, {[fresh (ln_open l2)]} ∪ o |>, Ok (fresh (ln_open l2))) else (l2, Err broken);
     Answer l s req :=
       let '(l1, d, ok) := link_next l in
       (link_pass l1 d, if (ok : bool) then Ok {| kr_ClientId := kq_ClientId req; kr_TtlMs := 30000; kr_DeadlineUnixNano := ln_now l1 + linkTTL |} else Err broken);
     AnswerWithin l s req budget :=
       let '(l1, d, ok) := link_next l in
       if budget <? d then (link_pass l1 budget, None)
       else
         let l2 := link_pass l1 d in
         if (ok : bool) then
           (if ln_leased l2 then l2 <| ln_end := Z.max (ln_end l2) (ln_now l1 + linkTTL) |> else l2,
            Some (Ok {| kr_ClientId := ""; kr_TtlMs := 30000; kr_DeadlineUnixNano := ln_now l1 + linkTTL |}))
         else (l2, Some (Err broken));
     EndStream l s := l <| ln_open ::= λ o, o ∖ {[s]} |> |}.

Lemma link_next_same l l1 d ok :
  link_next l = (l1, d, ok) → ln_now l1 = ln_now l ∧ ln_open l1 = ln_open l ∧ ln_leased l1 = ln_leased l ∧ ln_end l1 = ln_end l.
Proof. rewrite /link_next. by destruct (ln_script l) as [|[]]; intros [= <- <- <-]. Qed.

#[export] Instance Link_laws : SessionLaws Link.
Proof.
  refine {| leased l := ln_leased l = true; leaseEnd := ln_end; grantedTTL := linkTTL; openStreams := ln_open |}; cbn.
  - intros l l' b. destruct (link_next l) as [[l1 d] ok] eqn:E. apply link_next_same in E as (E1 & E2 & E3 & E4). intros [= <- <-].
    rewrite /link_pass. proj_simpl. rewrite E1 E2 E3 E4. split_and!; [lia|done| |done]. intros -> ?. cbn. apply Z.leb_le. lia.
  - intros l ctx d l' b [= <- <-]. rewrite /link_pass. proj_simpl. split_and!; [lia|done| |done]. intros -> ?. cbn. apply Z.leb_le. lia.
  - intros l l' r. destruct (link_next l) as [[l1 d] ok] eqn:E. apply link_next_same in E as (E1 & E2 & E3 & E4).
    destruct ok; intros [= <- <-]; rewrite /link_pass; proj_simpl; rewrite E1 E2 E3 E4; (split; [split_and!; [lia|done|]|]);
      try done; try (intros -> ?; cbn; apply Z.leb_le; lia). split; [apply is_fresh|done].
  - intros l s req l' r. destruct (link_next l) as [[l1 d] ok] eqn:E. apply link_next_same in E as (E1 & E2 & E3 & E4). intros [= <- <-].
    rewrite /link_pass. proj_simpl. rewrite E1 E2 E3 E4. split_and!; [lia|done| |done]. intros -> ?. cbn. apply Z.leb_le. lia.
  - intros l s req t l' r. destruct (link_next l) as [[l1 d] ok] eqn:E. apply link_next_same in E as (E1 & E2 & E3 & E4).
    destruct (t <? d); [intros [= <- <-]|destruct ok; [|intros [= <- <-]]]; rewrite /link_pass; proj_simpl; rewrite ?E1 ?E2 ?E3 ?E4.
    1, 3: split_and!; [lia|done|intros -> ?; cbn; apply Z.leb_le; lia|done|done].
    destruct (ln_leased l && _) eqn:El; intros [= <- <-]; proj_simpl; rewrite ?E1 ?E2 ?E3 ?E4; split_and!; try lia; try done.
    + intros Hl ?. rewrite Hl /= in El. apply Z.leb_gt in El. lia.
    + rewrite El. done.
  - intros l s. split_and!; done.
Defined.

Definition demo_backoff : Backoff := {| bo_policy := FastRetryPolicy; bo_transformers := [] |}.
Definition demo_draw (n : nat) : Z := 0.
Definition demo_link (script : list (Z * bool)) : Link := mkLink 0 script 0 ∅ true linkTTL.
Definition demo_client (ttl : Z) : options := noOptions <| o_ClientID := "a" |> <| o_TTL := ttl |>.
Definition demo_running (ttl : Z) (script : list (Z * bool)) : running Link :=
  mkRunning (mkClient "a" ttl (Some 0%nat) (i64 linkTTL) None false) (mkLink 0 script 1 {[0%nat]} true linkTTL).

Lemma token_needs_credentials_witness :
  let o := noOptions <| o_AuthToken := "s3cr3t" |> <| o_Creds := Some "tls" |> in
  ∃ l, prepare ["localhost:8443"] o = Ok l ∧ AttachToken (Static "s3cr3t") ∈ l ∧ o_Insecure o = false.
Proof.
  intros o. set (l := [TransportCredentials "tls"; MapErrors; AttachToken (Static "s3cr3t")]). exists l.
  assert (prepare ["localhost:8443"] o = Ok l) as E by by vm_compute. assert (AttachToken (Static "s3cr3t") ∈ l) as Hin by (rewrite /l; set_solver).
  split_and!; [exact E|exact Hin|]. apply (token_needs_credentials ["localhost:8443"] o l (Static "s3cr3t") E Hin).
Defined.

Lemma credentials_pass_gate_witness :
  let o := noOptions <| o_AuthToken := "s3cr3t" |> <| o_Creds := Some "tls" |> in
  let g := {| ag_bearer := {| ba_tokens := {["s3cr3t" := "alice"]}; ba_oidc := None |}; ag_guardPeer := false; ag_peerCA := None; ag_peerCNs := ∅ |} in
  ∃ h, headers (λ s, match s with Static t => Ok t | _ => Err errNoStream end) [TransportCredentials "tls"; MapErrors; AttachToken (Static "s3cr3t")] = Ok h ∧
    let ctx := {| ctx_md := Some (arrives h); ctx_identity := None; ctx_peer := None |} in
    check (λ s, s) g ctx "/zuul.v1.Locker/Lock" = Ok (WithIdentity ctx "alice").
Proof.
  intros o g.
  apply (credentials_pass_gate (λ s, s) g ["localhost:8443"] o [TransportCredentials "tls"; MapErrors; AttachToken (Static "s3cr3t")] "alice" "/zuul.v1.Locker/Lock");
    try done; by vm_compute.
Defined.

Lemma demo_tick l l' : ln_script l = [] → Tick l None = (l', true) → ln_script l' = [] ∧ Now l' ≤ Now l + 10 * Second.
Proof. cbn. rewrite /link_next. intros Hl. rewrite Hl. intros [= <-]. rewrite /link_pass. proj_simpl. rewrite /Second /Millisecond. split; [done|lia]. Qed.

Lemma demo_answer l s req l' r :
  ln_script l = [] → AnswerWithin l s req (10 * Second) = (l', r) → ln_script l' = [] ∧ (∃ resp, r = Some (Ok resp)) ∧ Now l' ≤ Now l + 10 * Second.
Proof.
  cbn. rewrite /link_next. intros Hl. rewrite Hl. destruct (Z.ltb_spec (10 * Second) 0) as [Hb|_]; [rewrite /Second /Millisecond in Hb; lia|].
  rewrite /link_pass. proj_simpl. intros [= <- <-]. split_and!; [by case_match|by eexists|]. rewrite /Second /Millisecond. case_match; proj_simpl; lia.
Qed.

Lemma heartbeat_keeps_lease_witness :
  let '(x', ended) := heartbeat demo_backoff demo_draw 5 3 (demo_running linkTTL []) in
  (ended = None → leased (rn_world x')) ∧ cl_lostErr (rn_client x') = cl_lostErr (rn_client (demo_running linkTTL [])).
Proof.
  refine (heartbeat_keeps_lease (W := Link) (λ l, ln_script l = []) demo_backoff demo_draw 5 3 (demo_running linkTTL []) 0 0 demo_tick demo_answer
    eq_refl _ eq_refl eq_refl _ _).
  - cbn. rewrite /linkTTL /Second /Millisecond. lia.
  - cbn. lia.
  - cbn. split; [lia|]. by vm_compute.
Defined.

Lemma streams_accounted_witness :
  let x := (start (demo_client linkTTL) (demo_link [(0, true); (0, true)])).1 in
  let x' := (heartbeat demo_backoff demo_draw 5 3 x).1 in
  openStreams (rn_world (CloseClient x')) = ∅.
Proof.
  intros x. pose proof (streams_accounted (W := Link) demo_backoff demo_draw 5 3 (demo_client linkTTL) (demo_link [(0, true); (0, true)]) x None
    eq_refl eq_refl eq_refl eq_refl) as [_ Hc]. exact Hc.
Defined.

(** ** What the heartbeat does not notice

    In each of these runs the server has let the lease go, so that the locks of the
    client are free for others, while the client has not reported a loss. *)

(** A reconnection is not bounded by the deadline: the second pulse fails, the first
    round trip of the new stream takes a minute, and the client goes on. *)
Example slow_reconnection_unnoticed :
  let x := (heartbeat demo_backoff demo_draw 5 2 (demo_running linkTTL [(10 * Second, true); (0, false); (0, true); (60 * Second, true)])).1 in
  ln_leased (rn_world x) = false ∧ cl_lostErr (rn_client x) = None.
Proof. by vm_compute. Qed.

(** A reconnection counts as a renewal, which it is not: after a first one the client
    takes the lease for good for another TTL, and a second one that comes after the end
    of the lease seems to be in time. *)
Example second_break_unnoticed :
  let x := (heartbeat demo_backoff demo_draw 5 3 (demo_running linkTTL [(10 * Second, true); (0, false); (0, true); (0, true);
    (10 * Second, true); (0, false); (0, true); (15 * Second, true)])).1 in
  ln_leased (rn_world x) = false ∧ cl_lostErr (rn_client x) = None.
Proof. by vm_compute. Qed.

(** The client pulses by the TTL that it asked for: with one that the server does not
    grant, the lease ends before the first pulse. *)
Example long_ttl_lapses :
  let x := (heartbeat demo_backoff demo_draw 5 2 (demo_running (600 * Second) [(200 * Second, true)])).1 in
  ln_leased (rn_world x) = false ∧ cl_lostErr (rn_client x) = None.
Proof. by vm_compute. Qed.
